(* ===== verification/_CoqProject ===== *)
-Q . S2P
Prelude.v
Net.v
Float64.v
Rounding.v
Budget.v
Limiter.v
Recent.v
Pool.v
Reservoir.v
Snapshot.v
Types.v
HashQueue.v
Retry.v
Scheduler.v
Race.v
Bootstrap.v
Routing.v
NodeId.v
Krpc.v
FailureCache.v
Metadata.v
Stats.v
Accounting.v
Pressure.v
Crawl.v
Discovery.v
PeerLookup.v
Publish.v
Ingress.v
Server.v
Node.v
Jni.v
