(* ===== verification/Prelude.v ===== *)
(** * dht-crawler: a verification development

    The repository is a BitTorrent DHT crawler: it walks the DHT with
    [find_node] queries, collects info hashes, and fetches the torrents'
    metadata from peers.  This library models its core as Rocq functions and
    proves the properties that make those parts correct.

    ** Parts of the program and where they are modelled

    - [Prelude]: panics as [option], the ordered keys of the B-tree
      collections, vectors, bytes, sorted lists, the tactics and the hint
      database [crawler].
    - [Net]: addresses, [NetMode], [NodeTuple] ([src/types.rs]), the endpoint
      filters of [src/addr.rs], [SubnetKey] of [src/node_pool.rs].
    - [Float64]: the binary64 operations the code uses, bit-exact on top of
      the Standard Library's [SpecFloat], with their finiteness lemmas.
    - [Rounding]: how far a rounded result of those operations is from the
      exact one.
    - [Budget]: the token bucket of [src/budget.rs] over binary64; the class
      [Num] behind it has an instance at exact rationals too, on which
      [Pressure] states what its arithmetic aims at.
    - [Recent], [Pool], [Reservoir]: the three structures of
      [src/node_pool.rs]: the indexed heap of recently probed endpoints, the
      FIFO candidate pool, the ring of responsive nodes with its intrusive
      ready list.
    - [Snapshot]: the stratified sampling of the ring
      ([ResponsiveReservoir::snapshot] and [SnapshotSlots]).
    - [Limiter]: the response limiter of a worker and the split of the rates
      over the workers ([src/server.rs]).
    - [Types]: options, defaults and the resolved configuration
      ([src/types.rs], [src/crawl_config.rs]).
    - [HashQueue], [Retry], [Scheduler], [Race]: [src/scheduler.rs]: the queue
      of pending hashes, the retry history, the scheduler actor, and the race
      of peer fetches inside one job.
    - [Bootstrap]: [src/bootstrap.rs] (gate and source pool).
    - [Routing]: the Patricia index of [src/routing_snapshot.rs].
    - [NodeId]: identifiers of [src/node_id.rs].
    - [Krpc]: message encoding and the readers of compact endpoint lists
      ([src/krpc.rs], [src/protocol.rs]).
    - [FailureCache], [Metadata]: [src/metadata.rs]: the cache of failing
      peers and the download protocol with its error classification.
    - [Stats]: [src/runtime_stats.rs]: the latency histograms, the counters
      and gauges with the methods that move them, both snapshots, and the
      yield counters the application registers by name.
    - [Accounting]: the calls of [src/metadata.rs] that count a fetch, over
      [Stats], for any number of fetches at once.
    - [Pressure]: the crawl rate under metadata back-pressure.
    - [Crawl]: the crawl actor of [src/crawl_engine.rs]; it composes [Pool],
      [Reservoir], [Budget], [Bootstrap], [NodeId], [Krpc] and [Pressure].
    - [Discovery]: [src/discovery.rs]: hash deduplication and the
      [sample_infohashes] actor; it composes [Budget], [Routing] and [Krpc].
    - [PeerLookup]: [src/peer_lookup.rs]: iterative [get_peers] lookups.
    - [Publish]: the snapshot arm of the crawl actor and the typing invariant
      it rests on; it composes [Crawl], [Snapshot] and [Routing].
    - [Ingress]: [src/udp_buffer.rs] and [src/udp_ingress.rs]: the buffer pool,
      the listeners and the queues of the workers.
    - [Server]: [src/server.rs]: the message handlers and the composition of
      [Publish], [Discovery], [PeerLookup] and [Limiter] into one system over
      the snapshot and the channels they share.
    - [Node]: the wiring of [DHTServer::new]: the server of [Server] with the
      scheduler, its input channel, its published queue depth and the lookups
      of its jobs.
    - [Jni]: [jni/]: the conversion of the options object ([Options]), the
      Java objects that report a torrent and their local references
      ([Objects]), and the native methods over handles ([Exports]).

    Datagrams go from a listener to a worker, which answers queries within its
    limiter and routes replies to the actor that waits for them. The crawl
    actor feeds the candidate pool from replies and discovered nodes, probes
    it at a budgeted rate, and keeps responsive nodes in the reservoir, of
    which it publishes a snapshot; the discovery actor samples nodes of the
    snapshot for hashes, the lookups ask its closest nodes for peers; hashes,
    sampled, observed or announced, go through the scheduler, whose jobs race
    the metadata fetcher over the known peers.

    ** How code is represented

    Each struct is a record with the source's fields, each method a function
    from the state to the new state.  Code that indexes, unwraps, asserts or
    loops without a structural measure returns [option]: [None] is a panic, or
    a loop that used up its fuel; the theorems show that neither happens, so
    the fuel (the length of the structure a loop consumes, or the configured
    batch limit) is always enough.  [AHashMap] and [BTreeMap] are [gmap],
    sets [gset], [Vec] and [VecDeque] lists; iteration order is only used
    where the result does not depend on it.  Actors are an event type, one
    handler function, and [run] over a list of events: bounded channels are
    queues in the state, tasks are events that may come in any order, and what
    the program reads from its environment (clock readings, random choices,
    send results, measured durations, what a peer answers) is an input of the
    event.  Statistics calls are a log in the actors; [Stats] says what each of
    them does to the counters.

    [Instant] and [Duration] are unbounded integers in nanoseconds: overflow
    of [Instant] arithmetic is outside the model.  Machine integers are kept
    in range where the code wraps or saturates; theorems about transaction or
    sequence counters assume that fewer than [2^64] steps have happened.

    Byte arrays of fixed size are lists; that they have their size is part of
    the invariants ([Publish.typed]).

    External code is a parameter: SHA-1, bencode parsing of inbound messages
    ([Class Decoder]; a reference decoder serves the round trips), the token
    hash and [hex] ([Class Hashing]), the hash of a source address, DNS,
    random sampling ([Class Sampler]) and the filter and metadata callbacks.

    ** What the theorems show

    - Histories: for any sequence of events with a clock that never goes back,
      the recent-probe heap, pool, reservoir, hash queue, scheduler, crawl
      actor, discovery actor, lookup actor and UDP ingress never panic and
      keep their invariants and limits ([recent_refines],
      [pool_history_safe], [reservoir_history_safe], [queue_history_safe],
      [scheduler_safe], [crawl_history_safe], [discovery_history_safe],
      [lookup_history_safe], [ingress_history_safe]).
    - The composed server: whatever arrives and however its tasks interleave,
      nothing panics, all invariants hold together and every datagram sent is
      well formed ([server_history_safe], [engine_history_typed]); replies
      reach the actor that waits for them ([reply_routing]); only
      announcements with the sender's token become events, and the tokens
      handed out work ([announce_authentic], [token_roundtrip]).
    - The composed node: with the scheduler's loop and its jobs among the
      tasks, still nothing panics, every job and lookup is for a hash received
      and the depth that slows the crawl is bounded and exact
      ([node_history_safe]); hashes go through the channel in order and once,
      and the scheduler behaves as it does on its own ([hash_delivery]).
    - The published sample is complete, distinct and diverse, and its cursors
      move exactly ([snapshot_correct]); revisits come from the head of the
      ready list, which is refilled from the due slots
      ([next_revisit_fifo_eligible]); datagrams reach a live worker
      ([process_packet_correct]); responses per source are bounded
      ([source_rate_bound]); lookups leave nothing overdue
      ([lookup_maintenance]).
    - Refinement of and equivalence with a simple specification: the lazy heap
      is a bounded map of deadlines, the trie answers like sorting by XOR distance
      ([closest_nodes_correct]), the failure cache is a bounded map with
      expiry, source selection a stable partition.
    - Functional behaviour on every branch: admission, probing, revisits,
      backoff, scheduling ticks, deduplication windows, pacing; when a job's
      hash is retried, as what, and what is remembered of it
      ([job_result_correct]).
    - Downloads: accepted metadata has the requested hash whatever the peer
      sends, an honest peer is served whatever the failure cache says of
      others, each outcome changes the failure cache in exactly one way, and
      the peer race respects its bounds and ends.
    - Statistics: a percentile is the reference quantile of the recorded
      durations up to its bucket ([percentile_correct]), and in any interleaving
      of fetches the counters account for each fetch once ([fetch_accounting]).
    - Bindings: an options object is either converted to what the setters
      wrote or refused with the reason, and what the crawl configuration makes
      of the converted values is exact ([options_conversion]), the local
      references alive at once are bounded ([torrent_to_java_correct]), and no
      order of native calls uses a freed handle ([natives_safe]).
    - Round trips of the KRPC encoders with a reference bencode decoder.
    - Bounds: binary64 balances stay finite and within capacity, grants over a
      window are limited by rate and burst up to a rounding error that is
      bounded too ([granted_rate_bound]), configurations are normalised.

    ** Not modelled

    Of [src/server.rs]: creating sockets, registering callbacks other than
    the filter, and shutdown; the scheduler's own shutdown and the end of its
    input are in [Scheduler], while [Node] is the process before either.
    Registered callbacks can be replaced at any time: where it matters, whether
    one is set is an input of the event.  A job is seen by [Node] through its lookup and
    its outcome, by [Race] in full; the peers a lookup finds reach the race as
    events.  The listeners of [Ingress] and the
    message handlers of [Server] are joined only by the packet a worker takes.
    Of [src/runtime_stats.rs]: the exporter of a build feature, and torn reads
    of a snapshot taken while counters move.  Of [jni/]: attaching threads and
    registering the callbacks, which is reference handling inside the virtual
    machine.  [format_bytes] is text for a reader.  The example program is a
    demonstration, and [src/lib.rs] and [src/error.rs] have no logic of their
    own. *)

From stdpp Require Export base tactics option list gmap strings numbers fin_maps.
From stdpp Require Import sorting.

(** ** Panics

    Code that indexes, unwraps or asserts returns [None] where it would
    panic.  [let!] sequences such code; it is a plain [match], so that loops
    written with it stay structurally recursive. *)

Notation "'let!' x := e 'in' k" :=
  (match e with Some x => k | None => None end)
  (at level 10, x strict pattern, e at level 200, k at level 200,
   format "'[v' 'let!'  x  :=  e  'in' '/' k ']'").

(** ** Scalars

    [std::time::Instant] and [Duration] are integers counting nanoseconds.
    Unsigned machine integers are integers or naturals in range; the places
    where the code relies on wrapping or saturation say so explicitly. *)

Abbreviation Instant := Z (only parsing).
Abbreviation Duration := Z (only parsing).

Definition from_secs (s : Z) : Duration := (s * 1000000000)%Z.
Definition from_millis (ms : Z) : Duration := (ms * 1000000)%Z.

(** [Instant::checked_duration_since]: [None] when [earlier] is later. *)
Definition checked_duration_since (now earlier : Instant) : option Duration :=
  if bool_decide (earlier ≤ now)%Z then Some (now - earlier)%Z else None.

(** [now.checked_duration_since(t).unwrap_or_default()] *)
Definition age (now t : Instant) : Duration := default 0%Z (checked_duration_since now t).

Lemma age_max now t : age now t = Z.max 0 (now - t).
Proof. unfold age, checked_duration_since. case_bool_decide; simpl; lia. Qed.

Definition u8_max : Z := 255.
Definition u32_max : Z := 4294967295.
Definition u64_max : Z := 18446744073709551615.
Definition usize_max : Z := u64_max.

Definition u64_wrapping_add (a b : Z) : Z := ((a + b) `mod` (u64_max + 1))%Z.
Definition u64_saturating_add (a b : Z) : Z := Z.min u64_max (a + b).
Definition u64_saturating_mul (a b : Z) : Z := Z.min u64_max (a * b).
Definition div_ceil (a b : Z) : Z := ((a + b - 1) `div` b)%Z.

Lemma u64_wrapping_add_small a b :
  (0 ≤ a + b ≤ u64_max)%Z → u64_wrapping_add a b = (a + b)%Z.
Proof. intros. unfold u64_wrapping_add. rewrite Z.mod_small; lia. Qed.

Lemma u64_wrapping_add_range a b : (0 ≤ u64_wrapping_add a b ≤ u64_max)%Z.
Proof.
  unfold u64_wrapping_add. pose proof (Z.mod_pos_bound (a + b) (u64_max + 1)). 
  unfold u64_max in *. lia.
Qed.

(** *** Bytes of a word *)

Local Open Scope Z_scope.

(** [u64::to_be_bytes] *)
Definition be8 (n : Z) : list Z := (λ i, (n `div` 256 ^ (7 - Z.of_nat i)) `mod` 256) <$> seq 0 8.

Lemma be8_inj n m : 0 ≤ n ≤ u64_max → 0 ≤ m ≤ u64_max → be8 n = be8 m → n = m.
Proof.
  intros Hn Hm Heq. unfold u64_max in *.
  assert (∀ k, (k ≤ 8)%nat → n `div` 256 ^ Z.of_nat k = m `div` 256 ^ Z.of_nat k) as Hd.
  2:{ specialize (Hd 0%nat ltac:(lia)). by rewrite !Z.div_1_r in Hd. }
  intros k Hk. replace k with (8 - (8 - k))%nat by lia. remember (8 - k)%nat as j.
  clear Heqj Hk k. induction j as [|j IH].
  { change (Z.of_nat (8 - 0)) with 8. rewrite !Z.div_small by (change (256 ^ 8) with 18446744073709551616; lia). done. }
  destruct (decide (8 ≤ j)%nat). { replace (8 - S j)%nat with (8 - j)%nat by lia. done. }
  assert (be8 n !! j = be8 m !! j) as Hj by congruence. unfold be8 in Hj.
  rewrite !list_lookup_fmap, !lookup_seq_lt in Hj by lia. simpl in Hj. injection Hj as Hj.
  replace (Z.of_nat (8 - S j)) with (7 - Z.of_nat j) by lia.
  replace (Z.of_nat (8 - j)) with (7 - Z.of_nat j + 1) in IH by lia.
  assert (∀ x, x `div` 256 ^ (7 - Z.of_nat j + 1) = (x `div` 256 ^ (7 - Z.of_nat j)) `div` 256) as Hs.
  { intros x. rewrite Z.pow_add_r by lia. rewrite Z.pow_1_r, Z.div_div by lia. done. }
  rewrite !Hs in IH. rewrite (Z.div_mod (n `div` 256 ^ (7 - Z.of_nat j)) 256) by done.
  rewrite (Z.div_mod (m `div` 256 ^ (7 - Z.of_nat j)) 256) by done. by rewrite Hj, IH.
Qed.

Lemma be8_byte n i : (i < 8)%nat → be8 n !! i = Some ((n `div` 256 ^ (7 - Z.of_nat i)) `mod` 256).
Proof. intros Hi. unfold be8. by rewrite list_lookup_fmap, lookup_seq_lt by lia. Qed.

Lemma be8_length n : length (be8 n) = 8%nat.
Proof. unfold be8. by rewrite length_fmap, length_seq. Qed.

Local Close Scope Z_scope.

(** ** Ordered keys

    The derived [Ord] of the key types used in the crate's [BTreeMap]s,
    [BTreeSet]s, sorts and heaps is lexicographic.  A type is ordered by
    injecting it in [list Z], compared lexicographically. *)

Fixpoint lex_cmp (l1 l2 : list Z) : comparison :=
  match l1, l2 with
  | [], [] => Eq
  | [], _ :: _ => Lt
  | _ :: _, [] => Gt
  | x :: l1, y :: l2 =>
      match Z.compare x y with
      | Eq => lex_cmp l1 l2
      | c => c
      end
  end.

Definition lex_leb (l1 l2 : list Z) : bool :=
  match lex_cmp l1 l2 with Gt => false | _ => true end.

Lemma lex_cmp_refl l : lex_cmp l l = Eq.
Proof. induction l as [|x l IH]; simpl; [done|]. by rewrite Z.compare_refl. Qed.

Lemma lex_cmp_eq l1 l2 : lex_cmp l1 l2 = Eq ↔ l1 = l2.
Proof.
  split; [|intros ->; apply lex_cmp_refl].
  revert l2; induction l1 as [|x l1 IH]; intros [|y l2]; simpl; try done.
  destruct (Z.compare_spec x y) as [->| |]; [|done..].
  intros ?%IH; congruence.
Qed.

Lemma lex_cmp_antisym l1 l2 : lex_cmp l2 l1 = CompOpp (lex_cmp l1 l2).
Proof.
  revert l2; induction l1 as [|x l1 IH]; intros [|y l2]; simpl; try done.
  rewrite (Z.compare_antisym x y). destruct (Z.compare x y); simpl; auto.
Qed.

Lemma lex_cmp_lt_trans l1 l2 l3 :
  lex_cmp l1 l2 = Lt → lex_cmp l2 l3 = Lt → lex_cmp l1 l3 = Lt.
Proof.
  revert l2 l3; induction l1 as [|x l1 IH]; intros [|y l2] [|z l3]; simpl; try done.
  destruct (Z.compare_spec x y) as [->| |]; [| |done];
    destruct (Z.compare_spec y z) as [->| |]; try done; intros H1 H2; eauto;
    destruct (Z.compare_spec x z); (done || lia).
Qed.

Class OrdKey (K : Type) := okey : K → list Z.
Class OrdKeyInj (K : Type) `{OrdKey K} := okey_inj :: Inj (=) (=) (okey (K:=K)).

Definition kcmp `{OrdKey K} (k1 k2 : K) : comparison := lex_cmp (okey k1) (okey k2).
Definition kleb `{OrdKey K} (k1 k2 : K) : bool := lex_leb (okey k1) (okey k2).
Definition kltb `{OrdKey K} (k1 k2 : K) : bool := negb (kleb k2 k1).

#[global] Instance okey_Z : OrdKey Z := λ z, [z].
#[global] Instance okey_nat : OrdKey nat := λ n, [Z.of_nat n].
#[global] Instance okey_string : OrdKey string :=
  λ s, (λ a, Z.of_nat (Ascii.nat_of_ascii a)) <$> String.list_ascii_of_string s.
#[global] Instance okey_Z_pair `{OrdKey K} : OrdKey (Z * K) := λ p, p.1 :: okey p.2.
#[global] Instance okey_Z_triple `{OrdKey K} : OrdKey (Z * Z * K) :=
  λ p, p.1.1 :: p.1.2 :: okey p.2.

#[global] Instance okey_Z_inj : OrdKeyInj Z.
Proof. intros x y [= ->]. done. Qed.
#[global] Instance okey_nat_inj : OrdKeyInj nat.
Proof. intros x y [= ?%Nat2Z.inj]. done. Qed.
#[global] Instance okey_string_inj : OrdKeyInj string.
Proof.
  intros x y H.
  assert (Inj (=) (=) (λ a, Z.of_nat (Ascii.nat_of_ascii a))) as Hinj.
  { intros a b Hab%Nat2Z.inj. by rewrite <-(Ascii.ascii_nat_embedding a), Hab, Ascii.ascii_nat_embedding. }
  apply (list_fmap_eq_inj _ Hinj) in H.
  rewrite <-(String.string_of_list_ascii_of_string x), H. apply String.string_of_list_ascii_of_string.
Qed.
#[global] Instance okey_Z_pair_inj `{OrdKeyInj K} : OrdKeyInj (Z * K).
Proof. intros [x k] [y k'] [= -> ?%okey_inj]. by subst. Qed.
#[global] Instance okey_Z_triple_inj `{OrdKeyInj K} : OrdKeyInj (Z * Z * K).
Proof. intros [[x x'] k] [[y y'] k'] [= -> -> ?%okey_inj]. by subst. Qed.

Section ordered.
Context {K : Type} `{OrdKeyInj K}.
Implicit Types k : K.

Lemma kleb_refl k : kleb k k.
Proof. unfold kleb, lex_leb. by rewrite lex_cmp_refl. Qed.

Lemma kleb_total k1 k2 : kleb k1 k2 ∨ kleb k2 k1.
Proof.
  unfold kleb, lex_leb. rewrite (lex_cmp_antisym (okey k1) (okey k2)).
  destruct (lex_cmp _ _); simpl; auto.
Qed.

Lemma kleb_antisym k1 k2 : kleb k1 k2 → kleb k2 k1 → k1 = k2.
Proof.
  unfold kleb, lex_leb. rewrite (lex_cmp_antisym (okey k1) (okey k2)).
  destruct (lex_cmp _ _) eqn:E; simpl; intros H1 H2; try done.
  by apply okey_inj, lex_cmp_eq.
Qed.

Lemma kleb_trans k1 k2 k3 : kleb k1 k2 → kleb k2 k3 → kleb k1 k3.
Proof.
  unfold kleb, lex_leb. intros H1 H2.
  destruct (lex_cmp (okey k1) (okey k2)) eqn:E1; [|destruct (lex_cmp (okey k2) (okey k3)) eqn:E2|done].
  - apply lex_cmp_eq in E1. by rewrite E1.
  - apply lex_cmp_eq in E2. rewrite <-E2. by rewrite E1.
  - by rewrite (lex_cmp_lt_trans _ _ _ E1 E2).
  - done.
Qed.

Lemma kltb_spec k1 k2 : kltb k1 k2 ↔ ¬ kleb k2 k1.
Proof. unfold kltb. destruct (kleb k2 k1); simpl; naive_solver. Qed.

Lemma kltb_kleb k1 k2 : kltb k1 k2 → kleb k1 k2.
Proof. rewrite kltb_spec. intros ?. by destruct (kleb_total k1 k2). Qed.

Lemma kltb_neq k1 k2 : kltb k1 k2 → k1 ≠ k2.
Proof. rewrite kltb_spec. intros Hn ->. apply Hn, kleb_refl. Qed.

Lemma kltb_alt k1 k2 : kltb k1 k2 ↔ kleb k1 k2 ∧ k1 ≠ k2.
Proof.
  split; [eauto using kltb_kleb, kltb_neq|].
  intros [? Hne]. apply kltb_spec. intros ?. by apply Hne, kleb_antisym.
Qed.
End ordered.

#[global] Instance kleb_preorder `{OrdKeyInj K} : PreOrder (λ k1 k2 : K, Is_true (kleb k1 k2)).
Proof. split; [intros k; apply kleb_refl|intros k1 k2 k3; apply kleb_trans]. Qed.

(** ** Least and greatest keys

    A [BTreeMap] is a [gmap] and a [BTreeSet] a [gset]; [first_key_value],
    [last_key_value] and [first] pick the extremal key. *)

Section minmax.
Context {K : Type} `{OrdKeyInj K}.
Implicit Types (k : K) (l : list K).

Definition list_min l : option K :=
  foldr (λ k acc, match acc with
                  | None => Some k
                  | Some k' => Some (if kleb k k' then k else k')
                  end) None l.

Definition list_max l : option K :=
  foldr (λ k acc, match acc with
                  | None => Some k
                  | Some k' => Some (if kleb k k' then k' else k)
                  end) None l.

Lemma list_min_spec l k : list_min l = Some k → k ∈ l ∧ ∀ k', k' ∈ l → kleb k k'.
Proof.
  revert k; induction l as [|x l IH]; simpl; [done|].
  intros k. destruct (list_min l) as [y|] eqn:E.
  - destruct (IH y eq_refl) as [Hin Hle]. intros [= <-].
    destruct (kleb x y) eqn:Hxy; (split; [rewrite elem_of_cons; naive_solver|]).
    + intros k' [->|Hk']%elem_of_cons; [apply kleb_refl|].
      eapply kleb_trans; [by rewrite Hxy|by apply Hle].
    + intros k' [->|Hk']%elem_of_cons; [|by apply Hle].
      destruct (kleb_total x y) as [Hc|Hc]; [by rewrite Hxy in Hc|done].
  - intros [= <-]. destruct l as [|z l].
    + split; [by apply list_elem_of_singleton|]. intros k' ->%list_elem_of_singleton. apply kleb_refl.
    + simpl in E. by destruct (list_min l).
Qed.

Lemma list_max_spec l k : list_max l = Some k → k ∈ l ∧ ∀ k', k' ∈ l → kleb k' k.
Proof.
  revert k; induction l as [|x l IH]; simpl; [done|].
  intros k. destruct (list_max l) as [y|] eqn:E.
  - destruct (IH y eq_refl) as [Hin Hle]. intros [= <-].
    destruct (kleb x y) eqn:Hxy; (split; [rewrite elem_of_cons; naive_solver|]).
    + intros k' [->|Hk']%elem_of_cons; [by rewrite Hxy|by apply Hle].
    + destruct (kleb_total x y) as [Hc|Hc]; [by rewrite Hxy in Hc|].
      intros k' [->|Hk']%elem_of_cons; [apply kleb_refl|].
      eapply kleb_trans; [by apply Hle|done].
  - intros [= <-]. destruct l as [|z l].
    + split; [by apply list_elem_of_singleton|]. intros k' ->%list_elem_of_singleton. apply kleb_refl.
    + simpl in E. by destruct (list_max l).
Qed.

Lemma list_min_None l : list_min l = None ↔ l = [].
Proof. destruct l; simpl; [done|]. destruct (list_min l); naive_solver. Qed.
Lemma list_max_None l : list_max l = None ↔ l = [].
Proof. destruct l; simpl; [done|]. destruct (list_max l); naive_solver. Qed.
End minmax.

Section btree.
Context {K : Type} `{Countable K, OrdKeyInj K} {V : Type}.
Implicit Types (k : K) (m : gmap K V) (s : gset K).

(** [BTreeMap::first_key_value] *)
Definition first_key_value m : option (K * V) :=
  k ← list_min (map_to_list m).*1; v ← m !! k; Some (k, v).

(** [BTreeMap::last_key_value] *)
Definition last_key_value m : option (K * V) :=
  k ← list_max (map_to_list m).*1; v ← m !! k; Some (k, v).

(** [BTreeSet::first] *)
Definition set_first s : option K := list_min (elements s).

Lemma elem_of_keys m k : k ∈ (map_to_list m).*1 ↔ is_Some (m !! k).
Proof.
  rewrite list_elem_of_fmap. split.
  - intros ([k' v] & -> & Hin). exists v. by apply elem_of_map_to_list.
  - intros [v Hv]. exists (k, v). split; [done|]. by apply elem_of_map_to_list.
Qed.

Lemma first_key_value_Some m k v :
  first_key_value m = Some (k, v) →
  m !! k = Some v ∧ ∀ k', is_Some (m !! k') → kleb k k'.
Proof.
  unfold first_key_value. intros Hf.
  destruct (list_min _) as [k0|] eqn:E; simplify_eq/=.
  apply list_min_spec in E as [_ Hle].
  destruct (m !! k0) eqn:E0; simplify_eq/=. split; [done|].
  intros k' Hk'. by apply Hle, elem_of_keys.
Qed.

Lemma last_key_value_Some m k v :
  last_key_value m = Some (k, v) →
  m !! k = Some v ∧ ∀ k', is_Some (m !! k') → kleb k' k.
Proof.
  unfold last_key_value. intros Hf.
  destruct (list_max _) as [k0|] eqn:E; simplify_eq/=.
  apply list_max_spec in E as [_ Hle].
  destruct (m !! k0) eqn:E0; simplify_eq/=. split; [done|].
  intros k' Hk'. by apply Hle, elem_of_keys.
Qed.

Lemma keys_nil m : (map_to_list m).*1 = [] → m = ∅.
Proof. intros Hn%fmap_nil_inv. by apply map_to_list_empty_iff. Qed.

Lemma first_key_value_None m : first_key_value m = None → m = ∅.
Proof.
  unfold first_key_value. destruct (list_min _) as [k|] eqn:E; simpl.
  - apply list_min_spec in E as [[v Hv]%elem_of_keys _]. by rewrite Hv.
  - intros _. by apply keys_nil, list_min_None.
Qed.

Lemma last_key_value_None m : last_key_value m = None → m = ∅.
Proof.
  unfold last_key_value. destruct (list_max _) as [k|] eqn:E; simpl.
  - apply list_max_spec in E as [[v Hv]%elem_of_keys _]. by rewrite Hv.
  - intros _. by apply keys_nil, list_max_None.
Qed.

Lemma set_first_Some s k : set_first s = Some k → k ∈ s ∧ ∀ k', k' ∈ s → kleb k k'.
Proof.
  unfold set_first. intros [Hin Hle]%list_min_spec.
  split; [set_solver|]. intros k' Hk'. apply Hle. set_solver.
Qed.

Lemma set_first_None s : set_first s = None → s = ∅.
Proof. unfold set_first. rewrite list_min_None. intros ?%elements_empty_iff. set_solver. Qed.
End btree.

(** ** Loops

    [iter_while fuel step s] runs [step] until it answers [inr] (the loop's
    [break]) or the fuel is spent; [for_loop n step s] is Rust's
    [for _ in 0..n] whose body may [break].  [step] returns [inl] to
    continue. *)

Fixpoint for_loop {S} (n : nat) (step : S → S + S) (s : S) : S :=
  match n with
  | 0 => s
  | S n => match step s with inl s' => for_loop n step s' | inr s' => s' end
  end.

Lemma for_loop_inv {S} (P : S → Prop) n step s :
  (∀ s, P s → match step s with inl s' => P s' | inr s' => P s' end) →
  P s → P (for_loop n step s).
Proof.
  intros Hstep. revert s; induction n as [|n IH]; intros s HP; simpl; [done|].
  specialize (Hstep s HP). destruct (step s); auto.
Qed.

(** ** Counting map entries by a field *)

Section count_by.
Context {K : Type} `{Countable K} {V B : Type} `{EqDecision B} (f : V → B).
Implicit Types (m : gmap K V).

Definition count_by m (b : B) : nat := size (filter (λ kv : K * V, f kv.2 = b) m).

Lemma count_by_insert m k v b :
  m !! k = None →
  count_by (<[k := v]> m) b = count_by m b + if bool_decide (f v = b) then 1 else 0.
Proof.
  intros Hn. unfold count_by. case_bool_decide as Hk.
  - rewrite map_filter_insert_True by done. rewrite map_size_insert_None; [lia|].
    apply map_lookup_filter_None. by left.
  - rewrite map_filter_insert_False by done. rewrite delete_id by done. lia.
Qed.

Lemma count_by_delete m k v b :
  m !! k = Some v → count_by m b = count_by (delete k m) b + if bool_decide (f v = b) then 1 else 0.
Proof.
  intros Hv. rewrite <-(count_by_insert _ k) by apply lookup_delete_eq. by rewrite insert_delete_id.
Qed.

Lemma count_by_zero m b k v : count_by m b = 0 → m !! k = Some v → f v ≠ b.
Proof.
  intros Hz%map_size_empty_inv Hv Heq.
  assert (filter (λ kv : K * V, f kv.2 = b) m !! k = Some v) as Hf by (by apply map_lookup_filter_Some).
  rewrite Hz in Hf. done.
Qed.
End count_by.

(** ** Lists as [Vec]s *)

(** [Vec::swap_remove]: the last element takes the removed one's place. *)
Definition swap_remove {A} (i : nat) (l : list A) : option (A * list A) :=
  x ← l !! i;
  y ← last l;
  Some (x, take (length l - 1) (<[i := y]> l)).

Lemma swap_remove_Some {A} (l : list A) (i : nat) (x : A) :
  l !! i = Some x →
  ∃ y l', swap_remove i l = Some (x, l') ∧ l !! (length l - 1) = Some y
    ∧ x :: l' ≡ₚ l
    ∧ length l' = length l - 1
    ∧ ∀ k, l' !! k = if decide (length l - 1 ≤ k) then None
                     else if decide (k = i) then Some y else l !! k.
Proof.
  intros Hx. pose proof (lookup_lt_Some _ _ _ Hx) as Hi.
  destruct (lookup_lt_is_Some_2 l (length l - 1)) as [y Hy]; [lia|].
  assert (last l = Some y) as Hlast.
  { rewrite last_lookup. by replace (Nat.pred (length l)) with (length l - 1) by lia. }
  exists y, (take (length l - 1) (<[i := y]> l)). unfold swap_remove. rewrite Hx; simpl. rewrite Hlast.
  split_and!; [done..| | |].
  - assert (l = take (length l - 1) l ++ [y]) as Hl.
    { rewrite <-(take_drop (length l - 1) l) at 1. f_equal.
      rewrite (drop_S _ y) by done. by rewrite drop_ge by lia. }
    assert (length (take (length l - 1) l) = length l - 1) as Hlen by (rewrite length_take; lia).
    destruct (decide (i = length l - 1)) as [->|Hne].
    + rewrite take_insert_ge by lia. simplify_eq. rewrite Hl at 3. by rewrite Permutation_cons_append.
    + rewrite take_insert_lt by lia. rewrite Hl at 3. set (l1 := take (length l - 1) l) in *.
      assert (l1 !! i = Some x) as Hx1 by (subst l1; rewrite lookup_take_lt; [done|lia]).
      clearbody l1. rewrite <-(take_drop_middle l1 i x Hx1) at 2.
      rewrite (insert_take_drop l1 i y) by lia. solve_Permutation.
  - rewrite length_take, length_insert. lia.
  - intros k. case_decide as Hk.
    { apply lookup_ge_None_2. rewrite length_take, length_insert. lia. }
    rewrite lookup_take_lt by lia. case_decide as Hki; [subst k|].
    + by rewrite list_lookup_insert_eq.
    + by rewrite list_lookup_insert_ne.
Qed.

(** [slice::swap] *)
Definition list_swap {A} (i j : nat) (l : list A) : option (list A) :=
  x ← l !! i; y ← l !! j; Some (<[j := x]> (<[i := y]> l)).

(** [slice::rotate_left] *)
Definition rotate_left {A} (n : nat) (l : list A) : list A := drop n l ++ take n l.

Lemma rotate_left_Permutation {A} n (l : list A) : rotate_left n l ≡ₚ l.
Proof. unfold rotate_left. rewrite Permutation_app_comm. by rewrite take_drop. Qed.

(** [Iterator::position] *)
Fixpoint position {A} (p : A → bool) (l : list A) : option nat :=
  match l with
  | [] => None
  | x :: l => if p x then Some 0 else S <$> position p l
  end.

(** ** Bits *)

(** Testing a single bit with a mask. *)
Lemma land_pow2_zero x k :
  (0 ≤ k)%Z → (Z.land x (Z.shiftl 1 k) =? 0)%Z = negb (Z.testbit x k).
Proof.
  intros Hk. rewrite Z.shiftl_1_l. destruct (Z.testbit x k) eqn:E; simpl.
  - apply Z.eqb_neq. intros H0. apply (f_equal (λ z, Z.testbit z k)) in H0.
    rewrite Z.land_spec, E, Z.pow2_bits_true, Z.bits_0 in H0 by done. done.
  - apply Z.eqb_eq, Z.bits_inj'. intros n Hn. rewrite Z.land_spec, Z.bits_0.
    destruct (decide (n = k)) as [->|Hne]; [by rewrite E|].
    rewrite Z.pow2_bits_false by done. by rewrite andb_false_r.
Qed.

(** ** Filters and sorted lists *)

Lemma filter_Forall_id {A} (P : A → Prop) `{∀ x, Decision (P x)} (l : list A) :
  Forall P l → filter P l = l.
Proof. induction 1; [done|]. rewrite filter_cons_True by done. by f_equal. Qed.

Lemma StronglySorted_lookup {A} (R : relation A) l i j x y :
  Sorted.StronglySorted R l → i < j → l !! i = Some x → l !! j = Some y → R x y.
Proof.
  intros Hs Hij Hx Hy. rewrite <-(take_drop j l) in Hs.
  eapply StronglySorted_app_1_elem_of; [exact Hs| |].
  - apply list_elem_of_lookup_2 with i. rewrite lookup_take_Some; eauto.
  - apply list_elem_of_lookup_2 with 0. rewrite lookup_drop. by rewrite Nat.add_0_r.
Qed.

Lemma StronglySorted_weaken {A} (R R' : relation A) l :
  Sorted.StronglySorted R l → (∀ x y, x ∈ l → y ∈ l → R x y → R' x y) →
  Sorted.StronglySorted R' l.
Proof.
  induction 1 as [|x l Hs IH Hx]; intros Himp; constructor.
  - apply IH. intros y z Hy Hz. apply Himp; by apply elem_of_cons; right.
  - apply Forall_forall. intros y Hy. rewrite Forall_forall in Hx.
    apply Himp; [set_solver|set_solver|by apply Hx].
Qed.

Lemma StronglySorted_suffix {A} (R : relation A) l l' :
  l `suffix_of` l' → Sorted.StronglySorted R l' → Sorted.StronglySorted R l.
Proof. intros [k ->] Hs. induction k as [|x k IH]; [done|]. inversion Hs. auto. Qed.

Lemma StronglySorted_snoc {A} (R : relation A) l x :
  Sorted.StronglySorted R l → Forall (λ y, R y x) l → Sorted.StronglySorted R (l ++ [x]).
Proof.
  intros Hs Hall. apply StronglySorted_app_2; [|done|by repeat constructor].
  rewrite Forall_forall in Hall. intros y z Hy Hz. apply list_elem_of_singleton in Hz as ->. by apply Hall.
Qed.

(** ** Automation

    [bind_inv H] opens a successful run of panicking code: from
    [H : (let! x := e in k) = Some r] it learns [e = Some x], repeatedly.
    The database [crawler] holds the order and size facts that close side
    conditions. *)

Ltac bind_inv H :=
  repeat match type of H with
  | (match ?e with Some _ => _ | None => None end) = Some _ =>
      let E := fresh "E" in destruct e eqn:E; [|discriminate H]
  end.

(** Splits a component's progress lemma [∃ s', f s = Some s' ∧ …] and runs the
    goal forward with it. *)
Tactic Notation "run" "with" constr(H) "as" simple_intropattern(p) :=
  destruct H as p; try match goal with
  | E : ?e = Some _ |- context [match ?e with _ => _ end] => rewrite E; cbn [fst snd]
  end.

Create HintDb crawler.
#[export] Hint Resolve kleb_refl kltb_kleb rotate_left_Permutation : crawler.
#[export] Hint Resolve u64_wrapping_add_range : crawler.
#[export] Hint Extern 1 (_ ≤ _)%Z => lia : crawler.
#[export] Hint Extern 1 (_ < _)%Z => lia : crawler.
#[export] Hint Extern 1 (_ ≤ _) => lia : crawler.
#[export] Hint Extern 1 (_ < _) => lia : crawler.
