(* ===== verification/Net.v ===== *)
(** * Addresses and node tuples

    [src/types.rs] ([NetMode], [NodeTuple]), [src/addr.rs] (endpoint filters)
    and the [SubnetKey] of [src/node_pool.rs], over a model of
    [std::net::{Ipv4Addr, Ipv6Addr, SocketAddr}].  Octets are integers in
    [0, 255]; an IPv6 socket address carries the flow info and scope id that
    take part in its equality and order. *)

From S2P Require Import Prelude.

Local Open Scope Z_scope.

(** ** std::net *)

Inductive SocketAddr :=
  | SocketAddrV4 (a b c d : Z) (port : Z)
  | SocketAddrV6 (octets : list Z) (port flowinfo scope_id : Z).

#[global] Instance SocketAddr_eq_dec : EqDecision SocketAddr.
Proof. solve_decision. Defined.

#[global] Instance SocketAddr_countable : Countable SocketAddr.
Proof.
  refine (inj_countable'
    (λ x, match x with
          | SocketAddrV4 a b c d p => inl (a, b, c, d, p)
          | SocketAddrV6 o p f s => inr (o, p, f, s)
          end)
    (λ x, match x with
          | inl (a, b, c, d, p) => SocketAddrV4 a b c d p
          | inr (o, p, f, s) => SocketAddrV6 o p f s
          end) _).
  by intros [].
Defined.

(** Derived [Ord]: V4 before V6, then address, port, flow info, scope id. *)
#[global] Instance okey_SocketAddr : OrdKey SocketAddr := λ x,
  match x with
  | SocketAddrV4 a b c d p => [4; a; b; c; d; p]
  | SocketAddrV6 o p f s => 6 :: o ++ [p; f; s]
  end.

#[global] Instance okey_SocketAddr_inj : OrdKeyInj SocketAddr.
Proof.
  intros [a b c d p|o p f s] [a' b' c' d' p'|o' p' f' s']; try done.
  - by intros [= -> -> -> -> ->].
  - unfold okey, okey_SocketAddr. intros [= Heq].
    apply app_inj_2 in Heq as [-> [= -> -> ->]]; done.
Qed.

Definition port (x : SocketAddr) : Z :=
  match x with SocketAddrV4 _ _ _ _ p => p | SocketAddrV6 _ p _ _ => p end.
Definition is_ipv4 (x : SocketAddr) : bool :=
  match x with SocketAddrV4 _ _ _ _ _ => true | _ => false end.
Definition is_ipv6 (x : SocketAddr) : bool := negb (is_ipv4 x).

(** [SocketAddr::new(addr.ip(), port)]: a fresh V6 endpoint has no flow info
    and scope id zero. *)
Definition with_ip_port (x : SocketAddr) (p : Z) : SocketAddr :=
  match x with
  | SocketAddrV4 a b c d _ => SocketAddrV4 a b c d p
  | SocketAddrV6 o _ _ _ => SocketAddrV6 o p 0 0
  end.

Definition is_byte (z : Z) : Prop := 0 ≤ z < 256.

(** What the type system guarantees of a [SocketAddr]. *)
Definition addr_wf (x : SocketAddr) : Prop :=
  match x with
  | SocketAddrV4 a b c d p => is_byte a ∧ is_byte b ∧ is_byte c ∧ is_byte d ∧ 0 ≤ p < 65536
  | SocketAddrV6 o p f s => length o = 16%nat ∧ Forall is_byte o ∧ 0 ≤ p < 65536
  end.

(** ** types.rs *)

Inductive NetMode := Ipv4Only | Ipv6Only | DualStack.

#[global] Instance NetMode_eq_dec : EqDecision NetMode.
Proof. solve_decision. Defined.

Record NodeTuple := mkNode { id : list Z; addr : SocketAddr }.

#[global] Instance NodeTuple_eq_dec : EqDecision NodeTuple.
Proof. solve_decision. Defined.

Definition node_wf (n : NodeTuple) : Prop :=
  length (id n) = 20%nat ∧ Forall is_byte (id n) ∧ addr_wf (addr n).

(** ** addr.rs *)

Definition addr_allowed_by_netmode (a : SocketAddr) (netmode : NetMode) : bool :=
  match netmode with
  | Ipv4Only => is_ipv4 a
  | Ipv6Only => is_ipv6 a
  | DualStack => true
  end.

(** [Ipv4Addr]'s classification methods. *)
Definition v4_is_unspecified (a b c d : Z) : bool :=
  (a =? 0) && (b =? 0) && (c =? 0) && (d =? 0).
Definition v4_is_loopback (a b c d : Z) : bool := a =? 127.
Definition v4_is_private (a b c d : Z) : bool :=
  (a =? 10) || ((a =? 172) && (16 <=? b) && (b <=? 31)) || ((a =? 192) && (b =? 168)).
Definition v4_is_link_local (a b c d : Z) : bool := (a =? 169) && (b =? 254).
Definition v4_is_multicast (a b c d : Z) : bool := (224 <=? a) && (a <=? 239).
Definition v4_is_broadcast (a b c d : Z) : bool :=
  (a =? 255) && (b =? 255) && (c =? 255) && (d =? 255).
Definition v4_is_documentation (a b c d : Z) : bool :=
  ((a =? 192) && (b =? 0) && (c =? 2)) || ((a =? 198) && (b =? 51) && (c =? 100))
  || ((a =? 203) && (b =? 0) && (c =? 113)).

Definition is_valid_ipv4_node_addr (a b c d : Z) : bool :=
  let is_cgnat := (a =? 100) && (Z.land b 192 =? 64) in
  let is_benchmark := (a =? 198) && ((b =? 18) || (b =? 19)) in
  let is_reserved := 240 <=? a in
  negb (v4_is_unspecified a b c d)
  && negb (v4_is_loopback a b c d)
  && negb (v4_is_private a b c d)
  && negb (v4_is_link_local a b c d)
  && negb (v4_is_multicast a b c d)
  && negb (v4_is_broadcast a b c d)
  && negb (v4_is_documentation a b c d)
  && negb is_cgnat
  && negb is_benchmark
  && negb is_reserved.

Definition v6_is_unspecified (o : list Z) : bool := forallb (λ x, x =? 0) o.
Definition v6_is_loopback (o : list Z) : bool :=
  forallb (λ x, x =? 0) (take 15 o) && ((o !!! 15%nat) =? 1).
Definition v6_is_multicast (o : list Z) : bool := (o !!! 0%nat) =? 255.

Definition is_valid_ipv6_node_addr (o : list Z) : bool :=
  let is_unique_local := Z.land (o !!! 0%nat) 254 =? 252 in
  let is_unicast_link_local := ((o !!! 0%nat) =? 254) && (Z.land (o !!! 1%nat) 192 =? 128) in
  let is_documentation :=
    ((o !!! 0%nat) =? 32) && ((o !!! 1%nat) =? 1) && ((o !!! 2%nat) =? 13)
    && ((o !!! 3%nat) =? 184) in
  negb (v6_is_unspecified o)
  && negb (v6_is_loopback o)
  && negb (v6_is_multicast o)
  && negb is_unique_local
  && negb is_unicast_link_local
  && negb is_documentation.

Definition is_valid_node_addr (x : SocketAddr) : bool :=
  if port x =? 0 then false else
  match x with
  | SocketAddrV4 a b c d _ => is_valid_ipv4_node_addr a b c d
  | SocketAddrV6 o _ _ _ => is_valid_ipv6_node_addr o
  end.

(** ** SubnetKey (node_pool.rs) *)

Inductive SubnetKey := SubnetV4 (prefix : list Z) | SubnetV6 (prefix : list Z).

#[global] Instance SubnetKey_eq_dec : EqDecision SubnetKey.
Proof. solve_decision. Defined.
#[global] Instance SubnetKey_countable : Countable SubnetKey.
Proof.
  refine (inj_countable'
    (λ x, match x with SubnetV4 p => inl p | SubnetV6 p => inr p end)
    (λ x, match x with inl p => SubnetV4 p | inr p => SubnetV6 p end) _).
  by intros [].
Defined.

Definition subnet_from_addr (x : SocketAddr) : SubnetKey :=
  match x with
  | SocketAddrV4 a b c _ _ => SubnetV4 [a; b; c]
  | SocketAddrV6 o _ _ _ => SubnetV6 (take 8 o)
  end.

(** ** Equivalence with the address registry

    [is_valid_ipv4_node_addr] is written octet by octet; the reference is the
    list of excluded blocks, each a base address and a prefix length, tested
    on the 32-bit value of the address. *)

Definition v4_u32 (a b c d : Z) : Z := a * 16777216 + b * 65536 + c * 256 + d.

Definition in_block (ip : Z) (blk : Z * Z) : bool :=
  (ip `div` 2 ^ (32 - blk.2)) =? (blk.1 `div` 2 ^ (32 - blk.2)).

Definition excluded_v4_blocks : list (Z * Z) :=
  [ (v4_u32 0 0 0 0, 32);      (* unspecified *)
    (v4_u32 127 0 0 0, 8);     (* loopback *)
    (v4_u32 10 0 0 0, 8); (v4_u32 172 16 0 0, 12); (v4_u32 192 168 0 0, 16);
    (v4_u32 169 254 0 0, 16);  (* link local *)
    (v4_u32 192 0 2 0, 24); (v4_u32 198 51 100 0, 24); (v4_u32 203 0 113 0, 24);
    (v4_u32 100 64 0 0, 10);   (* carrier-grade NAT *)
    (v4_u32 198 18 0 0, 15);   (* benchmarking *)
    (v4_u32 224 0 0 0, 4);     (* multicast *)
    (v4_u32 240 0 0 0, 4) ].   (* reserved, with the broadcast address *)

Lemma in_block_8 a b c d x :
  is_byte b → is_byte c → is_byte d →
  in_block (v4_u32 a b c d) (v4_u32 x 0 0 0, 8) = (a =? x).
Proof.
  unfold in_block, v4_u32, is_byte; simpl. intros. 
  rewrite <-(Z.div_unique (a * 16777216 + b * 65536 + c * 256 + d) (2 ^ (32 - 8)) a
             (b * 65536 + c * 256 + d)) by lia.
  rewrite <-(Z.div_unique (x * 16777216 + 0 * 65536 + 0 * 256 + 0) (2 ^ (32 - 8)) x 0) by lia. done.
Qed.

(** Splitting a 32-bit value at a bit inside its second octet. *)
Lemma in_block_mid a b c d x y len q :
  is_byte b → is_byte c → is_byte d → is_byte y →
  8 ≤ len ≤ 16 → q = 2 ^ (16 - len) →
  in_block (v4_u32 a b c d) (v4_u32 x y 0 0, len) = (a =? x) && (b `div` q =? y `div` q).
Proof.
  intros Hb Hc Hd Hy Hl ->. unfold in_block, v4_u32, is_byte in *; simpl.
  replace (32 - len) with (16 + (16 - len)) by lia.
  rewrite !Z.pow_add_r by lia. rewrite <-!Z.div_div by lia.
  rewrite <-(Z.div_unique (a * 16777216 + b * 65536 + c * 256 + d) (2 ^ 16) (a * 256 + b)
             (c * 256 + d)) by lia.
  rewrite <-(Z.div_unique (x * 16777216 + y * 65536 + 0 * 256 + 0) (2 ^ 16) (x * 256 + y) 0) by lia.
  set (q := 2 ^ (16 - len)).
  assert (∃ r, 0 < q ∧ 256 = q * r) as (r & Hq & Hr).
  { exists (2 ^ (len - 8)). unfold q. split; [lia|]. rewrite <-Z.pow_add_r by lia.
    replace (16 - len + (len - 8)) with 8 by lia. done. }
  rewrite Hr. replace (a * (q * r) + b) with (b + a * r * q) by lia.
  replace (x * (q * r) + y) with (y + x * r * q) by lia.
  rewrite !Z.div_add by lia.
  assert (0 < r) by nia.
  assert (∀ z, 0 ≤ z < 256 → 0 ≤ z `div` q < r) as Hbd.
  { intros z Hz. split; [apply Z.div_pos; lia|]. apply Z.div_lt_upper_bound; lia. }
  pose proof (Hbd b Hb). pose proof (Hbd y Hy).
  destruct (Z.eqb_spec a x) as [->|]; simpl.
  - apply Bool.eq_iff_eq_true. rewrite !Z.eqb_eq. lia.
  - apply Z.eqb_neq. nia.
Qed.

Lemma in_block_24 a b c d x y z :
  is_byte a → is_byte b → is_byte c → is_byte d → is_byte x → is_byte y → is_byte z →
  in_block (v4_u32 a b c d) (v4_u32 x y z 0, 24) = (a =? x) && (b =? y) && (c =? z).
Proof.
  unfold in_block, v4_u32, is_byte; simpl. intros.
  rewrite <-(Z.div_unique (a * 16777216 + b * 65536 + c * 256 + d) (2 ^ (32 - 24))
             (a * 65536 + b * 256 + c) d) by lia.
  rewrite <-(Z.div_unique (x * 16777216 + y * 65536 + z * 256 + 0) (2 ^ (32 - 24))
             (x * 65536 + y * 256 + z) 0) by lia.
  apply Bool.eq_iff_eq_true. rewrite !andb_true_iff, !Z.eqb_eq. lia.
Qed.

Lemma in_block_32_zero a b c d :
  is_byte a → is_byte b → is_byte c → is_byte d →
  in_block (v4_u32 a b c d) (v4_u32 0 0 0 0, 32) = v4_is_unspecified a b c d.
Proof.
  unfold in_block, v4_u32, is_byte, v4_is_unspecified; simpl. intros.
  rewrite !Z.div_1_r. apply Bool.eq_iff_eq_true. rewrite !andb_true_iff, !Z.eqb_eq. lia.
Qed.

Lemma in_block_4 a b c d x :
  is_byte b → is_byte c → is_byte d →
  in_block (v4_u32 a b c d) (v4_u32 (x * 16) 0 0 0, 4) = (a `div` 16 =? x).
Proof.
  unfold in_block, v4_u32, is_byte; simpl. intros.
  replace (32 - 4) with (24 + 4) by lia. rewrite Z.pow_add_r, <-!Z.div_div by lia.
  rewrite <-(Z.div_unique (a * 16777216 + b * 65536 + c * 256 + d) (2 ^ 24) a
             (b * 65536 + c * 256 + d)) by lia.
  rewrite <-(Z.div_unique (x * 16 * 16777216 + 0 * 65536 + 0 * 256 + 0) (2 ^ 24) (x * 16) 0) by lia.
  rewrite Z.div_mul by done. done.
Qed.

(** The CGNAT test of the code masks the two top bits of the second octet. *)
Lemma land_top2 b : is_byte b → (Z.land b 192 =? 64) = (b `div` 64 =? 1).
Proof.
  unfold is_byte. intros Hb.
  assert (b = Z.of_nat (Z.to_nat b)) as -> by lia.
  assert (Z.to_nat b < 256)%nat as Hn by lia. revert Hn. generalize (Z.to_nat b). clear b Hb.
  intros n Hn.
  assert (forallb (λ k, Bool.eqb (Z.land (Z.of_nat k) 192 =? 64) (Z.of_nat k `div` 64 =? 1))
            (seq 0 256)) as Hall by (vm_compute; exact I).
  rewrite Is_true_true, forallb_forall in Hall. apply eqb_prop, Hall, in_seq. lia.
Qed.

(** Whether the octet tests agree with the registry's blocks. *)
Lemma is_valid_ipv4_blocks a b c d :
  is_byte a → is_byte b → is_byte c → is_byte d →
  is_valid_ipv4_node_addr a b c d
  = negb (existsb (in_block (v4_u32 a b c d)) excluded_v4_blocks).
Proof.
  intros Ha Hb Hc Hd. unfold excluded_v4_blocks. cbn [existsb].
  assert (∀ z, 0 ≤ z < 256 → is_byte z) as B by done.
  rewrite in_block_32_zero, !in_block_8 by done.
  rewrite (in_block_mid _ _ _ _ 172 16 12 16), (in_block_mid _ _ _ _ 192 168 16 1),
    (in_block_mid _ _ _ _ 169 254 16 1), (in_block_mid _ _ _ _ 100 64 10 64),
    (in_block_mid _ _ _ _ 198 18 15 2) by (done || (apply B; lia) || lia).
  rewrite !in_block_24 by (done || (apply B; lia)).
  change 224 with (14 * 16). change 240 with (15 * 16) at 1.
  rewrite !in_block_4 by done.
  unfold is_valid_ipv4_node_addr, v4_is_loopback, v4_is_private, v4_is_link_local,
    v4_is_multicast, v4_is_broadcast, v4_is_documentation.
  rewrite land_top2 by done.
  rewrite !Z.div_1_r.
  change (64 `div` 64) with 1. change (16 `div` 16) with 1. change (18 `div` 2) with 9.
  unfold is_byte in *.
  assert (Hb16 : ((16 <=? b) && (b <=? 31)) = (b `div` 16 =? 1)).
  { apply Bool.eq_iff_eq_true. rewrite andb_true_iff, !Z.leb_le, Z.eqb_eq.
    Z.to_euclidean_division_equations. lia. }
  assert (Hb2 : ((b =? 18) || (b =? 19)) = (b `div` 2 =? 9)).
  { apply Bool.eq_iff_eq_true. rewrite orb_true_iff, !Z.eqb_eq.
    Z.to_euclidean_division_equations. lia. }
  assert (Ha14 : ((224 <=? a) && (a <=? 239)) = (a `div` 16 =? 14)).
  { apply Bool.eq_iff_eq_true. rewrite andb_true_iff, !Z.leb_le, Z.eqb_eq.
    Z.to_euclidean_division_equations. lia. }
  assert (Ha15 : (240 <=? a) = (a `div` 16 =? 15)).
  { apply Bool.eq_iff_eq_true. rewrite Z.leb_le, Z.eqb_eq.
    Z.to_euclidean_division_equations. lia. }
  assert (Hbc : (a =? 255) && (b =? 255) && (c =? 255) && (d =? 255) = true →
                (a `div` 16 =? 15) = true).
  { rewrite !andb_true_iff, !Z.eqb_eq. intros [[[-> _] _] _]. done. }
  rewrite <-(andb_assoc (a =? 172)), Hb16, Hb2, Ha14, Ha15.
  destruct ((a =? 255) && (b =? 255) && (c =? 255) && (d =? 255)) eqn:E255.
  - rewrite (Hbc eq_refl). rewrite ?orb_true_r, ?andb_false_r. done.
  - clear. rewrite !orb_false_r.
    destruct (v4_is_unspecified a b c d), (a =? 127), (a =? 10); simpl; try done;
    destruct ((a =? 172) && (b `div` 16 =? 1)), ((a =? 192) && (b =? 168)); simpl; try done;
    destruct ((a =? 169) && (b =? 254)), (a `div` 16 =? 14), (a `div` 16 =? 15); simpl;
      rewrite ?andb_false_r, ?orb_true_r; try done;
    destruct ((a =? 192) && (b =? 0) && (c =? 2)), ((a =? 198) && (b =? 51) && (c =? 100)),
      ((a =? 203) && (b =? 0) && (c =? 113)), ((a =? 100) && (b `div` 64 =? 1)),
      ((a =? 198) && (b `div` 2 =? 9)); done.
Qed.
