(* ===== verification/Float64.v ===== *)
(** * IEEE-754 binary64 as used by the rate buckets

    [src/budget.rs] and [src/crawl_config.rs] compute with [f64].  The model
    computes bit-exactly with the Standard Library's [SpecFloat] at precision
    53 and maximal exponent 1024; this file adds the conversions the code
    uses and proves what the buckets rely on: nonnegative numbers stay
    nonnegative and never become NaN, and subtracting never increases. *)

From Stdlib Require Import SpecFloat.
From S2P Require Import Prelude.

Local Open Scope Z_scope.

Abbreviation f64 := spec_float.
Abbreviation prec := 53 (only parsing).
Abbreviation emax := 1024 (only parsing).
Abbreviation fe := (fexp prec emax) (only parsing).

Definition f64_of_Z (z : Z) : f64 := binary_normalize prec emax z 0 false.
Definition f64_zero : f64 := S754_zero false.
Definition f64_add : f64 → f64 → f64 := SFadd prec emax.
Definition f64_sub : f64 → f64 → f64 := SFsub prec emax.
Definition f64_mul : f64 → f64 → f64 := SFmul prec emax.
Definition f64_div : f64 → f64 → f64 := SFdiv prec emax.
Definition f64_leb : f64 → f64 → bool := SFleb.
Definition f64_ltb : f64 → f64 → bool := SFltb.

Definition f64_is_nan (x : f64) : bool := match x with S754_nan => true | _ => false end.

(** [f64::min] and [f64::max] ignore a NaN operand. *)
Definition f64_min (x y : f64) : f64 :=
  if f64_is_nan x then y else if f64_is_nan y then x else if f64_leb x y then x else y.
Definition f64_max (x y : f64) : f64 :=
  if f64_is_nan x then y else if f64_is_nan y then x else if f64_leb y x then x else y.

(** [x.floor() as usize]: the cast saturates and sends NaN to zero. *)
Definition f64_floor_usize (x : f64) : Z :=
  match x with
  | S754_zero _ | S754_nan => 0
  | S754_infinity s => if s then 0 else usize_max
  | S754_finite s m e =>
      if s then 0
      else Z.min usize_max
             (if 0 <=? e then Z.pos m * 2 ^ e else Z.pos m `div` 2 ^ (- e))
  end.

(** ** Digits and exponents *)

Lemma digits2_bounds (m : positive) :
  2 ^ (Z.pos (digits2_pos m) - 1) ≤ Z.pos m < 2 ^ Z.pos (digits2_pos m).
Proof.
  induction m as [m IH|m IH|]; cbn [digits2_pos]; [| |done];
    rewrite Pos2Z.inj_succ;
    replace (Z.succ (Z.pos (digits2_pos m)) - 1) with (Z.pos (digits2_pos m)) by lia;
    rewrite Z.pow_succ_r by lia;
    replace (Z.pos (digits2_pos m)) with (Z.succ (Z.pos (digits2_pos m) - 1)) at 1 by lia;
    rewrite Z.pow_succ_r by lia; lia.
Qed.

Lemma Zdigits2_bounds m :
  0 ≤ m → 0 ≤ Zdigits2 m ∧ m < 2 ^ Zdigits2 m ∧ (0 < m → 1 ≤ Zdigits2 m ∧ 2 ^ (Zdigits2 m - 1) ≤ m).
Proof.
  destruct m as [|m|m]; simpl; [done| |lia].
  intros _. pose proof (digits2_bounds m). lia.
Qed.

(** Characterisation: the number of digits is the unique [d] with
    [2^(d-1) <= m < 2^d]. *)
Lemma Zdigits2_le m d : 0 ≤ m → 0 ≤ d → m < 2 ^ d → Zdigits2 m ≤ d.
Proof.
  intros Hm Hd Hlt. destruct (decide (m = 0)) as [->|]; [done|].
  destruct (Zdigits2_bounds m Hm) as (_ & _ & [? Hb]); [lia|].
  destruct (Z.le_gt_cases (Zdigits2 m) d); [done|exfalso].
  assert (2 ^ d ≤ 2 ^ (Zdigits2 m - 1)) by (apply Z.pow_le_mono_r; lia). lia.
Qed.

Lemma Zdigits2_ge m d : 0 ≤ d → 2 ^ d ≤ m → d + 1 ≤ Zdigits2 m.
Proof.
  intros Hd Hle. assert (0 < 2 ^ d) by (apply Z.pow_pos_nonneg; lia).
  destruct (Zdigits2_bounds m) as (? & Hb & _); [lia|].
  destruct (Z.le_gt_cases (d + 1) (Zdigits2 m)); [done|exfalso].
  assert (2 ^ Zdigits2 m ≤ 2 ^ d) by (apply Z.pow_le_mono_r; lia). lia.
Qed.

Lemma fe_mono a b : a ≤ b → fe a ≤ fe b.
Proof. unfold fexp, emin. lia. Qed.

(** ** Shifting *)

Lemma iter_pos_nat {A} (f : A → A) p x : SpecFloat.iter_pos f p x = Nat.iter (Pos.to_nat p) f x.
Proof.
  revert x; induction p as [p IH|p IH|]; intros x;
    cbn [SpecFloat.iter_pos]; [| |done].
  - rewrite !IH, Pos2Nat.inj_xI. 
    replace (S (2 * Pos.to_nat p))%nat with (Pos.to_nat p + (Pos.to_nat p + 1))%nat by lia.
    rewrite !Nat.iter_add. done.
  - rewrite !IH, Pos2Nat.inj_xO.
    replace (2 * Pos.to_nat p)%nat with (Pos.to_nat p + Pos.to_nat p)%nat by lia.
    by rewrite Nat.iter_add.
Qed.

Lemma shr_1_m mrs : 0 ≤ shr_m mrs → shr_m (shr_1 mrs) = shr_m mrs `div` 2.
Proof.
  destruct mrs as [m r s]; simpl. destruct m as [|[p|p|]|p]; simpl; intros; try done; try lia.
  - apply (Z.div_unique _ _ _ 1); lia.
  - apply (Z.div_unique _ _ _ 0); lia.
Qed.

Lemma shr_1_exact mrs :
  0 ≤ shr_m mrs →
  (shr_r (shr_1 mrs) || shr_s (shr_1 mrs)) =
  negb (shr_m mrs `mod` 2 =? 0) || (shr_r mrs || shr_s mrs).
Proof.
  destruct mrs as [m r s]; simpl. destruct m as [|[p|p|]|p]; simpl; intros; try done; try lia.
  - rewrite <-(Z.mod_unique (Z.pos p~1) 2 (Z.pos p) 1) by lia. done.
  - rewrite <-(Z.mod_unique (Z.pos p~0) 2 (Z.pos p) 0) by lia. done.
Qed.

Lemma iter_shr_m n mrs :
  0 ≤ shr_m mrs →
  shr_m (Nat.iter n shr_1 mrs) = shr_m mrs `div` 2 ^ Z.of_nat n.
Proof.
  intros Hm. induction n as [|n IH]; [by rewrite Z.div_1_r|].
  rewrite Nat.iter_succ, shr_1_m, IH.
  - rewrite Z.div_div by lia. f_equal. rewrite Nat2Z.inj_succ, Z.pow_succ_r by lia. lia.
  - rewrite IH. apply Z.div_pos; lia.
Qed.

(** A shift that loses no bit and starts exact stays exact; if it ends exact,
    the value was a multiple of the power. *)
Lemma iter_shr_exact n mrs :
  0 ≤ shr_m mrs →
  shr_r mrs || shr_s mrs = false →
  (shr_r (Nat.iter n shr_1 mrs) || shr_s (Nat.iter n shr_1 mrs)) = false →
  shr_m mrs = shr_m (Nat.iter n shr_1 mrs) * 2 ^ Z.of_nat n.
Proof.
  intros Hm H0. induction n as [|n IH]; [simpl; lia|].
  rewrite Nat.iter_succ. set (x := Nat.iter n shr_1 mrs) in *.
  assert (0 ≤ shr_m x) as Hx.
  { unfold x. rewrite iter_shr_m by done. apply Z.div_pos; lia. }
  rewrite shr_1_exact by done. rewrite orb_false_iff, negb_false_iff.
  intros [Hev%Z.eqb_eq Hex]. rewrite (IH Hex), shr_1_m by done.
  rewrite Nat2Z.inj_succ, Z.pow_succ_r by lia.
  pose proof (Z.div_mod (shr_m x) 2). nia.
Qed.

Lemma loc_exact_iff mrs : loc_of_shr_record mrs = loc_Exact ↔ shr_r mrs || shr_s mrs = false.
Proof. destruct mrs as [m [] []]; naive_solver. Qed.

Lemma shr_record_of_loc_m m l : shr_m (shr_record_of_loc m l) = m.
Proof. by destruct l as [|[]]. Qed.

Lemma round_even_range m l : m ≤ round_nearest_even m l ≤ m + 1.
Proof. destruct l as [|[]]; simpl; try lia. destruct (Z.even m); lia. Qed.

Lemma shr_m_spec mrs e n :
  0 ≤ shr_m mrs → 0 ≤ n →
  shr_m (shr mrs e n).1 = shr_m mrs `div` 2 ^ n ∧ (shr mrs e n).2 = e + n.
Proof.
  intros Hm Hn. destruct n as [|p|p]; cbn [shr fst snd]; [|split; [|done]|lia].
  - rewrite Z.div_1_r. split; [done|lia].
  - rewrite iter_pos_nat, iter_shr_m by done. by rewrite positive_nat_Z.
Qed.

(** ** Rounding *)

Definition canonical (m : positive) (e : Z) : Prop := fe (Z.pos (digits2_pos m) + e) = e.

(** Digits of the quotient kept by the first shift. *)
Lemma quotient_digits m d n w :
  0 ≤ n → 2 ^ (d - 1) ≤ m < 2 ^ d → w = d - n → 1 ≤ w →
  2 ^ (w - 1) ≤ m `div` 2 ^ n < 2 ^ w.
Proof.
  intros Hn [Hlo Hhi] -> Hw.
  assert (0 < 2 ^ n) by (apply Z.pow_pos_nonneg; lia). split.
  - apply Z.div_le_lower_bound; [done|]. rewrite <-Z.pow_add_r by lia.
    replace (n + (d - n - 1)) with (d - 1) by lia. done.
  - apply Z.div_lt_upper_bound; [done|]. rewrite <-Z.pow_add_r by lia.
    replace (n + (d - n)) with d by lia. done.
Qed.

(** The second normalisation only ever renormalises the carry. *)
Lemma renorm_spec q' E w :
  0 ≤ q' → E = fe (w + E) →
  (w ≤ 0 ∧ q' ≤ 1 ∨ 1 ≤ w ∧ 2 ^ (w - 1) ≤ q' ≤ 2 ^ w) →
  let r := shr_fexp prec emax q' E loc_Exact in
  (shr_m r.1 = 0 ∧ q' = 0) ∨
  (∃ m2, shr_m r.1 = Z.pos m2 ∧ canonical m2 r.2 ∧ E ≤ r.2 ∧ q' = Z.pos m2 * 2 ^ (r.2 - E)).
Proof.
  intros Hq HE Hcase. unfold shr_fexp. cbv zeta.
  assert (∀ k, Zdigits2 q' = k → fe (k + E) = E → 0 < q' →
    let r := shr (shr_record_of_loc q' loc_Exact) E (fe (Zdigits2 q' + E) - E) in
    ∃ m2, shr_m r.1 = Z.pos m2 ∧ canonical m2 r.2 ∧ E ≤ r.2 ∧ q' = Z.pos m2 * 2 ^ (r.2 - E))
    as Hstay.
  { intros k Hk Hfe Hpos. rewrite Hk, Hfe, Z.sub_diag. simpl.
    destruct q' as [|m2|]; [lia| |lia]. exists m2. simpl in Hk. 
    unfold canonical. rewrite Hk, Hfe, Z.sub_diag. split_and!; (done || lia). }
  destruct (decide (q' = 0)) as [->|Hnz].
  { left. split; [|done]. simpl. destruct (fe (0 + E) - E); simpl; try done.
    rewrite iter_pos_nat, iter_shr_m by done. apply Z.div_0_l. simpl. lia. }
  right. destruct Hcase as [[Hw Hq1]|[Hw [Hlo Hhi]]].
  - replace q' with 1 in * by lia. apply (Hstay 1); [done| |lia].
    revert HE. unfold fexp, emin. lia.
  - destruct (decide (q' = 2 ^ w)) as [Heq|Hne].
    + assert (Zdigits2 q' = w + 1) as Hd.
      { pose proof (Zdigits2_ge q' w). 
        assert (q' < 2 ^ (w + 1)) by (rewrite Heq; apply Z.pow_lt_mono_r; lia).
        pose proof (Zdigits2_le q' (w + 1)). lia. }
      destruct (decide (fe (w + 1 + E) = E)) as [Hs|Hs].
      { apply (Hstay (w + 1)); [done..|lia]. }
      assert (fe (w + 1 + E) = E + 1) as Hs1.
      { revert HE Hs. unfold fexp, emin. lia. }
      rewrite Hd, Hs1. replace (E + 1 - E) with 1 by lia.
      destruct (shr_m_spec (shr_record_of_loc q' loc_Exact) E 1) as [Hm He]; [simpl; lia..|].
      rewrite He. simpl shr_m in Hm at 2.
      assert (q' `div` 2 ^ 1 = 2 ^ (w - 1)) as Hdiv.
      { rewrite Heq. replace w with (w - 1 + 1) at 1 by lia.
        rewrite Z.pow_add_r by lia. apply Z.div_mul. done. }
      assert (0 < 2 ^ (w - 1)) by (apply Z.pow_pos_nonneg; lia).
      rewrite Hdiv in Hm. destruct (2 ^ (w - 1)) as [|m2|] eqn:Hm2; [lia| |lia].
      exists m2. split; [done|]. 
      assert (Z.pos (digits2_pos m2) = w) as Hdm.
      { change (Zdigits2 (Z.pos m2) = w). rewrite <-Hm2.
        pose proof (Zdigits2_ge (2 ^ (w - 1)) (w - 1)).
        assert (2 ^ (w - 1) < 2 ^ w) by (apply Z.pow_lt_mono_r; lia).
        pose proof (Zdigits2_le (2 ^ (w - 1)) w). lia. }
      unfold canonical. rewrite Hdm. replace (w + (E + 1)) with (w + 1 + E) by lia.
      split_and!; [done|lia|]. replace (E + 1 - E) with 1 by lia. rewrite <-Hm2, Heq.
      replace w with (w - 1 + 1) at 1 by lia. rewrite Z.pow_add_r by lia. done.
    + apply (Hstay w); [|done|lia].
      pose proof (Zdigits2_ge q' (w - 1)). pose proof (Zdigits2_le q' w). lia.
Qed.

Lemma round_aux_spec s m e l :
  0 ≤ m → e ≤ fe (Zdigits2 m + e) →
  let E := fe (Zdigits2 m + e) in
  ∃ q', m `div` 2 ^ (E - e) ≤ q' ≤ m `div` 2 ^ (E - e) + 1
    ∧ (l = loc_Exact → m = m `div` 2 ^ (E - e) * 2 ^ (E - e) → q' = m `div` 2 ^ (E - e))
    ∧ ((binary_round_aux prec emax s m e l = S754_zero s ∧ q' = 0)
       ∨ ∃ m2 e2, canonical m2 e2 ∧ E ≤ e2 ∧ q' = Z.pos m2 * 2 ^ (e2 - E)
          ∧ binary_round_aux prec emax s m e l =
            if e2 <=? emax - prec then S754_finite s m2 e2 else S754_infinity s).
Proof.
  intros Hm He E. remember (binary_round_aux prec emax s m e l) as res eqn:Hres.
  unfold binary_round_aux in Hres. unfold shr_fexp at 1 in Hres. fold E in Hres.
  set (n := E - e) in *. set (mrs0 := shr_record_of_loc m l) in *.
  assert (shr_m mrs0 = m) as Hm0 by apply shr_record_of_loc_m.
  destruct (shr_m_spec mrs0 e n) as [Hq HeE]; [lia|unfold n, E; lia|].
  destruct (shr mrs0 e n) as [mrs' e'] eqn:Hshr. simpl in Hq, HeE.
  assert (e' = E) as -> by (unfold n in HeE; lia).
  set (q' := round_nearest_even (shr_m mrs') (loc_of_shr_record mrs')) in *.
  exists q'. rewrite Hm0 in Hq.
  pose proof (round_even_range (shr_m mrs') (loc_of_shr_record mrs')) as Hr.
  fold q' in Hr. rewrite Hq in Hr.
  assert (0 ≤ m `div` 2 ^ n) as Hq0 by (apply Z.div_pos; [done|apply Z.pow_pos_nonneg; unfold n, E; lia]).
  destruct (Zdigits2_bounds m Hm) as (Hd0 & Hdhi & Hdlo).
  set (d := Zdigits2 m) in *. set (w := d - n).
  assert (E = fe (w + E)) as HwE by (unfold w, n; replace (d - (E - e) + E) with (d + e) by lia; done).
  split; [done|split].
  - intros -> Hmul. unfold q'. rewrite <-Hq.
    enough (loc_of_shr_record mrs' = loc_Exact) as -> by done.
    apply loc_exact_iff.
    destruct n as [|p|p] eqn:Hn; simpl in Hshr; simplify_eq; [done| |done].
    rewrite iter_pos_nat.
    assert (∀ k, (k ≤ Pos.to_nat p)%nat → 
      (shr_r (Nat.iter k shr_1 mrs0) || shr_s (Nat.iter k shr_1 mrs0)) = false) as Hk; [|by apply Hk].
    induction k as [|k IH]; intros Hkle; [done|].
    rewrite Nat.iter_succ, shr_1_exact.
    2:{ rewrite iter_shr_m by (simpl; lia). apply Z.div_pos; simpl; lia. }
    rewrite IH by lia. rewrite orb_false_r, negb_false_iff, Z.eqb_eq.
    rewrite iter_shr_m by (simpl; lia). simpl shr_m. 
    set (q := m `div` 2 ^ Z.pos p) in *. rewrite Hmul.
    replace (Z.pos p) with (Z.of_nat k + 1 + (Z.pos p - Z.of_nat k - 1)) by lia.
    rewrite !Z.pow_add_r by lia.
    replace (q * (2 ^ Z.of_nat k * 2 ^ 1 * 2 ^ (Z.pos p - Z.of_nat k - 1)))
      with (q * 2 ^ (Z.pos p - Z.of_nat k - 1) * 2 * 2 ^ Z.of_nat k) by lia.
    rewrite Z.div_mul by (apply Z.pow_nonzero; lia). apply Z.mod_mul. done.
  - assert (w ≤ 0 ∧ q' ≤ 1 ∨ 1 ≤ w ∧ 2 ^ (w - 1) ≤ q' ≤ 2 ^ w) as Hcase.
    { destruct (decide (w ≤ 0)) as [Hw|Hw].
      - left. split; [done|].
        rewrite Z.div_small in Hr; [lia|]. split; [done|].
        eapply Z.lt_le_trans; [exact Hdhi|]. apply Z.pow_le_mono_r; unfold w in *; lia.
      - right. split; [lia|].
        assert (0 < m).
        { destruct (decide (m = 0)) as [Hz|]; [exfalso; apply Hw|lia].
          assert (d = 0) by (unfold d; by rewrite Hz). unfold w, n, E. lia. }
        pose proof (quotient_digits m d n w). 
        assert (0 ≤ n) by (unfold n, E; lia). unfold w in *. lia. }
    pose proof (renorm_spec q' E w ltac:(lia) HwE Hcase) as Hrn. cbv zeta in Hrn.
    destruct (shr_fexp prec emax q' E loc_Exact) as [mrs2 e2]. simpl in Hrn.
    destruct Hrn as [[Hz Hz']|(m2 & Hz & Hc & HE2 & Hq2)]; rewrite Hz in Hres; [by left|].
    right. exists m2, e2. done.
Qed.

(** ** Nonnegative numbers

    [nn x]: a well-formed number that is zero, positive or [+inf] (never NaN
    and never negative zero); [fin x] excludes [+inf]. *)

Definition nn (x : f64) : Prop :=
  match x with
  | S754_zero s => s = false
  | S754_infinity s => s = false
  | S754_finite s m e => s = false ∧ canonical m e ∧ e ≤ emax - prec
  | S754_nan => False
  end.

Definition fin (x : f64) : Prop :=
  nn x ∧ match x with S754_infinity _ => False | _ => True end.

(** On these numbers the IEEE comparison is lexicographic on
    (class, exponent, mantissa). *)
Definition fkey (x : f64) : list Z :=
  match x with
  | S754_zero _ => [0]
  | S754_finite _ m e => [1; e; Z.pos m]
  | S754_infinity _ => [2]
  | S754_nan => []
  end.

Lemma f64_compare_key x y : nn x → nn y → SFcompare x y = Some (lex_cmp (fkey x) (fkey y)).
Proof.
  destruct x as [s|s| |s m e], y as [s'|s'| |s' m' e']; simpl; intros Hx Hy; try done;
    destruct_and?; subst; try done.
  destruct (Z.compare e e'); try done. change (Pos.compare_cont Eq m m') with (Pos.compare m m').
  by destruct (Pos.compare m m').
Qed.

Lemma f64_leb_key x y : nn x → nn y → f64_leb x y = lex_leb (fkey x) (fkey y).
Proof.
  intros. unfold f64_leb, SFleb, lex_leb. rewrite f64_compare_key by done.
  by destruct (lex_cmp _ _).
Qed.

Lemma f64_ltb_leb x y : nn x → nn y → f64_ltb x y = negb (f64_leb y x).
Proof.
  intros. unfold f64_ltb, f64_leb, SFltb, SFleb. rewrite !f64_compare_key by done.
  rewrite (lex_cmp_antisym (fkey x) (fkey y)). by destruct (lex_cmp _ _).
Qed.

#[local] Instance okey_list : OrdKey (list Z) := λ l, l.
#[local] Instance okey_list_inj : OrdKeyInj (list Z).
Proof. by intros x y. Qed.

Lemma f64_leb_refl x : nn x → f64_leb x x.
Proof. intros. rewrite f64_leb_key by done. apply (kleb_refl (fkey x)). Qed.
Lemma f64_leb_trans x y z : nn x → nn y → nn z → f64_leb x y → f64_leb y z → f64_leb x z.
Proof. intros. rewrite f64_leb_key in * by done. by apply (kleb_trans _ (fkey y)). Qed.
Lemma f64_leb_total x y : nn x → nn y → f64_leb x y ∨ f64_leb y x.
Proof. intros. rewrite !f64_leb_key by done. apply (kleb_total (fkey x)). Qed.

Lemma nn_not_nan x : nn x → f64_is_nan x = false.
Proof. by destruct x. Qed.
Lemma fin_nn x : fin x → nn x.
Proof. by intros [? _]. Qed.
Lemma nn_zero : nn f64_zero.
Proof. done. Qed.
Lemma zero_leb x : nn x → f64_leb f64_zero x.
Proof. intros. rewrite f64_leb_key by done. by destruct x as [[]| | |]. Qed.

(** Well-formed numbers compare like the rationals they denote. *)
Lemma canonical_leb m1 e1 m2 e2 k :
  canonical m1 e1 → canonical m2 e2 → k ≤ e1 → k ≤ e2 →
  Z.pos m1 * 2 ^ (e1 - k) ≤ Z.pos m2 * 2 ^ (e2 - k) →
  e1 < e2 ∨ e1 = e2 ∧ Z.pos m1 ≤ Z.pos m2.
Proof.
  intros Hc1 Hc2 Hk1 Hk2 Hle. unfold canonical in *.
  destruct (Z.lt_trichotomy e1 e2) as [?|[->|Hgt]]; [by left|right|exfalso].
  - split; [done|]. assert (0 < 2 ^ (e2 - k)) by (apply Z.pow_pos_nonneg; lia). nia.
  - set (d1 := Z.pos (digits2_pos m1)) in *. set (d2 := Z.pos (digits2_pos m2)) in *.
    assert (d2 + e2 < d1 + e1).
    { destruct (Z.lt_ge_cases (d2 + e2) (d1 + e1)) as [|Hge]; [done|].
      pose proof (fe_mono _ _ Hge). lia. }
    destruct (digits2_bounds m1) as [Hb1 _]. destruct (digits2_bounds m2) as [_ Hb2].
    fold d1 in Hb1. fold d2 in Hb2.
    assert (0 < 2 ^ (e1 - k)) by (apply Z.pow_pos_nonneg; lia).
    assert (0 < 2 ^ (e2 - k)) by (apply Z.pow_pos_nonneg; lia).
    assert (2 ^ (d1 - 1) * 2 ^ (e1 - k) ≤ Z.pos m1 * 2 ^ (e1 - k)) by nia.
    assert (Z.pos m2 * 2 ^ (e2 - k) < 2 ^ d2 * 2 ^ (e2 - k)) by nia.
    rewrite <-!Z.pow_add_r in * by lia.
    assert (2 ^ (d2 + (e2 - k)) ≤ 2 ^ (d1 - 1 + (e1 - k))) by (apply Z.pow_le_mono_r; lia).
    lia.
Qed.

Lemma finite_leb m1 e1 m2 e2 :
  e1 < e2 ∨ e1 = e2 ∧ Z.pos m1 ≤ Z.pos m2 →
  lex_leb [1; e1; Z.pos m1] [1; e2; Z.pos m2].
Proof.
  intros H. unfold lex_leb. simpl.
  destruct (Z.compare_spec e1 e2); [|done|lia].
  change (Pos.compare m1 m2) with (Z.compare (Z.pos m1) (Z.pos m2)).
  destruct (Z.compare_spec (Z.pos m1) (Z.pos m2)); (done || lia).
Qed.

(** ** Closure *)

Lemma round_aux_nn m e l :
  0 ≤ m → e ≤ fe (Zdigits2 m + e) → nn (binary_round_aux prec emax false m e l).
Proof.
  intros Hm He. destruct (round_aux_spec false m e l Hm He) as (q' & _ & _ & [[-> _]|Hf]); [done|].
  destruct Hf as (m2 & e2 & Hc & _ & _ & ->). destruct (Z.leb_spec e2 (emax - prec)); done.
Qed.

Lemma iter_xO_pos m p : Z.pos (Pos.iter xO m p) = Z.pos m * 2 ^ Z.pos p.
Proof.
  revert m. induction p as [|p IH] using Pos.peano_ind; intros m; [simpl; lia|].
  rewrite Pos.iter_succ, Pos2Z.inj_xO, IH, Pos2Z.inj_succ, Z.pow_succ_r by lia. lia.
Qed.

Lemma digits_iter_xO m p : Z.pos (digits2_pos (Pos.iter xO m p)) = Z.pos (digits2_pos m) + Z.pos p.
Proof.
  induction p as [|p IH] using Pos.peano_ind; [simpl; lia|].
  rewrite Pos.iter_succ. cbn [digits2_pos]. rewrite Pos2Z.inj_succ, IH. lia.
Qed.

(** After alignment the exponent is at most the target one, and the value is
    unchanged. *)
Lemma shl_align_spec m e f :
  let r := shl_align m e f in
  r.2 = Z.min e f ∧ Z.pos r.1 = Z.pos m * 2 ^ (e - r.2)
  ∧ Z.pos (digits2_pos r.1) + r.2 = Z.pos (digits2_pos m) + e.
Proof.
  unfold shl_align. destruct (f - e) as [|p|p] eqn:E; simpl.
  - rewrite Z.sub_diag. lia.
  - rewrite Z.sub_diag. lia.
  - rewrite digits_iter_xO, iter_xO_pos. replace (e - f) with (Z.pos p) by lia. lia.
Qed.

Lemma normalize_nn z e : 0 ≤ z → nn (binary_normalize prec emax z e false).
Proof.
  intros Hz. destruct z as [|m|]; [done| |lia]. cbn [binary_normalize]. unfold binary_round.
  set (f := fe (Z.pos (digits2_pos m) + e)).
  destruct (shl_align_spec m e f) as (He & _ & Hd).
  destruct (shl_align m e f) as [mz ez]. simpl in He, Hd.
  apply round_aux_nn; [done|]. simpl Zdigits2. rewrite Hd. fold f. lia.
Qed.

Lemma of_Z_nn z : 0 ≤ z → nn (f64_of_Z z).
Proof. apply normalize_nn. Qed.

Lemma add_nn x y : nn x → nn y → nn (f64_add x y).
Proof.
  destruct x as [s|s| |s m e], y as [s'|s'| |s' m' e']; simpl; intros Hx Hy; try done;
    destruct_and?; subst; try done.
  apply normalize_nn. cbn [cond_Zopp]. lia.
Qed.

(** A product needs no more exponent than its rounding has. *)
Lemma mul_exponent m e m' e' :
  canonical m e → canonical m' e' → e + e' ≤ fe (Zdigits2 (Z.pos (m * m')) + (e + e')).
Proof.
  simpl Zdigits2. unfold canonical in *. intros.
  pose proof (digits2_bounds m) as [Hb1 _]. pose proof (digits2_bounds m') as [Hb2 _].
  set (d1 := Z.pos (digits2_pos m)) in *. set (d2 := Z.pos (digits2_pos m')) in *.
  assert (d1 + d2 - 1 ≤ Z.pos (digits2_pos (m * m'))).
  { pose proof (Zdigits2_ge (Z.pos (m * m')) (d1 - 1 + (d2 - 1))). simpl in *.
    assert (2 ^ (d1 - 1 + (d2 - 1)) ≤ Z.pos (m * m')).
    { rewrite Z.pow_add_r, Pos2Z.inj_mul by lia.
      assert (0 < 2 ^ (d1 - 1)) by (apply Z.pow_pos_nonneg; lia). nia. }
    lia. }
  repeat match goal with H : fexp _ _ _ = _ |- _ => revert H end. unfold fexp, emin. lia.
Qed.

Lemma mul_nn x y : fin x → fin y → nn (f64_mul x y).
Proof.
  intros [Hx Hxf] [Hy Hyf]. destruct x as [s|s| |s m e], y as [s'|s'| |s' m' e'];
    simpl in *; try done; destruct_and?; subst; try done.
  apply round_aux_nn; [done|]. by apply mul_exponent.
Qed.

(** ** Minimum, maximum, subtraction *)

Lemma min_fin x y : nn x → fin y → fin (f64_min x y) ∧ f64_leb (f64_min x y) y.
Proof.
  intros Hx Hy. unfold f64_min. rewrite !nn_not_nan by (done || apply Hy).
  destruct (f64_leb x y) eqn:E.
  - split; [|by rewrite E]. split; [done|].
    destruct x as [| | |]; try done. destruct Hy as [Hy Hyf].
    revert E. rewrite f64_leb_key by done. by destruct y as [| | |].
  - split; [done|]. by apply f64_leb_refl, fin_nn.
Qed.

Lemma min_cases x y : nn x → nn y → f64_min x y = if f64_leb x y then x else y.
Proof. intros. unfold f64_min. by rewrite !nn_not_nan. Qed.

Lemma max_fin x y : fin x → fin y → fin (f64_max x y) ∧ f64_leb y (f64_max x y).
Proof.
  intros Hx Hy. unfold f64_max. rewrite !nn_not_nan by (apply Hx || apply Hy).
  destruct (f64_leb y x) eqn:E; (split; [done|]); [by rewrite E|].
  apply f64_leb_refl, Hy.
Qed.

(** Comparing [a * 2^e] with [b * 2^f] does not depend on the common unit. *)
Lemma scale_le a b e f k j :
  k ≤ e → k ≤ f → j ≤ e → j ≤ f →
  a * 2 ^ (e - k) ≤ b * 2 ^ (f - k) → a * 2 ^ (e - j) ≤ b * 2 ^ (f - j).
Proof.
  intros ???? Hle. destruct (Z.le_ge_cases j k).
  - replace (e - j) with (e - k + (k - j)) by lia. replace (f - j) with (f - k + (k - j)) by lia.
    rewrite !Z.pow_add_r, !Z.mul_assoc by lia.
    apply Z.mul_le_mono_nonneg_r; [apply Z.pow_nonneg; lia|done].
  - replace (e - k) with (e - j + (j - k)) in Hle by lia.
    replace (f - k) with (f - j + (j - k)) in Hle by lia.
    rewrite !Z.pow_add_r, !Z.mul_assoc in Hle by lia.
    assert (0 < 2 ^ (j - k)) by (apply Z.pow_pos_nonneg; lia). nia.
Qed.

(** Rounding a nonnegative number bounded by a representable one stays below
    the latter. *)
Lemma normalize_le z e m1 e1 k :
  0 ≤ z → canonical m1 e1 → e1 ≤ emax - prec → k ≤ e → k ≤ e1 →
  z * 2 ^ (e - k) ≤ Z.pos m1 * 2 ^ (e1 - k) →
  let r := binary_normalize prec emax z e false in
  fin r ∧ f64_leb r (S754_finite false m1 e1).
Proof.
  intros Hz Hc He1 Hke Hk1 Hle r.
  assert (nn r) as Hr by by apply normalize_nn.
  enough (r = S754_zero false ∨ ∃ m2 e2, r = S754_finite false m2 e2 ∧
    (e2 < e1 ∨ e2 = e1 ∧ Z.pos m2 ≤ Z.pos m1)) as Hcase.
  { destruct Hcase as [->|(m2 & e2 & Hr2 & Hlt)].
    - split; [done|]. by apply zero_leb.
    - rewrite Hr2 in *. split; [done|]. rewrite f64_leb_key by done. by apply finite_leb. }
  subst r. destruct z as [|m|]; [by left| |lia]. cbn [binary_normalize] in *. unfold binary_round in *.
  set (f := fe (Z.pos (digits2_pos m) + e)) in *.
  destruct (shl_align_spec m e f) as (Hez & Hmz & Hd).
  destruct (shl_align m e f) as [mz ez]. simpl in Hez, Hmz, Hd.
  assert (f = fe (Zdigits2 (Z.pos mz) + ez)) as Hf by (simpl Zdigits2; by rewrite Hd).
  destruct (round_aux_spec false (Z.pos mz) ez loc_Exact) as (q' & Hq & Hex & Hres);
    [done|rewrite <-Hf; lia|]. rewrite <-Hf in *.
  destruct Hres as [[-> _]|(m2 & e2 & Hc2 & HE & Hq2 & ->)]; [by left|right].
  assert (e2 < e1 ∨ e2 = e1 ∧ Z.pos m2 ≤ Z.pos m1) as Hlt.
  { assert (f ≤ e1) as Hfe.
    { unfold f. rewrite <-Hc. apply fe_mono.
      destruct (digits2_bounds m) as [Hb _]. destruct (digits2_bounds m1) as [_ Hb1].
      destruct (Z.le_gt_cases (Z.pos (digits2_pos m) + e) (Z.pos (digits2_pos m1) + e1)) as [|Hgt];
        [done|exfalso].
      assert (0 < 2 ^ (e1 - k)) by (apply Z.pow_pos_nonneg; lia).
      assert (0 < 2 ^ (e - k)) by (apply Z.pow_pos_nonneg; lia).
      assert (Z.pos m1 * 2 ^ (e1 - k) < 2 ^ Z.pos (digits2_pos m1) * 2 ^ (e1 - k)) as Hlt by nia.
      assert (2 ^ (Z.pos (digits2_pos m) - 1) * 2 ^ (e - k) ≤ Z.pos m * 2 ^ (e - k)) as Hge by nia.
      rewrite <-Z.pow_add_r in Hlt, Hge by lia.
      assert (2 ^ (Z.pos (digits2_pos m1) + (e1 - k)) ≤ 2 ^ (Z.pos (digits2_pos m) - 1 + (e - k)))
        by (apply Z.pow_le_mono_r; lia). lia. }
    apply (canonical_leb m2 e2 m1 e1 f); [done..|]. rewrite <-Hq2.
    set (n := f - ez) in *. assert (0 ≤ n) by (unfold n; lia).
    assert (0 < 2 ^ n) by (apply Z.pow_pos_nonneg; lia).
    set (T := Z.pos m1 * 2 ^ (e1 - f)).
    assert (Z.pos mz ≤ T * 2 ^ n) as HT.
    { rewrite Hmz. unfold T. rewrite <-Z.mul_assoc, <-Z.pow_add_r by lia.
      replace (e1 - f + n) with (e1 - ez) by (unfold n; lia).
      apply (scale_le _ _ _ _ k); (done || lia). }
    set (q := Z.pos mz `div` 2 ^ n) in *.
    pose proof (Z.div_mod (Z.pos mz) (2 ^ n) ltac:(lia)) as Hdm. fold q in Hdm.
    pose proof (Z.mod_pos_bound (Z.pos mz) (2 ^ n) ltac:(lia)).
    destruct (decide (Z.pos mz `mod` 2 ^ n = 0)) as [Hz0|Hz0].
    - rewrite Hex; [nia|done|lia].
    - assert (q < T) by nia. lia. }
  exists m2, e2. split; [|done]. destruct (Z.leb_spec e2 (emax - prec)); [done|lia].
Qed.

Lemma align_value m e k : k ≤ e → Z.pos (fst (shl_align m e k)) = Z.pos m * 2 ^ (e - k).
Proof.
  intros Hk. destruct (shl_align_spec m e k) as (He & Hm & _). rewrite Hm, He. do 2 f_equal. lia.
Qed.

(** A difference of nonnegative numbers is nonnegative and at most the
    minuend. *)
Lemma sub_fin x y :
  fin x → fin y → f64_leb y x → fin (f64_sub x y) ∧ f64_leb (f64_sub x y) x.
Proof.
  intros Hx Hy. rewrite f64_leb_key by (apply Hx || apply Hy).
  destruct Hx as [Hx Hxf], Hy as [Hy Hyf].
  destruct x as [s|s| |s m e], y as [s'|s'| |s' m' e']; simpl in *; try done;
    destruct_and?; subst; try done.
  { intros _. split; [done|]. by apply f64_leb_refl. }
  unfold lex_leb. simpl. intros Hle.
  assert (e' < e ∨ e' = e ∧ Z.pos m' ≤ Z.pos m) as Hcmp.
  { destruct (Z.compare_spec e' e); [|lia|done]. right. split; [done|].
    change (Pos.compare m' m) with (Z.compare (Z.pos m') (Z.pos m)) in Hle.
    destruct (Z.compare_spec (Z.pos m') (Z.pos m)); (done || lia). }
  rewrite !align_value by lia.
  assert (Z.pos m' * 2 ^ (e' - Z.min e e') ≤ Z.pos m * 2 ^ (e - Z.min e e')) as Hval.
  { destruct Hcmp as [Hlt|[-> ?]].
    2:{ rewrite Z.min_id, Z.sub_diag. lia. }
    rewrite Z.min_r by lia. rewrite Z.sub_diag, Z.mul_1_r.
    destruct (Z.le_gt_cases (Z.pos m') (Z.pos m * 2 ^ (e - e'))) as [|Hgt]; [done|exfalso].
    destruct (canonical_leb m e m' e' e'); [done|done|lia|lia| |lia|lia].
    rewrite Z.sub_diag. lia. }
  apply (normalize_le _ _ _ _ (Z.min e e')); [lia|done|done|lia|lia|].
  rewrite Z.sub_diag, Z.mul_1_r.
  assert (0 < 2 ^ (e' - Z.min e e')) by (apply Z.pow_pos_nonneg; lia). nia.
Qed.

(** ** Conversions *)

Lemma of_Z_fin z : 0 ≤ z ≤ 2 ^ 128 → fin (f64_of_Z z).
Proof.
  intros Hz. refine (proj1 (normalize_le z 0 4503599627370496 77 0 _ _ _ _ _ _)); try (done || lia).
Qed.

(** A count not above the integer part converts to a number not above. *)
Lemma of_Z_floor_le x n :
  fin x → 0 ≤ n ≤ f64_floor_usize x → fin (f64_of_Z n) ∧ f64_leb (f64_of_Z n) x.
Proof.
  intros Hx Hn. assert (fin (f64_of_Z n)) as Hf.
  { apply of_Z_fin. split; [lia|]. assert (usize_max ≤ 2 ^ 128) by done.
    destruct x as [|[]| |[]]; simpl in Hn; lia. }
  split; [done|]. destruct Hx as [Hx Hxf]. destruct x as [s|s| |s m e]; simpl in *; try done.
  - replace n with 0 by lia. done.
  - destruct Hx as (-> & Hc & He).
    destruct (Z.leb_spec 0 e) as [Hpos|Hneg].
    + refine (proj2 (normalize_le n 0 m e 0 _ _ _ _ _ _)); try (done || lia).
      rewrite !Z.sub_0_r. lia.
    + refine (proj2 (normalize_le n 0 m e e _ _ _ _ _ _)); try (done || lia).
      replace (0 - e) with (- e) by lia. rewrite Z.sub_diag, Z.mul_1_r.
      assert (0 < 2 ^ (- e)) by (apply Z.pow_pos_nonneg; lia).
      assert (n ≤ Z.pos m `div` 2 ^ (- e)) by lia.
      pose proof (Z.mul_div_le (Z.pos m) (2 ^ (- e))). nia.
Qed.

(** ** Magnitudes

    [bnd k x]: [x] is finite, nonnegative and below [2^k]; used to rule out
    overflow to [+inf]. *)

Definition bnd (k : Z) (x : f64) : Prop :=
  fin x ∧ match x with S754_finite _ m e => Z.pos (digits2_pos m) + e ≤ k | _ => True end.

Lemma bnd_fin k x : bnd k x → fin x.
Proof. by intros [? _]. Qed.

Lemma round_aux_bnd m e l k :
  0 ≤ m → e ≤ fe (Zdigits2 m + e) → Zdigits2 m + e ≤ k → 0 ≤ k ≤ 1000 →
  bnd (k + 1) (binary_round_aux prec emax false m e l).
Proof.
  intros Hm He Hk Hk1. pose proof (round_aux_nn m e l Hm He) as Hnn.
  destruct (round_aux_spec false m e l Hm He) as (q' & Hq & _ & [[-> _]|Hf]); [done|].
  destruct Hf as (m2 & e2 & Hc & HE & Hq2 & Heq).
  set (d := Zdigits2 m) in *. set (E := fe (d + e)) in *.
  enough (Z.pos (digits2_pos m2) + e2 ≤ k + 1) as Hd.
  { assert (e2 ≤ emax - prec) as Hle.
    { unfold canonical in Hc. rewrite <-Hc. unfold fexp, emin. lia. }
    rewrite Heq in *. destruct (Z.leb_spec e2 (emax - prec)); [|lia]. done. }
  destruct (Zdigits2_bounds m Hm) as (Hd0 & Hdhi & _). fold d in Hd0, Hdhi.
  destruct (digits2_bounds m2) as [Hb _]. set (d2 := Z.pos (digits2_pos m2)) in *.
  assert (0 < 2 ^ (e2 - E)) by (apply Z.pow_pos_nonneg; lia).
  assert (2 ^ (d2 - 1) * 2 ^ (e2 - E) ≤ q') as Hlo by nia.
  rewrite <-Z.pow_add_r in Hlo by (unfold d2; lia).
  destruct (Z.le_gt_cases (d2 + e2) (k + 1)) as [|Hgt]; [done|exfalso].
  destruct (decide (d + e ≤ E)) as [Hw|Hw].
  - rewrite Z.div_small in Hq.
    2:{ split; [done|]. eapply Z.lt_le_trans; [exact Hdhi|]. apply Z.pow_le_mono_r; lia. }
    assert (2 ^ 1 ≤ 2 ^ (d2 - 1 + (e2 - E))); [|lia].
    apply Z.pow_le_mono_r; [lia|]. unfold E, fexp, emin in *. lia.
  - assert (m `div` 2 ^ (E - e) < 2 ^ (d + e - E)).
    { apply Z.div_lt_upper_bound; [apply Z.pow_pos_nonneg; lia|].
      rewrite <-Z.pow_add_r by lia. replace (E - e + (d + e - E)) with d by lia. done. }
    assert (2 ^ (d + e - E + 1) ≤ 2 ^ (d2 - 1 + (e2 - E))) as Hp by (apply Z.pow_le_mono_r; lia).
    rewrite Z.pow_add_r in Hp by lia. lia.
Qed.

Lemma normalize_bnd z e k :
  0 ≤ z → Zdigits2 z + e ≤ k → 0 ≤ k ≤ 1000 → bnd (k + 1) (binary_normalize prec emax z e false).
Proof.
  intros Hz Hk Hk1. destruct z as [|m|]; [done| |lia]. cbn [binary_normalize]. unfold binary_round.
  set (f := fe (Z.pos (digits2_pos m) + e)).
  destruct (shl_align_spec m e f) as (He & _ & Hd).
  destruct (shl_align m e f) as [mz ez]. simpl in He, Hd, Hk.
  apply round_aux_bnd; [done| | |done]; simpl Zdigits2; rewrite Hd; [fold f; lia|done].
Qed.

Lemma of_Z_bnd z k : 0 ≤ z < 2 ^ k → 0 ≤ k ≤ 1000 → bnd (k + 1) (f64_of_Z z).
Proof.
  intros. apply normalize_bnd; [lia| |done]. pose proof (Zdigits2_le z k). lia.
Qed.

Lemma add_bnd x y k : bnd k x → bnd k y → 0 ≤ k ≤ 900 → bnd (k + 2) (f64_add x y).
Proof.
  intros [[Hx Hxf] Hxb] [[Hy Hyf] Hyb] Hk.
  assert (∀ m e, nn (S754_finite false m e) → Z.pos (digits2_pos m) + e ≤ k →
                 bnd (k + 2) (S754_finite false m e)) as Hw by (unfold bnd, fin; intros; split_and!; (done || lia)).
  destruct x as [s|s| |s m e], y as [s'|s'| |s' m' e']; simpl in *; try done;
    destruct_and?; subst; try done; try by apply Hw.
  replace (k + 2) with (k + 1 + 1) by lia.
  rewrite !align_value by lia. cbn [cond_Zopp]. set (ez := Z.min e e').
  destruct (digits2_bounds m) as [_ Hb1]. destruct (digits2_bounds m') as [_ Hb2].
  assert (∀ p q, Z.pos (digits2_pos p) + q ≤ k → ez ≤ q → Z.pos p < 2 ^ Z.pos (digits2_pos p) →
    Z.pos p * 2 ^ (q - ez) < 2 ^ (k - ez)) as Hs.
  { intros p q Hpq Hez Hp. assert (0 < 2 ^ (q - ez)) by (apply Z.pow_pos_nonneg; lia).
    eapply Z.lt_le_trans; [apply Z.mul_lt_mono_pos_r; [done|exact Hp]|].
    rewrite <-Z.pow_add_r by lia. apply Z.pow_le_mono_r; lia. }
  pose proof (Hs m e ltac:(lia) ltac:(lia) Hb1). pose proof (Hs m' e' ltac:(lia) ltac:(lia) Hb2).
  assert (Z.pos m * 2 ^ (e - ez) + Z.pos m' * 2 ^ (e' - ez) < 2 ^ (k - ez + 1)).
  { rewrite Z.pow_add_r by lia. lia. }
  pose proof (Zdigits2_le (Z.pos m * 2 ^ (e - ez) + Z.pos m' * 2 ^ (e' - ez)) (k - ez + 1)).
  assert (0 ≤ 2 ^ (e - ez)) by (apply Z.pow_nonneg; lia).
  assert (0 ≤ 2 ^ (e' - ez)) by (apply Z.pow_nonneg; lia).
  apply normalize_bnd; [nia|nia|lia].
Qed.

(** A quotient of finite numbers is the rounding of some [q * 2^f] that does
    not exceed it. *)
Lemma div_core m1 e1 m e :
  let d1 := Z.pos (digits2_pos m1) in let d2 := Z.pos (digits2_pos m) in
  ∃ q f l, f64_div (S754_finite false m1 e1) (S754_finite false m e) = binary_round_aux prec emax false q f l
    ∧ 0 ≤ q ∧ f ≤ fe (Zdigits2 q + f) ∧ f ≤ fe (d1 + e1 - (d2 + e)) ∧ 0 ≤ e1 - e - f
    ∧ q * Z.pos m ≤ Z.pos m1 * 2 ^ (e1 - e - f).
Proof.
  unfold f64_div, SFdiv, SFdiv_core_binary. cbn [xorb].
  set (d1 := Zdigits2 (Z.pos m1)). set (d2 := Zdigits2 (Z.pos m)).
  set (X := d1 + e1 - (d2 + e)). set (e' := Z.min (fe X) (e1 - e)).
  set (s := e1 - e - e').
  set (m' := match s with Z.pos _ => Z.shiftl (Z.pos m1) s | 0 => Z.pos m1 | Z.neg _ => 0 end).
  assert (0 ≤ s) as Hs by (unfold s, e'; lia).
  assert (m' = Z.pos m1 * 2 ^ s) as Hm'.
  { unfold m'. destruct s; [lia| |lia]. by rewrite Z.shiftl_mul_pow2. }
  destruct (Z.div_eucl m' (Z.pos m)) as [q r] eqn:Hq.
  assert (q = m' `div` Z.pos m) as -> by (unfold Z.div; by rewrite Hq).
  assert (0 < 2 ^ s) by (apply Z.pow_pos_nonneg; lia).
  set (q := m' `div` Z.pos m).
  assert (0 ≤ q) as Hq0 by (unfold q; rewrite Hm'; apply Z.div_pos; lia).
  destruct (digits2_bounds m1) as [Hb1 Hb1']. destruct (digits2_bounds m) as [Hb2' Hb2].
  change (Z.pos (digits2_pos m1)) with d1 in *. change (Z.pos (digits2_pos m)) with d2 in *.
  assert (1 ≤ d1 ∧ 1 ≤ d2) as [? ?] by (unfold d1, d2; simpl; lia).
  assert (X ≤ Zdigits2 q + e') as HX.
  { destruct (Zdigits2_bounds q Hq0) as (? & Hqb & _).
    destruct (Z.le_gt_cases X (Zdigits2 q + e')) as [|Hlt]; [done|exfalso].
    assert (m' < (q + 1) * Z.pos m) as Hm1.
    { unfold q. pose proof (Z.mul_succ_div_gt m' (Z.pos m)). lia. }
    assert (2 ^ (d1 - 1) * 2 ^ s ≤ m') as Hm2 by (rewrite Hm'; nia).
    assert ((q + 1) * Z.pos m ≤ 2 ^ Zdigits2 q * 2 ^ d2) as Hm3 by nia.
    rewrite <-Z.pow_add_r in Hm2, Hm3 by lia.
    assert (2 ^ (Zdigits2 q + d2) ≤ 2 ^ (d1 - 1 + s)); [|lia].
    apply Z.pow_le_mono_r; unfold X, s in *; lia. }
  eexists q, e', _. split; [done|]. pose proof (fe_mono _ _ HX) as HfX.
  assert (e' ≤ fe X) as HeX by (unfold e'; lia). split_and!; [done|lia|done|done|].
  fold s. rewrite <-Hm'. unfold q. rewrite Z.mul_comm. apply Z.mul_div_le. lia.
Qed.

(** Dividing by a number of magnitude at least one half. *)
Lemma div_bnd x m e k :
  bnd k x → nn (S754_finite false m e) → 0 ≤ Z.pos (digits2_pos m) + e → 0 ≤ k ≤ 900 →
  bnd (k + 2) (f64_div x (S754_finite false m e)).
Proof.
  intros [[Hx Hxf] Hxb] Hy Hmag Hk.
  destruct x as [s|s| |s m1 e1]; simpl in Hx, Hxf, Hxb; try done; [by subst|].
  destruct Hx as (-> & _ & _). destruct (div_core m1 e1 m e) as (q & f & l & -> & Hq0 & Hf & HX & Hs & Hle).
  destruct (digits2_bounds m1) as [_ Hb1]. destruct (digits2_bounds m) as [Hb2 _].
  set (d1 := Z.pos (digits2_pos m1)) in *. set (d2 := Z.pos (digits2_pos m)) in *.
  assert (1 ≤ d1 ∧ 1 ≤ d2) as [? ?] by (unfold d1, d2; lia). set (s := e1 - e - f) in *.
  assert (0 < 2 ^ s) by (apply Z.pow_pos_nonneg; lia).
  replace (k + 2) with (k + 1 + 1) by lia. apply round_aux_bnd; [done|done| |lia].
  destruct (decide (q = 0)) as [->|Hnz]; [simpl; unfold fexp, emin in *; lia|].
  assert (q * 2 ^ (d2 - 1) < 2 ^ d1 * 2 ^ s) as Hlt by nia.
  rewrite <-Z.pow_add_r in Hlt by lia.
  destruct (Z.le_gt_cases (Zdigits2 q + f) (k + 1)) as [|Hgt]; [done|exfalso].
  destruct (Zdigits2_bounds q Hq0) as (? & _ & [? Hlo]); [lia|].
  assert (2 ^ (Zdigits2 q - 1) * 2 ^ (d2 - 1) ≤ q * 2 ^ (d2 - 1)) as Hm2.
  { assert (0 < 2 ^ (d2 - 1)) by (apply Z.pow_pos_nonneg; lia). nia. }
  rewrite <-Z.pow_add_r in Hm2 by lia.
  assert (2 ^ (d1 + s) ≤ 2 ^ (Zdigits2 q - 1 + (d2 - 1))); [|lia].
  apply Z.pow_le_mono_r; unfold s in *; lia.
Qed.
