(* ===== verification/Rounding.v ===== *)
(** * What binary64 rounding can add

    The rational a [Float64] number stands for, and one-sided error bounds for
    the operations the rate buckets use: the result of an addition,
    subtraction, multiplication, division or conversion of nonnegative numbers
    is at most the exact result times [1 + 2^-52] plus the least subnormal. *)

From Stdlib Require Import SpecFloat QArith Qpower Lqa.
From S2P Require Import Prelude Float64.

Local Open Scope Z_scope.

(** ** Powers of two *)

Definition pow2 (e : Z) : Q := Qpower 2 e.
Arguments pow2 : simpl never.

Lemma pow2_add a b : (pow2 (a + b) == pow2 a * pow2 b)%Q.
Proof. apply Qpower_plus. discriminate. Qed.

Lemma pow2_pos e : (0 < pow2 e)%Q.
Proof. apply Qpower_0_lt. done. Qed.

Lemma pow2_mono a b : a ≤ b → (pow2 a <= pow2 b)%Q.
Proof. intros H. apply Qpower_le_compat_l; [done|discriminate]. Qed.

Lemma pow2_Z n : 0 ≤ n → (inject_Z (2 ^ n) == pow2 n)%Q.
Proof. intros H. unfold pow2. by rewrite Zpower_Qpower. Qed.

Lemma inject_le a b : a ≤ b → (inject_Z a <= inject_Z b)%Q.
Proof. intros. by rewrite <-Zle_Qle. Qed.

(** Moving a power of two between mantissa and exponent. *)
Lemma scale_pow2 m n e : 0 ≤ n → (inject_Z (m * 2 ^ n) * pow2 e == inject_Z m * pow2 (n + e))%Q.
Proof. intros. rewrite inject_Z_mult, pow2_Z, pow2_add by done. ring. Qed.

(** ** Values *)

(** An overflowed number counts as [2^1024], which it exceeds. *)
Definition value (x : f64) : Q :=
  match x with
  | S754_zero _ | S754_nan => 0
  | S754_infinity _ => pow2 1024
  | S754_finite _ m e => inject_Z (Z.pos m) * pow2 e
  end.

Definition ulp1 : Q := pow2 (-52).
Definition tiny : Q := pow2 (-1074).

(** The most a correctly rounded result can be. *)
Definition rup (q : Q) : Q := (q * (1 + ulp1) + tiny)%Q.

Lemma ulp1_pos : (0 < ulp1)%Q.
Proof. apply pow2_pos. Qed.
Lemma tiny_pos : (0 < tiny)%Q.
Proof. apply pow2_pos. Qed.

Lemma value_nonneg x : (0 <= value x)%Q.
Proof.
  destruct x as [| | |s m e]; [done|apply Qlt_le_weak, (pow2_pos 1024)|done|].
  apply Qmult_le_0_compat; [by apply (inject_le 0)|apply Qlt_le_weak, pow2_pos].
Qed.

#[global] Instance rup_proper : Proper (Qeq ==> Qeq) rup.
Proof. intros p q H. unfold rup. by rewrite H. Qed.

Lemma rup_mono p q : (p <= q)%Q → (rup p <= rup q)%Q.
Proof. intros H. unfold rup. pose proof ulp1_pos. nra. Qed.

Lemma rup_ge q : (0 <= q)%Q → (q <= rup q)%Q.
Proof. intros H. unfold rup. pose proof ulp1_pos. pose proof tiny_pos. nra. Qed.

(** One unit in the last place of the result. *)
Lemma rounding_unit m e :
  0 ≤ m → e ≤ fe (Zdigits2 m + e) →
  (pow2 (fe (Zdigits2 m + e)) <= inject_Z m * pow2 e * ulp1 + tiny)%Q.
Proof.
  intros Hm He. pose proof (pow2_pos e) as Hp. pose proof ulp1_pos as Hu. pose proof tiny_pos as Ht.
  assert (0 <= inject_Z m * pow2 e)%Q as H0 by (apply Qmult_le_0_compat; [by apply (inject_le 0)|lra]).
  destruct (decide (fe (Zdigits2 m + e) = -1074)) as [->|Hne].
  { fold tiny. assert (0 <= inject_Z m * pow2 e * ulp1)%Q by (apply Qmult_le_0_compat; lra). lra. }
  assert (fe (Zdigits2 m + e) = Zdigits2 m + e - 53) as ->.
  { revert Hne. unfold fexp, emin. lia. }
  destruct (Zdigits2_bounds m Hm) as (Hd0 & _ & Hlo).
  assert (0 < m) as Hpos.
  { destruct (decide (m = 0)) as [->|]; [|lia]. revert Hne He. unfold fexp, emin. simpl. lia. }
  destruct Hlo as [Hd1 Hlo]; [lia|].
  replace (Zdigits2 m + e - 53) with (Zdigits2 m - 1 + e + -52) by lia.
  rewrite !pow2_add. fold ulp1. rewrite <-pow2_Z by lia.
  assert (inject_Z (2 ^ (Zdigits2 m - 1)) <= inject_Z m)%Q by (by apply inject_le).
  assert (inject_Z (2 ^ (Zdigits2 m - 1)) * pow2 e * ulp1 <= inject_Z m * pow2 e * ulp1)%Q; [|lra].
  apply Qmult_le_compat_r; [|lra]. apply Qmult_le_compat_r; lra.
Qed.

Lemma round_value m e l :
  0 ≤ m → e ≤ fe (Zdigits2 m + e) →
  (value (binary_round_aux prec emax false m e l) <= rup (inject_Z m * pow2 e))%Q.
Proof.
  intros Hm He. destruct (round_aux_spec false m e l Hm He) as (q & Hq & _ & Hres).
  pose proof (rounding_unit m e Hm He) as Hu. set (E := fe (Zdigits2 m + e)) in *.
  assert (0 < 2 ^ (E - e)) as Hpos by (apply Z.pow_pos_nonneg; lia).
  assert (inject_Z q * pow2 E <= rup (inject_Z m * pow2 e))%Q as Hqr.
  { assert (inject_Z q * pow2 E <= inject_Z m * pow2 e + pow2 E)%Q; [|unfold rup; lra].
    assert (inject_Z (m `div` 2 ^ (E - e)) * pow2 E <= inject_Z m * pow2 e)%Q as Hdiv.
    { replace E with (E - e + e) at 2 by lia. rewrite <-scale_pow2 by lia.
      apply Qmult_le_compat_r; [|apply Qlt_le_weak, pow2_pos]. apply inject_le.
      rewrite Z.mul_comm. apply Z.mul_div_le. lia. }
    assert (inject_Z q * pow2 E <= inject_Z (m `div` 2 ^ (E - e) + 1) * pow2 E)%Q as H1.
    { apply Qmult_le_compat_r; [apply inject_le; lia|apply Qlt_le_weak, pow2_pos]. }
    rewrite inject_Z_plus in H1. change (inject_Z 1) with 1%Q in H1. lra. }
  destruct Hres as [[-> _]|(m2 & e2 & Hc & HE & -> & ->)].
  { simpl. eapply Qle_trans; [|exact Hqr]. apply Qmult_le_0_compat; [|apply Qlt_le_weak, pow2_pos].
    apply (inject_le 0). assert (0 ≤ m `div` 2 ^ (E - e)) by (apply Z.div_pos; lia). lia. }
  rewrite scale_pow2 in Hqr by lia. replace (e2 - E + E) with e2 in Hqr by lia.
  destruct (Z.leb_spec e2 (emax - prec)) as [Hle|Hgt]; simpl; [done|].
  eapply Qle_trans; [|exact Hqr]. destruct (digits2_bounds m2) as [Hb _].
  assert (53 ≤ Z.pos (digits2_pos m2)) as Hd by (revert Hc; unfold canonical, fexp, emin; lia).
  apply (Qle_trans _ (inject_Z (2 ^ (Z.pos (digits2_pos m2) - 1)) * pow2 e2)).
  - rewrite pow2_Z, <-pow2_add by lia. apply pow2_mono. lia.
  - apply Qmult_le_compat_r; [by apply inject_le|apply Qlt_le_weak, pow2_pos].
Qed.

Lemma normalize_value z e :
  0 ≤ z → (value (binary_normalize prec emax z e false) <= rup (inject_Z z * pow2 e))%Q.
Proof.
  intros Hz. destruct z as [|m|]; [|cbn [binary_normalize]; unfold binary_round|lia].
  { change (inject_Z 0) with 0%Q. rewrite Qmult_0_l. by apply rup_ge. }
  set (f := fe (Z.pos (digits2_pos m) + e)). destruct (shl_align_spec m e f) as (He & Hm & Hd).
  destruct (shl_align m e f) as [mz ez]. simpl in He, Hm, Hd.
  replace e with (e - ez + ez) by lia. rewrite <-scale_pow2, <-Hm by lia.
  apply round_value; [done|]. simpl Zdigits2. rewrite Hd. fold f. lia.
Qed.

Lemma of_Z_value z : 0 ≤ z → (value (f64_of_Z z) <= rup (inject_Z z))%Q.
Proof.
  intros Hz. eapply Qle_trans; [by apply normalize_value|]. apply rup_mono.
  change (pow2 0) with 1%Q. lra.
Qed.

(** Integers below [2^53] are exact. *)
Lemma of_Z_exact z : 0 ≤ z < 2 ^ 53 → (value (f64_of_Z z) == inject_Z z)%Q.
Proof.
  intros [Hz Hlt]. destruct z as [|m|]; [done| |lia]. unfold f64_of_Z. cbn [binary_normalize]. unfold binary_round.
  set (f := fe (Z.pos (digits2_pos m) + 0)). destruct (shl_align_spec m 0 f) as (He & Hm & Hd).
  pose proof (Zdigits2_le (Z.pos m) 53 ltac:(lia) ltac:(lia) Hlt) as Hdig. simpl in Hdig.
  assert (f ≤ 0) as Hf by (unfold f, fexp, emin; lia).
  destruct (shl_align m 0 f) as [mz ez]. simpl in He, Hm, Hd. replace (Z.min 0 f) with f in He by lia. subst ez.
  assert (fe (Zdigits2 (Z.pos mz) + f) = f) as HE by (simpl Zdigits2; rewrite Hd; done).
  destruct (round_aux_spec false (Z.pos mz) f loc_Exact) as (q & _ & Hex & Hres); [done|lia|].
  rewrite HE, Z.sub_diag, Z.div_1_r, Z.mul_1_r in *. specialize (Hex eq_refl eq_refl). subst q.
  destruct Hres as [[_ ?]|(m2 & e2 & Hc & HE2 & Hq & ->)]; [done|].
  assert (e2 ≤ 0) as He2.
  { destruct (digits2_bounds m2) as [Hb _]. destruct (Z.le_gt_cases e2 0) as [|Hgt]; [done|exfalso].
    assert (53 ≤ Z.pos (digits2_pos m2)) by (revert Hc; unfold canonical, fexp, emin; lia).
    assert (2 ^ 52 ≤ 2 ^ (Z.pos (digits2_pos m2) - 1)) by (apply Z.pow_le_mono_r; lia).
    assert (Z.pos m * 2 ^ (0 - f) = Z.pos m2 * 2 ^ e2 * 2 ^ (0 - f)) as Heq.
    { rewrite <-Z.mul_assoc, <-Z.pow_add_r by lia. replace (e2 + (0 - f)) with (e2 - f) by lia. congruence. }
    apply Z.mul_reg_r in Heq; [|apply Z.pow_nonzero; lia].
    assert (2 ^ 1 ≤ 2 ^ e2) by (apply Z.pow_le_mono_r; lia). change (2 ^ 53) with (2 ^ 52 * 2 ^ 1) in Hlt. nia. }
  destruct (Z.leb_spec e2 (emax - prec)); [|lia]. cbn [value].
  replace e2 with (e2 - f + f) by lia. rewrite <-scale_pow2, <-Hq, Hm, scale_pow2 by lia.
  replace (0 - f + f) with 0 by lia. change (pow2 0) with 1%Q. ring.
Qed.

Lemma add_value x y : nn x → nn y → (value (f64_add x y) <= rup (value x + value y))%Q.
Proof.
  intros Hx Hy. pose proof (value_nonneg x) as Vx. pose proof (value_nonneg y) as Vy.
  destruct x as [s|s| |s m e], y as [s'|s'| |s' m' e']; simpl in Hx, Hy; try done; destruct_and?; subst;
    try (cbn [f64_add SFadd value Bool.eqb] in *; eapply Qle_trans; [|apply rup_ge]; lra).
  unfold f64_add, SFadd. eapply Qle_trans; [apply normalize_value; cbn [cond_Zopp]; lia|]. apply rup_mono.
  cbn [cond_Zopp value]. rewrite !align_value, inject_Z_plus by lia.
  rewrite Qmult_plus_distr_l, !scale_pow2 by lia.
  replace (e - Z.min e e' + Z.min e e') with e by lia. replace (e' - Z.min e e' + Z.min e e') with e' by lia. lra.
Qed.

Lemma mul_value x y : fin x → fin y → (value (f64_mul x y) <= rup (value x * value y))%Q.
Proof.
  intros [Hx Hxf] [Hy Hyf]. pose proof (mul_nn x y (conj Hx Hxf) (conj Hy Hyf)) as Hnn.
  destruct x as [s|s| |s m e], y as [s'|s'| |s' m' e']; simpl in Hx, Hy, Hxf, Hyf; try done;
    try (cbn [f64_mul SFmul value]; rewrite ?Qmult_0_l, ?Qmult_0_r; by apply rup_ge).
  destruct Hx as (-> & Hc & _), Hy as (-> & Hc' & _). unfold f64_mul, SFmul. cbn [xorb value].
  eapply Qle_trans; [apply round_value; [done|]|].
  - by apply mul_exponent.
  - apply rup_mono. rewrite Pos2Z.inj_mul, inject_Z_mult, pow2_add. lra.
Qed.

Lemma div_value x m e :
  fin x → (value (f64_div x (S754_finite false m e)) <= rup (value x / value (S754_finite false m e)))%Q.
Proof.
  intros [Hx Hxf]. destruct x as [s|s| |s m1 e1]; simpl in Hx, Hxf; try done.
  destruct Hx as (-> & _). destruct (div_core m1 e1 m e) as (q & f & l & -> & Hq & Hf & _ & Hs & Hle).
  eapply Qle_trans; [by apply round_value|]. apply rup_mono. cbn [value].
  pose proof (pow2_pos e) as Hpe. assert (0 < inject_Z (Z.pos m))%Q as Hm by done.
  apply Qle_shift_div_l; [by apply Qmult_lt_0_compat|].
  replace e1 with (e1 - e - f + (f + e)) by lia. rewrite <-scale_pow2, pow2_add by done.
  apply inject_le in Hle. rewrite inject_Z_mult in Hle. pose proof (pow2_pos f) as Hpf.
  set (a := inject_Z (Z.pos m1 * 2 ^ (e1 - e - f))) in *. assert (0 < pow2 f * pow2 e)%Q as Hfe by (by apply Qmult_lt_0_compat).
  set (w := (pow2 f * pow2 e)%Q) in *. assert (inject_Z q * inject_Z (Z.pos m) * w <= a * w)%Q as Hw by (apply Qmult_le_compat_r; lra).
  eapply Qle_trans; [|exact Hw]. unfold w. lra.
Qed.

(** ** Order *)

Lemma finite_below m e : canonical m e → e ≤ emax - prec → (inject_Z (Z.pos m) * pow2 e <= pow2 1024)%Q.
Proof.
  intros Hc He. destruct (digits2_bounds m) as [_ Hb].
  assert (Z.pos (digits2_pos m) + e ≤ 1024) by (revert Hc; unfold canonical, fexp, emin; lia).
  apply (Qle_trans _ (inject_Z (2 ^ Z.pos (digits2_pos m)) * pow2 e)).
  - apply Qmult_le_compat_r; [apply inject_le; lia|apply Qlt_le_weak, pow2_pos].
  - rewrite pow2_Z, <-pow2_add by lia. by apply pow2_mono.
Qed.

Lemma leb_value x y : nn x → nn y → f64_leb x y → (value x <= value y)%Q.
Proof.
  intros Hx Hy. rewrite f64_leb_key by done. pose proof (value_nonneg y) as Vy.
  destruct x as [s|s| |s m e], y as [s'|s'| |s' m' e']; simpl in Hx, Hy; try done.
  { intros _. destruct Hx as (_ & ? & ?). by apply finite_below. }
  destruct Hx as (_ & Hc & _), Hy as (_ & Hc' & _). unfold lex_leb. simpl. intros Hle. clear Vy.
  assert (e < e' ∨ e = e' ∧ Z.pos m ≤ Z.pos m') as [Hlt|[-> Hm]].
  { destruct (Z.compare_spec e e'); [|lia|done]. right. split; [done|].
    change (Pos.compare m m') with (Z.compare (Z.pos m) (Z.pos m')) in Hle.
    destruct (Z.compare_spec (Z.pos m) (Z.pos m')); (done || lia). }
  - replace e' with (e' - e + e) by lia. rewrite <-scale_pow2 by lia.
    apply Qmult_le_compat_r; [apply inject_le|apply Qlt_le_weak, pow2_pos].
    destruct (Z.le_gt_cases (Z.pos m) (Z.pos m' * 2 ^ (e' - e))) as [|Hgt]; [done|exfalso].
    destruct (canonical_leb m' e' m e e Hc' Hc); [lia|lia| |lia|lia]. rewrite Z.sub_diag. lia.
  - apply Qmult_le_compat_r; [by apply inject_le|apply Qlt_le_weak, pow2_pos].
Qed.

Lemma min_value x y : nn x → nn y → (value (f64_min x y) <= value x ∧ value (f64_min x y) <= value y)%Q.
Proof.
  intros Hx Hy. rewrite min_cases by done. destruct (f64_leb x y) eqn:E.
  - split; [lra|]. apply leb_value; [done..|by rewrite E].
  - split; [|lra]. destruct (f64_leb_total x y Hx Hy) as [Hc|Hc]; [by rewrite E in Hc|]. by apply leb_value.
Qed.

Lemma sub_value x y :
  fin x → fin y → f64_leb y x → (value (f64_sub x y) <= rup (value x - value y))%Q.
Proof.
  intros Hx Hy Hle. pose proof (leb_value y x (fin_nn _ Hy) (fin_nn _ Hx) Hle) as Hv.
  destruct Hx as [Hx Hxf], Hy as [Hy Hyf].
  destruct x as [s|s| |s m e], y as [s'|s'| |s' m' e']; simpl in Hx, Hy, Hxf, Hyf; try done;
    destruct_and?; subst; try done.
  { pose proof (value_nonneg (S754_finite false m e)) as V. unfold f64_sub, SFsub.
    eapply Qle_trans; [|apply rup_ge]; cbn [value] in *; lra. }
  unfold f64_sub, SFsub. cbn [cond_Zopp] in *. rewrite !align_value by lia. cbn [value] in *.
  set (k := Z.min e e').
  assert (∀ m0 e0, k ≤ e0 → inject_Z (Z.pos m0) * pow2 e0 == inject_Z (Z.pos m0 * 2 ^ (e0 - k)) * pow2 k)%Q as Hsc.
  { intros m0 e0 He. rewrite scale_pow2 by lia. by replace (e0 - k + k) with e0 by lia. }
  rewrite (Hsc m e), (Hsc m' e') in Hv |- * by (unfold k; lia).
  apply Qmult_lt_0_le_reg_r in Hv; [|apply pow2_pos]. rewrite <-Zle_Qle in Hv.
  eapply Qle_trans; [apply normalize_value; lia|]. apply rup_mono.
  unfold Z.sub. rewrite inject_Z_plus, inject_Z_opp. lra.
Qed.

Lemma floor_value x n : fin x → 0 ≤ n ≤ f64_floor_usize x → (inject_Z n <= value x)%Q.
Proof.
  intros [Hx Hxf] [Hn Hle]. destruct x as [s|s| |s m e]; simpl in Hx, Hxf, Hle; try done.
  { by apply inject_le. }
  destruct Hx as (-> & _ & _). cbn [value]. destruct (Z.leb_spec 0 e) as [He|He].
  - replace e with (e + 0) by lia. rewrite <-scale_pow2 by done. change (pow2 0) with 1%Q. rewrite Qmult_1_r.
    apply inject_le. lia.
  - assert (0 < 2 ^ (- e)) by (apply Z.pow_pos_nonneg; lia).
    assert (n * 2 ^ (- e) ≤ Z.pos m) as Hm by (pose proof (Z.mul_div_le (Z.pos m) (2 ^ (- e))); nia).
    apply inject_le in Hm. apply (Qle_trans _ (inject_Z (n * 2 ^ (- e)) * pow2 e)).
    + rewrite scale_pow2 by lia. replace (- e + e) with 0 by lia. change (pow2 0) with 1%Q. lra.
    + apply Qmult_le_compat_r; [done|apply Qlt_le_weak, pow2_pos].
Qed.
