(* ===== verification/Budget.v ===== *)
(** * Token bucket ([src/budget.rs])

    [RateBucket] is written once over an interface [Num] of the arithmetic it
    uses.  The code's bucket is the instance at [f64] (bit-exact binary64), and
    every theorem of this file is about it; the instance at [Q] serves the rate
    curve of [Pressure], which is compared with its exact counterpart. *)

From Stdlib Require Import SpecFloat QArith Qround Qminmax Lqa.
From S2P Require Import Prelude Float64 Rounding.

Local Open Scope Z_scope.

(** ** Arithmetic interface *)

Class Num (F : Type) := {
  n_zero : F;
  n_of_Z : Z → F;
  n_add : F → F → F;
  n_sub : F → F → F;
  n_mul : F → F → F;
  n_div : F → F → F;
  n_min : F → F → F;
  n_max : F → F → F;
  n_leb : F → F → bool;
  n_ltb : F → F → bool;
  (** [x.floor() as usize] *)
  n_floor_usize : F → Z;
}.

#[global] Instance f64_num : Num f64 := {|
  n_zero := f64_zero; n_of_Z := f64_of_Z;
  n_add := f64_add; n_sub := f64_sub; n_mul := f64_mul; n_div := f64_div;
  n_min := f64_min; n_max := f64_max; n_leb := f64_leb; n_ltb := f64_ltb;
  n_floor_usize := f64_floor_usize |}.

#[global] Instance Q_num : Num Q := {|
  n_zero := 0%Q; n_of_Z := inject_Z;
  n_add := Qplus; n_sub := Qminus; n_mul := Qmult; n_div := Qdiv;
  n_min := Qmin; n_max := Qmax; n_leb := Qle_bool;
  n_ltb := λ x y, negb (Qle_bool y x);
  n_floor_usize := λ x, Z.max 0 (Z.min usize_max (Qfloor x)) |}.

Module RateBucket.
Section bucket.
Context {F : Type} `{Num F}.

Record RateBucket := mk {
  rate_per_sec : F;
  capacity : F;
  tokens : F;
  last_refill : Instant;
}.

Definition with_tokens (b : RateBucket) (t : F) : RateBucket :=
  mk (rate_per_sec b) (capacity b) t (last_refill b).

Definition new (rate_per_sec capacity : F) (initially_full : bool) (now : Instant) : RateBucket :=
  let capacity := if n_leb rate_per_sec n_zero then n_zero else n_max capacity (n_of_Z 1) in
  mk rate_per_sec capacity (if initially_full then capacity else n_zero) now.

Definition per_second (rate_per_sec burst : Z) (initially_full : bool) (now : Instant) : RateBucket :=
  new (n_of_Z rate_per_sec) (n_of_Z burst) initially_full now.

Definition per_minute (rate_per_minute burst : Z) (initially_full : bool) (now : Instant)
  : RateBucket :=
  new (n_div (n_of_Z rate_per_minute) (n_of_Z 60)) (n_of_Z burst) initially_full now.

(** [Duration::as_secs_f64] *)
Definition as_secs (d : Duration) : F :=
  n_add (n_of_Z (d `div` 1000000000)) (n_div (n_of_Z (d `mod` 1000000000)) (n_of_Z 1000000000)).

Definition refill (b : RateBucket) (now : Instant) : RateBucket :=
  let elapsed := as_secs (age now (last_refill b)) in
  if n_ltb n_zero elapsed
  then mk (rate_per_sec b) (capacity b)
          (n_min (n_add (tokens b) (n_mul elapsed (rate_per_sec b))) (capacity b)) now
  else b.

Definition set_per_second_rate (b : RateBucket) (rate : Z) (now : Instant) : RateBucket :=
  let b := refill b now in
  let r := n_of_Z rate in
  mk r (capacity b) (if n_leb r n_zero then n_zero else n_min (tokens b) (capacity b))
     (last_refill b).

Definition try_take_exact (b : RateBucket) (count : Z) (now : Instant) : bool * RateBucket :=
  if count =? 0 then (true, b)
  else if n_leb (rate_per_sec b) n_zero || n_leb (capacity b) n_zero then (false, b)
  else
    let b := refill b now in
    if n_ltb (tokens b) (n_of_Z count) then (false, b)
    else (true, with_tokens b (n_sub (tokens b) (n_of_Z count))).

Definition try_take_one (b : RateBucket) (now : Instant) : bool * RateBucket :=
  try_take_exact b 1 now.

Definition try_take (b : RateBucket) (max : Z) (now : Instant) : Z * RateBucket :=
  if (max =? 0) || n_leb (rate_per_sec b) n_zero || n_leb (capacity b) n_zero then (0, b)
  else
    let b := refill b now in
    let taken := Z.min (n_floor_usize (tokens b)) max in
    (taken, with_tokens b (n_sub (tokens b) (n_of_Z taken))).

Definition refund (b : RateBucket) (count : Z) : RateBucket :=
  with_tokens b (n_min (n_add (tokens b) (n_of_Z count)) (capacity b)).

Definition refund_one (b : RateBucket) : RateBucket := refund b 1.
End bucket.
Arguments RateBucket : clear implicits.
Arguments mk {_} _ _ _ _.

(** ** The f64 bucket stays within its capacity *)

Definition ok (b : RateBucket f64) : Prop :=
  fin (rate_per_sec b) ∧ fin (capacity b) ∧ fin (tokens b) ∧ f64_leb (tokens b) (capacity b).

Lemma fin_zero : fin f64_zero.
Proof. done. Qed.

Lemma div_by_const x c k :
  bnd k x → 0 ≤ k ≤ 900 → c = 60 ∨ c = 1000000000 → bnd (k + 2) (f64_div x (f64_of_Z c)).
Proof.
  intros Hx Hk [-> | ->].
  - assert (f64_of_Z 60 = S754_finite false 8444249301319680 (-47)) as -> by done.
    by apply div_bnd.
  - assert (f64_of_Z 1000000000 = S754_finite false 8388608000000000 (-23)) as -> by done.
    by apply div_bnd.
Qed.

Lemma bnd_weaken k k' x : bnd k x → k ≤ k' → bnd k' x.
Proof. intros [Hf Hb] ?. split; [done|]. destruct x; try done. lia. Qed.

(** [Duration] is at most [2^64] seconds. *)
Lemma as_secs_fin d : 0 ≤ d < 2 ^ 100 → fin (as_secs (F:=f64) d).
Proof.
  intros Hd. assert (0 ≤ d `div` 1000000000 < 2 ^ 100).
  { split; [apply Z.div_pos; lia|]. apply Z.div_lt_upper_bound; lia. }
  pose proof (Z.mod_pos_bound d 1000000000).
  apply (bnd_fin (101 + 2)), add_bnd; [|apply (bnd_weaken (31 + 2)); [|lia]|lia].
  - by apply (of_Z_bnd _ 100).
  - apply div_by_const; [apply (of_Z_bnd _ 30); lia|lia|by right].
Qed.

Lemma new_ok rate cap full now : fin rate → fin cap → ok (new rate cap full now).
Proof.
  intros Hr Hc. unfold new. simpl.
  assert (fin (if f64_leb rate f64_zero then f64_zero else f64_max cap (f64_of_Z 1))) as Hcap.
  { destruct (f64_leb rate f64_zero); [done|]. by apply max_fin; [|apply of_Z_fin]. }
  split_and!; simpl; try done; destruct full; try done.
  - by apply f64_leb_refl, fin_nn.
  - by apply zero_leb, fin_nn.
Qed.

Lemma per_second_ok rate burst full now :
  0 ≤ rate ≤ u32_max → 0 ≤ burst ≤ u32_max → ok (per_second rate burst full now).
Proof.
  intros. apply new_ok; apply of_Z_fin; unfold u32_max in *; 
    (split; [lia|]); (etrans; [|apply (Z.pow_le_mono_r 2 32)]; lia).
Qed.

Lemma per_minute_ok rate burst full now :
  0 ≤ rate ≤ u32_max → 0 ≤ burst ≤ u32_max → ok (per_minute rate burst full now).
Proof.
  unfold u32_max. intros. apply new_ok.
  - apply (bnd_fin (33 + 2)), div_by_const; [apply (of_Z_bnd _ 32); lia|lia|by left].
  - apply of_Z_fin. split; [lia|]. etrans; [|apply (Z.pow_le_mono_r 2 32)]; lia.
Qed.

(** [Instant] differences fit a [Duration]. *)
Definition clock_ok (b : RateBucket f64) (now : Instant) : Prop := now - last_refill b < 2 ^ 100.

Lemma refill_ok b now : ok b → clock_ok b now → ok (refill b now).
Proof.
  intros (Hr & Hc & Ht & Hle) Hclk. unfold refill, clock_ok in *.
  assert (fin (as_secs (F:=f64) (age now (last_refill b)))) as He.
  { apply as_secs_fin. rewrite age_max. lia. }
  destruct (n_ltb _ _); [|done]. 
  assert (nn (n_add (tokens b) (n_mul (as_secs (age now (last_refill b))) (rate_per_sec b)))) as Ha.
  { apply add_nn; [by apply fin_nn|]. by apply mul_nn. }
  destruct (min_fin _ _ Ha Hc) as [Hm1 Hm2]. done.
Qed.

Lemma refill_capacity {F} `{Num F} (b : RateBucket F) now :
  capacity (refill b now) = capacity b ∧ rate_per_sec (refill b now) = rate_per_sec b.
Proof. unfold refill. by destruct (n_ltb _ _). Qed.

Lemma of_count_fin n : 0 ≤ n ≤ usize_max → fin (f64_of_Z n).
Proof.
  unfold usize_max, u64_max. intros. apply of_Z_fin. split; [lia|].
  etrans; [|apply (Z.pow_le_mono_r 2 64)]; lia.
Qed.

Lemma try_take_exact_ok b count now :
  ok b → clock_ok b now → 0 ≤ count ≤ usize_max → ok (try_take_exact b count now).2.
Proof.
  intros Hok Hclk Hcnt. unfold try_take_exact. destruct (count =? 0); [done|].
  destruct (_ || _); [done|]. pose proof (refill_ok b now Hok Hclk) as Hok'.
  set (b' := refill b now) in *. clearbody b'. destruct (n_ltb (tokens b') _) eqn:Hlt; [done|].
  destruct Hok' as (Hr & Hc & Ht & Hle). pose proof (of_count_fin count Hcnt) as Hn.
  destruct (sub_fin (tokens b') (f64_of_Z count)) as [Hs1 Hs2]; [done..| |].
  { revert Hlt. simpl. rewrite f64_ltb_leb by (by apply fin_nn).
    rewrite negb_false_iff. by intros ->. }
  split_and!; simpl; try done.
  apply (f64_leb_trans _ (tokens b')); try done; by apply fin_nn.
Qed.

Lemma floor_nonneg x : 0 ≤ f64_floor_usize x.
Proof.
  destruct x as [| | |s m e]; simpl; try (unfold usize_max, u64_max; lia); destruct s;
    try (unfold usize_max, u64_max; lia).
  apply Z.min_glb; [unfold usize_max, u64_max; lia|]. destruct (0 <=? e) eqn:He.
  - apply Z.leb_le in He. assert (0 ≤ 2 ^ e) by (apply Z.pow_nonneg; lia). lia.
  - apply Z.leb_gt in He. apply Z.div_pos; [lia|]. apply Z.pow_pos_nonneg; lia.
Qed.

Lemma try_take_ok b mx now :
  ok b → clock_ok b now → 0 ≤ mx ≤ usize_max → ok (try_take b mx now).2.
Proof.
  intros Hok Hclk Hmx. unfold try_take. destruct (_ || _); [done|].
  pose proof (refill_ok b now Hok Hclk) as (Hr & Hc & Ht & Hle).
  set (b' := refill b now) in *. clearbody b'. simpl.
  set (t := Z.min _ mx).
  pose proof (floor_nonneg (tokens b')) as Hfl.
  destruct (of_Z_floor_le (tokens b') t) as [Hn Hnle]; [done|unfold t; lia|].
  destruct (sub_fin (tokens b') (f64_of_Z t)) as [Hs1 Hs2]; [done..|].
  split_and!; simpl; try done.
  apply (f64_leb_trans _ (tokens b')); try done; by apply fin_nn.
Qed.

Lemma refund_ok b count : ok b → 0 ≤ count ≤ usize_max → ok (refund b count).
Proof.
  intros (Hr & Hc & Ht & Hle) Hcnt. unfold refund. 
  destruct (min_fin (f64_add (tokens b) (f64_of_Z count)) (capacity b)) as [Hm1 Hm2]; [|done|].
  - apply add_nn; apply fin_nn; [done|by apply of_count_fin].
  - done.
Qed.

Lemma set_rate_ok b rate now :
  ok b → clock_ok b now → 0 ≤ rate ≤ u32_max → ok (set_per_second_rate b rate now).
Proof.
  intros Hok Hclk Hrate. unfold set_per_second_rate.
  pose proof (refill_ok b now Hok Hclk) as (Hr & Hc & Ht & Hle).
  set (b' := refill b now) in *. clearbody b'. 
  assert (fin (f64_of_Z rate)) as Hf by (apply of_count_fin; unfold usize_max, u64_max, u32_max in *; lia).
  simpl. destruct (f64_leb (f64_of_Z rate) f64_zero).
  - split_and!; simpl; try done. by apply zero_leb, fin_nn.
  - destruct (min_fin (tokens b') (capacity b')) as [Hm1 Hm2]; [by apply fin_nn|done|].
    done.
Qed.

(** ** Histories of one bucket *)

Inductive op :=
  | TakeExact (count : Z) (now : Instant)
  | Take (max : Z) (now : Instant)
  | Refund (count : Z)
  | SetRate (rate : Z) (now : Instant).

Definition exec {F} `{Num F} (b : RateBucket F) (o : op) : RateBucket F :=
  match o with
  | TakeExact c now => (try_take_exact b c now).2
  | Take m now => (try_take b m now).2
  | Refund c => refund b c
  | SetRate r now => set_per_second_rate b r now
  end.

(** Arguments within their machine types, and a clock below 2^99 ns. *)
Definition op_in_range (o : op) : Prop :=
  match o with
  | TakeExact c now | Take c now => 0 ≤ c ≤ usize_max ∧ 0 ≤ now < 2 ^ 99
  | Refund c => 0 ≤ c ≤ usize_max
  | SetRate r now => 0 ≤ r ≤ u32_max ∧ 0 ≤ now < 2 ^ 99
  end.

Lemma refill_last {F} `{Num F} (b : RateBucket F) now :
  last_refill (refill b now) = last_refill b ∨ last_refill (refill b now) = now.
Proof. unfold refill. destruct (n_ltb _ _); auto. Qed.

Lemma exec_last {F} `{Num F} (b : RateBucket F) o (P : Z → Prop) :
  P (last_refill b) → (∀ now, (∃ c, o = TakeExact c now ∨ o = Take c now ∨ o = SetRate c now) → P now) →
  P (last_refill (exec b o)).
Proof.
  intros Hb Hnow.
  assert (∀ now, (∃ c, o = TakeExact c now ∨ o = Take c now ∨ o = SetRate c now) →
    P (last_refill (refill b now))) as Hr.
  { intros now Ho. destruct (refill_last b now) as [-> | ->]; auto. }
  destruct o; simpl; [| |done|eapply Hr; eauto].
  - unfold try_take_exact. destruct (count =? 0); [done|]. destruct (_ || _); [done|].
    destruct (n_ltb _ _); simpl; eapply Hr; eauto.
  - unfold try_take. destruct (_ || _); [done|]. simpl. eapply Hr; eauto.
Qed.

Lemma exec_ok b o : ok b → 0 ≤ last_refill b < 2 ^ 99 → op_in_range o → ok (exec b o).
Proof.
  intros Hok Hl Ho. assert (∀ now, 0 ≤ now < 2 ^ 99 → clock_ok b now) as Hc.
  { intros now Hn. unfold clock_ok. assert (2 ^ 100 = 2 * 2 ^ 99) by done. lia. }
  destruct o; simpl in *; destruct_and?;
    [apply try_take_exact_ok|apply try_take_ok|apply refund_ok|apply set_rate_ok]; auto.
Qed.

(** Starting from either constructor, no sequence of takes, refunds and
    rate changes ever drives a bucket's balance below zero, above its
    capacity, or to a NaN or an infinity, whatever the rounding of the
    binary64 arithmetic. *)
Theorem bucket_within_capacity (b : RateBucket f64) (ops : list op) :
  0 ≤ last_refill b < 2 ^ 99 →
  (∃ rate burst full, 0 ≤ rate ≤ u32_max ∧ 0 ≤ burst ≤ u32_max ∧
    (b = per_second rate burst full (last_refill b) ∨ b = per_minute rate burst full (last_refill b))) →
  Forall op_in_range ops →
  let b' := foldl exec b ops in
  fin (tokens b') ∧ f64_leb f64_zero (tokens b') ∧ f64_leb (tokens b') (capacity b').
Proof.
  intros Hl (rate & burst & full & Hr & Hb & Hnew) Hops.
  assert (ok b) as Hok by (destruct Hnew as [-> | ->]; [by apply per_second_ok|by apply per_minute_ok]).
  clear Hnew Hr Hb. cbv zeta.
  enough (ok (foldl exec b ops)) as (_ & _ & Ht & Hle).
  { split_and!; [done| |done]. by apply zero_leb, fin_nn. }
  revert b Hl Hok. induction Hops as [|o ops Ho Hops IH]; intros b Hl Hok; [done|].
  simpl. apply IH; [|by apply exec_ok].
  apply (exec_last b o (λ z, 0 ≤ z < 2 ^ 99)); [done|].
  intros now (c & [-> | [-> | ->]]); simpl in Ho; tauto.
Qed.

Lemma bucket_within_capacity_witness :
  let b := per_second 100 20 false 0 in
  fin (tokens (foldl exec b [Take 100 100000000; Refund 5; TakeExact 3 200000000]))
  ∧ f64_leb f64_zero (tokens (foldl exec b [Take 100 100000000; Refund 5; TakeExact 3 200000000]))
  ∧ f64_leb (tokens (foldl exec b [Take 100 100000000; Refund 5; TakeExact 3 200000000]))
      (capacity (foldl exec b [Take 100 100000000; Refund 5; TakeExact 3 200000000])).
Proof.
  apply (bucket_within_capacity (per_second 100 20 false 0)
           [Take 100 100000000; Refund 5; TakeExact 3 200000000]).
  - done.
  - exists 100, 20, false. split_and!; try done. by left.
  - repeat constructor; done.
Defined.

(** ** The rate bound, with its rounding *)

Local Open Scope Q_scope.

Definition secs (d : Duration) : Q := inject_Z d / inject_Z 1000000000.

Lemma secs_nonneg d : (0 ≤ d)%Z → 0 <= secs d.
Proof.
  intros. unfold secs. apply Qle_shift_div_l; [done|]. rewrite Qmult_0_l.
  change 0 with (inject_Z 0). by rewrite <-Zle_Qle.
Qed.

Lemma secs_add d d' : secs (d + d') == secs d + secs d'.
Proof. unfold secs. rewrite inject_Z_plus. field. Qed.

Lemma ulp1_small : ulp1 == 1 # 4503599627370496.
Proof. reflexivity. Qed.
Lemma tiny_small : tiny <= 1 # 1267650600228229401496703205376.
Proof. by vm_compute. Qed.

(** The elapsed time, and what it accrues. *)
Lemma as_secs_value d : (0 ≤ d)%Z → value (as_secs (F:=f64) d) <= secs d * (1 + ulp1) * (1 + ulp1) + 4 * tiny.
Proof.
  intros Hd. unfold as_secs. cbn [n_add n_div n_of_Z f64_num].
  assert (0 ≤ d `div` 1000000000)%Z as Hs by (apply Z.div_pos; lia).
  pose proof (Z.mod_pos_bound d 1000000000 ltac:(lia)) as Hn.
  pose proof (of_Z_value _ Hs) as Vs. pose proof (of_Z_exact (d `mod` 1000000000) ltac:(lia)) as Vn.
  assert (fin (f64_of_Z (d `mod` 1000000000))) as Fn by (apply of_Z_fin; lia).
  assert (f64_of_Z 1000000000 = S754_finite false 8388608000000000 (-23)) as -> by done.
  pose proof (div_value _ 8388608000000000 (-23) Fn) as Vd. rewrite Vn in Vd.
  assert (value (S754_finite false 8388608000000000 (-23)) == inject_Z 1000000000) as Vc by reflexivity.
  rewrite Vc in Vd. eapply Qle_trans; [apply add_value|].
  { by apply of_Z_nn. }
  { by apply fin_nn, (bnd_fin 33), (div_by_const _ 1000000000 31); [apply (of_Z_bnd _ 30)|..]; auto; lia. }
  assert (secs d == inject_Z (d `div` 1000000000) + inject_Z (d `mod` 1000000000) / inject_Z 1000000000) as Hsec.
  { unfold secs. rewrite (Z.div_mod d 1000000000) at 1 by done. rewrite inject_Z_plus, inject_Z_mult. field. }
  rewrite Hsec. unfold rup in *. pose proof tiny_pos as Ht. pose proof ulp1_small as Hu. pose proof ulp1_pos as Hu0.
  set (x := inject_Z (d `div` 1000000000)) in *. set (y := inject_Z (d `mod` 1000000000) / _) in *.
  set (v := value (f64_of_Z (d `div` 1000000000))) in *. set (w := value (f64_div _ _)) in *.
  assert (v + w <= (x + y) * (1 + ulp1) + 2 * tiny) as Hvw by lra.
  assert ((v + w) * (1 + ulp1) <= ((x + y) * (1 + ulp1) + 2 * tiny) * (1 + ulp1)) as Hm
    by (apply Qmult_le_compat_r; lra).
  assert (2 * tiny * ulp1 <= tiny) as Htu by (rewrite Hu; lra). lra.
Qed.

(** A bucket as the code has them: rate and burst are [u32]s. *)
Definition sized (b : RateBucket f64) : Prop :=
  ok b ∧ value (rate_per_sec b) <= pow2 32 ∧ value (capacity b) <= pow2 32.

(** What rounding may add to an accrued amount, and to the balance per
    operation. *)
Definition excess : Q := pow2 (-50).
Definition slack : Q := pow2 (-18).

Lemma accrued_value b d :
  sized b → (0 ≤ d < 2 ^ 100)%Z →
  value (f64_mul (as_secs d) (rate_per_sec b)) <= value (rate_per_sec b) * secs d * (1 + excess) + (1 # 1099511627776).
Proof.
  intros ((Hr & _) & Hr32 & _) Hd. pose proof (as_secs_fin d Hd) as Fe. pose proof (as_secs_value d ltac:(lia)) as Ve.
  pose proof (value_nonneg (as_secs (F:=f64) d)) as E0. pose proof (value_nonneg (rate_per_sec b)) as R0.
  pose proof (secs_nonneg d ltac:(lia)) as S0. eapply Qle_trans; [by apply mul_value|].
  unfold rup. set (el := value (as_secs d)) in *. set (r := value (rate_per_sec b)) in *. set (t := secs d) in *.
  pose proof ulp1_small as Hu. pose proof tiny_pos as Ht. pose proof tiny_small as Ht'.
  assert (excess == 4 * ulp1) as Hx by reflexivity. rewrite Hx, Hu in *. change (pow2 32) with (4294967296 # 1) in *.
  assert (el * r <= (t * (1 + (1 # 4503599627370496)) * (1 + (1 # 4503599627370496)) + 4 * tiny) * r) as Hm
    by (apply Qmult_le_compat_r; lra).
  assert (tiny * r <= (1 # 1267650600228229401496703205376) * (4294967296 # 1)) as Htr.
  { apply (Qle_trans _ (tiny * (4294967296 # 1))); [|lra]. apply Qmult_le_l; lra. }
  assert (0 <= t * r) as Htr0 by (by apply Qmult_le_0_compat). lra.
Qed.

Lemma refill_value b now :
  sized b → clock_ok b now →
  sized (refill b now) ∧ rate_per_sec (refill b now) = rate_per_sec b
  ∧ (last_refill b ≤ last_refill (refill b now) ≤ Z.max (last_refill b) now)%Z
  ∧ value (tokens (refill b now))
    <= value (tokens b) + value (rate_per_sec b) * secs (last_refill (refill b now) - last_refill b) * (1 + excess)
       + value (capacity b) * ulp1 + (1 # 549755813888).
Proof.
  intros Hsz Hclk. pose proof Hsz as (Hok & Hr32 & Hc32). pose proof (refill_ok b now Hok Hclk) as Hok'.
  destruct (refill_capacity b now) as [Hcap Hrate].
  assert (sized (refill b now)) as Hsz' by (split; [done|by rewrite Hcap, Hrate]).
  split; [done|]. split; [done|]. clear Hok' Hcap Hrate Hsz'. destruct Hok as (Fr & Fc & Ft & _).
  pose proof (value_nonneg (capacity b)) as C0. pose proof ulp1_pos as Hu0.
  assert (0 <= value (capacity b) * ulp1) as Hcu by (apply Qmult_le_0_compat; lra).
  unfold refill. rewrite age_max. cbn [n_ltb n_zero n_min n_add n_mul f64_num].
  destruct (Z.le_gt_cases now (last_refill b)) as [Hle|Hgt].
  { replace (Z.max 0 (now - last_refill b)) with 0%Z by lia. change (f64_ltb f64_zero (as_secs 0)) with false. cbn iota.
    rewrite Z.sub_diag. change (secs 0) with (0 # 1000000000). split; [lia|]. lra. }
  replace (Z.max 0 (now - last_refill b)) with (now - last_refill b)%Z by lia. unfold clock_ok in Hclk.
  pose proof (accrued_value b (now - last_refill b) Hsz ltac:(lia)) as Va.
  assert (fin (as_secs (F:=f64) (now - last_refill b))) as Fe by (apply as_secs_fin; lia).
  pose proof (mul_nn _ _ Fe Fr) as Na. set (amt := f64_mul _ _) in *.
  destruct (f64_ltb _ _); cbn [tokens last_refill].
  2:{ rewrite Z.sub_diag. change (secs 0) with (0 # 1000000000). split; [lia|]. lra. }
  split; [lia|]. pose proof (add_nn _ _ (fin_nn _ Ft) Na) as Ns.
  destruct (min_value _ _ Ns (fin_nn _ Fc)) as [V1 V2]. pose proof (add_value _ _ (fin_nn _ Ft) Na) as V3.
  pose proof (value_nonneg (tokens b)) as T0. pose proof (value_nonneg amt) as A0.
  set (m := value (f64_min _ _)) in *. unfold rup in V3. pose proof tiny_small.
  destruct (Qlt_le_dec (value (capacity b)) (value (tokens b) + value amt)) as [Hbig|Hsmall]; [lra|].
  assert ((value (tokens b) + value amt) * ulp1 <= value (capacity b) * ulp1) as Hmu by (apply Qmult_le_compat_r; lra).
  lra.
Qed.

(** What one operation hands out, less what it gets back. *)
Definition taken (b : RateBucket f64) (o : op) : Z :=
  match o with
  | TakeExact c now => if (try_take_exact b c now).1 then c else 0
  | Take m now => (try_take b m now).1
  | Refund c => - c
  | SetRate _ _ => 0
  end.

Fixpoint net (b : RateBucket f64) (ops : list op) : Z :=
  match ops with [] => 0 | o :: ops => taken b o + net (exec b o) ops end.

(** No later than [t1], no rate above [rate], and counts that binary64 holds
    exactly. *)
Definition within (rate : Z) (t1 : Instant) (o : op) : Prop :=
  op_in_range o ∧
  match o with
  | TakeExact c now | Take c now => (c < 2 ^ 53 ∧ now ≤ t1)%Z
  | Refund c => (c < 2 ^ 53)%Z
  | SetRate r now => (r ≤ rate ∧ now ≤ t1)%Z
  end.

(** Taking [k] of the balance. *)
Lemma sub_tokens b k :
  sized b → (0 ≤ k < 2 ^ 53)%Z → fin (f64_of_Z k) → f64_leb (f64_of_Z k) (tokens b) →
  inject_Z k + value (f64_sub (tokens b) (f64_of_Z k)) <= value (tokens b) + value (capacity b) * ulp1 + tiny.
Proof.
  intros ((Fr & Fc & Ft & Hle) & _ & Hc) Hk Fk Hkt. pose proof (sub_value _ _ Ft Fk Hkt) as V.
  rewrite (of_Z_exact k Hk) in V. unfold rup in V. pose proof (leb_value _ _ (fin_nn _ Ft) (fin_nn _ Fc) Hle) as Vc.
  assert (0 <= inject_Z k) as K0 by (apply (inject_le 0); lia). pose proof ulp1_pos as Hu.
  assert ((value (tokens b) - inject_Z k) * ulp1 <= value (capacity b) * ulp1) by (apply Qmult_le_compat_r; lra). lra.
Qed.

(** One operation: what it hands out and what it leaves is at most what there
    was, what accrued, and the slack of its rounding. *)
Definition conserves (rate : Z) (t1 : Instant) (b : RateBucket f64) (k : Z) (b' : RateBucket f64) (err : Q) : Prop :=
  sized b' ∧ value (rate_per_sec b') <= inject_Z rate ∧ (last_refill b ≤ last_refill b' ≤ t1)%Z
  ∧ inject_Z k + value (tokens b')
    <= value (tokens b) + inject_Z rate * secs (last_refill b' - last_refill b) * (1 + excess) + err.

Lemma conserves_same rate t1 b err :
  sized b → value (rate_per_sec b) <= inject_Z rate → (last_refill b ≤ t1)%Z → 0 <= err → conserves rate t1 b 0 b err.
Proof.
  intros Hsz Hr Hl He. split; [done|]. split; [done|]. split; [lia|]. rewrite Z.sub_diag. change (secs 0) with (0 # 1000000000).
  change (inject_Z 0) with 0. lra.
Qed.

Lemma refill_conserves rate t1 b now :
  sized b → clock_ok b now → value (rate_per_sec b) <= inject_Z rate → (now ≤ t1)%Z → (last_refill b ≤ t1)%Z →
  conserves rate t1 b 0 (refill b now) (1 # 1048000).
Proof.
  intros Hsz Hclk Hr Hn Hl. destruct (refill_value b now Hsz Hclk) as (Hsz' & Hr' & Hl' & Hv).
  split; [done|]. split; [by rewrite Hr'|]. split; [lia|]. change (inject_Z 0) with 0.
  set (d := (last_refill (refill b now) - last_refill b)%Z) in *. pose proof (secs_nonneg d ltac:(lia)) as S0.
  destruct Hsz as (_ & _ & Hc). assert (value (capacity b) * ulp1 <= (4294967296 # 1) * ulp1) as Hcu
    by (apply Qmult_le_compat_r; [exact Hc|apply Qlt_le_weak, ulp1_pos]).
  rewrite ulp1_small in Hv, Hcu.
  assert (value (rate_per_sec b) * secs d * (1 + excess) <= inject_Z rate * secs d * (1 + excess)) as Hm.
  { apply Qmult_le_compat_r; [by apply Qmult_le_compat_r|]. by vm_compute. }
  lra.
Qed.

Lemma take_conserves rate t1 b b1 k :
  conserves rate t1 b 0 b1 (1 # 1048000) → (0 ≤ k < 2 ^ 53)%Z → fin (f64_of_Z k) → f64_leb (f64_of_Z k) (tokens b1) →
  ok (with_tokens b1 (f64_sub (tokens b1) (f64_of_Z k))) →
  conserves rate t1 b k (with_tokens b1 (f64_sub (tokens b1) (f64_of_Z k))) slack.
Proof.
  intros (Hsz & Hr & Hl & Hv) Hk Fk Hle Hok. pose proof (sub_tokens b1 k Hsz Hk Fk Hle) as Hs.
  destruct Hsz as (_ & Hr32 & Hc). split; [done|]. split; [done|]. split; [done|]. cbn [with_tokens tokens last_refill].
  assert (value (capacity b1) * ulp1 <= (4294967296 # 1) * ulp1) as Hcu
    by (apply Qmult_le_compat_r; [exact Hc|apply Qlt_le_weak, ulp1_pos]).
  rewrite ulp1_small in Hs, Hcu. pose proof tiny_small. change slack with (1 # 262144). change (inject_Z 0) with 0 in Hv. lra.
Qed.

Lemma refund_conserves rate t1 b c :
  sized b → (0 ≤ c < 2 ^ 53)%Z → value (rate_per_sec b) <= inject_Z rate → (last_refill b ≤ t1)%Z →
  ok (refund b c) → conserves rate t1 b (- c) (refund b c) slack.
Proof.
  intros Hsz Hc Hr Ht1 Hok. pose proof Hsz as ((Fr & Fc & Ft & _) & Hr32 & Hc32).
  split; [split; [done|split; done]|]. split; [done|]. split; [cbn; lia|]. cbn [refund with_tokens tokens last_refill].
  cbn [n_min n_add n_of_Z f64_num]. rewrite Z.sub_diag. change (secs 0) with (0 # 1000000000).
  assert (nn (f64_of_Z c)) as Nc by (apply of_Z_nn; lia). pose proof (add_nn _ _ (fin_nn _ Ft) Nc) as Ns.
  destruct (min_value _ _ Ns (fin_nn _ Fc)) as [V1 V2]. pose proof (add_value _ _ (fin_nn _ Ft) Nc) as V3.
  rewrite (of_Z_exact c Hc) in V3. unfold rup in V3. set (m := value (f64_min _ _)) in *.
  rewrite inject_Z_opp. pose proof tiny_small. change slack with (1 # 262144). change (pow2 32) with (4294967296 # 1) in *.
  rewrite ulp1_small in V3. destruct (Qlt_le_dec (value (capacity b)) (value (tokens b) + inject_Z c)); lra.
Qed.

Lemma set_rate_conserves rate t1 b r now :
  (0 ≤ r ≤ u32_max)%Z → (r ≤ rate)%Z → conserves rate t1 b 0 (refill b now) (1 # 1048000) →
  ok (set_per_second_rate b r now) → conserves rate t1 b 0 (set_per_second_rate b r now) (1 # 1048000).
Proof.
  intros Hr Hrr ((Hok1 & _ & Hc32) & _ & Hl & Hv) Hok. unfold u32_max in *.
  assert (value (f64_of_Z r) == inject_Z r) as Vr by (apply of_Z_exact; lia).
  split; [split; [done|split; [|done]]|split; [|split; [done|]]].
  - cbn. rewrite Vr. change (pow2 32) with (inject_Z 4294967296). apply inject_le. lia.
  - cbn. rewrite Vr. by apply inject_le.
  - unfold set_per_second_rate. cbn [tokens last_refill n_leb n_zero n_min n_of_Z f64_num].
    destruct Hok1 as (_ & Fc & Ft & _). destruct (min_value _ _ (fin_nn _ Ft) (fin_nn _ Fc)) as [V1 _].
    pose proof (value_nonneg (tokens (refill b now))). destruct (f64_leb _ _); [change (value f64_zero) with 0|]; lra.
Qed.

Lemma exec_conserves rate t1 b o :
  sized b → (0 ≤ last_refill b < 2 ^ 99)%Z → (0 ≤ rate ≤ u32_max)%Z → value (rate_per_sec b) <= inject_Z rate →
  (last_refill b ≤ t1)%Z → within rate t1 o → conserves rate t1 b (taken b o) (exec b o) slack.
Proof.
  intros Hsz Hl Hrate Hr Ht1 [Hin Hw]. pose proof Hsz as (Hok & _). pose proof (exec_ok b o Hok Hl Hin) as Hok'.
  assert (∀ now, (0 ≤ now < 2 ^ 99)%Z → clock_ok b now) as Hclk.
  { intros now Hn. unfold clock_ok. assert (2 ^ 100 = 2 * 2 ^ 99)%Z by done. lia. }
  assert (0 <= slack) as Hs0 by by vm_compute.
  assert (∀ b', conserves rate t1 b 0 b' (1 # 1048000) → conserves rate t1 b 0 b' slack) as Hweak.
  { intros b' (? & ? & ? & Hv). split; [done|]. split; [done|]. split; [done|]. change slack with (1 # 262144). lra. }
  destruct o as [c now|mx now|c|r now]; cbn [op_in_range] in Hin; cbn [taken exec] in *.
  - destruct Hin as [Hc Hnow], Hw as [Hc53 Hn]. revert Hok'. unfold try_take_exact.
    destruct (Z.eqb_spec c 0) as [->|Hne]; [intros _; by apply conserves_same|].
    destruct (_ || _); [intros _; by apply conserves_same|].
    pose proof (refill_conserves rate t1 b now Hsz (Hclk now Hnow) Hr Hn Ht1) as Hcs. pose proof Hcs as ((Hok1 & _) & _).
    cbn [n_ltb n_of_Z n_sub f64_num]. destruct (f64_ltb (tokens (refill b now)) (f64_of_Z c)) eqn:E; cbn [fst snd].
    { intros _. by apply Hweak. }
    assert (fin (f64_of_Z c)) as Fc by by apply of_count_fin. intros Hok'. apply take_conserves; try done; [lia|].
    revert E. rewrite f64_ltb_leb by (apply fin_nn; apply Hok1 || done). rewrite negb_false_iff. by intros ->.
  - destruct Hin as [Hm Hnow], Hw as [Hm53 Hn]. revert Hok'. unfold try_take.
    destruct (_ || _); [intros _; by apply conserves_same|].
    pose proof (refill_conserves rate t1 b now Hsz (Hclk now Hnow) Hr Hn Ht1) as Hcs. pose proof Hcs as ((Hok1 & _) & _).
    cbn [n_floor_usize n_of_Z n_sub f64_num fst snd]. set (k := Z.min _ mx). intros Hok'.
    assert (0 ≤ f64_floor_usize (tokens (refill b now)))%Z as Hfl by apply floor_nonneg.
    destruct (of_Z_floor_le (tokens (refill b now)) k) as [Fk Hk]; [apply Hok1|unfold k; lia|].
    apply take_conserves; try done. unfold k. lia.
  - apply refund_conserves; try done. lia.
  - destruct Hin as [Hr32 Hnow], Hw as [Hrr Hn]. apply Hweak, set_rate_conserves; try done.
    by apply refill_conserves; [|apply Hclk|..].
Qed.

(** The buckets of the code: built by one of the constructors and operated on. *)
Definition reached (b : RateBucket f64) : Prop :=
  ∃ rate burst full t ops, (0 ≤ rate ≤ u32_max ∧ 0 ≤ burst ≤ u32_max ∧ 0 ≤ t < 2 ^ 99)%Z ∧ Forall op_in_range ops
    ∧ (b = foldl exec (per_second rate burst full t) ops ∨ b = foldl exec (per_minute rate burst full t) ops).

Lemma new_sized rate cap full now :
  fin rate → fin cap → value rate <= pow2 32 → value cap <= pow2 32 → sized (new rate cap full now).
Proof.
  intros Fr Fc Hr Hc. split; [by apply new_ok|]. split; [done|]. unfold new. cbn [capacity n_leb n_zero n_max n_of_Z f64_num].
  destruct (f64_leb rate f64_zero); [by vm_compute|]. unfold f64_max. rewrite !nn_not_nan by (by apply fin_nn || done).
  by destruct (f64_leb _ cap).
Qed.

Lemma of_u32_value r : (0 ≤ r ≤ u32_max)%Z → value (f64_of_Z r) <= pow2 32.
Proof.
  unfold u32_max. intros Hr. rewrite of_Z_exact by lia. change (pow2 32) with (inject_Z 4294967296). apply inject_le. lia.
Qed.

Lemma per_second_sized rate burst full now :
  (0 ≤ rate ≤ u32_max)%Z → (0 ≤ burst ≤ u32_max)%Z → sized (per_second rate burst full now).
Proof.
  intros. apply new_sized; try (by apply of_u32_value); apply of_count_fin; unfold usize_max, u64_max, u32_max in *; lia.
Qed.

Lemma per_minute_sized rate burst full now :
  (0 ≤ rate ≤ u32_max)%Z → (0 ≤ burst ≤ u32_max)%Z → sized (per_minute rate burst full now).
Proof.
  intros Hr Hb. assert (∀ n, 0 ≤ n ≤ u32_max → fin (f64_of_Z n))%Z as Hf.
  { intros n Hn. apply of_count_fin; unfold usize_max, u64_max, u32_max in *; lia. }
  apply new_sized; [| |cbn [n_div n_of_Z f64_num]|by apply of_u32_value]; [|by apply Hf|].
  - destruct (per_minute_ok rate burst full now Hr Hb) as (Hfin & _). exact Hfin.
  - assert (f64_of_Z 60 = S754_finite false 8444249301319680 (-47)) as -> by done.
    eapply Qle_trans; [by apply div_value, Hf|]. assert (value (S754_finite false 8444249301319680 (-47)) == 60) as -> by reflexivity.
    pose proof (of_u32_value rate Hr) as Hv. pose proof (value_nonneg (f64_of_Z rate)). unfold rup. pose proof tiny_small.
    rewrite ulp1_small. change (pow2 32) with (4294967296 # 1) in *. unfold Qdiv. change (/ 60) with (1 # 60). lra.
Qed.

Lemma exec_sized b o :
  sized b → (0 ≤ last_refill b < 2 ^ 99)%Z → op_in_range o → sized (exec b o) ∧ (0 ≤ last_refill (exec b o) < 2 ^ 99)%Z.
Proof.
  intros (Hok & Hr & Hc) Hl Ho. split.
  - split; [by apply exec_ok|].
    destruct o as [c now|mx now|c|r now]; cbn [exec op_in_range] in *; [| |done|].
    + unfold try_take_exact. destruct (c =? 0)%Z; [done|]. destruct (_ || _); [done|].
      destruct (refill_capacity b now) as [Hcap Hrate]. destruct (n_ltb _ _); cbn; by rewrite Hcap, Hrate.
    + unfold try_take. destruct (_ || _); [done|]. destruct (refill_capacity b now) as [Hcap Hrate]. cbn. by rewrite Hcap, Hrate.
    + unfold set_per_second_rate. destruct (refill_capacity b now) as [Hcap Hrate]. cbn. rewrite Hcap.
      split; [|done]. by apply of_u32_value, Ho.
  - apply (exec_last b o (λ z, 0 ≤ z < 2 ^ 99)%Z); [done|].
    intros now (c & [-> | [-> | ->]]); simpl in Ho; tauto.
Qed.

Lemma reached_sized b : reached b → sized b ∧ (0 ≤ last_refill b < 2 ^ 99)%Z.
Proof.
  intros (rate & burst & full & t & ops & (Hr & Hb & Ht) & Hops & Hb').
  assert (∀ b0, sized b0 → (0 ≤ last_refill b0 < 2 ^ 99)%Z →
    sized (foldl exec b0 ops) ∧ (0 ≤ last_refill (foldl exec b0 ops) < 2 ^ 99)%Z) as Hrun.
  { clear Hb'. induction Hops as [|o ops Ho _ IH]; intros b0 Hs Hl; [done|].
    destruct (exec_sized b0 o Hs Hl Ho). by apply IH. }
  destruct Hb' as [-> | ->]; apply Hrun; try done; [by apply per_second_sized|by apply per_minute_sized].
Qed.

(** C36: the token-bucket contract, on the code's binary64 arithmetic and with
    its rounding.  Whatever a bucket went through before, and whatever is then
    asked of it up to instant [t1] while its rate is at most [rate] per second
    (takes, exact takes, refunds and rate changes in any order), it hands out,
    net of what it gets back, at most its balance (which its capacity bounds)
    plus what [rate] accrues in the time since its last refill, with a relative
    error of at most [2^-50] on what accrues and [2^-18] per operation.  An
    exact bound does not hold: rounding up can grant a token early. *)
Theorem granted_rate_bound (b : RateBucket f64) (ops : list op) (rate : Z) (t1 : Instant) :
  reached b → (0 ≤ rate ≤ u32_max)%Z → value (rate_per_sec b) <= inject_Z rate → (last_refill b ≤ t1)%Z →
  Forall (within rate t1) ops →
  value (tokens b) <= value (capacity b)
  ∧ inject_Z (net b ops)
    <= value (tokens b) + inject_Z rate * secs (t1 - last_refill b) * (1 + excess)
       + inject_Z (Z.of_nat (length ops)) * slack.
Proof.
  intros [Hsz Hl]%reached_sized Hrate Hr Ht1 Hops. split.
  { destruct Hsz as ((_ & Fc & Ft & Hle) & _). by apply leb_value; [apply fin_nn..|]. }
  revert b Hsz Hl Hr Ht1. induction Hops as [|o ops Ho _ IH]; intros b Hsz Hl Hr Ht1.
  { cbn [net length]. change (inject_Z 0) with 0. pose proof (value_nonneg (tokens b)).
    assert (0 <= inject_Z rate * secs (t1 - last_refill b) * (1 + excess)); [|change (inject_Z (Z.of_nat 0)) with 0; lra].
    apply Qmult_le_0_compat; [|by vm_compute]. apply Qmult_le_0_compat; [apply (inject_le 0); lia|apply secs_nonneg; lia]. }
  destruct (exec_conserves rate t1 b o Hsz Hl Hrate Hr Ht1 Ho) as (Hsz' & Hr' & Hl' & Hv).
  destruct (exec_sized b o Hsz Hl (proj1 Ho)) as [_ Hl2].
  specialize (IH (exec b o) Hsz' Hl2 Hr' ltac:(lia)). cbn [net length]. rewrite inject_Z_plus, Nat2Z.inj_succ.
  replace (Z.succ (Z.of_nat (length ops))) with (1 + Z.of_nat (length ops))%Z by lia. rewrite inject_Z_plus.
  change (inject_Z 1) with 1.
  replace (t1 - last_refill b)%Z with (last_refill (exec b o) - last_refill b + (t1 - last_refill (exec b o)))%Z by lia.
  rewrite secs_add. lra.
Qed.

(** A bucket that has already served a request; refunds and a lower rate in
    between. *)
Definition ex_bucket : RateBucket f64 := exec (per_second 100 20 true 0) (Take 5 0).
Definition ex_window : list op := [Take 30 0; Refund 2; SetRate 50 50000000; TakeExact 3 100000000; Take 30 100000000].

Lemma granted_rate_bound_witness :
  net ex_bucket ex_window = 22%Z
  ∧ value (tokens ex_bucket) <= value (capacity ex_bucket)
  ∧ inject_Z (net ex_bucket ex_window)
    <= value (tokens ex_bucket) + inject_Z 100 * secs (100000000 - last_refill ex_bucket) * (1 + excess)
       + inject_Z (Z.of_nat (length ex_window)) * slack.
Proof.
  split; [by vm_compute|]. apply (granted_rate_bound ex_bucket ex_window 100 100000000).
  - exists 100%Z, 20%Z, true, 0%Z, [Take 5 0]. split; [done|]. split; [by repeat constructor|]. by left.
  - done.
  - by vm_compute.
  - done.
  - unfold ex_window. repeat constructor; done.
Defined.

(** The exact bound fails by rounding: from an empty bucket of 4000000001
    tokens per second, 999999999 ns accrue less than 3999999997 tokens, and
    this many are granted. *)
Example rounding_grants_early :
  let b := per_second (F:=f64) 4000000001 4000000001 false 0 in
  (try_take b 4000000001 999999999).1 = 3999999997%Z
  ∧ (4000000001 # 1) * secs 999999999 < 3999999997.
Proof. split; vm_compute; reflexivity. Qed.

End RateBucket.
