(* ===== verification/Limiter.v ===== *)
(** * Response limiting ([WorkerResponseLimiter] of [src/server.rs])

    The budget each UDP worker has for its responses: two pairs of token
    buckets, the second one a reserve for the queries that keep the node in
    other routing tables, and a counter per source address.  The limiter is
    written over the arithmetic interface [Num] of the buckets; the code's
    instance is [f64].  The quotas that split the global budget between the
    workers are here too. *)

From S2P Require Import Prelude Net Float64 Budget.

Local Open Scope Z_scope.

Module Limiter.

Record SourceResponseWindow := mkWindow { started_at : Instant; last_seen : Instant; count : Z }.

Inductive ResponsePermit := Regular | PriorityReserve | Rejected.
#[global] Instance ResponsePermit_eq_dec : EqDecision ResponsePermit.
Proof. solve_decision. Defined.

(** [u32::div_ceil] *)
Definition div_ceil (a b : Z) : Z := (a + b - 1) `div` b.

Definition reserve_quota (total : Z) : Z := if total =? 0 then 0 else Z.min (div_ceil total 10) total.

Definition split_u32_quota (total workers worker : Z) : Z :=
  let workers := Z.max workers 1 `mod` (u32_max + 1) in
  total `div` workers + Z.b2z (worker `mod` (u32_max + 1) <? total `mod` workers).
Definition split_u64_quota (total workers worker : Z) : Z :=
  let workers := Z.max workers 1 in
  total `div` workers + Z.b2z (worker <? total `mod` workers).

Definition WINDOW : Duration := from_secs 1.
Definition SOURCE_TTL : Duration := from_secs 60.

Section limiter.
Context {F : Type} `{Num F}.

Record WorkerResponseLimiter := mk {
  regular_packets : RateBucket.RateBucket F;
  regular_bytes : RateBucket.RateBucket F;
  priority_packets : RateBucket.RateBucket F;
  priority_bytes : RateBucket.RateBucket F;
  per_source_rate : Z;
  sources : gmap SocketAddr SourceResponseWindow;
  source_expiry : list (Instant * SocketAddr);
}.

Definition new (packet_rate byte_rate per_source_rate : Z) (now : Instant) : WorkerResponseLimiter :=
  let byte_rate := Z.min byte_rate u32_max in
  let priority_packet_rate := reserve_quota packet_rate in
  let priority_byte_rate := reserve_quota byte_rate in
  let packet_rate := Z.max 0 (packet_rate - priority_packet_rate) in
  let byte_rate := Z.max 0 (byte_rate - priority_byte_rate) in
  {| regular_packets := RateBucket.per_second packet_rate (Z.max (div_ceil packet_rate 5) 1) true now;
     regular_bytes := RateBucket.per_second byte_rate (Z.max (div_ceil byte_rate 5) 512) true now;
     priority_packets :=
       RateBucket.per_second priority_packet_rate (Z.max (div_ceil priority_packet_rate 5) 1) true now;
     priority_bytes :=
       RateBucket.per_second priority_byte_rate (Z.max (div_ceil priority_byte_rate 5) 512) true now;
     per_source_rate := per_source_rate; sources := ∅; source_expiry := [] |}.

Definition set_regular (s : WorkerResponseLimiter) p b : WorkerResponseLimiter :=
  mk p b (priority_packets s) (priority_bytes s) (per_source_rate s) (sources s) (source_expiry s).
Definition set_priority (s : WorkerResponseLimiter) p b : WorkerResponseLimiter :=
  mk (regular_packets s) (regular_bytes s) p b (per_source_rate s) (sources s) (source_expiry s).
Definition set_sources (s : WorkerResponseLimiter) m q : WorkerResponseLimiter :=
  mk (regular_packets s) (regular_bytes s) (priority_packets s) (priority_bytes s) (per_source_rate s) m q.

Definition take_budget (packets bytes : RateBucket.RateBucket F) (encoded_len : Z) (now : Instant)
  : bool * (RateBucket.RateBucket F * RateBucket.RateBucket F) :=
  let '(ok, packets) := RateBucket.try_take_one packets now in
  if negb ok then (false, (packets, bytes))
  else
    let '(ok, bytes) := RateBucket.try_take_exact bytes encoded_len now in
    if negb ok then (false, (RateBucket.refund_one packets, bytes)) else (true, (packets, bytes)).

Definition refund_budget (packets bytes : RateBucket.RateBucket F) (encoded_len : Z)
  : RateBucket.RateBucket F * RateBucket.RateBucket F :=
  (RateBucket.refund_one packets, RateBucket.refund bytes encoded_len).

Definition acquire_source_slot (s : WorkerResponseLimiter) (a : SocketAddr) (now : Instant)
  : bool * WorkerResponseLimiter :=
  if per_source_rate s =? 0 then (false, s)
  else
    let entry := default (mkWindow now now 0) (sources s !! a) in
    let entry := if WINDOW <=? age now (started_at entry) then mkWindow now (last_seen entry) 0 else entry in
    if per_source_rate s <=? count entry
    then (false, set_sources s (<[a := entry]> (sources s)) (source_expiry s))
    else
      (true, set_sources s (<[a := mkWindow (started_at entry) now (count entry + 1)]> (sources s))
               (source_expiry s ++ [(now + SOURCE_TTL, a)])).

(** [while let Some((deadline, addr)) = self.source_expiry.front()] *)
Fixpoint expire_loop (q : list (Instant * SocketAddr)) (m : gmap SocketAddr SourceResponseWindow) (now : Instant)
  : gmap SocketAddr SourceResponseWindow * list (Instant * SocketAddr) :=
  match q with
  | [] => (m, [])
  | (deadline, a) :: q' =>
      if now <? deadline then (m, q)
      else
        let m := match m !! a with
                 | Some entry => if SOURCE_TTL <=? age now (last_seen entry) then delete a m else m
                 | None => m
                 end in
        expire_loop q' m now
  end.

Definition expire_sources (s : WorkerResponseLimiter) (now : Instant) : WorkerResponseLimiter :=
  let '(m, q) := expire_loop (source_expiry s) (sources s) now in set_sources s m q.

Definition acquire (s : WorkerResponseLimiter) (a : SocketAddr) (encoded_len : Z) (is_priority : bool)
    (now : Instant) : ResponsePermit * WorkerResponseLimiter :=
  let s := expire_sources s now in
  let '(ok, (p, b)) := take_budget (regular_packets s) (regular_bytes s) encoded_len now in
  let s := set_regular s p b in
  if ok : bool then
    let '(ok, s) := acquire_source_slot s a now in
    if ok : bool then (Regular, s)
    else
      let '(p, b) := refund_budget (regular_packets s) (regular_bytes s) encoded_len in
      (Rejected, set_regular s p b)
  else if negb is_priority then (Rejected, s)
  else
    let '(ok, (p, b)) := take_budget (priority_packets s) (priority_bytes s) encoded_len now in
    let s := set_priority s p b in
    if ok : bool then
      let '(ok, s) := acquire_source_slot s a now in
      if ok : bool then (PriorityReserve, s)
      else
        let '(p, b) := refund_budget (priority_packets s) (priority_bytes s) encoded_len in
        (Rejected, set_priority s p b)
    else (Rejected, s).

(** ** Histories *)

(** A response a worker wants to send. *)
Record request := mkReq { rq_addr : SocketAddr; rq_len : Z; rq_priority : bool; rq_now : Instant }.

(** The requests answered, in order. *)
Fixpoint run (s : WorkerResponseLimiter) (rs : list request) : list request * WorkerResponseLimiter :=
  match rs with
  | [] => ([], s)
  | r :: rs =>
      let '(permit, s) := acquire s (rq_addr r) (rq_len r) (rq_priority r) (rq_now r) in
      let '(granted, s) := run s rs in
      (if bool_decide (permit = Rejected) then granted else r :: granted, s)
  end.

Fixpoint clocked (t : Instant) (rs : list request) : Prop :=
  match rs with [] => True | r :: rs => t ≤ rq_now r ∧ clocked (rq_now r) rs end.
End limiter.
Arguments WorkerResponseLimiter : clear implicits.
Arguments mk {_} _ _ _ _ _ _ _.

(** ** Answers per source *)

(** Answers to [a] from [u] on, and before [v]. *)
Definition answers_from (G : list (Instant * SocketAddr)) (a : SocketAddr) (u : Instant) : Z :=
  Z.of_nat (length (filter (λ x, x.2 = a ∧ u ≤ x.1) G)).
Definition answers (G : list (Instant * SocketAddr)) (a : SocketAddr) (u v : Instant) : Z :=
  Z.of_nat (length (filter (λ x, x.2 = a ∧ u ≤ x.1 < v) G)).

Lemma filter_snoc_length {A} (P : A → Prop) `{∀ x, Decision (P x)} l x :
  Z.of_nat (length (filter P (l ++ [x]))) = Z.of_nat (length (filter P l)) + Z.b2z (bool_decide (P x)).
Proof.
  rewrite filter_app, length_app, Nat2Z.inj_add. f_equal. case_bool_decide.
  - by rewrite filter_cons_True.
  - by rewrite filter_cons_False.
Qed.

Lemma answers_split G a u v m : answers G a u v ≤ answers G a u m + answers_from G a m.
Proof.
  unfold answers, answers_from. induction G as [|x G IH]; [done|]. rewrite !filter_cons.
  repeat case_decide; simpl; try lia. exfalso. destruct (decide (m ≤ x.1)); naive_solver lia.
Qed.

Lemma answers_within G a u v m : m ≤ u → answers G a u v ≤ answers_from G a m.
Proof.
  intros Hm. unfold answers, answers_from. induction G as [|x G IH]; [done|]. rewrite !filter_cons.
  repeat case_decide; simpl; try lia. naive_solver lia.
Qed.

Lemma answers_none (G : list (Instant * SocketAddr)) a u v :
  (∀ g, (g, a) ∈ G → g < u ∨ v ≤ g) → answers G a u v = 0.
Proof.
  intros Hn. unfold answers. destruct (filter _ G) as [|[g b] l] eqn:E; [done|].
  assert ((g, b) ∈ filter (λ x, x.2 = a ∧ u ≤ x.1 < v) G) as Hin by (rewrite E; by left).
  apply list_elem_of_filter in Hin as [[Hb Hg] Hin]. simpl in *. subst b. destruct (Hn g Hin); lia.
Qed.

Lemma answers_from_none (G : list (Instant * SocketAddr)) a u :
  (∀ g, (g, a) ∈ G → g < u) → answers_from G a u = 0.
Proof.
  intros Hn. unfold answers_from. destruct (filter _ G) as [|[g b] l] eqn:E; [done|].
  assert ((g, b) ∈ filter (λ x, x.2 = a ∧ u ≤ x.1) G) as Hin by (rewrite E; by left).
  apply list_elem_of_filter in Hin as [[Hb Hg] Hin]. simpl in *. subst b. specialize (Hn g Hin). lia.
Qed.

Section bound.
Context {F : Type} `{Num F}.
Implicit Types (s : WorkerResponseLimiter F) (G : list (Instant * SocketAddr)).

(** A source's window counts its answers since it started, and the second
    before it holds no more than a window's worth. *)
Record window_ok (rate : Z) (t : Instant) G (a : SocketAddr) (w : SourceResponseWindow) : Prop := {
  wo_times : started_at w ≤ last_seen w ≤ t;
  wo_length : last_seen w < started_at w + WINDOW;
  wo_count : 0 ≤ count w ≤ rate;
  wo_last g : (g, a) ∈ G → g ≤ last_seen w;
  wo_since : answers_from G a (started_at w) = count w;
  wo_before u : started_at w - WINDOW < u → answers G a u (started_at w) ≤ rate;
}.

(** The sources that are tracked, and the queue that forgets them. *)
Record limiter_ok (rate : Z) (t : Instant) (m : gmap SocketAddr SourceResponseWindow)
    (q : list (Instant * SocketAddr)) G : Prop := {
  lk_past x : x ∈ G → x.1 ≤ t;
  lk_tracked a w : m !! a = Some w → window_ok rate t G a w;
  lk_forgotten a g : m !! a = None → (g, a) ∈ G → g + SOURCE_TTL ≤ t;
  lk_rate a u : answers G a u (u + WINDOW) ≤ 2 * rate;
  lk_sorted : Sorted.StronglySorted (λ x y : Instant * SocketAddr, x.1 ≤ y.1) q;
  lk_queue x : x ∈ q → x.1 ≤ t + SOURCE_TTL;
  lk_queued a w : m !! a = Some w → (last_seen w + SOURCE_TTL, a) ∈ q;
}.

Lemma limiter_mono rate t t' m q G : limiter_ok rate t m q G → t ≤ t' → limiter_ok rate t' m q G.
Proof.
  intros [] Hle. split; try done.
  - intros x Hx. specialize (lk_past0 x Hx). lia.
  - intros a w Hw. destruct (lk_tracked0 a w Hw). split; try done. lia.
  - intros a g Ha Hg. specialize (lk_forgotten0 a g Ha Hg). lia.
  - intros x Hx. specialize (lk_queue0 x Hx). lia.
Qed.

(** Nobody is tracked for longer than the time to live. *)
Definition recent_only (t : Instant) (m : gmap SocketAddr SourceResponseWindow) : Prop :=
  ∀ a w, m !! a = Some w → t < last_seen w + SOURCE_TTL.

Lemma expire_sources_ok rate now q m G :
  limiter_ok rate now m q G →
  limiter_ok rate now (expire_loop q m now).1 (expire_loop q m now).2 G
  ∧ recent_only now (expire_loop q m now).1.
Proof.
  revert m; induction q as [|[d a] q IH]; intros m Hok; cbn [expire_loop].
  { split; [done|]. intros a w Hw. by apply (lk_queued _ _ _ _ _ Hok), elem_of_nil in Hw. }
  destruct (Z.ltb_spec now d) as [Hlt|Hle].
  { split; [done|]. intros b w Hw. pose proof (lk_queued _ _ _ _ _ Hok _ _ Hw) as Hin.
    pose proof (lk_sorted _ _ _ _ _ Hok) as Hs. apply Sorted.StronglySorted_inv in Hs as [_ Hs].
    rewrite Forall_forall in Hs. apply elem_of_cons in Hin as [[= Hd _]|Hin]; [lia|].
    specialize (Hs _ Hin). simpl in Hs. lia. }
  match goal with |- context [expire_loop q ?x now] => set (m' := x) end. apply IH. destruct Hok.
  assert (∀ b w, m' !! b = Some w → m !! b = Some w ∧ (b = a → last_seen w + SOURCE_TTL ≠ d)) as Hsub.
  { intros b w. unfold m'. destruct (m !! a) as [wa|] eqn:Ha.
    - destruct (Z.leb_spec SOURCE_TTL (age now (last_seen wa))) as [Hage|Hage].
      + intros [Hne Hb]%lookup_delete_Some. split; [done|]. by intros ->.
      + intros Hb. split; [done|]. intros -> Hd. simplify_eq. unfold age, checked_duration_since in Hage.
        destruct (wo_times _ _ _ _ _ (lk_tracked0 _ _ Ha)). case_bool_decide; simpl in Hage; lia.
    - intros Hb. split; [done|]. intros ->. congruence. }
  split; try done.
  - intros b w [Hb _]%Hsub. by apply lk_tracked0.
  - intros b g Hb Hg. unfold m' in Hb. destruct (m !! a) as [wa|] eqn:Ha; [|by eapply lk_forgotten0].
    destruct (Z.leb_spec SOURCE_TTL (age now (last_seen wa))) as [Hage|Hage]; [|by eapply lk_forgotten0].
    destruct (decide (b = a)) as [->|Hne]; [|rewrite lookup_delete_ne in Hb by done; by eapply lk_forgotten0].
    destruct (lk_tracked0 _ _ Ha). specialize (wo_last0 g Hg). unfold age, checked_duration_since in Hage.
    case_bool_decide; simpl in Hage; unfold SOURCE_TTL, from_secs in *; lia.
  - by inversion lk_sorted0.
  - intros x Hx. apply lk_queue0. by right.
  - intros b w [Hb Hd]%Hsub. pose proof (lk_queued0 _ _ Hb) as Hin.
    apply elem_of_cons in Hin as [[= Heq ->]|]; [|done]. by destruct Hd.
Qed.

(** A granted slot. *)
Lemma grant_ok rate now m q G a w :
  limiter_ok rate now m q G → window_ok rate now G a w → now < started_at w + WINDOW → count w < rate →
  limiter_ok rate now (<[a := mkWindow (started_at w) now (count w + 1)]> m) (q ++ [(now + SOURCE_TTL, a)])
    (G ++ [(now, a)]).
Proof.
  intros [] [] Hnow Hlt. assert (∀ x, x ∈ G ++ [(now, a)] → x.1 ≤ now) as Hpast.
  { intros x [?|Hx%list_elem_of_singleton]%elem_of_app; [by apply lk_past0|]. by subst x. }
  assert (∀ b u v, b ≠ a → answers (G ++ [(now, a)]) b u v = answers G b u v) as Hother.
  { intros b u v Hb. unfold answers. rewrite filter_snoc_length, bool_decide_false; [simpl; lia|]. simpl. naive_solver. }
  split; try done.
  - intros b wb [[<- <-]|[Hne Hb]]%lookup_insert_Some.
    + split; simpl; [lia|lia|lia| | |].
      * intros g Hg. apply (Hpast (g, a) Hg).
      * unfold answers_from in *. rewrite filter_snoc_length, bool_decide_true by (simpl; split; [done|lia]). simpl. lia.
      * intros u Hu. unfold answers in *. rewrite filter_snoc_length, bool_decide_false by (simpl; lia).
        simpl. specialize (wo_before0 u Hu). lia.
    + destruct (lk_tracked0 b wb Hb). split; try done.
      * intros g [?|Hg%list_elem_of_singleton]%elem_of_app; [by apply wo_last1|]. simplify_eq.
      * unfold answers_from in *. rewrite filter_snoc_length, bool_decide_false; [simpl; lia|]. simpl. naive_solver.
      * intros u Hu. rewrite Hother by done. by apply wo_before1.
  - intros b g Hb Hg. apply lookup_insert_None in Hb as [Hb Hne].
    apply elem_of_app in Hg as [Hg|Hg%list_elem_of_singleton]; [by eapply lk_forgotten0|]. simplify_eq.
  - intros b u. destruct (decide (b = a)) as [->|Hne]; [|by rewrite Hother].
    destruct (decide (u + WINDOW ≤ started_at w)) as [Hu|Hu].
    + unfold answers in *. rewrite filter_snoc_length, bool_decide_false by (simpl; lia). specialize (lk_rate0 a u). simpl. lia.
    + etrans; [apply (answers_split _ _ _ _ (started_at w))|].
      assert (answers (G ++ [(now, a)]) a u (started_at w) ≤ rate) as H1.
      { unfold answers in *. rewrite filter_snoc_length, bool_decide_false by (simpl; lia).
        specialize (wo_before0 u ltac:(lia)). simpl. lia. }
      assert (answers_from (G ++ [(now, a)]) a (started_at w) = count w + 1) as H2.
      { unfold answers_from in *. rewrite filter_snoc_length, bool_decide_true by (simpl; split; [done|lia]). simpl. lia. }
      lia.
  - apply StronglySorted_snoc; [done|]. apply Forall_forall. intros x Hx. by apply lk_queue0.
  - intros x [?|Hx%list_elem_of_singleton]%elem_of_app; [by apply lk_queue0|]. by subst x.
  - intros b wb [[<- <-]|[Hne Hb]]%lookup_insert_Some; [set_solver|]. specialize (lk_queued0 _ _ Hb). set_solver.
Qed.

Lemma age_past now t : t ≤ now → age now t = now - t.
Proof. intros Hle. unfold age, checked_duration_since. by rewrite bool_decide_true. Qed.

(** The window the limiter looks at. *)
Lemma current_window rate now m q G a :
  limiter_ok rate now m q G → 0 ≤ rate →
  let e := default (mkWindow now now 0) (m !! a) in
  let e := if WINDOW <=? age now (started_at e) then mkWindow now (last_seen e) 0 else e in
  count e < rate → window_ok rate now G a (mkWindow (started_at e) now (count e)).
Proof.
  intros [] Hr e0 e Hlt. assert (0 < WINDOW ∧ WINDOW < SOURCE_TTL) as [Hw Hwt] by (by vm_compute).
  unfold e, e0 in *. destruct (m !! a) as [w|] eqn:Ha; simpl in *.
  - destruct (lk_tracked0 a w Ha). rewrite age_past in * by lia.
    destruct (Z.leb_spec WINDOW (now - started_at w)) as [Hage|Hage]; simpl in *.
    + split; simpl; [lia|lia|lia| | |].
      * intros g Hg. specialize (wo_last0 g Hg). lia.
      * apply answers_from_none. intros g Hg. specialize (wo_last0 g Hg). lia.
      * intros u Hu. etrans; [apply (answers_within _ _ _ _ (started_at w)); lia|]. lia.
    + split; simpl; try done; [lia|lia|]. intros g Hg. specialize (wo_last0 g Hg). lia.
  - assert (age now now = 0) as Hz by (rewrite age_past; lia). rewrite Hz in *.
    destruct (Z.leb_spec WINDOW 0); [lia|]. simpl in *.
    assert (∀ g, (g, a) ∈ G → g + SOURCE_TTL ≤ now) as Hg by (intros g; by apply lk_forgotten0).
    split; simpl; [lia|lia|lia| | |].
    + intros g Hin. specialize (Hg g Hin). lia.
    + apply answers_from_none. intros g Hin. specialize (Hg g Hin). lia.
    + intros u Hu. rewrite answers_none; [done|]. intros g Hin. specialize (Hg g Hin). lia.
Qed.

Definition tracks (now : Instant) s G : Prop :=
  limiter_ok (per_source_rate s) now (sources s) (source_expiry s) G ∧ 0 ≤ per_source_rate s.

Lemma acquire_source_slot_ok s a now G :
  tracks now s G → recent_only now (sources s) →
  let r := acquire_source_slot s a now in
  per_source_rate r.2 = per_source_rate s ∧ tracks now r.2 (if r.1 then G ++ [(now, a)] else G)
  ∧ recent_only now (sources r.2).
Proof.
  intros [Hok Hr] Hrec. unfold acquire_source_slot. destruct (Z.eqb_spec (per_source_rate s) 0) as [Hz|Hnz]; [done|].
  set (e := if WINDOW <=? _ then _ else _). pose proof (current_window _ _ _ _ _ a Hok Hr) as Hcur. cbv zeta in Hcur.
  fold e in Hcur. assert (0 < WINDOW ∧ 0 < SOURCE_TTL) as [Hw Ht] by (by vm_compute).
  destruct (Z.leb_spec (per_source_rate s) (count e)) as [Hfull|Hlt].
  - assert (sources s !! a = Some e) as Hs.
    { unfold e in *. destruct (sources s !! a) as [w|]; simpl in *.
      - destruct (WINDOW <=? age now (started_at w)); [simpl in Hfull; lia|done].
      - destruct (WINDOW <=? age now now); simpl in Hfull; lia. }
    unfold tracks. simpl. by rewrite insert_id.
  - specialize (Hcur Hlt). split; [done|]. split.
    + split; [|done]. simpl. apply (grant_ok _ _ _ _ _ a (mkWindow (started_at e) now (count e)) Hok Hcur); [|done].
      simpl. unfold e. pose proof (wo_length _ _ _ _ _ Hcur) as Hl. simpl in Hl. done.
    + simpl. intros b w [[<- <-]|[_ Hb]]%lookup_insert_Some; [simpl; lia|by eapply Hrec].
Qed.

Lemma limiter_acquire_ok s a n pri now G :
  tracks now s G →
  let r := acquire s a n pri now in
  per_source_rate r.2 = per_source_rate s
  ∧ tracks now r.2 (if bool_decide (r.1 = Rejected) then G else G ++ [(now, a)]) ∧ recent_only now (sources r.2)
  ∧ (r.1 = PriorityReserve → pri = true).
Proof.
  intros [Hok Hr]. unfold acquire. destruct (expire_sources_ok _ _ _ _ _ Hok) as [Hok1 Hrec1].
  unfold expire_sources. destruct (expire_loop _ _ _) as [m q]. cbn [fst snd] in Hok1, Hrec1.
  destruct (take_budget _ _ _ _) as [[] [p b]].
  - match goal with |- context [acquire_source_slot ?x a now] =>
      destruct (acquire_source_slot_ok x a now G) as (H1 & [H2 H3] & H4); [done..|];
      destruct (acquire_source_slot x a now) as [[] s'] end; cbn [fst snd] in *.
    + by rewrite bool_decide_false.
    + rewrite bool_decide_true by done. split; [done|]. split; [|done]. by split.
  - destruct pri; cbn [negb fst snd]; [|rewrite bool_decide_true by done; by split_and!].
    destruct (take_budget _ _ _ _) as [[] [p' b']].
    + match goal with |- context [acquire_source_slot ?x a now] =>
        destruct (acquire_source_slot_ok x a now G) as (H1 & [H2 H3] & H4); [done..|];
        destruct (acquire_source_slot x a now) as [[] s'] end; cbn [fst snd] in *.
      * by rewrite bool_decide_false.
      * rewrite bool_decide_true by done. split; [done|]. split; [|done]. by split.
    + cbn [fst snd]. rewrite bool_decide_true by done. by split_and!.
Qed.

Definition granted_log (rs : list request) : list (Instant * SocketAddr) := (λ r, (rq_now r, rq_addr r)) <$> rs.

Definition end_time (t : Instant) (rs : list request) : Instant := default t (rq_now <$> last rs).

Lemma limiter_run_ok t s rs G :
  tracks t s G → clocked t rs →
  let r := run s rs in
  per_source_rate r.2 = per_source_rate s ∧ tracks (end_time t rs) r.2 (G ++ granted_log r.1)
  ∧ (rs ≠ [] → recent_only (end_time t rs) (sources r.2)).
Proof.
  revert t s G; induction rs as [|r rs IH]; intros t s G Hok Hcl; cbn [run].
  { split; [done|]. unfold granted_log. simpl. by rewrite app_nil_r. }
  destruct Hcl as [Hle Hcl]. destruct Hok as [Hok Hr]. apply (limiter_mono _ _ (rq_now r)) in Hok; [|done].
  destruct (limiter_acquire_ok s (rq_addr r) (rq_len r) (rq_priority r) (rq_now r) G (conj Hok Hr)) as (H1 & H2 & H3 & _).
  assert (end_time t (r :: rs) = end_time (rq_now r) rs) as ->.
  { unfold end_time. rewrite last_cons. by destruct (last rs). }
  destruct (acquire s _ _ _ _) as [permit s1]. cbn [fst snd] in *.
  destruct (IH (rq_now r) s1 _ H2 Hcl) as (H4 & H5 & H6). destruct (run s1 rs) as [gr s2] eqn:Hrun. cbn [fst snd] in *.
  split; [congruence|]. split.
  - case_bool_decide; [done|]. unfold granted_log in *. simpl. by rewrite <-app_assoc in H5.
  - intros _. destruct rs as [|r2 rs]; [|by apply H6]. simpl in Hrun. by simplify_eq.
Qed.

End bound.

(** Answers to a source within a window, among the requests answered. *)
Definition answered (rs : list request) (a : SocketAddr) (u : Instant) : Z :=
  Z.of_nat (length (filter (λ r, rq_addr r = a ∧ u ≤ rq_now r < u + WINDOW) rs)).

Lemma answers_log rs a u v :
  answers (granted_log rs) a u v = Z.of_nat (length (filter (λ r, rq_addr r = a ∧ u ≤ rq_now r < v) rs)).
Proof.
  unfold answers, granted_log. induction rs as [|r rs IH]; [done|]. rewrite fmap_cons, !filter_cons.
  do 2 case_decide; simpl in *; try done; lia.
Qed.

(** C28: no source is answered more than its share.  Over every sequence of
    responses the workers want to send, with a clock that does not run
    backwards, the limiter lets through at most twice the configured rate to
    one source in any second (its windows are fixed, so two of them can meet
    in one second), whatever the token buckets do and whatever sources it
    forgets in between.  It forgets them: after each decision the sources it
    tracks have all been answered within the last minute. *)
Theorem source_rate_bound (packet_rate byte_rate rate : Z) (t : Instant) (rs : list request) (a : SocketAddr)
    (u : Instant) :
  0 ≤ rate → clocked t rs →
  let r := run (new (F:=f64) packet_rate byte_rate rate t) rs in
  answered r.1 a u ≤ 2 * rate
  ∧ (rs ≠ [] → ∀ b w, sources r.2 !! b = Some w → end_time t rs < last_seen w + SOURCE_TTL).
Proof.
  intros Hr Hcl r. destruct (limiter_run_ok t (new (F:=f64) packet_rate byte_rate rate t) rs []) as (H1 & [H2 _] & H3); [|done|].
  - split; [|done]. split; try done; try (by constructor); try (by intros x ?%elem_of_nil).
    + intros b g _ Hx. by apply elem_of_nil in Hx.
    + intros b v. unfold answers. simpl. lia.
  - fold r in H1, H2, H3. split; [|done]. pose proof (lk_rate _ _ _ _ _ H2 a u) as Hrate. rewrite H1 in Hrate.
    simpl in Hrate. by rewrite answers_log in Hrate.
Qed.

Definition ex_addr (p : Z) : SocketAddr := SocketAddrV4 8 8 8 8 p.
Definition ex_requests : list request :=
  [mkReq (ex_addr 1) 100 false 0; mkReq (ex_addr 1) 100 false 1; mkReq (ex_addr 2) 100 true 1;
   mkReq (ex_addr 1) 100 false 1000000000].

(** One answer per second and source: the second request is turned down. *)
Example ex_answered :
  (run (new (F:=f64) 20 2000 1 0) ex_requests).1
  = [mkReq (ex_addr 1) 100 false 0; mkReq (ex_addr 2) 100 true 1; mkReq (ex_addr 1) 100 false 1000000000].
Proof. by vm_compute. Qed.

(** Two windows meet in one second: with a rate of two, three answers go to
    one source between 0.9 and 1.1 seconds. *)
Example ex_windows_meet :
  answered (run (new (F:=f64) 1000 200000 2 0)
    [mkReq (ex_addr 1) 100 false 0; mkReq (ex_addr 1) 100 false 900000000;
     mkReq (ex_addr 1) 100 false 1000000000; mkReq (ex_addr 1) 100 false 1100000000]).1 (ex_addr 1) 900000000 = 3.
Proof. by vm_compute. Qed.

Lemma source_rate_bound_witness :
  let r := run (new (F:=f64) 20 2000 1 0) ex_requests in
  answered r.1 (ex_addr 1) 0 ≤ 2 * 1
  ∧ (ex_requests ≠ [] → ∀ b w, sources r.2 !! b = Some w → end_time 0 ex_requests < last_seen w + SOURCE_TTL).
Proof.
  apply (source_rate_bound 20 2000 1 0 ex_requests (ex_addr 1) 0).
  - lia.
  - simpl. lia.
Defined.

(** ** Quotas *)

Lemma sum_shares (n : nat) (q r : Z) :
  0 ≤ r → foldr Z.add 0 ((λ w, q + Z.b2z (Z.of_nat w <? r)) <$> seq 0 n) = Z.of_nat n * q + Z.min (Z.of_nat n) r.
Proof.
  intros Hr. induction n as [|n IH]; [simpl; lia|]. rewrite seq_S, fmap_app, foldr_app. simpl.
  assert (∀ l c, foldr Z.add c l = foldr Z.add 0 l + c) as Hc.
  { clear. induction l as [|x l IH]; intros c; simpl; [lia|]. rewrite IH. lia. }
  rewrite Hc, IH. destruct (Z.ltb_spec (Z.of_nat n) r); simpl; lia.
Qed.

(** The workers' budgets add up to the configured one.  Splitting the
    packet rate and the byte rate between the workers loses nothing to
    rounding and exceeds nothing, and no worker gets more than one unit more
    than another. *)
Theorem quotas_exact (total32 total64 : Z) (workers : nat) :
  (0 < workers)%nat → Z.of_nat workers ≤ u32_max → 0 ≤ total32 → 0 ≤ total64 →
  foldr Z.add 0 ((λ w, split_u32_quota total32 (Z.of_nat workers) (Z.of_nat w)) <$> seq 0 workers) = total32
  ∧ foldr Z.add 0 ((λ w, split_u64_quota total64 (Z.of_nat workers) (Z.of_nat w)) <$> seq 0 workers) = total64
  ∧ ∀ w, (w < workers)%nat →
      total32 `div` Z.of_nat workers ≤ split_u32_quota total32 (Z.of_nat workers) (Z.of_nat w)
        ≤ total32 `div` Z.of_nat workers + 1
      ∧ total64 `div` Z.of_nat workers ≤ split_u64_quota total64 (Z.of_nat workers) (Z.of_nat w)
        ≤ total64 `div` Z.of_nat workers + 1.
Proof.
  intros Hw Hmax H32 H64. unfold u32_max in *.
  assert (∀ t w, (w < workers)%nat → split_u32_quota t (Z.of_nat workers) (Z.of_nat w)
    = t `div` Z.of_nat workers + Z.b2z (Z.of_nat w <? t `mod` Z.of_nat workers)) as E32.
  { intros t w Hlt. unfold split_u32_quota, u32_max. rewrite Z.max_l by lia. by rewrite !Z.mod_small by lia. }
  assert (∀ t w, split_u64_quota t (Z.of_nat workers) (Z.of_nat w)
    = t `div` Z.of_nat workers + Z.b2z (Z.of_nat w <? t `mod` Z.of_nat workers)) as E64.
  { intros t w. unfold split_u64_quota. by rewrite Z.max_l by lia. }
  assert (∀ t, 0 ≤ t → foldr Z.add 0 ((λ w, t `div` Z.of_nat workers + Z.b2z (Z.of_nat w <? t `mod` Z.of_nat workers))
    <$> seq 0 workers) = t) as Hsum.
  { intros t Ht. pose proof (Z.mod_pos_bound t (Z.of_nat workers)) as Hm. rewrite sum_shares by lia.
    rewrite Z.min_r by lia. pose proof (Z.div_mod t (Z.of_nat workers)). lia. }
  split_and!.
  - etrans; [|exact (Hsum total32 H32)]. f_equal. apply list_fmap_ext. intros i w Hi. apply E32.
    apply lookup_seq in Hi. lia.
  - etrans; [|exact (Hsum total64 H64)]. f_equal. apply list_fmap_ext. intros i w Hi. apply E64.
  - intros w Hlt. rewrite E32, E64 by done.
    split; destruct (_ <? _); simpl; lia.
Qed.

Lemma quotas_exact_witness :
  split_u32_quota 10 4 0 + (split_u32_quota 10 4 1 + (split_u32_quota 10 4 2 + (split_u32_quota 10 4 3 + 0))) = 10.
Proof. destruct (quotas_exact 10 7 4) as [Hsum _]; [lia|vm_compute; discriminate|lia|lia|]. exact Hsum. Defined.

End Limiter.
