(* ===== verification/Recent.v ===== *)
(** * Recently probed endpoints ([RecentProbes] of [src/node_pool.rs])

    An index map paired with a binary heap of check times stored in a [Vec].
    A repeated probe only moves the deadline in the map; the heap entry is
    advanced when it becomes due.  Operations that index or [unwrap] return
    [None] where the code would panic, and the loops carry fuel; the theorems
    show that on well-formed states neither happens. *)

From S2P Require Import Prelude Net.

(** ** Binary heaps in a list *)

Definition parent (i : nat) : nat := (i - 1) / 2.

Lemma parent_iff i p : 0 < i → parent i = p ↔ i = 2 * p + 1 ∨ i = 2 * p + 2.
Proof.
  unfold parent. intros Hi. pose proof (Nat.div_mod_eq (i - 1) 2).
  pose proof (Nat.mod_upper_bound (i - 1) 2). lia.
Qed.

Lemma parent_lt i : 0 < i → parent i < i.
Proof. intros Hi. pose proof (proj1 (parent_iff i _ Hi) eq_refl). lia. Qed.

Section heap.
Context {K : Type} `{HK : OrdKeyInj K}.
Implicit Types (l : list K) (x y : K).

(** Order between two positions of a list. *)
Definition pos_le l (i j : nat) : Prop :=
  ∀ x y, l !! i = Some x → l !! j = Some y → kleb x y.

Definition heap_ok l : Prop := ∀ j, 0 < j → pos_le l (parent j) j.

(** A heap except between [i] and its parent. *)
Definition heap_up l (i : nat) : Prop :=
  (∀ j, 0 < j → j ≠ i → pos_le l (parent j) j)
  ∧ (∀ c, 0 < i → 0 < c → parent c = i → pos_le l (parent i) c).

(** A heap except between [i] and its children. *)
Definition heap_down l (i : nat) : Prop :=
  (∀ j, 0 < j → parent j ≠ i → pos_le l (parent j) j)
  ∧ (∀ c, 0 < i → 0 < c → parent c = i → pos_le l (parent i) c).

Lemma heap_up_0 l : heap_up l 0 → heap_ok l.
Proof. intros [Hh _] j Hj. apply Hh; lia. Qed.

Lemma heap_up_done l i : heap_up l i → pos_le l (parent i) i → heap_ok l.
Proof. intros [Hh _] Hp j Hj. destruct (decide (j = i)) as [->|]; auto. Qed.

Lemma list_swap_lookup l l' i j k :
  list_swap i j l = Some l' →
  l' !! k = if decide (k = j) then l !! i else if decide (k = i) then l !! j else l !! k.
Proof.
  unfold list_swap. intros Hs.
  destruct (l !! i) as [x|] eqn:Hi; simplify_eq/=.
  destruct (l !! j) as [y|] eqn:Hj; simplify_eq/=.
  pose proof (lookup_lt_Some _ _ _ Hi). pose proof (lookup_lt_Some _ _ _ Hj).
  destruct (decide (k = j)) as [->|].
  { rewrite list_lookup_insert_eq; [done|]. by rewrite length_insert. }
  rewrite list_lookup_insert_ne by done.
  destruct (decide (k = i)) as [->|]; [by rewrite list_lookup_insert_eq|].
  by rewrite list_lookup_insert_ne.
Qed.

Lemma list_swap_length l l' i j : list_swap i j l = Some l' → length l' = length l.
Proof.
  unfold list_swap. intros Hs. destruct (l !! i), (l !! j); simplify_eq/=. by rewrite !length_insert.
Qed.

Lemma list_swap_perm l l' i j : list_swap i j l = Some l' → l' ≡ₚ l.
Proof.
  intros Hs. apply Permutation_inj. split; [by eapply list_swap_length|].
  exists (λ k, if decide (k = j) then i else if decide (k = i) then j else k). split.
  - intros a b. repeat case_decide; subst; congruence.
  - intros k. rewrite (list_swap_lookup _ _ _ _ _ Hs). repeat case_decide; done.
Qed.

Ltac lk Hs := repeat (rewrite (list_swap_lookup _ _ _ _ _ Hs); repeat case_decide).

(** One round of [sift_up]. *)
Lemma sift_up_step l l' i x p :
  heap_up l i → 0 < i → l !! parent i = Some p → l !! i = Some x → ¬ kleb p x →
  list_swap (parent i) i l = Some l' → heap_up l' (parent i).
Proof.
  intros [Hh Hc] Hi Hp Hx Hgt Hs. pose proof (parent_lt i Hi) as Hlt.
  assert (kleb x p) as Hxp by (destruct (kleb_total x p); done).
  split.
  - intros j Hj Hne. destruct (decide (j = i)) as [->|Hji].
    { intros a b Ha Hb. revert Ha Hb. lk Hs; try lia. congruence. }
    destruct (decide (parent j = i)) as [Hpj|Hpj].
    { intros a b Ha Hb. revert Ha Hb. rewrite Hpj. lk Hs; try lia.
      intros Ha Hb. eapply (Hc j); eauto. }
    destruct (decide (parent j = parent i)) as [Hpp|Hpp].
    + intros a b Ha Hb. revert Ha Hb. rewrite Hpp. lk Hs; try lia; intros Ha Hb.
      simplify_eq. eapply kleb_trans; [exact Hxp|]. eapply (Hh j); eauto. by rewrite Hpp.
    + intros a b Ha Hb. revert Ha Hb. lk Hs; try lia; try congruence. intros; eapply (Hh j); eauto.
  - intros c Hpi Hc0 Hpc a b Ha Hb. revert Ha Hb.
    pose proof (parent_lt (parent i) Hpi).
    pose proof (parent_lt c Hc0). lk Hs; try lia; intros Ha Hb.
    + exact (Hh (parent i) Hpi ltac:(lia) _ _ Ha Hb).
    + eapply kleb_trans; [exact (Hh (parent i) Hpi ltac:(lia) _ _ Ha Hp)|].
      refine (Hh c Hc0 _ _ _ _ Hb); [done|]. by rewrite Hpc.
Qed.

(** One round of [sift_down]. *)
Lemma sift_down_step l l' i ch x y :
  heap_down l i → l !! i = Some x → l !! ch = Some y → 0 < ch → parent ch = i →
  ¬ kleb x y →
  (∀ c z, 0 < c → parent c = i → l !! c = Some z → kleb y z) →
  list_swap i ch l = Some l' → heap_down l' ch.
Proof.
  intros [Hh Hc] Hx Hy Hch Hpc Hgt Hmin Hs. pose proof (parent_lt ch Hch) as Hlt.
  assert (kleb y x) as Hyx by (destruct (kleb_total x y); done).
  split.
  - intros j Hj Hne a b Ha Hb. pose proof (parent_lt j Hj).
    destruct (decide (j = ch)) as [->|Hj1].
    { revert Ha Hb. rewrite Hpc. lk Hs; try lia. intros; simplify_eq. done. }
    destruct (decide (parent j = i)) as [Hp|Hp].
    { revert Ha Hb. rewrite Hp. lk Hs; try lia. intros; simplify_eq. eapply Hmin; eauto. }
    destruct (decide (j = i)) as [->|Hj2].
    { revert Ha Hb. lk Hs; try lia. intros Ha Hb. simplify_eq. eapply (Hc ch); eauto. }
    revert Ha Hb. lk Hs; try lia; try congruence. intros. eapply (Hh j); eauto.
  - intros c _ Hc0 Hpcc a b Ha Hb. pose proof (parent_lt c Hc0). revert Ha Hb. rewrite Hpc.
    lk Hs; try lia. intros Ha Hb.
    refine (Hh c Hc0 _ _ _ _ Hb); [lia|]. rewrite Hpcc. congruence.
Qed.

Lemma heap_down_done l i :
  heap_down l i → (∀ c, 0 < c → parent c = i → pos_le l i c) → heap_ok l.
Proof.
  intros [Hh _] Hp j Hj. destruct (decide (parent j = i)) as [<-|]; auto.
Qed.

(** The head of a heap is its least element. *)
Lemma heap_min l x i y : heap_ok l → l !! 0 = Some x → l !! i = Some y → kleb x y.
Proof.
  intros Hh Hx. revert y. induction (lt_wf i) as [i _ IH]. intros y Hy.
  destruct (decide (i = 0)) as [->|Hi]; [simplify_eq; apply kleb_refl|].
  pose proof (parent_lt i ltac:(lia)) as Hlt.
  destruct (lookup_lt_is_Some_2 l (parent i)) as [z Hz].
  { apply lookup_lt_Some in Hy. lia. }
  eapply kleb_trans; [by eapply (IH (parent i))|]. by eapply (Hh i); [lia|..].
Qed.

(** What [remove_at] does to a heap, before it sifts. *)
Lemma heap_removed l l' i y :
  heap_ok l → i < length l' → length l' ≤ length l → l' !! i = Some y →
  (∀ k z, k ≠ i → l' !! k = Some z → l !! k = Some z) →
  (0 < i → pos_le l' (parent i) i) → heap_down l' i.
Proof.
  intros Hh Hi Hlen Hy Hk Hp. destruct (lookup_lt_is_Some_2 l i) as [x Hx]; [lia|]. split.
  - intros j Hj Hne. destruct (decide (j = i)) as [->|Hji]; [auto|].
    intros a b Ha Hb. eapply (Hh j); eauto.
  - intros c Hi0 Hc Hpc a b Ha Hb. pose proof (parent_lt i Hi0). pose proof (parent_lt c Hc).
    eapply (kleb_trans _ x).
    + eapply (Hh i); eauto. apply Hk; [lia|done].
    + eapply (Hh c); [done|by rewrite Hpc|]. apply Hk; [lia|done].
Qed.

Lemma heap_removed_up l l' i y p :
  heap_ok l → i < length l' → length l' ≤ length l → l' !! i = Some y →
  (∀ k z, k ≠ i → l' !! k = Some z → l !! k = Some z) →
  0 < i → l' !! parent i = Some p → kltb y p → heap_up l' i.
Proof.
  intros Hh Hi Hlen Hy Hk Hi0 Hp Hyp. destruct (lookup_lt_is_Some_2 l i) as [x Hx]; [lia|].
  pose proof (parent_lt i Hi0).
  assert (∀ c b, 0 < c → parent c = i → l' !! c = Some b → kleb p b) as Hgp.
  { intros c b Hc Hpc Hb. pose proof (parent_lt c Hc). apply (kleb_trans _ x).
    - refine (Hh i Hi0 _ _ (Hk _ _ _ Hp) Hx); lia.
    - refine (Hh c Hc _ _ _ (Hk _ _ _ Hb)); [by rewrite Hpc|lia]. }
  split.
  - intros j Hj Hne a b Ha Hb. destruct (decide (parent j = i)) as [Hpj|Hpj].
    + rewrite Hpj in Ha. simplify_eq. eapply kleb_trans; [by apply kltb_kleb|eauto].
    + eapply (Hh j); eauto.
  - intros c _ Hc Hpc a b Ha Hb. simplify_eq. eauto.
Qed.
End heap.

Module RecentProbes.

Record RecentProbe := mkProbe { expires_at : Instant; heap_index : nat }.

Record RecentProbes := mk {
  entries : gmap SocketAddr RecentProbe;
  expiry : list (Instant * SocketAddr);
  capacity : nat;
}.

Definition set_index (m : gmap SocketAddr RecentProbe) (a : SocketAddr) (i : nat)
  : option (gmap SocketAddr RecentProbe) :=
  let! e := m !! a in Some (<[a := mkProbe (expires_at e) i]> m).

Definition new (capacity : nat) : RecentProbes := mk ∅ [] (capacity `max` 1).

Definition contains (s : RecentProbes) (a : SocketAddr) (now : Instant) : bool :=
  match entries s !! a with
  | Some e => bool_decide (now < expires_at e)%Z
  | None => false
  end.

Definition swap (s : RecentProbes) (left right : nat) : option RecentProbes :=
  let! l := list_swap left right (expiry s) in
  let! x := l !! left in
  let! m := set_index (entries s) x.2 left in
  let! y := l !! right in
  let! m := set_index m y.2 right in
  Some (mk m l (capacity s)).

Fixpoint sift_up_loop (fuel : nat) (s : RecentProbes) (index : nat) : option RecentProbes :=
  match fuel with
  | 0 => None
  | S fuel =>
      if bool_decide (0 < index) then
        let p := (index - 1) / 2 in
        let! x := expiry s !! p in
        let! y := expiry s !! index in
        if kleb x y then Some s
        else let! s := swap s p index in sift_up_loop fuel s p
      else Some s
  end.

Definition sift_up (s : RecentProbes) (index : nat) : option RecentProbes :=
  sift_up_loop (S index) s index.

Fixpoint sift_down_loop (fuel : nat) (s : RecentProbes) (index : nat) : option RecentProbes :=
  match fuel with
  | 0 => None
  | S fuel =>
      let left := index * 2 + 1 in
      if bool_decide (length (expiry s) ≤ left) then Some s
      else
        let right := left + 1 in
        let! child :=
          (if bool_decide (right < length (expiry s)) then
             let! xr := expiry s !! right in
             let! xl := expiry s !! left in
             Some (if kltb xr xl then right else left)
           else Some left) in
        let! x := expiry s !! index in
        let! y := expiry s !! child in
        if kleb x y then Some s
        else let! s := swap s index child in sift_down_loop fuel s child
  end.

Definition sift_down (s : RecentProbes) (index : nat) : option RecentProbes :=
  sift_down_loop (S (length (expiry s) - index)) s index.

Definition remove_at (s : RecentProbes) (index : nat) : option RecentProbes :=
  let! r := swap_remove index (expiry s) in
  let '(removed, l) := r in
  let m := delete removed.2 (entries s) in
  if bool_decide (index < length l) then
    let! x := l !! index in
    let! m := set_index m x.2 index in
    let s := mk m l (capacity s) in
    if bool_decide (0 < index) then
      let! p := l !! ((index - 1) / 2) in
      if kltb x p then sift_up s index else sift_down s index
    else sift_down s index
  else Some (mk m l (capacity s)).

Definition record (s : RecentProbes) (a : SocketAddr) (expires_at : Instant)
  : option RecentProbes :=
  match entries s !! a with
  | Some e => Some (mk (<[a := mkProbe expires_at (heap_index e)]> (entries s)) (expiry s) (capacity s))
  | None =>
      let! s := (if bool_decide (size (entries s) = capacity s) then remove_at s 0 else Some s) in
      let heap_index := length (expiry s) in
      sift_up (mk (<[a := mkProbe expires_at heap_index]> (entries s))
                  (expiry s ++ [(expires_at, a)]) (capacity s)) heap_index
  end.

Definition remove (s : RecentProbes) (a : SocketAddr) : option RecentProbes :=
  match entries s !! a with
  | Some e => remove_at s (heap_index e)
  | None => Some s
  end.

Definition has_due (s : RecentProbes) (now : Instant) : bool :=
  match head (expiry s) with
  | Some (t, _) => bool_decide (t ≤ now)%Z
  | None => false
  end.

Fixpoint expire_loop (n : nat) (s : RecentProbes) (now : Instant) (removed : nat)
  : option (nat * RecentProbes) :=
  match n with
  | 0 => Some (removed, s)
  | S n =>
      match head (expiry s) with
      | None => Some (removed, s)
      | Some (check_at, a) =>
          if bool_decide (now < check_at)%Z then Some (removed, s)
          else
            let! e := entries s !! a in
            if bool_decide (expires_at e ≤ now)%Z
            then let! s := remove_at s 0 in expire_loop n s now (removed + 1)
            else let! s := sift_down (mk (entries s) (<[0 := (expires_at e, a)]> (expiry s)) (capacity s)) 0 in
                 expire_loop n s now removed
      end
  end.

Definition expire (s : RecentProbes) (now : Instant) : option (nat * RecentProbes) :=
  expire_loop 256 s now 0.

(** ** Well-formedness

    [deadline s a] is the abstract content: until when [a] counts as recently
    probed. *)

Definition deadline (s : RecentProbes) (a : SocketAddr) : option Instant :=
  expires_at <$> entries s !! a.

(** Map and heap index each other. *)
Definition idx_ok (s : RecentProbes) : Prop :=
  (∀ i t a, expiry s !! i = Some (t, a) → heap_index <$> entries s !! a = Some i)
  ∧ (∀ a e, entries s !! a = Some e → ∃ t, expiry s !! heap_index e = Some (t, a)).

(** A check time in the heap never exceeds the real deadline. *)
Definition lazy_ok (s : RecentProbes) : Prop :=
  ∀ t a, (t, a) ∈ expiry s → ∃ d, deadline s a = Some d ∧ (t ≤ d)%Z.

Definition wf (s : RecentProbes) : Prop :=
  idx_ok s ∧ lazy_ok s ∧ heap_ok (expiry s) ∧ 1 ≤ capacity s ∧ size (entries s) ≤ capacity s.

(** What rearranging the heap keeps. *)
Definition same (s s' : RecentProbes) : Prop :=
  idx_ok s' ∧ expiry s' ≡ₚ expiry s ∧ capacity s' = capacity s
  ∧ ∀ a, deadline s' a = deadline s a.

Lemma same_refl s : idx_ok s → same s s.
Proof. done. Qed.
Lemma same_trans s1 s2 s3 : same s1 s2 → same s2 s3 → same s1 s3.
Proof.
  intros (H1 & H2 & H3 & H4) (I1 & I2 & I3 & I4). split_and!; [done|by etrans|by etrans|].
  intros a. by rewrite I4.
Qed.

Lemma deadline_dom s s' : (∀ a, deadline s' a = deadline s a) → dom (entries s') = dom (entries s).
Proof.
  intros Hd. apply set_eq. intros a. rewrite !elem_of_dom. specialize (Hd a). unfold deadline in Hd.
  destruct (entries s' !! a), (entries s !! a); simplify_eq/=; naive_solver.
Qed.

Lemma same_wf_lazy s s' :
  same s s' → heap_ok (expiry s') → lazy_ok s → 1 ≤ capacity s → size (entries s) ≤ capacity s →
  wf s'.
Proof.
  intros (Hi' & Hp & Hc' & Hd) Hh' Hl Hc Hsz. split_and!; [done| |done|lia|].
  - intros t a Hin. rewrite Hd. apply Hl. by rewrite <-Hp.
  - rewrite <-size_dom, (deadline_dom s s') by done. rewrite size_dom. lia.
Qed.

(** The heap holds every key once. *)
Lemma idx_size s : idx_ok s → size (entries s) = length (expiry s).
Proof.
  intros [H1 H2]. rewrite <-size_dom. rewrite <-(length_fmap snd).
  rewrite <-(size_list_to_set (C:=gset SocketAddr)).
  - f_equal. apply set_eq. intros a. rewrite elem_of_dom, elem_of_list_to_set, list_elem_of_fmap.
    split.
    + intros [e He]. destruct (H2 a e He) as [t Ht]. exists (t, a).
      split; [done|]. by eapply list_elem_of_lookup_2.
    + intros ([t a'] & -> & [i Hi]%list_elem_of_lookup). apply H1 in Hi. simpl.
      destruct (entries s !! a'); naive_solver.
  - apply NoDup_fmap_2_strong; [|apply NoDup_alt].
    + intros [t a] [t' a'] [i Hi]%list_elem_of_lookup [j Hj]%list_elem_of_lookup Heq. simpl in Heq; subst.
      pose proof (H1 _ _ _ Hi). pose proof (H1 _ _ _ Hj). congruence.
    + intros i j [t a] Hi Hj. pose proof (H1 _ _ _ Hi). pose proof (H1 _ _ _ Hj). congruence.
Qed.

Lemma idx_unique s i j t t' a :
  idx_ok s → expiry s !! i = Some (t, a) → expiry s !! j = Some (t', a) → i = j.
Proof. intros [H1 _] Hi%H1 Hj%H1. congruence. Qed.

Lemma idx_entry s i t a :
  idx_ok s → expiry s !! i = Some (t, a) → ∃ d, entries s !! a = Some (mkProbe d i).
Proof.
  intros [H1 _] Hi%H1. destruct (entries s !! a) as [[d j]|]; simplify_eq/=. by exists d.
Qed.

Lemma swap_spec s left right :
  idx_ok s → left < length (expiry s) → right < length (expiry s) →
  ∃ s', swap s left right = Some s' ∧ same s s'
    ∧ list_swap left right (expiry s) = Some (expiry s').
Proof.
  intros Hok [[tl al] Hl]%lookup_lt_is_Some_2 [[tr ar] Hr]%lookup_lt_is_Some_2.
  destruct (list_swap left right (expiry s)) as [l|] eqn:Hs;
    [|by unfold list_swap in Hs; rewrite Hl, Hr in Hs].
  pose proof (λ k, list_swap_lookup _ _ _ _ k Hs) as Hlk.
  destruct (idx_entry _ _ _ _ Hok Hl) as [dl El]. destruct (idx_entry _ _ _ _ Hok Hr) as [dr Er].
  assert (left = right ↔ al = ar) as Hlr by (split; intros ->; [congruence|by eapply idx_unique]).
  assert (l !! left = Some (tr, ar)) as Hll by (rewrite Hlk; repeat case_decide; congruence).
  assert (l !! right = Some (tl, al)) as Hlr' by (rewrite Hlk; by repeat case_decide).
  unfold swap. rewrite Hs, Hll. unfold set_index; simpl. rewrite Er; simpl. rewrite Hlr'; simpl.
  assert (∃ i, <[ar:=mkProbe dr left]> (entries s) !! al = Some (mkProbe dl i)) as [i' Hi'].
  { destruct (decide (al = ar)) as [->|].
    - rewrite lookup_insert_eq. simplify_eq. eauto.
    - rewrite lookup_insert_ne by done. eauto. }
  rewrite Hi'; simpl. eexists; split; [done|]. split; [|done].
  split_and!; simpl.
  - split; simpl.
    + intros i t a. rewrite Hlk. case_decide; [|case_decide]; intros Hi; subst; simplify_eq.
      * by rewrite lookup_insert_eq.
      * rewrite lookup_insert_ne, lookup_insert_eq by naive_solver. done.
      * rewrite !lookup_insert_ne by (intros ->;
          match goal with H : i ≠ _ |- _ => solve [apply H; eapply idx_unique; eauto] end). by apply Hok in Hi.
    + intros a e. destruct (decide (a = al)) as [->|Hal].
      { rewrite lookup_insert_eq. intros [= <-]. eauto. }
      rewrite lookup_insert_ne by done. destruct (decide (a = ar)) as [->|Har].
      { rewrite lookup_insert_eq. intros [= <-]. eauto. }
      rewrite lookup_insert_ne by done. intros He. destruct (proj2 Hok _ _ He) as [t Ht].
      exists t. rewrite Hlk. repeat case_decide; congruence.
  - by eapply list_swap_perm.
  - done.
  - intros a. unfold deadline; simpl. destruct (decide (a = al)) as [->|Hal].
    { by rewrite lookup_insert_eq, El. }
    rewrite lookup_insert_ne by done. destruct (decide (a = ar)) as [->|Har].
    { by rewrite lookup_insert_eq, Er. }
    by rewrite lookup_insert_ne.
Qed.

Lemma same_length s s' : same s s' → length (expiry s') = length (expiry s).
Proof. intros (_ & Hp & _). by rewrite Hp. Qed.

(** Both sifts restore the heap with the fuel given: they never panic. *)
Lemma sift_up_loop_spec n s i :
  idx_ok s → heap_up (expiry s) i → i < length (expiry s) → i < n →
  ∃ s', sift_up_loop n s i = Some s' ∧ same s s' ∧ heap_ok (expiry s').
Proof.
  revert s i; induction n as [|n IH]; intros s i Hok Hh Hi Hn; [lia|]. cbn [sift_up_loop].
  case_bool_decide as H0; [|exists s; split_and!; eauto using same_refl].
  2:{ apply heap_up_0. by replace 0 with i by lia. }
  pose proof (parent_lt i H0) as Hlt. change ((i - 1) / 2) with (parent i).
  destruct (lookup_lt_is_Some_2 (expiry s) (parent i)) as [p Hp]; [lia|].
  destruct (lookup_lt_is_Some_2 (expiry s) i) as [x Hx]; [lia|].
  rewrite Hp, Hx. destruct (kleb p x) eqn:Hpx.
  { exists s; split_and!; eauto using same_refl. eapply heap_up_done; [done|].
    intros a b Ha Hb. simplify_eq. by rewrite Hpx. }
  destruct (swap_spec s (parent i) i) as (s1 & -> & Hs1 & Hsw); [done|lia|lia|].
  destruct (IH s1 (parent i)) as (s2 & -> & Hs2 & Hh2).
  - apply Hs1.
  - eapply sift_up_step; eauto. intros Hc. by rewrite Hpx in Hc.
  - rewrite (same_length _ _ Hs1). lia.
  - lia.
  - exists s2. eauto using same_trans.
Qed.

Lemma sift_up_spec s i :
  idx_ok s → heap_up (expiry s) i → i < length (expiry s) →
  ∃ s', sift_up s i = Some s' ∧ same s s' ∧ heap_ok (expiry s').
Proof. intros. apply sift_up_loop_spec; auto with lia. Qed.

Lemma sift_down_loop_spec n s i :
  idx_ok s → heap_down (expiry s) i → length (expiry s) - i < n →
  ∃ s', sift_down_loop n s i = Some s' ∧ same s s' ∧ heap_ok (expiry s').
Proof.
  revert s i; induction n as [|n IH]; intros s i Hok Hh Hn; [lia|]. cbn [sift_down_loop].
  case_bool_decide as Hlen.
  { exists s; split_and!; eauto using same_refl. eapply heap_down_done; [done|].
    intros c Hc Hpc x y _ Hy%lookup_lt_Some. apply parent_iff in Hpc; lia. }
  set (left := i * 2 + 1) in *.
  destruct (lookup_lt_is_Some_2 (expiry s) left) as [xl Hxl]; [lia|].
  assert (∃ ch y, expiry s !! ch = Some y ∧ 0 < ch ∧ parent ch = i
    ∧ (∀ c z, 0 < c → parent c = i → expiry s !! c = Some z → kleb y z)
    ∧ (if bool_decide (left + 1 < length (expiry s)) then
         let! xr := expiry s !! (left + 1) in let! xl := expiry s !! left in
         Some (if kltb xr xl then left + 1 else left)
       else Some left) = Some ch) as (ch & y & Hy & Hch & Hpc & Hmin & ->).
  { case_bool_decide as Hr.
    - destruct (lookup_lt_is_Some_2 (expiry s) (left + 1)) as [xr Hxr]; [lia|].
      rewrite Hxr, Hxl. destruct (kltb xr xl) eqn:Hk.
      + exists (left + 1), xr. split_and!; [done|lia|apply parent_iff; lia| |done].
        intros c z Hc Hcp Hz. apply parent_iff in Hcp; [|done].
        destruct Hcp as [->| ->].
        * replace (2 * i + 1) with left in Hz by lia. simplify_eq. apply kltb_kleb. by rewrite Hk.
        * replace (2 * i + 2) with (left + 1) in Hz by lia. simplify_eq. apply kleb_refl.
      + exists left, xl. split_and!; [done|lia|apply parent_iff; lia| |done].
        intros c z Hc Hcp Hz. apply parent_iff in Hcp; [|done].
        destruct Hcp as [->| ->].
        * replace (2 * i + 1) with left in Hz by lia. simplify_eq. apply kleb_refl.
        * replace (2 * i + 2) with (left + 1) in Hz by lia. simplify_eq.
          unfold kltb in Hk. destruct (kleb xl xr); done.
    - exists left, xl. split_and!; [done|lia|apply parent_iff; lia| |done].
      intros c z Hc Hcp Hz. apply parent_iff in Hcp; [|done].
      destruct Hcp as [->| ->].
      * replace (2 * i + 1) with left in Hz by lia. simplify_eq. apply kleb_refl.
      * apply lookup_lt_Some in Hz. lia. }
  pose proof (parent_lt ch Hch). pose proof (lookup_lt_Some _ _ _ Hy).
  destruct (lookup_lt_is_Some_2 (expiry s) i) as [x Hx]; [lia|].
  rewrite Hx, Hy. destruct (kleb x y) eqn:Hxy.
  { exists s; split_and!; eauto using same_refl. eapply heap_down_done; [done|].
    intros c Hc Hcp a b Ha Hb. simplify_eq.
    eapply kleb_trans; [by rewrite Hxy|eauto]. }
  destruct (swap_spec s i ch) as (s1 & -> & Hs1 & Hsw); [done|lia|lia|].
  destruct (IH s1 ch) as (s2 & -> & Hs2 & Hh2).
  - apply Hs1.
  - eapply sift_down_step; eauto. intros Hc. by rewrite Hxy in Hc.
  - rewrite (same_length _ _ Hs1). lia.
  - exists s2. eauto using same_trans.
Qed.

Lemma sift_down_spec s i :
  idx_ok s → heap_down (expiry s) i →
  ∃ s', sift_down s i = Some s' ∧ same s s' ∧ heap_ok (expiry s').
Proof. intros. apply sift_down_loop_spec; auto with lia. Qed.

(** Removing a heap slot removes exactly its endpoint. *)
Lemma remove_at_spec s i t a :
  idx_ok s → heap_ok (expiry s) → expiry s !! i = Some (t, a) →
  ∃ s', remove_at s i = Some s' ∧ idx_ok s' ∧ heap_ok (expiry s')
    ∧ capacity s' = capacity s ∧ (t, a) :: expiry s' ≡ₚ expiry s
    ∧ ∀ b, deadline s' b = if decide (b = a) then None else deadline s b.
Proof.
  intros Hok Hh Hi.
  destruct (swap_remove_Some _ _ _ Hi) as (y & l & Hsr & Hy & Hperm & Hlen & Hlk).
  pose proof (lookup_lt_Some _ _ _ Hi) as Hilt.
  unfold remove_at. rewrite Hsr. case_bool_decide as Hil.
  - assert (l !! i = Some y) as Hly by (rewrite Hlk; repeat case_decide; (done || lia)).
    rewrite Hly. destruct y as [ty b].
    destruct (idx_entry _ _ _ _ Hok Hy) as [d Hb].
    assert (b ≠ a) as Hba by (intros ->; pose proof (idx_unique _ _ _ _ _ _ Hok Hi Hy); lia).
    unfold set_index; cbn [snd]. rewrite lookup_delete_ne by done. rewrite Hb; cbn [expires_at].
    set (s1 := mk _ l (capacity s)).
    assert (idx_ok s1) as Hok1.
    { split; simpl.
      - intros k t' c. rewrite Hlk. case_decide; [done|]. case_decide; intros Hkc; simplify_eq.
        { by rewrite lookup_insert_eq. }
        rewrite lookup_insert_ne
          by (intros ->; pose proof (idx_unique _ _ _ _ _ _ Hok Hkc Hy); lia).
        rewrite lookup_delete_ne
          by (intros ->; pose proof (idx_unique _ _ _ _ _ _ Hok Hkc Hi); lia).
        by apply Hok in Hkc.
      - intros c e. destruct (decide (c = b)) as [->|Hcb].
        { rewrite lookup_insert_eq. intros [= <-]. by exists ty. }
        rewrite lookup_insert_ne by done. intros [Hca He]%lookup_delete_Some.
        destruct (proj2 Hok _ _ He) as [t' Ht']. exists t'.
        pose proof (lookup_lt_Some _ _ _ Ht'). rewrite Hlk. repeat case_decide; [|congruence|done].
        assert (heap_index e = length (expiry s) - 1) as Heq by lia. congruence. }
    assert (∀ k z, k ≠ i → l !! k = Some z → expiry s !! k = Some z) as Hk.
    { intros k z Hki. rewrite Hlk. by repeat case_decide. }
    assert (∀ c, deadline s1 c = if decide (c = a) then None else deadline s c) as Hd.
    { intros c. unfold deadline; simpl. destruct (decide (c = b)) as [->|].
      - rewrite lookup_insert_eq, Hb. by case_decide.
      - rewrite lookup_insert_ne by done. case_decide as Hca; [subst c|].
        + by rewrite lookup_delete_eq.
        + by rewrite lookup_delete_ne. }
    assert (∀ s', same s1 s' ∧ heap_ok (expiry s') → idx_ok s' ∧ heap_ok (expiry s')
      ∧ capacity s' = capacity s ∧ (t, a) :: expiry s' ≡ₚ expiry s
      ∧ ∀ b, deadline s' b = if decide (b = a) then None else deadline s b) as Hfin.
    { intros s' [(Hi' & Hp' & Hc' & Hd') Hh']. split_and!; [done|done|done| |].
      - by rewrite Hp'.
      - intros c. by rewrite Hd', Hd. }
    case_bool_decide as H0; [|destruct (sift_down_spec s1 i) as (s' & -> & Hs'); eauto].
    2:{ apply (heap_removed (expiry s) l i (ty, b)); auto with lia. }
    change ((i - 1) / 2) with (parent i). pose proof (parent_lt i H0).
    destruct (lookup_lt_is_Some_2 l (parent i)) as [p Hp]; [lia|]. rewrite Hp.
    destruct (kltb (ty, b) p) eqn:Hkp.
    + destruct (sift_up_spec s1 i) as (s' & -> & Hs'); eauto.
      apply (heap_removed_up (expiry s) l i (ty, b) p); auto with lia.
    + destruct (sift_down_spec s1 i) as (s' & -> & Hs'); eauto.
      apply (heap_removed (expiry s) l i (ty, b)); auto with lia. intros _ u v Hu Hv. simplify_eq.
      unfold kltb in Hkp. by destruct (kleb p (ty, b)).
  - assert (i = length (expiry s) - 1) as Hie by lia.
    eexists; split; [done|]. split_and!; [split|..]; simpl; [| | |done..|].
    + intros k t' c. rewrite Hlk. case_decide; [done|]. case_decide; [lia|]. intros Hkc.
      rewrite lookup_delete_ne
        by (intros ->; pose proof (idx_unique _ _ _ _ _ _ Hok Hkc Hi); lia).
      by apply Hok in Hkc.
    + intros c e [Hca He]%lookup_delete_Some. destruct (proj2 Hok _ _ He) as [t' Ht'].
      exists t'. pose proof (lookup_lt_Some _ _ _ Ht'). rewrite Hlk. repeat case_decide; [|lia|done].
      assert (heap_index e = i) by lia. congruence.
    + intros j Hj u v Hu Hv. pose proof (parent_lt j Hj).
      rewrite Hlk in Hu, Hv. repeat case_decide; try done; try lia. eapply (Hh j); eauto.
    + intros c. unfold deadline; simpl. case_decide as Hca; [subst c|].
      * by rewrite lookup_delete_eq.
      * by rewrite lookup_delete_ne.
Qed.

Lemma idx_deadline s t a : idx_ok s → (t, a) ∈ expiry s → is_Some (deadline s a).
Proof.
  intros Hok [i Hi]%list_elem_of_lookup. destruct (idx_entry _ _ _ _ Hok Hi) as [d Hd].
  unfold deadline. rewrite Hd. by eexists.
Qed.

Lemma remove_at_wf s i t a :
  wf s → expiry s !! i = Some (t, a) →
  ∃ s', remove_at s i = Some s' ∧ wf s' ∧ capacity s' = capacity s
    ∧ (t, a) :: expiry s' ≡ₚ expiry s
    ∧ ∀ b, deadline s' b = if decide (b = a) then None else deadline s b.
Proof.
  intros (Hok & Hlz & Hh & Hc & Hsz) Hi.
  destruct (remove_at_spec s i t a) as (s' & Hr & Hok' & Hh' & Hc' & Hp & Hd); [done..|].
  exists s'. split_and!; [done| |done..]. split_and!; [done| |done|lia|].
  - intros t' b Hin. pose proof (idx_deadline _ _ _ Hok' Hin) as Hs. rewrite Hd in *.
    case_decide; [by destruct Hs|]. apply Hlz. rewrite <-Hp. by constructor.
  - apply Permutation_length in Hp. simpl in Hp. rewrite idx_size in * by done. lia.
Qed.

Lemma contains_deadline s a now :
  contains s a now ↔ ∃ d, deadline s a = Some d ∧ (now < d)%Z.
Proof.
  unfold contains, deadline. destruct (entries s !! a) as [e|]; simpl; [|naive_solver].
  rewrite bool_decide_spec. naive_solver.
Qed.

Lemma new_wf n : wf (new n).
Proof.
  split_and!; [split| | |simpl; lia|simpl; rewrite map_size_empty; lia].
  - intros i t a Hi. done.
  - intros a e He. done.
  - intros t a Hin. by apply elem_of_nil in Hin.
  - intros j Hj x y Hx. done.
Qed.

Lemma remove_spec s a :
  wf s → ∃ s', remove s a = Some s' ∧ wf s' ∧ capacity s' = capacity s
    ∧ ∀ b, deadline s' b = if decide (b = a) then None else deadline s b.
Proof.
  intros Hwf. unfold remove. destruct (entries s !! a) as [e|] eqn:He.
  - destruct (proj2 (proj1 Hwf) _ _ He) as [t Ht].
    destruct (remove_at_wf s _ _ _ Hwf Ht) as (s' & ? & ? & ? & ? & ?). eauto 10.
  - exists s. split_and!; [done..|]. intros b. case_decide; [subst|done].
    unfold deadline. by rewrite He.
Qed.

(** Appending a fresh endpoint and sifting it up. *)
Lemma push_wf s a e :
  wf s → deadline s a = None → size (entries s) < capacity s →
  ∃ s', sift_up (mk (<[a := mkProbe e (length (expiry s))]> (entries s))
                  (expiry s ++ [(e, a)]) (capacity s)) (length (expiry s)) = Some s'
    ∧ wf s' ∧ capacity s' = capacity s
    ∧ ∀ b, deadline s' b = if decide (b = a) then Some e else deadline s b.
Proof.
  intros (Hok & Hlz & Hh & Hc & Hsz) Ha Hlt. set (n := length (expiry s)). set (s1 := mk _ _ _).
  assert (entries s !! a = None) as Hea by (unfold deadline in Ha; by destruct (entries s !! a)).
  assert (∀ b, deadline s1 b = if decide (b = a) then Some e else deadline s b) as Hd1.
  { intros b. unfold deadline; simpl. case_decide as Hb; [subst b|].
    - by rewrite lookup_insert_eq.
    - by rewrite lookup_insert_ne. }
  assert (∀ t b, (t, b) ∈ expiry s → b ≠ a) as Hne.
  { intros t b Hin ->. pose proof (idx_deadline _ _ _ Hok Hin) as Hs. rewrite Ha in Hs. by destruct Hs. }
  assert (idx_ok s1) as Hok1.
  { split; simpl.
    - intros i t b [Hi|[Hge Hi]]%lookup_app_Some.
      + rewrite lookup_insert_ne by (symmetry; by eapply Hne, list_elem_of_lookup_2).
        by apply Hok in Hi.
      + apply list_lookup_singleton_Some in Hi as [Hi0 [= <- <-]].
        rewrite lookup_insert_eq; simpl. f_equal. unfold n. lia.
    - intros b x. destruct (decide (b = a)) as [->|Hb].
      + rewrite lookup_insert_eq. intros [= <-]. exists e. simpl.
        unfold n. rewrite lookup_app_r by lia. by rewrite Nat.sub_diag.
      + rewrite lookup_insert_ne by done. intros Hx. destruct (proj2 Hok _ _ Hx) as [t Ht].
        exists t. by apply lookup_app_l_Some. }
  destruct (sift_up_spec s1 n) as (s' & Hs' & (Hok' & Hp' & Hc' & Hd') & Hh'); [done| | |].
  - split; simpl.
    + intros j Hj Hjn x y [Hx|[Hge Hx]]%lookup_app_Some [Hy|[Hge' Hy]]%lookup_app_Some.
      * by eapply (Hh j).
      * apply list_lookup_singleton_Some in Hy as [??]. unfold n in *. lia.
      * apply lookup_lt_Some in Hy. pose proof (parent_lt j Hj). lia.
      * apply list_lookup_singleton_Some in Hy as [??]. unfold n in *. lia.
    + intros c _ Hc0 Hpc x y Hx Hy%lookup_lt_Some. rewrite length_app in Hy; simpl in Hy.
      pose proof (parent_lt c Hc0). unfold n in *. lia.
  - simpl. rewrite length_app. simpl. unfold n. lia.
  - exists s'. split_and!; [done| |done|intros b; by rewrite Hd', Hd1].
    split_and!; [done| |done|simpl in Hc'; lia|].
    + intros t b Hin. rewrite Hp' in Hin. simpl in Hin. rewrite Hd', Hd1.
      apply elem_of_app in Hin as [Hin|Hin].
      * rewrite decide_False by eauto. by apply Hlz.
      * apply list_elem_of_singleton in Hin as [= -> ->]. rewrite decide_True by done. by exists e.
    + rewrite idx_size in * by done. rewrite Hp'. simpl. rewrite length_app; simpl.
      unfold s1 in Hc'; simpl in Hc'. lia.
Qed.

(** [record] on its three branches: refresh, insert, evict the earliest check
    and insert. *)
Lemma record_spec s a e :
  wf s → (∀ d, deadline s a = Some d → (d ≤ e)%Z) →
  ∃ s', record s a e = Some s' ∧ wf s' ∧ capacity s' = capacity s ∧ deadline s' a = Some e
    ∧ ((is_Some (deadline s a) ∨ size (entries s) < capacity s)
         ∧ (∀ b, b ≠ a → deadline s' b = deadline s b)
       ∨ deadline s a = None ∧ size (entries s) = capacity s ∧ ∃ t v, expiry s !! 0 = Some (t, v)
         ∧ ∀ b, b ≠ a → deadline s' b = if decide (b = v) then None else deadline s b).
Proof.
  intros Hwf Hmono. pose proof Hwf as (Hok & Hlz & Hh & Hc & Hsz).
  unfold record. destruct (entries s !! a) as [p|] eqn:Ha.
  - eexists; split; [done|]. assert (∀ b, deadline (mk (<[a:=mkProbe e (heap_index p)]> (entries s))
      (expiry s) (capacity s)) b = if decide (b = a) then Some e else deadline s b) as Hd.
    { intros b. unfold deadline; simpl. case_decide as Hb; [subst b|].
      - by rewrite lookup_insert_eq.
      - by rewrite lookup_insert_ne. }
    split_and!; [split_and!|..]; simpl; [split; simpl|..]; [| | |done|done| |done| |].
    + intros i t b Hi%Hok. destruct (decide (b = a)) as [->|].
      * rewrite lookup_insert_eq. rewrite Ha in Hi. done.
      * by rewrite lookup_insert_ne.
    + intros b x. destruct (decide (b = a)) as [->|].
      * rewrite lookup_insert_eq. intros [= <-]. exact (proj2 Hok _ _ Ha).
      * rewrite lookup_insert_ne by done. apply Hok.
    + intros t b Hin. rewrite Hd. destruct (Hlz _ _ Hin) as (d & Hdb & Hle). case_decide; [subst|eauto].
      exists e. split; [done|]. specialize (Hmono _ Hdb). lia.
    + rewrite map_size_insert_Some by eauto. done.
    + rewrite Hd. by rewrite decide_True.
    + left. split; [left; unfold deadline; by rewrite Ha|].
      intros b Hb. rewrite Hd. by rewrite decide_False.
  - assert (deadline s a = None) as Hda by (unfold deadline; by rewrite Ha).
    case_bool_decide as Hfull.
    + rewrite idx_size in Hfull by done.
      destruct (lookup_lt_is_Some_2 (expiry s) 0) as [[t v] H0]; [lia|].
      destruct (remove_at_wf s 0 t v Hwf H0) as (s1 & -> & Hwf1 & Hc1 & Hp1 & Hd1).
      destruct (push_wf s1 a e) as (s' & -> & Hwf' & Hc' & Hd'); [done| | |].
      * rewrite Hd1. by case_decide.
      * apply Permutation_length in Hp1. simpl in Hp1.
        rewrite idx_size by apply Hwf1. lia.
      * exists s'. split_and!; [done..|congruence| |].
        -- rewrite Hd'. by rewrite decide_True.
        -- right. rewrite idx_size by done. split_and!; [done..|]. exists t, v. split; [done|].
           intros b Hb. rewrite Hd'. by rewrite decide_False.
    + destruct (push_wf s a e) as (s' & -> & Hwf' & Hc' & Hd'); [done..|lia|].
      exists s'. split_and!; [done..| |].
      * rewrite Hd'. by rewrite decide_True.
      * left. split; [right; lia|]. intros b Hb. rewrite Hd'. by rewrite decide_False.
Qed.

(** Heap entries whose check time has come. *)
Definition due (s : RecentProbes) (now : Instant) : nat :=
  length (filter (λ p, (p.1 ≤ now)%Z) (expiry s)).

Lemma head_lookup {A} (l : list A) : head l = l !! 0.
Proof. by destruct l. Qed.

Lemma has_due_spec s now : wf s → has_due s now ↔ due s now ≠ 0.
Proof.
  intros (_ & _ & Hh & _). unfold has_due, due. rewrite head_lookup.
  destruct (expiry s !! 0) as [[t a]|] eqn:H0.
  - rewrite bool_decide_spec. split.
    + intros Hle Hz%nil_length_inv. destruct (expiry s) as [|p l]; simplify_eq/=.
      rewrite filter_cons_True in Hz by done. done.
    + intros Hnz. destruct (filter _ (expiry s)) as [|p l] eqn:Hf; [done|].
      assert (p ∈ filter (λ p, (p.1 ≤ now)%Z) (expiry s)) as Hin by (rewrite Hf; constructor).
      apply list_elem_of_filter in Hin as [Hp [i Hi]%list_elem_of_lookup].
      pose proof (heap_min _ _ _ _ Hh H0 Hi) as Hk. destruct p as [tp b]. simpl in Hp.
      unfold kleb, lex_leb in Hk. simpl in Hk. destruct (Z.compare_spec t tp); (done || lia).
  - assert (expiry s = []) as -> by (by destruct (expiry s)). naive_solver.
Qed.

Lemma expire_step s now t a :
  wf s → expiry s !! 0 = Some (t, a) → (t ≤ now)%Z →
  ∃ e, entries s !! a = Some e ∧
  if bool_decide (expires_at e ≤ now)%Z then
    ∃ s', remove_at s 0 = Some s' ∧ wf s' ∧ capacity s' = capacity s
      ∧ due s now = S (due s' now) ∧ size (entries s) = S (size (entries s'))
      ∧ ∀ b, deadline s' b = if decide (b = a) then None else deadline s b
  else
    ∃ s', sift_down (mk (entries s) (<[0 := (expires_at e, a)]> (expiry s)) (capacity s)) 0 = Some s'
      ∧ wf s' ∧ capacity s' = capacity s
      ∧ due s now = S (due s' now) ∧ size (entries s) = size (entries s')
      ∧ ∀ b, deadline s' b = deadline s b.
Proof.
  intros Hwf H0 Ht. pose proof Hwf as (Hok & Hlz & Hh & Hc & Hsz).
  destruct (idx_entry _ _ _ _ Hok H0) as [d Hd]. exists (mkProbe d 0). split; [done|]. simpl.
  case_bool_decide as Hdn.
  - destruct (remove_at_wf s 0 t a Hwf H0) as (s' & Hr & Hwf' & Hc' & Hp & Hdl).
    exists s'. split_and!; try done.
    + unfold due. rewrite <-Hp. by rewrite filter_cons_True.
    + rewrite !idx_size by (done || apply Hwf'). by rewrite <-Hp.
  - set (s1 := mk _ _ _).
    assert (∃ l, expiry s = (t, a) :: l) as [l Hl] by (destruct (expiry s); simplify_eq/=; eauto).
    assert (idx_ok s1) as Hok1.
    { split; simpl.
      - intros [|i] t' b; rewrite Hl; simpl; intros Hi; simplify_eq; [by rewrite Hd|].
        apply (proj1 Hok (S i) t'). by rewrite Hl.
      - intros b e He. destruct (proj2 Hok _ _ He) as [t' Ht']. rewrite Hl in *.
        destruct (heap_index e); simplify_eq/=; eauto. }
    destruct (sift_down_spec s1 0) as (s' & -> & Hsame & Hh'); [done| |].
    { split; [|lia]. simpl. intros j Hj Hpj x y Hx Hy.
      rewrite list_lookup_insert_ne in Hx by lia. rewrite list_lookup_insert_ne in Hy by lia.
      by eapply (Hh j). }
    pose proof Hsame as (Hok' & Hp' & Hc' & Hd'). exists s'. split_and!; try done.
    + apply (same_wf_lazy s1); [done|done| |done|done].
      intros t' b. simpl. rewrite Hl. simpl. intros [[= -> ->]|Hin]%elem_of_cons.
      * exists d. unfold deadline; simpl. by rewrite Hd.
      * apply Hlz. rewrite Hl. by constructor.
    + unfold due. rewrite Hp'. simpl. rewrite Hl. simpl. rewrite filter_cons_True by done.
      by rewrite filter_cons_False by (simpl; lia).
    + rewrite !idx_size by done. rewrite Hp'. simpl. by rewrite length_insert.
Qed.

Lemma expire_loop_spec n s now k :
  wf s → ∃ r s', expire_loop n s now k = Some (k + r, s') ∧ wf s' ∧ capacity s' = capacity s
    ∧ due s' now = due s now - n ∧ size (entries s) = r + size (entries s')
    ∧ ∀ b, deadline s' b = deadline s b
       ∨ deadline s' b = None ∧ ∃ d, deadline s b = Some d ∧ (d ≤ now)%Z.
Proof.
  revert s k; induction n as [|n IH]; intros s k Hwf; cbn [expire_loop].
  { exists 0, s. rewrite Nat.add_0_r, Nat.sub_0_r. eauto 10. }
  assert (¬ has_due s now → ∃ r s', Some (k, s) = Some (k + r, s') ∧ wf s' ∧ capacity s' = capacity s
    ∧ due s' now = due s now - S n ∧ size (entries s) = r + size (entries s')
    ∧ ∀ b, deadline s' b = deadline s b
       ∨ deadline s' b = None ∧ ∃ d, deadline s b = Some d ∧ (d ≤ now)%Z) as Hstop.
  { intros Hn. rewrite has_due_spec in Hn by done. exists 0, s. rewrite Nat.add_0_r.
    split_and!; eauto; lia. }
  destruct (head (expiry s)) as [[t a]|] eqn:H0;
    [|apply Hstop; unfold has_due; rewrite H0; by intros []].
  case_bool_decide as Hlt.
  { apply Hstop. unfold has_due. rewrite H0, bool_decide_spec. lia. }
  rewrite head_lookup in H0.
  destruct (expire_step s now t a) as (e & He & Hs); [done..|lia|]. rewrite He.
  assert (deadline s a = Some (expires_at e)) as Hda by (unfold deadline; by rewrite He).
  case_bool_decide as Hexp; destruct Hs as (s1 & -> & Hwf1 & Hc1 & Hdue & Hsz & Hd1).
  - destruct (IH s1 (k + 1) Hwf1) as (r & s' & -> & Hwf' & Hc' & Hdue' & Hsz' & Hd').
    exists (S r), s'. split_and!; [do 2 f_equal; lia|done|congruence|lia|lia|].
    intros b. specialize (Hd' b). specialize (Hd1 b). case_decide as Hb; [subst b|].
    + right. destruct Hd' as [Hd'|[Hd' _]]; (split; [congruence|eauto]).
    + rewrite Hd1 in Hd'. done.
  - destruct (IH s1 k Hwf1) as (r & s' & -> & Hwf' & Hc' & Hdue' & Hsz' & Hd').
    exists r, s'. split_and!; [done|done|congruence|lia|lia|].
    intros b. specialize (Hd' b). by rewrite Hd1 in Hd'.
Qed.

Lemma expire_spec s now :
  wf s → ∃ r s', expire s now = Some (r, s') ∧ wf s' ∧ capacity s' = capacity s
    ∧ due s' now = due s now - 256 ∧ size (entries s) = r + size (entries s')
    ∧ ∀ b, deadline s' b = deadline s b
       ∨ deadline s' b = None ∧ ∃ d, deadline s b = Some d ∧ (d ≤ now)%Z.
Proof. apply expire_loop_spec. Qed.

(** ** Refinement of a bounded map of deadlines *)

Inductive op := Record (a : SocketAddr) (e : Instant) | Remove (a : SocketAddr) | Expire (now : Instant).

Definition exec (s : RecentProbes) (o : op) : option RecentProbes :=
  match o with
  | Record a e => record s a e
  | Remove a => remove s a
  | Expire now => snd <$> expire s now
  end.

Fixpoint run (s : RecentProbes) (os : list op) : option RecentProbes :=
  match os with
  | [] => Some s
  | o :: os => let! s := exec s o in run s os
  end.

Definition abs (s : RecentProbes) : gmap SocketAddr Instant := expires_at <$> entries s.

(** The promise: a map with at most [cap] deadlines.  Only a full map forgets
    an unrelated endpoint, one per insertion; expiry forgets only endpoints
    whose deadline has passed. *)
Inductive astep (cap : nat) (m : gmap SocketAddr Instant) : op → gmap SocketAddr Instant → Prop :=
  | a_record a e :
      is_Some (m !! a) ∨ size m < cap → astep cap m (Record a e) (<[a := e]> m)
  | a_evict a e v :
      m !! a = None → size m = cap → is_Some (m !! v) →
      astep cap m (Record a e) (<[a := e]> (delete v m))
  | a_remove a : astep cap m (Remove a) (delete a m)
  | a_expire now m' :
      m' ⊆ m → (∀ a d, m !! a = Some d → m' !! a = None → (d ≤ now)%Z) →
      astep cap m (Expire now) m'.

Inductive asteps (cap : nat) : gmap SocketAddr Instant → list op → gmap SocketAddr Instant → Prop :=
  | as_nil m : asteps cap m [] m
  | as_cons m o m1 os m2 : astep cap m o m1 → asteps cap m1 os m2 → asteps cap m (o :: os) m2.

(** Deadlines given to [record] never go back: the actor passes [now + ttl]. *)
Fixpoint ordered (latest : Instant) (os : list op) : Prop :=
  match os with
  | [] => True
  | Record _ e :: os => (latest ≤ e)%Z ∧ ordered e os
  | _ :: os => ordered latest os
  end.

Lemma abs_lookup s a : abs s !! a = deadline s a.
Proof. unfold abs, deadline. by rewrite lookup_fmap. Qed.

Lemma abs_size s : size (abs s) = size (entries s).
Proof. apply map_size_fmap. Qed.

Lemma record_abs s a e :
  wf s → (∀ d, deadline s a = Some d → (d ≤ e)%Z) →
  ∃ s', record s a e = Some s' ∧ wf s' ∧ capacity s' = capacity s
    ∧ astep (capacity s) (abs s) (Record a e) (abs s').
Proof.
  intros Hwf Hm. pose proof Hwf as (Hok & _ & _ & _ & Hsz).
  destruct (record_spec s a e Hwf Hm) as (s' & Hr & Hwf' & Hc & Ha & Hb).
  exists s'. split_and!; [done..|]. destruct Hb as [[Hor Hb]|(Hna & Hfull & t & v & H0 & Hb)].
  - replace (abs s') with (<[a := e]> (abs s)).
    { constructor. by rewrite abs_lookup, abs_size. }
    apply map_eq. intros b. rewrite abs_lookup. destruct (decide (b = a)) as [->|Hba].
    + by rewrite lookup_insert_eq.
    + rewrite lookup_insert_ne, abs_lookup, Hb by done. done.
  - replace (abs s') with (<[a := e]> (delete v (abs s))).
    { constructor; rewrite ?abs_lookup, ?abs_size; [done..|].
      eapply idx_deadline; [done|]. by eapply list_elem_of_lookup_2. }
    apply map_eq. intros b. rewrite abs_lookup. destruct (decide (b = a)) as [->|Hba].
    + by rewrite lookup_insert_eq.
    + rewrite lookup_insert_ne by done. rewrite Hb by done. case_decide as Hbv; [subst b|].
      * by rewrite lookup_delete_eq.
      * by rewrite lookup_delete_ne, abs_lookup.
Qed.

Lemma remove_abs s a :
  wf s → ∃ s', remove s a = Some s' ∧ wf s' ∧ capacity s' = capacity s
    ∧ abs s' = delete a (abs s).
Proof.
  intros Hwf. destruct (remove_spec s a Hwf) as (s' & ? & ? & ? & Hd). exists s'. split_and!; [done..|].
  apply map_eq. intros b. rewrite abs_lookup, Hd. case_decide as Hb; [subst b|].
  - by rewrite lookup_delete_eq.
  - by rewrite lookup_delete_ne, abs_lookup.
Qed.

Lemma expire_abs s now :
  wf s → ∃ r s', expire s now = Some (r, s') ∧ wf s' ∧ capacity s' = capacity s
    ∧ astep (capacity s) (abs s) (Expire now) (abs s').
Proof.
  intros Hwf. destruct (expire_spec s now Hwf) as (r & s' & ? & ? & ? & _ & _ & Hd).
  exists r, s'. split_and!; [done..|]. constructor.
  - apply map_subseteq_spec. intros b d. rewrite !abs_lookup.
    destruct (Hd b) as [->|[-> _]]; naive_solver.
  - intros b d. rewrite !abs_lookup. intros Hb Hn. destruct (Hd b) as [Hs|(_ & d' & Hd' & Hle)];
      [congruence|]. by simplify_eq.
Qed.

Definition latest_ok (s : RecentProbes) (latest : Instant) : Prop :=
  ∀ a d, abs s !! a = Some d → (d ≤ latest)%Z.

Lemma exec_spec s o os latest :
  wf s → latest_ok s latest → ordered latest (o :: os) →
  ∃ s' latest', exec s o = Some s' ∧ wf s' ∧ capacity s' = capacity s
    ∧ astep (capacity s) (abs s) o (abs s') ∧ latest_ok s' latest' ∧ ordered latest' os.
Proof.
  intros Hwf Hl. destruct o as [a e|a|now]; simpl; intros Ho.
  - destruct Ho as [Hle Ho]. destruct (record_abs s a e Hwf) as (s' & ? & ? & ? & Hst).
    { intros d. rewrite <-abs_lookup. intros ?%Hl. lia. }
    exists s', e. split_and!; [done..| |done]. intros b d.
    inversion Hst; subst; rewrite lookup_insert_Some, ?lookup_delete_Some; intros Hb;
      destruct Hb as [[? ->]|Hb]; try lia; (etrans; [eapply Hl; naive_solver|done]).
  - destruct (remove_abs s a Hwf) as (s' & ? & ? & ? & Hab). exists s', latest.
    split_and!; [done..| | |done]; rewrite ?Hab; [constructor|].
    intros b d. rewrite Hab. intros [_ ?]%lookup_delete_Some. eauto.
  - destruct (expire_abs s now Hwf) as (r & s' & -> & ? & ? & Hst). exists s', latest.
    split_and!; [done..| |done]. inversion Hst; subst. intros b d Hb. eapply Hl, lookup_weaken; eauto.
Qed.

Lemma run_spec s os latest :
  wf s → latest_ok s latest → ordered latest os →
  ∃ s', run s os = Some s' ∧ wf s' ∧ asteps (capacity s) (abs s) os (abs s').
Proof.
  revert s latest. induction os as [|o os IH]; intros s latest Hwf Hl Ho.
  { exists s. split_and!; [done..|constructor]. }
  destruct (exec_spec s o os latest Hwf Hl Ho) as (s1 & l1 & He & Hwf1 & Hc & Hst & Hl1 & Ho1).
  destruct (IH s1 l1 Hwf1 Hl1 Ho1) as (s' & Hr & Hwf' & Hsts). exists s'.
  cbn [run]. rewrite He. split_and!; [done..|]. econstructor; [done|]. by rewrite <-Hc.
Qed.

(** C8: every sequence of [record], [remove] and [expire] calls on a fresh
    [RecentProbes], with record deadlines that never go back, runs without a
    panic (no index out of range, no failed unwrap, no endless sift), keeps
    the map, the heap order and the heap indices consistent, and refines a
    map of at most [max capacity 1] deadlines in which expiry forgets only
    endpoints whose deadline has passed. *)
Theorem recent_refines (cap : nat) (start : Instant) (os : list op) :
  ordered start os →
  ∃ s, run (new cap) os = Some s ∧ wf s ∧ asteps (cap `max` 1) ∅ os (abs s).
Proof.
  intros Ho. destruct (run_spec (new cap) os start) as (s & Hr & Hwf & Hst).
  - apply new_wf.
  - intros a d Ha. done.
  - done.
  - by exists s.
Qed.

Definition ex_ops : list op :=
  [Record (SocketAddrV4 1 2 3 4 5) 10; Record (SocketAddrV4 1 2 3 5 5) 12; Record (SocketAddrV4 1 2 3 4 5) 15;
   Expire 11; Record (SocketAddrV4 9 2 3 5 5) 15; Remove (SocketAddrV4 1 2 3 4 5)]%Z.

Lemma recent_refines_witness :
  ordered 0 ex_ops ∧ ∃ s, run (new 2) ex_ops = Some s ∧ wf s ∧ asteps 2 ∅ ex_ops (abs s).
Proof.
  assert (ordered 0 ex_ops) as Ho by (simpl; lia).
  split; [exact Ho|]. exact (recent_refines 2 0 ex_ops Ho).
Defined.

End RecentProbes.
