(* ===== verification/Pool.v ===== *)
(** * FIFO candidate pool ([NodePool] of [src/node_pool.rs])

    The queue of endpoints waiting for a first probe, with the set of queued
    addresses, the recently probed endpoints and the replacement budget.  The
    wall-clock cost of an expiry pass ([started.elapsed()]) is an input. *)

From S2P Require Import Prelude Net Float64 Budget Recent.

(** [AdmittedNew] is the source's constructor of the same stem. *)
Inductive AdmissionOutcome := AdmittedNew | Replaced | Duplicate | RateLimited | Invalid.

#[global] Instance AdmissionOutcome_eq_dec : EqDecision AdmissionOutcome.
Proof. solve_decision. Defined.

Module NodePool.

Record QueuedNode := mkQueued { node : NodeTuple; queued_at : Instant }.

Record NodePool := mk {
  queue : list QueuedNode;
  queued : gset SocketAddr;
  recent : RecentProbes.RecentProbes;
  recent_expired : nat;
  recent_expiry_micros : Z;
  recent_expiry_calls : Z;
  replacement_budget : RateBucket.RateBucket f64;
  recent_ttl : Duration;
  capacity : nat;
  warmed : bool;
}.

Definition with_queue (s : NodePool) q qd : NodePool :=
  mk q qd (recent s) (recent_expired s) (recent_expiry_micros s) (recent_expiry_calls s)
     (replacement_budget s) (recent_ttl s) (capacity s) (warmed s).
Definition with_recent (s : NodePool) r : NodePool :=
  mk (queue s) (queued s) r (recent_expired s) (recent_expiry_micros s) (recent_expiry_calls s)
     (replacement_budget s) (recent_ttl s) (capacity s) (warmed s).
Definition with_budget (s : NodePool) b : NodePool :=
  mk (queue s) (queued s) (recent s) (recent_expired s) (recent_expiry_micros s)
     (recent_expiry_calls s) b (recent_ttl s) (capacity s) (warmed s).
Definition with_warmed (s : NodePool) w : NodePool :=
  mk (queue s) (queued s) (recent s) (recent_expired s) (recent_expiry_micros s)
     (recent_expiry_calls s) (replacement_budget s) (recent_ttl s) (capacity s) w.

Definition new (capacity : nat) (replacements_per_minute : Z) (recent_ttl : Duration)
    (recent_capacity : nat) (now : Instant) : NodePool :=
  let capacity := capacity `max` 1 in
  let replacement_burst := Z.max (div_ceil replacements_per_minute 60) 1 in
  mk [] ∅ (RecentProbes.new recent_capacity) 0 0 0
     (RateBucket.per_minute replacements_per_minute replacement_burst true now)
     recent_ttl capacity false.

Definition pop_front_internal (s : NodePool) : option QueuedNode * NodePool :=
  match queue s with
  | [] => (None, s)
  | e :: q => (Some e, with_queue s q (queued s ∖ {[addr (node e)]}))
  end.

(** [elapsed]: the microseconds the pass took. *)
Definition expire_recent (s : NodePool) (now : Instant) (elapsed : Z) : option NodePool :=
  if RecentProbes.has_due (recent s) now then
    let! r := RecentProbes.expire (recent s) now in
    Some (mk (queue s) (queued s) r.2 (recent_expired s + r.1)
             (u64_saturating_add (recent_expiry_micros s) (Z.min elapsed u64_max))
             (recent_expiry_calls s + 1)
             (replacement_budget s) (recent_ttl s) (capacity s) (warmed s))
  else Some s.

Fixpoint prepare_loop (fuel : nat) (s : NodePool) (a : SocketAddr) (now : Instant)
    (elapsed : nat → Z) : option NodePool :=
  match fuel with
  | 0 => None
  | S fuel =>
      if bool_decide (RecentProbes.capacity (recent s) ≤ size (RecentProbes.entries (recent s)))
         && bool_decide (RecentProbes.entries (recent s) !! a = None)
         && RecentProbes.has_due (recent s) now
      then let! s := expire_recent s now (elapsed fuel) in prepare_loop fuel s a now elapsed
      else Some s
  end.

Definition prepare_recent_slot (s : NodePool) (a : SocketAddr) (now : Instant)
    (elapsed : nat → Z) : option NodePool :=
  let n := length (RecentProbes.expiry (recent s)) in
  let! s := expire_recent s now (elapsed (S n)) in
  prepare_loop (S n) s a now elapsed.

Definition admit_node (s : NodePool) (n : NodeTuple) (now : Instant) (elapsed : Z)
  : option (AdmissionOutcome * NodePool) :=
  if negb (is_valid_node_addr (addr n)) then Some (Invalid, s)
  else
    let! s := expire_recent s now elapsed in
    if bool_decide (addr n ∈ queued s) || RecentProbes.contains (recent s) (addr n) now
    then Some (Duplicate, s)
    else
      let '(granted, s) :=
        if warmed s
        then let '(g, b) := RateBucket.try_take_one (replacement_budget s) now in
             (g, with_budget s b)
        else (true, s) in
      if negb granted then Some (RateLimited, s)
      else
        let '(replaced, s) :=
          if bool_decide (capacity s ≤ length (queue s))
          then let '(e, s) := pop_front_internal s in (bool_decide (is_Some e), s)
          else (false, s) in
        let s := with_queue s (queue s ++ [mkQueued n now]) ({[addr n]} ∪ queued s) in
        let s := if bool_decide (capacity s ≤ length (queue s)) then with_warmed s true else s in
        Some (if replaced then Replaced else AdmittedNew, s).

Definition front (s : NodePool) : option NodeTuple := node <$> head (queue s).

Definition rotate_front_to_back (s : NodePool) : bool * NodePool :=
  if bool_decide (length (queue s) ≤ 1) then (false, s)
  else (true, with_queue s (rotate_left 1 (queue s)) (queued s)).

Definition take_front_for_probe (s : NodePool) (now : Instant) (elapsed : nat → Z)
  : option (option NodeTuple * NodePool) :=
  let '(e, s) := pop_front_internal s in
  match e with
  | None => Some (None, s)
  | Some e =>
      let expires_at := (now + recent_ttl s)%Z in
      let! s := prepare_recent_slot s (addr (node e)) now elapsed in
      let! r := RecentProbes.record (recent s) (addr (node e)) expires_at in
      Some (Some (node e), with_recent s r)
  end.

Definition restore_front (s : NodePool) (n : NodeTuple) (queued_at : Instant) : option NodePool :=
  let! r := RecentProbes.remove (recent s) (addr n) in
  let s := with_recent s r in
  Some (with_queue s (mkQueued n queued_at :: queue s) ({[addr n]} ∪ queued s)).

Definition contains_recent (s : NodePool) (a : SocketAddr) (now : Instant) (elapsed : Z)
  : option (bool * NodePool) :=
  let! s := expire_recent s now elapsed in
  Some (RecentProbes.contains (recent s) a now, s).

Definition record_probe (s : NodePool) (a : SocketAddr) (now : Instant) (elapsed : nat → Z)
  : option NodePool :=
  let expires_at := (now + recent_ttl s)%Z in
  let! s := prepare_recent_slot s a now elapsed in
  let! r := RecentProbes.record (recent s) a expires_at in
  Some (with_recent s r).

Definition len (s : NodePool) : nat := length (queue s).

Definition oldest_age (s : NodePool) (now : Instant) : Duration :=
  match head (queue s) with
  | Some e => age now (queued_at e)
  | None => 0
  end.

Definition recent_state (s : NodePool) : nat * nat * nat :=
  (size (RecentProbes.entries (recent s)), RecentProbes.capacity (recent s),
   length (RecentProbes.expiry (recent s))).

Definition take_recent_expiry_stats (s : NodePool) : (nat * Z * Z) * NodePool :=
  ((recent_expired s, recent_expiry_micros s, recent_expiry_calls s),
   mk (queue s) (queued s) (recent s) 0 0 0
      (replacement_budget s) (recent_ttl s) (capacity s) (warmed s)).

(** ** Invariant *)

Definition addrs (s : NodePool) : list SocketAddr := (λ e, addr (node e)) <$> queue s.

(** The set mirrors the queue, which holds every address once and never
    exceeds the capacity. *)
Definition queue_ok (s : NodePool) : Prop :=
  NoDup (addrs s) ∧ queued s = list_to_set (addrs s) ∧ length (queue s) ≤ capacity s
  ∧ 1 ≤ capacity s.

Definition wf (s : NodePool) : Prop := RecentProbes.wf (recent s) ∧ queue_ok s.

(** No deadline lies beyond what a probe at [now] would set. *)
Definition clock_le (s : NodePool) (now : Instant) : Prop :=
  RecentProbes.latest_ok (recent s) (now + recent_ttl s).

(** What maintenance of [recent] leaves alone. *)
Definition frame (s s' : NodePool) : Prop :=
  queue s' = queue s ∧ queued s' = queued s ∧ replacement_budget s' = replacement_budget s
  ∧ recent_ttl s' = recent_ttl s ∧ capacity s' = capacity s ∧ warmed s' = warmed s.

Definition only_expired (now : Instant) (r r' : RecentProbes.RecentProbes) : Prop :=
  RecentProbes.capacity r' = RecentProbes.capacity r ∧
  ∀ b, RecentProbes.deadline r' b = RecentProbes.deadline r b
    ∨ RecentProbes.deadline r' b = None ∧ ∃ d, RecentProbes.deadline r b = Some d ∧ (d ≤ now)%Z.

Lemma frame_refl s : frame s s.
Proof. done. Qed.
Lemma frame_trans s1 s2 s3 : frame s1 s2 → frame s2 s3 → frame s1 s3.
Proof. unfold frame. intros. destruct_and!. split_and!; congruence. Qed.
Lemma only_expired_refl now r : only_expired now r r.
Proof. split; [done|]. auto. Qed.
Lemma only_expired_trans now r1 r2 r3 :
  only_expired now r1 r2 → only_expired now r2 r3 → only_expired now r1 r3.
Proof.
  intros [Hc1 H1] [Hc2 H2]. split; [congruence|]. intros b.
  destruct (H1 b) as [E1|[E1 ?]], (H2 b) as [E2|[E2 ?]]; rewrite ?E1 in *; naive_solver.
Qed.

#[local] Hint Resolve frame_refl only_expired_refl : core.
#[local] Hint Resolve frame_trans only_expired_trans : core.

Lemma frame_queue_ok s s' : frame s s' → queue_ok s → queue_ok s'.
Proof. intros (Hq & Hqd & _ & _ & Hc & _). unfold queue_ok, addrs. by rewrite Hq, Hqd, Hc. Qed.

(** Expiry never changes what is recent at [now]. *)
Lemma only_expired_contains now r r' a :
  only_expired now r r' → RecentProbes.contains r' a now = RecentProbes.contains r a now.
Proof.
  intros [_ H]. apply eq_bool_prop_intro. rewrite !RecentProbes.contains_deadline.
  destruct (H a) as [->|(-> & d & -> & Hle)]; [done|]. split.
  - by intros (? & ? & ?).
  - intros (? & [= <-] & ?). lia.
Qed.

Lemma only_expired_latest now r r' t :
  only_expired now r r' → RecentProbes.latest_ok r t → RecentProbes.latest_ok r' t.
Proof.
  intros [_ H] Hl a d. rewrite RecentProbes.abs_lookup. intros Ha. apply (Hl a).
  rewrite RecentProbes.abs_lookup. destruct (H a) as [<-|[? _]]; congruence.
Qed.

Lemma expire_recent_spec s now el :
  RecentProbes.wf (recent s) →
  ∃ s', expire_recent s now el = Some s' ∧ frame s s' ∧ RecentProbes.wf (recent s')
    ∧ only_expired now (recent s) (recent s')
    ∧ RecentProbes.due (recent s') now = RecentProbes.due (recent s) now - 256.
Proof.
  intros Hwf. unfold expire_recent. destruct (RecentProbes.has_due (recent s) now) eqn:Hd.
  - destruct (RecentProbes.expire_spec _ now Hwf) as (r & r' & -> & Hwf' & Hc & Hdue & _ & Hdl).
    eexists; split; [done|]. simpl. done.
  - exists s. split_and!; auto. assert (¬ RecentProbes.has_due (recent s) now) as Hn by (rewrite Hd; auto).
    rewrite RecentProbes.has_due_spec in Hn by done. lia.
Qed.

Lemma prepare_loop_spec fuel s a now el :
  RecentProbes.wf (recent s) → RecentProbes.due (recent s) now < fuel →
  ∃ s', prepare_loop fuel s a now el = Some s' ∧ frame s s' ∧ RecentProbes.wf (recent s')
    ∧ only_expired now (recent s) (recent s')
    ∧ (size (RecentProbes.entries (recent s')) < RecentProbes.capacity (recent s')
       ∨ is_Some (RecentProbes.deadline (recent s') a) ∨ RecentProbes.due (recent s') now = 0).
Proof.
  revert s; induction fuel as [|fuel IH]; intros s Hwf Hdue; [lia|]. cbn [prepare_loop].
  case_bool_decide as Hfull; cbn [andb]; [|exists s; split_and!; auto; left; lia].
  case_bool_decide as Ha; cbn [andb].
  2:{ exists s. split_and!; auto. right; left. unfold RecentProbes.deadline.
      destruct (RecentProbes.entries (recent s) !! a); [by eexists|done]. }
  destruct (RecentProbes.has_due (recent s) now) eqn:Hd.
  - assert (RecentProbes.has_due (recent s) now) as Hn by (rewrite Hd; auto).
    rewrite RecentProbes.has_due_spec in Hn by done.
    destruct (expire_recent_spec s now (el fuel) Hwf) as (s1 & -> & Hf & Hwf1 & Ho & Hdue1).
    destruct (IH s1) as (s' & -> & Hf' & Hwf' & Ho' & Hres); [done|lia|].
    exists s'. split_and!; eauto.
  - exists s. split_and!; auto. right; right.
    assert (¬ RecentProbes.has_due (recent s) now) as Hn by (rewrite Hd; auto).
    rewrite RecentProbes.has_due_spec in Hn by done. lia.
Qed.

Lemma due_length r now : RecentProbes.due r now ≤ length (RecentProbes.expiry r).
Proof. apply length_filter. Qed.

Lemma prepare_recent_slot_spec s a now el :
  RecentProbes.wf (recent s) →
  ∃ s', prepare_recent_slot s a now el = Some s' ∧ frame s s' ∧ RecentProbes.wf (recent s')
    ∧ only_expired now (recent s) (recent s')
    ∧ (size (RecentProbes.entries (recent s')) < RecentProbes.capacity (recent s')
       ∨ is_Some (RecentProbes.deadline (recent s') a) ∨ RecentProbes.due (recent s') now = 0).
Proof.
  intros Hwf. unfold prepare_recent_slot. set (n := length _).
  destruct (expire_recent_spec s now (el (S n)) Hwf) as (s1 & -> & Hf & Hwf1 & Ho & Hdue).
  pose proof (due_length (recent s) now).
  destruct (prepare_loop_spec (S n) s1 a now el Hwf1) as (s' & -> & Hf' & Hwf' & Ho' & Hres).
  { unfold n. lia. }
  exists s'. split_and!; eauto.
Qed.

(** Without due checks every endpoint of the map is still recent. *)
Lemma no_due_live r now a d :
  RecentProbes.wf r → RecentProbes.due r now = 0 → RecentProbes.deadline r a = Some d → (now < d)%Z.
Proof.
  intros (Hok & Hlz & _) Hz Hd. unfold RecentProbes.deadline in Hd.
  destruct (RecentProbes.entries r !! a) as [e|] eqn:He; simplify_eq/=.
  destruct (proj2 Hok _ _ He) as [t Ht]. apply list_elem_of_lookup_2 in Ht.
  destruct (Hlz _ _ Ht) as (d & Hd & Hle). unfold RecentProbes.deadline in Hd. rewrite He in Hd.
  simplify_eq/=. destruct (decide (t ≤ now)%Z) as [Hle'|]; [|lia].
  apply nil_length_inv in Hz. assert ((t, a) ∈ filter (λ p : Z * SocketAddr, (p.1 ≤ now)%Z) (RecentProbes.expiry r)) as Hin.
  { by apply list_elem_of_filter. }
  rewrite Hz in Hin. by apply elem_of_nil in Hin.
Qed.

(** Marking [a] as probed, shared by [record_probe] and
    [take_front_for_probe]. *)
Lemma mark_probed s a now el :
  RecentProbes.wf (recent s) → clock_le s now →
  ∃ s1 r, prepare_recent_slot s a now el = Some s1
    ∧ RecentProbes.record (recent s1) a (now + recent_ttl s) = Some r
    ∧ frame s s1 ∧ RecentProbes.wf r ∧ clock_le (with_recent s1 r) now
    ∧ RecentProbes.deadline r a = Some (now + recent_ttl s)%Z
    ∧ ∀ b d, b ≠ a → RecentProbes.deadline (recent s) b = Some d → (now < d)%Z →
        RecentProbes.deadline r b = Some d
        ∨ RecentProbes.deadline r b = None
          ∧ size (RecentProbes.entries (recent s)) = RecentProbes.capacity (recent s)
          ∧ ∀ c d, RecentProbes.deadline (recent s) c = Some d → (now < d)%Z.
Proof.
  intros Hwf Hcl.
  destruct (prepare_recent_slot_spec s a now el Hwf) as (s1 & Hp & Hf & Hwf1 & Ho & Hres).
  pose proof (only_expired_latest _ _ _ _ Ho Hcl) as Hl1.
  destruct (RecentProbes.record_abs (recent s1) a (now + recent_ttl s) Hwf1)
    as (r & Hr & Hwfr & Hcr & Hst).
  { intros d. rewrite <-RecentProbes.abs_lookup. apply Hl1. }
  exists s1, r. pose proof Hf as (_ & _ & _ & Httl & _).
  assert (∀ b, RecentProbes.deadline r b = RecentProbes.abs r !! b) as Hdl
    by (intros; by rewrite RecentProbes.abs_lookup).
  split_and!; [done..| | |].
  - unfold clock_le. simpl. rewrite Httl. intros b d.
    inversion Hst; subst; rewrite lookup_insert_Some, ?lookup_delete_Some;
      (intros [[? ->]|?]; [lia|apply (Hl1 b); naive_solver]).
  - rewrite Hdl. inversion Hst; subst; by rewrite lookup_insert_eq.
  - intros b d Hba Hb Hlive. assert (RecentProbes.deadline (recent s1) b = Some d) as Hb1.
    { destruct Ho as [_ Ho]. destruct (Ho b) as [->|(_ & d' & Hd' & Hle)]; [done|].
      simplify_eq. lia. }
    rewrite Hdl. inversion Hst as [? ? Hor Heq|? ? v Hna Hsz Hv| |]; subst.
    + left. rewrite lookup_insert_ne by done. by rewrite RecentProbes.abs_lookup.
    + rewrite lookup_insert_ne by done. destruct (decide (b = v)) as [->|].
      2:{ left. by rewrite lookup_delete_ne, RecentProbes.abs_lookup. }
      right. rewrite lookup_delete_eq. split; [done|].
      rewrite RecentProbes.abs_lookup in Hna.
      rewrite RecentProbes.abs_size in Hsz. destruct Hres as [?|[Hs|Hz]]; [lia| |].
      { rewrite Hna in Hs. by destruct Hs. }
      assert (RecentProbes.abs (recent s1) ⊆ RecentProbes.abs (recent s)) as Hsub.
      { apply map_subseteq_spec. intros c x. rewrite !RecentProbes.abs_lookup.
        destruct Ho as [_ Ho]. destruct (Ho c) as [->|[-> _]]; done. }
      pose proof (proj1 Ho) as Hcap. destruct Hwf as (_ & _ & _ & _ & Hle).
      assert (RecentProbes.abs (recent s1) = RecentProbes.abs (recent s)) as Heq.
      { apply map_subseteq_size_eq; [done|]. rewrite !RecentProbes.abs_size. lia. }
      split.
      * rewrite <-(RecentProbes.abs_size (recent s)), <-Heq, RecentProbes.abs_size. lia.
      * intros c x. rewrite <-RecentProbes.abs_lookup, <-Heq, RecentProbes.abs_lookup.
        by apply no_due_live.
Qed.

(** ** Operations preserve the invariant *)

Lemma with_recent_frame s s1 r : frame s s1 → frame s (with_recent s1 r).
Proof. intros Hf. exact Hf. Qed.

Lemma pop_front_wf s : wf s → wf (pop_front_internal s).2.
Proof.
  intros Hwf. pose proof Hwf as [Hr (Hnd & Hqd & Hlen & Hc)]. unfold pop_front_internal.
  destruct (queue s) as [|e q] eqn:Hq; [done|]. split; [done|].
  unfold queue_ok, addrs in *. rewrite Hq in *. simpl in *. apply NoDup_cons in Hnd as [Hni Hnd].
  split_and!; [done| |lia|done]. rewrite Hqd. set_solver.
Qed.

Lemma push_front_wf s n t :
  wf s → addr n ∉ queued s → length (queue s) < capacity s →
  wf (with_queue s (mkQueued n t :: queue s) ({[addr n]} ∪ queued s)).
Proof.
  intros [Hr (Hnd & Hqd & Hlen & Hc)] Hni Hlt. split; [done|].
  unfold queue_ok, addrs in *. simpl. split_and!; [|by rewrite Hqd|lia|done].
  apply NoDup_cons. split; [|done]. rewrite Hqd in Hni. by rewrite elem_of_list_to_set in Hni.
Qed.

Lemma push_back_wf s n t :
  wf s → addr n ∉ queued s → length (queue s) < capacity s →
  wf (with_queue s (queue s ++ [mkQueued n t]) ({[addr n]} ∪ queued s)).
Proof.
  intros [Hr (Hnd & Hqd & Hlen & Hc)] Hni Hlt. split; [done|].
  unfold queue_ok, addrs in *. simpl. rewrite fmap_app. simpl. split_and!; [| | |done].
  - apply NoDup_app. split_and!; [done| |apply NoDup_singleton].
    intros x Hx ->%list_elem_of_singleton. apply Hni. rewrite Hqd. by apply elem_of_list_to_set.
  - rewrite Hqd, list_to_set_app_L. set_solver.
  - rewrite length_app. simpl. lia.
Qed.

Lemma take_front_cases s now el :
  wf s → clock_le s now →
  ∃ o s', take_front_for_probe s now el = Some (o, s') ∧ wf s' ∧ clock_le s' now
    ∧ recent_ttl s' = recent_ttl s ∧ capacity s' = capacity s
    ∧ match queue s with
      | [] => o = None ∧ s' = s
      | e :: q => o = Some (node e) ∧ queue s' = q ∧ addr (node e) ∉ queued s'
                  ∧ RecentProbes.deadline (recent s') (addr (node e)) = Some (now + recent_ttl s)%Z
      end.
Proof.
  intros Hwf Hcl. pose proof (pop_front_wf s Hwf) as Hwf1. unfold take_front_for_probe.
  unfold pop_front_internal in *. destruct (queue s) as [|e q] eqn:Hq; simpl in Hwf1.
  { exists None, s. done. }
  set (s0 := with_queue _ _ _) in *.
  destruct (mark_probed s0 (addr (node e)) now el) as (s1 & r & -> & Hr & Hf & Hwfr & Hcl' & Hd & _);
    [apply Hwf1|done|]. simpl in Hr |- *. rewrite Hr. eexists _, _. split; [done|].
  pose proof Hf as (Hq1 & Hqd1 & _ & Ht & Hc & _). simpl in *. split_and!; try done.
  - split; [done|]. by eapply frame_queue_ok, Hwf1.
  - rewrite Hqd1. set_solver.
Qed.

Lemma restore_front_wf s n t :
  wf s → addr n ∉ queued s → length (queue s) < capacity s →
  ∃ s', restore_front s n t = Some s' ∧ wf s' ∧ queue s' = mkQueued n t :: queue s
    ∧ RecentProbes.deadline (recent s') (addr n) = None
    ∧ recent_ttl s' = recent_ttl s
    ∧ ∀ l, RecentProbes.latest_ok (recent s) l → RecentProbes.latest_ok (recent s') l.
Proof.
  intros Hwf Hni Hlt. pose proof Hwf as [Hr Hq]. unfold restore_front.
  destruct (RecentProbes.remove_abs (recent s) (addr n) Hr) as (r & -> & Hwfr & Hc & Hab).
  eexists; split; [done|]. split_and!; [|done| |done|].
  - apply (push_front_wf (with_recent s r)); done.
  - simpl. by rewrite <-RecentProbes.abs_lookup, Hab, lookup_delete_eq.
  - simpl. intros l Hl b d. rewrite Hab. intros [_ ?]%lookup_delete_Some. eauto.
Qed.

Lemma rotate_front_wf s : wf s → wf (rotate_front_to_back s).2.
Proof.
  intros Hwf. pose proof Hwf as [Hr (Hnd & Hqd & Hlen & Hc)]. unfold rotate_front_to_back.
  case_bool_decide; [done|]. split; [done|]. unfold queue_ok, addrs in *. simpl.
  pose proof (rotate_left_Permutation 1 (queue s)) as Hp. rewrite Hp. by split_and!.
Qed.

Lemma record_probe_wf s a now el :
  wf s → clock_le s now →
  ∃ s', record_probe s a now el = Some s' ∧ wf s' ∧ clock_le s' now ∧ frame s s'
    ∧ RecentProbes.deadline (recent s') a = Some (now + recent_ttl s)%Z.
Proof.
  intros Hwf Hcl. unfold record_probe.
  destruct (mark_probed s a now el (proj1 Hwf) Hcl) as (s1 & r & -> & Hr & Hf & Hwfr & Hcl' & Hd & _).
  rewrite Hr. eexists; split; [done|]. split_and!; try done.
  split; [done|]. by eapply (frame_queue_ok s), Hwf.
Qed.

(** ** Admission *)

Definition fresh (s : NodePool) (a : SocketAddr) (now : Instant) : Prop :=
  is_valid_node_addr a ∧ a ∉ queued s ∧ ¬ RecentProbes.contains (recent s) a now.

Definition budget_grants (s : NodePool) (now : Instant) : bool :=
  negb (warmed s) || (RateBucket.try_take_one (replacement_budget s) now).1.

Definition admitted_as (s : NodePool) (n : NodeTuple) (now : Instant)
    (o : AdmissionOutcome) (s' : NodePool) : Prop :=
  match o with
  | Invalid => ¬ is_valid_node_addr (addr n) ∧ s' = s
  | Duplicate =>
      is_valid_node_addr (addr n)
      ∧ (addr n ∈ queued s ∨ RecentProbes.contains (recent s) (addr n) now)
      ∧ queue s' = queue s
  | RateLimited => fresh s (addr n) now ∧ ¬ budget_grants s now ∧ queue s' = queue s
  | AdmittedNew =>
      fresh s (addr n) now ∧ budget_grants s now ∧ length (queue s) < capacity s
      ∧ queue s' = queue s ++ [mkQueued n now]
  | Replaced =>
      fresh s (addr n) now ∧ budget_grants s now ∧ length (queue s) = capacity s
      ∧ queue s' = tail (queue s) ++ [mkQueued n now]
  end.

Lemma admit_cases s n now el :
  wf s → clock_le s now →
  ∃ o s', admit_node s n now el = Some (o, s') ∧ wf s' ∧ clock_le s' now ∧ admitted_as s n now o s'.
Proof.
  intros Hwf Hcl. unfold admit_node. destruct (is_valid_node_addr (addr n)) eqn:Hv; simpl.
  2:{ exists Invalid, s. split_and!; try done. simpl. rewrite Hv. naive_solver. }
  destruct (expire_recent_spec s now el (proj1 Hwf)) as (s1 & -> & Hf & Hr1 & Ho & _).
  pose proof Hf as (Hq & Hqd & Hb & Ht & Hc & Hw).
  pose proof (only_expired_latest _ _ _ _ Ho Hcl) as Hl. rewrite <-Ht in Hl.
  assert (wf s1) as Hwf1 by (split; [done|]; by eapply frame_queue_ok, Hwf).
  rewrite (only_expired_contains _ _ _ _ Ho), Hqd.
  case_bool_decide as Hin; simpl.
  { eexists _, _. split; [done|]. simpl. rewrite Hv. split_and!; auto. }
  destruct (RecentProbes.contains (recent s) (addr n) now) eqn:Hcon.
  { eexists _, _. split; [done|]. simpl. rewrite Hv, Hcon. split_and!; auto. }
  assert (fresh s (addr n) now) as Hfresh.
  { split_and!; [by rewrite Hv|done|rewrite Hcon; naive_solver]. }
  set (p := if warmed s1 then _ else _).
  assert (p.1 = budget_grants s now ∧ frame (with_budget s1 (replacement_budget p.2)) p.2
    ∧ recent p.2 = recent s1) as (Hg & Hf2 & Hr2).
  { subst p. unfold budget_grants. rewrite Hw, <-Hb. destruct (warmed s); simpl; [|done].
    destruct (RateBucket.try_take_one _ _) as [g b]. done. }
  destruct p as [g s2]. simpl in Hg, Hf2, Hr2. subst g.
  assert (wf s2) as Hwf2.
  { split; [by rewrite Hr2|]. eapply frame_queue_ok; [exact Hf2|apply Hwf1]. }
  destruct Hf2 as (Hq2 & Hqd2 & _ & Ht2 & Hc2 & Hw2). simpl in *.
  assert (clock_le s2 now) as Hcl2 by (unfold clock_le; rewrite Hr2, Ht2; exact Hl).
  destruct (budget_grants s now) eqn:Hg; simpl.
  2:{ eexists _, _. split; [done|]. split_and!; [done..|]. unfold admitted_as. rewrite Hg.
      split_and!; [done|naive_solver|congruence]. }
  pose proof Hwf2 as [_ (_ & Hqd2' & Hlen & Hcap)].
  case_bool_decide as Hfull; simpl.
  - pose proof (pop_front_wf s2 Hwf2) as Hwf3. unfold pop_front_internal in *.
    destruct (queue s2) as [|e q] eqn:Hq2e; [simpl in Hfull; lia|]. simpl in *.
    pose proof (push_back_wf (with_queue s2 q (queued s2 ∖ {[addr (node e)]})) n now Hwf3
      ltac:(simpl; rewrite Hqd2, Hqd; set_solver) ltac:(simpl; lia)) as Hwf4.
    eexists _, _. split; [done|]. split_and!.
    + by case_bool_decide.
    + by case_bool_decide.
    + unfold admitted_as; rewrite Hg; split_and!; [done..|rewrite <-Hq, <-Hc, <-Hq2, <-Hc2; simpl; lia|].
      rewrite <-Hq, <-Hq2. by case_bool_decide.
  - pose proof (push_back_wf s2 n now Hwf2 ltac:(by rewrite Hqd2, Hqd) ltac:(lia)) as Hwf4.
    eexists _, _. split; [done|]. split_and!.
    + by case_bool_decide.
    + by case_bool_decide.
    + unfold admitted_as; rewrite Hg; split_and!; [done..|rewrite <-Hq, <-Hc, <-Hq2, <-Hc2; simpl; lia|].
      rewrite <-Hq, <-Hq2. by case_bool_decide.
Qed.

(** ** Claims *)

(** On a well-formed pool [admit_node] never panics, keeps the pool
    well-formed, and classifies every candidate as the code means to: invalid
    addresses and known ones (queued, or probed less than the TTL ago) leave
    the queue alone; a fresh one needs a token only once the pool has been
    full; it goes to the back, at capacity in exchange for the oldest. *)
Theorem admit_correct (s : NodePool) (n : NodeTuple) (now : Instant) (elapsed : Z) :
  wf s → clock_le s now →
  ∃ o s', admit_node s n now elapsed = Some (o, s') ∧ wf s' ∧ admitted_as s n now o s'.
Proof.
  intros Hwf Hcl. destruct (admit_cases s n now elapsed Hwf Hcl) as (o & s' & ? & ? & _ & ?).
  by exists o, s'.
Qed.

Lemma pool_new_wf cap rpm ttl rcap now : wf (new cap rpm ttl rcap now).
Proof.
  split; [apply RecentProbes.new_wf|]. split_and!; simpl; [constructor|done|lia|lia].
Qed.

Lemma pool_new_clock cap rpm ttl rcap now t : clock_le (new cap rpm ttl rcap now) t.
Proof. intros a d Ha. done. Qed.

Lemma admit_correct_witness :
  let s := new 2 60 10 4 0 in
  let n := mkNode [1%Z] (SocketAddrV4 8 8 8 8 6881) in
  ∃ o s', admit_node s n 5 0 = Some (o, s') ∧ wf s' ∧ admitted_as s n 5 o s'.
Proof.
  apply (admit_correct (new 2 60 10 4 0) (mkNode [1%Z] (SocketAddrV4 8 8 8 8 6881)) 5 0).
  - apply pool_new_wf.
  - apply pool_new_clock.
Defined.

(** Probing the head never panics; it removes the head, and from then on
    the endpoint counts as recently probed for exactly the TTL.  A still
    recent endpoint is forgotten only when the recent table was full of
    endpoints that are all still recent: lazily refreshed deadlines never
    hide an expired one. *)
Theorem probe_keeps_recent (s : NodePool) (now : Instant) (elapsed : nat → Z) e q :
  wf s → clock_le s now → queue s = e :: q →
  ∃ s', take_front_for_probe s now elapsed = Some (Some (node e), s') ∧ wf s' ∧ queue s' = q
    ∧ (∀ t, RecentProbes.contains (recent s') (addr (node e)) t
            ↔ (t < now + recent_ttl s)%Z)
    ∧ ∀ b, RecentProbes.contains (recent s) b now → b ≠ addr (node e) →
        RecentProbes.contains (recent s') b now
        ∨ size (RecentProbes.entries (recent s)) = RecentProbes.capacity (recent s)
          ∧ ∀ c d, RecentProbes.deadline (recent s) c = Some d → (now < d)%Z.
Proof.
  intros Hwf Hcl Hq. pose proof (pop_front_wf s Hwf) as Hwf1.
  unfold take_front_for_probe, pop_front_internal in *. rewrite Hq in *. simpl in Hwf1.
  set (s0 := with_queue _ _ _) in *.
  destruct (mark_probed s0 (addr (node e)) now elapsed)
    as (s1 & r & -> & Hr & Hf & Hwfr & Hcl' & Hd & Hev); [apply Hwf1|done|]. simpl in Hr, Hd |- *.
  rewrite Hr. eexists. split; [done|]. split_and!; simpl.
  - split; [done|]. by eapply frame_queue_ok, Hwf1.
  - by destruct Hf.
  - intros t. rewrite RecentProbes.contains_deadline, Hd. naive_solver.
  - intros b (d & Hb & Hlt)%RecentProbes.contains_deadline Hne.
    destruct (Hev b d Hne Hb Hlt) as [Hk|(_ & Hsz & Hall)]; [left|right; done].
    apply RecentProbes.contains_deadline. eauto.
Qed.

Definition ex_pool : NodePool :=
  default (new 1 1 1 1 0) (snd <$> admit_node (new 2 60 10 4 0) (mkNode [1%Z] (SocketAddrV4 8 8 8 8 6881)) 5 0).

Lemma probe_keeps_recent_witness :
  let e := mkQueued (mkNode [1%Z] (SocketAddrV4 8 8 8 8 6881)) 5 in
  ∃ s', take_front_for_probe ex_pool 6 (λ _, 0%Z) = Some (Some (node e), s') ∧ wf s' ∧ queue s' = []
    ∧ (∀ t, RecentProbes.contains (recent s') (addr (node e)) t ↔ (t < 6 + recent_ttl ex_pool)%Z)
    ∧ ∀ b, RecentProbes.contains (recent ex_pool) b 6 → b ≠ addr (node e) →
        RecentProbes.contains (recent s') b 6
        ∨ size (RecentProbes.entries (recent ex_pool)) = RecentProbes.capacity (recent ex_pool)
          ∧ ∀ c d, RecentProbes.deadline (recent ex_pool) c = Some d → (6 < d)%Z.
Proof.
  apply (probe_keeps_recent ex_pool 6 (λ _, 0%Z) (mkQueued (mkNode [1%Z] (SocketAddrV4 8 8 8 8 6881)) 5) []).
  - destruct (admit_cases (new 2 60 10 4 0) (mkNode [1%Z] (SocketAddrV4 8 8 8 8 6881)) 5 0)
      as (o & s' & Ha & Hwf & _); [apply pool_new_wf|apply pool_new_clock|].
    unfold ex_pool. rewrite Ha. exact Hwf.
  - intros a d Ha. vm_compute in Ha. done.
  - vm_compute. reflexivity.
Defined.

(** *** Histories of a pool *)

Inductive op :=
  | Admit (n : NodeTuple)
  | TakeFront
  | TakeAndRestore
  | Rotate
  | Probe (a : SocketAddr)
  | Query (a : SocketAddr)
  | TakeStats.

Definition exec (s : NodePool) (o : op) (now : Instant) (elapsed : nat → Z) : option NodePool :=
  match o with
  | Admit n => let! r := admit_node s n now (elapsed 0) in Some r.2
  | TakeFront => let! r := take_front_for_probe s now elapsed in Some r.2
  | TakeAndRestore =>
      let! r := take_front_for_probe s now elapsed in
      match r.1 with
      | Some n => restore_front r.2 n now
      | None => Some r.2
      end
  | Rotate => Some (rotate_front_to_back s).2
  | Probe a => record_probe s a now elapsed
  | Query a => let! r := contains_recent s a now (elapsed 0) in Some r.2
  | TakeStats => Some (take_recent_expiry_stats s).2
  end.

Fixpoint run (s : NodePool) (os : list (op * Instant * (nat → Z))) : option NodePool :=
  match os with
  | [] => Some s
  | (o, now, elapsed) :: os => let! s := exec s o now elapsed in run s os
  end.

Fixpoint clocked (t : Instant) (os : list (op * Instant * (nat → Z))) : Prop :=
  match os with
  | [] => True
  | (_, now, _) :: os => (t ≤ now)%Z ∧ clocked now os
  end.

Lemma clock_le_mono s t t' : clock_le s t → (t ≤ t')%Z → clock_le s t'.
Proof. intros Hc Hle a d Ha. specialize (Hc a d Ha). lia. Qed.

Lemma pool_exec_wf s o now el :
  wf s → clock_le s now → ∃ s', exec s o now el = Some s' ∧ wf s' ∧ clock_le s' now.
Proof.
  intros Hwf Hcl. destruct o; simpl.
  - destruct (admit_cases s n now (el 0) Hwf Hcl) as (o & s' & -> & ? & ? & _). eauto.
  - destruct (take_front_cases s now el Hwf Hcl) as (o & s' & -> & ? & ? & _). eauto.
  - destruct (take_front_cases s now el Hwf Hcl) as (o & s1 & -> & Hwf1 & Hcl1 & Ht & Hc & Hcase).
    destruct (queue s) as [|e q] eqn:Hq; destruct Hcase as [-> Hcase]; simpl; [eauto|].
    destruct Hcase as (Hq1 & Hni & _).
    destruct (restore_front_wf s1 (node e) now) as (s' & -> & Hwf' & _ & _ & Ht' & Hl); [done..| |].
    { destruct Hwf as [_ (_ & _ & Hlen & _)]. rewrite Hq in Hlen. rewrite Hq1, Hc. simpl in Hlen. lia. }
    exists s'. split_and!; [done..|]. unfold clock_le. rewrite Ht'. by apply Hl.
  - eexists; split; [done|]. split; [by apply rotate_front_wf|].
    unfold rotate_front_to_back. by case_bool_decide.
  - destruct (record_probe_wf s a now el Hwf Hcl) as (s' & -> & ? & ? & _). eauto.
  - unfold contains_recent. destruct (expire_recent_spec s now (el 0) (proj1 Hwf))
      as (s' & -> & Hf & Hr & Ho & _). simpl. eexists; split; [done|]. split.
    + split; [done|]. by eapply frame_queue_ok, Hwf.
    + unfold clock_le. destruct Hf as (_ & _ & _ & -> & _). by eapply only_expired_latest.
  - eauto.
Qed.

Lemma expire_recent_capacity s now el s' : expire_recent s now el = Some s' → capacity s' = capacity s.
Proof. unfold expire_recent. intros. repeat case_match; by simplify_eq. Qed.

Lemma prepare_capacity s a now el s' : prepare_recent_slot s a now el = Some s' → capacity s' = capacity s.
Proof.
  unfold prepare_recent_slot. destruct (expire_recent _ _ _) as [s1|] eqn:H1; [|done].
  rewrite <-(expire_recent_capacity _ _ _ _ H1). generalize (S (length (RecentProbes.expiry (recent s)))) as n.
  clear H1. intros n; revert s1. induction n as [|n IH]; intros s1; simpl; [done|].
  destruct (_ && _); [|naive_solver]. destruct (expire_recent s1 now (el n)) as [s2|] eqn:H2; [|done].
  rewrite <-(expire_recent_capacity _ _ _ _ H2). apply IH.
Qed.

Lemma pool_exec_capacity s o now el s' : exec s o now el = Some s' → capacity s' = capacity s.
Proof.
  assert (∀ p, capacity (pop_front_internal p).2 = capacity p) as Hpop.
  { intros p. unfold pop_front_internal. by destruct (queue p). }
  assert (∀ p r, take_front_for_probe p now el = Some r → capacity r.2 = capacity p) as Htake.
  { intros p r. unfold take_front_for_probe. specialize (Hpop p).
    destruct (pop_front_internal p) as [[e|] p1]; simpl in Hpop; [|intros [= <-]; simpl; congruence].
    destruct (prepare_recent_slot _ _ _ _) as [s1|] eqn:H1; [|done].
    destruct (RecentProbes.record _ _ _); [|done]. intros [= <-]. simpl.
    apply prepare_capacity in H1. congruence. }
  destruct o; simpl.
  - unfold admit_node. destruct (negb _); [intros [= <-]; simpl; congruence|].
    destruct (expire_recent _ _ _) as [s1|] eqn:H1; [|done]. apply expire_recent_capacity in H1.
    destruct (_ || _); [intros [= <-]; simpl; congruence|].
    set (p := if warmed s1 then _ else _). assert (capacity p.2 = capacity s1) as Hp.
    { subst p. destruct (warmed s1); [|done]. by destruct (RateBucket.try_take_one _ _). }
    destruct p as [g s2]. simpl in Hp. destruct (negb g); [intros [= <-]; simpl; congruence|].
    set (q := if bool_decide _ then _ else _). assert (capacity q.2 = capacity s2) as Hq.
    { subst q. case_bool_decide; [|done]. specialize (Hpop s2). by destruct (pop_front_internal s2). }
    destruct q as [r s3]. simpl in Hq. intros [= <-]. case_bool_decide; simpl; congruence.
  - destruct (take_front_for_probe _ _ _) eqn:Ht; [|done]. intros [= <-]. by apply Htake.
  - destruct (take_front_for_probe _ _ _) as [[[n|] s1]|] eqn:Ht; [| |done]; apply Htake in Ht; simpl in *.
    + unfold restore_front. destruct (RecentProbes.remove _ _); [|done]. intros [= <-]. done.
    + intros [= <-]; congruence.
  - intros [= <-]. unfold rotate_front_to_back. by case_bool_decide.
  - unfold record_probe. destruct (prepare_recent_slot _ _ _ _) as [s1|] eqn:H1; [|done].
    destruct (RecentProbes.record _ _ _); [|done]. intros [= <-]. by apply prepare_capacity in H1.
  - unfold contains_recent. destruct (expire_recent _ _ _) as [s1|] eqn:H1; [|done].
    intros [= <-]. by apply expire_recent_capacity in H1.
  - by intros [= <-].
Qed.

(** No history of calls on a pool, with a clock that never goes back,
    panics or loops; the queue always holds each address once, mirrors the
    [queued] set and never exceeds its capacity. *)
Theorem pool_history_safe cap rpm ttl rcap t (os : list (op * Instant * (nat → Z))) :
  clocked t os →
  ∃ s, run (new cap rpm ttl rcap t) os = Some s
    ∧ NoDup (addrs s) ∧ queued s = list_to_set (addrs s) ∧ length (queue s) ≤ cap `max` 1.
Proof.
  intros Hcl.
  assert (∀ s, wf s → clock_le s t → ∃ s', run s os = Some s' ∧ wf s' ∧ capacity s' = capacity s) as Hrun.
  2:{ destruct (Hrun (new cap rpm ttl rcap t)) as (s & Hs & [_ (? & ? & ? & _)] & Hc);
        [apply pool_new_wf|apply pool_new_clock|]. simpl in Hc. exists s. rewrite <-Hc. done. }
  revert t Hcl. induction os as [|[[o now] el] os IH]; intros t Hcl s Hwf Hc; [by exists s|].
  destruct Hcl as [Hle Hcl]. destruct (pool_exec_wf s o now el Hwf) as (s1 & He & Hwf1 & Hc1).
  { by eapply clock_le_mono. }
  destruct (IH now Hcl s1 Hwf1 Hc1) as (s' & Hr & Hwf' & Hcap).
  exists s'. cbn [run]. rewrite He. split_and!; [done..|].
  rewrite Hcap. by eapply pool_exec_capacity.
Qed.

Definition ex_history : list (op * Instant * (nat → Z)) :=
  let a := mkNode [1%Z] (SocketAddrV4 8 8 8 8 6881) in
  let b := mkNode [2%Z] (SocketAddrV4 9 9 9 9 6881) in
  [(Admit a, 1%Z, λ _, 0%Z); (Admit b, 1%Z, λ _, 0%Z); (Rotate, 2%Z, λ _, 0%Z);
   (TakeAndRestore, 3%Z, λ _, 0%Z); (TakeFront, 4%Z, λ _, 7%Z); (Probe (addr a), 20%Z, λ _, 1%Z)].

Lemma pool_history_safe_witness :
  clocked 0 ex_history ∧
  ∃ s, run (new 1 60 10 1 0) ex_history = Some s
    ∧ NoDup (addrs s) ∧ queued s = list_to_set (addrs s) ∧ length (queue s) ≤ 1 `max` 1.
Proof.
  assert (clocked 0 ex_history) as Hc by (simpl; lia).
  split; [exact Hc|]. exact (pool_history_safe 1 60 10 1 0 ex_history Hc).
Defined.

End NodePool.
