(* ===== verification/Reservoir.v ===== *)
(** * Responsive nodes ([ResponsiveReservoir] of [src/node_pool.rs])

    A ring of slots with an address index, a set of delayed revisits and an
    intrusive doubly linked list of slots that may be revisited now.  The
    links live inside the slots, so the list operations are modelled as the
    pointer updates they are; the theorems recover the plain queue they
    implement. *)

From S2P Require Import Prelude Net.

Module ResponsiveReservoir.

Definition Key : Type := Z * Z * nat.

Record ResponsiveEntry := mkEntry {
  node : NodeTuple;
  expires_at : Instant;
  last_probe_at : Instant;
  last_success_at : Instant;
  failures : Z;
  blocked_until : option Instant;
  revisit_key : option Key;
  ready : bool;
  previous : option nat;
  next : option nat;
}.

Record ResponsiveReservoir := mk {
  slots : list (option ResponsiveEntry);
  index : gmap SocketAddr nat;
  write_cursor : nat;
  revisits : gset Key;
  revisit_sequence : Z;
  ready_head : option nat;
  ready_tail : option nat;
  ready_len : nat;
  ttl : Duration;
  revisit_interval : Duration;
  snapshot_prefix_cursor : nat;
  snapshot_member_cursors : list nat;
  sparse_prefixes : list Z;
  snapshot_links : list Z;
}.

(** *** Field updates *)

Definition set_slots (s : ResponsiveReservoir) x : ResponsiveReservoir :=
  mk x (index s) (write_cursor s) (revisits s) (revisit_sequence s) (ready_head s) (ready_tail s)
     (ready_len s) (ttl s) (revisit_interval s) (snapshot_prefix_cursor s)
     (snapshot_member_cursors s) (sparse_prefixes s) (snapshot_links s).
Definition set_index (s : ResponsiveReservoir) x : ResponsiveReservoir :=
  mk (slots s) x (write_cursor s) (revisits s) (revisit_sequence s) (ready_head s) (ready_tail s)
     (ready_len s) (ttl s) (revisit_interval s) (snapshot_prefix_cursor s)
     (snapshot_member_cursors s) (sparse_prefixes s) (snapshot_links s).
Definition set_cursor (s : ResponsiveReservoir) x : ResponsiveReservoir :=
  mk (slots s) (index s) x (revisits s) (revisit_sequence s) (ready_head s) (ready_tail s)
     (ready_len s) (ttl s) (revisit_interval s) (snapshot_prefix_cursor s)
     (snapshot_member_cursors s) (sparse_prefixes s) (snapshot_links s).
Definition set_revisits (s : ResponsiveReservoir) x q : ResponsiveReservoir :=
  mk (slots s) (index s) (write_cursor s) x q (ready_head s) (ready_tail s)
     (ready_len s) (ttl s) (revisit_interval s) (snapshot_prefix_cursor s)
     (snapshot_member_cursors s) (sparse_prefixes s) (snapshot_links s).
Definition set_ready (s : ResponsiveReservoir) h t n : ResponsiveReservoir :=
  mk (slots s) (index s) (write_cursor s) (revisits s) (revisit_sequence s) h t
     n (ttl s) (revisit_interval s) (snapshot_prefix_cursor s)
     (snapshot_member_cursors s) (sparse_prefixes s) (snapshot_links s).

Definition e_reply (e : ResponsiveEntry) n x t : ResponsiveEntry :=
  mkEntry n x (last_probe_at e) t (failures e) (blocked_until e) (revisit_key e) (ready e)
          (previous e) (next e).
Definition e_probe (e : ResponsiveEntry) t : ResponsiveEntry :=
  mkEntry (node e) (expires_at e) t (last_success_at e) (failures e) (blocked_until e)
          (revisit_key e) (ready e) (previous e) (next e).
Definition e_block (e : ResponsiveEntry) f b : ResponsiveEntry :=
  mkEntry (node e) (expires_at e) (last_probe_at e) (last_success_at e) f b
          (revisit_key e) (ready e) (previous e) (next e).
Definition e_key (e : ResponsiveEntry) k : ResponsiveEntry :=
  mkEntry (node e) (expires_at e) (last_probe_at e) (last_success_at e) (failures e)
          (blocked_until e) k (ready e) (previous e) (next e).
Definition e_links (e : ResponsiveEntry) r p n : ResponsiveEntry :=
  mkEntry (node e) (expires_at e) (last_probe_at e) (last_success_at e) (failures e)
          (blocked_until e) (revisit_key e) r p n.

(** [self.slots[slot].unwrap()] *)
Definition slot_entry (s : ResponsiveReservoir) (i : nat) : option ResponsiveEntry :=
  let! o := slots s !! i in o.

(** [f(self.slots[slot].as_mut().unwrap())] *)
Definition update (s : ResponsiveReservoir) (i : nat) (f : ResponsiveEntry → ResponsiveEntry)
  : option ResponsiveReservoir :=
  let! e := slot_entry s i in Some (set_slots s (<[i := Some (f e)]> (slots s))).

Definition new (capacity : nat) (ttl revisit_interval : Duration) : ResponsiveReservoir :=
  let capacity := capacity `max` 1 in
  mk (replicate capacity None) ∅ 0 ∅ 0 None None 0 ttl revisit_interval 0 (replicate 256 0)
     (Z.of_nat <$> seq 0 256) [].

Definition unschedule (s : ResponsiveReservoir) (slot : nat) : option ResponsiveReservoir :=
  let! entry := slot_entry s slot in
  let s := match revisit_key entry with
           | Some key => set_revisits s (revisits s ∖ {[key]}) (revisit_sequence s)
           | None => s
           end in
  let! s :=
    (if ready entry then
       let! s := match previous entry with
                 | Some p => update s p (λ e, e_links e (ready e) (previous e) (next entry))
                 | None => Some (set_ready s (next entry) (ready_tail s) (ready_len s))
                 end in
       let! s := match next entry with
                 | Some n => update s n (λ e, e_links e (ready e) (previous entry) (next e))
                 | None => Some (set_ready s (ready_head s) (previous entry) (ready_len s))
                 end in
       match ready_len s with
       | S n => Some (set_ready s (ready_head s) (ready_tail s) n)
       | 0 => None
       end
     else Some s) in
  update s slot (λ e, e_key (e_links e false None None) None).

Definition push_ready (s : ResponsiveReservoir) (slot : nat) : option ResponsiveReservoir :=
  let! s := update s slot (λ e, e_links e true (ready_tail s) None) in
  let! s := match ready_tail s with
            | Some tail => update s tail (λ e, e_links e (ready e) (previous e) (Some slot))
            | None => Some (set_ready s (Some slot) (ready_tail s) (ready_len s))
            end in
  Some (set_ready s (ready_head s) (Some slot) (ready_len s + 1)).

Definition enqueue_revisit (s : ResponsiveReservoir) (slot : nat) (when now : Instant)
  : option ResponsiveReservoir :=
  let! s := unschedule s slot in
  let! e := slot_entry s slot in
  let when := match blocked_until e with Some blocked => Z.max when blocked | None => when end in
  if bool_decide (when ≤ now)%Z then push_ready s slot
  else
    let key := (when, revisit_sequence s, slot) in
    let s := set_revisits s (revisits s) (u64_wrapping_add (revisit_sequence s) 1) in
    let! s := update s slot (λ e, e_key e (Some key)) in
    Some (set_revisits s ({[key]} ∪ revisits s) (revisit_sequence s)).

Definition record (s : ResponsiveReservoir) (n : NodeTuple) (now probed_at : Instant)
  : option ResponsiveReservoir :=
  match index s !! addr n with
  | Some slot =>
      let! entry := slot_entry s slot in
      let! s := update s slot (λ e, e_reply e n (now + ttl s) now) in
      if bool_decide (0 < failures entry)%Z then
        let! s := update s slot (λ e, e_block e 0 None) in
        enqueue_revisit s slot (last_probe_at entry + revisit_interval s) now
      else Some s
  | None =>
      let slot := write_cursor s in
      let! old := slots s !! slot in
      let! s :=
        match old with
        | Some old =>
            let! s := unschedule s slot in
            Some (set_index s (delete (addr (node old)) (index s)))
        | None => Some s
        end in
      let entry := mkEntry n (now + ttl s) probed_at now 0 None None false None None in
      let s := set_slots s (<[slot := Some entry]> (slots s)) in
      let s := set_index s (<[addr n := slot]> (index s)) in
      let! s := enqueue_revisit s slot (probed_at + revisit_interval s) now in
      Some (set_cursor s ((write_cursor s + 1) `mod` length (slots s)))
  end.

Fixpoint promote_loop (n : nat) (s : ResponsiveReservoir) (now : Instant)
  : option ResponsiveReservoir :=
  match n with
  | 0 => Some s
  | S n =>
      match set_first (revisits s) with
      | None => Some s
      | Some key =>
          if bool_decide (now < key.1.1)%Z then Some s
          else
            let s := set_revisits s (revisits s ∖ {[key]}) (revisit_sequence s) in
            let slot := key.2 in
            let! s := update s slot (λ e, e_key e None) in
            let! s := push_ready s slot in
            promote_loop n s now
      end
  end.

Fixpoint select_loop (n : nat) (s : ResponsiveReservoir) (now : Instant)
  : option (option NodeTuple * ResponsiveReservoir) :=
  match n with
  | 0 => Some (None, s)
  | S n =>
      match ready_head s with
      | None => Some (None, s)
      | Some slot =>
          let! s := unschedule s slot in
          let! entry := slot_entry s slot in
          if bool_decide (expires_at entry ≤ now)%Z then
            let s := set_index s (delete (addr (node entry)) (index s)) in
            select_loop n (set_slots s (<[slot := None]> (slots s))) now
          else Some (Some (node entry), s)
      end
  end.

Definition next_revisit (s : ResponsiveReservoir) (now : Instant)
  : option (option NodeTuple * ResponsiveReservoir) :=
  let! s := promote_loop 256 s now in
  select_loop 256 s now.

Definition record_probe (s : ResponsiveReservoir) (a : SocketAddr) (now : Instant)
  : option ResponsiveReservoir :=
  match index s !! a with
  | None => Some s
  | Some slot =>
      let! s := update s slot (λ e, e_probe e now) in
      enqueue_revisit s slot (now + revisit_interval s) now
  end.

Definition defer_revisit (s : ResponsiveReservoir) (a : SocketAddr) (retry_at now : Instant)
  : option ResponsiveReservoir :=
  match index s !! a with
  | None => Some s
  | Some slot =>
      let! entry := slot_entry s slot in
      enqueue_revisit s slot (Z.max retry_at (last_probe_at entry + revisit_interval s)) now
  end.

(** [(5u64 << (failures - 1)).min(60)] *)
Definition backoff_secs (failures : Z) : Z := Z.min (Z.shiftl 5 (failures - 1)) 60.

Definition record_failure (s : ResponsiveReservoir) (a : SocketAddr) (dispatched_at now : Instant)
  : option (bool * ResponsiveReservoir) :=
  match index s !! a with
  | None => Some (false, s)
  | Some slot =>
      let! entry := slot_entry s slot in
      if bool_decide (dispatched_at < last_success_at entry)%Z then Some (false, s)
      else
        let f := Z.min (Z.min u8_max (failures entry + 1)) 5 in
        let blocked := (now + from_secs (backoff_secs f))%Z in
        let! s := update s slot (λ e, e_block e f (Some blocked)) in
        let eligible_at := Z.max (last_probe_at entry + revisit_interval s) blocked in
        let! s := enqueue_revisit s slot eligible_at now in
        Some (true, s)
  end.

Definition is_backing_off (s : ResponsiveReservoir) (a : SocketAddr) (now : Instant)
  : option bool :=
  match index s !! a with
  | None => Some false
  | Some slot =>
      let! o := slots s !! slot in
      Some match o with
           | Some e =>
               match blocked_until e with Some d => bool_decide (now < d)%Z | None => false end
           | None => false
           end
  end.

(** ** Representation

    The links of the ready slots spell out a list [l]. *)

Definition dll (s : ResponsiveReservoir) (l : list nat) : Prop :=
  NoDup l ∧ ready_head s = head l ∧ ready_tail s = last l ∧ ready_len s = length l
  ∧ (∀ i e, slot_entry s i = Some e → ready e = bool_decide (i ∈ l))
  ∧ (∀ l1 i l2, l = l1 ++ i :: l2 →
       ∃ e, slot_entry s i = Some e ∧ previous e = last l1 ∧ next e = head l2).

(** A delayed slot and its key in the tree name each other; a slot waits in
    one place only. *)
Definition keys_ok (s : ResponsiveReservoir) : Prop :=
  (∀ key, key ∈ revisits s → ∃ e, slot_entry s key.2 = Some e ∧ revisit_key e = Some key)
  ∧ (∀ i e key, slot_entry s i = Some e → revisit_key e = Some key → key ∈ revisits s ∧ key.2 = i)
  ∧ (∀ i e, slot_entry s i = Some e → ready e → revisit_key e = None).

Definition index_ok (s : ResponsiveReservoir) : Prop :=
  ∀ a i, index s !! a = Some i ↔ ∃ e, slot_entry s i = Some e ∧ addr (node e) = a.

(** An entry without its links, and without its schedule. *)
Definition unlinked (e : ResponsiveEntry) : ResponsiveEntry := e_links e false None None.
Definition idle (e : ResponsiveEntry) : ResponsiveEntry := e_key (unlinked e) None.

(** What scheduling leaves alone. *)
Definition rest (s : ResponsiveReservoir) :=
  (index s, write_cursor s, ttl s, revisit_interval s, length (slots s),
   (snapshot_prefix_cursor s, snapshot_member_cursors s, sparse_prefixes s, snapshot_links s)).

Lemma slot_entry_insert s i o j :
  i < length (slots s) →
  slot_entry (set_slots s (<[i := o]> (slots s))) j = if decide (j = i) then o else slot_entry s j.
Proof.
  intros Hi. unfold slot_entry. simpl. case_decide as Hj; [subst j|].
  - by rewrite list_lookup_insert_eq.
  - by rewrite list_lookup_insert_ne.
Qed.

Lemma slot_entry_lt s i e : slot_entry s i = Some e → i < length (slots s).
Proof. unfold slot_entry. intros H. destruct (slots s !! i) eqn:E; [|done]. by eapply lookup_lt_Some. Qed.

Lemma update_spec s i f e :
  slot_entry s i = Some e →
  ∃ s', update s i f = Some s' ∧ s' = set_slots s (slots s')
    ∧ length (slots s') = length (slots s)
    ∧ ∀ j, slot_entry s' j = if decide (j = i) then Some (f e) else slot_entry s j.
Proof.
  intros He. unfold update. rewrite He. eexists; split; [done|]. simpl. split_and!.
  - done.
  - by rewrite length_insert.
  - intros j. apply slot_entry_insert. by eapply slot_entry_lt.
Qed.

Lemma slot_entry_slots s s' : slots s' = slots s → ∀ j, slot_entry s' j = slot_entry s j.
Proof. intros H j. unfold slot_entry. by rewrite H. Qed.

(** Links of slot [j] once a slot between [p] and [n] is taken out. *)
Definition relink (p n : option nat) (j : nat) (e : ResponsiveEntry) : ResponsiveEntry :=
  e_links e (ready e) (if decide (n = Some j) then p else previous e)
          (if decide (p = Some j) then n else next e).

Lemma relink_None_l j e : relink None None j e = e.
Proof. by destruct e. Qed.

Lemma dll_entry s l i : dll s l → i ∈ l → ∃ e, slot_entry s i = Some e ∧ ready e = true.
Proof.
  intros (_ & _ & _ & _ & Hr & Hl) Hi. pose proof Hi as (l1 & l2 & ->)%list_elem_of_split.
  destruct (Hl l1 i l2 eq_refl) as (e & He & _). exists e. split; [done|].
  rewrite (Hr _ _ He). by apply bool_decide_eq_true.
Qed.

Lemma last_head_elem {A} (l : list A) x : last l = Some x ∨ head l = Some x → x ∈ l.
Proof.
  intros [H|H]; [by eapply last_Some_elem_of|]. destruct l; simplify_eq/=. constructor.
Qed.

(** The branch of [unschedule] for a ready slot. *)
Lemma unlink_ready s l1 l2 i e :
  dll s (l1 ++ i :: l2) → slot_entry s i = Some e → revisit_key e = None →
  ∃ s', unschedule s i = Some s' ∧ ready_head s' = head (l1 ++ l2)
    ∧ ready_tail s' = last (l1 ++ l2) ∧ ready_len s' = length (l1 ++ l2)
    ∧ revisits s' = revisits s ∧ revisit_sequence s' = revisit_sequence s ∧ rest s' = rest s
    ∧ ∀ j, slot_entry s' j = if decide (j = i) then Some (idle e)
                             else relink (last l1) (head l2) j <$> slot_entry s j.
Proof.
  intros Hd He Hk. pose proof Hd as (Hnd & Hh & Ht & Hlen & Hr & Hl).
  destruct (Hl l1 i l2 eq_refl) as (e' & He' & Hp & Hn). simplify_eq.
  apply NoDup_app in Hnd as (Hnd1 & Hdisj & Hnd2). apply NoDup_cons in Hnd2 as [Hi2 Hnd2].
  assert (i ∉ l1) as Hi1 by (intros Hin; apply (Hdisj _ Hin); constructor).
  unfold unschedule. rewrite He, Hk.
  replace (ready e) with true by (symmetry; rewrite (Hr _ _ He); apply bool_decide_eq_true; set_solver).
  rewrite Hp, Hn.
  assert (∃ s1, match last l1 with
      | Some p => update s p (λ e, e_links e (ready e) (previous e) (head l2))
      | None => Some (set_ready s (head l2) (ready_tail s) (ready_len s)) end = Some s1
    ∧ ready_head s1 = head (l1 ++ l2) ∧ ready_tail s1 = ready_tail s ∧ ready_len s1 = ready_len s
    ∧ revisits s1 = revisits s ∧ revisit_sequence s1 = revisit_sequence s ∧ rest s1 = rest s
    ∧ ∀ j, slot_entry s1 j = (λ e, e_links e (ready e) (previous e)
         (if decide (last l1 = Some j) then head l2 else next e)) <$> slot_entry s j)
    as (s1 & -> & Hh1 & Ht1 & Hlen1 & Hrv1 & Hsq1 & Hrest1 & He1).
  { destruct (last l1) as [p|] eqn:Hlast.
    - assert (p ∈ l1) as Hpin by (apply last_head_elem; auto).
      destruct (dll_entry s _ p Hd) as (ep & Hep & _); [set_solver|].
      destruct (update_spec s p (λ e, e_links e (ready e) (previous e) (head l2)) ep Hep)
        as (s1 & -> & Hs1 & Hls & Hes).
      exists s1. split; [done|]. rewrite Hs1 in *. simpl in *. split_and!; try done.
      + rewrite Hh. destruct l1; done.
      + unfold rest. simpl. by rewrite Hls.
      + intros j. rewrite Hes. case_decide as Hj; [subst j|].
        * rewrite Hep. simpl. by rewrite decide_True.
        * destruct (slot_entry s j) as [[]|]; [|done]. simpl. by rewrite decide_False by congruence.
    - apply last_None in Hlast as ->. eexists; split; [done|]. split_and!; try done.
      intros j. change (slot_entry (set_ready s (head l2) (ready_tail s) (ready_len s)) j) with (slot_entry s j).
      by destruct (slot_entry s j) as [[]|]. }
  assert (∃ s2, match head l2 with
      | Some n => update s1 n (λ e, e_links e (ready e) (last l1) (next e))
      | None => Some (set_ready s1 (ready_head s1) (last l1) (ready_len s1)) end = Some s2
    ∧ ready_head s2 = head (l1 ++ l2) ∧ ready_tail s2 = last (l1 ++ l2) ∧ ready_len s2 = ready_len s
    ∧ revisits s2 = revisits s ∧ revisit_sequence s2 = revisit_sequence s ∧ rest s2 = rest s
    ∧ ∀ j, slot_entry s2 j = relink (last l1) (head l2) j <$> slot_entry s j)
    as (s2 & -> & Hh2 & Ht2 & Hlen2 & Hrv2 & Hsq2 & Hrest2 & He2).
  { destruct (head l2) as [n|] eqn:Hhead.
    - assert (n ∈ l2) as Hnin by (apply last_head_elem; auto).
      destruct (dll_entry s _ n Hd) as (en & Hen & _); [set_solver|].
      pose proof (He1 n) as Hen1. rewrite Hen in Hen1. simpl in Hen1.
      destruct (update_spec s1 n (λ e, e_links e (ready e) (last l1) (next e)) _ Hen1)
        as (s2 & -> & Hs2 & Hls & Hes).
      exists s2. split; [done|]. rewrite Hs2 in *. simpl in *. split_and!; try done.
      + rewrite Ht1, Ht. destruct l2 as [|x l2]; [done|]. by rewrite !last_app_cons, last_cons_cons.
      + unfold rest in *. simpl. rewrite Hls. exact Hrest1.
      + intros j. rewrite Hes. unfold relink. destruct (decide (j = n)) as [->|Hj].
        * rewrite Hen. simpl. by rewrite (decide_True (P := Some n = Some n)).
        * rewrite He1. destruct (slot_entry s j) as [[]|]; [|done]. simpl.
          by rewrite (decide_False (P := Some n = Some j)) by congruence.
    - destruct l2; [|done]. eexists; split; [done|]. rewrite app_nil_r in *. split_and!; try done. }
  rewrite Hlen2, Hlen, length_app. simpl. rewrite Nat.add_succ_r. simpl.
  pose proof (He2 i) as Hei. rewrite He in Hei. simpl in Hei.
  destruct (update_spec (set_ready s2 (ready_head s2) (ready_tail s2) (length l1 + length l2)) i
    (λ e, e_key (e_links e false None None) None) (relink (last l1) (head l2) i e))
    as (s3 & -> & Hs3 & Hls3 & He3); [done|].
  exists s3. split; [done|]. rewrite Hs3 in *. simpl in *. rewrite length_app. split_and!; try done.
  - unfold rest in *. simpl. rewrite Hls3. exact Hrest2.
  - intros j. rewrite He3. case_decide; [by destruct e|]. apply He2.
Qed.

Lemma app_cons_split {A} (l1 l2 m1 m2 : list A) j :
  l1 ++ l2 = m1 ++ j :: m2 →
  (∃ k, l1 = m1 ++ j :: k ∧ m2 = k ++ l2) ∨ (∃ k, m1 = l1 ++ k ∧ l2 = k ++ j :: m2).
Proof.
  revert m1; induction l1 as [|x l1 IH]; intros m1; simpl.
  - intros ->. right. by exists m1.
  - destruct m1 as [|y m1]; simpl; intros [= -> H].
    + left. by exists l1.
    + destruct (IH _ H) as [(k & -> & ->)|(k & -> & ->)]; [left|right]; by exists k.
Qed.

Lemma head_app {A} (l1 l2 : list A) : l1 ≠ [] → head (l1 ++ l2) = head l1.
Proof. by destruct l1. Qed.
Lemma last_app_ne {A} (l1 l2 : list A) : l2 ≠ [] → last (l1 ++ l2) = last l2.
Proof. destruct l2; [done|]. intros _. by rewrite last_app_cons. Qed.

(** Taking a slot out of the linked list. *)
Lemma unlink_dll s s' l1 l2 i e :
  dll s (l1 ++ i :: l2) → ready_head s' = head (l1 ++ l2) →
  ready_tail s' = last (l1 ++ l2) → ready_len s' = length (l1 ++ l2) →
  (∀ j, slot_entry s' j = if decide (j = i) then Some (idle e)
                          else relink (last l1) (head l2) j <$> slot_entry s j) →
  dll s' (l1 ++ l2).
Proof.
  intros (Hnd & _ & _ & _ & Hr & Hl) Hh Ht Hlen He.
  pose proof Hnd as (Hnd1 & Hdisj & Hnd2)%NoDup_app. apply NoDup_cons in Hnd2 as [Hi2 Hnd2].
  assert (i ∉ l1) as Hi1 by (intros Hin; apply (Hdisj _ Hin); constructor).
  assert (NoDup (l1 ++ l2)) as Hnd'.
  { apply NoDup_app. split_and!; [done| |done]. intros x Hx Hx2. apply (Hdisj x Hx). by constructor. }
  split_and!; [done..| |].
  - intros j ej. rewrite He. case_decide as Hj.
    + intros [= <-]. subst j. simpl. symmetry. apply bool_decide_eq_false. rewrite elem_of_app. tauto.
    + destruct (slot_entry s j) as [e0|] eqn:E0; [|done]. intros [= <-]. simpl.
      rewrite (Hr _ _ E0). apply bool_decide_ext. rewrite !elem_of_app, elem_of_cons. naive_solver.
  - intros m1 j m2 Hm. rewrite Hm in Hnd'. apply NoDup_app in Hnd' as (_ & Hdm & [Hjm2 _]%NoDup_cons).
    assert (j ∉ m1) as Hjm1 by (intros Hin; apply (Hdm _ Hin); constructor).
    assert (j ≠ i) as Hji.
    { intros ->. assert (i ∈ l1 ++ l2) as Hin by (rewrite Hm; set_solver).
      apply elem_of_app in Hin. tauto. }
    rewrite He, decide_False by done.
    destruct (app_cons_split _ _ _ _ _ Hm) as [(k & -> & ->)|(k & -> & ->)].
    + destruct (Hl m1 j (k ++ i :: l2)) as (ej & Hej & Hp & Hn); [by rewrite <-app_assoc|].
      rewrite Hej. simpl. eexists; split; [done|]. unfold relink; simpl. split.
      * rewrite decide_False; [done|]. intros Hc. apply (Hdisj j); [set_solver|].
        apply elem_of_cons; right. apply last_head_elem; auto.
      * rewrite last_app_cons. destruct k as [|y k]; simpl.
        { by rewrite decide_True. }
        rewrite decide_False; [by rewrite Hn|]. intros Hc. apply Hjm2.
        apply elem_of_app; left. apply last_head_elem. left. exact Hc.
    + destruct (Hl (l1 ++ i :: k) j m2) as (ej & Hej & Hp & Hn); [by rewrite <-app_assoc|].
      rewrite Hej. simpl. eexists; split; [done|]. unfold relink; simpl. split.
      * destruct k as [|y k]; simpl.
        { by rewrite decide_True, app_nil_r. }
        rewrite decide_False.
        { rewrite Hp. rewrite !last_app_cons, last_cons_cons. done. }
        intros [= ->]. apply Hjm1. set_solver.
      * rewrite decide_False; [done|]. intros Hc. apply Hjm1, elem_of_app; left.
        apply last_head_elem; auto.
Qed.

Lemma filter_notin (l : list nat) i : i ∉ l → filter (λ j, j ≠ i) l = l.
Proof.
  intros Hl. induction l as [|x l IH]; [done|]. apply not_elem_of_cons in Hl as [??].
  rewrite filter_cons_True by done. by rewrite IH.
Qed.

Lemma filter_split l1 l2 (i : nat) :
  NoDup (l1 ++ i :: l2) → filter (λ j, j ≠ i) (l1 ++ i :: l2) = l1 ++ l2.
Proof.
  intros (_ & Hd & [Hi _]%NoDup_cons)%NoDup_app. rewrite filter_app, filter_cons_False by naive_solver.
  rewrite !filter_notin; [done|done|]. intros Hin. apply (Hd _ Hin). constructor.
Qed.

(** What every scheduling step on slot [i] guarantees. *)
Definition touches (s : ResponsiveReservoir) (i : nat) (s' : ResponsiveReservoir) : Prop :=
  rest s' = rest s
  ∧ (∀ j, j ≠ i → unlinked <$> slot_entry s' j = unlinked <$> slot_entry s j).

Lemma keys_ok_idle s s' i e :
  keys_ok s → slot_entry s i = Some e →
  slot_entry s' i = Some (idle e) →
  (∀ j, j ≠ i → unlinked <$> slot_entry s' j = unlinked <$> slot_entry s j) →
  (∀ j e0 e', j ≠ i → slot_entry s j = Some e0 → slot_entry s' j = Some e' → ready e' = ready e0) →
  revisits s' = filter (λ k, k.2 ≠ i) (revisits s) →
  keys_ok s'.
Proof.
  intros (H1 & H2 & H3) He He' Hj Hrd Hrv.
  assert (∀ j e', j ≠ i → slot_entry s' j = Some e' →
    ∃ e0, slot_entry s j = Some e0 ∧ revisit_key e' = revisit_key e0 ∧ ready e' = ready e0) as Hk.
  { intros j e' Hne Hje. specialize (Hj j Hne). rewrite Hje in Hj.
    destruct (slot_entry s j) as [e0|] eqn:E0; [|done]. apply (inj Some) in Hj. exists e0.
    split_and!; [done| |by eapply Hrd]. by apply (f_equal revisit_key) in Hj. }
  split_and!.
  - intros key. rewrite Hrv. intros [Hne (e0 & He0 & Hk0)%H1]%elem_of_filter.
    specialize (Hj _ Hne). rewrite He0 in Hj. destruct (slot_entry s' key.2) as [e'|] eqn:E'; [|done].
    exists e'. split; [done|]. destruct (Hk _ _ Hne E') as (e1 & ? & ? & _). simplify_eq. congruence.
  - intros j e' key Hje Hkey. destruct (decide (j = i)) as [->|Hne].
    { rewrite He' in Hje. by simplify_eq/=. }
    destruct (Hk _ _ Hne Hje) as (e0 & He0 & Hk0 & _). rewrite Hk0 in Hkey.
    destruct (H2 _ _ _ He0 Hkey) as [Hin <-]. split; [|done]. rewrite Hrv. by apply elem_of_filter.
  - intros j e' Hje Hr. destruct (decide (j = i)) as [->|Hne].
    { rewrite He' in Hje. by simplify_eq/=. }
    destruct (Hk _ _ Hne Hje) as (e0 & He0 & Hk0 & Hr0). rewrite Hk0. rewrite Hr0 in Hr. eauto.
Qed.

Lemma unschedule_spec s l i e :
  dll s l → keys_ok s → slot_entry s i = Some e →
  ∃ s', unschedule s i = Some s' ∧ dll s' (filter (λ j, j ≠ i) l) ∧ keys_ok s'
    ∧ slot_entry s' i = Some (idle e) ∧ touches s i s'
    ∧ revisits s' = filter (λ k, k.2 ≠ i) (revisits s) ∧ revisit_sequence s' = revisit_sequence s.
Proof.
  intros Hd Hk He. pose proof Hk as (H1 & H2 & H3). destruct (decide (i ∈ l)) as [Hin|Hin].
  - pose proof Hin as (l1 & l2 & ->)%list_elem_of_split.
    destruct (dll_entry _ _ _ Hd Hin) as (e' & He' & Hr). simplify_eq.
    assert (revisit_key e = None) as Hkn by (eapply H3; [done|]; by rewrite Hr).
    destruct (unlink_ready s l1 l2 i e Hd He Hkn) as (s' & Hu & Hh & Ht & Hlen & Hrv & Hsq & Hrest & Hes).
    pose proof (unlink_dll _ _ _ _ _ _ Hd Hh Ht Hlen Hes) as Hd'.
    assert (slot_entry s' i = Some (idle e)) as Hei by (rewrite Hes; by rewrite decide_True).
    assert (∀ j, j ≠ i → unlinked <$> slot_entry s' j = unlinked <$> slot_entry s j) as Hun.
    { intros j Hj. rewrite Hes, decide_False by done. by destruct (slot_entry s j). }
    assert (revisits s' = filter (λ k, k.2 ≠ i) (revisits s)) as Hrv'.
    { rewrite Hrv. symmetry. apply set_eq. intros k. rewrite elem_of_filter. split; [tauto|].
      intros Hin'. split; [|done]. intros <-. destruct (H1 _ Hin') as (e0 & ? & ?). congruence. }
    exists s'. rewrite filter_split by apply Hd. split_and!; try done.
    eapply (keys_ok_idle s); eauto. intros j e0 e' Hj Hj0. rewrite Hes, decide_False, Hj0 by done.
    by intros [= <-].
  - pose proof Hd as (Hnd & Hh & Ht & Hlen & Hr & Hl). unfold unschedule. rewrite He.
    set (s0 := match revisit_key e with Some key => _ | None => s end).
    assert (slots s0 = slots s ∧ rest s0 = rest s ∧ revisit_sequence s0 = revisit_sequence s
      ∧ ready_head s0 = ready_head s ∧ ready_tail s0 = ready_tail s ∧ ready_len s0 = ready_len s
      ∧ revisits s0 = filter (λ k, k.2 ≠ i) (revisits s)) as (Hsl & Hre & Hsq & Hh0 & Ht0 & Hl0 & Hrv0).
    { subst s0. destruct (revisit_key e) as [key|] eqn:Hke; simpl; split_and!; try done.
      - destruct (H2 _ _ _ He Hke) as [Hkin Hki]. apply set_eq. intros k.
        rewrite elem_of_difference, elem_of_singleton, elem_of_filter. split.
        + intros [Hkk Hne]. split; [|done]. intros Hki'. apply Hne.
          destruct (H1 _ Hkk) as (e0 & ? & ?). congruence.
        + intros [Hne Hkk]. split; [done|]. congruence.
      - apply set_eq. intros k. rewrite elem_of_filter. split; [|tauto]. intros Hkk. split; [|done].
        intros <-. destruct (H1 _ Hkk) as (e0 & ? & ?). congruence. }
    replace (ready e) with false by (symmetry; rewrite (Hr _ _ He); by apply bool_decide_eq_false).
    pose proof (slot_entry_slots s s0 Hsl) as Hse. clearbody s0.
    destruct (update_spec s0 i (λ e, e_key (e_links e false None None) None) e) as (s' & -> & Hs' & Hls & Hes).
    { by rewrite Hse. }
    assert (slot_entry s' i = Some (idle e)) as Hei by (rewrite Hes; by rewrite decide_True).
    assert (∀ j, j ≠ i → slot_entry s' j = slot_entry s j) as Hj.
    { intros j Hne. rewrite Hes, decide_False by done. apply Hse. }
    exists s'. rewrite filter_notin by done.
    assert (rest s' = rest s) as Hrest.
    { unfold rest in *. rewrite Hs' in *. simpl in *. rewrite Hls. exact Hre. }
    assert (revisits s' = filter (λ k, k.2 ≠ i) (revisits s)) as Hrv by (rewrite Hs'; done).
    split_and!; try done.
    + rewrite Hs' in *. simpl in *. split_and!; simpl; try congruence.
      * intros j ej Hje. destruct (decide (j = i)) as [->|Hne].
        -- rewrite Hei in Hje. simplify_eq/=. symmetry. by apply bool_decide_eq_false.
        -- rewrite Hj in Hje by done. by apply Hr.
      * intros l1 j l2 ->. destruct (Hl l1 j l2 eq_refl) as (ej & Hje & ?). exists ej.
        rewrite Hj; [done|]. intros ->. apply Hin. set_solver.
    + apply (keys_ok_idle s s' i e); [done|done|done| | |done].
      * intros j Hne. by rewrite Hj.
      * intros j e0 e' Hne Hj0. rewrite Hj by done. congruence.
    + split; [done|]. intros j Hne. by rewrite Hj.
    + rewrite Hs'. simpl. done.
Qed.

Lemma unlinked_entry s s' j e' :
  unlinked <$> slot_entry s' j = unlinked <$> slot_entry s j → slot_entry s' j = Some e' →
  ∃ e, slot_entry s j = Some e ∧ unlinked e' = unlinked e.
Proof.
  intros Hu Hj. rewrite Hj in Hu. destruct (slot_entry s j) as [e|]; [|done].
  apply (inj Some) in Hu. eauto.
Qed.

Lemma push_ready_spec s l i e :
  dll s l → keys_ok s → slot_entry s i = Some e → i ∉ l → revisit_key e = None →
  ∃ s', push_ready s i = Some s' ∧ dll s' (l ++ [i]) ∧ keys_ok s'
    ∧ (∀ j, unlinked <$> slot_entry s' j = unlinked <$> slot_entry s j)
    ∧ rest s' = rest s ∧ revisits s' = revisits s ∧ revisit_sequence s' = revisit_sequence s.
Proof.
  intros Hd (H1 & H2 & H3) He Hi Hk. pose proof Hd as (Hnd & Hh & Ht & Hlen & Hr & Hl). unfold push_ready.
  destruct (update_spec s i (λ e, e_links e true (ready_tail s) None) e He) as (s1 & -> & Hs1 & Hls1 & He1).
  assert (ready_tail s1 = last l) as Ht1 by (rewrite Hs1; done).
  rewrite Ht1.
  assert (∃ s2, match last l with
      | Some tail => update s1 tail (λ e, e_links e (ready e) (previous e) (Some i))
      | None => Some (set_ready s1 (Some i) (last l) (ready_len s1)) end = Some s2
    ∧ ready_head s2 = head (l ++ [i]) ∧ ready_len s2 = length l ∧ rest s2 = rest s
    ∧ revisits s2 = revisits s ∧ revisit_sequence s2 = revisit_sequence s
    ∧ ∀ j, slot_entry s2 j = if decide (j = i) then Some (e_links e true (last l) None)
        else (λ e, e_links e (ready e) (previous e)
               (if decide (last l = Some j) then Some i else next e)) <$> slot_entry s j)
    as (s2 & -> & Hh2 & Hlen2 & Hrest2 & Hrv2 & Hsq2 & He2).
  { destruct (last l) as [t|] eqn:Hlast.
    - assert (t ∈ l) as Htin by (apply last_head_elem; auto).
      destruct (dll_entry s _ t Hd Htin) as (et & Het & _).
      assert (t ≠ i) as Hti by (intros ->; done).
      destruct (update_spec s1 t (λ e, e_links e (ready e) (previous e) (Some i)) et)
        as (s2 & -> & Hs2 & Hls2 & Hes2); [by rewrite He1, decide_False|].
      exists s2. split; [done|]. rewrite Hs2, Hs1 in *. simpl in *. split_and!; try done.
      + rewrite Hh. by destruct l.
      + unfold rest. simpl. by rewrite Hls2, Hls1.
      + intros j. rewrite Hes2. destruct (decide (j = t)) as [->|Hjt].
        { rewrite decide_False, Het by done. simpl. by rewrite (decide_True (P := Some t = Some t)). }
        rewrite He1. destruct (decide (j = i)) as [->|Hji]; [by rewrite Ht|].
        destruct (slot_entry s j) as [[]|]; [|done]. simpl.
        by rewrite (decide_False (P := Some t = Some j)) by congruence.
    - apply last_None in Hlast as ->. eexists; split; [done|]. rewrite Hs1 in *. simpl in *.
      split_and!; try done.
      + unfold rest. simpl. by rewrite Hls1.
      + intros j. etrans; [exact (He1 j)|]. rewrite Ht.
        destruct (decide (j = i)); [done|]. by destruct (slot_entry s j) as [[]|]. }
  eexists; split; [done|].
  assert (∀ j, slot_entry (set_ready s2 (ready_head s2) (Some i) (ready_len s2 + 1)) j = slot_entry s2 j)
    as Hse by done.
  assert (∀ j, unlinked <$> slot_entry s2 j = unlinked <$> slot_entry s j) as Hun.
  { intros j. rewrite He2. case_decide as Hj; [subst j; by rewrite He|]. by destruct (slot_entry s j). }
  split_and!; try done.
  - split_and!; simpl.
    + apply NoDup_app. split_and!; [done| |apply NoDup_singleton].
      intros x Hx ->%list_elem_of_singleton. done.
    + done.
    + by rewrite last_snoc.
    + rewrite length_app. simpl. lia.
    + intros j ej. rewrite Hse, He2. case_decide as Hj.
      * intros [= <-]. subst j. simpl. symmetry. apply bool_decide_eq_true. set_solver.
      * destruct (slot_entry s j) as [e0|] eqn:E0; [|done]. intros [= <-]. simpl.
        rewrite (Hr _ _ E0). apply bool_decide_ext. rewrite elem_of_app, list_elem_of_singleton. naive_solver.
    + intros m1 j m2 Hm. rewrite Hse, He2.
      destruct (app_cons_split _ _ _ _ _ Hm) as [(k & -> & ->)|(k & -> & Hk1)].
      * assert (j ≠ i) as Hji by (intros ->; apply Hi; set_solver).
        destruct (Hl m1 j k eq_refl) as (ej & Hej & Hp & Hn). rewrite decide_False, Hej by done.
        simpl. eexists; split; [done|]. simpl. split; [done|]. rewrite last_app_cons.
        destruct k as [|y k]; simpl; [by rewrite decide_True|].
        rewrite decide_False; [done|]. intros Hc. apply NoDup_app in Hnd as (_ & _ & [Hjk _]%NoDup_cons).
        apply Hjk, last_head_elem. left. exact Hc.
      * destruct k as [|y k]; [|by destruct k]. simplify_eq/=. rewrite decide_True by done.
        rewrite app_nil_r. eexists; split; [done|]. done.
  - split_and!; simpl.
    + intros key. rewrite Hrv2. intros (e0 & He0 & Hk0)%H1. specialize (Hun key.2).
      rewrite He0 in Hun. destruct (slot_entry s2 key.2) as [e'|] eqn:E'; [|done].
      exists e'. split; [by rewrite Hse|]. apply (inj Some) in Hun. apply (f_equal revisit_key) in Hun.
      simpl in Hun. congruence.
    + intros j e' key Hje Hkey. rewrite Hse in Hje. destruct (unlinked_entry s s2 j e' (Hun j) Hje) as (e0 & He0 & Hu).
      rewrite Hrv2. apply (H2 j e0 key He0). apply (f_equal revisit_key) in Hu. simpl in Hu. congruence.
    + intros j e'. rewrite Hse, He2. case_decide as Hj.
      * intros [= <-] _. done.
      * destruct (slot_entry s j) as [e0|] eqn:E0; [|done]. intros [= <-]. simpl. exact (H3 j e0 E0).
Qed.

(** The effective time of a revisit: never inside a backoff. *)
Definition effective (e : ResponsiveEntry) (when : Instant) : Instant :=
  match blocked_until e with Some blocked => Z.max when blocked | None => when end.

Lemma enqueue_spec s l i e when now :
  dll s l → keys_ok s → slot_entry s i = Some e →
  ∃ s' l', enqueue_revisit s i when now = Some s' ∧ dll s' l' ∧ keys_ok s' ∧ touches s i s'
    ∧ idle <$> slot_entry s' i = Some (idle e)
    ∧ (if bool_decide (effective e when ≤ now)%Z
       then l' = filter (λ j, j ≠ i) l ++ [i]
            ∧ revisits s' = filter (λ k, k.2 ≠ i) (revisits s)
       else l' = filter (λ j, j ≠ i) l
            ∧ revisits s' = {[(effective e when, revisit_sequence s, i)]}
                             ∪ filter (λ k, k.2 ≠ i) (revisits s)).
Proof.
  intros Hd Hk He. destruct (unschedule_spec s l i e Hd Hk He)
    as (s1 & Hu & Hd1 & Hk1 & He1 & [Hrest1 Ht1] & Hrv1 & Hsq1).
  unfold enqueue_revisit. rewrite Hu, He1. change (blocked_until (idle e)) with (blocked_until e).
  fold (effective e when).
  assert (i ∉ filter (λ j, j ≠ i) l) as Hni by (rewrite list_elem_of_filter; naive_solver).
  case_bool_decide as Hnow.
  - destruct (push_ready_spec s1 _ i (idle e) Hd1 Hk1 He1 Hni eq_refl)
      as (s' & -> & Hd' & Hk' & Hun & Hrest & Hrv & _).
    exists s'. eexists. split; [done|]. split_and!; try done.
    + split; [congruence|]. intros j Hj. by rewrite Hun, Ht1.
    + specialize (Hun i). rewrite He1 in Hun. destruct (slot_entry s' i) as [e'|]; [|done].
      apply (inj Some) in Hun. simpl. f_equal. unfold idle. rewrite Hun. by destruct e.
    + congruence.
  - set (key := (effective e when, revisit_sequence s1, i)).
    destruct (update_spec (set_revisits s1 (revisits s1) (u64_wrapping_add (revisit_sequence s1) 1)) i
      (λ e, e_key e (Some key)) (idle e) He1) as (s2 & -> & Hs2 & Hls2 & He2).
    assert (∀ j, slot_entry (set_revisits s2 ({[key]} ∪ revisits s2) (revisit_sequence s2)) j
      = if decide (j = i) then Some (e_key (idle e) (Some key)) else slot_entry s1 j) as Hse.
    { intros j. etrans; [exact (He2 j)|]. done. }
    eexists _, _. split; [done|].
    assert (revisits s2 = revisits s1) as Hrv2 by (rewrite Hs2; done). rewrite Hrv2 in Hse |- *.
    destruct Hd1 as (Hnd & Hh & Ht & Hlen & Hr & Hl). destruct Hk1 as (K1 & K2 & K3).
    split_and!; try done.
    + split_and!; simpl; [done|by rewrite Hs2|by rewrite Hs2|by rewrite Hs2| |].
      * intros j ej. rewrite Hse. case_decide as Hj; [subst j|by apply Hr].
        intros [= <-]. simpl. symmetry. by apply bool_decide_eq_false.
      * intros l1 j l2 Hl12. rewrite Hse. destruct (Hl l1 j l2 Hl12) as (ej & ? & ?).
        rewrite decide_False; [eauto|]. intros ->. apply Hni. rewrite Hl12. set_solver.
    + split_and!.
      * intros k. cbn [revisits set_revisits]. rewrite elem_of_union, elem_of_singleton. intros [->|Hin].
        -- exists (e_key (idle e) (Some key)). split; [|done].
           etrans; [apply (Hse i)|]. by rewrite decide_True.
        -- rewrite Hse, decide_False; [by apply K1|].
           rewrite Hrv1 in Hin. by apply elem_of_filter in Hin as [??].
      * intros j ej k. cbn [revisits set_revisits]. rewrite Hse. case_decide as Hj; [subst j|].
        -- intros [= <-]. simpl. intros [= <-]. set_solver.
        -- intros Hej Hkey. destruct (K2 _ _ _ Hej Hkey). set_solver.
      * intros j ej. rewrite Hse. case_decide as Hj; [|by apply K3]. intros [= <-]. done.
    + split.
      * etrans; [|exact Hrest1]. unfold rest. simpl. rewrite Hls2, Hs2. done.
      * intros j Hj. rewrite Hse, decide_False by done. by apply Ht1.
    + rewrite Hse, decide_True by done. by destruct e.
    + simpl. rewrite Hrv1. unfold key. by rewrite Hsq1.
Qed.

(** ** Invariant of the reservoir *)

Definition wf (s : ResponsiveReservoir) : Prop :=
  (∃ l, dll s l) ∧ keys_ok s ∧ index_ok s ∧ write_cursor s < length (slots s).

(** When the slot may be probed again. *)
Definition eligible_at (s : ResponsiveReservoir) (e : ResponsiveEntry) : Instant :=
  effective e (last_probe_at e + revisit_interval s).

(** A slot is ready, or due, only from its eligibility time on. *)
Definition timely_at (s : ResponsiveReservoir) (now : Instant) (e : ResponsiveEntry) : Prop :=
  (ready e → (eligible_at s e ≤ now)%Z)
  ∧ (∀ key, revisit_key e = Some key → (eligible_at s e ≤ key.1.1)%Z).
Definition timely (s : ResponsiveReservoir) (now : Instant) : Prop :=
  ∀ j e, slot_entry s j = Some e → timely_at s now e.
Definition timely_except (s : ResponsiveReservoir) (now : Instant) (i : nat) : Prop :=
  ∀ j e, j ≠ i → slot_entry s j = Some e → timely_at s now e.

Lemma index_ok_ext s s' :
  index s' = index s →
  (∀ j, (λ e, addr (node e)) <$> slot_entry s' j = (λ e, addr (node e)) <$> slot_entry s j) →
  index_ok s → index_ok s'.
Proof.
  intros Hi Ha Hok a i. rewrite Hi, (Hok a i). specialize (Ha i).
  destruct (slot_entry s' i), (slot_entry s i); naive_solver.
Qed.

Lemma rest_fields s s' :
  rest s' = rest s →
  index s' = index s ∧ write_cursor s' = write_cursor s ∧ ttl s' = ttl s
  ∧ revisit_interval s' = revisit_interval s ∧ length (slots s') = length (slots s).
Proof. unfold rest. intros [=]. done. Qed.

Lemma unlinked_timely s s' now e e' :
  revisit_interval s' = revisit_interval s → unlinked e' = unlinked e → (ready e' → ready e) →
  timely_at s now e → timely_at s' now e'.
Proof.
  intros Hiv Hu Hr [H1 H2].
  assert (revisit_key e' = revisit_key e) as Hk by (by apply (f_equal revisit_key) in Hu).
  assert (eligible_at s' e' = eligible_at s e) as Hel.
  { unfold eligible_at, effective. rewrite Hiv.
    assert (blocked_until e' = blocked_until e) as -> by (by apply (f_equal blocked_until) in Hu).
    by assert (last_probe_at e' = last_probe_at e) as -> by (by apply (f_equal last_probe_at) in Hu). }
  split; rewrite Hel; [auto|]. intros key. rewrite Hk. apply H2.
Qed.

Lemma enqueue_ok s l i e when now :
  dll s l → keys_ok s → index_ok s → write_cursor s < length (slots s) →
  slot_entry s i = Some e → timely_except s now i →
  (last_probe_at e + revisit_interval s ≤ when)%Z →
  ∃ s', enqueue_revisit s i when now = Some s' ∧ wf s' ∧ timely s' now ∧ touches s i s'
    ∧ idle <$> slot_entry s' i = Some (idle e).
Proof.
  intros Hd Hk Hix Hcur He Ht Hwhen.
  destruct (enqueue_spec s l i e when now Hd Hk He) as (s' & l' & Hen & Hd' & Hk' & Htch & Hei & Hcase).
  pose proof Htch as [Hrest Hun]. pose proof (rest_fields _ _ Hrest) as (Hi' & Hc' & _ & Hiv & Hlen).
  exists s'. split; [done|].
  assert (∀ j, j ≠ i → j ∈ l' → j ∈ l) as Hsub.
  { intros j Hj. destruct (bool_decide _); destruct Hcase as [-> _];
      rewrite ?elem_of_app, list_elem_of_filter, ?list_elem_of_singleton; naive_solver. }
  split_and!; [| |done|done].
  - split_and!; [by exists l'|done| |lia]. apply (index_ok_ext s); [done| |done].
    intros j. destruct (decide (j = i)) as [->|Hj].
    + rewrite He. destruct (slot_entry s' i) as [e'|]; [|done]. apply (inj Some) in Hei.
      apply (f_equal node) in Hei. simpl in *. congruence.
    + specialize (Hun j Hj). destruct (slot_entry s' j), (slot_entry s j); try done.
      apply (inj Some), (f_equal node) in Hun. simpl in *. congruence.
  - intros j e' Hj'. destruct (decide (j = i)) as [->|Hj].
    + rewrite Hj' in Hei. apply (inj Some) in Hei.
      assert (eligible_at s' e' = eligible_at s e) as Hel.
      { unfold eligible_at, effective. rewrite Hiv.
        assert (blocked_until e' = blocked_until e) as -> by (by apply (f_equal blocked_until) in Hei).
        by assert (last_probe_at e' = last_probe_at e) as -> by (by apply (f_equal last_probe_at) in Hei). }
      assert (eligible_at s e ≤ effective e when)%Z as Hle.
      { unfold eligible_at, effective. destruct (blocked_until e); lia. }
      pose proof Hd' as (_ & _ & _ & _ & Hr' & _). rewrite <-Hel in Hle.
      case_bool_decide as Hnow; destruct Hcase as [-> Hrv].
      * split; [intros _; lia|]. intros key Hkey. exfalso.
        destruct (proj1 (proj2 Hk') _ _ _ Hj' Hkey) as [Hin Hki]. rewrite Hrv in Hin.
        apply elem_of_filter in Hin as [? _]. done.
      * split.
        -- rewrite (Hr' _ _ Hj'). intros [? _]%bool_decide_unpack%list_elem_of_filter. done.
        -- intros key Hkey. destruct (proj1 (proj2 Hk') _ _ _ Hj' Hkey) as [Hin Hki]. rewrite Hrv in Hin.
           apply elem_of_union in Hin as [->%elem_of_singleton|[? _]%elem_of_filter]; [done|done].
    + destruct (unlinked_entry s s' j e' (Hun j Hj) Hj') as (e0 & He0 & Hu).
      apply (unlinked_timely s s' now e0); [done|done| |by eapply Ht].
      destruct Hd as (_ & _ & _ & _ & Hr & _). destruct Hd' as (_ & _ & _ & _ & Hr' & _).
      rewrite (Hr _ _ He0), (Hr' _ _ Hj'), !bool_decide_spec. auto.
Qed.

(** Updates that leave links, key and address alone. *)
Definition payload_only (f : ResponsiveEntry → ResponsiveEntry) (e : ResponsiveEntry) : Prop :=
  ready (f e) = ready e ∧ previous (f e) = previous e ∧ next (f e) = next e
  ∧ revisit_key (f e) = revisit_key e ∧ addr (node (f e)) = addr (node e).

Lemma update_payload s l i e f :
  dll s l → keys_ok s → index_ok s → slot_entry s i = Some e → payload_only f e →
  ∃ s', update s i f = Some s' ∧ dll s' l ∧ keys_ok s' ∧ index_ok s' ∧ rest s' = rest s
    ∧ slot_entry s' i = Some (f e) ∧ (∀ j, j ≠ i → slot_entry s' j = slot_entry s j).
Proof.
  intros (Hnd & Hh & Ht & Hlen & Hr & Hl) (K1 & K2 & K3) Hix He (P1 & P2 & P3 & P4 & P5).
  destruct (update_spec s i f e He) as (s' & -> & Hs' & Hls & Hes). exists s'. split; [done|].
  assert (slot_entry s' i = Some (f e)) as Hei by (rewrite Hes; by rewrite decide_True).
  assert (∀ j, j ≠ i → slot_entry s' j = slot_entry s j) as Hj by (intros; rewrite Hes; by rewrite decide_False).
  assert (∀ j e', slot_entry s' j = Some e' → ∃ e0, slot_entry s j = Some e0 ∧ ready e' = ready e0
    ∧ previous e' = previous e0 ∧ next e' = next e0 ∧ revisit_key e' = revisit_key e0) as Hback.
  { intros j e'. rewrite Hes. case_decide as Hji; [subst j; intros [= <-]|]; eauto 10. }
  assert (∀ j e0, slot_entry s j = Some e0 → ∃ e', slot_entry s' j = Some e' ∧ ready e' = ready e0
    ∧ previous e' = previous e0 ∧ next e' = next e0 ∧ revisit_key e' = revisit_key e0) as Hfwd.
  { intros j e0 Hj0. rewrite Hes. case_decide as Hji; [subst j; simplify_eq|]; eauto 10. }
  assert (revisits s' = revisits s) as Hrv by (rewrite Hs'; done).
  split_and!; try done.
  - split_and!; try (rewrite Hs'; done); [done|..].
    + intros j e' (e0 & He0 & -> & _)%Hback. eauto.
    + intros l1 j l2 Hl12. destruct (Hl _ _ _ Hl12) as (e0 & He0 & Hp & Hn).
      destruct (Hfwd _ _ He0) as (e' & He' & _ & Hp' & Hn' & _). exists e'. split_and!; congruence.
  - split_and!.
    + intros key. rewrite Hrv. intros (e0 & (e' & He' & _ & _ & _ & Hk)%Hfwd & Hk0)%K1.
      exists e'. split; congruence.
    + intros j e' key (e0 & He0 & _ & _ & _ & Hk)%Hback Hkey. rewrite Hrv. eapply K2; [done|congruence].
    + intros j e' (e0 & He0 & Hrd & _ & _ & Hk)%Hback. rewrite Hk, Hrd. eauto.
  - apply (index_ok_ext s); [rewrite Hs'; done| |done]. intros j. rewrite Hes.
    case_decide as Hji; [subst j|done]. rewrite He. simpl. by rewrite P5.
  - unfold rest. rewrite Hs'. simpl. by rewrite Hls.
Qed.

Lemma reschedule_ok s l i e f when now :
  dll s l → keys_ok s → index_ok s → write_cursor s < length (slots s) → timely_except s now i →
  slot_entry s i = Some e → payload_only f e →
  (last_probe_at (f e) + revisit_interval s ≤ when)%Z →
  ∃ s1 s', update s i f = Some s1 ∧ rest s1 = rest s
    ∧ enqueue_revisit s1 i when now = Some s' ∧ wf s' ∧ timely s' now ∧ touches s i s'
    ∧ idle <$> slot_entry s' i = Some (idle (f e)).
Proof.
  intros Hd Hk Hix Hcur Ht He Hf Hwhen.
  destruct (update_payload s l i e f Hd Hk Hix He Hf) as (s1 & Hu & Hd1 & Hk1 & Hix1 & Hrest & He1 & Hj).
  pose proof (rest_fields _ _ Hrest) as (Hi1 & Hc1 & _ & Hiv & Hlen).
  destruct (enqueue_ok s1 l i (f e) when now) as (s' & Hen & Hwf & Htm & [Hrest' Hun] & Hei); try done.
  - by rewrite Hc1, Hlen.
  - intros j ej Hne. rewrite Hj by done. intros Hej. specialize (Ht j ej Hne Hej).
    apply (unlinked_timely s s1 now ej); auto.
  - by rewrite Hiv.
  - exists s1, s'. split_and!; try done. split; [congruence|]. intros j Hne. by rewrite Hun, Hj.
Qed.

Lemma timely_drop s now i : timely s now → timely_except s now i.
Proof. intros Ht j e _. apply Ht. Qed.

Lemma timely_mono s t t' : timely s t → (t ≤ t')%Z → timely s t'.
Proof.
  intros Ht Hle j e He. destruct (Ht j e He) as [H1 H2]. split; [|done]. intros Hr. specialize (H1 Hr). lia.
Qed.

Lemma index_entry s a i : index_ok s → index s !! a = Some i → ∃ e, slot_entry s i = Some e ∧ addr (node e) = a.
Proof. intros Hok Hi. by apply Hok. Qed.

Lemma record_probe_ok s a now :
  wf s → timely s now →
  ∃ s', record_probe s a now = Some s' ∧ wf s' ∧ timely s' now ∧ rest s' = rest s.
Proof.
  intros Hwf Ht. pose proof Hwf as ([l Hd] & Hk & Hix & Hcur). unfold record_probe.
  destruct (index s !! a) as [i|] eqn:Hi; [|by exists s].
  destruct (index_entry _ _ _ Hix Hi) as (e & He & Ha).
  destruct (reschedule_ok s l i e (λ e, e_probe e now) (now + revisit_interval s) now)
    as (s1 & s' & -> & Hr1 & Hen & ? & ? & [? _] & _); try done; [by apply timely_drop|].
  destruct (rest_fields _ _ Hr1) as (_ & _ & _ & Hiv & _). rewrite Hiv, Hen. eauto 10.
Qed.

Lemma defer_ok s a retry now :
  wf s → timely s now →
  ∃ s', defer_revisit s a retry now = Some s' ∧ wf s' ∧ timely s' now ∧ rest s' = rest s.
Proof.
  intros Hwf Ht. pose proof Hwf as ([l Hd] & Hk & Hix & Hcur). unfold defer_revisit.
  destruct (index s !! a) as [i|] eqn:Hi; [|by exists s].
  destruct (index_entry _ _ _ Hix Hi) as (e & He & Ha). rewrite He.
  destruct (enqueue_ok s l i e (Z.max retry (last_probe_at e + revisit_interval s)) now)
    as (s' & -> & ? & ? & [? _] & _); try done; [by apply timely_drop|lia|]. eauto.
Qed.

(** [record_failure], on every branch. *)
Lemma record_failure_ok s a dispatched now :
  wf s → timely s now →
  ∃ b s', record_failure s a dispatched now = Some (b, s') ∧ wf s' ∧ timely s' now ∧ rest s' = rest s
    ∧ match index s !! a with
      | None => b = false ∧ s' = s
      | Some i => ∃ e, slot_entry s i = Some e ∧
          if bool_decide (dispatched < last_success_at e)%Z then b = false ∧ s' = s
          else b = true ∧ idle <$> slot_entry s' i =
            Some (idle (e_block e (Z.min (failures e + 1) 5)
                   (Some (now + from_secs (backoff_secs (Z.min (failures e + 1) 5)))%Z)))
      end.
Proof.
  intros Hwf Ht. pose proof Hwf as ([l Hd] & Hk & Hix & Hcur). unfold record_failure.
  destruct (index s !! a) as [i|] eqn:Hi; [|by exists false, s].
  destruct (index_entry _ _ _ Hix Hi) as (e & He & Ha). rewrite He.
  case_bool_decide as Hstale.
  { exists false, s. split_and!; try done. exists e. by rewrite bool_decide_eq_true_2. }
  replace (Z.min (Z.min u8_max (failures e + 1)) 5) with (Z.min (failures e + 1) 5) by (unfold u8_max; lia).
  set (f := Z.min (failures e + 1) 5). set (blocked := (now + from_secs (backoff_secs f))%Z).
  destruct (reschedule_ok s l i e (λ e, e_block e f (Some blocked))
    (Z.max (last_probe_at e + revisit_interval s) blocked) now)
    as (s1 & s' & -> & Hr1 & Hen & ? & ? & [? _] & Hei); try done; [by apply timely_drop|simpl; lia|].
  destruct (rest_fields _ _ Hr1) as (_ & _ & _ & Hiv & _). rewrite Hiv, Hen.
  exists true, s'. split_and!; try done. exists e. by rewrite bool_decide_eq_false_2.
Qed.

(** Overwriting an unscheduled slot. *)
Lemma replace_idle s l i o :
  dll s l → keys_ok s → i < length (slots s) → i ∉ l → (∀ k, k ∈ revisits s → k.2 ≠ i) →
  (∀ e, o = Some e → ready e = false ∧ revisit_key e = None) →
  dll (set_slots s (<[i := o]> (slots s))) l ∧ keys_ok (set_slots s (<[i := o]> (slots s))).
Proof.
  intros (Hnd & Hh & Ht & Hlen & Hr & Hl) (K1 & K2 & K3) Hi Hni Hki Ho.
  pose proof (λ j, slot_entry_insert s i o j Hi) as Hes. split; split_and!; try done.
  - intros j e. rewrite Hes. case_decide as Hj; [subst j|by apply Hr].
    intros [-> _]%Ho. symmetry. by apply bool_decide_eq_false.
  - intros l1 j l2 Hl12. rewrite Hes, decide_False; [by apply Hl|]. intros ->. apply Hni. set_solver.
  - intros k Hk. rewrite Hes, decide_False by auto. by apply K1.
  - intros j e key. rewrite Hes. case_decide as Hj; [subst j|by apply K2].
    intros [_ ->]%Ho. done.
  - intros j e. rewrite Hes. case_decide as Hj; [subst j|by apply K3]. by intros [_ ->]%Ho.
Qed.

Lemma dll_lt s l i : dll s l → i ∈ l → i < length (slots s).
Proof. intros Hd Hi. destruct (dll_entry _ _ _ Hd Hi) as (e & He & _). by eapply slot_entry_lt. Qed.

Lemma record_ok s n now probed :
  wf s → timely s now →
  ∃ s', record s n now probed = Some s' ∧ wf s' ∧ timely s' now
    ∧ length (slots s') = length (slots s) ∧ ttl s' = ttl s ∧ revisit_interval s' = revisit_interval s
    ∧ ∃ i e, index s' !! addr n = Some i ∧ slot_entry s' i = Some e ∧ node e = n
        ∧ expires_at e = (now + ttl s)%Z ∧ last_success_at e = now.
Proof.
  intros Hwf Ht. pose proof Hwf as ([l Hd] & Hk & Hix & Hcur). unfold record.
  destruct (index s !! addr n) as [i|] eqn:Hi.
  - destruct (index_entry _ _ _ Hix Hi) as (e & He & Ha). rewrite He.
    set (f := λ e, e_reply e n (now + ttl s) now).
    destruct (update_payload s l i e f Hd Hk Hix He) as (s1 & -> & Hd1 & Hk1 & Hix1 & Hrest & He1 & Hj).
    { by split_and!. }
    pose proof (rest_fields _ _ Hrest) as (Hi1 & Hc1 & Htt & Hiv & Hlen).
    case_bool_decide as Hfail.
    + destruct (reschedule_ok s1 l i (f e) (λ e, e_block e 0 None) (last_probe_at e + revisit_interval s) now)
        as (s2 & s' & -> & Hr2 & Hen & Hwf' & Ht' & [Hrest' _] & Hei); try done; try lia.
      * intros j ej Hne. rewrite Hj by done. intros Hej.
        apply (unlinked_timely s s1 now ej); auto. by eapply Ht.
      * simpl. rewrite Hiv. lia.
      * destruct (rest_fields _ _ Hr2) as (_ & _ & _ & Hiv2 & _). rewrite Hiv2, Hiv, Hen.
        pose proof (rest_fields _ _ Hrest') as (Hi' & _ & Htt' & Hiv' & Hlen').
        exists s'. split_and!; try done; try congruence.
        destruct (slot_entry s' i) as [e'|] eqn:He'; [|done]. apply (inj Some) in Hei.
        exists i, e'. rewrite Hi', Hi1. split_and!; try done.
        -- by apply (f_equal node) in Hei.
        -- by apply (f_equal expires_at) in Hei.
        -- by apply (f_equal last_success_at) in Hei.
    + exists s1. split_and!; try done.
      * split_and!; eauto. lia.
      * intros j ej. destruct (decide (j = i)) as [->|Hne].
        -- rewrite He1. intros [= <-]. specialize (Ht i e He). unfold timely_at, eligible_at, effective in *.
           simpl. rewrite Hiv. exact Ht.
        -- rewrite Hj by done. intros Hej. apply (unlinked_timely s s1 now ej); auto. by eapply Ht.
      * exists i, (f e). rewrite Hi1. done.
  - set (i := write_cursor s) in *.
    destruct (lookup_lt_is_Some_2 _ _ Hcur) as [old Hold]. rewrite Hold.
    assert (slot_entry s i = old) as Hso by (unfold slot_entry; by rewrite Hold).
    assert (∃ s1 l1, match old with
        | Some old => let! s := unschedule s i in
            Some (set_index s (delete (addr (node old)) (index s)))
        | None => Some s end = Some s1
      ∧ dll s1 l1 ∧ keys_ok s1 ∧ i ∉ l1 ∧ (∀ k, k ∈ revisits s1 → k.2 ≠ i)
      ∧ write_cursor s1 = i ∧ length (slots s1) = length (slots s) ∧ ttl s1 = ttl s
      ∧ revisit_interval s1 = revisit_interval s ∧ timely_except s1 now i
      ∧ (∀ a j, j ≠ i → index s1 !! a = Some j ↔ ∃ e, slot_entry s1 j = Some e ∧ addr (node e) = a)
      ∧ (∀ a, index s1 !! a ≠ Some i) ∧ index s1 !! addr n = None)
      as (s1 & l1 & -> & Hd1 & Hk1 & Hil1 & Hki1 & Hc1 & Hlen1 & Htt1 & Hiv1 & Ht1 & Hix1 & Hni1 & Hn1).
    { destruct old as [old|].
      - destruct (unschedule_spec s l i old Hd Hk Hso) as (s1 & -> & Hd1 & Hk1 & He1 & [Hrest Hun] & Hrv & _).
        pose proof (rest_fields _ _ Hrest) as (Hi1 & Hc1 & Htt1 & Hiv1 & Hlen1).
        eexists _, _. split; [done|]. split_and!; try done; simpl.
        + rewrite list_elem_of_filter. naive_solver.
        + intros k. simpl. rewrite Hrv. by intros [? _]%elem_of_filter.
        + intros j ej Hne Hej. change (slot_entry s1 j = Some ej) in Hej.
          destruct (unlinked_entry s s1 j ej (Hun j Hne) Hej) as (e0 & He0 & Hu).
          apply (unlinked_timely s _ now e0); [done|done| |by eapply Ht].
          destruct Hd as (_ & _ & _ & _ & Hr & _). destruct Hd1 as (_ & _ & _ & _ & Hr1 & _).
          rewrite (Hr _ _ He0), (Hr1 _ _ Hej), !bool_decide_spec, list_elem_of_filter. tauto.
        + intros a j Hne. change (slot_entry (set_index s1 _) j) with (slot_entry s1 j).
          rewrite Hi1, lookup_delete_Some, (Hix a j). specialize (Hun j Hne).
          destruct (slot_entry s1 j) as [e1|], (slot_entry s j) as [e0|] eqn:Hj0; try done; [|naive_solver].
          apply (inj Some), (f_equal node) in Hun. simpl in Hun.
          split; [intros (_ & ? & [= <-] & <-); exists e1; by rewrite Hun|].
          intros (? & [= <-] & <-). split; [|exists e0; by rewrite Hun]. intros Heq. apply Hne.
          assert (index s !! addr (node old) = Some j) as Hx1 by (apply Hix; exists e0; rewrite Heq, Hun; done).
          assert (index s !! addr (node old) = Some i) as Hx2 by (apply Hix; eauto). congruence.
        + intros a. rewrite Hi1, lookup_delete_Some. intros [Hna Hai].
          apply Hix in Hai as (e0 & He0 & Ha0). rewrite Hso in He0. simplify_eq.
        + rewrite Hi1. apply lookup_delete_None. auto.
      - exists s, l. split_and!; try done.
        + intros Hin. destruct (dll_entry _ _ _ Hd Hin) as (? & ? & _). congruence.
        + intros k Hin Hki. destruct (proj1 Hk _ Hin) as (? & ? & _). congruence.
        + by apply timely_drop.
        + intros a Hai. apply Hix in Hai as (? & ? & _). congruence. }
    set (entry := mkEntry n (now + ttl s1) probed now 0 None None false None None).
    destruct (replace_idle s1 l1 i (Some entry)) as [Hd2 Hk2]; try done; [lia|by intros ? [= <-]|].
    set (s2 := set_slots s1 _) in *.
    assert (∀ j, slot_entry s2 j = if decide (j = i) then Some entry else slot_entry s1 j) as Hes2.
    { intros j. apply slot_entry_insert. lia. }
    set (s3 := set_index s2 (<[addr n := i]> (index s2))).
    destruct (enqueue_ok s3 l1 i entry (probed + revisit_interval s3) now)
      as (s' & -> & ([l' Hd'] & Hk' & Hix' & Hcur') & Ht' & [Hrest' _] & Hei); try done.
    + intros a j. simpl. change (slot_entry s3 j) with (slot_entry s2 j). rewrite Hes2.
      case_decide as Hj; [subst j|].
      * rewrite lookup_insert_Some. split.
        -- intros [[<- _]|[_ Hai]]; [by exists entry|]. by apply Hni1 in Hai.
        -- intros (? & [= <-] & <-). auto.
      * rewrite <-(Hix1 a j Hj), lookup_insert_Some. split; [intros [[_ ?]|[_ ?]]; congruence|].
        intros Hai. right. split; [|done]. intros <-. congruence.
    + simpl. rewrite length_insert. lia.
    + change (slot_entry s2 i = Some entry). rewrite Hes2. by rewrite decide_True.
    + intros j ej Hne. change (slot_entry s3 j) with (slot_entry s2 j). rewrite Hes2, decide_False by done.
      intros Hej. specialize (Ht1 j ej Hne Hej). apply (unlinked_timely s1 s3 now ej); auto.
    + pose proof (rest_fields _ _ Hrest') as (Hi' & _ & Htt' & Hiv' & Hlen'). simpl in *.
      rewrite length_insert in Hlen'.
      eexists; split; [done|]. split_and!; try done; simpl; try congruence.
      * split_and!; [by exists l'|done|done|]. simpl. apply Nat.mod_upper_bound. lia.
      * destruct (slot_entry s' i) as [e'|] eqn:He'; [|done]. apply (inj Some) in Hei.
        exists i, e'. rewrite Hi'. split_and!; [by rewrite lookup_insert_eq|done|..].
        -- by apply (f_equal node) in Hei.
        -- apply (f_equal expires_at) in Hei. simpl in Hei. by rewrite Hei, Htt1.
        -- by apply (f_equal last_success_at) in Hei.
Qed.

(** ** Selecting the next revisit *)

(** The first [n] due keys, in order. *)
Fixpoint due_keys (n : nat) (ks : gset Key) (now : Instant) : list Key :=
  match n with
  | 0 => []
  | S n =>
      match set_first ks with
      | Some key => if bool_decide (now < key.1.1)%Z then [] else key :: due_keys n (ks ∖ {[key]}) now
      | None => []
      end
  end.

(** [l] is the due part of [ks], by deadline and then by age, cut at [n]. *)
Record promoted (n : nat) (ks : gset Key) (now : Instant) (l : list Key) : Prop := {
  pr_distinct : NoDup l;
  pr_due k : k ∈ l → k ∈ ks ∧ (k.1.1 ≤ now)%Z;
  pr_sorted : Sorted.StronglySorted (λ k k', kleb k k') l;
  pr_first k k' : k ∈ l → k' ∈ ks → k' ∉ l → kleb k k';
  pr_length : length l ≤ n;
  pr_all k : length l < n → k ∈ ks → (k.1.1 ≤ now)%Z → k ∈ l;
}.

Lemma kleb_deadline (k k' : Key) : kleb k k' → (k.1.1 ≤ k'.1.1)%Z.
Proof.
  destruct k as [[d q] i], k' as [[d' q'] i']. unfold kleb, lex_leb. simpl.
  destruct (Z.compare_spec d d'); simpl; [lia|lia|done].
Qed.

Lemma promoted_nil n ks now : (0 < n → ∀ k, k ∈ ks → (now < k.1.1)%Z) → promoted n ks now [].
Proof.
  intros Hn. split; [apply NoDup_nil_2|by intros k ?%elem_of_nil|constructor|by intros k k' ?%elem_of_nil|simpl; lia|].
  intros k Hl Hk Hd. specialize (Hn Hl k Hk). lia.
Qed.

Lemma due_keys_spec n ks now : promoted n ks now (due_keys n ks now).
Proof.
  revert ks; induction n as [|n IH]; intros ks; simpl.
  { apply promoted_nil. lia. }
  destruct (set_first ks) as [key|] eqn:Hf.
  - apply set_first_Some in Hf as [Hin Hle]. case_bool_decide as Hnow.
    + apply promoted_nil. intros _ k Hk. pose proof (kleb_deadline _ _ (Hle k Hk)). lia.
    + destruct (IH (ks ∖ {[key]})) as [Hnd Hd Hso Hfi Hlen Hall]. split; simpl.
      * constructor; [|done]. intros [Hk _]%Hd. set_solver.
      * intros k [->|Hk]%elem_of_cons; [split; [done|lia]|]. apply Hd in Hk. set_solver.
      * constructor; [done|]. apply Forall_forall. intros k [Hk _]%Hd. apply Hle. set_solver.
      * intros k k' [->|Hk]%elem_of_cons Hk' Hn; [by apply Hle|]. apply Hfi; set_solver.
      * lia.
      * intros k Hl Hk Hk'. destruct (decide (k = key)) as [->|Hne]; [by left|]. right. apply Hall; [lia|set_solver|done].
  - apply set_first_None in Hf as ->. apply promoted_nil. set_solver.
Qed.

(** Promotion appends due slots behind the ready ones. *)
Lemma promote_ok n s l now :
  dll s l → keys_ok s → index_ok s → write_cursor s < length (slots s) → timely s now →
  let ks := due_keys n (revisits s) now in
  ∃ s', promote_loop n s now = Some s' ∧ dll s' (l ++ ks.*2) ∧ keys_ok s' ∧ index_ok s'
    ∧ timely s' now ∧ rest s' = rest s ∧ revisits s' = revisits s ∖ list_to_set ks
    ∧ (∀ j, idle <$> slot_entry s' j = idle <$> slot_entry s j).
Proof.
  revert s l. induction n as [|n IH]; intros s l Hd Hk Hix Hcur Ht; cbn zeta; cbn [promote_loop due_keys].
  { exists s. cbn. rewrite app_nil_r, difference_empty_L. done. }
  destruct (set_first (revisits s)) as [key|] eqn:Hf; [|exists s; cbn; rewrite app_nil_r, difference_empty_L; done].
  case_bool_decide as Hnow; [exists s; cbn; rewrite app_nil_r, difference_empty_L; done|].
  apply set_first_Some in Hf as [Hkin _]. pose proof Hk as (K1 & K2 & K3).
  destruct (K1 _ Hkin) as (e & He & Hke). set (i := key.2) in *.
  pose proof Hd as (_ & _ & _ & _ & Hr & _).
  assert (ready e = false) as Hre.
  { destruct (ready e) eqn:Hre; [|done]. rewrite (K3 _ _ He) in Hke; [done|]. by rewrite Hre. }
  assert (i ∉ l) as Hil by (rewrite (Hr _ _ He) in Hre; by apply bool_decide_eq_false in Hre).
  set (s0 := set_revisits s (revisits s ∖ {[key]}) (revisit_sequence s)).
  destruct (update_spec s0 i (λ e, e_key e None) e He) as (s1 & -> & Hs1 & Hls1 & He1).
  assert (∀ j, slot_entry s0 j = slot_entry s j) as Hse0 by done.
  assert (∀ k, k ∈ revisits s → k.2 = i → k = key) as Huniq.
  { intros k Hkk Hki. destruct (K1 _ Hkk) as (e0 & He0 & Hk0). congruence. }
  assert (dll s1 l) as Hd1.
  { destruct Hd as (D1 & D2 & D3 & D4 & D5 & D6). rewrite Hs1 in *. split_and!; try done.
    - intros j ej. rewrite He1. case_decide as Hj; [subst j; intros [= <-]; simpl; by apply Hr|by apply D5].
    - intros l1 j l2 Hl12. rewrite He1, decide_False; [by apply D6|]. intros ->. apply Hil. set_solver. }
  assert (keys_ok s1) as Hk1.
  { assert (revisits s1 = revisits s ∖ {[key]}) as Hrv by (by rewrite Hs1). split_and!.
    - intros k. rewrite Hrv, elem_of_difference, elem_of_singleton. intros [Hkk Hne].
      rewrite He1, decide_False; [by apply K1|]. intros Hki. by apply Hne, Huniq.
    - intros j ej k. rewrite He1, Hrv. case_decide as Hj; [subst j; by intros [= <-]|].
      intros Hej Hkey. destruct (K2 _ _ _ Hej Hkey) as [? <-]. set_solver.
    - intros j ej. rewrite He1. case_decide as Hj; [subst j; by intros [= <-]|]. apply K3. }
  destruct (push_ready_spec s1 l i (e_key e None) Hd1 Hk1) as (s2 & -> & Hd2 & Hk2 & Hun & Hrest2 & Hrv2 & _);
    [by rewrite He1, decide_True|done|done|].
  assert (rest s2 = rest s) as Hrest by (rewrite Hrest2, Hs1; unfold rest; simpl; by rewrite Hls1).
  pose proof (rest_fields _ _ Hrest) as (Hi2 & Hc2 & _ & Hiv2 & Hlen2).
  assert (∀ j, idle <$> slot_entry s2 j = idle <$> slot_entry s j) as Hidle.
  { intros j. specialize (Hun j). rewrite He1 in Hun. case_decide as Hj; [subst j; rewrite He|].
    - destruct (slot_entry s2 i); [|done]. apply (inj Some) in Hun. simpl. f_equal. unfold idle. by rewrite Hun.
    - rewrite Hse0 in Hun. destruct (slot_entry s2 j), (slot_entry s j); try done.
      apply (inj Some) in Hun. simpl. f_equal. unfold idle. by rewrite Hun. }
  destruct (IH s2 (l ++ [i])) as (s' & -> & Hd' & Hk' & Hix' & Ht' & Hrest' & Hrv' & Hid'); try done.
  - apply (index_ok_ext s); [done| |done]. intros j. specialize (Hidle j).
    destruct (slot_entry s2 j), (slot_entry s j); try done.
    apply (inj Some), (f_equal node) in Hidle. simpl in *. congruence.
  - by rewrite Hc2, Hlen2.
  - intros j e2 He2. specialize (Hun j). rewrite He1 in Hun. case_decide as Hj.
    + subst j. rewrite He2 in Hun. apply (inj Some) in Hun. destruct (Ht _ _ He) as [_ Hel].
      specialize (Hel _ Hke). assert (eligible_at s2 e2 = eligible_at s e) as Heq.
      { unfold eligible_at, effective. rewrite Hiv2.
        assert (blocked_until e2 = blocked_until e) as -> by (by apply (f_equal blocked_until) in Hun).
        by assert (last_probe_at e2 = last_probe_at e) as -> by (by apply (f_equal last_probe_at) in Hun). }
      split; rewrite Heq; [intros _; lia|]. intros k Hk2'. apply (f_equal revisit_key) in Hun.
      simpl in Hun. congruence.
    + destruct (unlinked_entry s s2 j e2) as (e0 & He0 & Hu); [by rewrite Hun, Hse0|done|].
      apply (unlinked_timely s s2 now e0); [done|done| |by eapply Ht].
      destruct Hd2 as (_ & _ & _ & _ & Hr2 & _). rewrite (Hr _ _ He0), (Hr2 _ _ He2), !bool_decide_spec.
      rewrite elem_of_app, list_elem_of_singleton. tauto.
  - assert (revisits s2 = revisits s ∖ {[key]}) as Hrv by (by rewrite Hrv2, Hs1). rewrite Hrv in Hd', Hrv'.
    exists s'. cbn [fmap list_fmap list_to_set]. rewrite (cons_middle key.2), app_assoc. split_and!; try done; [congruence|set_solver|].
    intros j. by rewrite Hid'.
Qed.

(** The queue the ready list implements: drop expired heads, take one. *)
Fixpoint pick (n : nat) (l : list nat) (expired : nat → bool) : option nat * list nat :=
  match n, l with
  | 0, _ | _, [] => (None, l)
  | S n, i :: l => if expired i then pick n l expired else (Some i, l)
  end.

Definition slot_expired (s : ResponsiveReservoir) (now : Instant) (i : nat) : bool :=
  match slot_entry s i with Some e => bool_decide (expires_at e ≤ now)%Z | None => true end.

Lemma pick_ext n l f g : (∀ i, i ∈ l → f i = g i) → pick n l f = pick n l g.
Proof.
  revert l; induction n as [|n IH]; intros [|i l] Hfg; simpl; try done.
  rewrite (Hfg i) by constructor. destruct (g i); [|done]. apply IH. intros j Hj. apply Hfg. by constructor.
Qed.

Lemma pick_suffix n l f : (pick n l f).2 `suffix_of` l.
Proof.
  revert l; induction n as [|n IH]; intros [|i l]; simpl; try done. destruct (f i); [|by exists [i]].
  by apply suffix_cons_r.
Qed.

(** The slots a selection frees: the expired ones it takes off the list. *)
Definition dropped (s : ResponsiveReservoir) (now : Instant) (n : nat) (l : list nat) (j : nat) : Prop :=
  j ∈ l ∧ j ∉ (pick n l (slot_expired s now)).2 ∧ slot_expired s now j = true.
#[export] Instance dropped_dec s now n l j : Decision (dropped s now n l j).
Proof. unfold dropped. apply _. Defined.

Lemma expired_idle s s' now j :
  idle <$> slot_entry s j = idle <$> slot_entry s' j → slot_expired s now j = slot_expired s' now j.
Proof.
  unfold slot_expired. destruct (slot_entry s j), (slot_entry s' j); try done.
  intros H%(inj Some)%(f_equal expires_at). simpl in H. by rewrite H.
Qed.

(** Freeing an expired head and then those of the rest. *)
Lemma select_frees s s1 s' now n i l :
  slot_expired s now i = true → i ∉ l → slot_entry s1 i = None →
  (∀ j, j ≠ i → idle <$> slot_entry s1 j = idle <$> slot_entry s j) →
  (∀ j, idle <$> slot_entry s' j = if bool_decide (dropped s1 now n l j) then None else idle <$> slot_entry s1 j) →
  ∀ j, idle <$> slot_entry s' j
       = if bool_decide (dropped s now (S n) (i :: l) j) then None else idle <$> slot_entry s j.
Proof.
  intros Hexp Hil Hi Hid Hdr j. rewrite Hdr.
  assert (∀ x, x ∈ l → slot_expired s1 now x = slot_expired s now x) as Hx.
  { intros x Hx. apply expired_idle, Hid. naive_solver. }
  assert (i ∉ (pick n l (slot_expired s now)).2) as Hin.
  { destruct (pick_suffix n l (slot_expired s now)) as [k Hk]. rewrite Hk in Hil. set_solver. }
  assert (dropped s now (S n) (i :: l) j ↔ j = i ∨ dropped s1 now n l j) as Hiff.
  { unfold dropped. simpl. rewrite Hexp, (pick_ext n l (slot_expired s1 now) (slot_expired s now)), elem_of_cons by done.
    split; [intros ([?|Hj] & ? & He); [by left|right]; by rewrite Hx|].
    intros [->|(Hj & ? & He)]; [by auto|]. rewrite Hx in He by done. auto. }
  rewrite (bool_decide_ext _ _ Hiff). destruct (decide (j = i)) as [->|Hne].
  - rewrite Hi, (bool_decide_true (i = i ∨ _)) by (by left). by case_bool_decide.
  - rewrite Hid by done. erewrite bool_decide_ext; [done|]. tauto.
Qed.

Lemma select_ok n s l now :
  dll s l → keys_ok s → index_ok s → write_cursor s < length (slots s) → timely s now →
  ∃ o s', select_loop n s now = Some (o, s') ∧ wf s' ∧ timely s' now
    ∧ dll s' (pick n l (slot_expired s now)).2
    ∧ write_cursor s' = write_cursor s ∧ ttl s' = ttl s ∧ revisit_interval s' = revisit_interval s
    ∧ length (slots s') = length (slots s) ∧ revisits s' = revisits s
    ∧ (∀ j, idle <$> slot_entry s' j = if bool_decide (dropped s now n l j) then None else idle <$> slot_entry s j)
    ∧ match (pick n l (slot_expired s now)).1 with
      | None => o = None
      | Some i => ∃ e, slot_entry s i = Some e ∧ o = Some (node e) ∧ i ∈ l
          ∧ (now < expires_at e)%Z ∧ (eligible_at s e ≤ now)%Z
          ∧ index s' !! addr (node e) = Some i ∧ slot_entry s' i = Some (idle e)
      end.
Proof.
  revert s l. induction n as [|n IH]; intros s l Hd Hk Hix Hcur Ht; cbn [select_loop];
    assert (wf s) as Hwf by (split_and!; [by exists l|done..]).
  { exists None, s. split_and!; try done. intros j. rewrite bool_decide_false; [done|]. unfold dropped. simpl. tauto. }
  pose proof Hd as (Hnd & Hh & _ & _ & Hr & _). rewrite Hh.
  destruct l as [|i l]; simpl.
  { exists None, s. by split_and!. }
  destruct (dll_entry s _ i Hd) as (e & He & Hre); [constructor|].
  destruct (unschedule_spec s (i :: l) i e Hd Hk He)
    as (s1 & -> & Hd1 & Hk1 & He1 & [Hrest1 Hun1] & Hrv1 & _).
  pose proof (rest_fields _ _ Hrest1) as (Hi1 & Hc1 & Htt1 & Hiv1 & Hlen1).
  apply NoDup_cons in Hnd as [Hil Hnd].
  rewrite filter_cons_False, filter_notin in Hd1 by naive_solver. rewrite He1.
  assert (timely s1 now) as Ht1.
  { intros j ej Hej. destruct (decide (j = i)) as [->|Hne].
    - rewrite He1 in Hej. simplify_eq. by split.
    - destruct (unlinked_entry s s1 j ej (Hun1 j Hne) Hej) as (e0 & He0 & Hu).
      apply (unlinked_timely s s1 now e0); [done|done| |by eapply Ht].
      destruct Hd1 as (_ & _ & _ & _ & Hr1 & _). rewrite (Hr _ _ He0), (Hr1 _ _ Hej), !bool_decide_spec.
      rewrite elem_of_cons. tauto. }
  assert (∀ j, idle <$> slot_entry s1 j = idle <$> slot_entry s j) as Hid1.
  { intros j. destruct (decide (j = i)) as [->|Hne]; [rewrite He1, He; by destruct e|].
    specialize (Hun1 j Hne). destruct (slot_entry s1 j), (slot_entry s j); try done.
    apply (inj Some) in Hun1. simpl. f_equal. unfold idle. by rewrite Hun1. }
  assert (index_ok s1) as Hix1.
  { apply (index_ok_ext s); [done| |done]. intros j. specialize (Hid1 j).
    destruct (slot_entry s1 j), (slot_entry s j); try done.
    apply (inj Some), (f_equal node) in Hid1. simpl in *. congruence. }
  assert (revisits s1 = revisits s) as Hrvs.
  { rewrite Hrv1. apply set_eq. intros k. rewrite elem_of_filter. split; [tauto|]. intros Hkk. split; [|done].
    intros Hki. destruct Hk as (K1 & _ & K3). destruct (K1 _ Hkk) as (e0 & He0 & Hk0). rewrite Hki, He in He0.
    injection He0 as <-. rewrite (K3 _ _ He) in Hk0; [done|by rewrite Hre]. }
  assert (slot_expired s now i = bool_decide (expires_at e ≤ now)%Z) as Hexp
    by (unfold slot_expired; by rewrite He).
  rewrite Hexp. change (expires_at (idle e)) with (expires_at e). case_bool_decide as Hlive; simpl.
  - set (s2 := set_index s1 (delete (addr (node e)) (index s1))).
    assert (∀ k, k ∈ revisits s1 → k.2 ≠ i) as Hki by (intros k; rewrite Hrv1; by intros [? _]%elem_of_filter).
    pose proof (slot_entry_lt _ _ _ He1) as Hilt.
    destruct (replace_idle s2 l i None Hd1 Hk1 Hilt Hil Hki) as [Hd3 Hk3]; [done|].
    set (s3 := set_slots s2 _) in *.
    assert (∀ j, slot_entry s3 j = if decide (j = i) then None else slot_entry s1 j) as He3.
    { intros j. by apply (slot_entry_insert s2). }
    destruct (IH s3 l) as (o & s' & -> & Hwf' & Ht' & Hd' & Hc' & Htt' & Hiv' & Hlen' & Hrv' & Hdr' & Hres); try done.
    + intros a j. simpl. rewrite lookup_delete_Some, (Hix1 a j), He3. case_decide as Hj; [subst j|].
      * rewrite He1. split; [intros (Hne & ? & [= <-] & Ha); done|by intros (? & ? & _)].
      * split; [tauto|]. intros (e0 & He0 & Ha). split; [|eauto]. intros Heq. apply Hj.
        assert (index s1 !! addr (node e) = Some j) as X1 by (apply Hix1; eauto with congruence).
        assert (index s1 !! addr (node e) = Some i) as X2 by (apply Hix1; eexists; split; [exact He1|done]).
        congruence.
    + simpl. rewrite length_insert. lia.
    + intros j ej. rewrite He3. case_decide; [done|]. intros Hej. apply (Ht1 j ej Hej).
    + exists o, s'. assert (pick n l (slot_expired s3 now) = pick n l (slot_expired s now)) as Hpk.
      { apply pick_ext. intros j Hj. apply expired_idle. by rewrite He3, decide_False by naive_solver. }
      rewrite Hpk in *. simpl in *. rewrite length_insert in Hlen'. split_and!; try done; try congruence.
      1:{ apply (select_frees s s3); [exact Hexp|done|by rewrite He3, decide_True| |done].
          intros j Hj. by rewrite He3, decide_False. }
      destruct (pick n l (slot_expired s now)).1 as [j|]; [|done].
      destruct Hres as (e3 & He3' & -> & Hjl & Hex & Hel & Hix3 & Hs3).
      rewrite He3 in He3'. case_decide as Hj; [done|].
      specialize (Hun1 j Hj). rewrite He3' in Hun1. destruct (slot_entry s j) as [e0|] eqn:He0; [|done].
      apply (inj Some) in Hun1. exists e0.
      assert (node e3 = node e0) as Hnode by (by apply (f_equal node) in Hun1).
      assert (expires_at e3 = expires_at e0) as Hexq by (by apply (f_equal expires_at) in Hun1).
      assert (eligible_at s3 e3 = eligible_at s e0) as Helq.
      { unfold eligible_at, effective. change (revisit_interval s3) with (revisit_interval s1). rewrite Hiv1.
        assert (blocked_until e3 = blocked_until e0) as -> by (by apply (f_equal blocked_until) in Hun1).
        by assert (last_probe_at e3 = last_probe_at e0) as -> by (by apply (f_equal last_probe_at) in Hun1). }
      rewrite <-Hnode, <-Hexq, <-Helq. split_and!; try done; [by constructor|].
      rewrite Hs3. f_equal. unfold idle. by rewrite Hun1.
  - eexists _, s1. split; [done|]. split_and!; try done.
    + split_and!; [by exists l|done|done|]. by rewrite Hc1, Hlen1.
    + intros j. rewrite Hid1, bool_decide_false; [done|]. unfold dropped. simpl. rewrite Hexp. simpl.
      intros ([->|?]%elem_of_cons & ? & Hx); [|done]. by rewrite Hexp in Hx.
    + exists e. split_and!; try done; [constructor|lia| |].
      * apply (Ht _ _ He). by rewrite Hre.
      * apply Hix1. exists (idle e). done.
Qed.

(** What [pick] skips and where it stops. *)
Lemma pick_split n l f :
  ∃ l0, l = l0 ++ option_list (pick n l f).1 ++ (pick n l f).2 ∧ Forall (λ j, f j = true) l0 ∧ length l0 ≤ n
    ∧ match (pick n l f).1 with Some i => f i = false | None => length l0 = n ∨ (pick n l f).2 = [] end.
Proof.
  revert l; induction n as [|n IH]; intros [|j l]; simpl; try (exists []; split_and!; simpl; auto with lia; fail).
  destruct (f j) eqn:Hf; [|exists []; split_and!; try done; simpl; lia].
  destruct (IH l) as (l0 & Hl & Hall & Hlen & Hend). exists (j :: l0). simpl. split_and!; [by f_equal|by constructor|lia|].
  destruct (pick n l f) as [[i|] l']; simpl in *; [done|]. destruct Hend; auto.
Qed.

(** ** Scheduling leaves the snapshot's state alone *)

Definition snapshot_state (s : ResponsiveReservoir) :=
  (snapshot_prefix_cursor s, snapshot_member_cursors s, sparse_prefixes s, snapshot_links s).

Lemma update_snapshot s i f s' : update s i f = Some s' → snapshot_state s' = snapshot_state s.
Proof. unfold update. intros H. bind_inv H. by simplify_eq. Qed.

Lemma unschedule_snapshot s i s' : unschedule s i = Some s' → snapshot_state s' = snapshot_state s.
Proof.
  unfold unschedule. intros H. bind_inv H. apply update_snapshot in H as ->.
  trans (snapshot_state (match revisit_key r with
    | Some key => set_revisits s (revisits s ∖ {[key]}) (revisit_sequence s) | None => s end));
    [|by destruct (revisit_key r)].
  destruct (ready r); [|by simplify_eq]. bind_inv E0.
  destruct (ready_len r2); simplify_eq. trans (snapshot_state r1); [|].
  - destruct (next r); [by apply update_snapshot in E2|by simplify_eq].
  - destruct (previous r); [by apply update_snapshot in E1|by simplify_eq].
Qed.

Lemma push_ready_snapshot s i s' : push_ready s i = Some s' → snapshot_state s' = snapshot_state s.
Proof.
  unfold push_ready. intros H. bind_inv H. simplify_eq. apply update_snapshot in E as <-.
  destruct (ready_tail r); [by apply update_snapshot in E0|by simplify_eq].
Qed.

Lemma enqueue_snapshot s i w now s' :
  enqueue_revisit s i w now = Some s' → snapshot_state s' = snapshot_state s.
Proof.
  unfold enqueue_revisit. intros H. bind_inv H. apply unschedule_snapshot in E as <-.
  case_bool_decide; [by apply push_ready_snapshot in H|]. bind_inv H. simplify_eq.
  by apply update_snapshot in E.
Qed.

Lemma record_snapshot s n now p s' : record s n now p = Some s' → snapshot_state s' = snapshot_state s.
Proof.
  unfold record. intros H. destruct (index s !! addr n).
  - bind_inv H. apply update_snapshot in E0 as <-. case_bool_decide; [|by simplify_eq].
    bind_inv H. apply update_snapshot in E0 as <-. by apply enqueue_snapshot in H.
  - bind_inv H. simplify_eq. apply enqueue_snapshot in E1. trans (snapshot_state r); [done|].
    destruct o; [|by simplify_eq]. bind_inv E0. simplify_eq. by apply unschedule_snapshot in E2.
Qed.

Lemma promote_snapshot n s now s' : promote_loop n s now = Some s' → snapshot_state s' = snapshot_state s.
Proof.
  revert s; induction n as [|n IH]; intros s H; simpl in H; [by simplify_eq|].
  destruct (set_first _) as [key|]; [|by simplify_eq]. case_bool_decide; [by simplify_eq|].
  bind_inv H. apply IH in H as ->. apply push_ready_snapshot in E0 as ->. by apply update_snapshot in E.
Qed.

Lemma select_snapshot n s now r : select_loop n s now = Some r → snapshot_state r.2 = snapshot_state s.
Proof.
  revert s; induction n as [|n IH]; intros s H; simpl in H; [by simplify_eq|].
  destruct (ready_head s) as [i|]; [|by simplify_eq]. bind_inv H. apply unschedule_snapshot in E as <-.
  case_bool_decide; [by apply IH in H|by simplify_eq].
Qed.

Lemma next_revisit_snapshot s now r : next_revisit s now = Some r → snapshot_state r.2 = snapshot_state s.
Proof.
  unfold next_revisit. intros H. bind_inv H. apply select_snapshot in H as ->.
  by apply promote_snapshot in E.
Qed.

Lemma rest_snapshot s s' : rest s' = rest s → snapshot_state s' = snapshot_state s.
Proof. unfold rest, snapshot_state. congruence. Qed.

(** ** Claims *)

Inductive op :=
  | Record (n : NodeTuple) (probed_at : Instant)
  | NextRevisit
  | RecordProbe (a : SocketAddr)
  | Defer (a : SocketAddr) (retry_at : Instant)
  | Failure (a : SocketAddr) (dispatched_at : Instant).

Definition exec (s : ResponsiveReservoir) (o : op) (now : Instant) : option ResponsiveReservoir :=
  match o with
  | Record n probed_at => record s n now probed_at
  | NextRevisit => let! r := next_revisit s now in Some r.2
  | RecordProbe a => record_probe s a now
  | Defer a retry_at => defer_revisit s a retry_at now
  | Failure a d => let! r := record_failure s a d now in Some r.2
  end.

Fixpoint run (s : ResponsiveReservoir) (os : list (op * Instant)) : option ResponsiveReservoir :=
  match os with
  | [] => Some s
  | (o, now) :: os => let! s := exec s o now in run s os
  end.

Fixpoint clocked (t : Instant) (os : list (op * Instant)) : Prop :=
  match os with
  | [] => True
  | (_, now) :: os => (t ≤ now)%Z ∧ clocked now os
  end.

Lemma next_revisit_spec s now :
  wf s → timely s now →
  ∃ o s', next_revisit s now = Some (o, s') ∧ wf s' ∧ timely s' now
    ∧ length (slots s') = length (slots s)
    ∧ ∃ l, let ks := due_keys 256 (revisits s) now in let q := l ++ ks.*2 in
      NoDup q ∧ dll s l ∧ dll s' (pick 256 q (slot_expired s now)).2 ∧ revisits s' = revisits s ∖ list_to_set ks
      ∧ (∀ j, idle <$> slot_entry s' j = if bool_decide (dropped s now 256 q j) then None else idle <$> slot_entry s j)
      ∧ match (pick 256 q (slot_expired s now)).1 with
        | None => o = None
        | Some i => ∃ e, slot_entry s i = Some e ∧ o = Some (node e)
            ∧ (now < expires_at e)%Z ∧ (eligible_at s e ≤ now)%Z
            ∧ index s' !! addr (node e) = Some i ∧ slot_entry s' i = Some (idle e)
        end.
Proof.
  intros ([l Hd] & Hk & Hix & Hcur) Ht. unfold next_revisit.
  destruct (promote_ok 256 s l now) as (s1 & -> & Hd1 & Hk1 & Hix1 & Ht1 & Hrest & Hrv1 & Hid); try done.
  set (q := l ++ (due_keys 256 (revisits s) now).*2) in *.
  pose proof (rest_fields _ _ Hrest) as (Hi1 & Hc1 & Htt1 & Hiv1 & Hlen1).
  destruct (select_ok 256 s1 q now) as (o & s' & -> & Hwf' & Ht' & Hd' & _ & _ & _ & Hlen' & Hrv' & Hdr & Hres);
    try done; [by rewrite Hc1, Hlen1|].
  assert (pick 256 q (slot_expired s1 now) = pick 256 q (slot_expired s now)) as Hpk.
  { apply pick_ext. intros j _. by apply expired_idle. }
  rewrite Hpk in *. exists o, s'. split_and!; try done; [congruence|]. exists l. cbn zeta. split_and!; try done; [apply Hd1|by rewrite Hrv', Hrv1| |].
  { intros j. rewrite Hdr, Hid. erewrite bool_decide_ext; [done|]. unfold dropped. fold q.
    rewrite Hpk, (expired_idle s1 s) by done. done. }
  fold q.
  destruct (pick 256 q (slot_expired s now)).1 as [i|]; [|done].
  destruct Hres as (e1 & He1 & -> & _ & Hex & Hel & Hix' & He').
  specialize (Hid i). rewrite He1 in Hid. destruct (slot_entry s i) as [e|]; [|done].
  apply (inj Some) in Hid. exists e.
  assert (node e1 = node e) as Hn by (by apply (f_equal node) in Hid).
  assert (expires_at e1 = expires_at e) as Hx by (by apply (f_equal expires_at) in Hid).
  assert (eligible_at s1 e1 = eligible_at s e) as Hq.
  { unfold eligible_at, effective. rewrite Hiv1.
    assert (blocked_until e1 = blocked_until e) as -> by (by apply (f_equal blocked_until) in Hid).
    by assert (last_probe_at e1 = last_probe_at e) as -> by (by apply (f_equal last_probe_at) in Hid). }
  rewrite <-Hn, <-Hx, <-Hq. split_and!; try done. by rewrite He', Hid.
Qed.

Lemma reservoir_exec_ok s o now :
  wf s → timely s now →
  ∃ s', exec s o now = Some s' ∧ wf s' ∧ timely s' now ∧ length (slots s') = length (slots s).
Proof.
  intros Hwf Ht. destruct o; simpl.
  - destruct (record_ok s n now probed_at Hwf Ht) as (s' & -> & ? & ? & ? & _). eauto 10.
  - destruct (next_revisit_spec s now Hwf Ht) as (o & s' & -> & ? & ? & ? & _). eauto 10.
  - destruct (record_probe_ok s a now Hwf Ht) as (s' & -> & ? & ? & Hr).
    apply rest_fields in Hr as (_ & _ & _ & _ & ?). eauto 10.
  - destruct (defer_ok s a retry_at now Hwf Ht) as (s' & -> & ? & ? & Hr).
    apply rest_fields in Hr as (_ & _ & _ & _ & ?). eauto 10.
  - destruct (record_failure_ok s a dispatched_at now Hwf Ht) as (b & s' & -> & ? & ? & Hr & _).
    apply rest_fields in Hr as (_ & _ & _ & _ & ?). eauto 10.
Qed.

Lemma new_slot_entry cap t iv j : slot_entry (new cap t iv) j = None.
Proof.
  unfold slot_entry. simpl. destruct (replicate _ _ !! j) as [o|] eqn:E; [|done].
  by apply lookup_replicate in E as [-> _].
Qed.

Lemma reservoir_new_wf cap t iv now : wf (new cap t iv) ∧ timely (new cap t iv) now.
Proof.
  pose proof (new_slot_entry cap t iv) as Hn. split; [split_and!|].
  - exists []. split_and!; try done; [apply NoDup_nil_2| |].
    + intros i e. by rewrite Hn.
    + by intros [].
  - split_and!.
    + intros key Hk. simpl in Hk. set_solver.
    + intros i e key. by rewrite Hn.
    + intros i e. by rewrite Hn.
  - intros a i. rewrite Hn. simpl. split; [done|]. naive_solver.
  - simpl. rewrite length_replicate. lia.
  - intros j e. by rewrite Hn.
Qed.

Lemma reservoir_run_ok s os t :
  wf s → timely s t → clocked t os →
  ∃ s', run s os = Some s' ∧ wf s' ∧ length (slots s') = length (slots s).
Proof.
  revert s t. induction os as [|[o now] os IH]; intros s t Hwf Ht Hc; [by exists s|].
  destruct Hc as [Hle Hc].
  destruct (reservoir_exec_ok s o now Hwf (timely_mono _ _ _ Ht Hle)) as (s1 & He & Hwf1 & Ht1 & Hl1).
  destruct (IH s1 now Hwf1 Ht1 Hc) as (s' & Hr & Hwf' & Hl'). exists s'. cbn [run]. rewrite He.
  split_and!; [done..|congruence].
Qed.

(** C7: every history of [record], [next_revisit], [record_probe],
    [defer_revisit] and [record_failure] with a clock that never goes back
    runs without a panic; throughout, the index and the slots describe the
    same endpoints, a delayed slot and its key in the tree name each other,
    no slot waits both in the tree and in the ready list, and the intrusive
    links spell out a duplicate-free list of exactly the ready slots. *)
Theorem reservoir_history_safe cap ttl iv t (os : list (op * Instant)) :
  clocked t os →
  ∃ s, run (new cap ttl iv) os = Some s ∧ wf s ∧ length (slots s) = cap `max` 1.
Proof.
  intros Hc. destruct (reservoir_new_wf cap ttl iv t) as [Hwf Ht].
  destruct (reservoir_run_ok _ _ _ Hwf Ht Hc) as (s & Hr & Hwf' & Hl). exists s.
  rewrite Hl. simpl. by rewrite length_replicate.
Qed.

Definition ex_node (x : Z) : NodeTuple := mkNode [x] (SocketAddrV4 8 8 8 x 6881).
Definition ex_ops : list (op * Instant) :=
  [(Record (ex_node 1) 0, 1); (Record (ex_node 2) 0, 1); (Failure (addr (ex_node 1)) 1, 2);
   (NextRevisit, 30); (RecordProbe (addr (ex_node 2)), 30); (Record (ex_node 3) 31, 32);
   (Defer (addr (ex_node 3)) 35, 33); (NextRevisit, 6000000000)]%Z.

Lemma reservoir_history_safe_witness :
  clocked 0 ex_ops ∧
  ∃ s, run (new 2 100000000000 10) ex_ops = Some s ∧ wf s ∧ length (slots s) = 2 `max` 1.
Proof.
  assert (clocked 0 ex_ops) as Hc by (simpl; lia).
  split; [exact Hc|]. exact (reservoir_history_safe 2 100000000000 10 0 ex_ops Hc).
Defined.

(** C25: [next_revisit] serves the ready list in FIFO order and never starves
    it.  The slots that have become due, in order of their deadline and at most
    256 at a time, leave the tree and queue up behind those already ready.  The
    expired slots at the head of the queue, again at most 256, are freed, and no
    other slot.  The next one is returned: it is live, was last probed at least
    the revisit interval ago and is not inside a failure backoff.  Nothing is
    returned only if 256 expired slots were freed or the queue is then empty. *)
Theorem next_revisit_fifo_eligible (s : ResponsiveReservoir) (now : Instant) :
  wf s → timely s now →
  ∃ o s' l ks l0 l', next_revisit s now = Some (o, s') ∧ wf s'
    ∧ dll s l ∧ promoted 256 (revisits s) now ks ∧ revisits s' = revisits s ∖ list_to_set ks
    ∧ Forall (λ j, slot_expired s now j = true) l0 ∧ length l0 ≤ 256 ∧ dll s' l'
    ∧ (∀ j, idle <$> slot_entry s' j = if bool_decide (j ∈ l0) then None else idle <$> slot_entry s j)
    ∧ match o with
      | None => l ++ ks.*2 = l0 ++ l' ∧ (length l0 = 256 ∨ l' = [])
      | Some n => ∃ i e, l ++ ks.*2 = l0 ++ i :: l'
          ∧ slot_entry s i = Some e ∧ node e = n ∧ (now < expires_at e)%Z
          ∧ (last_probe_at e + revisit_interval s ≤ now)%Z
          ∧ is_backing_off s' (addr n) now = Some false
      end.
Proof.
  intros Hwf Ht. destruct (next_revisit_spec s now Hwf Ht) as (o & s' & Hr & Hwf' & _ & _ & l & Hnd & Hd & Hd' & Hrv & Hfr & Hres).
  set (ks := due_keys 256 (revisits s) now) in *. pose proof (due_keys_spec 256 (revisits s) now) as Hks.
  fold ks in Hks. clearbody ks.
  destruct (pick_split 256 (l ++ ks.*2) (slot_expired s now)) as (l0 & Hq & Hexp & Hlen & Hend).
  destruct (pick 256 (l ++ ks.*2) (slot_expired s now)) as [r l'] eqn:Hpk. cbn [fst snd] in *.
  assert (∀ j, dropped s now 256 (l ++ ks.*2) j ↔ j ∈ l0) as Hdrop.
  { intros j. unfold dropped. rewrite Hpk, Hq, !elem_of_app. rewrite Hq in Hnd. rewrite Forall_forall in Hexp. split.
    - intros ([?|[Hj|?]] & ? & He); [done| |done]. destruct r as [i|]; [|by apply elem_of_nil in Hj].
      apply list_elem_of_singleton in Hj as ->. congruence.
    - intros Hj. split_and!; [by left| |by apply Hexp]. intros Hj'. apply NoDup_app in Hnd as (_ & Hnd & _).
      apply (Hnd j Hj), elem_of_app. by right. }
  exists o, s', l, ks, l0, l'. split_and!; try done; [intros j; by rewrite Hfr, (bool_decide_ext _ _ (Hdrop j))|].
  destruct r as [i|]; [|subst o; done].
  destruct Hres as (e & He & -> & Hex & Hel & Hix & Hei). exists i, e.
  unfold eligible_at, effective in Hel. split_and!; try done; [destruct (blocked_until e); lia|].
  unfold is_backing_off. rewrite Hix. unfold slot_entry in Hei. destruct (slots s' !! i) as [o|]; [|done].
  subst o. simpl. destruct (blocked_until e); [|done]. f_equal. apply bool_decide_eq_false. lia.
Qed.

Definition ex_state : ResponsiveReservoir :=
  default (new 1 1 1) (run (new 2 100000000000 10) (take 2 ex_ops)).

Lemma ex_state_ok : wf ex_state ∧ timely ex_state 30.
Proof.
  destruct (reservoir_new_wf 2 100000000000 10 1) as [Hwf Ht].
  destruct (reservoir_exec_ok _ (Record (ex_node 1) 0) 1 Hwf Ht) as (s1 & E1 & Hwf1 & Ht1 & _).
  destruct (reservoir_exec_ok _ (Record (ex_node 2) 0) 1 Hwf1 Ht1) as (s2 & E2 & Hwf2 & Ht2 & _).
  assert (ex_state = s2) as ->.
  { unfold ex_state, ex_ops. cbn [take run]. by rewrite E1, E2. }
  split; [done|]. by eapply timely_mono; [exact Ht2|].
Qed.

Lemma next_revisit_fifo_eligible_witness :
  ∃ o s' l ks l0 l', next_revisit ex_state 30 = Some (o, s') ∧ wf s'
    ∧ dll ex_state l ∧ promoted 256 (revisits ex_state) 30 ks ∧ revisits s' = revisits ex_state ∖ list_to_set ks
    ∧ Forall (λ j, slot_expired ex_state 30 j = true) l0 ∧ length l0 ≤ 256 ∧ dll s' l'
    ∧ (∀ j, idle <$> slot_entry s' j = if bool_decide (j ∈ l0) then None else idle <$> slot_entry ex_state j)
    ∧ match o with
      | None => l ++ ks.*2 = l0 ++ l' ∧ (length l0 = 256 ∨ l' = [])
      | Some n => ∃ i e, l ++ ks.*2 = l0 ++ i :: l'
          ∧ slot_entry ex_state i = Some e ∧ node e = n ∧ (30 < expires_at e)%Z
          ∧ (last_probe_at e + revisit_interval ex_state ≤ 30)%Z
          ∧ is_backing_off s' (addr n) 30 = Some false
      end.
Proof. exact (next_revisit_fifo_eligible ex_state 30 (proj1 ex_state_ok) (proj2 ex_state_ok)). Defined.

(** The backoff of the [n]-th consecutive failure, in seconds. *)
Lemma backoff_table : backoff_secs <$> [1; 2; 3; 4; 5]%Z = [5; 10; 20; 40; 60]%Z.
Proof. reflexivity. Qed.

(** A failed probe of a known endpoint that has not answered since the
    probe was dispatched puts it into backoff until exactly
    [min(5 * 2^(k-1), 60)] seconds from now, [k] being its consecutive
    failures capped at 5; a failure older than the last reply changes
    nothing. *)
Theorem failure_backoff (s : ResponsiveReservoir) (a : SocketAddr) (dispatched now : Instant) i e :
  wf s → timely s now → index s !! a = Some i → slot_entry s i = Some e → (0 ≤ failures e ≤ 5)%Z →
  ∃ b s', record_failure s a dispatched now = Some (b, s') ∧ wf s' ∧
    (b = false ∧ (dispatched < last_success_at e)%Z ∧ s' = s
     ∨ b = true ∧ (last_success_at e ≤ dispatched)%Z ∧
       ∃ k e', (k = Z.min (failures e + 1) 5)%Z ∧ slot_entry s' i = Some e' ∧ failures e' = k
         ∧ ∀ t, is_backing_off s' a t =
             Some (bool_decide (t < now + from_secs (Z.min (5 * 2 ^ (k - 1)) 60))%Z)).
Proof.
  intros Hwf Ht Hi He Hf.
  destruct (record_failure_ok s a dispatched now Hwf Ht) as (b & s' & Hr & Hwf' & _ & Hrest & Hcase).
  apply rest_fields in Hrest as (Hix & _).
  rewrite Hi in Hcase. destruct Hcase as (e0 & He0 & Hcase). simplify_eq.
  exists b, s'. split_and!; try done. case_bool_decide as Hst; destruct Hcase as [-> Hs'].
  - left. done.
  - right. split_and!; [done|lia|]. set (k := Z.min (failures e + 1) 5) in *.
    destruct (slot_entry s' i) as [e'|] eqn:He'; [|done]. apply (inj Some) in Hs'.
    exists k, e'. split_and!; try done; [by apply (f_equal failures) in Hs'|].
    intros t. unfold is_backing_off. rewrite Hix, Hi. unfold slot_entry in He'.
    destruct (slots s' !! i) as [o|]; [|done]. subst o. apply (f_equal blocked_until) in Hs'. simpl in Hs'.
    rewrite Hs'. unfold backoff_secs. rewrite Z.shiftl_mul_pow2 by lia. done.
Qed.

Lemma failure_backoff_witness :
  ∃ b s', record_failure ex_state (addr (ex_node 1)) 5 30 = Some (b, s') ∧ wf s' ∧
    (b = false ∧ (5 < 1)%Z ∧ s' = ex_state
     ∨ b = true ∧ (1 ≤ 5)%Z ∧
       ∃ k e', (k = Z.min (0 + 1) 5)%Z ∧ slot_entry s' 0 = Some e' ∧ failures e' = k
         ∧ ∀ t, is_backing_off s' (addr (ex_node 1)) t =
             Some (bool_decide (t < 30 + from_secs (Z.min (5 * 2 ^ (k - 1)) 60))%Z)).
Proof.
  refine (failure_backoff ex_state (addr (ex_node 1)) 5 30 0
    (mkEntry (ex_node 1) 100000000001 0 1 0 None (Some (10%Z, 0%Z, 0)) false None None)
    (proj1 ex_state_ok) (proj2 ex_state_ok) _ _ _).
  - vm_compute. reflexivity.
  - vm_compute. reflexivity.
  - simpl. lia.
Defined.

End ResponsiveReservoir.
