(* ===== verification/Snapshot.v ===== *)
(** * Sampling the reservoir ([ResponsiveReservoir::snapshot] of [src/node_pool.rs])

    The sample of responsive nodes the crawl publishes.  Slots are grouped by
    the first byte of their node's identifier in 256 singly linked queues that
    share one array of links ([SnapshotSlots]), [usize::MAX] marking the end
    of a queue.  The queues are modelled as the code has them, index
    arithmetic and reused links included; the theorems recover the lists they
    stand for and state what the sample contains.  Reading or writing an
    array out of range, [unwrap] of a vacant slot and a remainder by zero are
    [None]. *)

From S2P Require Import Prelude Net Reservoir.

Module Snapshot.
Import ResponsiveReservoir.

(** ** [SnapshotSlots] *)

Record SnapshotSlots := mkQueue { head : Z; tail : Z; len : nat }.

Definition slots_default : SnapshotSlots := mkQueue usize_max usize_max 0.

(** [links[i]] and [links[i] = x]; an index out of range panics. *)
Definition get_link (links : list Z) (i : Z) : option Z :=
  if (i <? Z.of_nat (length links))%Z then links !! Z.to_nat i else None.
Definition set_link (links : list Z) (i x : Z) : option (list Z) :=
  if (i <? Z.of_nat (length links))%Z then Some (<[Z.to_nat i := x]> links) else None.

Definition push_back (q : SnapshotSlots) (slot : nat) (links : list Z) : option (SnapshotSlots * list Z) :=
  let! links := set_link links (Z.of_nat slot) usize_max in
  if bool_decide (len q = 0) then Some (mkQueue (Z.of_nat slot) (Z.of_nat slot) 1, links)
  else
    let! links := set_link links (tail q) (Z.of_nat slot) in
    Some (mkQueue (head q) (Z.of_nat slot) (S (len q)), links).

Definition pop_front (q : SnapshotSlots) (links : list Z) : option (option nat * SnapshotSlots) :=
  match len q with
  | 0 => Some (None, q)
  | S n =>
      let slot := head q in
      let! h := get_link links slot in
      Some (Some (Z.to_nat slot), mkQueue h (tail q) n)
  end.

Fixpoint rotate_loop (count : nat) (h t : Z) (links : list Z) : option (Z * Z) :=
  match count with
  | 0 => Some (h, t)
  | S count => let! h' := get_link links h in rotate_loop count h' h links
  end.

Definition rotate_left (q : SnapshotSlots) (count : nat) (links : list Z) : option (SnapshotSlots * list Z) :=
  if bool_decide (count = 0) then Some (q, links)
  else
    let! links := set_link links (tail q) (head q) in
    let! r := rotate_loop count (head q) (tail q) links in
    let! links := set_link links r.2 usize_max in
    Some (mkQueue r.1 r.2 (len q), links).

(** ** The sample *)

(** [Vec::resize] *)
Definition resize {A} (n : nat) (x : A) (l : list A) : list A := take n l ++ replicate (n - length l) x.
(** [slice::rotate_left] *)
Definition rotate {A} (n : nat) (l : list A) : list A := drop n l ++ take n l.
(** [iter().min().unwrap()] *)
Definition minimum (l : list nat) : option nat :=
  match l with [] => None | c :: l => Some (fold_left Nat.min l c) end.

Definition eligible (now : Instant) (e : ResponsiveEntry) : bool :=
  (now <? expires_at e)%Z && match blocked_until e with Some d => (d <=? now)%Z | None => true end.

(** [usize::from(entry.node.id[0])] *)
Definition prefix_of (n : NodeTuple) : option nat := Z.to_nat <$> (id n !! 0).

(** What the passes of a sample share. *)
Record Sample := mkSample {
  links : list Z;
  groups : list SnapshotSlots;
  deferred : list SnapshotSlots;
  active : list nat;
  subnets : gset SubnetKey;
  output : list NodeTuple;
  selected : list nat;
}.

Fixpoint collect (slots : list (option ResponsiveEntry)) (slot : nat) (now : Instant)
    (gs : list SnapshotSlots) (ln : list Z) : option (list SnapshotSlots * list Z) :=
  match slots with
  | [] => Some (gs, ln)
  | None :: slots => collect slots (S slot) now gs ln
  | Some e :: slots =>
      if eligible now e then
        let! prefix := prefix_of (node e) in
        let! q := gs !! prefix in
        let! r := push_back q slot ln in
        collect slots (S slot) now (<[prefix := r.1]> gs) r.2
      else collect slots (S slot) now gs ln
  end.

(** [for (prefix, count) in counts.iter().enumerate()]: the sparse prefixes,
    the order of the others, and the groups turned by their cursors. *)
Fixpoint prefix_loop (counts : list nat) (prefix : nat) (least : nat) (cursors : list nat)
    (sparse : list Z) (order : list nat) (gs : list SnapshotSlots) (ln : list Z)
  : option (list Z * list nat * (list SnapshotSlots * list Z)) :=
  match counts with
  | [] => Some (sparse, order, (gs, ln))
  | count :: counts =>
      let sparse := if bool_decide (count = least) then sparse ++ [Z.of_nat prefix] else sparse in
      if bool_decide (0 < count) then
        let! q := gs !! prefix in
        let! cursor := cursors !! prefix in
        let! r := rotate_left q (cursor `mod` count) ln in
        prefix_loop counts (S prefix) least cursors sparse (order ++ [prefix]) (<[prefix := r.1]> gs) r.2
      else prefix_loop counts (S prefix) least cursors sparse order gs ln
  end.

(** [output.push(node); selected[prefix] += 1] *)
Definition emit (st : Sample) (prefix : nat) (n : NodeTuple) : option Sample :=
  let! k := selected st !! prefix in
  Some (mkSample (links st) (groups st) (deferred st) (active st) (subnets st) (output st ++ [n])
          (<[prefix := S k]> (selected st))).

Definition set_group (st : Sample) (prefix : nat) (q : SnapshotSlots) : Sample :=
  mkSample (links st) (<[prefix := q]> (groups st)) (deferred st) (active st) (subnets st) (output st)
    (selected st).
Definition set_deferred (st : Sample) (prefix : nat) (q : SnapshotSlots) (ln : list Z) : Sample :=
  mkSample ln (groups st) (<[prefix := q]> (deferred st)) (active st) (subnets st) (output st) (selected st).
Definition set_active (st : Sample) (l : list nat) : Sample :=
  mkSample (links st) (groups st) (deferred st) l (subnets st) (output st) (selected st).
Definition add_subnet (st : Sample) (k : SubnetKey) : Sample :=
  mkSample (links st) (groups st) (deferred st) (active st) ({[k]} ∪ subnets st) (output st) (selected st).

(** [if groups[prefix].len > 0 { active.push_back(prefix) }] *)
Definition requeue (st : Sample) (prefix : nat) : option Sample :=
  let! q := groups st !! prefix in
  Some (if bool_decide (0 < len q) then set_active st (active st ++ [prefix]) else st).

Section passes.
Context (s : ResponsiveReservoir) (limit : nat).

(** [self.slots[slot].unwrap().node] *)
Definition slot_node (slot : nat) : option NodeTuple := let! e := slot_entry s slot in Some (node e).

(** A seed for each represented prefix. *)
Fixpoint seed_loop (order : list nat) (st : Sample) : option Sample :=
  match order with
  | [] => Some st
  | prefix :: order =>
      let! st :=
        (if bool_decide (length (output st) < limit) then
           let! q := groups st !! prefix in
           let! r := pop_front q (links st) in
           match r.1 with
           | Some slot =>
               let st := set_group st prefix r.2 in
               let! n := slot_node slot in
               let! st := emit st prefix n in
               Some (add_subnet st (subnet_from_addr (addr n)))
           | None => Some st
           end
         else Some st) in
      let! st := requeue st prefix in
      seed_loop order st
  end.

(** [while let Some(slot) = groups[prefix].pop_front(links)] *)
Fixpoint scan_group (fuel : nat) (prefix : nat) (st : Sample) : option Sample :=
  match fuel with
  | 0 => None
  | S fuel =>
      let! q := groups st !! prefix in
      let! r := pop_front q (links st) in
      match r.1 with
      | None => Some st
      | Some slot =>
          let st := set_group st prefix r.2 in
          let! n := slot_node slot in
          if bool_decide (subnet_from_addr (addr n) ∈ subnets st) then
            let! d := deferred st !! prefix in
            let! p := push_back d slot (links st) in
            scan_group fuel prefix (set_deferred st prefix p.1 p.2)
          else emit (add_subnet st (subnet_from_addr (addr n))) prefix n
      end
  end.

(** Round robin over the prefixes, preferring new subnets. *)
Fixpoint fill_loop (fuel : nat) (st : Sample) : option Sample :=
  match fuel with
  | 0 => None
  | S fuel =>
      if bool_decide (length (output st) < limit) then
        match active st with
        | [] => Some st
        | prefix :: rest =>
            let st := set_active st rest in
            let! q := groups st !! prefix in
            let! st := scan_group (S (len q)) prefix st in
            let! st := requeue st prefix in
            fill_loop fuel st
        end
      else Some st
  end.

(** [for prefix in prefix_order { if deferred[prefix].len > 0 .. }] *)
Fixpoint wake_loop (order : list nat) (st : Sample) : option Sample :=
  match order with
  | [] => Some st
  | prefix :: order =>
      let! q := deferred st !! prefix in
      wake_loop order (if bool_decide (0 < len q) then set_active st (active st ++ [prefix]) else st)
  end.

Fixpoint deferred_loop (fuel : nat) (st : Sample) : option Sample :=
  match fuel with
  | 0 => None
  | S fuel =>
      if bool_decide (length (output st) < limit) then
        match active st with
        | [] => Some st
        | prefix :: rest =>
            let st := set_active st rest in
            let! q := deferred st !! prefix in
            let! r := pop_front q (links st) in
            let! slot := r.1 in
            let st := set_deferred st prefix r.2 (links st) in
            let! n := slot_node slot in
            let! st := emit st prefix n in
            deferred_loop fuel
              (if bool_decide (0 < len r.2) then set_active st (active st ++ [prefix]) else st)
        end
      else Some st
  end.

(** Subnet diversity is relaxed once every distinct subnet was considered. *)
Definition relax (fuel : nat) (order : list nat) (st : Sample) : option Sample :=
  if bool_decide (length (output st) < limit) then
    let! st := wake_loop order st in
    deferred_loop fuel st
  else Some st.
End passes.

(** [for prefix in 0..256] *)
Fixpoint advance_cursors (prefixes : list nat) (chosen counts cursors : list nat) : option (list nat) :=
  match prefixes with
  | [] => Some cursors
  | prefix :: prefixes =>
      let! k := chosen !! prefix in
      if bool_decide (0 < k) then
        let! c := cursors !! prefix in
        let! n := counts !! prefix in
        if bool_decide (n = 0) then None
        else advance_cursors prefixes chosen counts (<[prefix := (c + 1) `mod` n]> cursors)
      else advance_cursors prefixes chosen counts cursors
  end.

Definition set_snapshot (s : ResponsiveReservoir) cursor cursors sparse ln : ResponsiveReservoir :=
  mk (slots s) (index s) (write_cursor s) (revisits s) (revisit_sequence s) (ready_head s) (ready_tail s)
     (ready_len s) (ttl s) (revisit_interval s) cursor cursors sparse ln.

Definition snapshot (s : ResponsiveReservoir) (limit : nat) (now : Instant)
  : option (list NodeTuple * ResponsiveReservoir) :=
  let ln := resize (length (slots s)) usize_max (snapshot_links s) in
  let! r := collect (slots s) 0 now (replicate 256 slots_default) ln in
  let '(gs, ln) := r in
  let counts := len <$> gs in
  let! least := minimum counts in
  let! r := prefix_loop counts 0 least (snapshot_member_cursors s) [] [] gs ln in
  let '(sparse, order, (gs, ln)) := r in
  let limit := limit `min` sum_list counts in
  let order :=
    if bool_decide (order = []) then order
    else rotate (snapshot_prefix_cursor s `mod` length order) order in
  let st := mkSample ln gs (replicate 256 slots_default) [] ∅ [] (replicate 256 0) in
  let! st := seed_loop s limit order st in
  let! st := fill_loop s limit (S (length (slots s))) st in
  let! st := relax s limit (S (length (slots s))) order st in
  let! cursors := advance_cursors (seq 0 256) (selected st) counts (snapshot_member_cursors s) in
  let cursor := (snapshot_prefix_cursor s + 1) `mod` (length order `max` 1) in
  Some (output st, set_snapshot s cursor cursors sparse (links st)).

(** ** What the queues stand for *)

(** Consecutive slots of [l] are linked. *)
Fixpoint chain (ln : list Z) (l : list nat) : Prop :=
  match l with
  | x :: ((y :: _) as l') => ln !! x = Some (Z.of_nat y) ∧ chain ln l'
  | _ => True
  end.

Definition queue (ln : list Z) (q : SnapshotSlots) (l : list nat) : Prop :=
  len q = length l ∧ chain ln l
  ∧ (∀ x, hd_error l = Some x → head q = Z.of_nat x) ∧ (∀ x, last l = Some x → tail q = Z.of_nat x).

Lemma chain_app ln l1 l2 : chain ln (l1 ++ l2) → chain ln l1 ∧ chain ln l2.
Proof.
  induction l1 as [|x [|y l1] IH]; simpl in *; [done| |].
  - destruct l2; [done|]. intros [_ ?]. done.
  - intros [? H]. apply IH in H as [??]. done.
Qed.

Lemma chain_snoc ln l x y : chain ln (l ++ [x]) → ln !! x = Some (Z.of_nat y) → chain ln ((l ++ [x]) ++ [y]).
Proof.
  induction l as [|a [|b l] IH]; simpl in *; [done|naive_solver|]. intros [? H] Hx. split; [done|]. by apply IH.
Qed.

Lemma chain_join ln l1 x y l2 :
  chain ln (l1 ++ [x]) → ln !! x = Some (Z.of_nat y) → chain ln (y :: l2) → chain ln ((l1 ++ [x]) ++ y :: l2).
Proof.
  induction l1 as [|a [|b l1] IH]; intros H Hx H2; [done|simpl in *; naive_solver|].
  destruct H as [? H]. split; [done|]. by apply IH.
Qed.

(** A write outside a queue, or at its end, does not disturb it. *)
Lemma chain_insert ln l x v : x ∉ removelast l → chain ln l → chain (<[x := v]> ln) l.
Proof.
  induction l as [|a [|b l] IH]; intros Hx Hc; [done..|]. destruct Hc as [Ha Hc].
  change (removelast (a :: b :: l)) with (a :: removelast (b :: l)) in Hx. apply not_elem_of_cons in Hx as [? ?].
  split; [|by apply IH]. by rewrite list_lookup_insert_ne.
Qed.

Lemma removelast_sub {A} (l : list A) x : x ∈ removelast l → x ∈ l.
Proof.
  induction l as [|a [|b l] IH]; [done|by intros ?%elem_of_nil|].
  change (removelast (a :: b :: l)) with (a :: removelast (b :: l)).
  intros [->|H]%elem_of_cons; [by left|]. right. by apply IH.
Qed.

Lemma removelast_snoc {A} (l : list A) x : removelast (l ++ [x]) = l.
Proof. by rewrite removelast_app, app_nil_r. Qed.

Lemma chain_insert_out ln l x v : x ∉ l → chain ln l → chain (<[x := v]> ln) l.
Proof. intros Hx. apply chain_insert. intros ?%removelast_sub. done. Qed.

Lemma get_link_lt ln x : x < length ln → get_link ln (Z.of_nat x) = ln !! x.
Proof. intros Hx. unfold get_link. rewrite Nat2Z.id. destruct (Z.ltb_spec (Z.of_nat x) (Z.of_nat (length ln))); [done|lia]. Qed.

Lemma set_link_lt ln x v : x < length ln → set_link ln (Z.of_nat x) v = Some (<[x := v]> ln).
Proof. intros Hx. unfold set_link. rewrite Nat2Z.id. destruct (Z.ltb_spec (Z.of_nat x) (Z.of_nat (length ln))); [done|lia]. Qed.

(** All queues together: they share the links, so they hold distinct slots. *)
Record queues (ln : list Z) (qs : list SnapshotSlots) (ls : list (list nat)) : Prop := {
  qs_length : length qs = length ls;
  qs_queue p q l : qs !! p = Some q → ls !! p = Some l → queue ln q l;
  qs_distinct : NoDup (concat ls);
  qs_range x : x ∈ concat ls → x < length ln;
}.

Lemma concat_insert (ls : list (list nat)) p l :
  ls !! p = Some l → ∃ r, concat ls ≡ₚ l ++ r ∧ ∀ l', concat (<[p := l']> ls) ≡ₚ l' ++ r.
Proof.
  intros Hp. exists (concat (take p ls) ++ concat (drop (S p) ls)). split.
  - rewrite <-(take_drop_middle ls p l Hp) at 1. rewrite concat_app. simpl. solve_Permutation.
  - intros l'. rewrite (insert_take_drop ls p l') by (by eapply lookup_lt_Some).
    rewrite concat_app. simpl. solve_Permutation.
Qed.

Lemma elem_of_concat (ls : list (list nat)) x : x ∈ concat ls ↔ ∃ p l, ls !! p = Some l ∧ x ∈ l.
Proof.
  rewrite list_elem_of_In, in_concat. split.
  - intros (l & Hl & Hx). apply list_elem_of_In, list_elem_of_lookup in Hl as [p Hp].
    exists p, l. by rewrite list_elem_of_In.
  - intros (p & l & Hp & Hx). exists l. split; [|by apply list_elem_of_In].
    apply list_elem_of_In. by eapply list_elem_of_lookup_2.
Qed.

Lemma concat_disjoint (ls : list (list nat)) p1 p2 l1 l2 x :
  NoDup (concat ls) → ls !! p1 = Some l1 → ls !! p2 = Some l2 → x ∈ l1 → x ∈ l2 → p1 = p2.
Proof.
  intros Hnd H1 H2 Hx1 Hx2. destruct (decide (p1 = p2)) as [|Hne]; [done|exfalso].
  destruct (concat_insert ls p1 l1 H1) as (r & Hc & Hc'). rewrite Hc, NoDup_app in Hnd.
  destruct Hnd as (_ & Hd & _). apply (Hd x Hx1). rewrite <-(app_nil_l r), <-(Hc' []).
  apply elem_of_concat. exists p2, l2. by rewrite list_lookup_insert_ne.
Qed.

Lemma chain_ext ln ln' l : (∀ x, x ∈ l → ln' !! x = ln !! x) → chain ln l → chain ln' l.
Proof.
  induction l as [|a [|b l] IH]; intros He Hc; [done..|]. destruct Hc as [Ha Hc]. split.
  - by rewrite He by (by left).
  - apply IH; [|done]. intros x Hx. apply He. by right.
Qed.

(** Replacing one queue. *)
Lemma queues_update ln ln' qs ls p q' l l' :
  queues ln qs ls → ls !! p = Some l → length ln' = length ln → queue ln' q' l' →
  (∀ x, x ∈ l' → x ∈ l ∨ x ∉ concat ls ∧ x < length ln) → NoDup l' →
  (∀ k, k ∉ l → k ∉ l' → ln' !! k = ln !! k) →
  queues ln' (<[p := q']> qs) (<[p := l']> ls).
Proof.
  intros [] Hp Hlen Hq Hsub Hnd Hln.
  assert (∀ p2 l2 x, p2 ≠ p → ls !! p2 = Some l2 → x ∈ l2 → x ∉ l ∧ x ∉ l') as Hout.
  { intros p2 l2 x Hne Hl2 Hx. assert (x ∉ l) as Hxl by (intros Hxl; by apply Hne; eapply concat_disjoint).
    split; [done|]. intros Hl'. destruct (Hsub x Hl') as [?|[Hn _]]; [done|]. apply Hn, elem_of_concat. eauto. }
  split.
  - by rewrite !length_insert.
  - intros p2 q2 l2 Hq2 Hl2. destruct (decide (p2 = p)) as [->|Hne].
    + rewrite list_lookup_insert_eq in Hq2 by (rewrite qs_length0; by eapply lookup_lt_Some).
      rewrite list_lookup_insert_eq in Hl2 by (by eapply lookup_lt_Some). by simplify_eq.
    + rewrite list_lookup_insert_ne in Hq2 by done. rewrite list_lookup_insert_ne in Hl2 by done.
      destruct (qs_queue0 _ _ _ Hq2 Hl2) as (? & Hch & ?). split; [done|]. split; [|done].
      eapply chain_ext; [|done]. intros x Hx. by apply Hln; eapply Hout.
  - destruct (concat_insert ls p l Hp) as (r & Hc & Hc'). rewrite Hc', NoDup_app. rewrite Hc, NoDup_app in qs_distinct0.
    assert (∀ x, x ∈ concat (<[p := []]> ls) → x ∉ l') as Hrest.
    { intros x (p2 & l2 & Hl2 & Hx)%elem_of_concat. destruct (decide (p2 = p)) as [->|Hne].
      - rewrite list_lookup_insert_eq in Hl2 by (by eapply lookup_lt_Some). simplify_eq. by apply elem_of_nil in Hx.
      - rewrite list_lookup_insert_ne in Hl2 by done. by eapply Hout. }
    split_and!; [done| |apply qs_distinct0]. intros x Hx Hr. apply (Hrest x); [|done]. by rewrite (Hc' []).
  - intros x (p2 & l2 & Hl2 & Hx)%elem_of_concat. rewrite Hlen. destruct (decide (p2 = p)) as [->|Hne].
    + rewrite list_lookup_insert_eq in Hl2 by (by eapply lookup_lt_Some). simplify_eq.
      destruct (Hsub _ Hx) as [?|[_ ?]]; [|done]. apply qs_range0, elem_of_concat. eauto.
    + rewrite list_lookup_insert_ne in Hl2 by done. apply qs_range0, elem_of_concat. eauto.
Qed.

Lemma queues_pop ln qs ls p x l :
  queues ln qs ls → ls !! p = Some (x :: l) →
  ∃ q q', qs !! p = Some q ∧ pop_front q ln = Some (Some x, q') ∧ len q' = length l
    ∧ queues ln (<[p := q']> qs) (<[p := l]> ls).
Proof.
  intros Hqs Hp. destruct (lookup_lt_is_Some_2 qs p) as [q Hq].
  { rewrite (qs_length _ _ _ Hqs). by eapply lookup_lt_Some. }
  destruct (qs_queue _ _ _ Hqs _ _ _ Hq Hp) as (Hlen & Hch & Hh & Ht).
  assert (x < length ln) as Hx by (apply (qs_range _ _ _ Hqs), elem_of_concat; exists p, (x :: l); set_solver).
  destruct (lookup_lt_is_Some_2 ln x Hx) as [h Hln].
  pose proof (qs_distinct _ _ _ Hqs) as Hnd. destruct (concat_insert ls p _ Hp) as (r & Hc & _).
  rewrite Hc in Hnd. apply NoDup_app in Hnd as [Hnd _]. apply NoDup_cons in Hnd as [_ Hnd].
  exists q, (mkQueue h (tail q) (length l)). split; [done|]. unfold pop_front. rewrite Hlen. simpl.
  rewrite (Hh x) by done. rewrite get_link_lt, Hln, Nat2Z.id by done. split; [done|]. split; [done|].
  apply (queues_update ln ln qs ls p _ (x :: l) l); try done; [|set_solver].
  split; [done|]. split; [by destruct l; [|destruct Hch]|]. simpl. split.
  - intros y Hy. destruct l as [|z l]; [done|]. simplify_eq/=. destruct Hch as [Hz _]. by simplify_eq.
  - intros y Hy. apply Ht. by destruct l; [|rewrite last_cons_cons].
Qed.

Lemma queues_pop_empty ln qs ls p :
  queues ln qs ls → ls !! p = Some [] → ∃ q, qs !! p = Some q ∧ len q = 0 ∧ pop_front q ln = Some (None, q).
Proof.
  intros Hqs Hp. destruct (lookup_lt_is_Some_2 qs p) as [q Hq].
  { rewrite (qs_length _ _ _ Hqs). by eapply lookup_lt_Some. }
  destruct (qs_queue _ _ _ Hqs _ _ _ Hq Hp) as (Hlen & _). exists q. unfold pop_front. by rewrite Hlen.
Qed.

Lemma queues_push ln qs ls p q l x :
  queues ln qs ls → ls !! p = Some l → qs !! p = Some q → x ∉ concat ls → x < length ln →
  ∃ q' ln', push_back q x ln = Some (q', ln') ∧ length ln' = length ln
    ∧ queues ln' (<[p := q']> qs) (<[p := l ++ [x]]> ls).
Proof.
  intros Hqs Hp Hq Hx Hlt. destruct (qs_queue _ _ _ Hqs _ _ _ Hq Hp) as (Hlen & Hch & Hh & Ht).
  pose proof (qs_distinct _ _ _ Hqs) as Hnd. destruct (concat_insert ls p _ Hp) as (r & Hc & _).
  rewrite Hc in Hnd, Hx. apply NoDup_app in Hnd as [Hnd _]. apply not_elem_of_app in Hx as [Hxl Hxr].
  assert (NoDup (l ++ [x])) as Hnd'.
  { apply NoDup_app. split_and!; [done| |apply NoDup_singleton]. by intros y Hy ->%list_elem_of_singleton. }
  assert (∀ y, y ∈ l ++ [x] → y ∈ l ∨ y ∉ concat ls ∧ y < length ln) as Hsub.
  { intros y [?|Hy%list_elem_of_singleton]%elem_of_app; [by left|right]. subst y. rewrite Hc. split; [|done].
    by apply not_elem_of_app. }
  unfold push_back. rewrite set_link_lt by done. case_bool_decide as Hz.
  - destruct l as [|y l]; [|simpl in Hlen; lia]. eexists _, _. split; [done|]. split; [by rewrite length_insert|].
    apply (queues_update ln _ qs ls p _ []); try done.
    + by rewrite length_insert.
    + split; [done|]. split; [done|]. split; intros y Hy; by simplify_eq/=.
    + intros k _ Hk. rewrite list_lookup_insert_ne; [done|]. intros ->. set_solver.
  - destruct (exists_last (l:=l)) as (l0 & z & ->); [by intros ->|].
    assert (tail q = Z.of_nat z) as Htz by (apply Ht, last_snoc).
    assert (z < length ln) as Hzlt.
    { apply (qs_range _ _ _ Hqs), elem_of_concat. exists p, (l0 ++ [z]). set_solver. }
    rewrite Htz, set_link_lt by (by rewrite length_insert). eexists _, _. split; [done|].
    split; [by rewrite !length_insert|]. apply (queues_update ln _ qs ls p _ (l0 ++ [z])); try done.
    + by rewrite !length_insert.
    + apply NoDup_app in Hnd as (_ & Hz0 & _). split; [simpl; rewrite length_app; simpl; lia|]. split.
      * apply chain_snoc; [|by rewrite list_lookup_insert_eq by (by rewrite length_insert)].
        apply chain_insert; [rewrite removelast_snoc; intros Hin; apply (Hz0 z Hin); set_solver|].
        by apply chain_insert_out.
      * simpl. split; [|intros y; rewrite last_snoc; by intros [= <-]].
        intros y Hy. apply Hh. by destruct l0.
    + intros k Hk Hk'. rewrite !list_lookup_insert_ne; [done|intros ->; set_solver..].
Qed.

Lemma rotate_loop_spec ln l1 x y l2 t :
  chain ln ((l1 ++ [x]) ++ y :: l2) → (∀ z, z ∈ l1 ++ [x] → z < length ln) →
  ∀ h, hd_error (l1 ++ [x]) = Some h →
  rotate_loop (length (l1 ++ [x])) (Z.of_nat h) t ln = Some (Z.of_nat y, Z.of_nat x).
Proof.
  revert t; induction l1 as [|a l1 IH]; intros t Hc Hr h Hh; simplify_eq/=.
  - destruct Hc as [Hx _]. by rewrite get_link_lt, Hx by (apply Hr; set_solver).
  - destruct (l1 ++ [x]) as [|b l] eqn:E; [by destruct l1|]. simpl in Hc. destruct Hc as [Hb Hc].
    rewrite get_link_lt, Hb by (apply Hr; set_solver). apply IH; [done|set_solver|done].
Qed.

Lemma queues_rotate ln qs ls p q l c :
  queues ln qs ls → ls !! p = Some l → qs !! p = Some q → c < length l →
  ∃ q' ln', rotate_left q c ln = Some (q', ln') ∧ length ln' = length ln ∧ len q' = len q
    ∧ queues ln' (<[p := q']> qs) (<[p := rotate c l]> ls).
Proof.
  intros Hqs Hp Hq Hc. unfold rotate_left. case_bool_decide as Hz.
  { subst c. exists q, ln. unfold rotate. rewrite drop_0, take_0, app_nil_r, !list_insert_id by done. done. }
  destruct (qs_queue _ _ _ Hqs _ _ _ Hq Hp) as (Hlen & Hch & Hh & Ht).
  assert (∀ z, z ∈ l → z < length ln) as Hr.
  { intros z Hzl. apply (qs_range _ _ _ Hqs), elem_of_concat. eauto. }
  pose proof (qs_distinct _ _ _ Hqs) as Hnd. destruct (concat_insert ls p _ Hp) as (r & Hcc & _).
  rewrite Hcc in Hnd. apply NoDup_app in Hnd as [Hnd _].
  assert (rotate c l ≡ₚ l) as Hperm by (unfold rotate; by rewrite Permutation_app_comm, take_drop).
  rewrite <-(take_drop c l) in Hch, Hnd, Hh, Ht, Hr. unfold rotate in *.
  assert (length (take c l) = c) as Hl1 by (rewrite length_take; lia).
  assert (length (drop c l) = length l - c) as Hl2 by apply length_drop.
  destruct (exists_last (l:=take c l)) as (a & x & Ea); [intros E; rewrite E in Hl1; simpl in Hl1; lia|].
  destruct (exists_last (l:=drop c l)) as (b & y & Eb); [intros E; rewrite E in Hl2; simpl in Hl2; lia|].
  rewrite Ea, Eb in *. clear Ea Eb. set (l1 := a ++ [x]) in *. set (l2 := b ++ [y]) in *.
  destruct l1 as [|h l1'] eqn:E1; [by destruct a|]. rewrite <-E1 in *.
  assert (head q = Z.of_nat h) as Hhd by (apply Hh; by rewrite E1).
  assert (tail q = Z.of_nat y) as Htl by (apply Ht; unfold l2; by rewrite app_assoc, last_snoc).
  rewrite Htl, Hhd, set_link_lt by (apply Hr; set_solver). set (ln1 := <[y := Z.of_nat h]> ln).
  destruct (chain_app _ _ _ Hch) as [Hc1 Hc2]. apply NoDup_app in Hnd as (Hn1 & Hn12 & Hn2).
  assert (y ∈ l2) as Hy2 by set_solver. assert (x ∈ l1) as Hx1 by set_solver.
  assert (y ∉ b) as Hyb.
  { intros Hin. apply NoDup_app in Hn2 as (_ & Hd & _). apply (Hd y Hin). set_solver. }
  assert (x ∉ a) as Hxa.
  { intros Hin. unfold l1 in Hn1. apply NoDup_app in Hn1 as (_ & Hd & _). apply (Hd x Hin). set_solver. }
  assert (chain ln1 l2) as Hc2' by (apply chain_insert; [unfold l2; by rewrite removelast_snoc|done]).
  destruct l2 as [|g l2'] eqn:E2; [by destruct b|]. rewrite <-E2 in *.
  assert (rotate_loop c (Z.of_nat h) (Z.of_nat y) ln1 = Some (Z.of_nat g, Z.of_nat x)) as Hrot.
  { rewrite <-Hl1. eapply (rotate_loop_spec ln1 a x g l2'); fold l1.
    - rewrite <-E2. apply chain_insert; [|done]. unfold l2. rewrite app_assoc, removelast_snoc.
      apply not_elem_of_app. split; [intros Hin; by apply (Hn12 y Hin)|done].
    - intros z Hz1. unfold ln1. rewrite length_insert. apply Hr. set_solver.
    - by rewrite E1. }
  rewrite Hrot. cbn [fst snd]. rewrite set_link_lt by (unfold ln1; rewrite length_insert; apply Hr; set_solver).
  eexists _, _. split; [done|]. split; [unfold ln1; by rewrite !length_insert|]. split; [done|].
  apply (queues_update ln _ qs ls p _ l (l2 ++ l1)); try done.
  - unfold ln1. by rewrite !length_insert.
  - split; [simpl; rewrite Hlen, (Permutation_length Hperm); done|]. split.
    + unfold l2. rewrite E1. apply chain_join; fold l2; [| |rewrite <-E1].
      * apply chain_insert_out; [intros Hin; by apply (Hn12 x)|done].
      * rewrite list_lookup_insert_ne by (intros ->; by apply (Hn12 y)). unfold ln1.
        rewrite list_lookup_insert_eq; [done|]. apply Hr. set_solver.
      * apply chain_insert; [unfold l1; by rewrite removelast_snoc|].
        apply chain_insert_out; [intros Hin; by apply (Hn12 y)|done].
    + simpl. split; intros z.
      * rewrite E2. by intros [= <-].
      * unfold l1. rewrite app_assoc, last_snoc. by intros [= <-].
  - intros z Hin. left. by rewrite <-Hperm.
  - rewrite Permutation_app_comm. by apply NoDup_app.
  - intros k Hk Hk'. unfold ln1. rewrite !list_lookup_insert_ne; [done|intros ->; set_solver..].
Qed.

(** ** Correctness *)

(** The nodes a sample may publish, slot by slot. *)
Definition eligible_nodes (s : ResponsiveReservoir) (now : Instant) : list NodeTuple :=
  node <$> filter (λ e, eligible now e = true) (omap (λ o, o) (slots s)).

(** Identifiers have a first byte. *)
Definition ids_ok (s : ResponsiveReservoir) : Prop :=
  ∀ i e, slot_entry s i = Some e → ∃ p, prefix_of (node e) = Some p ∧ p < 256.

Section correct.
Context (s : ResponsiveReservoir) (now : Instant) (limit : nat).
Context (Hids : ids_ok s).

Definition slot_eligible (i : nat) : bool :=
  match slot_entry s i with Some e => eligible now e | None => false end.
Definition eligible_slots : list nat := filter (λ i, slot_eligible i = true) (seq 0 (length (slots s))).
Definition slot_prefix (i : nat) : option nat := let! n := slot_node s i in prefix_of n.

(** Queues hold slots of their own prefix. *)
Definition placed (ls : list (list nat)) : Prop :=
  length ls = 256 ∧ ∀ p l x, ls !! p = Some l → x ∈ l → slot_prefix x = Some p.

Lemma placed_insert ls p l l' :
  placed ls → ls !! p = Some l → (∀ x, x ∈ l' → x ∈ l ∨ slot_prefix x = Some p) → placed (<[p := l']> ls).
Proof.
  intros [Hlen Hpl] Hp Hl'. split; [by rewrite length_insert|]. intros p2 l2 x Hl2 Hx.
  destruct (decide (p2 = p)) as [->|].
  - rewrite list_lookup_insert_eq in Hl2 by (by eapply lookup_lt_Some). simplify_eq.
    destruct (Hl' _ Hx); [|done]. by eapply Hpl.
  - rewrite list_lookup_insert_ne in Hl2 by done. by eapply Hpl.
Qed.

Lemma collect_ok sl k gs ln Gs :
  drop k (slots s) = sl → queues ln gs Gs → placed Gs → length ln = length (slots s) → k ≤ length (slots s) →
  concat Gs ≡ₚ filter (λ i, slot_eligible i = true) (seq 0 k) →
  ∃ gs' ln' Gs', collect sl k now gs ln = Some (gs', ln') ∧ queues ln' gs' Gs' ∧ placed Gs'
    ∧ length ln' = length (slots s) ∧ concat Gs' ≡ₚ eligible_slots.
Proof.
  revert k gs ln Gs; induction sl as [|o sl IH]; intros k gs ln Gs Hdrop Hq Hpl Hln Hk HE.
  { apply (f_equal length) in Hdrop. rewrite length_drop in Hdrop. simpl in Hdrop.
    exists gs, ln, Gs. split_and!; try done. unfold eligible_slots. by replace (length (slots s)) with k by lia. }
  assert (slots s !! k = Some o) as Ho.
  { rewrite <-(Nat.add_0_r k), <-lookup_drop, Hdrop. done. }
  assert (drop (S k) (slots s) = sl) as Hdrop' by (by rewrite (drop_S _ _ _ Ho) in Hdrop; simplify_eq).
  assert (k < length (slots s)) as Hlt by (by eapply lookup_lt_Some).
  assert (slot_eligible k = match o with Some e => eligible now e | None => false end) as He.
  { unfold slot_eligible, slot_entry. by rewrite Ho. }
  assert (filter (λ i, slot_eligible i = true) (seq 0 (S k))
    = filter (λ i, slot_eligible i = true) (seq 0 k) ++ (if slot_eligible k then [k] else [])) as Hseq.
  { rewrite seq_S, filter_app. f_equal. simpl. destruct (slot_eligible k) eqn:E.
    - by rewrite filter_cons_True.
    - by rewrite filter_cons_False by (by rewrite E). }
  cbn [collect]. rewrite He in Hseq. destruct o as [e|].
  - destruct (eligible now e) eqn:Hel.
    + assert (slot_entry s k = Some e) as Hse by (unfold slot_entry; by rewrite Ho).
      destruct (Hids k e Hse) as (p & Hp & Hp256). rewrite Hp.
      destruct (lookup_lt_is_Some_2 Gs p) as [l Hl]; [by rewrite (proj1 Hpl)|].
      destruct (lookup_lt_is_Some_2 gs p) as [q Hqp]; [by rewrite (qs_length _ _ _ Hq), (proj1 Hpl)|].
      rewrite Hqp. destruct (queues_push ln gs Gs p q l k Hq Hl Hqp) as (q' & ln' & -> & Hln' & Hq').
      * rewrite HE. intros [_ Hin]%list_elem_of_filter. apply elem_of_seq in Hin. lia.
      * lia.
      * cbn [fst snd]. eapply (IH (S k)); try done; [|lia|].
        -- eapply placed_insert; [done..|]. intros x [?|Hx]%elem_of_app; [by left|right].
           apply list_elem_of_singleton in Hx. subst x. unfold slot_prefix, slot_node. by rewrite Hse.
        -- destruct (concat_insert Gs p l Hl) as (r & Hc & Hc'). rewrite Hc', Hseq, <-HE, Hc. solve_Permutation.
    + apply (IH (S k) gs ln Gs); try done. by rewrite Hseq, app_nil_r.
  - apply (IH (S k) gs ln Gs); try done. by rewrite Hseq, app_nil_r.
Qed.

(** Turning every group by its cursor, and listing the prefixes. *)
Lemma prefix_loop_ok least cursors cs k sparse order gs ln Gs counts :
  drop k counts = cs → length counts = 256 → k ≤ 256 → length cursors = 256 →
  queues ln gs Gs → placed Gs → length ln = length (slots s) → concat Gs ≡ₚ eligible_slots →
  counts = length <$> Gs →
  ∃ gs' ln' Gs', prefix_loop cs k least cursors sparse order gs ln
      = Some (sparse ++ (Z.of_nat <$> filter (λ p, counts !! p = Some least) (seq k (256 - k))),
              order ++ filter (λ p, 0 < default 0 (counts !! p)) (seq k (256 - k)), (gs', ln'))
    ∧ queues ln' gs' Gs' ∧ placed Gs' ∧ length ln' = length (slots s) ∧ concat Gs' ≡ₚ eligible_slots
    ∧ counts = length <$> Gs'.
Proof.
  revert k sparse order gs ln Gs. induction cs as [|c cs IH]; intros k sparse order gs ln Gs Hdrop Hlen Hk Hcu Hq Hpl Hln HE Hco.
  { apply (f_equal length) in Hdrop. rewrite length_drop in Hdrop. simpl in Hdrop.
    replace (256 - k) with 0 by lia. exists gs, ln, Gs. cbn [prefix_loop seq]. rewrite !filter_nil, !app_nil_r. done. }
  assert (counts !! k = Some c) as Hc.
  { rewrite <-(Nat.add_0_r k), <-lookup_drop, Hdrop. done. }
  assert (drop (S k) counts = cs) as Hdrop' by (by rewrite (drop_S _ _ _ Hc) in Hdrop; simplify_eq).
  assert (k < 256) as Hlt by (rewrite <-Hlen; by eapply lookup_lt_Some).
  replace (256 - k) with (S (256 - S k)) by lia. cbn [seq prefix_loop].
  assert ((if bool_decide (c = least) then sparse ++ [Z.of_nat k] else sparse)
    ++ (Z.of_nat <$> filter (λ p, counts !! p = Some least) (seq (S k) (256 - S k)))
    = sparse ++ (Z.of_nat <$> filter (λ p, counts !! p = Some least) (k :: seq (S k) (256 - S k)))) as Hsp.
  { case_bool_decide.
    - rewrite filter_cons_True by congruence. simpl. by rewrite <-app_assoc.
    - rewrite filter_cons_False by congruence. done. }
  destruct (decide (0 < c)) as [Hpos|Hpos];
    [rewrite (bool_decide_true (0 < c)) by done|rewrite (bool_decide_false (0 < c)) by done].
  - assert (∃ l, Gs !! k = Some l ∧ length l = c) as (l & Hl & Hlc).
    { rewrite Hco, list_lookup_fmap in Hc. destruct (Gs !! k) as [l|]; [|done]. simplify_eq/=. eauto. }
    destruct (lookup_lt_is_Some_2 gs k) as [q Hqk]; [by rewrite (qs_length _ _ _ Hq), (proj1 Hpl)|].
    destruct (lookup_lt_is_Some_2 cursors k) as [cur Hcur]; [by rewrite Hcu|]. rewrite Hqk, Hcur.
    destruct (queues_rotate ln gs Gs k q l (cur `mod` c) Hq Hl Hqk) as (q' & ln' & -> & Hln' & _ & Hq').
    { subst c. apply Nat.mod_upper_bound. lia. }
    assert (rotate (cur `mod` c) l ≡ₚ l) as Hperm by (unfold rotate; by rewrite Permutation_app_comm, take_drop).
    cbn [fst snd]. edestruct (IH (S k)) as (gs2 & ln2 & Gs2 & Heq & H); [done|done|lia|done|exact Hq'| | | |  |].
    + eapply placed_insert; [done..|]. intros x Hx. left. by rewrite <-Hperm.
    + lia.
    + destruct (concat_insert Gs k l Hl) as (r & Hr & Hr'). by rewrite Hr', Hperm, <-Hr.
    + rewrite list_fmap_insert, (Permutation_length Hperm), Hlc, Hco. symmetry. apply list_insert_id.
      by rewrite <-Hco.
    + exists gs2, ln2, Gs2. split; [|done]. etrans; [exact Heq|]. rewrite Hsp. f_equal. f_equal. f_equal.
      rewrite (filter_cons_True (λ p, 0 < default 0 (counts !! p))) by (by rewrite Hc). by rewrite <-app_assoc.
  - edestruct (IH (S k)) as (gs2 & ln2 & Gs2 & Heq & H); [done|done|lia|done|exact Hq|done..|].
    exists gs2, ln2, Gs2. split; [|done]. etrans; [exact Heq|]. rewrite Hsp. f_equal. f_equal. f_equal.
    by rewrite (filter_cons_False (λ p, 0 < default 0 (counts !! p))) by (rewrite Hc; simpl; lia).
Qed.

(** *** The passes *)

Definition subnet_of (n : NodeTuple) : SubnetKey := subnet_from_addr (addr n).

(** Groups, deferred slots and output share out the eligible slots. *)
Record sample_ok (st : Sample) (Gs Ds : list (list nat)) (outs : list nat) : Prop := {
  so_queues : queues (links st) (groups st ++ deferred st) (Gs ++ Ds);
  so_lengths : length (groups st) = 256 ∧ length (deferred st) = 256 ∧ length (selected st) = 256;
  so_groups : placed Gs;
  so_deferred : placed Ds;
  so_links : length (links st) = length (slots s);
  so_all : concat Gs ++ concat Ds ++ outs ≡ₚ eligible_slots;
  so_output : Forall2 (λ x n, slot_node s x = Some n) outs (output st);
  so_limit : length (output st) ≤ limit;
  so_subnets : subnets st = list_to_set (subnet_of <$> output st);
  so_waiting x n : x ∈ concat Ds → slot_node s x = Some n → subnet_of n ∈ subnets st;
  so_selected p : 0 < default 0 (selected st !! p) ↔ Some p ∈ prefix_of <$> output st;
}.

Lemma eligible_slot x : x ∈ eligible_slots → ∃ n p, slot_node s x = Some n ∧ prefix_of n = Some p ∧ p < 256
  ∧ slot_prefix x = Some p ∧ x < length (slots s).
Proof.
  intros [He Hx]%list_elem_of_filter. apply elem_of_seq in Hx. unfold slot_eligible in He.
  destruct (slot_entry s x) as [e|] eqn:E; [|done]. destruct (Hids x e E) as (p & Hp & ?).
  exists (node e), p. unfold slot_prefix, slot_node. rewrite E. split_and!; try done. lia.
Qed.

Lemma group_slot st Gs Ds outs p x l :
  sample_ok st Gs Ds outs → Gs !! p = Some (x :: l) → x ∈ eligible_slots ∧ slot_prefix x = Some p ∧ p < 256.
Proof.
  intros [] Hp. assert (x ∈ concat Gs) as Hx by (apply elem_of_concat; exists p, (x :: l); set_solver).
  assert (x ∈ eligible_slots) as HE by (rewrite <-so_all0; set_solver). split; [done|].
  split; [eapply so_groups0; [done|set_solver]|]. rewrite <-(proj1 so_groups0). by eapply lookup_lt_Some.
Qed.

Lemma deferred_slot st Gs Ds outs p x l :
  sample_ok st Gs Ds outs → Ds !! p = Some (x :: l) → x ∈ eligible_slots ∧ slot_prefix x = Some p ∧ p < 256.
Proof.
  intros [] Hp. assert (x ∈ concat Ds) as Hx by (apply elem_of_concat; exists p, (x :: l); set_solver).
  assert (x ∈ eligible_slots) as HE by (rewrite <-so_all0; set_solver). split; [done|].
  split; [eapply so_deferred0; [done|set_solver]|]. rewrite <-(proj1 so_deferred0). by eapply lookup_lt_Some.
Qed.

(** Publishing a slot that was taken from a queue. *)
Lemma emit_ok st Gs Ds outs p x n :
  x ∈ eligible_slots → slot_prefix x = Some p → p < 256 → slot_node s x = Some n →
  queues (links st) (groups st ++ deferred st) (Gs ++ Ds) → placed Gs → placed Ds →
  length (groups st) = 256 → length (deferred st) = 256 → length (selected st) = 256 →
  length (links st) = length (slots s) →
  concat Gs ++ concat Ds ++ outs ++ [x] ≡ₚ eligible_slots →
  Forall2 (λ x n, slot_node s x = Some n) outs (output st) → length (output st) < limit →
  {[subnet_of n]} ∪ subnets st = list_to_set (subnet_of <$> output st ++ [n]) →
  (∀ x n, x ∈ concat Ds → slot_node s x = Some n → subnet_of n ∈ subnets st) →
  (∀ p, 0 < default 0 (selected st !! p) ↔ Some p ∈ prefix_of <$> output st) →
  ∃ sel, emit st p n = Some (mkSample (links st) (groups st) (deferred st) (active st) (subnets st)
      (output st ++ [n]) sel)
    ∧ sample_ok (mkSample (links st) (groups st) (deferred st) (active st) ({[subnet_of n]} ∪ subnets st)
      (output st ++ [n]) sel) Gs Ds (outs ++ [x]).
Proof.
  intros HE Hpx Hp Hn Hq Hg Hd Hlg Hld Hls Hll Hall Ho Hlim Hsub Hw Hsel.
  destruct (lookup_lt_is_Some_2 (selected st) p) as [k Hk]; [lia|]. unfold emit. rewrite Hk.
  eexists. split; [done|]. split; simpl; try done.
  - split_and!; [done..|]. by rewrite length_insert.
  - by apply Forall2_app; [|constructor].
  - rewrite length_app. simpl. lia.
  - intros y m Hy Hm. apply elem_of_union_r. by eapply Hw.
  - intros p'. rewrite fmap_app, elem_of_app, <-Hsel. cbn [fmap list_fmap].
    assert (prefix_of n = Some p) as Hpn by (unfold slot_prefix in Hpx; by rewrite Hn in Hpx).
    rewrite Hpn, list_elem_of_singleton. destruct (decide (p' = p)) as [->|Hne].
    + rewrite list_lookup_insert_eq by lia. simpl. split; [by right|lia].
    + rewrite list_lookup_insert_ne by done. split; [by left|]. intros [?|[= ?]]; done.
Qed.

(** The queues of groups and of deferred slots. *)
Lemma left_queue {A} (l1 l2 : list A) p x : l1 !! p = Some x → (l1 ++ l2) !! p = Some x.
Proof. apply lookup_app_l_Some. Qed.

Lemma right_queue {A} (l1 l2 : list A) p : length l1 = 256 → (l1 ++ l2) !! (256 + p) = l2 !! p.
Proof. intros Hl. rewrite lookup_app_r by lia. f_equal. lia. Qed.

Lemma right_insert {A} (l1 l2 : list A) p x :
  length l1 = 256 → <[256 + p := x]> (l1 ++ l2) = l1 ++ <[p := x]> l2.
Proof. intros Hl. rewrite insert_app_r_alt by lia. do 2 f_equal. lia. Qed.

Lemma concat_pop ls p (x : nat) l : ls !! p = Some (x :: l) → concat ls ≡ₚ x :: concat (<[p := l]> ls).
Proof. intros Hp. destruct (concat_insert ls p _ Hp) as (r & -> & ->). done. Qed.

Lemma concat_push ls p l (x : nat) : ls !! p = Some l → concat (<[p := l ++ [x]]> ls) ≡ₚ x :: concat ls.
Proof. intros Hp. destruct (concat_insert ls p _ Hp) as (r & -> & ->). solve_Permutation. Qed.

Lemma take_group st Gs Ds outs p x l :
  sample_ok st Gs Ds outs → Gs !! p = Some (x :: l) →
  ∃ q q' n, groups st !! p = Some q ∧ pop_front q (links st) = Some (Some x, q') ∧ len q' = length l
    ∧ slot_node s x = Some n
    ∧ queues (links st) (<[p := q']> (groups st) ++ deferred st) (<[p := l]> Gs ++ Ds)
    ∧ placed (<[p := l]> Gs) ∧ concat Gs ≡ₚ x :: concat (<[p := l]> Gs).
Proof.
  intros Hok Hp. destruct (group_slot _ _ _ _ _ _ _ Hok Hp) as (HE & Hpx & Hp256).
  destruct (eligible_slot x HE) as (n & _ & Hn & _). destruct Hok. destruct so_lengths0 as (Hlg & Hld & Hls).
  destruct (queues_pop _ _ _ p x l so_queues0 (left_queue _ _ _ _ Hp)) as (q & q' & Hq & Hpop & Hlen & Hqs).
  rewrite lookup_app_l in Hq by lia. exists q, q', n. split_and!; try done.
  - rewrite !insert_app_l in Hqs; [done|rewrite (proj1 so_groups0); lia|lia].
  - eapply placed_insert; [done..|]. intros y Hy. left. by right.
  - by apply concat_pop.
Qed.

(** Moving the head of a group to the output ... *)
Lemma seed_move st Gs Ds outs p x l q' n :
  sample_ok st Gs Ds outs → Gs !! p = Some (x :: l) → length (output st) < limit →
  queues (links st) (<[p := q']> (groups st) ++ deferred st) (<[p := l]> Gs ++ Ds) → placed (<[p := l]> Gs) →
  concat Gs ≡ₚ x :: concat (<[p := l]> Gs) → slot_node s x = Some n →
  ∃ st', emit (set_group st p q') p n = Some st'
    ∧ emit (add_subnet (set_group st p q') (subnet_of n)) p n = Some (add_subnet st' (subnet_of n))
    ∧ sample_ok (add_subnet st' (subnet_of n)) (<[p := l]> Gs) Ds (outs ++ [x])
    ∧ active st' = active st ∧ output st' = output st ++ [n] ∧ groups st' = <[p := q']> (groups st).
Proof.
  intros Hok Hp Hlim Hq Hpl Hc Hn. destruct (group_slot _ _ _ _ _ _ _ Hok Hp) as (HE & Hpx & Hp256).
  destruct Hok. destruct so_lengths0 as (Hlg & Hld & Hls).
  destruct (emit_ok (set_group st p q') (<[p := l]> Gs) Ds outs p x n) as (sel & Hem & Hok'); try done.
  - simpl. by rewrite length_insert.
  - rewrite <-so_all0, Hc. solve_Permutation.
  - simpl. rewrite so_subnets0, fmap_app, list_to_set_app_L. simpl. set_solver.
  - eexists. split; [exact Hem|]. split; [|by split].
    unfold emit in *. simpl in *. by destruct (selected st !! p); simplify_eq/=.
Qed.

(** ... to the deferred slots of its prefix ... *)
Lemma defer_move st Gs Ds outs p x l q' n :
  sample_ok st Gs Ds outs → Gs !! p = Some (x :: l) →
  queues (links st) (<[p := q']> (groups st) ++ deferred st) (<[p := l]> Gs ++ Ds) → placed (<[p := l]> Gs) →
  concat Gs ≡ₚ x :: concat (<[p := l]> Gs) → slot_node s x = Some n → subnet_of n ∈ subnets st →
  ∃ d dl r, deferred st !! p = Some d ∧ Ds !! p = Some dl ∧ push_back d x (links st) = Some r
    ∧ sample_ok (set_deferred (set_group st p q') p r.1 r.2) (<[p := l]> Gs) (<[p := dl ++ [x]]> Ds) outs.
Proof.
  intros Hok Hp Hq Hpl Hc Hn Hin. destruct (group_slot _ _ _ _ _ _ _ Hok Hp) as (HE & Hpx & Hp256).
  destruct Hok. destruct so_lengths0 as (Hlg & Hld & Hls). pose proof (proj1 so_deferred0) as HlD.
  destruct (lookup_lt_is_Some_2 (deferred st) p) as [d Hd]; [lia|].
  destruct (lookup_lt_is_Some_2 Ds p) as [dl Hdl]; [lia|].
  pose proof (qs_distinct _ _ _ so_queues0) as Hnd. rewrite concat_app, Hc in Hnd. simpl in Hnd.
  apply NoDup_cons in Hnd as [Hxn _]. destruct (eligible_slot x HE) as (_ & _ & _ & _ & _ & _ & Hlt).
  destruct (queues_push _ _ _ (256 + p) d dl x Hq) as (d' & ln' & Hpush & Hln & Hqs').
  - rewrite right_queue; [done|]. by rewrite length_insert, (proj1 so_groups0).
  - rewrite right_queue; [done|]. by rewrite length_insert.
  - by rewrite concat_app.
  - lia.
  - rewrite !right_insert in Hqs' by (rewrite length_insert; try lia; apply so_groups0).
    exists d, dl, (d', ln'). split_and!; try done. split; simpl; try done.
    + rewrite !length_insert. done.
    + eapply placed_insert; [done..|]. intros y [?|Hy]%elem_of_app; [by left|right].
      apply list_elem_of_singleton in Hy. by subst y.
    + lia.
    + rewrite (concat_push _ _ _ _ Hdl), <-so_all0, Hc. solve_Permutation.
    + intros y m. rewrite (concat_push _ _ _ _ Hdl), elem_of_cons. intros [->|Hy] Hm; [by simplify_eq|by eapply so_waiting0].
Qed.

(** ... and from there to the output. *)
Lemma deferred_move st Gs Ds outs p x l :
  sample_ok st Gs Ds outs → Ds !! p = Some (x :: l) → length (output st) < limit →
  ∃ q q' n st', deferred st !! p = Some q ∧ pop_front q (links st) = Some (Some x, q') ∧ len q' = length l
    ∧ slot_node s x = Some n ∧ emit (set_deferred st p q' (links st)) p n = Some st'
    ∧ sample_ok st' Gs (<[p := l]> Ds) (outs ++ [x]) ∧ active st' = active st ∧ output st' = output st ++ [n].
Proof.
  intros Hok Hp Hlim. destruct (deferred_slot _ _ _ _ _ _ _ Hok Hp) as (HE & Hpx & Hp256).
  destruct (eligible_slot x HE) as (n & _ & Hn & _). destruct Hok. destruct so_lengths0 as (Hlg & Hld & Hls).
  pose proof (proj1 so_groups0) as HlG.
  destruct (queues_pop _ _ _ (256 + p) x l so_queues0) as (q & q' & Hq & Hpop & Hlen & Hqs).
  { by rewrite right_queue. }
  rewrite right_queue in Hq by done. rewrite !right_insert in Hqs by done.
  assert (subnet_of n ∈ subnets st) as Hin.
  { eapply so_waiting0; [|done]. apply elem_of_concat. exists p, (x :: l). set_solver. }
  destruct (emit_ok (set_deferred st p q' (links st)) Gs (<[p := l]> Ds) outs p x n) as (sel & Hem & Hok'); try done.
  - eapply placed_insert; [done..|]. intros y Hy. left. by right.
  - simpl. by rewrite length_insert.
  - rewrite <-so_all0, (concat_pop Ds p x l Hp). solve_Permutation.
  - simpl. rewrite so_subnets0, fmap_app, list_to_set_app_L. simpl. set_solver.
  - simpl. intros y m Hy Hm. eapply so_waiting0; [|done]. rewrite (concat_pop Ds p x l Hp). by right.
  - exists q, q', n. eexists. split_and!; try done. simpl in Hok'.
    assert ({[subnet_of n]} ∪ subnets st = subnets st) as Heq by set_solver. by rewrite Heq in Hok'.
Qed.

(** The prefixes whose queue is not empty. *)
Definition ready_in (A : list nat) (ls : list (list nat)) : Prop :=
  NoDup A ∧ ∀ p, p ∈ A ↔ ∃ x l, ls !! p = Some (x :: l).

Lemma ready_perm A A' ls : A ≡ₚ A' → ready_in A ls → ready_in A' ls.
Proof. intros HA [Hnd Hin]. split; [by rewrite <-HA|]. intros p. by rewrite <-HA. Qed.

Lemma ready_update p A ls l l' :
  ready_in (p :: A) ls → ls !! p = Some l →
  ready_in (if bool_decide (0 < length l') then p :: A else A) (<[p := l']> ls).
Proof.
  intros [Hnd Hin] Hp. apply NoDup_cons in Hnd as [Hn Hnd].
  assert (p < length ls) as Hlt by (by eapply lookup_lt_Some).
  assert (∀ k, k ≠ p → k ∈ A ↔ ∃ x l, <[p := l']> ls !! k = Some (x :: l)) as Hne.
  { intros k Hk. rewrite list_lookup_insert_ne by done. rewrite <-Hin. set_solver. }
  case_bool_decide as Hl.
  - split; [by constructor|]. intros k. rewrite elem_of_cons. destruct (decide (k = p)) as [->|Hk].
    + rewrite list_lookup_insert_eq by done. split; [|by left]. intros _. destruct l' as [|x l']; [simpl in Hl; lia|eauto].
    + rewrite <-Hne by done. naive_solver.
  - split; [done|]. intros k. destruct (decide (k = p)) as [->|Hk]; [|by apply Hne].
    rewrite list_lookup_insert_eq by done. split; [done|]. intros (x & l2 & [= ->]). simpl in Hl. lia.
Qed.

Lemma requeue_ok st Gs Ds outs p q l :
  sample_ok st Gs Ds outs → groups st !! p = Some q → Gs !! p = Some l →
  requeue st p = Some (set_active st (active st ++ if bool_decide (0 < length l) then [p] else [])).
Proof.
  intros Hok Hq Hl. unfold requeue. rewrite Hq. destruct Hok.
  destruct (qs_queue _ _ _ so_queues0 p q l) as [Hlen _]; [by apply left_queue..|]. rewrite Hlen.
  case_bool_decide; [done|]. rewrite app_nil_r. by destruct st.
Qed.

Lemma sample_active st Gs Ds outs A : sample_ok st Gs Ds outs → sample_ok (set_active st A) Gs Ds outs.
Proof. by intros []. Qed.

Lemma seed_loop_ok order st Gs Ds outs :
  sample_ok st Gs Ds outs → ready_in (active st ++ order) Gs →
  ∃ st' Gs' ss ns, seed_loop s limit order st = Some st' ∧ sample_ok st' Gs' Ds (outs ++ ss)
    ∧ ready_in (active st') Gs' ∧ output st' = output st ++ ns
    ∧ prefix_of <$> ns = Some <$> take (limit - length (output st)) order.
Proof.
  revert st Gs outs; induction order as [|p order IH]; intros st Gs outs Hok Hr; cbn [seed_loop].
  { exists st, Gs, [], []. rewrite app_nil_r in Hr. rewrite !app_nil_r, take_nil. done. }
  assert (ready_in (p :: (active st ++ order)) Gs) as Hr' by (eapply ready_perm; [|exact Hr]; solve_Permutation).
  destruct (proj1 (proj2 Hr' p)) as (x & l & Hp); [by left|].
  destruct (take_group _ _ _ _ _ _ _ Hok Hp) as (q & q' & n & Hq & Hpop & Hlen & Hn & Hqs & Hpl & Hc).
  assert (slot_prefix x = Some p) as Hpx by apply (group_slot _ _ _ _ _ _ _ Hok Hp).
  case_bool_decide as Hlim.
  - rewrite Hq, Hpop. cbn [fst snd]. rewrite Hn.
    destruct (seed_move _ _ _ _ _ _ _ _ _ Hok Hp Hlim Hqs Hpl Hc Hn) as (st1 & -> & _ & Hok1 & Ha1 & Ho1 & Hg1).
    fold (subnet_of n). set (st2 := add_subnet st1 (subnet_of n)) in *.
    assert (p < length Gs) as HpG by (by eapply lookup_lt_Some).
    assert (p < length (groups st)) as Hpg by (by eapply lookup_lt_Some).
    rewrite (requeue_ok st2 (<[p := l]> Gs) Ds (outs ++ [x]) p q' l Hok1);
      [|unfold st2; simpl; by rewrite Hg1, list_lookup_insert_eq|by rewrite list_lookup_insert_eq].
    destruct (IH _ _ _ (sample_active _ _ _ _ (active st2 ++ if bool_decide (0 < length l) then [p] else []) Hok1))
      as (st' & Gs' & ss & ns & -> & Hok' & Hr2 & Ho' & Hns).
    + simpl. pose proof (ready_update _ _ _ _ l Hr' Hp) as Hu. eapply ready_perm; [|exact Hu].
      rewrite Ha1. case_bool_decide; [solve_Permutation|by rewrite app_nil_r].
    + exists st', Gs', (x :: ss), (n :: ns). rewrite <-app_assoc in Hok'. split_and!; try done.
      * rewrite Ho'. simpl. by rewrite Ho1, <-app_assoc.
      * assert (prefix_of n = Some p) as Hpn by (unfold slot_prefix in Hpx; by rewrite Hn in Hpx).
        replace (limit - length (output st)) with (S (limit - length (output st2))).
        -- simpl. rewrite Hpn. f_equal. exact Hns.
        -- unfold st2. simpl. rewrite Ho1, length_app. simpl. lia.
  - rewrite (requeue_ok st Gs Ds outs p q (x :: l) Hok Hq Hp). rewrite bool_decide_true by (simpl; lia).
    destruct (IH _ _ _ (sample_active _ _ _ _ (active st ++ [p]) Hok)) as (st' & Gs' & ss & ns & -> & Hok' & Hr2 & Ho' & Hns).
    + simpl. by rewrite <-app_assoc.
    + exists st', Gs', ss, ns. split_and!; try done. rewrite Hns. simpl.
      replace (limit - length (output st)) with 0 by lia. done.
Qed.

Lemma insert_twice {A} (ls : list A) p x y : <[p := x]> (<[p := y]> ls) = <[p := x]> ls.
Proof. apply list_insert_insert_eq. Qed.

(** A turn of one prefix: its head slots of known subnets are put aside, the
    first slot of a new subnet is published. *)
Lemma scan_group_ok fuel p st Gs Ds outs l :
  sample_ok st Gs Ds outs → Gs !! p = Some l → length l < fuel → length (output st) < limit →
  ∃ st' l' Ds' xs ns, scan_group s fuel p st = Some st' ∧ sample_ok st' (<[p := l']> Gs) Ds' (outs ++ xs)
    ∧ active st' = active st ∧ output st' = output st ++ ns ∧ length l' ≤ length l - 1
    ∧ (ns = [] ∨ ∃ n, ns = [n] ∧ subnet_of n ∉ subnets st).
Proof.
  revert st Gs Ds l; induction fuel as [|fuel IH]; intros st Gs Ds l Hok Hp Hf Hlim; [lia|]. cbn [scan_group].
  destruct l as [|x l].
  { destruct (queues_pop_empty _ _ _ p (so_queues _ _ _ _ Hok)) as (q & Hq & _ & Hpop); [by apply left_queue|].
    rewrite lookup_app_l in Hq.
    2:{ pose proof (so_lengths _ _ _ _ Hok). apply lookup_lt_Some in Hp. rewrite (proj1 (so_groups _ _ _ _ Hok)) in Hp. lia. }
    rewrite Hq, Hpop. exists st, [], Ds, [], []. rewrite list_insert_id, !app_nil_r by done. split_and!; try done. by left. }
  destruct (take_group _ _ _ _ _ _ _ Hok Hp) as (q & q' & n & Hq & Hpop & Hlen & Hn & Hqs & Hpl & Hc).
  rewrite Hq, Hpop. cbn [fst snd]. rewrite Hn. fold (subnet_of n). case_bool_decide as Hin.
  - destruct (defer_move _ _ _ _ _ _ _ _ _ Hok Hp Hqs Hpl Hc Hn Hin) as (d & dl & r & Hd & _ & Hpush & Hok1).
    cbn [deferred links set_group]. rewrite Hd, Hpush.
    destruct (IH _ _ _ l Hok1) as (st' & l' & Ds' & xs & ns & -> & Hok' & Ha & Ho & Hl' & Hns); try done.
    + rewrite list_lookup_insert_eq; [done|]. by eapply lookup_lt_Some.
    + simpl in Hf. lia.
    + rewrite insert_twice in Hok'. exists st', l', Ds', xs, ns. split_and!; try done. simpl. lia.
  - destruct (seed_move _ _ _ _ _ _ _ _ _ Hok Hp Hlim Hqs Hpl Hc Hn) as (st1 & _ & -> & Hok1 & Ha1 & Ho1 & _).
    eexists _, l, Ds, [x], [n]. split_and!; try done; [simpl; lia|]. right. eauto.
Qed.

Lemma group_at st Gs Ds outs p l :
  sample_ok st Gs Ds outs → Gs !! p = Some l → ∃ q, groups st !! p = Some q ∧ len q = length l.
Proof.
  intros Hok Hp. assert (p < length (groups st)) as Hlt.
  { apply lookup_lt_Some in Hp. rewrite (proj1 (so_groups _ _ _ _ Hok)) in Hp. pose proof (so_lengths _ _ _ _ Hok). lia. }
  destruct (lookup_lt_is_Some_2 _ _ Hlt) as [q Hq]. exists q. split; [done|].
  by destruct (qs_queue _ _ _ (so_queues _ _ _ _ Hok) p q l) as [? _]; [apply left_queue..|].
Qed.

Lemma fill_loop_ok fuel st Gs Ds outs :
  sample_ok st Gs Ds outs → ready_in (active st) Gs → length (concat Gs) < fuel →
  ∃ st' Gs' Ds' xs ns, fill_loop s limit fuel st = Some st' ∧ sample_ok st' Gs' Ds' (outs ++ xs)
    ∧ ready_in (active st') Gs' ∧ output st' = output st ++ ns
    ∧ NoDup (subnet_of <$> ns) ∧ (∀ n, n ∈ ns → subnet_of n ∉ subnets st)
    ∧ (length (output st') = limit ∨ active st' = []).
Proof.
  revert st Gs Ds outs; induction fuel as [|fuel IH]; intros st Gs Ds outs Hok Hr Hf; [lia|]. cbn [fill_loop].
  assert (∃ st' Gs' Ds' xs ns, Some st = Some st' ∧ sample_ok st' Gs' Ds' (outs ++ xs)
    ∧ ready_in (active st') Gs' ∧ output st' = output st ++ ns ∧ NoDup (subnet_of <$> ns)
    ∧ (∀ n, n ∈ ns → subnet_of n ∉ subnets st)) as Hstop.
  { exists st, Gs, Ds, [], []. rewrite !app_nil_r. split_and!; try done; [constructor|by intros n ?%elem_of_nil]. }
  case_bool_decide as Hlim.
  2:{ destruct Hstop as (st' & Gs' & Ds' & xs & ns & [= <-] & ? & ? & ? & ? & ?).
      exists st, Gs', Ds', xs, ns. split_and!; try done. left. pose proof (so_limit _ _ _ _ Hok). lia. }
  destruct (active st) as [|p A] eqn:HA.
  { destruct Hstop as (st' & Gs' & Ds' & xs & ns & [= <-] & ? & ? & ? & ? & ?).
    exists st, Gs', Ds', xs, ns. split_and!; try done; by rewrite ?HA; auto. }
  destruct (proj1 (proj2 Hr p)) as (x & l & Hp); [by left|].
  pose proof (sample_active _ _ _ _ A Hok) as Hok0. destruct (group_at _ _ _ _ _ _ Hok Hp) as (q & Hq & Hlq).
  cbn [groups set_active]. rewrite Hq, Hlq.
  destruct (scan_group_ok (S (length (x :: l))) p _ _ _ _ _ Hok0 Hp) as (st1 & l' & Ds1 & xs1 & ns1 & -> & Hok1 & Ha1 & Ho1 & Hl' & Hns1); [lia|done|].
  assert (<[p := l']> Gs !! p = Some l') as Hp1 by (apply list_lookup_insert_eq; by eapply lookup_lt_Some).
  destruct (group_at _ _ _ _ _ _ Hok1 Hp1) as (q1 & Hq1 & _). rewrite (requeue_ok _ _ _ _ _ _ _ Hok1 Hq1 Hp1).
  destruct (IH _ _ _ _ (sample_active _ _ _ _ (active st1 ++ if bool_decide (0 < length l') then [p] else []) Hok1))
    as (st' & Gs' & Ds' & xs & ns & -> & Hok' & Hr' & Ho' & Hnd & Hns & Hend).
  - simpl. pose proof (ready_update _ _ _ _ l' Hr Hp) as Hu. eapply ready_perm; [|exact Hu]. rewrite Ha1. simpl.
    case_bool_decide; [by rewrite Permutation_app_comm|by rewrite app_nil_r].
  - destruct (concat_insert Gs p _ Hp) as (r & Hc & Hc'). rewrite Hc in Hf. rewrite Hc'. rewrite length_app in *. simpl in *. lia.
  - rewrite <-app_assoc in Hok'. exists st', Gs', Ds', (xs1 ++ xs), (ns1 ++ ns). simpl in Ho', Hns, Ho1.
    pose proof (so_subnets _ _ _ _ Hok1) as Hs1. pose proof (so_subnets _ _ _ _ Hok) as Hs0.
    rewrite Ho1, fmap_app, list_to_set_app_L, <-Hs0 in Hs1.
    split_and!; try done.
    + rewrite Ho', Ho1. by rewrite <-app_assoc.
    + rewrite fmap_app. apply NoDup_app. split_and!; [| |done].
      * destruct Hns1 as [->|(n & -> & _)]; [constructor|apply NoDup_singleton].
      * intros k Hk (n & -> & Hn)%list_elem_of_fmap. apply (Hns n Hn). rewrite Hs1.
        apply elem_of_union_r, elem_of_list_to_set. done.
    + intros n [Hn|Hn]%elem_of_app.
      * destruct Hns1 as [->|(n' & -> & Hn')]; [by apply elem_of_nil in Hn|]. apply list_elem_of_singleton in Hn. by subst n.
      * intros Hin. apply (Hns n Hn). rewrite Hs1. by apply elem_of_union_l.
Qed.

Lemma deferred_at st Gs Ds outs p l :
  sample_ok st Gs Ds outs → Ds !! p = Some l → ∃ q, deferred st !! p = Some q ∧ len q = length l.
Proof.
  intros Hok Hp. destruct (so_lengths _ _ _ _ Hok) as (Hg & Hd & _).
  assert (p < length (deferred st)) as Hlt.
  { apply lookup_lt_Some in Hp. rewrite (proj1 (so_deferred _ _ _ _ Hok)) in Hp. lia. }
  destruct (lookup_lt_is_Some_2 _ _ Hlt) as [q Hq]. exists q. split; [done|].
  destruct (qs_queue _ _ _ (so_queues _ _ _ _ Hok) (256 + p) q l) as [? _]; [|
    |done].
  - by rewrite right_queue.
  - rewrite right_queue; [done|]. apply (so_groups _ _ _ _ Hok).
Qed.

Lemma wake_loop_ok order st Gs Ds outs :
  sample_ok st Gs Ds outs → Forall (λ p, p < 256) order →
  wake_loop order st
  = Some (set_active st (active st ++ filter (λ p, 0 < length (default [] (Ds !! p))) order)).
Proof.
  intros Hok Hord. revert st Hok. induction Hord as [|p order Hp Hord IH]; intros st Hok; cbn [wake_loop].
  { rewrite filter_nil, app_nil_r. by destruct st. }
  destruct (lookup_lt_is_Some_2 Ds p) as [l Hl]; [by rewrite (proj1 (so_deferred _ _ _ _ Hok))|].
  destruct (deferred_at _ _ _ _ _ _ Hok Hl) as (q & -> & ->). case_bool_decide as Hpos.
  - rewrite IH by (by apply sample_active). rewrite filter_cons_True by (by rewrite Hl).
    simpl. by rewrite <-app_assoc.
  - rewrite IH by done. by rewrite filter_cons_False by (by rewrite Hl).
Qed.

Lemma deferred_loop_ok fuel st Gs Ds outs :
  sample_ok st Gs Ds outs → ready_in (active st) Ds → length (concat Ds) < fuel →
  ∃ st' Ds' xs ns, deferred_loop s limit fuel st = Some st' ∧ sample_ok st' Gs Ds' (outs ++ xs)
    ∧ ready_in (active st') Ds' ∧ output st' = output st ++ ns
    ∧ (length (output st') = limit ∨ active st' = []).
Proof.
  revert st Ds outs; induction fuel as [|fuel IH]; intros st Ds outs Hok Hr Hf; [lia|]. cbn [deferred_loop].
  case_bool_decide as Hlim.
  2:{ exists st, Ds, [], []. rewrite !app_nil_r. split_and!; try done. left. pose proof (so_limit _ _ _ _ Hok). lia. }
  destruct (active st) as [|p A] eqn:HA.
  { exists st, Ds, [], []. rewrite !app_nil_r, HA. split_and!; try done. by right. }
  destruct (proj1 (proj2 Hr p)) as (x & l & Hp); [by left|].
  destruct (deferred_move _ _ _ _ p x l (sample_active _ _ _ _ A Hok) Hp Hlim)
    as (q & q' & n & st1 & Hq & Hpop & Hlen & Hn & Hem & Hok1 & Ha1 & Ho1).
  rewrite Hq, Hpop. cbn [fst snd]. rewrite Hn, Hem, Hlen.
  assert ((if bool_decide (0 < length l) then set_active st1 (active st1 ++ [p]) else st1)
    = set_active st1 (active st1 ++ if bool_decide (0 < length l) then [p] else [])) as ->.
  { case_bool_decide; [done|]. rewrite app_nil_r. by destruct st1. }
  destruct (IH _ _ _ (sample_active _ _ _ _ (active st1 ++ if bool_decide (0 < length l) then [p] else []) Hok1))
    as (st' & Ds' & xs & ns & -> & Hok' & Hr' & Ho' & Hend).
  - simpl. pose proof (ready_update _ _ _ _ l Hr Hp) as Hu. eapply ready_perm; [|exact Hu]. rewrite Ha1. simpl.
    case_bool_decide; [by rewrite Permutation_app_comm|by rewrite app_nil_r].
  - rewrite (concat_pop Ds p x l Hp) in Hf. simpl in Hf. lia.
  - rewrite <-app_assoc in Hok'. exists st', Ds', ([x] ++ xs), ([n] ++ ns). split_and!; try done.
    rewrite Ho'. simpl. rewrite Ho1. simpl. by rewrite <-app_assoc.
Qed.

Lemma ready_nil ls : ready_in [] ls → concat ls = [].
Proof.
  intros [_ Hr]. destruct (concat ls) as [|x l] eqn:E; [done|].
  assert (x ∈ concat ls) as Hx by (rewrite E; by left). apply elem_of_concat in Hx as (p & l' & Hp & Hx).
  destruct l' as [|y l']; [by apply elem_of_nil in Hx|].
  exfalso. apply (not_elem_of_nil p). apply Hr. eauto.
Qed.

(** The last pass fills the sample, once every subnet is represented. *)
Lemma relax_ok fuel order st Gs Ds outs :
  sample_ok st Gs Ds outs → ready_in (active st) Gs → (length (output st) = limit ∨ active st = []) →
  NoDup order → Forall (λ p, p < 256) order →
  (∀ x p, x ∈ eligible_slots → slot_prefix x = Some p → p ∈ order) →
  limit ≤ length eligible_slots → length eligible_slots < fuel →
  ∃ st' Ds' xs ns, relax s limit fuel order st = Some st' ∧ sample_ok st' Gs Ds' (outs ++ xs)
    ∧ output st' = output st ++ ns ∧ length (output st') = limit
    ∧ (ns = [] ∨ ∀ x n, x ∈ eligible_slots → slot_node s x = Some n → subnet_of n ∈ subnet_of <$> output st).
Proof.
  intros Hok Hr Hend Hnd Hord Hcov Hlim Hf. unfold relax. case_bool_decide as Hlt.
  2:{ exists st, Ds, [], []. rewrite !app_nil_r. split_and!; try done; [|by left]. pose proof (so_limit _ _ _ _ Hok). lia. }
  destruct Hend as [?|HA]; [lia|]. rewrite HA in Hr. pose proof (ready_nil _ Hr) as HG.
  rewrite (wake_loop_ok _ _ _ _ _ Hok Hord), HA. cbn [app]. set (A := filter _ order).
  assert (∀ x, x ∈ concat Ds ++ outs ↔ x ∈ eligible_slots) as HE.
  { intros x. rewrite <-(so_all _ _ _ _ Hok), HG. done. }
  assert (ready_in A Ds) as HrA.
  { split; [by apply NoDup_filter|]. intros p. unfold A. rewrite list_elem_of_filter. split.
    - intros [Hpos _]. destruct (Ds !! p) as [[|x l]|]; simpl in Hpos; [lia|eauto|lia].
    - intros (x & l & Hp). rewrite Hp. split; [simpl; lia|].
      destruct (deferred_slot _ _ _ _ _ _ _ Hok Hp) as (HEx & Hpx & _). by eapply Hcov. }
  destruct (deferred_loop_ok fuel (set_active st A) Gs Ds outs) as (st' & Ds' & xs & ns & -> & Hok' & Hr' & Ho & Hend');
    [by apply sample_active|done| |].
  { pose proof (Permutation_length (so_all _ _ _ _ Hok)) as Hlen. rewrite !length_app in Hlen. lia. }
  exists st', Ds', xs, ns. split_and!; try done.
  - destruct Hend' as [?|HA']; [done|]. rewrite HA' in Hr'. pose proof (ready_nil _ Hr') as HD.
    pose proof (Permutation_length (so_all _ _ _ _ Hok')) as Hlen. rewrite HG, HD in Hlen. simpl in Hlen.
    rewrite (Forall2_length _ _ _ (so_output _ _ _ _ Hok')) in Hlen. pose proof (so_limit _ _ _ _ Hok'). lia.
  - right. intros x n [Hx|Hx]%HE%elem_of_app Hn.
    + pose proof (so_waiting _ _ _ _ Hok x n Hx Hn) as Hin. rewrite (so_subnets _ _ _ _ Hok) in Hin.
      by apply elem_of_list_to_set in Hin.
    + apply list_elem_of_fmap. exists n. split; [done|]. pose proof (so_output _ _ _ _ Hok) as Ho2.
      apply list_elem_of_lookup in Hx as [i Hi]. destruct (Forall2_lookup_l _ _ _ _ _ Ho2 Hi) as (m & Hm & Hxm).
      simplify_eq. by eapply list_elem_of_lookup_2.
Qed.

(** *** Slots and nodes *)

Lemma slots_nodes sl k :
  drop k (slots s) = sl →
  Forall2 (λ x n, slot_node s x = Some n) (filter (λ i, slot_eligible i = true) (seq k (length sl)))
    (node <$> filter (λ e, eligible now e = true) (omap (λ o, o) sl)).
Proof.
  revert k; induction sl as [|o sl IH]; intros k Hd; [constructor|].
  assert (slots s !! k = Some o) as Ho by (by rewrite <-(Nat.add_0_r k), <-lookup_drop, Hd).
  assert (drop (S k) (slots s) = sl) as Hd' by (by rewrite (drop_S _ _ _ Ho) in Hd; simplify_eq).
  specialize (IH (S k) Hd').
  assert (slot_eligible k = match o with Some e => eligible now e | None => false end) as He.
  { unfold slot_eligible, slot_entry. by rewrite Ho. }
  simpl. destruct o as [e|]; simpl.
  - destruct (eligible now e) eqn:Hel.
    + rewrite !filter_cons_True by done. constructor; [|done]. unfold slot_node, slot_entry. by rewrite Ho.
    + rewrite !filter_cons_False by congruence. done.
  - by rewrite filter_cons_False by (rewrite He; done).
Qed.

Lemma eligible_slots_nodes : Forall2 (λ x n, slot_node s x = Some n) eligible_slots (eligible_nodes s now).
Proof. apply (slots_nodes (slots s) 0). by rewrite drop_0. Qed.

Lemma eligible_slots_NoDup : NoDup eligible_slots.
Proof. apply NoDup_filter, NoDup_seq. Qed.

Lemma eligible_node_slot n : n ∈ eligible_nodes s now ↔ ∃ x, x ∈ eligible_slots ∧ slot_node s x = Some n.
Proof.
  pose proof eligible_slots_nodes as H. split.
  - intros [i Hi]%list_elem_of_lookup. destruct (Forall2_lookup_r _ _ _ _ _ H Hi) as (x & Hx & ?).
    exists x. split; [by eapply list_elem_of_lookup_2|done].
  - intros (x & [i Hi]%list_elem_of_lookup & Hn). destruct (Forall2_lookup_l _ _ _ _ _ H Hi) as (m & Hm & ?).
    simplify_eq. by eapply list_elem_of_lookup_2.
Qed.

(** How many eligible nodes have a prefix. *)
Definition prefix_count (p : nat) : nat := length (filter (λ n, prefix_of n = Some p) (eligible_nodes s now)).

Lemma prefix_count_slots p : length (filter (λ x, slot_prefix x = Some p) eligible_slots) = prefix_count p.
Proof.
  unfold prefix_count. induction eligible_slots_nodes as [|x n xs ns Hx _ IH]; [done|].
  assert (slot_prefix x = prefix_of n) as Hp by (unfold slot_prefix; by rewrite Hx).
  destruct (decide (prefix_of n = Some p)).
  - rewrite !filter_cons_True by congruence. simpl. by rewrite IH.
  - rewrite !filter_cons_False by congruence. done.
Qed.

Lemma group_counts Gs p l : placed Gs → concat Gs ≡ₚ eligible_slots → Gs !! p = Some l → length l = prefix_count p.
Proof.
  intros [_ Hpl] HE Hp. rewrite <-prefix_count_slots. apply Permutation_length, NoDup_Permutation.
  - pose proof eligible_slots_NoDup as Hnd. rewrite <-HE in Hnd. destruct (concat_insert Gs p l Hp) as (r & Hr & _).
    rewrite Hr in Hnd. by apply NoDup_app in Hnd as [? _].
  - apply NoDup_filter, eligible_slots_NoDup.
  - intros x. rewrite list_elem_of_filter, <-HE, elem_of_concat. split.
    + intros Hx. split; [by eapply Hpl|eauto].
    + intros (Hx & p' & l' & Hp' & Hx'). pose proof (Hpl _ _ _ Hp' Hx') as Heq. rewrite Hx in Heq. by simplify_eq.
Qed.

Lemma minimum_spec (l : list nat) c : c ∈ l → ∃ m, minimum l = Some m ∧ m ∈ l ∧ ∀ x, x ∈ l → m ≤ x.
Proof.
  assert (∀ l a, fold_left Nat.min l a ∈ a :: l ∧ ∀ x, x ∈ a :: l → fold_left Nat.min l a ≤ x) as Hfold.
  { clear. induction l as [|b l IH]; intros a; simpl.
    - split; [by left|]. intros x [->|?%elem_of_nil]%elem_of_cons; done.
    - destruct (IH (Nat.min a b)) as [H1 H2]. split.
      + apply elem_of_cons in H1 as [->|H1]; [|set_solver]. destruct (Nat.min_spec a b) as [[_ ->]|[_ ->]]; set_solver.
      + intros x Hx. assert (fold_left Nat.min l (a `min` b) ≤ a `min` b) by (apply H2; by left).
        apply elem_of_cons in Hx as [->|[->|Hx]%elem_of_cons]; [lia|lia|]. apply H2. by right. }
  intros Hc. destruct l as [|a l]; [by apply elem_of_nil in Hc|]. destruct (Hfold l a). eexists. split; [done|]. done.
Qed.

Lemma sum_concat (Gs : list (list nat)) : sum_list (length <$> Gs) = length (concat Gs).
Proof. induction Gs as [|l Gs IH]; [done|]. simpl. rewrite length_app. f_equal. exact IH. Qed.

(** The three passes together. *)
Lemma passes_ok gs ln Gs order :
  queues ln gs Gs → placed Gs → length ln = length (slots s) → concat Gs ≡ₚ eligible_slots →
  ready_in order Gs → Forall (λ p, p < 256) order → limit ≤ length eligible_slots →
  let st := mkSample ln gs (replicate 256 slots_default) [] ∅ [] (replicate 256 0) in
  ∃ st1 st2 st3 Gs' Ds' outs seeds new extra,
    seed_loop s limit order st = Some st1 ∧ fill_loop s limit (S (length (slots s))) st1 = Some st2
    ∧ relax s limit (S (length (slots s))) order st2 = Some st3
    ∧ sample_ok st3 Gs' Ds' outs ∧ output st3 = seeds ++ new ++ extra ∧ length (output st3) = limit
    ∧ prefix_of <$> seeds = Some <$> take limit order
    ∧ NoDup (subnet_of <$> new) ∧ (∀ n, n ∈ new → subnet_of n ∉ subnet_of <$> seeds)
    ∧ (extra = [] ∨ ∀ n, n ∈ eligible_nodes s now → subnet_of n ∈ subnet_of <$> seeds ++ new).
Proof.
  intros Hq Hpl Hln HE Hr Hord Hlim st.
  assert (length eligible_slots ≤ length (slots s)) as HEl.
  { unfold eligible_slots. etrans; [apply length_filter|]. by rewrite length_seq. }
  assert (concat (replicate 256 (@nil nat)) = []) as Hnil by done.
  assert (sample_ok st Gs (replicate 256 []) []) as Hok.
  { unfold st. split; cbn [links groups deferred active subnets output selected]; try done.
    - split.
      + rewrite !length_app, !length_replicate, (qs_length _ _ _ Hq). done.
      + intros p q l. rewrite !lookup_app. pose proof (qs_length _ _ _ Hq) as Hlen.
        destruct (gs !! p) as [q'|] eqn:Eg, (Gs !! p) as [l'|] eqn:EG.
        * intros [= <-] [= <-]. by eapply qs_queue.
        * apply lookup_lt_Some in Eg. apply lookup_ge_None in EG. lia.
        * apply lookup_lt_Some in EG. apply lookup_ge_None in Eg. lia.
        * intros [-> _]%lookup_replicate [-> _]%lookup_replicate. done.
      + rewrite concat_app, Hnil, app_nil_r. apply Hq.
      + rewrite concat_app, Hnil, app_nil_r. apply Hq.
    - split_and!; [|done..]. rewrite (qs_length _ _ _ Hq). apply Hpl.
    - split; [done|]. intros p l x [-> _]%lookup_replicate Hx. by apply elem_of_nil in Hx.
    - by rewrite !app_nil_r.
    - simpl. apply Nat.le_0_l.
    - intros x n Hx. by apply elem_of_nil in Hx.
    - intros p. split; [|by intros ?%elem_of_nil]. destruct (replicate 256 0 !! p) as [k|] eqn:E; simpl; [|lia].
      apply lookup_replicate in E as [-> _]. lia. }
  destruct (seed_loop_ok order st Gs (replicate 256 []) [] Hok) as (st1 & G1 & x1 & seeds & Hs1 & Hok1 & Hr1 & Ho1 & Hseeds);
    [done|].
  destruct (fill_loop_ok (S (length (slots s))) st1 G1 (replicate 256 []) _ Hok1 Hr1)
    as (st2 & G2 & D2 & x2 & new & Hs2 & Hok2 & Hr2 & Ho2 & Hnd & Hnew & Hend).
  { pose proof (Permutation_length (so_all _ _ _ _ Hok1)) as Hl. rewrite !length_app in Hl. lia. }
  destruct (relax_ok (S (length (slots s))) order st2 G2 D2 _ Hok2 Hr2 Hend (proj1 Hr) Hord)
    as (st3 & D3 & x3 & extra & Hs3 & Hok3 & Ho3 & Hl3 & Hex); [|done|lia|].
  { intros x p Hx Hp. apply (proj2 Hr). rewrite <-HE in Hx. apply elem_of_concat in Hx as (p' & l & Hl & Hx).
    pose proof (proj2 Hpl _ _ _ Hl Hx). simplify_eq. destruct l as [|y l]; [by apply elem_of_nil in Hx|eauto]. }
  simpl in Ho1, Hseeds. rewrite Nat.sub_0_r in Hseeds. subst seeds.
  exists st1, st2, st3, G2, D3. eexists _, (output st1), new, extra. split_and!; try done.
  - by rewrite Ho3, Ho2, <-app_assoc.
  - intros n Hn Hin. apply (Hnew n Hn). rewrite (so_subnets _ _ _ _ Hok1). by apply elem_of_list_to_set.
  - destruct Hex as [?|Hex]; [by left|right]. intros n (x & Hx & Hnx)%eligible_node_slot.
    rewrite <-Ho2. by eapply Hex.
Qed.

End correct.

(** The cursors after a sample; [chosen] counts its nodes per prefix. *)
Lemma advance_cursors_ok prefixes chosen counts cursors :
  Forall (λ p, p < 256) prefixes → NoDup prefixes → length chosen = 256 → length cursors = 256 →
  (∀ p, 0 < default 0 (chosen !! p) → ∃ c, counts !! p = Some (S c)) →
  ∃ cursors', advance_cursors prefixes chosen counts cursors = Some cursors' ∧ length cursors' = 256
    ∧ ∀ p c, cursors !! p = Some c →
        cursors' !! p = Some (if bool_decide (p ∈ prefixes ∧ 0 < default 0 (chosen !! p))
                              then (c + 1) `mod` default 0 (counts !! p) else c).
Proof.
  intros Hp Hnd Hc. revert cursors; induction Hp as [|p prefixes Hp Hps IH]; intros cursors Hcu Hsel; cbn [advance_cursors].
  { by exists cursors. }
  apply NoDup_cons in Hnd as [Hnp Hnd]. specialize (IH Hnd).
  destruct (lookup_lt_is_Some_2 chosen p) as [k Hk]; [lia|]. rewrite Hk. case_bool_decide as Hpos.
  - destruct (lookup_lt_is_Some_2 cursors p) as [c Hcp]; [lia|]. rewrite Hcp.
    destruct (Hsel p) as [n Hn]; [by rewrite Hk|]. rewrite Hn, bool_decide_false by done.
    destruct (IH (<[p := (c + 1) `mod` S n]> cursors)) as (cs' & -> & Hl & Hcs); [by rewrite length_insert|done|].
    exists cs'. split_and!; try done. intros p' c' Hc'. destruct (decide (p' = p)) as [->|Hne].
    + rewrite (Hcs p ((c + 1) `mod` S n)) by (rewrite list_lookup_insert_eq; [done|lia]). simplify_eq.
      rewrite bool_decide_false by (intros [? _]; done). rewrite bool_decide_true by (split; [by left|by rewrite Hk]).
      by rewrite Hn.
    + rewrite (Hcs p' c') by (by rewrite list_lookup_insert_ne). f_equal. erewrite bool_decide_ext; [done|]. set_solver.
  - destruct (IH cursors) as (cs' & -> & Hl & Hcs); [done..|]. exists cs'. split_and!; try done.
    intros p' c' Hc'. rewrite (Hcs p' c' Hc'). f_equal. erewrite bool_decide_ext; [done|]. split; [set_solver|].
    intros [[->|?]%elem_of_cons Hch]; [|done]. rewrite Hk in Hch. done.
Qed.

Lemma queue_counts ln gs Gs : queues ln gs Gs → len <$> gs = length <$> Gs.
Proof.
  intros Hq. apply list_eq. intros p. rewrite !list_lookup_fmap. pose proof (qs_length _ _ _ Hq) as Hlen.
  destruct (gs !! p) as [q|] eqn:Eg, (Gs !! p) as [l|] eqn:EG; try done; simpl.
  - f_equal. by destruct (qs_queue _ _ _ Hq _ _ _ Eg EG) as [? _].
  - apply lookup_lt_Some in Eg. apply lookup_ge_None in EG. lia.
  - apply lookup_lt_Some in EG. apply lookup_ge_None in Eg. lia.
Qed.

Lemma queues_start ln n : queues ln (replicate n slots_default) (replicate n []).
Proof.
  assert (concat (replicate n (@nil nat)) = []) as Hnil by (induction n; [done|by simpl]).
  split; rewrite ?Hnil.
  - by rewrite !length_replicate.
  - intros p q l [-> _]%lookup_replicate [-> _]%lookup_replicate. done.
  - constructor.
  - by intros x ?%elem_of_nil.
Qed.

Lemma filter_ext_in {A} (P Q : A → Prop) `{∀ x, Decision (P x), ∀ x, Decision (Q x)} l :
  Forall (λ x, P x ↔ Q x) l → filter P l = filter Q l.
Proof.
  induction 1 as [|x l Hx _ IH]; [done|]. destruct (decide (P x)).
  - rewrite !filter_cons_True by tauto. by rewrite IH.
  - rewrite !filter_cons_False by tauto. done.
Qed.

Lemma length_resize {A} n (x : A) l : length (resize n x l) = n.
Proof. unfold resize. rewrite length_app, length_take, length_replicate. lia. Qed.

Lemma rotate_perm {A} n (l : list A) : rotate n l ≡ₚ l.
Proof. unfold rotate. by rewrite Permutation_app_comm, take_drop. Qed.

(** A sample in its three parts: a seed for each prefix, nodes of new subnets,
    and nodes that repeat a subnet. *)
Record sample_of (s : ResponsiveReservoir) (now : Instant) (limit : nat) (seeds new extra : list NodeTuple)
  : Prop := {
  sa_length : length (seeds ++ new ++ extra) = limit `min` length (eligible_nodes s now);
  sa_eligible n : n ∈ seeds ++ new ++ extra → n ∈ eligible_nodes s now;
  sa_distinct : NoDup (addr <$> seeds ++ new ++ extra);
  sa_seeds : NoDup (prefix_of <$> seeds);
  sa_prefixes : new ++ extra = [] ∨ ∀ n, n ∈ eligible_nodes s now → prefix_of n ∈ prefix_of <$> seeds;
  sa_new : NoDup (subnet_of <$> new) ∧ ∀ n, n ∈ new → subnet_of n ∉ subnet_of <$> seeds;
  sa_subnets : extra = [] ∨ ∀ n, n ∈ eligible_nodes s now → subnet_of n ∈ subnet_of <$> seeds ++ new;
}.

(** The prefixes that have an eligible node, in increasing order. *)
Definition represented (s : ResponsiveReservoir) (now : Instant) : list nat :=
  filter (λ p, 0 < prefix_count s now p) (seq 0 256).

(** Where a sample of [sample] leaves the cursors: the next one starts a prefix
    further, and in each prefix it took a node of a member further. *)
Record rotated (s : ResponsiveReservoir) (now : Instant) (sample : list NodeTuple) (s' : ResponsiveReservoir)
  : Prop := {
  ro_prefix : snapshot_prefix_cursor s'
    = (snapshot_prefix_cursor s + 1) `mod` (length (represented s now) `max` 1);
  ro_length : length (snapshot_member_cursors s') = 256;
  ro_members p c : snapshot_member_cursors s !! p = Some c →
    snapshot_member_cursors s' !! p
    = Some (if bool_decide (Some p ∈ prefix_of <$> sample) then (c + 1) `mod` prefix_count s now p else c);
}.

(** The prefixes with the fewest eligible nodes. *)
Definition sparse_ok (s : ResponsiveReservoir) (now : Instant) (sparse : list Z) : Prop :=
  sparse ≠ [] ∧ ∀ b, b ∈ sparse ↔ ∃ p, b = Z.of_nat p ∧ p < 256
    ∧ ∀ p', p' < 256 → prefix_count s now p ≤ prefix_count s now p'.

Section sample.
Context (s : ResponsiveReservoir) (now : Instant) (limit : nat).
Context (Hwf : wf s) (Hids : ids_ok s).

(** Distinct slots hold distinct endpoints. *)
Lemma outs_distinct outs ns :
  NoDup outs → Forall2 (λ x n, slot_node s x = Some n) outs ns → NoDup (addr <$> ns).
Proof.
  intros Hnd H. induction H as [|x n outs ns Hx Hf IH]; [constructor|]. apply NoDup_cons in Hnd as [Hn Hnd].
  simpl. constructor; [|by apply IH]. intros (m & Ha & [i Hi]%list_elem_of_lookup)%list_elem_of_fmap.
  destruct (Forall2_lookup_r _ _ _ _ _ Hf Hi) as (y & Hy & Hym). apply Hn.
  unfold slot_node in Hx, Hym. destruct (slot_entry s x) as [e|] eqn:Ex; [|done].
  destruct (slot_entry s y) as [e'|] eqn:Ey; [|done]. simplify_eq/=. destruct Hwf as (_ & _ & Hix & _).
  assert (index s !! addr (node e) = Some x) as H1 by (apply Hix; eauto).
  assert (index s !! addr (node e) = Some y) as H2 by (apply Hix; exists e'; auto).
  simplify_eq. by eapply list_elem_of_lookup_2.
Qed.

Lemma counts_lookup Gs p :
  placed s Gs → concat Gs ≡ₚ eligible_slots s now → p < 256 →
  (length <$> Gs) !! p = Some (prefix_count s now p).
Proof.
  intros Hpl HE Hp. rewrite list_lookup_fmap. destruct (lookup_lt_is_Some_2 Gs p) as [l Hl]; [by rewrite (proj1 Hpl)|].
  rewrite Hl. simpl. f_equal. by eapply group_counts.
Qed.

Lemma sparse_listed Gs least :
  placed s Gs → concat Gs ≡ₚ eligible_slots s now → least ∈ length <$> Gs →
  (∀ c, c ∈ length <$> Gs → least ≤ c) →
  sparse_ok s now (Z.of_nat <$> filter (λ p, (length <$> Gs) !! p = Some least) (seq 0 256)).
Proof.
  intros Hpl HE Hin Hmin. pose proof (counts_lookup Gs) as Hcl.
  assert (∀ p, p < 256 → prefix_count s now p = least ↔ ∀ p', p' < 256 → prefix_count s now p ≤ prefix_count s now p') as Hle.
  { intros p Hp. split.
    - intros -> p' Hp'. apply Hmin. eapply list_elem_of_lookup_2. by apply Hcl.
    - intros Hall. apply Nat.le_antisymm.
      + apply list_elem_of_lookup in Hin as [p' Hp']. assert (p' < 256) as Hlt.
        { apply lookup_lt_Some in Hp'. rewrite length_fmap, (proj1 Hpl) in Hp'. done. }
        rewrite Hcl in Hp' by done. simplify_eq. by apply Hall.
      + apply Hmin. eapply list_elem_of_lookup_2. by apply Hcl. }
  split.
  - apply list_elem_of_lookup in Hin as [p Hp]. intros Hnil%fmap_nil_inv.
    assert (p ∈ filter (λ p, (length <$> Gs) !! p = Some least) (seq 0 256)) as Hin'; [|rewrite Hnil in Hin'; by apply elem_of_nil in Hin'].
    apply list_elem_of_filter. split; [done|]. apply elem_of_seq. apply lookup_lt_Some in Hp.
    rewrite length_fmap, (proj1 Hpl) in Hp. lia.
  - intros b. rewrite list_elem_of_fmap. split.
    + intros (p & -> & [Hp Hs]%list_elem_of_filter). apply elem_of_seq in Hs. exists p. split; [done|].
      split; [lia|]. apply Hle; [lia|]. rewrite Hcl in Hp by (done || lia). by simplify_eq.
    + intros (p & -> & Hp & Hall). exists p. split; [done|]. apply list_elem_of_filter.
      rewrite Hcl by done. split; [|apply elem_of_seq; lia]. f_equal. by apply Hle.
Qed.

(** What the three passes leave is a sample. *)
Lemma sample_parts Gs order st Gs' Ds' outs seeds new extra :
  let limit' := limit `min` length (eligible_slots s now) in
  placed s Gs → concat Gs ≡ₚ eligible_slots s now → ready_in order Gs →
  sample_ok s now limit' st Gs' Ds' outs → output st = seeds ++ new ++ extra → length (output st) = limit' →
  prefix_of <$> seeds = Some <$> take limit' order →
  NoDup (subnet_of <$> new) → (∀ n, n ∈ new → subnet_of n ∉ subnet_of <$> seeds) →
  (extra = [] ∨ ∀ n, n ∈ eligible_nodes s now → subnet_of n ∈ subnet_of <$> seeds ++ new) →
  sample_of s now limit seeds new extra.
Proof.
  intros limit' Hpl1 HE1 Hr Hok Ho Hlen Hsd Hnew1 Hnew2 Hex.
  assert (length (eligible_slots s now) = length (eligible_nodes s now)) as Hen.
  { eapply Forall2_length, eligible_slots_nodes. }
  assert (NoDup outs) as Hnd.
  { pose proof (eligible_slots_NoDup s now) as Hnd. rewrite <-(so_all _ _ _ _ _ _ _ Hok) in Hnd.
    apply NoDup_app in Hnd as (_ & _ & Hnd). by apply NoDup_app in Hnd as (_ & _ & ?). }
  pose proof (so_output _ _ _ _ _ _ _ Hok) as Hout. rewrite Ho in Hout, Hlen. split; try done.
  - rewrite Hlen. unfold limit'. by rewrite Hen.
  - intros n [i Hi]%list_elem_of_lookup. destruct (Forall2_lookup_r _ _ _ _ _ Hout Hi) as (x & Hx & Hn).
    apply eligible_node_slot. exists x. split; [|done]. rewrite <-(so_all _ _ _ _ _ _ _ Hok).
    apply list_elem_of_lookup_2 in Hx. set_solver.
  - by eapply outs_distinct.
  - rewrite Hsd. apply NoDup_fmap_2; [apply _|]. eapply sublist_NoDup; [apply Hr|apply sublist_take].
  - destruct (decide (length order ≤ limit')) as [Hle|Hgt].
    + right. rewrite Hsd, take_ge by done. intros n (x & Hx & Hn)%eligible_node_slot.
      destruct (eligible_slot s now Hids x Hx) as (n' & p & Hn' & Hp & _ & Hxp & _).
      rewrite Hn in Hn'. injection Hn' as <-. rewrite Hp. apply list_elem_of_fmap. exists p. split; [done|].
      apply (proj2 Hr). rewrite <-HE1 in Hx. apply elem_of_concat in Hx as (p' & l & Hl & Hx).
      pose proof (proj2 Hpl1 _ _ _ Hl Hx) as Hp'. rewrite Hxp in Hp'. injection Hp' as <-.
      destruct l as [|y l]; [by apply elem_of_nil in Hx|eauto].
    + left. apply nil_length_inv. apply (f_equal length) in Hsd. rewrite !length_fmap, length_take in Hsd.
      rewrite length_app in Hlen. lia.
Qed.

Lemma snapshot_ok :
  length (snapshot_member_cursors s) = 256 →
  ∃ seeds new extra cursor cursors sparse ln,
    let s' := set_snapshot s cursor cursors sparse ln in
    snapshot s limit now = Some (seeds ++ new ++ extra, s')
    ∧ sample_of s now limit seeds new extra ∧ sparse_ok s now sparse ∧ rotated s now (seeds ++ new ++ extra) s'
    ∧ prefix_of <$> seeds
      = Some <$> take (limit `min` length (eligible_nodes s now))
                   (rotate (snapshot_prefix_cursor s `mod` length (represented s now)) (represented s now)).
Proof.
  intros Hcu. unfold snapshot.
  set (ln0 := resize (length (slots s)) usize_max (snapshot_links s)).
  assert (length ln0 = length (slots s)) as Hln0 by apply length_resize.
  destruct (collect_ok s now Hids (slots s) 0 (replicate 256 slots_default) ln0 (replicate 256 []))
    as (gs & ln & Gs & -> & Hq & Hpl & Hln & HE); [by rewrite drop_0|apply queues_start| |done|lia|done|].
  { split; [by rewrite length_replicate|]. intros p l x [-> _]%lookup_replicate Hx. by apply elem_of_nil in Hx. }
  rewrite (queue_counts _ _ _ Hq). set (counts := length <$> Gs).
  assert (length counts = 256) as Hlc by (unfold counts; rewrite length_fmap; apply Hpl).
  destruct (lookup_lt_is_Some_2 counts 0) as [c0 Hc0]; [lia|].
  destruct (minimum_spec counts c0) as (least & -> & Hin & Hmin); [by eapply list_elem_of_lookup_2|].
  destruct (prefix_loop_ok s now least (snapshot_member_cursors s) counts 0 [] [] gs ln Gs counts)
    as (gs1 & ln1 & Gs1 & -> & Hq1 & Hpl1 & Hln1 & HE1 & Hco1); try done; [lia|].
  cbn [app]. change (256 - 0) with 256. set (order0 := filter _ (seq 0 256)).
  set (order := if bool_decide (order0 = []) then order0 else rotate (snapshot_prefix_cursor s `mod` length order0) order0).
  assert (order ≡ₚ order0) as Hperm by (unfold order; case_bool_decide; [done|apply rotate_perm]).
  assert (sum_list counts = length (eligible_slots s now)) as Hsum.
  { unfold counts. rewrite sum_concat. by apply Permutation_length. }
  rewrite Hsum. set (limit' := limit `min` length (eligible_slots s now)).
  assert (ready_in order Gs1) as Hr.
  { eapply ready_perm; [symmetry; exact Hperm|]. split; [apply NoDup_filter, NoDup_seq|]. intros p. unfold order0.
    rewrite list_elem_of_filter, elem_of_seq, Hco1, list_lookup_fmap. pose proof (proj1 Hpl1) as Hl1. split.
    - intros [Hpos _]. destruct (Gs1 !! p) as [[|x l]|]; simpl in Hpos; [lia|eauto|lia].
    - intros (x & l & Hp). rewrite Hp. apply lookup_lt_Some in Hp. simpl. lia. }
  assert (Forall (λ p, p < 256) order) as Hord.
  { apply Forall_forall. intros p Hp. rewrite Hperm in Hp. apply list_elem_of_filter in Hp as [_ Hp]. apply elem_of_seq in Hp. lia. }
  destruct (passes_ok s now limit' Hids gs1 ln1 Gs1 order Hq1 Hpl1 Hln1 HE1 Hr Hord)
    as (st1 & st2 & st3 & G' & D' & outs & seeds & new & extra & Hs1 & Hs2 & Hs3 & Hok & Ho & Hlen & Hsd & Hnew1 & Hnew2 & Hex).
  { unfold limit'. lia. }
  rewrite Hs1, Hs2, Hs3. pose proof (so_lengths _ _ _ _ _ _ _ Hok) as (_ & _ & Hsel).
  assert (∀ p, 0 < default 0 (selected st3 !! p) → p < 256 ∧ 0 < prefix_count s now p) as Hcnt.
  { intros p Hk. apply (so_selected _ _ _ _ _ _ _ Hok) in Hk as (n & Hpn & [i Hi]%list_elem_of_lookup)%list_elem_of_fmap.
    destruct (Forall2_lookup_r _ _ _ _ _ (so_output _ _ _ _ _ _ _ Hok) Hi) as (x & Hx & Hxn).
    assert (x ∈ eligible_slots s now) as HEx.
    { rewrite <-(so_all _ _ _ _ _ _ _ Hok). apply list_elem_of_lookup_2 in Hx. set_solver. }
    destruct (eligible_slot s now Hids x HEx) as (n' & p' & Hn & Hp & Hp256 & Hp' & _). simplify_eq.
    rewrite Hp in Hpn. injection Hpn as <-. split; [done|]. rewrite <-prefix_count_slots.
    assert (x ∈ filter (λ x, slot_prefix s x = Some p) (eligible_slots s now)) as Hf by (by apply list_elem_of_filter).
    apply list_elem_of_lookup in Hf as [j Hj]. apply lookup_lt_Some in Hj. lia. }
  assert (∀ p, p < 256 → counts !! p = Some (prefix_count s now p)) as Hcp by (intros p Hp; by apply counts_lookup).
  destruct (advance_cursors_ok (seq 0 256) (selected st3) counts (snapshot_member_cursors s)) as (cursors & -> & Hcl & Hcs);
    try done; [apply Forall_forall; intros p Hp%elem_of_seq; lia|apply NoDup_seq| |].
  { intros p [Hp Hpos]%Hcnt. rewrite Hcp by done. destruct (prefix_count s now p); [lia|eauto]. }
  assert (order0 = represented s now) as Hrep.
  { apply filter_ext_in, Forall_forall. intros p Hp%elem_of_seq. rewrite Hcp by lia. done. }
  rewrite Ho. eexists seeds, new, extra, _, cursors, _, _. split; [done|].
  split_and!; [by eapply sample_parts|by apply sparse_listed| |].
  - split; cbn [set_snapshot snapshot_prefix_cursor snapshot_member_cursors]; [|done|].
    + by rewrite (Permutation_length Hperm), Hrep.
    + intros p c Hpc. rewrite (Hcs p c Hpc). f_equal. rewrite <-Ho. apply lookup_lt_Some in Hpc.
      rewrite (bool_decide_ext _ (Some p ∈ prefix_of <$> output st3)).
      * rewrite Hcp by lia. done.
      * rewrite <-(so_selected _ _ _ _ _ _ _ Hok), elem_of_seq. split; [tauto|]. split; [lia|done].
  - rewrite Hsd, <-Hrep. unfold limit'. rewrite (Forall2_length _ _ _ (eligible_slots_nodes s now)). do 2 f_equal.
    unfold order. case_bool_decide as Hnil; [|done]. rewrite Hnil. unfold rotate. by rewrite drop_nil, take_nil.
Qed.
End sample.

(** C18: the published sample is complete, unique and diverse.  For every
    reservoir and limit the snapshot neither panics nor loops and returns the
    smaller of [limit] and the number of live nodes that are not backing off,
    all of them such nodes and no endpoint twice.  The sample starts with one
    seed per identifier prefix, in increasing order from where the prefix cursor
    points and around; unless the limit cuts it off there, every prefix is
    represented.  It goes on with nodes of subnets not yet in the sample, and
    repeats a subnet only once every subnet is represented.  Afterwards the
    prefix cursor is one further among the prefixes with a node, and the member
    cursor of each prefix of the sample, and of no other, is one further among
    its nodes.  The sparse prefixes kept for target selection are exactly those
    with the fewest live nodes, never none.  The schedule of the reservoir is
    untouched, and the queue links reused between groups never mix. *)
Theorem snapshot_correct (s : ResponsiveReservoir) (limit : nat) (now : Instant) :
  wf s → ids_ok s → length (snapshot_member_cursors s) = 256 →
  ∃ seeds new extra s', snapshot s limit now = Some (seeds ++ new ++ extra, s')
    ∧ sample_of s now limit seeds new extra
    ∧ prefix_of <$> seeds
      = Some <$> take (limit `min` length (eligible_nodes s now))
                   (rotate (snapshot_prefix_cursor s `mod` length (represented s now)) (represented s now))
    ∧ rotated s now (seeds ++ new ++ extra) s' ∧ sparse_ok s now (sparse_prefixes s')
    ∧ wf s' ∧ slots s' = slots s.
Proof.
  intros Hwf Hids Hcu.
  destruct (snapshot_ok s now limit Hwf Hids Hcu) as (seeds & new & extra & c & cs & sp & ln & Hs & ? & ? & ? & ?).
  exists seeds, new, extra. eexists. split; [exact Hs|]. split_and!; try done.
Qed.

(** Two prefixes; the first holds two nodes of one subnet and one of another. *)
Definition ex_peer (x a p : Z) : NodeTuple := mkNode [x] (SocketAddrV4 8 8 a 1 p).
Definition ex_full : option ResponsiveReservoir :=
  run (new 4 (from_secs 100) (from_secs 10))
    [(Record (ex_peer 7 1 1) 0, 1); (Record (ex_peer 7 1 2) 0, 1); (Record (ex_peer 7 2 3) 0, 1);
     (Record (ex_peer 9 1 4) 0, 1)]%Z.

Example ex_sample :
  (let! s := ex_full in let! r := snapshot s 3 2 in Some r.1)
  = Some [ex_peer 7 1 1; ex_peer 9 1 4; ex_peer 7 2 3]%Z.
Proof. by vm_compute. Qed.

(** The next sample starts one prefix and one member further. *)
Example ex_sample_rotates :
  (let! s := ex_full in let! r := snapshot s 3 2 in let! r := snapshot r.2 3 3 in Some r.1)
  = Some [ex_peer 9 1 4; ex_peer 7 1 2; ex_peer 7 2 3]%Z.
Proof. by vm_compute. Qed.

Lemma snapshot_correct_witness :
  ∃ seeds new extra s', snapshot ex_state 3 40 = Some (seeds ++ new ++ extra, s')
    ∧ sample_of ex_state 40 3 seeds new extra
    ∧ prefix_of <$> seeds
      = Some <$> take (3 `min` length (eligible_nodes ex_state 40))
                   (rotate (snapshot_prefix_cursor ex_state `mod` length (represented ex_state 40)) (represented ex_state 40))
    ∧ rotated ex_state 40 (seeds ++ new ++ extra) s' ∧ sparse_ok ex_state 40 (sparse_prefixes s')
    ∧ wf s' ∧ slots s' = slots ex_state.
Proof.
  apply (snapshot_correct ex_state 3 40).
  - apply ex_state_ok.
  - intros [|[|i]] e He; vm_compute in He; [| |done]; injection He as <-; eexists; (split; [by vm_compute|lia]).
  - by vm_compute.
Defined.

End Snapshot.
