(* ===== verification/Types.v ===== *)
(** * Configuration and event types ([src/types.rs], [src/crawl_config.rs])

    Integers keep their Rust ranges as [Z]; field names carry a prefix per
    record. *)

From S2P Require Import Prelude Net.

Local Open Scope Z_scope.

(** ** Events of the hash pipeline *)

Inductive HashSource := Announce | GetPeers | Sample.
#[global] Instance HashSource_eq_dec : EqDecision HashSource.
Proof. solve_decision. Defined.

Record HashDiscovered := mkDiscovered {
  hd_info_hash : string;
  hd_peer_addr : option SocketAddr;
  hd_source_node : option NodeTuple;
  hd_source : HashSource;
  hd_discovered_at : Instant;
}.

Inductive MetadataFetchCompletionStatus := Accepted | FetchFailed | DeliveryRejected.
#[global] Instance CompletionStatus_eq_dec : EqDecision MetadataFetchCompletionStatus.
Proof. solve_decision. Defined.

Record MetadataFetchCompletion := mkCompletion {
  mc_info_hash : string;
  mc_status : MetadataFetchCompletionStatus;
  mc_attempts : nat;
}.

Definition is_success (c : MetadataFetchCompletion) : bool := bool_decide (mc_status c = Accepted).

Record FileInfo := mkFile { fi_path : string; fi_size : Z }.

(** ** Options *)

Record DiscoveryOptions := mkDiscoveryOptions {
  do_enabled : bool;
  do_sample_queries_per_second : Z;
  do_sample_burst : Z;
  do_sample_max_in_flight : Z;
  do_sample_query_timeout_secs : Z;
  do_sample_min_interval_secs : Z;
  do_sample_failure_backoff_secs : Z;
  do_sample_no_new_backoff_secs : Z;
  do_sample_max_nodes : Z;
  do_sample_cooldown_capacity : Z;
  do_hash_dedup_capacity : Z;
  do_hash_dedup_ttl_secs : Z;
  do_get_peers_hashes_per_second : Z;
  do_get_peers_burst : Z;
  do_sample_hashes_per_second : Z;
  do_sample_hash_burst : Z;
}.

Definition DiscoveryOptions_default : DiscoveryOptions :=
  mkDiscoveryOptions true 4 8 16 3 300 900 1800 16384 100000 100000 900 8 16 16 64.

Record MetadataOptions := mkMetadataOptions {
  mo_timeout_secs : Z;
  mo_max_queue_size : Z;
  mo_max_worker_count : Z;
  mo_peer_failure_cache_capacity : Z;
  mo_peer_failure_ttl_secs : Z;
  mo_retry_initial_delay_secs : Z;
  mo_retry_max_delay_secs : Z;
  mo_retry_max_attempts : Z;
  mo_retry_history_ttl_secs : Z;
  mo_retry_history_capacity : Z;
}.

Definition MetadataOptions_default : MetadataOptions :=
  mkMetadataOptions 4 10000 256 200000 60 60 3600 5 21600 100000.

Record PeerLookupOptions := mkPeerLookupOptions {
  po_max_lookups_per_second : Z;
  po_burst : Z;
  po_max_active_lookups : Z;
  po_max_queries : Z;
  po_max_concurrent_queries : Z;
  po_lookup_timeout_ms : Z;
  po_query_timeout_ms : Z;
}.

Definition PeerLookupOptions_default : PeerLookupOptions :=
  mkPeerLookupOptions 32 32 64 12 4 2000 500.

Record RateLimitOptions := mkRateLimitOptions {
  rl_max_find_node_rate_per_sec : Z;
  rl_burst : Z;
  rl_max_in_flight : Z;
  rl_request_timeout_secs : Z;
  rl_max_new_destinations_per_minute : Z;
  rl_max_response_rate_per_sec : Z;
  rl_max_response_bytes_per_sec : Z;
  rl_max_response_rate_per_source : Z;
  rl_metadata_pressure_floor_percent : Z;
  rl_max_replacements_per_minute : Z;
  rl_max_in_flight_per_subnet : Z;
}.

Definition RateLimitOptions_default : RateLimitOptions :=
  mkRateLimitOptions 200 40 512 2 10000 500 (1024 * 1024) 40 25 25000 8.

Record PoolOptions := mkPoolOptions {
  pl_capacity : Z;
  pl_recent_probe_ttl_secs : Z;
  pl_responsive_capacity : Z;
  pl_responsive_ttl_secs : Z;
  pl_revisit_interval_secs : Z;
  pl_low_watermark : Z;
}.

Definition PoolOptions_default : PoolOptions := mkPoolOptions 100000 600 16384 900 0 10000.

Record BootstrapOptions := mkBootstrapOptions {
  bo_nodes : list string;
  bo_interval_secs : Z;
  bo_max_nodes_per_round : Z;
  bo_source_backoff_base_secs : Z;
  bo_source_backoff_max_secs : Z;
}.

Definition BootstrapOptions_default : BootstrapOptions :=
  mkBootstrapOptions
    ["router.bittorrent.com:6881"; "dht.transmissionbt.com:6881";
     "router.utorrent.com:6881"; "dht.aelitis.com:6881"]
    300 3 300 3600.

Record TargetOptions := mkTargetOptions {
  tg_random_walk_percent : Z;
  tg_sparse_bucket_percent : Z;
  tg_neighbor_sender_id : bool;
}.

Definition TargetOptions_default : TargetOptions := mkTargetOptions 70 30 true.

Record SchedulerOptions := mkSchedulerOptions {
  so_priority_event_channel_capacity : Z;
  so_discovery_event_channel_capacity : Z;
  so_event_batch_limit : Z;
  so_node_batch_limit : Z;
  so_routing_snapshot_size : Z;
  so_snapshot_refresh_millis : Z;
}.

Definition SchedulerOptions_default : SchedulerOptions :=
  mkSchedulerOptions 8192 16384 256 4096 4096 1000.

Record CrawlOptions := mkCrawlOptions {
  co_pool : PoolOptions;
  co_rate_limit : RateLimitOptions;
  co_bootstrap : BootstrapOptions;
  co_target : TargetOptions;
  co_scheduler : SchedulerOptions;
}.

Definition CrawlOptions_default : CrawlOptions :=
  mkCrawlOptions PoolOptions_default RateLimitOptions_default BootstrapOptions_default
    TargetOptions_default SchedulerOptions_default.

Record DHTOptions := mkDHTOptions {
  dh_port : Z;
  dh_netmode : NetMode;
  dh_hash_queue_capacity : Z;
  dh_metadata : MetadataOptions;
  dh_peer_lookup : PeerLookupOptions;
  dh_discovery : DiscoveryOptions;
  dh_crawl : CrawlOptions;
}.

Definition DHTOptions_default : DHTOptions :=
  mkDHTOptions 6881 Ipv4Only 10000 MetadataOptions_default PeerLookupOptions_default
    DiscoveryOptions_default CrawlOptions_default.

(** ** Resolved crawl configuration *)

Record ResolvedCrawlConfig := mkConfig {
  cf_max_find_node_rate_per_sec : Z;
  cf_burst : Z;
  cf_max_in_flight : Z;
  cf_request_timeout : Duration;
  cf_max_new_destinations_per_minute : Z;
  cf_max_response_rate_per_sec : Z;
  cf_max_response_bytes_per_sec : Z;
  cf_max_response_rate_per_source : Z;
  cf_metadata_pressure_floor_percent : Z;
  cf_pool_capacity : Z;
  cf_max_replacements_per_minute : Z;
  cf_recent_probe_ttl : Duration;
  cf_responsive_capacity : Z;
  cf_responsive_ttl : Duration;
  cf_revisit_interval : Duration;
  cf_low_watermark : Z;
  cf_max_in_flight_per_subnet : Z;
  cf_bootstrap_nodes : list string;
  cf_bootstrap_interval : Duration;
  cf_bootstrap_max_nodes_per_round : Z;
  cf_bootstrap_backoff_base : Duration;
  cf_bootstrap_backoff_max : Duration;
  cf_random_walk_percent : Z;
  cf_sparse_bucket_percent : Z;
  cf_neighbor_sender_id : bool;
  cf_priority_event_channel_capacity : Z;
  cf_discovery_event_channel_capacity : Z;
  cf_event_batch_limit : Z;
  cf_node_batch_limit : Z;
  cf_routing_snapshot_size : Z;
  cf_snapshot_refresh : Duration;
}.

Definition from_options (o : CrawlOptions) : ResolvedCrawlConfig :=
  let rl := co_rate_limit o in
  let pl := co_pool o in
  let bo := co_bootstrap o in
  let tg := co_target o in
  let so := co_scheduler o in
  let capacity := Z.max (pl_capacity pl) 1 in
  {| cf_max_find_node_rate_per_sec := rl_max_find_node_rate_per_sec rl;
     cf_burst := if rl_max_find_node_rate_per_sec rl =? 0 then 0 else Z.max (rl_burst rl) 1;
     cf_max_in_flight := Z.max (rl_max_in_flight rl) 1;
     cf_request_timeout := from_secs (Z.max (rl_request_timeout_secs rl) 1);
     cf_max_new_destinations_per_minute := rl_max_new_destinations_per_minute rl;
     cf_max_response_rate_per_sec := rl_max_response_rate_per_sec rl;
     cf_max_response_bytes_per_sec := rl_max_response_bytes_per_sec rl;
     cf_max_response_rate_per_source := rl_max_response_rate_per_source rl;
     cf_metadata_pressure_floor_percent := Z.min (rl_metadata_pressure_floor_percent rl) 100;
     cf_pool_capacity := capacity;
     cf_max_replacements_per_minute := rl_max_replacements_per_minute rl;
     cf_recent_probe_ttl := from_secs (Z.max (pl_recent_probe_ttl_secs pl) 1);
     cf_responsive_capacity := Z.max (pl_responsive_capacity pl) 1;
     cf_responsive_ttl := from_secs (Z.max (pl_responsive_ttl_secs pl) 1);
     cf_revisit_interval := from_secs (pl_revisit_interval_secs pl);
     cf_low_watermark := Z.min (pl_low_watermark pl) capacity;
     cf_max_in_flight_per_subnet := Z.max (rl_max_in_flight_per_subnet rl) 1;
     cf_bootstrap_nodes :=
       match bo_nodes bo with [] => bo_nodes BootstrapOptions_default | ns => ns end;
     cf_bootstrap_interval := from_secs (bo_interval_secs bo);
     cf_bootstrap_max_nodes_per_round := bo_max_nodes_per_round bo;
     cf_bootstrap_backoff_base := from_secs (Z.max (bo_source_backoff_base_secs bo) 1);
     cf_bootstrap_backoff_max := from_secs (Z.max (bo_source_backoff_max_secs bo) 1);
     cf_random_walk_percent := Z.min (tg_random_walk_percent tg) 100;
     cf_sparse_bucket_percent := Z.min (tg_sparse_bucket_percent tg) 100;
     cf_neighbor_sender_id := tg_neighbor_sender_id tg;
     cf_priority_event_channel_capacity := Z.max (so_priority_event_channel_capacity so) 1;
     cf_discovery_event_channel_capacity := Z.max (so_discovery_event_channel_capacity so) 1;
     cf_event_batch_limit := Z.max (so_event_batch_limit so) 1;
     cf_node_batch_limit := Z.max (so_node_batch_limit so) 1;
     cf_routing_snapshot_size := Z.max (so_routing_snapshot_size so) 1;
     cf_snapshot_refresh := from_millis (Z.max (so_snapshot_refresh_millis so) 100) |}.

(** Options hold what their unsigned Rust types allow. *)
Definition crawl_options_ok (o : CrawlOptions) : Prop :=
  0 ≤ rl_max_find_node_rate_per_sec (co_rate_limit o) ∧ 0 ≤ rl_burst (co_rate_limit o)
  ∧ 0 ≤ rl_metadata_pressure_floor_percent (co_rate_limit o)
  ∧ 0 ≤ pl_low_watermark (co_pool o) ∧ 0 ≤ tg_random_walk_percent (co_target o)
  ∧ 0 ≤ tg_sparse_bucket_percent (co_target o).

(** The bounds the rest of the crate relies on. *)
Definition config_ok (c : ResolvedCrawlConfig) : Prop :=
  1 ≤ cf_max_in_flight c ∧ 1 ≤ cf_pool_capacity c ∧ 1 ≤ cf_responsive_capacity c
  ∧ 1 ≤ cf_max_in_flight_per_subnet c ∧ 0 ≤ cf_low_watermark c ≤ cf_pool_capacity c
  ∧ 0 ≤ cf_metadata_pressure_floor_percent c ≤ 100 ∧ 0 ≤ cf_random_walk_percent c ≤ 100
  ∧ 0 ≤ cf_sparse_bucket_percent c ≤ 100
  ∧ (cf_burst c = 0 ↔ cf_max_find_node_rate_per_sec c = 0)
  ∧ from_secs 1 ≤ cf_request_timeout c ∧ from_secs 1 ≤ cf_recent_probe_ttl c
  ∧ from_secs 1 ≤ cf_responsive_ttl c ∧ from_millis 100 ≤ cf_snapshot_refresh c
  ∧ cf_bootstrap_nodes c ≠ [].

(** Resolving any user-supplied crawl options yields a configuration
    whose limits are usable: non-zero capacities and timeouts, a watermark
    within the pool, percentages within 100, a burst that is zero exactly
    when crawling is disabled, and at least one bootstrap host. *)
Theorem from_options_ok (o : CrawlOptions) : crawl_options_ok o → config_ok (from_options o).
Proof.
  intros (H1 & H2 & H3 & H4 & H5 & H6). unfold config_ok, from_options, from_secs, from_millis. simpl.
  split_and!; try lia.
  - destruct (Z.eqb_spec (rl_max_find_node_rate_per_sec (co_rate_limit o)) 0); lia.
  - destruct (bo_nodes (co_bootstrap o)); done.
Qed.

Lemma from_options_ok_witness : config_ok (from_options CrawlOptions_default).
Proof. apply (from_options_ok CrawlOptions_default). unfold crawl_options_ok. simpl. lia. Defined.
