(* ===== verification/HashQueue.v ===== *)
(** * Pending hashes ([PendingHashQueue] of [src/scheduler.rs])

    Deduplicated InfoHashes waiting for a metadata job, with five ordered
    indexes over one table.  [Instant] keys pair with an insertion sequence
    number; the number wraps at 2^64 in the code, so statements about the
    indexes assume fewer insertions than that. *)

From Stdlib Require Import Sorted.
From stdpp Require Import sorting.
From S2P Require Import Prelude Net Types.

Definition MAX_METADATA_PEERS_PER_HASH : nat := 12.
Definition MAX_METADATA_CANDIDATES_PER_HASH : nat := 64.
Definition HASH_QUEUE_TTL : Duration := from_secs 60.
Definition PEER_COALESCE_WINDOW : Duration := from_millis 25.

Record PeerCandidate := mkPeer { pc_addr : SocketAddr; pc_discovered_at : Instant }.

(** [slice::sort_unstable_by] on discovery time, newest first: any sorted
    permutation. *)
Definition newest_first (l : list PeerCandidate) : Prop :=
  ∀ i j x y, i < j → l !! i = Some x → l !! j = Some y → (pc_discovered_at y ≤ pc_discovered_at x)%Z.

Class UnstableSort := {
  sort_unstable : list PeerCandidate → list PeerCandidate;
  sort_unstable_perm l : sort_unstable l ≡ₚ l;
  sort_unstable_sorted l : newest_first (sort_unstable l);
}.

(** A key of the ordered indexes. *)
Definition OKey : Type := Z * Z.

Record QueuedHash := mkHash {
  info_hash : string;
  peers : list PeerCandidate;
  queued_at : Instant;
  ready_at : Instant;
  latest_at : Instant;
  order_key : OKey;
  source_nodes : list NodeTuple;
  source : HashSource;
  expires_at : Instant;
  is_retry : bool;
  ready : bool;
}.

Inductive QueuePushKind := Inserted | Updated | EvictedOldest | EvictedRetry | Stale.
#[global] Instance QueuePushKind_eq_dec : EqDecision QueuePushKind.
Proof. solve_decision. Defined.

(** Retry decisions, produced by the retry history. *)
Record RetryRecord := mkRetry {
  rr_failures : Z;
  rr_next_due : Instant;
  rr_expires_at : Instant;
  rr_extra_attempts : Z;
}.

(** ** Ordered indexes of a table

    [is_index m key es]: [m] holds exactly the keys [key] assigns to the
    entries of [es]. *)

Definition seq_of (e : QueuedHash) : Z := (order_key e).2.

Definition is_index (m : gmap OKey string) (key : QueuedHash → option OKey)
    (es : gmap string QueuedHash) : Prop :=
  ∀ k h, m !! k = Some h ↔ ∃ e, es !! h = Some e ∧ key e = Some k.

(** A key function that tags keys with the entry's sequence number. *)
Class SeqKey (key : QueuedHash → option OKey) :=
  seq_key : ∀ e k, key e = Some k → k.2 = seq_of e.

Definition seqs_unique (es : gmap string QueuedHash) : Prop :=
  ∀ h1 h2 e1 e2, es !! h1 = Some e1 → es !! h2 = Some e2 → seq_of e1 = seq_of e2 → h1 = h2.

Section index.
Context (key : QueuedHash → option OKey) `{!SeqKey key}.

Lemma is_index_insert m es h e :
  is_index m key es → es !! h = None →
  (∀ h' e', es !! h' = Some e' → seq_of e' ≠ seq_of e) →
  is_index (match key e with Some k => <[k := h]> m | None => m end) key (<[h := e]> es).
Proof.
  intros Hm Hh Hseq k h'.
  assert (∀ k, key e = Some k → m !! k = None) as Hfresh.
  { intros k' Hk'. destruct (m !! k') as [h0|] eqn:E; [|done]. apply Hm in E as (e0 & He0 & Hk0).
    exfalso. apply (Hseq _ _ He0). apply seq_key in Hk0, Hk'. congruence. }
  destruct (key e) as [ke|] eqn:Hke.
  - rewrite lookup_insert_Some. rewrite (Hm k h'). split.
    + intros [[<- <-]|[Hne (e' & He' & Hk')]].
      * exists e. by rewrite lookup_insert_eq.
      * exists e'. rewrite lookup_insert_ne; [done|]. intros <-. congruence.
    + intros (e' & He' & Hk'). rewrite lookup_insert_Some in He'. destruct He' as [[<- <-]|[Hne He']].
      * left. split; congruence.
      * right. split; [|eauto]. intros ->. specialize (Hfresh k eq_refl).
        destruct (Hm k h') as [_ Hb]. rewrite Hb in Hfresh; [done|eauto].
  - rewrite (Hm k h'). split; intros (e' & He' & Hk').
    + exists e'. rewrite lookup_insert_ne; [done|]. intros <-. congruence.
    + rewrite lookup_insert_Some in He'. destruct He' as [[<- <-]|[Hne He']]; [congruence|eauto].
Qed.

Lemma is_index_delete m es h e k :
  is_index m key es → es !! h = Some e → seqs_unique es → k.2 = seq_of e →
  (∀ k', key e = Some k' → k' = k) → is_index (delete k m) key (delete h es).
Proof.
  intros Hm He Hu Hk Hke k' h'. rewrite lookup_delete_Some, (Hm k' h'). split.
  - intros [Hne (e' & He' & Hk')]. exists e'. rewrite lookup_delete_ne; [done|].
    intros <-. simplify_eq. apply Hne. symmetry. by apply Hke.
  - intros (e' & [Hne He']%lookup_delete_Some & Hk'). split; [|eauto]. intros <-. apply Hne.
    apply seq_key in Hk'. eapply Hu; [done..|congruence].
Qed.

Lemma is_index_update m es h e e' :
  is_index m key es → es !! h = Some e → seqs_unique es → seq_of e' = seq_of e →
  match key e, key e' with
  | None, None => is_index m key (<[h := e']> es)
  | None, Some k => is_index (<[k := h]> m) key (<[h := e']> es)
  | Some k, None => is_index (delete k m) key (<[h := e']> es)
  | Some k, Some k' => k = k' → is_index m key (<[h := e']> es)
  end.
Proof.
  intros Hm He Hu Hs.
  assert (∀ k, key e = Some k → is_index (delete k m) key (delete h es)) as Hdel.
  { intros k Hk. apply (is_index_delete m es h e k); [done|done|done|by apply seq_key|]. intros k' Hk'. congruence. }
  assert (key e = None → is_index m key (delete h es)) as Hdel'.
  { intros Hn k h'. rewrite (Hm k h'). split.
    - intros (e0 & He0 & Hk0). exists e0. rewrite lookup_delete_ne; [done|]. intros <-. congruence.
    - intros (e0 & [_ He0]%lookup_delete_Some & Hk0). eauto. }
  assert (∀ m', is_index m' key (delete h es) →
    is_index (match key e' with Some k => <[k := h]> m' | None => m' end) key (<[h := e']> es)) as Hins.
  { intros m' Hm'. rewrite <-insert_delete_eq. apply is_index_insert; [done|apply lookup_delete_eq|].
    intros h' e0 [Hne He0]%lookup_delete_Some. rewrite Hs. intros Heq. apply Hne. by eapply Hu. }
  destruct (key e) as [k|] eqn:Hk; destruct (key e') as [k'|] eqn:Hk'.
  - intros <-. specialize (Hins _ (Hdel k eq_refl)). rewrite insert_delete_id in Hins; [done|].
    apply Hm. eauto.
  - apply Hins, Hdel; done.
  - apply Hins, Hdel'; done.
  - apply Hins, Hdel'; done.
Qed.

Lemma is_index_empty m es : is_index m key es → m = ∅ → ∀ h e, es !! h = Some e → key e = None.
Proof.
  intros Hm -> h e He. destruct (key e) as [k|] eqn:Hk; [|done].
  assert ((∅ : gmap OKey string) !! k = Some h) as Hc by (apply Hm; eauto). by rewrite lookup_empty in Hc.
Qed.
End index.

Module PendingHashQueue.
Section queue.
Context `{US : UnstableSort}.

Record PendingHashQueue := mk {
  capacity : nat;
  ttl : Duration;
  entries : gmap string QueuedHash;
  expiry : gmap OKey string;
  waiting : gmap OKey string;
  ready_fresh : gmap OKey string;
  ready_retry : gmap OKey string;
  retry_expiry : gmap OKey string;
  sequence : Z;
  fresh_dispatches : Z;
}.

Definition merge_candidate (entry : QueuedHash) (event : HashDiscovered) : bool * QueuedHash :=
  let '(new_peer, ps) :=
    match hd_peer_addr event with
    | Some a =>
        let known := filter (λ p, pc_addr p = a) (peers entry) in
        let discovered_at :=
          match head known with
          | Some p => Z.max (pc_discovered_at p) (hd_discovered_at event)
          | None => hd_discovered_at event
          end in
        let rest := filter (λ p, pc_addr p ≠ a) (peers entry) in
        (bool_decide (known = []),
         take MAX_METADATA_CANDIDATES_PER_HASH (sort_unstable (rest ++ [mkPeer a discovered_at])))
    | None => (false, peers entry)
    end in
  let nodes :=
    match hd_source_node event with
    | Some n => take 8 (n :: filter (λ old, addr old ≠ addr n) (source_nodes entry))
    | None => source_nodes entry
    end in
  (new_peer,
   mkHash (info_hash entry) ps (queued_at entry) (ready_at entry)
          (Z.max (latest_at entry) (hd_discovered_at event)) (order_key entry) nodes
          (match hd_source event with Announce => Announce | _ => source entry end)
          (expires_at entry) (is_retry entry) (ready entry)).

Definition new (capacity : nat) (ttl : Duration) : PendingHashQueue :=
  mk (capacity `max` 1) ttl ∅ ∅ ∅ ∅ ∅ ∅ 0 0.

Definition len (q : PendingHashQueue) : nat := size (entries q).
Definition is_empty (q : PendingHashQueue) : bool := bool_decide (entries q = ∅).
Definition pressure_len (q : PendingHashQueue) : nat :=
  size (entries q) - size (retry_expiry q) + size (ready_retry q).

Definition with_order (e : QueuedHash) (k : OKey) : QueuedHash :=
  mkHash (info_hash e) (peers e) (queued_at e) (ready_at e) (latest_at e) k (source_nodes e)
         (source e) (expires_at e) (is_retry e) (ready e).
Definition with_ready (e : QueuedHash) (b : bool) : QueuedHash :=
  mkHash (info_hash e) (peers e) (queued_at e) (ready_at e) (latest_at e) (order_key e)
         (source_nodes e) (source e) (expires_at e) (is_retry e) b.
Definition with_expiry (e : QueuedHash) (t : Instant) : QueuedHash :=
  mkHash (info_hash e) (peers e) (queued_at e) (ready_at e) (latest_at e) (order_key e)
         (source_nodes e) (source e) t (is_retry e) (ready e).

(** [insert] (the name [insert] is taken by finite maps). *)
Definition insert_entry (q : PendingHashQueue) (entry : QueuedHash) : PendingHashQueue :=
  let seq := u64_wrapping_add (sequence q) 1 in
  let entry := with_order entry (latest_at entry, seq) in
  let h := info_hash entry in
  let k_exp := (expires_at entry, seq) in
  let k_ready := (ready_at entry, seq) in
  mk (capacity q) (ttl q)
     (<[h := entry]> (entries q))
     (<[k_exp := h]> (expiry q))
     (if ready entry then waiting q else <[k_ready := h]> (waiting q))
     (if ready entry && negb (is_retry entry)
      then <[order_key entry := h]> (ready_fresh q) else ready_fresh q)
     (if ready entry && is_retry entry then <[k_ready := h]> (ready_retry q) else ready_retry q)
     (if is_retry entry then <[k_exp := h]> (retry_expiry q) else retry_expiry q)
     seq (fresh_dispatches q).

Definition remove (q : PendingHashQueue) (hash : string) : option QueuedHash * PendingHashQueue :=
  match entries q !! hash with
  | None => (None, q)
  | Some entry =>
      let seq := (order_key entry).2 in
      (Some entry,
       mk (capacity q) (ttl q) (delete hash (entries q))
          (delete (expires_at entry, seq) (expiry q))
          (delete (ready_at entry, seq) (waiting q))
          (delete (order_key entry) (ready_fresh q))
          (delete (ready_at entry, seq) (ready_retry q))
          (delete (expires_at entry, seq) (retry_expiry q))
          (sequence q) (fresh_dispatches q))
  end.

Definition push (q : PendingHashQueue) (event : HashDiscovered) (now : Instant)
  : option (QueuePushKind * PendingHashQueue) :=
  if bool_decide (ttl q < age now (hd_discovered_at event))%Z then Some (Stale, q)
  else
    match remove q (hd_info_hash event) with
    | (Some entry, q) =>
        let entry := (merge_candidate entry event).2 in
        let entry := if is_retry entry then entry
                     else with_expiry entry (latest_at entry + ttl q) in
        Some (Updated, insert_entry q entry)
    | (None, q) =>
        let! r :=
          (if bool_decide (capacity q ≤ size (entries q)) then
             match (match first_key_value (retry_expiry q) with
                    | Some kv => Some kv
                    | None => first_key_value (expiry q)
                    end) with
             | None => Some (Stale, q)
             | Some (_, oldest_hash) =>
                 let! oldest := entries q !! oldest_hash in
                 if negb (is_retry oldest)
                    && bool_decide (hd_discovered_at event ≤ latest_at oldest)%Z
                 then Some (Stale, q)
                 else Some (if is_retry oldest then EvictedRetry else EvictedOldest,
                            (remove q oldest_hash).2)
             end
           else Some (Inserted, q)) in
        let '(result, q) := r in
        match result with
        | Stale => Some (Stale, q)
        | _ =>
            let entry := mkHash (hd_info_hash event) [] now (now + PEER_COALESCE_WINDOW)
                           (hd_discovered_at event) (now, 0%Z) [] (hd_source event)
                           (hd_discovered_at event + ttl q) false false in
            Some (result, insert_entry q (merge_candidate entry event).2)
        end
    end.

Definition defer (q : PendingHashQueue) (entry : QueuedHash) (record : RetryRecord)
  : bool * PendingHashQueue :=
  let q := (remove q (info_hash entry)).2 in
  if bool_decide (capacity q ≤ size (entries q))
     || bool_decide ((capacity q / 4) `max` 1 ≤ size (retry_expiry q))
  then (false, q)
  else
    let entry := mkHash (info_hash entry) (peers entry) (queued_at entry) (rr_next_due record)
                   (latest_at entry) (order_key entry) (source_nodes entry) (source entry)
                   (rr_expires_at record) true false in
    (true, insert_entry q entry).

Fixpoint promote_loop (fuel : nat) (q : PendingHashQueue) (now : Instant) : option PendingHashQueue :=
  match fuel with
  | 0 => None
  | S fuel =>
      match first_key_value (waiting q) with
      | None => Some q
      | Some (key, hash) =>
          if bool_decide (now < key.1)%Z then Some q
          else
            let! entry := entries q !! hash in
            let entry := with_ready entry true in
            promote_loop fuel
              (mk (capacity q) (ttl q) (<[hash := entry]> (entries q)) (expiry q)
                  (delete key (waiting q))
                  (if is_retry entry then ready_fresh q else <[order_key entry := hash]> (ready_fresh q))
                  (if is_retry entry then <[key := hash]> (ready_retry q) else ready_retry q)
                  (retry_expiry q) (sequence q) (fresh_dispatches q))
              now
      end
  end.

Definition promote_ready (q : PendingHashQueue) (now : Instant) : option PendingHashQueue :=
  promote_loop (S (size (waiting q))) q now.

Fixpoint expire_loop (fuel : nat) (q : PendingHashQueue) (now : Instant) (expired : nat)
  : option (nat * PendingHashQueue) :=
  match fuel with
  | 0 => None
  | S fuel =>
      match first_key_value (expiry q) with
      | None => Some (expired, q)
      | Some (key, hash) =>
          if bool_decide (now ≤ key.1)%Z then Some (expired, q)
          else expire_loop fuel (remove q hash).2 now (expired + 1)
      end
  end.

Definition expire (q : PendingHashQueue) (now : Instant) : option (nat * PendingHashQueue) :=
  expire_loop (S (size (expiry q))) q now 0.

Definition set_dispatches (q : PendingHashQueue) (n : Z) : PendingHashQueue :=
  mk (capacity q) (ttl q) (entries q) (expiry q) (waiting q) (ready_fresh q) (ready_retry q)
     (retry_expiry q) (sequence q) n.

Definition pop_newest_ready (q : PendingHashQueue) (now : Instant)
  : option (option QueuedHash * PendingHashQueue) :=
  let! r := expire q now in
  let! q := promote_ready r.2 now in
  let use_retry := negb (bool_decide (ready_retry q = ∅))
    && (bool_decide (3 ≤ fresh_dispatches q)%Z || bool_decide (ready_fresh q = ∅)) in
  if use_retry then
    let q := set_dispatches q 0 in
    Some (match first_key_value (ready_retry q) with
          | None => (None, q)
          | Some (_, hash) => remove q hash
          end)
  else
    let q := set_dispatches q (Z.min u8_max (fresh_dispatches q + 1)) in
    Some (match last_key_value (ready_fresh q) with
          | None => (None, q)
          | Some (_, hash) => remove q hash
          end).

(** ** Invariant *)

Definition k_expiry (e : QueuedHash) : option OKey := Some (expires_at e, seq_of e).
Definition k_retry (e : QueuedHash) : option OKey :=
  if is_retry e then Some (expires_at e, seq_of e) else None.
Definition k_waiting (e : QueuedHash) : option OKey :=
  if ready e then None else Some (ready_at e, seq_of e).
Definition k_fresh (e : QueuedHash) : option OKey :=
  if ready e && negb (is_retry e) then Some (order_key e) else None.
Definition k_ready_retry (e : QueuedHash) : option OKey :=
  if ready e && is_retry e then Some (ready_at e, seq_of e) else None.

#[local] Instance k_expiry_seq : SeqKey k_expiry.
Proof. by intros e k [= <-]. Qed.
#[local] Instance k_retry_seq : SeqKey k_retry.
Proof. intros e k. unfold k_retry. destruct (is_retry e); by intros [= <-]. Qed.
#[local] Instance k_waiting_seq : SeqKey k_waiting.
Proof. intros e k. unfold k_waiting. destruct (ready e); by intros [= <-]. Qed.
#[local] Instance k_fresh_seq : SeqKey k_fresh.
Proof. intros e k. unfold k_fresh. destruct (_ && _); by intros [= <-]. Qed.
#[local] Instance k_ready_retry_seq : SeqKey k_ready_retry.
Proof. intros e k. unfold k_ready_retry. destruct (_ && _); by intros [= <-]. Qed.

(** Candidate lists are bounded, duplicate-free and newest first. *)
Definition entry_ok (e : QueuedHash) : Prop :=
  newest_first (peers e) ∧ NoDup (pc_addr <$> peers e)
  ∧ length (peers e) ≤ MAX_METADATA_CANDIDATES_PER_HASH
  ∧ NoDup (addr <$> source_nodes e) ∧ length (source_nodes e) ≤ 8.

Definition retry_limit (q : PendingHashQueue) : nat := (capacity q / 4) `max` 1.

Record wf (q : PendingHashQueue) : Prop := {
  wf_capacity : 1 ≤ capacity q;
  wf_size : size (entries q) ≤ capacity q;
  wf_retries : size (retry_expiry q) ≤ retry_limit q;
  wf_entry : ∀ h e, entries q !! h = Some e →
    info_hash e = h ∧ (order_key e).1 = latest_at e ∧ (0 < seq_of e ≤ sequence q)%Z ∧ entry_ok e;
  wf_seq : (0 ≤ sequence q ≤ u64_max)%Z;
  wf_unique : seqs_unique (entries q);
  wf_expiry : is_index (expiry q) k_expiry (entries q);
  wf_retry : is_index (retry_expiry q) k_retry (entries q);
  wf_waiting : is_index (waiting q) k_waiting (entries q);
  wf_fresh : is_index (ready_fresh q) k_fresh (entries q);
  wf_ready_retry : is_index (ready_retry q) k_ready_retry (entries q);
}.

(** Only entries whose wait is over are ready. *)
Definition timely (q : PendingHashQueue) (now : Instant) : Prop :=
  ∀ h e, entries q !! h = Some e → ready e → (ready_at e ≤ now)%Z.

Lemma queue_new_wf cap t : wf (new cap t).
Proof.
  assert (∀ key, is_index ∅ key ∅) as Hi.
  { intros key k h. rewrite lookup_empty. split; [done|]. intros (e & He & _). by rewrite lookup_empty in He. }
  split; simpl; try done; try apply Hi.
  - lia.
  - rewrite map_size_empty. lia.
  - rewrite map_size_empty. lia.
Qed.

Lemma insert_entry_wf q e :
  wf q → entries q !! info_hash e = None → size (entries q) < capacity q →
  (is_retry e → size (retry_expiry q) < retry_limit q) → (sequence q < u64_max)%Z → entry_ok e →
  wf (insert_entry q e).
Proof.
  intros [W1 W2 W3 W4 W5 W6 W7 W8 W9 W10 W11] Hn Hsz Hre Hseq Hok. unfold insert_entry.
  rewrite u64_wrapping_add_small by lia.
  set (e' := with_order e (latest_at e, (sequence q + 1)%Z)).
  assert (∀ h' e0, entries q !! h' = Some e0 → seq_of e0 ≠ seq_of e') as Hfresh.
  { intros h' e0 He0. destruct (W4 _ _ He0) as (_ & _ & Hr & _). unfold e', seq_of. simpl.
    unfold seq_of in Hr. lia. }
  split; simpl; try done.
  - rewrite map_size_insert_None by done. lia.
  - destruct (is_retry e).
    + specialize (Hre I). etrans; [|exact Hre]. rewrite map_size_insert.
      case_match; unfold Datatypes.id; lia.
    + done.
  - intros h e0. rewrite lookup_insert_Some. intros [[<- <-]|[_ He0]].
    + split_and!; try done; unfold seq_of; simpl; lia.
    + destruct (W4 _ _ He0) as (? & ? & ? & ?). split_and!; try done; lia.
  - lia.
  - intros h1 h2 e1 e2. rewrite !lookup_insert_Some.
    intros [[<- <-]|[H1 He1]] [[<- <-]|[H2 He2]] Heq; try done.
    + by destruct (Hfresh _ _ He2).
    + by destruct (Hfresh _ _ He1).
    + by eapply W6.
  - apply (is_index_insert k_expiry _ _ _ e' W7 Hn Hfresh).
  - pose proof (is_index_insert k_retry _ _ _ e' W8 Hn Hfresh) as Hi. unfold k_retry in Hi at 1. simpl in Hi.
    by destruct (is_retry e).
  - pose proof (is_index_insert k_waiting _ _ _ e' W9 Hn Hfresh) as Hi. unfold k_waiting in Hi at 1. simpl in Hi.
    by destruct (ready e).
  - pose proof (is_index_insert k_fresh _ _ _ e' W10 Hn Hfresh) as Hi. unfold k_fresh in Hi at 1. simpl in Hi.
    by destruct (ready e && negb (is_retry e)).
  - pose proof (is_index_insert k_ready_retry _ _ _ e' W11 Hn Hfresh) as Hi.
    unfold k_ready_retry in Hi at 1. simpl in Hi. by destruct (ready e && is_retry e).
Qed.

Lemma remove_None q h : entries q !! h = None → remove q h = (None, q).
Proof. unfold remove. by intros ->. Qed.

Lemma remove_wf q h : wf q → wf (remove q h).2.
Proof.
  intros Hwf. unfold remove. destruct (entries q !! h) as [e|] eqn:He; [|done]. simpl.
  destruct Hwf as [W1 W2 W3 W4 W5 W6 W7 W8 W9 W10 W11].
  split; simpl; try done.
  - rewrite map_size_delete_Some by eauto. lia.
  - etrans; [|done]. rewrite map_size_delete. case_match; unfold Datatypes.id; lia.
  - intros h' e' [_ He']%lookup_delete_Some. eauto.
  - intros h1 h2 e1 e2 [_ ?]%lookup_delete_Some [_ ?]%lookup_delete_Some. eauto.
  - apply (is_index_delete k_expiry _ _ h e); try done. by intros k' [= <-].
  - apply (is_index_delete k_retry _ _ h e); try done. intros k'. unfold k_retry.
    destruct (is_retry e); by intros [= <-].
  - apply (is_index_delete k_waiting _ _ h e); try done. intros k'. unfold k_waiting.
    destruct (ready e); by intros [= <-].
  - apply (is_index_delete k_fresh _ _ h e); try done. intros k'. unfold k_fresh.
    destruct (_ && _); by intros [= <-].
  - apply (is_index_delete k_ready_retry _ _ h e); try done. intros k'. unfold k_ready_retry.
    destruct (_ && _); by intros [= <-].
Qed.

Lemma queue_remove_spec q h :
  (remove q h).1 = entries q !! h ∧ entries (remove q h).2 = delete h (entries q)
  ∧ capacity (remove q h).2 = capacity q ∧ ttl (remove q h).2 = ttl q
  ∧ sequence (remove q h).2 = sequence q ∧ fresh_dispatches (remove q h).2 = fresh_dispatches q.
Proof.
  unfold remove. destruct (entries q !! h) as [e|] eqn:He; simpl; [done|].
  split_and!; try done. by rewrite delete_id.
Qed.

(** *** [merge_candidate] *)

Lemma newest_first_take n l : newest_first l → newest_first (take n l).
Proof.
  intros Hl i j x y Hij Hi Hj. apply lookup_take_Some in Hi as [Hi _], Hj as [Hj _]. by eapply Hl.
Qed.

Lemma NoDup_take {A} n (l : list A) : NoDup l → NoDup (take n l).
Proof. intros Hl. rewrite <-(take_drop n l) in Hl. by apply NoDup_app in Hl as (? & _). Qed.

Lemma NoDup_fmap_filter {A B} (f : A → B) (P : A → Prop) `{∀ x, Decision (P x)} l :
  NoDup (f <$> l) → NoDup (f <$> filter P l).
Proof.
  induction l as [|x l IH]; simpl; [done|]. intros [Hx Hl]%NoDup_cons.
  rewrite filter_cons. case_decide; [|by apply IH]. simpl. apply NoDup_cons. split; [|by apply IH].
  intros (y & Hy & Hin)%list_elem_of_fmap. apply Hx. rewrite Hy. apply list_elem_of_fmap_2.
  by apply list_elem_of_filter in Hin as [_ ?].
Qed.

Lemma merge_candidate_ok e ev : entry_ok e → entry_ok (merge_candidate e ev).2.
Proof.
  intros (H1 & H2 & H3 & H4 & H5). unfold merge_candidate, entry_ok.
  destruct (hd_peer_addr ev) as [a|].
  - set (d := match head _ with Some p => _ | None => _ end).
    set (l := filter (λ p, pc_addr p ≠ a) (peers e) ++ [mkPeer a d]). cbn [snd peers source_nodes]. split_and!.
    + apply newest_first_take, sort_unstable_sorted.
    + rewrite fmap_take. apply NoDup_take. rewrite (sort_unstable_perm l). subst l. rewrite fmap_app.
      apply NoDup_app. split_and!; [by apply NoDup_fmap_filter| |apply NoDup_singleton].
      intros x (p & -> & [Hp _]%list_elem_of_filter)%list_elem_of_fmap. simpl.
      by intros ?%list_elem_of_singleton.
    + rewrite length_take. lia.
    + destruct (hd_source_node ev) as [n|]; [|done]. rewrite fmap_take. apply NoDup_take. rewrite fmap_cons.
      apply NoDup_cons. split; [|by apply NoDup_fmap_filter].
      intros (p & Hp & [Hne _]%list_elem_of_filter)%list_elem_of_fmap. congruence.
    + destruct (hd_source_node ev) as [n|]; [|done]. rewrite length_take. lia.
  - cbn [snd peers source_nodes]. split_and!; try done; (destruct (hd_source_node ev) as [n|]; [|done]).
    + rewrite fmap_take. apply NoDup_take. rewrite fmap_cons. apply NoDup_cons. split; [|by apply NoDup_fmap_filter].
      intros (p & Hp & [Hne _]%list_elem_of_filter)%list_elem_of_fmap. congruence.
    + rewrite length_take. lia.
Qed.

Lemma merge_candidate_fields e ev :
  let e' := (merge_candidate e ev).2 in
  info_hash e' = info_hash e ∧ ready_at e' = ready_at e ∧ expires_at e' = expires_at e
  ∧ is_retry e' = is_retry e ∧ ready e' = ready e
  ∧ latest_at e' = Z.max (latest_at e) (hd_discovered_at ev) ∧ queued_at e' = queued_at e.
Proof. unfold merge_candidate. destruct (hd_peer_addr ev); done. Qed.

(** *** [push] *)

(** [size (retry_expiry q)] counts the retries. *)
Lemma retry_mem q h e :
  wf q → entries q !! h = Some e → is_retry e → size (retry_expiry (remove q h).2) < size (retry_expiry q).
Proof.
  intros Hwf He Hr. unfold remove. rewrite He. simpl.
  assert (retry_expiry q !! (expires_at e, seq_of e) = Some h) as Hk.
  { apply (wf_retry q Hwf). exists e. split; [done|]. unfold k_retry. by destruct (is_retry e). }
  unfold seq_of in Hk. rewrite map_size_delete_Some by eauto.
  assert (size (retry_expiry q) ≠ 0); [|lia]. intros Hz%map_size_empty_inv. rewrite Hz in Hk. done.
Qed.

Lemma expiry_nonempty q : wf q → entries q ≠ ∅ → is_Some (first_key_value (expiry q)).
Proof.
  intros Hwf Hne. destruct (first_key_value (expiry q)) eqn:Hf; [by eexists|].
  apply first_key_value_None in Hf. destruct (map_choose _ Hne) as (h & e & He).
  by pose proof (is_index_empty k_expiry _ _ (wf_expiry q Hwf) Hf h e He).
Qed.

Definition stored (q : PendingHashQueue) (ev : HashDiscovered) (now : Instant) : QueuedHash :=
  (merge_candidate (mkHash (hd_info_hash ev) [] now (now + PEER_COALESCE_WINDOW)
     (hd_discovered_at ev) (now, 0%Z) [] (hd_source ev) (hd_discovered_at ev + ttl q) false false) ev).2.

(** What each outcome of [push] means. *)
Definition pushed_as (q : PendingHashQueue) (ev : HashDiscovered) (now : Instant)
    (kind : QueuePushKind) (q' : PendingHashQueue) : Prop :=
  let h := hd_info_hash ev in
  let too_old := (ttl q < age now (hd_discovered_at ev))%Z in
  let full := size (entries q) = capacity q in
  let no_retry := ∀ h' e, entries q !! h' = Some e → is_retry e = false in
  match kind with
  | Stale => q' = q ∧ (too_old ∨ entries q !! h = None ∧ full ∧ no_retry ∧
      ∃ v e, entries q !! v = Some e ∧ (hd_discovered_at ev ≤ latest_at e)%Z
        ∧ ∀ h' e', entries q !! h' = Some e' → (expires_at e ≤ expires_at e')%Z)
  | Updated => ¬ too_old ∧ ∃ e e', entries q !! h = Some e ∧ entries q' !! h = Some e'
      ∧ peers e' = peers (merge_candidate e ev).2 ∧ is_retry e' = is_retry e ∧ ready e' = ready e
      ∧ ready_at e' = ready_at e ∧ (is_retry e → expires_at e' = expires_at e)
      ∧ delete h (entries q') = delete h (entries q)
  | Inserted => ¬ too_old ∧ entries q !! h = None ∧ size (entries q) < capacity q
      ∧ delete h (entries q') = entries q
      ∧ ∃ e', entries q' !! h = Some e' ∧ with_order e' (now, 0%Z) = with_order (stored q ev now) (now, 0%Z)
  | EvictedRetry => ¬ too_old ∧ entries q !! h = None ∧ full ∧ ∃ v e, entries q !! v = Some e
      ∧ is_retry e ∧ delete h (entries q') = delete v (entries q) ∧ is_Some (entries q' !! h)
      ∧ ∀ h' e', entries q !! h' = Some e' → is_retry e' → (expires_at e ≤ expires_at e')%Z
  | EvictedOldest => ¬ too_old ∧ entries q !! h = None ∧ full ∧ no_retry ∧ ∃ v e, entries q !! v = Some e
      ∧ (latest_at e < hd_discovered_at ev)%Z ∧ delete h (entries q') = delete v (entries q)
      ∧ is_Some (entries q' !! h)
      ∧ ∀ h' e', entries q !! h' = Some e' → (expires_at e ≤ expires_at e')%Z
  end.

Lemma kleb_fst (a b : OKey) : kleb a b → (a.1 ≤ b.1)%Z.
Proof.
  destruct a as [a1 a2], b as [b1 b2]. unfold kleb, lex_leb. simpl.
  destruct (Z.compare_spec a1 b1); simpl; (done || lia).
Qed.

Lemma insert_entry_entries q e :
  entries (insert_entry q e) = <[info_hash e := with_order e (latest_at e, u64_wrapping_add (sequence q) 1)]> (entries q).
Proof. done. Qed.

Lemma insert_timely q e now :
  timely q now → (ready e → (ready_at e ≤ now)%Z) → timely (insert_entry q e) now.
Proof.
  intros Ht He h e0. rewrite insert_entry_entries, lookup_insert_Some. intros [[<- <-]|[_ ?]]; [done|].
  by eapply Ht.
Qed.

Lemma remove_timely q h now : timely q now → timely (remove q h).2 now.
Proof.
  intros Ht h' e. destruct (queue_remove_spec q h) as (_ & -> & _). intros [_ ?]%lookup_delete_Some. by eapply Ht.
Qed.

Lemma new_entry_ok q ev now : entry_ok (stored q ev now).
Proof.
  apply merge_candidate_ok. split_and!; simpl; try apply NoDup_nil_2; try lia.
  intros i j x y _ Hi. by rewrite lookup_nil in Hi.
Qed.

(** Storing a new hash once there is room. *)
Lemma store_new_wf q ev now :
  wf q → timely q now → entries q !! hd_info_hash ev = None → size (entries q) < capacity q →
  (sequence q < u64_max)%Z →
  let q' := insert_entry q (stored q ev now) in
  wf q' ∧ timely q' now ∧ is_Some (entries q' !! hd_info_hash ev)
  ∧ delete (hd_info_hash ev) (entries q') = entries q.
Proof.
  intros Hwf Ht Hn Hsz Hseq.
  destruct (merge_candidate_fields (mkHash (hd_info_hash ev) [] now (now + PEER_COALESCE_WINDOW)
     (hd_discovered_at ev) (now, 0%Z) [] (hd_source ev) (hd_discovered_at ev + ttl q) false false) ev)
    as (F1 & F2 & F3 & F4 & F5 & F6 & _). fold (stored q ev now) in *.
  cbn [info_hash ready_at expires_at is_retry ready latest_at] in F1, F2, F3, F4, F5, F6. cbv zeta. split_and!.
  - apply insert_entry_wf; try done.
    + by rewrite F1.
    + rewrite F4. done.
    + apply new_entry_ok.
  - apply insert_timely; [done|]. by rewrite F5.
  - rewrite insert_entry_entries, F1, lookup_insert_eq. eauto.
  - rewrite insert_entry_entries, F1. by rewrite delete_insert_id.
Qed.

Lemma victim_cases q :
  wf q → entries q ≠ ∅ →
  ∃ k v e, match first_key_value (retry_expiry q) with
           | Some kv => Some kv | None => first_key_value (expiry q) end = Some (k, v)
    ∧ entries q !! v = Some e
    ∧ (is_retry e = true
       ∧ (∀ h' e', entries q !! h' = Some e' → is_retry e' → (expires_at e ≤ expires_at e')%Z)
       ∨ is_retry e = false ∧ (∀ h' e', entries q !! h' = Some e' → is_retry e' = false)
         ∧ (∀ h' e', entries q !! h' = Some e' → (expires_at e ≤ expires_at e')%Z)).
Proof.
  intros Hwf Hne. destruct (first_key_value (retry_expiry q)) as [[k v]|] eqn:Hf.
  - apply first_key_value_Some in Hf as [Hkv Hmin].
    pose proof (proj1 (wf_retry q Hwf k v) Hkv) as (e & He & Hk). exists k, v, e. split_and!; try done.
    unfold k_retry in Hk. destruct (is_retry e) eqn:Hr; simplify_eq. left. split; [done|].
    intros h' e' He' Hr'. apply (kleb_fst (expires_at e, seq_of e) (expires_at e', seq_of e')), Hmin.
    exists h'. apply (wf_retry q Hwf). exists e'. split; [done|]. unfold k_retry. by destruct (is_retry e').
  - apply first_key_value_None in Hf. destruct (expiry_nonempty q Hwf Hne) as [[k v] Hf'].
    rewrite Hf'. apply first_key_value_Some in Hf' as [Hkv Hmin].
    pose proof (proj1 (wf_expiry q Hwf k v) Hkv) as (e & He & Hk). exists k, v, e. split_and!; try done.
    assert (∀ h' e', entries q !! h' = Some e' → is_retry e' = false) as Hnr.
    { intros h' e' He'. pose proof (is_index_empty k_retry _ _ (wf_retry q Hwf) Hf h' e' He') as Hk'.
      unfold k_retry in Hk'. by destruct (is_retry e'). }
    right. split_and!; [eauto..|]. unfold k_expiry in Hk. simplify_eq.
    intros h' e' He'. apply (kleb_fst (expires_at e, seq_of e) (expires_at e', seq_of e')), Hmin.
    exists h'. apply (wf_expiry q Hwf). by exists e'.
Qed.

Lemma delete_remove_insert (m : gmap string QueuedHash) h v :
  m !! h = None → delete v m !! h = None.
Proof. intros Hn. destruct (decide (v = h)) as [->|]; [apply lookup_delete_eq|by rewrite lookup_delete_ne]. Qed.

Lemma push_cases q ev now :
  wf q → timely q now → (sequence q < u64_max)%Z →
  ∃ kind q', push q ev now = Some (kind, q') ∧ wf q' ∧ timely q' now
    ∧ capacity q' = capacity q ∧ ttl q' = ttl q ∧ fresh_dispatches q' = fresh_dispatches q
    ∧ (sequence q' ≤ sequence q + 1)%Z ∧ pushed_as q ev now kind q'.
Proof.
  intros Hwf Ht Hseq. pose proof (wf_seq q Hwf) as Hs0. unfold push.
  assert (∀ x, sequence (insert_entry x (stored x ev now)) = u64_wrapping_add (sequence x) 1) as Hsq by done.
  case_bool_decide as Hold.
  { exists Stale, q. split_and!; try done; [lia|]. split; [done|]. by left. }
  set (h := hd_info_hash ev). destruct (queue_remove_spec q h) as (R1 & R2 & R3 & R4 & R5 & R6).
  pose proof (remove_wf q h Hwf) as Hwf1. pose proof (remove_timely q h now Ht) as Ht1.
  destruct (entries q !! h) as [e|] eqn:He.
  - destruct (remove q h) as [o q1] eqn:Hrm. simpl in R1, R2, R3, R4, R5, R6, Hwf1, Ht1. subst o.
    destruct (merge_candidate_fields e ev) as (F1 & F2 & F3 & F4 & F5 & F6 & F7).
    set (e1 := (merge_candidate e ev).2) in *.
    set (e2 := if is_retry e1 then e1 else with_expiry e1 (latest_at e1 + ttl q1)).
    destruct (wf_entry q Hwf h e He) as (Hh & _ & _ & Heok).
    assert (info_hash e2 = h ∧ is_retry e2 = is_retry e ∧ ready e2 = ready e ∧ ready_at e2 = ready_at e
      ∧ peers e2 = peers e1 ∧ (is_retry e → expires_at e2 = expires_at e) ∧ entry_ok e2)
      as (E1 & E2 & E3 & E4 & E5 & E6 & E7).
    { pose proof (merge_candidate_ok e ev Heok) as Hok1. fold e1 in Hok1. subst e2. rewrite F4.
      destruct (is_retry e) eqn:Hr; simpl; split_and!; try congruence; try done. }
    exists Updated, (insert_entry q1 e2). split_and!; try done.
    + apply insert_entry_wf; try done.
      * rewrite E1, R2. apply lookup_delete_eq.
      * rewrite R2, R3. rewrite map_size_delete_Some by eauto.
        pose proof (wf_size q Hwf). assert (size (entries q) ≠ 0); [|lia].
        intros Hz%map_size_empty_inv. rewrite Hz in He. done.
      * rewrite E2. intros Hr. pose proof (retry_mem q h e Hwf He Hr) as Hlt. rewrite Hrm in Hlt. simpl in Hlt.
        pose proof (wf_retries q Hwf). unfold retry_limit in *. rewrite R3. lia.
      * lia.
    + apply insert_timely; [done|]. rewrite E3, E4. by eapply Ht.
    + simpl. rewrite R5, u64_wrapping_add_small by lia. lia.
    + split; [done|]. fold h. exists e. eexists. rewrite insert_entry_entries, E1, lookup_insert_eq.
      split_and!; try done. rewrite R2. by rewrite delete_insert_eq, delete_delete_eq.
  - rewrite (remove_None q h He). case_bool_decide as Hfull.
    + assert (size (entries q) = capacity q) as Hsz by (pose proof (wf_size q Hwf); lia).
      assert (entries q ≠ ∅) as Hne.
      { intros Hz. rewrite Hz, map_size_empty in Hsz. pose proof (wf_capacity q Hwf). lia. }
      destruct (victim_cases q Hwf Hne) as (k & v & e & -> & Hv & Hcase). rewrite Hv.
      destruct (queue_remove_spec q v) as (_ & V2 & V3 & V4 & V5 & V6).
      assert (entries (remove q v).2 !! h = None) as Hn' by (rewrite V2; by apply delete_remove_insert).
      assert (size (entries (remove q v).2) < capacity (remove q v).2) as Hroom.
      { rewrite V2, V3, map_size_delete_Some by eauto. pose proof (wf_capacity q Hwf). lia. }
      destruct (store_new_wf (remove q v).2 ev now (remove_wf q v Hwf) (remove_timely q v now Ht)
        Hn' Hroom ltac:(lia)) as (S1 & S2 & S3 & S4).
      destruct Hcase as [[Hr Hmin]|(Hr & Hnr & Hmin)]; rewrite Hr; simpl.
      * exists EvictedRetry. eexists. split; [done|]. split_and!; try done; simpl.
        -- rewrite V5, u64_wrapping_add_small by lia. lia.
        -- split_and!; try done. exists v, e. split_and!; try done; [by rewrite Hr|].
           etrans; [exact S4|done].
      * case_bool_decide as Hlate.
        -- exists Stale, q. split_and!; try done; [lia|]. split; [done|]. right. split_and!; try done.
           exists v, e. done.
        -- exists EvictedOldest. eexists. split; [done|]. split_and!; try done; simpl.
           ++ rewrite V5, u64_wrapping_add_small by lia. lia.
           ++ split_and!; try done. exists v, e. split_and!; try done; [lia|]. etrans; [exact S4|done].
    + assert (size (entries q) < capacity q) as Hroom by lia.
      destruct (store_new_wf q ev now Hwf Ht He Hroom Hseq) as (S1 & S2 & S3 & S4).
      assert (info_hash (stored q ev now) = h) as Hih by (unfold stored; apply merge_candidate_fields).
      exists Inserted, (insert_entry q (stored q ev now)). split; [done|]. split_and!; try done.
      * rewrite Hsq, u64_wrapping_add_small by lia. lia.
      * split_and!; try done. eexists. rewrite insert_entry_entries, Hih, lookup_insert_eq.
        split; [reflexivity|]. done.
Qed.

(** *** [defer] *)

Lemma defer_cases q e rec now :
  wf q → timely q now → entry_ok e → (sequence q < u64_max)%Z →
  wf (defer q e rec).2 ∧ timely (defer q e rec).2 now
  ∧ capacity (defer q e rec).2 = capacity q ∧ ttl (defer q e rec).2 = ttl q
  ∧ fresh_dispatches (defer q e rec).2 = fresh_dispatches q
  ∧ (sequence (defer q e rec).2 ≤ sequence q + 1)%Z
  ∧ delete (info_hash e) (entries (defer q e rec).2) = delete (info_hash e) (entries q)
  ∧ (if (defer q e rec).1
     then ∃ e', entries (defer q e rec).2 !! info_hash e = Some e' ∧ is_retry e' = true ∧ ready e' = false
            ∧ ready_at e' = rr_next_due rec ∧ expires_at e' = rr_expires_at rec ∧ peers e' = peers e
            ∧ source_nodes e' = source_nodes e ∧ source e' = source e
     else entries (defer q e rec).2 !! info_hash e = None).
Proof.
  intros Hwf Ht Hok Hseq. pose proof (wf_seq q Hwf). unfold defer. cbv zeta.
  destruct (queue_remove_spec q (info_hash e)) as (_ & R2 & R3 & R4 & R5 & R6).
  pose proof (remove_wf q (info_hash e) Hwf) as Hwf1.
  pose proof (remove_timely q (info_hash e) now Ht) as Ht1.
  set (q1 := (remove q (info_hash e)).2) in *.
  destruct (_ || _) eqn:Hb; cbn [fst snd].
  { rewrite R2. split_and!; try done; [lia|apply delete_delete_eq|apply lookup_delete_eq]. }
  apply orb_false_iff in Hb as [Hb1%bool_decide_eq_false Hb2%bool_decide_eq_false].
  split_and!; try done.
  - apply insert_entry_wf; cbn [info_hash is_retry]; try done; [|lia| |lia].
    + rewrite R2. apply lookup_delete_eq.
    + intros _. unfold retry_limit. lia.
  - by apply insert_timely.
  - cbn [sequence insert_entry]. rewrite R5, u64_wrapping_add_small by lia. lia.
  - rewrite insert_entry_entries, R2. cbn [info_hash]. by rewrite delete_insert_eq, delete_delete_eq.
  - eexists. rewrite insert_entry_entries. cbn [info_hash]. split; [by rewrite lookup_insert_eq|]. done.
Qed.

(** An index has one key per entry it covers. *)
Lemma index_size (m : gmap OKey string) key es :
  is_index m key es → size m = size (filter (λ p : string * QueuedHash, is_Some (key p.2)) es).
Proof.
  intros Hi. assert (NoDup (map_to_list m).*2) as Hnd.
  { apply NoDup_fmap_2_strong; [|apply NoDup_map_to_list]. intros [k1 h1] [k2 h2] H1 H2 Heq. simpl in Heq. subst h2.
    apply elem_of_map_to_list in H1, H2. apply Hi in H1 as (e1 & He1 & Hk1), H2 as (e2 & He2 & Hk2). congruence. }
  set (f := filter (λ p : string * QueuedHash, is_Some (key p.2)) es). rewrite <-(size_dom f).
  assert (dom f = list_to_set (map_to_list m).*2) as ->.
  - apply set_eq. intros h. rewrite elem_of_dom, elem_of_list_to_set, list_elem_of_fmap. split.
    + intros [e [He [k Hk]]%map_lookup_filter_Some]. exists (k, h). split; [done|]. apply elem_of_map_to_list, Hi. eauto.
    + intros ([k h'] & -> & Hm%elem_of_map_to_list). apply Hi in Hm as (e & He & Hk). exists e. apply map_lookup_filter_Some. by eauto.
  - rewrite size_list_to_set by done. by rewrite length_fmap, length_map_to_list.
Qed.

(** The retries among the entries. *)
Definition retries (q : PendingHashQueue) : nat :=
  size (filter (λ p : string * QueuedHash, is_retry p.2 = true) (entries q)).

Lemma retries_index q : wf q → size (retry_expiry q) = retries q.
Proof.
  intros Hwf. rewrite (index_size _ _ _ (wf_retry _ Hwf)). unfold retries. f_equal. apply map_filter_ext.
  intros h e _. unfold k_retry. simpl. destruct (is_retry e); [by split; [|eexists]|split; [by intros [? ?]|done]].
Qed.

(** A hash that is not queued is deferred exactly when neither the queue nor
    the share of retries is full. *)
Lemma defer_accepts q e rec :
  wf q → entries q !! info_hash e = None →
  (defer q e rec).1 = bool_decide (size (entries q) < capacity q ∧ retries q < retry_limit q).
Proof.
  intros Hwf Hn. unfold defer, remove. rewrite Hn. cbn [snd]. fold (retry_limit q). rewrite (retries_index q Hwf).
  destruct (_ || _) eqn:Hb; symmetry; cbn [fst].
  - apply bool_decide_eq_false. apply orb_true_iff in Hb as [Hb%bool_decide_eq_true|Hb%bool_decide_eq_true]; lia.
  - apply orb_false_iff in Hb as [Hb1%bool_decide_eq_false Hb2%bool_decide_eq_false]. apply bool_decide_eq_true. lia.
Qed.

(** *** [promote_ready] *)

Definition promoted (now : Instant) (e : QueuedHash) : QueuedHash :=
  with_ready e (ready e || bool_decide (ready_at e ≤ now)%Z).

Lemma with_ready_id e : with_ready e (ready e) = e.
Proof. by destruct e. Qed.

(** Fields no loop of the queue touches. *)
Definition fixed (q q' : PendingHashQueue) : Prop :=
  capacity q' = capacity q ∧ ttl q' = ttl q ∧ sequence q' = sequence q
  ∧ fresh_dispatches q' = fresh_dispatches q.

Lemma promote_loop_spec fuel q now :
  wf q → size (waiting q) < fuel →
  ∃ q', promote_loop fuel q now = Some q' ∧ wf q' ∧ entries q' = promoted now <$> entries q ∧ fixed q q'.
Proof.
  revert q. induction fuel as [|fuel IH]; intros q Hwf Hf; [lia|]. cbn [promote_loop].
  assert ((∀ h e, entries q !! h = Some e → ready e = false → (now < ready_at e)%Z) →
    ∃ q', Some q = Some q' ∧ wf q' ∧ entries q' = promoted now <$> entries q ∧ fixed q q') as Hstop.
  { intros Hall. exists q. split_and!; try done. apply map_eq. intros h. rewrite lookup_fmap.
    destruct (entries q !! h) as [e|] eqn:He; [|done]. simpl. f_equal. unfold promoted.
    destruct (ready e) eqn:Hr; simpl; [by rewrite <-Hr, with_ready_id|].
    rewrite bool_decide_eq_false_2; [by rewrite <-Hr, with_ready_id|]. specialize (Hall _ _ He Hr). lia. }
  destruct (first_key_value (waiting q)) as [[k h]|] eqn:Hfst.
  2:{ apply first_key_value_None in Hfst. apply Hstop. intros h e He Hr.
      pose proof (is_index_empty k_waiting _ _ (wf_waiting q Hwf) Hfst h e He) as Hk.
      unfold k_waiting in Hk. by rewrite Hr in Hk. }
  apply first_key_value_Some in Hfst as [Hkh Hmin].
  case_bool_decide as Hnow.
  { apply Hstop. intros h' e He Hr.
    assert (kleb k (ready_at e, seq_of e)) as Hle%kleb_fst; [|simpl in Hle; lia].
    apply Hmin. exists h'. apply (wf_waiting q Hwf). exists e. unfold k_waiting. by rewrite Hr. }
  pose proof (proj1 (wf_waiting q Hwf k h) Hkh) as (e & He & Hk). rewrite He.
  unfold k_waiting in Hk. destruct (ready e) eqn:Hr; [done|]. injection Hk as <-.
  destruct Hwf as [W1 W2 W3 W4 W5 W6 W7 W8 W9 W10 W11].
  assert (seq_of (with_ready e true) = seq_of e) as Hs by done.
  set (q1 := mk _ _ _ _ _ _ _ _ _ _).
  assert (wf q1) as Hwf1.
  { split; simpl; try done.
    - rewrite map_size_insert_Some by eauto. done.
    - intros h' e'. rewrite lookup_insert_Some. intros [[<- <-]|[_ ?]]; [|eauto].
      destruct (W4 _ _ He) as (? & ? & ? & ?). done.
    - intros h1 h2 e1 e2. rewrite !lookup_insert_Some.
      intros [[<- <-]|[H1 He1]] [[<- <-]|[H2 He2]] Heq;
        [done|exact (W6 _ _ _ _ He He2 Heq)|exact (W6 _ _ _ _ He1 He Heq)|exact (W6 _ _ _ _ He1 He2 Heq)].
    - exact (is_index_update k_expiry _ _ _ _ (with_ready e true) W7 He W6 Hs eq_refl).
    - pose proof (is_index_update k_retry _ _ _ _ (with_ready e true) W8 He W6 Hs) as Hi.
      change (k_retry (with_ready e true)) with (k_retry e) in Hi. destruct (k_retry e); auto.
    - pose proof (is_index_update k_waiting _ _ _ _ (with_ready e true) W9 He W6 Hs) as Hi.
      change (k_waiting (with_ready e true)) with (@None OKey) in Hi.
      assert (k_waiting e = Some (ready_at e, seq_of e)) as E1 by (unfold k_waiting; by rewrite Hr).
      by rewrite E1 in Hi.
    - pose proof (is_index_update k_fresh _ _ _ _ (with_ready e true) W10 He W6 Hs) as Hi.
      assert (k_fresh e = None) as E1 by (unfold k_fresh; by rewrite Hr). rewrite E1 in Hi.
      assert (k_fresh (with_ready e true) = if is_retry e then None else Some (order_key e)) as E2
        by (unfold k_fresh; simpl; by destruct (is_retry e)).
      rewrite E2 in Hi. by destruct (is_retry e).
    - pose proof (is_index_update k_ready_retry _ _ _ _ (with_ready e true) W11 He W6 Hs) as Hi.
      assert (k_ready_retry e = None) as E1 by (unfold k_ready_retry; by rewrite Hr). rewrite E1 in Hi.
      assert (k_ready_retry (with_ready e true) = if is_retry e then Some (ready_at e, seq_of e) else None) as E2
        by done.
      rewrite E2 in Hi. by destruct (is_retry e). }
  destruct (IH q1 Hwf1) as (q' & -> & Hwf' & He' & Hfix).
  { simpl. rewrite map_size_delete_Some by eauto. assert (size (waiting q) ≠ 0); [|lia].
    intros Hz%map_size_empty_inv. by rewrite Hz in Hkh. }
  exists q'. split_and!; try done. rewrite He'. simpl. apply map_eq. intros h'. rewrite !lookup_fmap.
  destruct (decide (h' = h)) as [->|Hne].
  - rewrite lookup_insert_eq, He. simpl. f_equal. unfold promoted. simpl. rewrite Hr. simpl in Hnow.
    rewrite bool_decide_eq_true_2 by lia. done.
  - by rewrite lookup_insert_ne.
Qed.

Lemma promote_ready_spec q now :
  wf q → ∃ q', promote_ready q now = Some q' ∧ wf q' ∧ entries q' = promoted now <$> entries q ∧ fixed q q'.
Proof. intros Hwf. apply promote_loop_spec; [done|lia]. Qed.

(** *** [expire] *)

Definition live (now : Instant) (es : gmap string QueuedHash) : gmap string QueuedHash :=
  filter (λ p, (now ≤ expires_at p.2)%Z) es.

Lemma queue_expire_loop fuel q now n :
  wf q → size (expiry q) < fuel →
  ∃ r q', expire_loop fuel q now n = Some (n + r, q') ∧ wf q' ∧ entries q' = live now (entries q)
    ∧ size (entries q) = r + size (entries q') ∧ fixed q q'.
Proof.
  revert q n. induction fuel as [|fuel IH]; intros q n Hwf Hf; [lia|]. cbn [expire_loop].
  assert ((∀ h e, entries q !! h = Some e → (now ≤ expires_at e)%Z) →
    ∃ r q', Some (n, q) = Some (n + r, q') ∧ wf q' ∧ entries q' = live now (entries q)
      ∧ size (entries q) = r + size (entries q') ∧ fixed q q') as Hstop.
  { intros Hall. exists 0, q. rewrite Nat.add_0_r. split_and!; try done. symmetry. apply map_filter_id.
    intros h e. apply Hall. }
  destruct (first_key_value (expiry q)) as [[k h]|] eqn:Hfst.
  2:{ apply first_key_value_None in Hfst. apply Hstop. intros h e He.
      by pose proof (is_index_empty k_expiry _ _ (wf_expiry q Hwf) Hfst h e He). }
  apply first_key_value_Some in Hfst as [Hkh Hmin].
  case_bool_decide as Hnow.
  { apply Hstop. intros h' e He.
    assert (kleb k (expires_at e, seq_of e)) as Hle%kleb_fst; [|simpl in Hle; lia].
    apply Hmin. exists h'. apply (wf_expiry q Hwf). by exists e. }
  pose proof (proj1 (wf_expiry q Hwf k h) Hkh) as (e & He & Hk). injection Hk as <-.
  destruct (queue_remove_spec q h) as (_ & R2 & R3 & R4 & R5 & R6).
  destruct (IH (remove q h).2 (n + 1) (remove_wf q h Hwf)) as (r & q' & -> & Hwf' & He' & Hsz & Hfix).
  { unfold remove. rewrite He. simpl. unfold seq_of in Hkh. rewrite map_size_delete_Some by eauto.
    assert (size (expiry q) ≠ 0); [|lia]. intros Hz%map_size_empty_inv. by rewrite Hz in Hkh. }
  exists (S r), q'. split_and!; try done.
  - do 2 f_equal. lia.
  - rewrite He', R2. unfold live. apply map_filter_delete_not. intros e' He0. simpl in *.
    rewrite He in He0. injection He0 as <-. lia.
  - rewrite R2, map_size_delete_Some in Hsz by eauto.
    assert (size (entries q) ≠ 0); [|lia]. intros Hz%map_size_empty_inv. by rewrite Hz in He.
  - unfold fixed in *. destruct Hfix as (? & ? & ? & ?). split_and!; congruence.
Qed.

Lemma queue_expire_spec q now :
  wf q → ∃ r q', expire q now = Some (r, q') ∧ wf q' ∧ entries q' = live now (entries q)
    ∧ size (entries q) = r + size (entries q') ∧ fixed q q'.
Proof. intros Hwf. apply (queue_expire_loop _ q now 0); [done|lia]. Qed.

(** *** [pop_newest_ready] *)

(** The table a pop at [now] selects from. *)
Definition selectable (now : Instant) (q : PendingHashQueue) : gmap string QueuedHash :=
  promoted now <$> live now (entries q).

Definition popped_as (q : PendingHashQueue) (now : Instant) (o : option QueuedHash)
    (q' : PendingHashQueue) : Prop :=
  let es := selectable now q in
  match o with
  | None => entries q' = es ∧ ∀ h e, es !! h = Some e → ready e = false
  | Some e =>
      es !! info_hash e = Some e ∧ ready e = true ∧ entries q' = delete (info_hash e) es
      ∧ if is_retry e
        then fresh_dispatches q' = 0%Z
             ∧ ∀ h e', es !! h = Some e' → ready e' → is_retry e' → (ready_at e ≤ ready_at e')%Z
        else fresh_dispatches q' = Z.min u8_max (fresh_dispatches q + 1)
             ∧ (∀ h e', es !! h = Some e' → ready e' → is_retry e' = false → (latest_at e' ≤ latest_at e)%Z)
             ∧ ((fresh_dispatches q < 3)%Z ∨ ∀ h e', es !! h = Some e' → ready e' → is_retry e' = false)
  end.

Lemma set_dispatches_wf q n : wf q → wf (set_dispatches q n).
Proof. intros []. by split. Qed.

Lemma pop_cases q now :
  wf q → (0 ≤ fresh_dispatches q)%Z →
  ∃ o q', pop_newest_ready q now = Some (o, q') ∧ wf q' ∧ capacity q' = capacity q ∧ ttl q' = ttl q
    ∧ sequence q' = sequence q ∧ (0 ≤ fresh_dispatches q')%Z ∧ popped_as q now o q'.
Proof.
  intros Hwf Hfd. unfold pop_newest_ready.
  destruct (queue_expire_spec q now Hwf) as (r & q1 & -> & Hwf1 & He1 & _ & Hfix1). simpl.
  destruct (promote_ready_spec q1 now Hwf1) as (q2 & -> & Hwf2 & He2 & Hfix2).
  rewrite He1 in He2. fold (selectable now q) in He2.
  destruct Hfix1 as (A1 & A2 & A3 & A4), Hfix2 as (B1 & B2 & B3 & B4).
  assert (fresh_dispatches q2 = fresh_dispatches q) as Hfd2 by congruence.
  assert (∀ h e, entries q2 !! h = Some e → ready e → is_retry e → ready_retry q2 ≠ ∅) as Hrr.
  { intros h e He Hr Hre Hz. pose proof (is_index_empty k_ready_retry _ _ (wf_ready_retry _ Hwf2) Hz h e He) as Hk.
    unfold k_ready_retry in Hk. destruct (ready e), (is_retry e); done. }
  assert (∀ h e, entries q2 !! h = Some e → ready e → is_retry e = false → ready_fresh q2 ≠ ∅) as Hrf.
  { intros h e He Hr Hre Hz. pose proof (is_index_empty k_fresh _ _ (wf_fresh _ Hwf2) Hz h e He) as Hk.
    unfold k_fresh in Hk. destruct (ready e), (is_retry e); done. }
  assert (∀ n h, let q3 := set_dispatches q2 n in
    wf (remove q3 h).2 ∧ capacity (remove q3 h).2 = capacity q ∧ ttl (remove q3 h).2 = ttl q
    ∧ sequence (remove q3 h).2 = sequence q ∧ fresh_dispatches (remove q3 h).2 = n
    ∧ (remove q3 h).1 = selectable now q !! h
    ∧ entries (remove q3 h).2 = delete h (selectable now q)) as Hrem.
  { intros n h q3. destruct (queue_remove_spec q3 h) as (R1 & R2 & R3 & R4 & R5 & R6).
    split_and!; [by apply remove_wf, set_dispatches_wf|simpl in *; congruence..]. }
  destruct (negb (bool_decide (ready_retry q2 = ∅)) && _) eqn:Huse.
  - apply andb_true_iff in Huse as [Hne Hor]. apply negb_true_iff, bool_decide_eq_false in Hne.
    change (ready_retry (set_dispatches q2 0)) with (ready_retry q2).
    destruct (first_key_value (ready_retry q2)) as [[k h]|] eqn:Hfst.
    2:{ apply first_key_value_None in Hfst. done. }
    apply first_key_value_Some in Hfst as [Hkh Hmin].
    pose proof (proj1 (wf_ready_retry _ Hwf2 k h) Hkh) as (e & He & Hk).
    unfold k_ready_retry in Hk. destruct (ready e) eqn:Hre, (is_retry e) eqn:Hrt; simplify_eq/=.
    destruct (Hrem 0%Z h) as (X1 & X2 & X3 & X4 & X5 & X6 & X7).
    destruct (remove (set_dispatches q2 0) h) as [o q'] eqn:Hr. simpl in *.
    rewrite <-He2, He in X6. subst o.
    eexists _, _. split; [done|]. split_and!; try done; [lia|].
    destruct (wf_entry _ Hwf2 h e He) as (Hih & _). unfold popped_as. rewrite <-He2, Hih. split_and!; try done.
    { by rewrite X7, He2. }
    rewrite Hrt. split; [done|]. intros h' e' He' Hr' Hrt'.
    assert (kleb (ready_at e, seq_of e) (ready_at e', seq_of e')) as Hle%kleb_fst; [|done].
    apply Hmin. exists h'. apply (wf_ready_retry _ Hwf2). exists e'. split; [done|].
    unfold k_ready_retry. by destruct (ready e'), (is_retry e').
  - set (n := Z.min u8_max (fresh_dispatches q2 + 1)).
    change (ready_fresh (set_dispatches q2 n)) with (ready_fresh q2).
    assert ((fresh_dispatches q < 3)%Z ∧ ready_fresh q2 ≠ ∅ ∨ ready_retry q2 = ∅) as Hno.
    { destruct (decide (ready_retry q2 = ∅)) as [->|Hne]; [by right|]. left.
      rewrite bool_decide_eq_false_2 in Huse by done. simpl in Huse.
      apply orb_false_iff in Huse as [H1%bool_decide_eq_false H2%bool_decide_eq_false].
      split; [lia|done]. }
    assert (0 ≤ n)%Z as Hn by (unfold n, u8_max; lia).
    destruct (last_key_value (ready_fresh q2)) as [[k h]|] eqn:Hlast.
    + apply last_key_value_Some in Hlast as [Hkh Hmax].
      pose proof (proj1 (wf_fresh _ Hwf2 k h) Hkh) as (e & He & Hk).
      unfold k_fresh in Hk. destruct (ready e) eqn:Hre, (is_retry e) eqn:Hrt; simplify_eq/=.
      destruct (Hrem n h) as (X1 & X2 & X3 & X4 & X5 & X6 & X7).
      destruct (remove (set_dispatches q2 n) h) as [o q'] eqn:Hr. cbn [fst snd] in *.
      rewrite <-He2, He in X6. subst o.
      eexists _, _. split; [done|]. split_and!; try done; [lia|].
      destruct (wf_entry _ Hwf2 h e He) as (Hih & Hord & _). unfold popped_as. rewrite <-He2, Hih. split_and!; try done.
      { by rewrite X7, He2. }
      rewrite Hrt. split_and!.
      * by rewrite X5; unfold n; rewrite Hfd2.
      * intros h' e' He' Hr' Hrt'. destruct (wf_entry _ Hwf2 h' e' He') as (_ & Hord' & _).
        assert (kleb (order_key e') (order_key e)) as Hle%kleb_fst; [|by rewrite <-Hord, <-Hord'].
        apply Hmax. exists h'. apply (wf_fresh _ Hwf2). exists e'. split; [done|].
        unfold k_fresh. destruct (ready e'); [|done]. by rewrite Hrt'.
      * destruct Hno as [[? _]|Hz]; [by left|right]. intros h' e' He' Hr'.
        destruct (is_retry e') eqn:Hrt'; [|done]. exfalso. apply (Hrr h' e' He' Hr'); [by rewrite Hrt'|done].
    + apply last_key_value_None in Hlast. eexists None, _. split; [done|].
      split_and!; try (simpl; congruence); try (simpl; done).
      * by apply set_dispatches_wf.
      * split; [simpl; congruence|]. rewrite <-He2. intros h' e' He'.
        destruct (ready e') eqn:Hr'; [exfalso|done]. destruct Hno as [[_ ?]|Hz]; [done|].
        destruct (is_retry e') eqn:Hrt'.
        -- apply (Hrr h' e' He'); [by rewrite Hr'|by rewrite Hrt'|done].
        -- apply (Hrf h' e' He'); [by rewrite Hr'|done|done].
Qed.

(** ** Claims *)

Inductive op :=
  | Push (ev : HashDiscovered)
  | Defer (e : QueuedHash) (rec : RetryRecord)
  | Remove (h : string)
  | Promote
  | Expire
  | Pop.

Definition is_pop (o : op) : bool := match o with Pop => true | _ => false end.

Definition exec (q : PendingHashQueue) (o : op) (now : Instant) : option PendingHashQueue :=
  match o with
  | Push ev => let! r := push q ev now in Some r.2
  | Defer e rec => Some (defer q e rec).2
  | Remove h => Some (remove q h).2
  | Promote => promote_ready q now
  | Expire => let! r := expire q now in Some r.2
  | Pop => let! r := pop_newest_ready q now in Some r.2
  end.

Fixpoint run (q : PendingHashQueue) (os : list (op * Instant)) : option PendingHashQueue :=
  match os with
  | [] => Some q
  | (o, now) :: os => let! q := exec q o now in run q os
  end.

(** The clock never goes back, and deferred entries carry candidate lists
    built by [merge_candidate]. *)
Fixpoint admissible (t : Instant) (os : list (op * Instant)) : Prop :=
  match os with
  | [] => True
  | (o, now) :: os =>
      (t ≤ now)%Z ∧ match o with Defer e _ => entry_ok e | _ => True end ∧ admissible now os
  end.

Record good (q : PendingHashQueue) (now : Instant) : Prop := {
  good_wf : wf q;
  good_timely : timely q now;
  good_fd : (0 ≤ fresh_dispatches q)%Z;
}.

Lemma queue_timely_mono q t t' : timely q t → (t ≤ t')%Z → timely q t'.
Proof. intros Ht Hle h e He Hr. specialize (Ht h e He Hr). lia. Qed.

Lemma selectable_timely q now : timely q now → ∀ h e, selectable now q !! h = Some e → ready e → (ready_at e ≤ now)%Z.
Proof.
  intros Ht h e. unfold selectable. rewrite lookup_fmap. intros (e0 & He0 & ->)%fmap_Some.
  apply map_lookup_filter_Some in He0 as [He0 _]. unfold promoted. simpl.
  destruct (ready e0) eqn:Hr; simpl; [|by intros ?%bool_decide_unpack].
  intros _. apply (Ht h e0 He0). by rewrite Hr.
Qed.

Lemma pop_good q now :
  good q now →
  ∃ o q', pop_newest_ready q now = Some (o, q') ∧ good q' now ∧ capacity q' = capacity q
    ∧ sequence q' = sequence q ∧ popped_as q now o q'.
Proof.
  intros [Hwf Ht Hfd]. destruct (pop_cases q now Hwf Hfd) as (o & q' & Hp & ? & ? & _ & ? & ? & Has).
  exists o, q'. split_and!; try done. split; try done.
  intros h e He. apply (selectable_timely q now Ht h e). destruct o as [e0|]; simpl in Has.
  - destruct Has as (_ & _ & Heq & _). rewrite Heq in He. by apply lookup_delete_Some in He as [_ ?].
  - destruct Has as [Heq _]. by rewrite <-Heq.
Qed.

Lemma queue_exec_good q o now :
  good q now → match o with Defer e _ => entry_ok e | _ => True end → (sequence q < u64_max)%Z →
  ∃ q', exec q o now = Some q' ∧ good q' now ∧ capacity q' = capacity q
    ∧ (sequence q' ≤ sequence q + 1)%Z
    ∧ (o ≠ Pop → fresh_dispatches q' = fresh_dispatches q).
Proof.
  intros [Hwf Ht Hfd] Ho Hseq. destruct o; simpl.
  - destruct (push_cases q ev now Hwf Ht Hseq) as (k & q' & -> & ? & ? & ? & _ & Hf & ? & _).
    exists q'. split_and!; try done. split; try done. by rewrite Hf.
  - destruct (defer_cases q e rec now Hwf Ht Ho Hseq) as (? & ? & ? & _ & Hf & ? & _).
    eexists. split_and!; try done. split; try done. by rewrite Hf.
  - destruct (queue_remove_spec q h) as (_ & _ & ? & _ & ? & Hf). eexists. split; [done|].
    split_and!; try done; [|lia]. split; [by apply remove_wf|by apply remove_timely|by rewrite Hf].
  - destruct (promote_ready_spec q now Hwf) as (q' & -> & ? & He & (? & _ & ? & Hf)).
    exists q'. split_and!; try done; [|lia]. split; try done; [|by rewrite Hf].
    intros h e. rewrite He, lookup_fmap. intros (e0 & He0 & ->)%fmap_Some. unfold promoted. simpl.
    destruct (ready e0) eqn:Hr; simpl; [|by intros ?%bool_decide_unpack].
    intros _. apply (Ht h e0 He0). by rewrite Hr.
  - destruct (queue_expire_spec q now Hwf) as (r & q' & -> & ? & He & _ & (? & _ & ? & Hf)).
    exists q'. split_and!; try done; [|lia]. split; try done; [|by rewrite Hf].
    intros h e. rewrite He. intros [He0 _]%map_lookup_filter_Some. by eapply Ht.
  - destruct (pop_good q now) as (o & q' & -> & ? & ? & ? & _); [done|].
    exists q'. split_and!; try done. lia.
Qed.

Lemma queue_run_good q os t :
  good q t → admissible t os → (sequence q + Z.of_nat (length os) ≤ u64_max)%Z →
  ∃ q', run q os = Some q' ∧ wf q' ∧ capacity q' = capacity q.
Proof.
  revert q t. induction os as [|[o now] os IH]; intros q t Hg Hadm Hseq.
  { exists q. destruct Hg. done. }
  destruct Hadm as (Hle & Ho & Hadm). simpl in Hseq.
  assert (good q now) as Hg' by (destruct Hg; split; try done; by eapply queue_timely_mono).
  destruct (queue_exec_good q o now Hg' Ho ltac:(lia)) as (q1 & He & Hg1 & Hc1 & Hs1 & _).
  destruct (IH q1 now Hg1 Hadm ltac:(lia)) as (q' & Hr & Hwf' & Hc'). exists q'. cbn [run]. rewrite He.
  split_and!; [done..|congruence].
Qed.

Lemma queue_new_good cap t now : good (new cap t) now.
Proof. split; [apply queue_new_wf| |done]. intros h e He. simpl in He. by rewrite lookup_empty in He. Qed.

(** C11: any history of fewer than 2^64 queue operations with a clock that
    never goes back runs without a panic and without looping; afterwards the
    table and its five ordered indexes describe the same entries, at most
    [capacity] hashes are queued, of which at most [max (capacity/4) 1] are
    retries, and every candidate list is bounded, duplicate-free and newest
    first. *)
Theorem queue_history_safe cap t now (os : list (op * Instant)) :
  admissible now os → (Z.of_nat (length os) ≤ u64_max)%Z →
  ∃ q, run (new cap t) os = Some q ∧ wf q ∧ size (entries q) ≤ cap `max` 1
    ∧ size (retry_expiry q) ≤ ((cap `max` 1) / 4) `max` 1.
Proof.
  intros Hadm Hlen. destruct (queue_run_good (new cap t) os now (queue_new_good _ _ _) Hadm Hlen)
    as (q & Hr & Hwf & Hc). exists q. pose proof (wf_size q Hwf) as H1. pose proof (wf_retries q Hwf) as H2.
  unfold retry_limit in H2. rewrite Hc in H1, H2. done.
Qed.

(** C37: [push] classifies every event as the code means to: events older than
    the TTL are dropped; a known hash is merged in place (a retry keeps its
    deadline); a full queue evicts the retry closest to expiry if there is
    one, and otherwise replaces the entry closest to expiry only by a newer
    event. *)
Theorem push_correct (q : PendingHashQueue) (ev : HashDiscovered) (now : Instant) :
  wf q → timely q now → (sequence q < u64_max)%Z →
  ∃ kind q', push q ev now = Some (kind, q') ∧ wf q' ∧ pushed_as q ev now kind q'.
Proof.
  intros Hwf Ht Hs. destruct (push_cases q ev now Hwf Ht Hs) as (k & q' & ? & ? & _ & _ & _ & _ & _ & ?).
  by exists k, q'.
Qed.

(** C38: [pop_newest_ready] returns an entry whenever one is ready, never one
    that has expired or whose wait is not over: the due retry that has waited
    longest, or the most recently seen fresh hash. *)
Theorem pop_correct (q : PendingHashQueue) (now : Instant) :
  wf q → timely q now → (0 ≤ fresh_dispatches q)%Z →
  ∃ o q', pop_newest_ready q now = Some (o, q') ∧ wf q' ∧ popped_as q now o q'
    ∧ match o with
      | Some e => (ready_at e ≤ now ≤ expires_at e)%Z
      | None => ∀ h e, entries q !! h = Some e → (expires_at e < now ∨ now < ready_at e)%Z
      end.
Proof.
  intros Hwf Ht Hfd. destruct (pop_cases q now Hwf Hfd) as (o & q' & Hp & Hwf' & _ & _ & _ & _ & Hres).
  exists o, q'. split_and!; try done. destruct o as [e|]; simpl in Hres.
  - destruct Hres as (He & Hr & _). split; [by eapply selectable_timely; [..|rewrite Hr]|].
    unfold selectable in He. rewrite lookup_fmap in He. apply fmap_Some in He as (e0 & He0 & ->).
    apply map_lookup_filter_Some in He0 as [_ ?]. done.
  - destruct Hres as [_ Hall]. intros h e He. destruct (decide (now ≤ expires_at e)%Z) as [Hx|]; [|left; lia].
    right. specialize (Hall h (promoted now e)). unfold selectable in Hall. rewrite lookup_fmap in Hall.
    assert (live now (entries q) !! h = Some e) as Hl by (by apply map_lookup_filter_Some).
    rewrite Hl in Hall. specialize (Hall eq_refl). unfold promoted in Hall. simpl in Hall.
    apply orb_false_iff in Hall as [_ Hb%bool_decide_eq_false]. lia.
Qed.

(** A retry that a pop at [now] could take. *)
Definition due_retry (q : PendingHashQueue) (now : Instant) : Prop :=
  ∃ h e, entries q !! h = Some e ∧ is_retry e = true ∧ (ready_at e ≤ now ≤ expires_at e)%Z.

(** Every pop of the history takes a fresh hash while a retry is due. *)
Fixpoint starved (q : PendingHashQueue) (os : list (op * Instant)) : Prop :=
  match os with
  | [] => True
  | (o, now) :: os =>
      match o with
      | Pop => due_retry q now ∧ ∃ e q', pop_newest_ready q now = Some (Some e, q')
                 ∧ is_retry e = false ∧ starved q' os
      | _ => ∃ q', exec q o now = Some q' ∧ starved q' os
      end
  end.

Lemma pop_starved q now e q' :
  wf q → (0 ≤ fresh_dispatches q)%Z → due_retry q now → pop_newest_ready q now = Some (Some e, q') →
  is_retry e = false → (fresh_dispatches q < 3)%Z ∧ fresh_dispatches q' = (fresh_dispatches q + 1)%Z.
Proof.
  intros Hwf Hfd (h & r & Hr & Hrt & Hle) Hp Hre.
  destruct (pop_cases q now Hwf Hfd) as (o & q2 & Hp' & _ & _ & _ & _ & _ & Hres).
  rewrite Hp in Hp'. injection Hp' as <- <-. simpl in Hres. rewrite Hre in Hres.
  destruct Hres as (_ & _ & _ & Hf & _ & [Hlt|Hall]).
  - split; [done|]. rewrite Hf. unfold u8_max. lia.
  - exfalso. specialize (Hall h (promoted now r)). unfold selectable in Hall. rewrite lookup_fmap in Hall.
    assert (live now (entries q) !! h = Some r) as Hl by (apply map_lookup_filter_Some; split; [done|]; simpl; lia).
    rewrite Hl in Hall. specialize (Hall eq_refl). unfold promoted in Hall. simpl in Hall.
    rewrite Hrt in Hall. assert (true = false); [|done]. apply Hall.
    rewrite bool_decide_eq_true_2 by lia. destruct (ready r); done.
Qed.

Lemma starved_bound q os t :
  good q t → admissible t os → (sequence q + Z.of_nat (length os) ≤ u64_max)%Z → starved q os →
  (fresh_dispatches q + Z.of_nat (length (filter (λ p, is_pop p.1) os)) ≤ Z.max 3 (fresh_dispatches q))%Z.
Proof.
  revert q t. induction os as [|[o now] os IH]; intros q t Hg Hadm Hseq Hst; [simpl; lia|].
  destruct Hadm as (Hle & Ho & Hadm). simpl in Hseq.
  assert (good q now) as Hg' by (destruct Hg; split; try done; by eapply queue_timely_mono).
  destruct (queue_exec_good q o now Hg' Ho ltac:(lia)) as (q1 & He & Hg1 & _ & Hs1 & Hf1).
  assert (o = Pop ∨ o ≠ Pop ∧ ¬ is_pop o) as [->|[Hne Hnp]] by (destruct o; simpl; auto).
  - rewrite filter_cons_True by done. simpl in Hst. destruct Hst as (Hdue & e & q' & Hp & Hre & Hst).
    simpl in He. rewrite Hp in He. simpl in He. injection He as ->.
    destruct (pop_starved q now e q1) as [Hlt Hinc]; try done; [apply Hg'|apply Hg'|].
    specialize (IH q1 now Hg1 Hadm ltac:(lia) Hst). simpl. lia.
  - rewrite filter_cons_False by done. specialize (Hf1 Hne).
    assert (starved q1 os) as Hst1.
    { destruct o; simpl in Hst; try done; destruct Hst as (q' & He' & Hst); simpl in He; congruence. }
    specialize (IH q1 now Hg1 Hadm ltac:(lia) Hst1). rewrite Hf1 in IH. done.
Qed.

(** C24: at most three fresh jobs are dispatched in a row while a retry is
    due, whatever pushes, deferrals, promotions and expiries happen in
    between. *)
Theorem retry_fairness (q : PendingHashQueue) (os : list (op * Instant)) (now : Instant) :
  good q now → admissible now os → (sequence q + Z.of_nat (length os) ≤ u64_max)%Z → starved q os →
  length (filter (λ p, is_pop p.1) os) ≤ 3.
Proof.
  intros Hg Hadm Hs Hst. pose proof (starved_bound q os now Hg Hadm Hs Hst).
  destruct Hg as [_ _ Hfd]. lia.
Qed.
End queue.

(** *** A concrete sort, and the claims on concrete queues *)

Definition newer (x y : PeerCandidate) : Prop := (pc_discovered_at y ≤ pc_discovered_at x)%Z.
#[global] Instance newer_dec x y : Decision (newer x y) := decide (pc_discovered_at y ≤ pc_discovered_at x)%Z.
#[global] Instance newer_total : Total newer.
Proof. intros x y. unfold newer. lia. Qed.
#[global] Instance newer_trans : Transitive newer.
Proof. intros x y z. unfold newer. lia. Qed.

Lemma sorted_newest_first l : StronglySorted newer l → newest_first l.
Proof.
  induction 1 as [|x l Hs IH Hf]; intros i j a b Hij Hi Hj; [done|].
  destruct i as [|i], j as [|j]; simplify_eq/=; try lia.
  - rewrite Forall_forall in Hf. by apply Hf; eapply list_elem_of_lookup_2.
  - eapply (IH i j); eauto with lia.
Qed.

#[global] Instance merge_sort_unstable : UnstableSort.
Proof.
  refine {| sort_unstable := merge_sort newer |}.
  - intros l. apply merge_sort_Permutation.
  - intros l. apply sorted_newest_first, StronglySorted_merge_sort; apply _.
Defined.

Definition ex_event (h : string) (x t : Z) : HashDiscovered :=
  mkDiscovered h (Some (SocketAddrV4 8 8 8 x 6881)) None Announce t.
Definition ex_record : RetryRecord := mkRetry 1 100 1000000000000 0.
Definition ex_deferred : QueuedHash :=
  mkHash "bb" [] 0 0 0 (0%Z, 0%Z) [] Announce 0 false false.
Definition ex_ops : list (op * Instant) :=
  [(Push (ex_event "aa" 1 5), 5); (Push (ex_event "aa" 2 6), 6); (Defer ex_deferred ex_record, 7);
   (Push (ex_event "cc" 3 8), 8); (Promote, 26000000); (Pop, 26000001); (Expire, 26000002)]%Z.

Lemma ex_deferred_ok : entry_ok ex_deferred.
Proof.
  split_and!; simpl; try apply NoDup_nil_2; try lia. intros i j x y _ Hi. by rewrite lookup_nil in Hi.
Qed.

Lemma ex_ops_admissible : admissible 0 ex_ops.
Proof. pose proof ex_deferred_ok. simpl. split_and!; try done. Qed.

Lemma queue_history_safe_witness :
  ∃ q, run (new 4 60000000000) ex_ops = Some q ∧ wf q ∧ size (entries q) ≤ 4 `max` 1
    ∧ size (retry_expiry q) ≤ ((4 `max` 1) / 4) `max` 1.
Proof.
  apply (queue_history_safe 4 60000000000 0 ex_ops); [exact ex_ops_admissible|vm_compute; discriminate].
Defined.

(** A queue with one fresh hash and one retry. *)
Definition ex_queue : PendingHashQueue :=
  default (new 4 60000000000) (run (new 4 60000000000) (take 3 ex_ops)).

Lemma ex_queue_good : good ex_queue 7.
Proof.
  pose proof (queue_new_good 4 60000000000 5) as G0.
  destruct (queue_exec_good _ (Push (ex_event "aa" 1 5)) 5 G0 I) as (q1 & E1 & G1 & _ & S1 & _); [done|].
  destruct (queue_exec_good q1 (Push (ex_event "aa" 2 6)) 6) as (q2 & E2 & G2 & _ & S2 & _); [|done|simpl in S1; unfold u64_max; lia|].
  { destruct G1; split; try done. by eapply queue_timely_mono. }
  destruct (queue_exec_good q2 (Defer ex_deferred ex_record) 7) as (q3 & E3 & G3 & _ & S3 & _);
    [|apply ex_deferred_ok|simpl in S1; unfold u64_max; lia|].
  { destruct G2; split; try done. by eapply queue_timely_mono. }
  assert (ex_queue = q3) as ->; [|done].
  unfold ex_queue, ex_ops. cbn [take run]. by rewrite E1, E2, E3.
Qed.

Lemma push_correct_witness :
  ∃ kind q', push ex_queue (ex_event "dd" 4 9) 9 = Some (kind, q') ∧ wf q'
    ∧ pushed_as ex_queue (ex_event "dd" 4 9) 9 kind q'.
Proof.
  apply (push_correct ex_queue (ex_event "dd" 4 9) 9).
  - apply ex_queue_good.
  - eapply queue_timely_mono; [apply ex_queue_good|done].
  - vm_compute. reflexivity.
Defined.

Lemma pop_correct_witness :
  ∃ o q', pop_newest_ready ex_queue 26000000 = Some (o, q') ∧ wf q' ∧ popped_as ex_queue 26000000 o q'
    ∧ match o with
      | Some e => (ready_at e ≤ 26000000 ≤ expires_at e)%Z
      | None => ∀ h e, entries ex_queue !! h = Some e → (expires_at e < 26000000 ∨ 26000000 < ready_at e)%Z
      end.
Proof.
  apply (pop_correct ex_queue 26000000).
  - apply ex_queue_good.
  - eapply queue_timely_mono; [apply ex_queue_good|done].
  - vm_compute. discriminate.
Defined.

(** The retry is due at 100 ns, the fresh hash from 25 ms on: at 26 ms a pop
    takes the fresh one although the retry is due. *)
Lemma retry_fairness_witness :
  starved ex_queue [(Pop, 26000000%Z)] ∧ length (filter (λ p, is_pop p.1) [(Pop, 26000000%Z)]) ≤ 3.
Proof.
  assert (starved ex_queue [(Pop, 26000000%Z)]) as Hs.
  { simpl. split.
    + exists "bb"%string. eexists. split; [vm_compute; reflexivity|]. simpl. lia.
    + eexists _, _. split; [vm_compute; reflexivity|]. done. }
  split; [exact Hs|]. apply (retry_fairness ex_queue [(Pop, 26000000%Z)] 7).
  - exact ex_queue_good.
  - simpl. lia.
  - vm_compute. discriminate.
  - exact Hs.
Defined.
End PendingHashQueue.
