(* ===== verification/Retry.v ===== *)
(** * Retry history ([RetryRecord], [RetryState] and [RetryHistory] of
    [src/scheduler.rs])

    Per-hash failure counts with an absolute lifetime.  [Instant] overflow in
    [retry_deadline] is not modelled: times are unbounded integers. *)

From S2P Require Import Prelude Net Types HashQueue.

Local Open Scope Z_scope.

Definition MAX_RETRY_LIFETIME : Duration := from_secs (7 * 24 * 60 * 60).

Definition retry_deadline (now : Instant) (delay : Duration) : Instant :=
  now + Z.min delay MAX_RETRY_LIFETIME.

Definition attempt_limit (r : RetryRecord) (policy : MetadataOptions) : Z :=
  Z.min usize_max (mo_retry_max_attempts policy + rr_extra_attempts r).

Module RetryHistory.

Record RetryState := mkState {
  record_ : RetryRecord;
  peers : list SocketAddr;
  sources : list SocketAddr;
}.

Record RetryHistory := mk {
  entries : gmap string RetryState;
  expiry : gset (Z * string);
}.

Definition empty : RetryHistory := mk ∅ ∅.

(** One round of [observe]'s loop over a candidate and its seen list. *)
Definition observe_one (candidate : option SocketAddr) (seen : list SocketAddr) (cap : nat)
  : bool * list SocketAddr :=
  match candidate with
  | Some a =>
      if bool_decide (a ∈ seen) then (false, seen)
      else (true, if bool_decide (length seen < cap)%nat then seen ++ [a] else seen)
  | None => (false, seen)
  end.

Definition observe (s : RetryState) (peer src : option SocketAddr) : bool * RetryState :=
  let '(n1, ps) := observe_one peer (peers s) MAX_METADATA_CANDIDATES_PER_HASH in
  let '(n2, ss) := observe_one src (sources s) 8 in
  (n1 || n2, mkState (record_ s) ps ss).

Fixpoint expire_loop (fuel : nat) (h : RetryHistory) (now : Instant) : option RetryHistory :=
  match fuel with
  | O => None
  | S fuel =>
      match set_first (expiry h) with
      | None => Some h
      | Some k =>
          if bool_decide (now < k.1) then Some h
          else expire_loop fuel (mk (delete k.2 (entries h)) (expiry h ∖ {[k]})) now
      end
  end.

Definition expire (h : RetryHistory) (now : Instant) : option RetryHistory :=
  expire_loop (S (size (expiry h))) h now.

Definition remove (h : RetryHistory) (hash : string) : RetryHistory :=
  match entries h !! hash with
  | Some s => mk (delete hash (entries h)) (expiry h ∖ {[(rr_expires_at (record_ s), hash)]})
  | None => h
  end.

(** The delay before the next attempt after [failures] failures. *)
Definition backoff_secs (policy : MetadataOptions) (failures : Z) : Z :=
  let multiplier := Z.shiftl 1 (Z.min (Z.max 0 (failures - 1)) 31) in
  Z.min (u64_saturating_mul (mo_retry_initial_delay_secs policy) multiplier)
        (mo_retry_max_delay_secs policy).

Definition set_record (s : RetryState) (r : RetryRecord) : RetryState :=
  mkState r (peers s) (sources s).

Definition record (h : RetryHistory) (hash : string) (now : Instant) (failed : bool)
    (delay : Duration) (policy : MetadataOptions) : option (option RetryRecord * RetryHistory) :=
  let! h := expire h now in
  let room :=
    match entries h !! hash with
    | Some _ => Some h
    | None =>
        if bool_decide (mo_retry_history_capacity policy ≤ Z.of_nat (size (entries h))) then None
        else
          let expires_at := retry_deadline now (from_secs (mo_retry_history_ttl_secs policy)) in
          Some (mk (<[hash := mkState (mkRetry 0 now expires_at 0) [] []]> (entries h))
                   ({[(expires_at, hash)]} ∪ expiry h))
    end in
  match room with
  | None => Some (None, h)
  | Some h =>
      let! s := entries h !! hash in
      let r := record_ s in
      let failures := if failed then Z.min usize_max (rr_failures r + 1) else rr_failures r in
      let backoff := if failed then from_secs (backoff_secs policy failures) else delay in
      let r := mkRetry failures (retry_deadline now (Z.max backoff (from_millis 100)))
                 (rr_expires_at r) (rr_extra_attempts r) in
      Some (Some r, mk (<[hash := set_record s r]> (entries h)) (expiry h))
  end.

Definition observe_event (h : RetryHistory) (event : HashDiscovered) (now : Instant)
    (policy : MetadataOptions) : option (option RetryRecord * RetryHistory) :=
  let! h := expire h now in
  match entries h !! hd_info_hash event with
  | None => Some (None, h)
  | Some s =>
      let '(novel, s) := observe s (hd_peer_addr event) (addr <$> hd_source_node event) in
      let r := record_ s in
      let r :=
        if bool_decide (attempt_limit r policy ≤ rr_failures r) && novel
           && bool_decide (rr_extra_attempts r < 2)
           && bool_decide (0 < mo_retry_max_attempts policy)
        then mkRetry (rr_failures r)
               (retry_deadline now
                  (Z.max (from_secs (mo_retry_initial_delay_secs policy)) (from_millis 100)))
               (rr_expires_at r) (rr_extra_attempts r + 1)
        else r in
      Some (Some r, mk (<[hd_info_hash event := set_record s r]> (entries h)) (expiry h))
  end.

Definition remember (h : RetryHistory) (entry : QueuedHash) : RetryHistory :=
  match entries h !! info_hash entry with
  | None => h
  | Some s =>
      let s := foldl (λ s p, (observe s (Some (pc_addr p)) None).2) s (HashQueue.peers entry) in
      let s := foldl (λ s n, (observe s None (Some (addr n))).2) s (source_nodes entry) in
      mk (<[info_hash entry := s]> (entries h)) (expiry h)
  end.

(** ** Invariant *)

Definition state_ok (policy : MetadataOptions) (s : RetryState) : Prop :=
  0 ≤ rr_failures (record_ s) ∧ 0 ≤ rr_extra_attempts (record_ s) ≤ 2
  ∧ (length (peers s) ≤ 64)%nat ∧ (length (sources s) ≤ 8)%nat.

Definition wf (policy : MetadataOptions) (h : RetryHistory) : Prop :=
  (∀ t x, (t, x) ∈ expiry h ↔ ∃ s, entries h !! x = Some s ∧ rr_expires_at (record_ s) = t)
  ∧ (∀ x s, entries h !! x = Some s → state_ok policy s)
  ∧ Z.of_nat (size (entries h)) ≤ mo_retry_history_capacity policy.

Definition unexpired (now : Instant) (es : gmap string RetryState) : gmap string RetryState :=
  filter (λ p, now < rr_expires_at (record_ p.2)) es.

Lemma kleb_fst_string (a b : Z * string) : kleb a b → a.1 ≤ b.1.
Proof.
  destruct a as [a1 a2], b as [b1 b2]. unfold kleb, lex_leb. simpl.
  destruct (Z.compare_spec a1 b1); simpl; (done || lia).
Qed.

Section policy.
Context (policy : MetadataOptions).

Lemma history_expire_loop fuel h now :
  wf policy h → (size (expiry h) < fuel)%nat →
  ∃ h', expire_loop fuel h now = Some h' ∧ wf policy h' ∧ entries h' = unexpired now (entries h).
Proof.
  revert h. induction fuel as [|fuel IH]; intros h Hwf Hf; [lia|]. cbn [expire_loop].
  pose proof Hwf as (H1 & H2 & H3).
  assert ((∀ x s, entries h !! x = Some s → now < rr_expires_at (record_ s)) →
    ∃ h', Some h = Some h' ∧ wf policy h' ∧ entries h' = unexpired now (entries h)) as Hstop.
  { intros Hall. exists h. split_and!; try done. symmetry. apply map_filter_id. intros x s. apply Hall. }
  destruct (set_first (expiry h)) as [[t x]|] eqn:Hfst.
  2:{ apply set_first_None in Hfst. apply Hstop. intros x s Hx.
      assert ((rr_expires_at (record_ s), x) ∈ expiry h) as Hin by (apply H1; eauto). set_solver. }
  apply set_first_Some in Hfst as [Hin Hmin]. case_bool_decide as Hnow; simpl in *.
  { apply Hstop. intros y s Hy.
    assert (kleb (t, x) (rr_expires_at (record_ s), y)) as Hle%kleb_fst_string; [|simpl in Hle; lia].
    apply Hmin, H1. eauto. }
  pose proof Hin as (s & Hs & Ht)%H1.
  destruct (IH (mk (delete x (entries h)) (expiry h ∖ {[(t, x)]}))) as (h' & -> & Hwf' & He').
  - split_and!; simpl.
    + intros t' x'. rewrite elem_of_difference, elem_of_singleton, (H1 t' x'). split.
      * intros [(s' & Hs' & Ht') Hne]. exists s'. rewrite lookup_delete_ne; [done|].
        intros <-. apply Hne. congruence.
      * intros (s' & [Hne Hs']%lookup_delete_Some & Ht'). split; [eauto|congruence].
    + intros y s' [_ ?]%lookup_delete_Some. eauto.
    + rewrite map_size_delete. case_match; unfold Datatypes.id; lia.
  - simpl. rewrite size_difference by set_solver. rewrite size_singleton.
    assert (size (expiry h) ≠ 0)%nat; [|lia]. intros Hz%size_empty_inv. set_solver.
  - exists h'. split_and!; try done. rewrite He'. simpl. unfold unexpired.
    apply map_filter_delete_not. intros s' Hs'. simpl. rewrite Hs in Hs'. injection Hs' as <-. lia.
Qed.

Lemma history_expire h now :
  wf policy h → ∃ h', expire h now = Some h' ∧ wf policy h' ∧ entries h' = unexpired now (entries h).
Proof. intros Hwf. apply history_expire_loop; [done|lia]. Qed.

Lemma set_entry_wf h x s s' :
  wf policy h → entries h !! x = Some s → rr_expires_at (record_ s') = rr_expires_at (record_ s) →
  state_ok policy s' → wf policy (mk (<[x := s']> (entries h)) (expiry h)).
Proof.
  intros (H1 & H2 & H3) Hx He Hok. split_and!; simpl.
  - intros t y. rewrite (H1 t y). destruct (decide (y = x)) as [->|Hne].
    + rewrite lookup_insert_eq. naive_solver congruence.
    + by rewrite lookup_insert_ne.
  - intros y sy. rewrite lookup_insert_Some. intros [[<- <-]|[_ ?]]; eauto.
  - by rewrite map_size_insert_Some by eauto.
Qed.

Lemma observe_one_spec c seen cap :
  (length seen ≤ cap → length (observe_one c seen cap).2 ≤ cap)%nat.
Proof.
  unfold observe_one. intros. destruct c; [|done]. case_bool_decide; [done|]. simpl.
  case_bool_decide; [|done]. rewrite length_app. simpl. lia.
Qed.

Lemma observe_ok s p src :
  state_ok policy s → state_ok policy (observe s p src).2 ∧ record_ (observe s p src).2 = record_ s.
Proof.
  intros (H1 & H2 & H3 & H4). unfold observe.
  pose proof (observe_one_spec p (peers s) 64 H3) as Hp. pose proof (observe_one_spec src (sources s) 8 H4) as Hq.
  change MAX_METADATA_CANDIDATES_PER_HASH with 64%nat.
  destruct (observe_one p (peers s) 64), (observe_one src (sources s) 8). done.
Qed.

Lemma foldl_observe_ok {A} (f : RetryState → A → RetryState) l s :
  (∀ s a, state_ok policy s → state_ok policy (f s a) ∧ record_ (f s a) = record_ s) →
  state_ok policy s → state_ok policy (foldl f s l) ∧ record_ (foldl f s l) = record_ s.
Proof.
  intros Hf. revert s. induction l as [|a l IH]; intros s Hs; [done|]. simpl.
  destruct (Hf s a Hs) as [Hs' He]. destruct (IH _ Hs') as [? ->]. done.
Qed.

Lemma remember_ok h e :
  wf policy h → wf policy (remember h e)
  ∧ ∀ x, record_ <$> entries (remember h e) !! x = record_ <$> entries h !! x.
Proof.
  intros Hwf. unfold remember. destruct (entries h !! info_hash e) as [s|] eqn:Hs; [|done].
  pose proof Hwf as (_ & H2 & _). specialize (H2 _ _ Hs).
  destruct (foldl_observe_ok (λ s p, (observe s (Some (pc_addr p)) None).2) (HashQueue.peers e) s)
    as [Ho1 Hr1]; [intros; by apply observe_ok|done|].
  destruct (foldl_observe_ok (λ s n, (observe s None (Some (addr n))).2) (source_nodes e) _
    (λ s a, observe_ok s _ _) Ho1) as [Ho2 Hr2]. split.
  - apply (set_entry_wf h _ s); try done. by rewrite Hr2, Hr1.
  - intros x. simpl. destruct (decide (x = info_hash e)) as [->|Hne].
    + rewrite lookup_insert_eq, Hs. simpl. by rewrite Hr2, Hr1.
    + by rewrite lookup_insert_ne.
Qed.

(** Only the state of the entry's own hash is touched. *)
Lemma remember_others h e : delete (info_hash e) (entries (remember h e)) = delete (info_hash e) (entries h).
Proof. unfold remember. destruct (entries h !! info_hash e); [|done]. simpl. by rewrite delete_insert_eq. Qed.

Lemma remember_unknown h e : entries h !! info_hash e = None → remember h e = h.
Proof. unfold remember. by intros ->. Qed.

Lemma history_remove_ok h x :
  wf policy h → wf policy (remove h x) ∧ entries (remove h x) = delete x (entries h).
Proof.
  intros Hwf. unfold remove. destruct (entries h !! x) as [s|] eqn:Hs; [|by rewrite delete_id].
  destruct Hwf as (H1 & H2 & H3). split; [|done]. split_and!; simpl.
  - intros t y. rewrite elem_of_difference, elem_of_singleton, (H1 t y). split.
    + intros [(s' & Hs' & Ht') Hne]. exists s'. rewrite lookup_delete_ne; [done|].
      intros <-. apply Hne. congruence.
    + intros (s' & [Hne Hs']%lookup_delete_Some & Ht'). split; [eauto|congruence].
  - intros y s' [_ ?]%lookup_delete_Some. eauto.
  - rewrite map_size_delete. case_match; unfold Datatypes.id; lia.
Qed.

(** The state a call at [now] starts from: unexpired, or new. *)
Definition base_record (h : RetryHistory) (x : string) (now : Instant) : RetryRecord :=
  match unexpired now (entries h) !! x with
  | Some s => record_ s
  | None => mkRetry 0 now (retry_deadline now (from_secs (mo_retry_history_ttl_secs policy))) 0
  end.

Lemma insert_new_wf h x r :
  wf policy h → entries h !! x = None →
  Z.of_nat (size (entries h)) < mo_retry_history_capacity policy →
  rr_failures r = 0 → rr_extra_attempts r = 0 →
  wf policy (mk (<[x := mkState r [] []]> (entries h)) ({[(rr_expires_at r, x)]} ∪ expiry h)).
Proof.
  intros (H1 & H2 & H3) Hx Hsz Hf He. split_and!; simpl.
  - intros t y. rewrite elem_of_union, elem_of_singleton, (H1 t y). destruct (decide (y = x)) as [->|Hne].
    + rewrite lookup_insert_eq, Hx. naive_solver.
    + rewrite lookup_insert_ne by done. naive_solver.
  - intros y s. rewrite lookup_insert_Some. intros [[<- <-]|[_ ?]]; [|eauto].
    unfold state_ok. simpl. rewrite Hf, He. lia.
  - rewrite map_size_insert_None by done. lia.
Qed.

(** What a recorded outcome means. *)
Definition recorded_as (h : RetryHistory) (x : string) (now : Instant) (failed : bool)
    (delay : Duration) (o : option RetryRecord) (h' : RetryHistory) : Prop :=
  match o with
  | None => unexpired now (entries h) !! x = None ∧ entries h' = unexpired now (entries h)
      ∧ mo_retry_history_capacity policy ≤ Z.of_nat (size (unexpired now (entries h)))
  | Some r =>
      let b := base_record h x now in
      (∃ s, entries h' !! x = Some s ∧ record_ s = r)
      ∧ delete x (entries h') = delete x (unexpired now (entries h))
      ∧ rr_expires_at r = rr_expires_at b ∧ rr_extra_attempts r = rr_extra_attempts b
      ∧ rr_failures r = (if failed then Z.min usize_max (rr_failures b + 1) else rr_failures b)
      ∧ rr_next_due r = now + Z.min (Z.max (if failed then from_secs (backoff_secs policy (rr_failures r)) else delay)
                                           (from_millis 100)) MAX_RETRY_LIFETIME
  end.

Lemma record_cases h x now failed delay :
  wf policy h →
  ∃ o h', record h x now failed delay policy = Some (o, h') ∧ wf policy h'
    ∧ recorded_as h x now failed delay o h'.
Proof.
  intros Hwf. unfold record.
  destruct (history_expire h now Hwf) as (h1 & -> & Hwf1 & He1).
  pose proof Hwf1 as (_ & Hst & _). unfold recorded_as, base_record. rewrite <-He1.
  destruct (entries h1 !! x) as [s|] eqn:Hs.
  - rewrite Hs. eexists (Some _), _. split; [done|]. destruct (Hst _ _ Hs) as (F1 & F2 & F3 & F4). split.
    + apply (set_entry_wf h1 x s); try done. unfold state_ok. simpl. split_and!; try done; try lia.
      destruct failed; [unfold usize_max, u64_max|]; lia.
    + split_and!; simpl; try done.
      * eexists. by rewrite lookup_insert_eq.
      * by rewrite delete_insert_eq.
  - case_bool_decide as Hfull.
    + exists None, h1. split_and!; done.
    + set (r0 := mkRetry 0 now _ 0). set (h2 := mk _ _).
      assert (wf policy h2) as Hwf2 by (apply (insert_new_wf h1 x r0); try done; lia).
      simpl. rewrite lookup_insert_eq. eexists (Some _), _. split; [done|]. split.
      * apply (set_entry_wf h2 x (mkState r0 [] [])); [done|apply lookup_insert_eq|done|].
        unfold state_ok. simpl. split_and!; try lia. destruct failed; [unfold usize_max, u64_max|]; lia.
      * split_and!; simpl; try done.
        -- eexists. by rewrite lookup_insert_eq.
        -- by rewrite !delete_insert_eq.
Qed.

(** A full history refuses a hash it does not know. *)
Lemma record_refused h x now failed delay o h' :
  wf policy h → record h x now failed delay policy = Some (o, h') →
  unexpired now (entries h) !! x = None →
  mo_retry_history_capacity policy ≤ Z.of_nat (size (unexpired now (entries h))) → o = None.
Proof.
  intros Hwf E Hx Hfull. unfold record in E. destruct (history_expire h now Hwf) as (h1 & He & _ & He1).
  rewrite He in E. rewrite <-He1 in Hx, Hfull. rewrite Hx, bool_decide_true in E by done. by injection E.
Qed.

Lemma observe_event_cases h ev now :
  wf policy h →
  ∃ o h', observe_event h ev now policy = Some (o, h') ∧ wf policy h'
    ∧ match o with
      | None => unexpired now (entries h) !! hd_info_hash ev = None ∧ entries h' = unexpired now (entries h)
      | Some r => ∃ s s', unexpired now (entries h) !! hd_info_hash ev = Some s
          ∧ entries h' = <[hd_info_hash ev := s']> (unexpired now (entries h)) ∧ record_ s' = r
          ∧ rr_expires_at r = rr_expires_at (record_ s) ∧ rr_failures r = rr_failures (record_ s)
          ∧ (r = record_ s
             ∨ rr_extra_attempts r = rr_extra_attempts (record_ s) + 1
               ∧ rr_extra_attempts r ≤ 2
               ∧ attempt_limit (record_ s) policy ≤ rr_failures r
               ∧ (observe s (hd_peer_addr ev) (addr <$> hd_source_node ev)).1 = true)
      end.
Proof.
  intros Hwf. unfold observe_event.
  destruct (history_expire h now Hwf) as (h1 & -> & Hwf1 & He1). rewrite <-He1.
  pose proof Hwf1 as (_ & Hst & _).
  destruct (entries h1 !! hd_info_hash ev) as [s|] eqn:Hs; [|by exists None, h1].
  destruct (observe_ok s (hd_peer_addr ev) (addr <$> hd_source_node ev) (Hst _ _ Hs)) as [Hok Hrec].
  destruct (observe s (hd_peer_addr ev) (addr <$> hd_source_node ev)) as [novel s1] eqn:Hobs. simpl in Hok, Hrec.
  rewrite Hrec. set (c := _ && _). destruct c eqn:Hc; subst c.
  - rewrite !andb_true_iff in Hc. destruct Hc as [[[C1 C2] C3] C4]. apply bool_decide_eq_true in C1, C3.
    eexists (Some _), _. split; [done|]. destruct (Hst _ _ Hs) as (F1 & F2 & F3 & F4).
    destruct Hok as (O1 & O2 & O3 & O4). split.
    + apply (set_entry_wf h1 _ s); try done. unfold state_ok. simpl. split_and!; try done; lia.
    + exists s, (set_record s1 (mkRetry (rr_failures (record_ s))
        (retry_deadline now (Z.max (from_secs (mo_retry_initial_delay_secs policy)) (from_millis 100)))
        (rr_expires_at (record_ s)) (rr_extra_attempts (record_ s) + 1))).
      split_and!; try done. right. simpl. rewrite Hobs. simpl. split_and!; try done. lia.
  - eexists (Some _), _. split; [done|]. split.
    + apply (set_entry_wf h1 _ s); try done. destruct Hok as (O1 & O2 & O3 & O4).
      destruct (Hst _ _ Hs) as (F1 & F2 & _). split_and!; try done; simpl; lia.
    + exists s, (set_record s1 (record_ s)). split_and!; try done. by left.
Qed.
End policy.

(** Recording a job outcome never panics; a full history refuses only
    unknown hashes; otherwise the hash's absolute deadline is set once, when
    it is first recorded, and never extended, and the next attempt is due
    after the exponential backoff [min(initial * 2^(failures-1), max)] (or
    the requested deferral), never sooner than 100 ms and never later than
    seven days. *)
Theorem retry_record_correct (policy : MetadataOptions) (h : RetryHistory) (x : string)
    (now : Instant) (failed : bool) (delay : Duration) :
  wf policy h →
  ∃ o h', record h x now failed delay policy = Some (o, h') ∧ wf policy h'
    ∧ recorded_as policy h x now failed delay o h'
    ∧ match o with
      | Some r => now + from_millis 100 ≤ rr_next_due r ≤ now + MAX_RETRY_LIFETIME
      | None => True
      end.
Proof.
  intros Hwf. destruct (record_cases policy h x now failed delay Hwf) as (o & h' & Hr & Hwf' & Hres).
  exists o, h'. split_and!; try done. destruct o as [r|]; [|done].
  destruct Hres as (_ & _ & _ & _ & _ & ->). unfold MAX_RETRY_LIFETIME, from_millis, from_secs. lia.
Qed.

Lemma history_empty_wf policy : 0 ≤ mo_retry_history_capacity policy → wf policy empty.
Proof.
  intros Hc. split_and!; simpl.
  - intros t x. rewrite lookup_empty. split; [set_solver|naive_solver].
  - intros x s Hx. by rewrite lookup_empty in Hx.
  - by rewrite map_size_empty.
Qed.

Lemma retry_record_correct_witness :
  ∃ o h', record empty "aa" 5 true 0 MetadataOptions_default = Some (o, h') ∧ wf MetadataOptions_default h'
    ∧ recorded_as MetadataOptions_default empty "aa" 5 true 0 o h'
    ∧ match o with
      | Some r => 5 + from_millis 100 ≤ rr_next_due r ≤ 5 + MAX_RETRY_LIFETIME
      | None => True
      end.
Proof.
  apply (retry_record_correct MetadataOptions_default empty "aa" 5 true 0).
  apply history_empty_wf. simpl. lia.
Defined.

(** A repeated announcement never extends a hash's retry lifetime; it
    grants an extra attempt only when the attempts are used up and the event
    brings an unseen peer or source, and at most two per lifetime. *)
Theorem observe_event_correct (policy : MetadataOptions) (h : RetryHistory) (ev : HashDiscovered)
    (now : Instant) (s : RetryState) :
  wf policy h → unexpired now (entries h) !! hd_info_hash ev = Some s →
  ∃ r h' s', observe_event h ev now policy = Some (Some r, h') ∧ wf policy h'
    ∧ entries h' = <[hd_info_hash ev := s']> (unexpired now (entries h)) ∧ record_ s' = r
    ∧ rr_expires_at r = rr_expires_at (record_ s) ∧ rr_failures r = rr_failures (record_ s)
    ∧ rr_extra_attempts r ≤ 2
    ∧ (r = record_ s
       ∨ rr_extra_attempts r = rr_extra_attempts (record_ s) + 1
         ∧ attempt_limit (record_ s) policy ≤ rr_failures (record_ s)
         ∧ (observe s (hd_peer_addr ev) (addr <$> hd_source_node ev)).1 = true).
Proof.
  intros Hwf Hs. destruct (observe_event_cases policy h ev now Hwf) as (o & h' & Ho & Hwf' & Hres).
  destruct o as [r|]; [|destruct Hres; congruence].
  destruct Hres as (s0 & s' & Hs0 & He & Hr & Hx & Hf & Hcase). simplify_eq.
  exists (record_ s'), h', s'. split_and!; try done.
  - destruct Hwf' as (_ & Hst & _). destruct (Hst (hd_info_hash ev) s') as (_ & ? & _); [|lia].
    rewrite He. apply lookup_insert_eq.
  - destruct Hcase as [?|(? & _ & ? & ?)]; [by left|right]. rewrite <-Hf. done.
Qed.

Definition ex_history : RetryHistory :=
  match record empty "aa" 5 true 0 MetadataOptions_default with
  | Some (_, h) => h
  | None => empty
  end.

Definition ex_state : RetryState :=
  mkState (mkRetry 1 60000000005 21600000000005 0) [] [].

Lemma observe_event_correct_witness :
  let ev := mkDiscovered "aa" (Some (SocketAddrV4 8 8 8 8 1)) None GetPeers 6 in
  ∃ r h' s', observe_event ex_history ev 6 MetadataOptions_default = Some (Some r, h')
    ∧ wf MetadataOptions_default h'
    ∧ entries h' = <[hd_info_hash ev := s']> (unexpired 6 (entries ex_history)) ∧ record_ s' = r
    ∧ rr_expires_at r = rr_expires_at (record_ ex_state) ∧ rr_failures r = rr_failures (record_ ex_state)
    ∧ rr_extra_attempts r ≤ 2
    ∧ (r = record_ ex_state
       ∨ rr_extra_attempts r = rr_extra_attempts (record_ ex_state) + 1
         ∧ attempt_limit (record_ ex_state) MetadataOptions_default ≤ rr_failures (record_ ex_state)
         ∧ (observe ex_state (hd_peer_addr ev) (addr <$> hd_source_node ev)).1 = true).
Proof.
  apply (observe_event_correct MetadataOptions_default ex_history
    (mkDiscovered "aa" (Some (SocketAddrV4 8 8 8 8 1)) None GetPeers 6) 6 ex_state).
  - unfold ex_history. destruct (record_cases MetadataOptions_default empty "aa" 5 true 0) as (o & h' & -> & ? & _);
      [|done]. apply history_empty_wf. simpl. lia.
  - vm_compute. reflexivity.
Defined.

End RetryHistory.
