(* ===== verification/Scheduler.v ===== *)
(** * Metadata scheduler ([MetadataScheduler] of [src/scheduler.rs])

    The actor's state and its handlers: hashes wait in the queue, at most
    [max_concurrent] of them are in flight, each as one running task.  Every
    handler takes its clock readings as arguments.  Statistics calls are kept
    as a log.  A job's own work (admission callback, peer race) is seen
    through what it does to its live-peer channel and the outcome it reports;
    [Race.v] models the peer race itself.  The loop ends with a shutdown, or
    when the input has ended and nothing is left. *)

From S2P Require Import Prelude Net Types HashQueue Retry.

Import PendingHashQueue (PendingHashQueue, entries).

(** Statistics emitted by the handlers. *)
Inductive stat :=
  | Inc (name : string)
  | QueueInserted | QueueDeduplicated | QueueEvicted | QueueStale (n : nat)
  | QueueWait (ms : Z).

(** What a job reports. *)
Inductive JobOutcome :=
  | GateRejected
  | Deferred (delay : Duration)
  | Completed (status : MetadataFetchCompletionStatus).

Record JobResult := mkResult { jr_info_hash : string; jr_attempts : nat; jr_outcome : JobOutcome }.

(** The application's admission decision. *)
Inductive MetadataAdmission := Fetch | Skip | RetryAfter (delay : Duration).

Module MetadataScheduler.
Section scheduler.
Context `{US : UnstableSort}.

(** The sender half of a job's live-peer channel: what it has accepted and
    not yet handed over, and whether the receiver is open. *)
Record PeerTx := mkTx { tx_buffer : list PeerCandidate; tx_open : bool }.

(** The job runs beside the scheduler: since the last send it has [taken]
    peers from its channel and may have [closed] it (its race is over, its
    result not yet joined).  A closed channel stays closed. *)
Definition job_side (tx : PeerTx) (taken : nat) (closed : bool) : PeerTx :=
  mkTx (drop taken (tx_buffer tx)) (tx_open tx && negb closed).

Definition try_send (tx : PeerTx) (p : PeerCandidate) : option PeerTx :=
  if tx_open tx && bool_decide (length (tx_buffer tx) < MAX_METADATA_CANDIDATES_PER_HASH)
  then Some (mkTx (tx_buffer tx ++ [p]) true) else None.

Record InFlightState := mkFlight {
  peer_tx : PeerTx;
  scheduled_peers : gset SocketAddr;
  entry : QueuedHash;
}.

(** [task_hashes] also stands for the [JoinSet]: a task is in the set exactly
    while its id is a key.  [next_task] is the id the runtime hands out;
    [input_closed] is the local of [run], and [running] holds until its loop
    is left. *)
Record MetadataScheduler := mk {
  max_concurrent : nat;
  metadata_options : MetadataOptions;
  has_lookup : bool;
  queue : PendingHashQueue;
  in_flight : gmap string InFlightState;
  task_hashes : gmap nat string;
  next_task : nat;
  retry_history : RetryHistory.RetryHistory;
  total_received : Z;
  total_dropped : Z;
  total_dispatched : Z;
  total_completed : Z;
  completions : list MetadataFetchCompletion;
  stats : list stat;
  input_closed : bool;
  running : bool;
}.

Definition new (queue_size concurrency : nat) (options : MetadataOptions) (lookup : bool)
  : MetadataScheduler :=
  mk (concurrency `max` 1) options lookup
     (PendingHashQueue.new (queue_size `max` 1) HASH_QUEUE_TTL) ∅ ∅ 0 RetryHistory.empty
     0 0 0 0 [] [] false true.

Definition set_queue (s : MetadataScheduler) q : MetadataScheduler :=
  mk (max_concurrent s) (metadata_options s) (has_lookup s) q (in_flight s)
     (task_hashes s) (next_task s) (retry_history s) (total_received s) (total_dropped s)
     (total_dispatched s) (total_completed s) (completions s) (stats s) (input_closed s) (running s).
Definition set_flight (s : MetadataScheduler) f : MetadataScheduler :=
  mk (max_concurrent s) (metadata_options s) (has_lookup s) (queue s) f
     (task_hashes s) (next_task s) (retry_history s) (total_received s) (total_dropped s)
     (total_dispatched s) (total_completed s) (completions s) (stats s) (input_closed s) (running s).
Definition set_tasks (s : MetadataScheduler) t n : MetadataScheduler :=
  mk (max_concurrent s) (metadata_options s) (has_lookup s) (queue s) (in_flight s)
     t n (retry_history s) (total_received s) (total_dropped s)
     (total_dispatched s) (total_completed s) (completions s) (stats s) (input_closed s) (running s).
Definition set_history (s : MetadataScheduler) h : MetadataScheduler :=
  mk (max_concurrent s) (metadata_options s) (has_lookup s) (queue s) (in_flight s)
     (task_hashes s) (next_task s) h (total_received s) (total_dropped s)
     (total_dispatched s) (total_completed s) (completions s) (stats s) (input_closed s) (running s).
(** Counters and log; none of them feeds back into a decision. *)
Definition count (s : MetadataScheduler) (received dropped dispatched completed : Z)
    (done : list MetadataFetchCompletion) (log : list stat) : MetadataScheduler :=
  mk (max_concurrent s) (metadata_options s) (has_lookup s) (queue s) (in_flight s)
     (task_hashes s) (next_task s) (retry_history s) (total_received s + received)
     (total_dropped s + dropped) (total_dispatched s + dispatched) (total_completed s + completed)
     (completions s ++ done) (stats s ++ log) (input_closed s) (running s).
Definition log_stat (s : MetadataScheduler) (x : stat) : MetadataScheduler := count s 0 0 0 0 [] [x].

Definition record_queue_push (s : MetadataScheduler) (kind : QueuePushKind) : MetadataScheduler :=
  match kind with
  | Inserted => log_stat s QueueInserted
  | Updated => log_stat s QueueDeduplicated
  | EvictedOldest => count s 0 1 0 0 [] [QueueInserted; QueueEvicted]
  | EvictedRetry => count s 0 1 0 0 [] [Inc "metadata_retry_evicted"; QueueInserted; QueueEvicted]
  | Stale => count s 0 1 0 0 [] [QueueStale 1]
  end.

(** [taken] and [closed]: what the job of the hash, if one is running, did to
    its channel. *)
Definition enqueue (s : MetadataScheduler) (hash : HashDiscovered) (taken : nat) (closed : bool)
    (now : Instant) : option MetadataScheduler :=
  let s := count s 1 0 0 0 [] [] in
  match in_flight s !! hd_info_hash hash with
  | Some state =>
      if bool_decide (HASH_QUEUE_TTL < age now (hd_discovered_at hash))%Z
      then Some (record_queue_push s Stale)
      else
        let e := (PendingHashQueue.merge_candidate (entry state) hash).2 in
        let tx := job_side (peer_tx state) taken closed in
        let state :=
          match hd_peer_addr hash with
          | Some a =>
              if bool_decide (a ∉ scheduled_peers state)
                 && bool_decide (size (scheduled_peers state) < MAX_METADATA_CANDIDATES_PER_HASH)
              then match try_send tx (mkPeer a (hd_discovered_at hash)) with
                   | Some tx => mkFlight tx ({[a]} ∪ scheduled_peers state) e
                   | None => mkFlight tx (scheduled_peers state) e
                   end
              else mkFlight tx (scheduled_peers state) e
          | None => mkFlight tx (scheduled_peers state) e
          end in
        Some (record_queue_push (set_flight s (<[hd_info_hash hash := state]> (in_flight s))) Updated)
  | None =>
      let! r := RetryHistory.observe_event (retry_history s) hash now (metadata_options s) in
      let '(record, h) := r in
      let s := set_history s h in
      let exhausted :=
        match record with
        | Some record => bool_decide (attempt_limit record (metadata_options s) ≤ rr_failures record)%Z
        | None => false
        end in
      if exhausted then Some (log_stat s (Inc "metadata_retry_exhausted"))
      else
        let s :=
          match entries (queue s) !! hd_info_hash hash with
          | Some e =>
              match hd_peer_addr hash with
              | Some a => if is_retry e && bool_decide (Forall (λ p, pc_addr p ≠ a) (peers e))
                          then log_stat s (Inc "metadata_retry_new_peer") else s
              | None => s
              end
          | None => s
          end in
        let! p := PendingHashQueue.push (queue s) hash now in
        let '(kind, q) := p in
        let q :=
          match record with
          | Some record =>
              match PendingHashQueue.remove q (hd_info_hash hash) with
              | (Some e, q) => (PendingHashQueue.defer q e record).2
              | (None, q) => q
              end
          | None => q
          end in
        Some (record_queue_push (set_queue s q) kind)
  end.

Definition spawn_job (s : MetadataScheduler) (e : QueuedHash) : MetadataScheduler :=
  set_tasks (count s 0 0 1 0 [] []) (<[next_task s := info_hash e]> (task_hashes s)) (S (next_task s)).

(** The loop of [dispatch_ready]; round [k] reads the clock three times, as
    [clk (3k+1)], [clk (3k+2)] and [clk (3k+3)]. *)
Fixpoint dispatch_loop (fuel : nat) (k : nat) (s : MetadataScheduler) (clk : nat → Instant)
  : option MetadataScheduler :=
  match fuel with
  | 0 => None
  | S fuel =>
      if bool_decide (size (task_hashes s) < max_concurrent s) then
        let! r := PendingHashQueue.pop_newest_ready (queue s) (clk (3 * k + 1)) in
        let s := set_queue s r.2 in
        match r.1 with
        | None => Some s
        | Some e =>
            let wait := age (clk (3 * k + 2)) (queued_at e) in
            let s := log_stat s (QueueWait (Z.min (wait `div` 1000000) u64_max)) in
            let now := clk (3 * k + 3) in
            let ps := filter (λ p, is_retry e = true
                        ∨ (age now (pc_discovered_at p) ≤ HASH_QUEUE_TTL)%Z) (peers e) in
            let ps := take MAX_METADATA_CANDIDATES_PER_HASH ps in
            let e := mkHash (info_hash e) ps (queued_at e) (ready_at e) (latest_at e) (order_key e)
                       (source_nodes e) (source e) (expires_at e) (is_retry e) (ready e) in
            if bool_decide (ps = []) && negb (has_lookup s)
            then dispatch_loop fuel (S k) (count s 0 1 0 0 [] [QueueStale 1]) clk
            else
              let state := mkFlight (mkTx [] true) (list_to_set (pc_addr <$> ps)) e in
              let s := if is_retry e then log_stat s (Inc "metadata_retry_dispatched") else s in
              let s := set_flight s (<[info_hash e := state]> (in_flight s)) in
              dispatch_loop fuel (S k) (spawn_job s e) clk
        end
      else Some s
  end.

Definition dispatch_ready (s : MetadataScheduler) (clk : nat → Instant) : option MetadataScheduler :=
  let! q := PendingHashQueue.promote_ready (queue s) (clk 0) in
  dispatch_loop (S (size (entries q))) 0 (set_queue s q) clk.

(** [cb]: whether a completion callback is set at the time (it can be
    replaced while the scheduler runs). *)
Definition finish (s : MetadataScheduler) (h : string) (status : MetadataFetchCompletionStatus)
    (attempts : nat) (cb : bool) : MetadataScheduler :=
  count s 0 0 0 1 (if cb then [mkCompletion h status attempts] else []) [].

Definition schedule_retry (s : MetadataScheduler) (e : QueuedHash) (failed : bool)
    (delay : Duration) (now : Instant) : option MetadataScheduler :=
  if bool_decide (mo_retry_max_attempts (metadata_options s) = 0)%Z then Some s
  else if is_retry e && bool_decide (expires_at e ≤ now)%Z
  then Some (log_stat s (Inc "metadata_retry_exhausted"))
  else
    let! r := RetryHistory.record (retry_history s) (info_hash e) now failed delay (metadata_options s) in
    let '(record, h) := r in
    let s := set_history s (RetryHistory.remember h e) in
    match record with
    | None => Some (log_stat s (Inc "metadata_retry_history_full"))
    | Some record =>
        if bool_decide (attempt_limit record (metadata_options s) ≤ rr_failures record)%Z
           || bool_decide (rr_expires_at record ≤ rr_next_due record)%Z
        then Some (log_stat s (Inc "metadata_retry_exhausted"))
        else
          let '(ok, q) := PendingHashQueue.defer (queue s) e record in
          Some (log_stat (set_queue s q)
                  (Inc (if ok : bool then "metadata_retry_scheduled" else "metadata_retry_evicted")))
    end.

Definition handle_job_result (s : MetadataScheduler) (result : JobResult) (cb : bool) (now : Instant)
  : option MetadataScheduler :=
  match in_flight s !! jr_info_hash result with
  | None => Some s
  | Some state =>
      let s := set_flight s (delete (jr_info_hash result) (in_flight s)) in
      let s := set_queue s (PendingHashQueue.remove (queue s) (jr_info_hash result)).2 in
      match jr_outcome result with
      | GateRejected =>
          Some (set_history s (RetryHistory.remove (retry_history s) (jr_info_hash result)))
      | Deferred delay =>
          schedule_retry (log_stat s (Inc "metadata_retry_deferred")) (entry state) false delay now
      | Completed status =>
          let s := finish s (jr_info_hash result) status (jr_attempts result) cb in
          if bool_decide (status = Accepted)
          then Some (set_history s (RetryHistory.remove (retry_history s) (jr_info_hash result)))
          else schedule_retry s (entry state) true 0 now
      end
  end.

(** The arms of the actor's [select!]; ends of tasks come with whether a
    completion callback is set. *)
Inductive event :=
  | HashReceived (hash : HashDiscovered) (taken : nat) (closed : bool)
  | InputClosed
  | TaskJoined (id : nat) (attempts : nat) (outcome : JobOutcome) (cb : bool)
  | TaskPanicked (id : nat) (cb : bool)
  | DispatchTick
  | Maintenance
  | Shutdown.

Definition set_mode (s : MetadataScheduler) (closed run : bool) : MetadataScheduler :=
  mk (max_concurrent s) (metadata_options s) (has_lookup s) (queue s) (in_flight s)
     (task_hashes s) (next_task s) (retry_history s) (total_received s) (total_dropped s)
     (total_dispatched s) (total_completed s) (completions s) (stats s) closed run.

(** The loop is left: the tasks are aborted and joined, without reports, and
    [run]'s queue and tables are gone. *)
Definition stop (s : MetadataScheduler) : MetadataScheduler :=
  let q := PendingHashQueue.new (PendingHashQueue.capacity (queue s)) (PendingHashQueue.ttl (queue s)) in
  set_mode (set_tasks (set_flight (set_queue s q) ∅) ∅ (next_task s)) (input_closed s) false.

(** Nothing is left to do and nothing can come. *)
Definition finished (s : MetadataScheduler) : bool :=
  input_closed s && PendingHashQueue.is_empty (queue s) && bool_decide (task_hashes s = ∅).

Definition handle_event (s : MetadataScheduler) (ev : event) (now : Instant)
  : option MetadataScheduler :=
  match ev with
  | HashReceived hash taken closed => if input_closed s then Some s else enqueue s hash taken closed now
  | InputClosed => Some (set_mode s true (running s))
  | TaskJoined id attempts outcome cb =>
      match task_hashes s !! id with
      | None => Some s
      | Some h =>
          handle_job_result (set_tasks s (delete id (task_hashes s)) (next_task s))
            (mkResult h attempts outcome) cb now
      end
  | TaskPanicked id cb =>
      match task_hashes s !! id with
      | None => Some s
      | Some h =>
          handle_job_result (set_tasks s (delete id (task_hashes s)) (next_task s))
            (mkResult h 0 (Completed FetchFailed)) cb now
      end
  | DispatchTick => Some s
  | Maintenance =>
      let! r := PendingHashQueue.expire (queue s) now in
      let s := set_queue s r.2 in
      Some (if bool_decide (0 < r.1)
            then count s 0 (Z.of_nat r.1) 0 0 [] [QueueStale r.1] else s)
  | Shutdown => Some (stop s)
  end.

(** One iteration of [run]: dispatch, the test for the end, then the arm that
    fired; nothing once the loop is left. *)
Definition iteration (s : MetadataScheduler) (clk : nat → Instant) (ev : event) (now : Instant)
  : option MetadataScheduler :=
  if running s then
    let! s := dispatch_ready s clk in
    if finished s then Some (stop s) else handle_event s ev now
  else Some s.

(** [queue_len], the depth published for back-pressure. *)
Definition published_depth (s : MetadataScheduler) : nat :=
  PendingHashQueue.pressure_len (queue s) + size (in_flight s).

(** ** Invariant *)

Record inv (s : MetadataScheduler) (now : Instant) : Prop := {
  inv_queue : PendingHashQueue.good (queue s) now;
  inv_history : RetryHistory.wf (metadata_options s) (retry_history s);
  inv_flight : ∀ h st, in_flight s !! h = Some st →
    info_hash (entry st) = h ∧ PendingHashQueue.entry_ok (entry st)
    ∧ size (scheduled_peers st) ≤ MAX_METADATA_CANDIDATES_PER_HASH;
  inv_disjoint : ∀ h, is_Some (in_flight s !! h) → entries (queue s) !! h = None;
  inv_tasks : ∀ h, is_Some (in_flight s !! h) ↔ ∃ id, task_hashes s !! id = Some h;
  inv_inj : ∀ i j h, task_hashes s !! i = Some h → task_hashes s !! j = Some h → i = j;
  inv_ids : ∀ i, is_Some (task_hashes s !! i) → i < next_task s;
  inv_limit : size (task_hashes s) ≤ max_concurrent s;
}.

(** Counters and the log do not matter to it. *)
Lemma inv_count s now a b c d e f : inv s now → inv (count s a b c d e f) now.
Proof. intros []. by split. Qed.

Lemma inv_set_queue s now q :
  inv s now → PendingHashQueue.good q now →
  (∀ h, is_Some (in_flight s !! h) → entries q !! h = None) → inv (set_queue s q) now.
Proof. intros [] Hg Hd. by split. Qed.

Lemma inv_set_history s now h :
  inv s now → RetryHistory.wf (metadata_options s) h → inv (set_history s h) now.
Proof. intros [] Hg. by split. Qed.

Lemma inv_record_push s now k : inv s now → inv (record_queue_push s k) now.
Proof. intros. destruct k; by apply inv_count. Qed.

Lemma inv_later s t t' : inv s t → (t ≤ t')%Z → inv s t'.
Proof.
  intros [[] ? ? ? ? ? ? ?] Hle. split; try done. split; try done. by eapply PendingHashQueue.queue_timely_mono.
Qed.

(** The parts no handler changes; of the mode, shutdown and the end of the
    input apart. *)
Definition mode (s : MetadataScheduler) : bool * bool := (input_closed s, running s).

Definition same_limits (s s' : MetadataScheduler) : Prop :=
  max_concurrent s' = max_concurrent s ∧ metadata_options s' = metadata_options s
  ∧ mode s' = mode s
  ∧ PendingHashQueue.capacity (queue s') = PendingHashQueue.capacity (queue s).

Lemma same_limits_trans s1 s2 s3 : same_limits s1 s2 → same_limits s2 s3 → same_limits s1 s3.
Proof. intros (? & ? & ? & ?) (? & ? & ? & ?). split_and!; congruence. Qed.

Lemma record_push_fields s k :
  queue (record_queue_push s k) = queue s ∧ in_flight (record_queue_push s k) = in_flight s
  ∧ completions (record_queue_push s k) = completions s
  ∧ max_concurrent (record_queue_push s k) = max_concurrent s
  ∧ metadata_options (record_queue_push s k) = metadata_options s
  ∧ mode (record_queue_push s k) = mode s.
Proof. destruct k; simpl; rewrite ?app_nil_r; done. Qed.

Lemma entries_delete_eq {A} (m m' : gmap string A) h h' :
  delete h m' = delete h m → h' ≠ h → m' !! h' = m !! h'.
Proof.
  intros Hd Hne. rewrite <-(lookup_delete_ne m h h'), <-(lookup_delete_ne m' h h') by done. by rewrite Hd.
Qed.

(** [push] only adds the event's own hash. *)
Lemma push_adds q ev now kind q' h :
  PendingHashQueue.pushed_as q ev now kind q' → h ≠ hd_info_hash ev →
  entries q !! h = None → entries q' !! h = None.
Proof.
  intros Hp Hne Hn. assert (∀ v, delete v (entries q) !! h = None) as Hdv.
  { intros v. by apply PendingHashQueue.delete_remove_insert. }
  destruct kind; simpl in Hp.
  - destruct Hp as (_ & _ & _ & Hd & _). rewrite <-(lookup_delete_ne _ (hd_info_hash ev) h) by done. by rewrite Hd.
  - destruct Hp as (_ & e & e' & _ & _ & _ & _ & _ & _ & _ & Hd). by rewrite (entries_delete_eq _ _ _ h Hd).
  - destruct Hp as (_ & _ & _ & _ & v & e & _ & _ & Hd & _).
    rewrite <-(lookup_delete_ne _ (hd_info_hash ev) h) by done. by rewrite Hd.
  - destruct Hp as (_ & _ & _ & v & e & _ & _ & Hd & _).
    rewrite <-(lookup_delete_ne _ (hd_info_hash ev) h) by done. by rewrite Hd.
  - by destruct Hp as [-> _].
Qed.

Lemma enqueue_inv s hash taken closed now :
  inv s now → (PendingHashQueue.sequence (queue s) + 2 ≤ u64_max)%Z →
  ∃ s', enqueue s hash taken closed now = Some s' ∧ inv s' now ∧ same_limits s s' ∧ completions s' = completions s
    ∧ (PendingHashQueue.sequence (queue s') ≤ PendingHashQueue.sequence (queue s) + 2)%Z.
Proof.
  intros Hinv Hseq. unfold enqueue.
  change (in_flight (count s 1 0 0 0 [] [])) with (in_flight s).
  destruct (in_flight s !! hd_info_hash hash) as [st|] eqn:Hfl.
  - case_bool_decide as Hold.
    { eexists; split; [done|]. split_and!; [by apply inv_record_push, inv_count|done|simpl; by rewrite !app_nil_r|simpl; lia]. }
    destruct (inv_flight s now Hinv _ _ Hfl) as (Hih & Hok & Hsz).
    pose proof (PendingHashQueue.merge_candidate_ok (entry st) hash Hok) as Hok'.
    destruct (PendingHashQueue.merge_candidate_fields (entry st) hash) as (Hih' & _).
    set (e := (PendingHashQueue.merge_candidate (entry st) hash).2) in *.
    set (st' := match hd_peer_addr hash with Some a => _ | None => _ end).
    assert (entry st' = e ∧ size (scheduled_peers st') ≤ MAX_METADATA_CANDIDATES_PER_HASH) as [He' Hsz'].
    { subst st'. destruct (hd_peer_addr hash) as [a|]; [|done]. case_bool_decide; simpl; [|done].
      case_bool_decide; [|done]. destruct (try_send _ _); [|done]. simpl. split; [done|].
      rewrite size_union by set_solver. rewrite size_singleton. lia. }
    eexists; split; [done|]. split_and!; [apply inv_record_push|done|simpl; by rewrite !app_nil_r|simpl; lia].
    destruct Hinv. split; try done; simpl.
    + intros h st0. rewrite lookup_insert_Some. intros [[<- <-]|[_ ?]]; [|eauto].
      rewrite He'. split_and!; try done. congruence.
    + intros h [? Hh]. apply inv_disjoint0. apply lookup_insert_Some in Hh as [[<- _]|[_ ?]]; eauto.
    + intros h. rewrite <-inv_tasks0. destruct (decide (h = hd_info_hash hash)) as [->|Hne].
      * rewrite lookup_insert_eq, Hfl. split; eauto.
      * by rewrite lookup_insert_ne.
  - destruct (RetryHistory.observe_event_cases (metadata_options s) (retry_history s) hash now (inv_history s now Hinv))
      as (o & h' & Hobs & Hwf' & _). simpl. rewrite Hobs.
    set (ex := match o with Some record => _ | None => false end). destruct ex eqn:Hex.
    { eexists; split; [done|]. split_and!; [by apply inv_count, inv_set_history; [apply inv_count|]|done|simpl; by rewrite !app_nil_r|simpl; lia]. }
    set (s1 := match entries _ !! _ with Some e => _ | None => _ end).
    assert (inv s1 now ∧ queue s1 = queue s ∧ in_flight s1 = in_flight s ∧ same_limits s s1
      ∧ completions s1 = completions s) as (Hinv1 & Hq1 & Hf1 & Hl1 & Hc1).
    { assert (inv (set_history (count s 1 0 0 0 [] []) h') now) as Hi
        by (by apply inv_set_history; [apply inv_count|]).
      subst s1. destruct (entries _ !! _) as [e|];
        [|split_and!; try done; simpl; by rewrite ?app_nil_r].
      destruct (hd_peer_addr hash) as [a|]; [|split_and!; try done; simpl; by rewrite ?app_nil_r].
      destruct (_ && _); [split_and!; try done; [by apply inv_count|simpl; by rewrite ?app_nil_r]|].
      split_and!; try done; simpl; by rewrite ?app_nil_r. }
    clearbody s1. rewrite Hq1. destruct (inv_queue s now Hinv) as [Hw Ht Hfd].
    destruct (PendingHashQueue.push_cases (queue s) hash now Hw Ht ltac:(lia))
      as (kind & q & Hpush & Hwq & Htq & Hcap & _ & Hfdq & Hsq & Has).
    rewrite Hpush.
    set (q2 := match o with Some record => _ | None => q end).
    assert (PendingHashQueue.good q2 now ∧ PendingHashQueue.capacity q2 = PendingHashQueue.capacity (queue s)
      ∧ (PendingHashQueue.sequence q2 ≤ PendingHashQueue.sequence (queue s) + 2)%Z
      ∧ (∀ h, h ≠ hd_info_hash hash → entries q !! h = None → entries q2 !! h = None)) as (Hg2 & Hc2 & Hs2 & Hn2).
    { subst q2. assert (PendingHashQueue.good q now) as Hgq by (split; try done; by rewrite Hfdq).
      destruct o as [rec|]; [|split_and!; try done; lia].
      destruct (PendingHashQueue.queue_remove_spec q (hd_info_hash hash)) as (R1 & R2 & R3 & _ & R5 & R6).
      destruct (PendingHashQueue.remove q (hd_info_hash hash)) as [oe q1] eqn:Hrm. simpl in *.
      assert (PendingHashQueue.good q1 now) as Hg1.
      { pose proof (PendingHashQueue.remove_wf q (hd_info_hash hash) Hwq) as X1.
        pose proof (PendingHashQueue.remove_timely q (hd_info_hash hash) now Htq) as X2.
        rewrite Hrm in X1, X2. split; try done. by rewrite R6, Hfdq. }
      assert (∀ h, h ≠ hd_info_hash hash → entries q !! h = None → entries q1 !! h = None) as Hq1n.
      { intros h _ Hh. rewrite R2. by apply PendingHashQueue.delete_remove_insert. }
      destruct oe as [e|]; [|split_and!; try done; [congruence|lia]].
      destruct (PendingHashQueue.wf_entry q Hwq (hd_info_hash hash) e) as (Hih & _ & _ & Hok); [done|].
      destruct Hg1 as [G1 G2 G3].
      destruct (PendingHashQueue.defer_cases q1 e rec now G1 G2 Hok ltac:(lia)) as (D1 & D2 & D3 & _ & D5 & D6 & D7 & _).
      split_and!; [split; try done; by rewrite D5|congruence|lia|].
      intros h Hne Hh. rewrite Hih in D7. by rewrite (entries_delete_eq _ _ _ h D7), Hq1n. }
    clearbody q2.
    eexists; split; [done|]. split_and!.
    + apply inv_record_push, inv_set_queue; try done. rewrite Hf1. intros h Hh.
      assert (h ≠ hd_info_hash hash) as Hne by (intros ->; rewrite Hfl in Hh; by destruct Hh).
      apply Hn2; [done|]. eapply push_adds; [done|done|]. by apply (inv_disjoint s now Hinv).
    + destruct (record_push_fields (set_queue s1 q2) kind) as (F1 & _ & _ & F4 & F5 & F6).
      destruct Hl1 as (L1 & L2 & L3 & _). unfold same_limits. rewrite F1, F4, F5, F6. done.
    + destruct (record_push_fields (set_queue s1 q2) kind) as (_ & _ & -> & _). done.
    + destruct (record_push_fields (set_queue s1 q2) kind) as (-> & _). simpl. lia.
Qed.

(** *** Dispatching *)

Lemma filter_peers_ok (P : PeerCandidate → Prop) `{∀ p, Decision (P p)} l :
  newest_first l → newest_first (filter P l).
Proof.
  intros Hl. assert (∀ l' : list PeerCandidate, (∀ x, x ∈ filter P l' → x ∈ l') ) as Hin
    by (intros l' x Hx; by apply list_elem_of_filter in Hx as [_ ?]).
  induction l as [|a l IH]; [done|].
  assert (newest_first l) as Hl'.
  { intros i j x y Hij Hi Hj. apply (Hl (S i) (S j)); [lia|done|done]. }
  rewrite filter_cons. case_decide; [|by apply IH]. intros [|i] [|j] x y Hij Hi Hj; simpl in *; try lia.
  - simplify_eq. apply list_elem_of_lookup_2 in Hj. apply Hin in Hj as [k Hk]%list_elem_of_lookup.
    apply (Hl 0 (S k)); [lia|done|done].
  - eapply (IH Hl' i j); [lia|done|done].
Qed.

Lemma dispatched_entry_ok e (P : PeerCandidate → Prop) `{∀ p, Decision (P p)} e' :
  PendingHashQueue.entry_ok e →
  peers e' = take MAX_METADATA_CANDIDATES_PER_HASH (filter P (peers e)) → source_nodes e' = source_nodes e →
  PendingHashQueue.entry_ok e'.
Proof.
  intros (H1 & H2 & H3 & H4 & H5) Hp Hn. unfold PendingHashQueue.entry_ok. rewrite Hp, Hn. split_and!; try done.
  - by apply PendingHashQueue.newest_first_take, filter_peers_ok.
  - rewrite fmap_take. apply PendingHashQueue.NoDup_take. by apply PendingHashQueue.NoDup_fmap_filter.
  - rewrite length_take. lia.
Qed.

Lemma popped_size q now e q' :
  PendingHashQueue.popped_as q now (Some e) q' → size (entries q') < size (entries q).
Proof.
  simpl. intros (He & _ & -> & _). rewrite map_size_delete_Some by eauto.
  assert (size (PendingHashQueue.selectable now q) ≤ size (entries q)) as Hle.
  { unfold PendingHashQueue.selectable, PendingHashQueue.live. rewrite map_size_fmap. apply map_subseteq_size, map_filter_subseteq. }
  assert (size (PendingHashQueue.selectable now q) ≠ 0); [|lia].
  intros Hz%map_size_empty_inv. by rewrite Hz in He.
Qed.

Lemma popped_absent q now o q' h :
  PendingHashQueue.popped_as q now o q' → entries q !! h = None → entries q' !! h = None.
Proof.
  intros Hp Hn. assert (PendingHashQueue.selectable now q !! h = None) as Hs.
  { unfold PendingHashQueue.selectable, PendingHashQueue.live. rewrite lookup_fmap.
    rewrite map_lookup_filter, Hn. done. }
  destruct o as [e|]; simpl in Hp.
  - destruct Hp as (_ & _ & -> & _). by apply PendingHashQueue.delete_remove_insert.
  - by destruct Hp as [-> _].
Qed.

(** Readings of a clock between [t] and [now]. *)
Definition clock_ok (t : Instant) (clk : nat → Instant) (now : Instant) : Prop :=
  (t ≤ clk 0%nat)%Z ∧ (∀ i j, i ≤ j → (clk i ≤ clk j)%Z) ∧ ∀ i, (clk i ≤ now)%Z.

(** Popping keeps the invariant; the popped hash is nowhere any more. *)
Lemma pop_inv s t now :
  inv s t → (t ≤ now)%Z →
  ∃ o q', PendingHashQueue.pop_newest_ready (queue s) now = Some (o, q')
    ∧ inv (set_queue s q') now ∧ PendingHashQueue.capacity q' = PendingHashQueue.capacity (queue s)
    ∧ PendingHashQueue.sequence q' = PendingHashQueue.sequence (queue s)
    ∧ match o with
      | None => True
      | Some e => PendingHashQueue.entry_ok e ∧ in_flight s !! info_hash e = None
          ∧ entries q' !! info_hash e = None ∧ size (entries q') < size (entries (queue s))
      end.
Proof.
  intros Hinv Hle. pose proof (inv_later _ _ _ Hinv Hle) as Hinv'.
  destruct (PendingHashQueue.pop_good (queue s) now (inv_queue _ _ Hinv')) as (o & q' & Hp & Hg & Hc & Hs & Has).
  exists o, q'. split_and!; try done.
  - apply inv_set_queue; try done. intros h Hh. eapply popped_absent; [done|]. by apply (inv_disjoint _ _ Hinv').
  - destruct o as [e|]; [|done]. pose proof (popped_size _ _ _ _ Has) as Hsz. simpl in Has.
    destruct Has as (He & _ & Hdel & _). unfold PendingHashQueue.selectable in He. rewrite lookup_fmap in He.
    apply fmap_Some in He as (e0 & He0 & Hee). apply map_lookup_filter_Some in He0 as [He0 _].
    destruct (PendingHashQueue.wf_entry _ (PendingHashQueue.good_wf _ _ (inv_queue _ _ Hinv')) _ _ He0)
      as (_ & _ & _ & Hok). split_and!; try done.
    + rewrite Hee. exact Hok.
    + destruct (in_flight s !! info_hash e) as [st|] eqn:Hfl; [|done].
      rewrite (inv_disjoint _ _ Hinv' (info_hash e)) in He0; [done|eauto].
    + rewrite Hdel. apply lookup_delete_eq.
Qed.

Lemma dispatch_loop_ok fuel k s t clk now :
  inv s t → (t ≤ clk (3 * k)%nat)%Z → (∀ i j, i ≤ j → (clk i ≤ clk j)%Z) → (∀ i, (clk i ≤ now)%Z) →
  size (entries (queue s)) < fuel →
  ∃ s', dispatch_loop fuel k s clk = Some s' ∧ inv s' now ∧ same_limits s s' ∧ completions s' = completions s
    ∧ PendingHashQueue.sequence (queue s') = PendingHashQueue.sequence (queue s).
Proof.
  revert k s t. induction fuel as [|fuel IH]; intros k s t Hinv Hk Hmono Hnow Hf; [lia|].
  cbn [dispatch_loop]. assert (t ≤ now)%Z as Htn by (specialize (Hnow (3 * k)); lia).
  case_bool_decide as Hroom; [|exists s; split_and!; try done; by eapply inv_later].
  set (t1 := clk (3 * k + 1)). assert (t ≤ t1)%Z as Ht1 by (specialize (Hmono (3 * k) (3 * k + 1)); lia).
  destruct (pop_inv s t t1 Hinv Ht1) as (o & q' & -> & Hinv1 & Hc1 & Hs1 & Ho). cbn [fst snd].
  destruct o as [e|].
  2:{ eexists; split; [done|]. split_and!; try done. eapply inv_later; [done|apply Hnow]. }
  destruct Ho as (Hok & Hnf & Hnq & Hsz).
  set (s1 := log_stat (set_queue s q') _). set (P := λ p, is_retry e = true ∨ _).
  set (ps := take _ (filter P (peers e))).
  set (e1 := mkHash (info_hash e) ps _ _ _ _ _ _ _ _ _).
  assert (t1 ≤ clk (3 * S k)%nat)%Z as Hnext by (apply Hmono; lia).
  assert (inv s1 t1) as Hi1 by (by apply inv_count).
  assert (completions s1 = completions s) as Hcs1 by (simpl; by rewrite app_nil_r).
  destruct (bool_decide (ps = []) && negb (has_lookup s1)) eqn:Hdrop.
  - destruct (IH (S k) (count s1 0 1 0 0 [] [QueueStale 1]) t1) as (s' & -> & Hi' & Hl' & Hc' & Hsq'); try done.
    + by apply inv_count.
    + simpl. lia.
    + exists s'. split_and!; try done.
      * eapply same_limits_trans; [|exact Hl']. by split_and!.
      * rewrite Hc'. cbn [completions count]. by rewrite app_nil_r.
      * rewrite Hsq'. done.
  - assert (PendingHashQueue.entry_ok e1) as Hok1 by (by eapply (dispatched_entry_ok e P)).
    set (st := mkFlight (mkTx [] true) (list_to_set (pc_addr <$> ps)) e1).
    set (s2 := if is_retry e1 then log_stat s1 _ else s1).
    assert (inv s2 t1 ∧ queue s2 = q' ∧ in_flight s2 = in_flight s ∧ task_hashes s2 = task_hashes s
      ∧ next_task s2 = next_task s ∧ same_limits s s2 ∧ completions s2 = completions s)
      as (Hi2 & Hq2 & Hf2 & Ht2 & Hn2 & Hl2 & Hcs2).
    { subst s2. destruct (is_retry e1); split_and!; try done; try (by apply inv_count); simpl; rewrite ?app_nil_r; done. }
    clearbody s2 s1.
    set (s3 := set_flight s2 (<[info_hash e1 := st]> (in_flight s2))).
    assert (inv (spawn_job s3 e1) t1) as Hi3.
    { destruct Hi2 as [I1 I2 I3 I4 I5 I6 I7 I8]. split; try done; simpl.
      - intros h st0. rewrite lookup_insert_Some. intros [[<- <-]|[_ ?]]; [|eauto].
        split_and!; try done. simpl. unfold ps. rewrite size_list_to_set.
        + rewrite length_fmap, length_take. lia.
        + apply Hok1.
      - intros h [? Hh]. rewrite Hq2. apply lookup_insert_Some in Hh as [[<- _]|[_ Hh]]; [done|].
        rewrite <-Hq2. apply I4. eauto.
      - intros h. rewrite Ht2. destruct (decide (h = info_hash e)) as [->|Hne].
        + rewrite lookup_insert_eq. split; [|eauto]. intros _. exists (next_task s2). by rewrite lookup_insert_eq.
        + rewrite lookup_insert_ne by done. rewrite (I5 h), Ht2. split; intros [id Hid].
          * exists id. rewrite lookup_insert_ne; [done|]. intros <-.
            assert (next_task s2 < next_task s2); [|lia]. apply I7. rewrite Ht2. eauto.
          * apply lookup_insert_Some in Hid as [[_ Hid]|[_ ?]]; [by destruct Hne|eauto].
      - rewrite Ht2. intros i j h Hi Hj.
        assert (task_hashes s !! i ≠ Some (info_hash e) ∧ task_hashes s !! j ≠ Some (info_hash e)) as [Hni Hnj].
        { rewrite <-Ht2. split; intros Hx; (assert (is_Some (in_flight s2 !! info_hash e)) as Hc;
            [apply I5; eauto|rewrite Hf2, Hnf in Hc; by destruct Hc]). }
        apply lookup_insert_Some in Hi as [[<- <-]|[? Hi]], Hj as [[<- Hj]|[? Hj]]; try done; try congruence.
        rewrite <-Ht2 in Hi, Hj. by eapply I6.
      - intros i [x Hi]. apply lookup_insert_Some in Hi as [[<- _]|[_ Hi]]; [lia|].
        assert (i < next_task s2); [|lia]. apply I7. rewrite Ht2 in *. eauto.
      - destruct Hl2 as (-> & _). rewrite Ht2. rewrite map_size_insert_None.
        + lia.
        + destruct (task_hashes s !! next_task s2) eqn:Hx; [|done].
          assert (next_task s2 < next_task s2); [|lia]. apply I7. rewrite Ht2. eauto. }
    destruct (IH (S k) (spawn_job s3 e1) t1) as (s' & -> & Hi' & Hl' & Hc' & Hsq'); try done.
    + simpl. rewrite Hq2. lia.
    + exists s'. split_and!; try done.
      * eapply same_limits_trans; [exact Hl2|exact Hl'].
      * rewrite Hc'. simpl. by rewrite app_nil_r.
      * rewrite Hsq'. simpl. rewrite Hq2. done.
Qed.

Lemma dispatch_ready_ok s t clk now :
  inv s t → clock_ok t clk now →
  ∃ s', dispatch_ready s clk = Some s' ∧ inv s' now ∧ same_limits s s' ∧ completions s' = completions s
    ∧ PendingHashQueue.sequence (queue s') = PendingHashQueue.sequence (queue s).
Proof.
  intros Hinv (C1 & C2 & C3). unfold dispatch_ready.
  pose proof (inv_later _ _ _ Hinv C1) as Hinv0. destruct (inv_queue _ _ Hinv0) as [Hw Ht Hfd].
  destruct (PendingHashQueue.promote_ready_spec (queue s) (clk 0) Hw) as (q & -> & Hwq & Heq & (F1 & F2 & F3 & F4)).
  destruct (dispatch_loop_ok (S (size (entries q))) 0 (set_queue s q) (clk 0) clk now) as (s' & -> & ? & Hl & ? & Hs);
    try done.
  - apply inv_set_queue; try done.
    + split; try done; [|by rewrite F4]. intros h e. rewrite Heq, lookup_fmap.
      intros (e0 & He0 & ->)%fmap_Some. unfold PendingHashQueue.promoted. simpl.
      destruct (ready e0) eqn:Hr; simpl; [|by intros ?%bool_decide_unpack].
      intros _. apply (Ht h e0 He0). by rewrite Hr.
    + intros h Hh. rewrite Heq, lookup_fmap, (inv_disjoint _ _ Hinv h Hh). done.
  - simpl. lia.
  - exists s'. split_and!; try done.
    + eapply same_limits_trans; [|exact Hl]. by split_and!.
    + rewrite Hs. done.
Qed.

(** *** Job results *)

(** No retry at all: retries are off, or the hash was itself a retry whose
    lifetime is over. *)
Definition no_retry (s : MetadataScheduler) (e : QueuedHash) (now : Instant) : Prop :=
  mo_retry_max_attempts (metadata_options s) = 0%Z ∨ is_retry e = true ∧ (expires_at e ≤ now)%Z.

(** The history has no room for a hash it does not know. *)
Definition history_full (s : MetadataScheduler) (x : string) (now : Instant) : Prop :=
  let es := RetryHistory.unexpired now (RetryHistory.entries (retry_history s)) in
  es !! x = None ∧ (mo_retry_history_capacity (metadata_options s) ≤ Z.of_nat (size es))%Z.

(** The record of a hash after one more outcome: a failure counts and waits
    for the exponential backoff, a deferral waits as long as asked; never
    less than 100 ms; the lifetime stays what it was. *)
Definition next_record (s : MetadataScheduler) (x : string) (failed : bool) (delay : Duration) (now : Instant)
  : RetryRecord :=
  let policy := metadata_options s in
  let b := RetryHistory.base_record policy (retry_history s) x now in
  let failures := if failed then Z.min usize_max (rr_failures b + 1) else rr_failures b in
  let wait := if failed then from_secs (RetryHistory.backoff_secs policy failures) else delay in
  mkRetry failures (retry_deadline now (Z.max wait (from_millis 100))) (rr_expires_at b) (rr_extra_attempts b).

(** Attempts are left, the retry is due within its lifetime, and the queue and
    the share of retries in it have room. *)
Definition retry_fits (s : MetadataScheduler) (r : RetryRecord) : Prop :=
  (rr_failures r < attempt_limit r (metadata_options s))%Z ∧ (rr_next_due r < rr_expires_at r)%Z
  ∧ size (entries (queue s)) < PendingHashQueue.capacity (queue s)
  ∧ PendingHashQueue.retries (queue s) < PendingHashQueue.retry_limit (queue s).

#[local] Instance no_retry_dec s e now : Decision (no_retry s e now).
Proof. unfold no_retry. apply _. Defined.
#[local] Instance history_full_dec s x now : Decision (history_full s x now).
Proof. unfold history_full. apply _. Defined.
#[local] Instance retry_fits_dec s r : Decision (retry_fits s r).
Proof. unfold retry_fits. apply _. Defined.

(** [e'] is [e] queued as a retry under the record [r]. *)
Definition requeued (e : QueuedHash) (r : RetryRecord) (now : Instant) (e' : QueuedHash) : Prop :=
  is_retry e' = true ∧ ready e' = false ∧ peers e' = peers e ∧ source_nodes e' = source_nodes e
  ∧ source e' = source e ∧ ready_at e' = rr_next_due r ∧ expires_at e' = rr_expires_at r
  ∧ (now + from_millis 100 ≤ ready_at e' < expires_at e')%Z.

(** What becomes of a hash whose job was inconclusive: exactly when it is
    queued again, as what, and what is remembered of it. *)
Definition retried (s : MetadataScheduler) (e : QueuedHash) (failed : bool) (delay : Duration) (now : Instant)
    (s' : MetadataScheduler) : Prop :=
  let x := info_hash e in
  let old := RetryHistory.entries (retry_history s) in
  let new := RetryHistory.entries (retry_history s') in
  if decide (no_retry s e now) then entries (queue s') = entries (queue s) ∧ new = old
  else if decide (history_full s x now) then
    entries (queue s') = entries (queue s) ∧ new = RetryHistory.unexpired now old
  else
    let r := next_record s x failed delay now in
    RetryHistory.record_ <$> new !! x = Some r
    ∧ delete x new = delete x (RetryHistory.unexpired now old)
    ∧ if decide (retry_fits s r)
      then ∃ e', entries (queue s') = <[x := e']> (entries (queue s)) ∧ requeued e r now e'
      else entries (queue s') = entries (queue s).

(** A rejected or accepted hash is neither queued nor remembered. *)
Definition forgotten (s : MetadataScheduler) (x : string) (s' : MetadataScheduler) : Prop :=
  entries (queue s') = entries (queue s)
  ∧ RetryHistory.entries (retry_history s') = delete x (RetryHistory.entries (retry_history s)).

Definition concluded (s : MetadataScheduler) (e : QueuedHash) (o : JobOutcome) (now : Instant)
    (s' : MetadataScheduler) : Prop :=
  match o with
  | GateRejected | Completed Accepted => forgotten s (info_hash e) s'
  | Deferred delay => retried s e false delay now s'
  | Completed _ => retried s e true 0 now s'
  end.

Lemma recorded_next s x failed delay now r h :
  RetryHistory.recorded_as (metadata_options s) (retry_history s) x now failed delay (Some r) h →
  r = next_record s x failed delay now.
Proof.
  intros (_ & _ & H3 & H4 & H5 & H6). destruct r as [f d ex ea]. cbn in *. unfold next_record.
  rewrite H3, H4, H6, H5. done.
Qed.

Lemma queue_delete_insert (m m' : gmap string QueuedHash) x e :
  delete x m' = delete x m → m !! x = None → m' !! x = Some e → m' = <[x := e]> m.
Proof. intros Hd Hn He. by rewrite <-(insert_delete_id m' x e He), Hd, insert_delete_eq. Qed.

Lemma queue_delete_same (m m' : gmap string QueuedHash) x :
  delete x m' = delete x m → m !! x = None → m' !! x = None → m' = m.
Proof. intros Hd Hn He. by rewrite <-(delete_id m' x He), Hd, delete_id. Qed.

(** The end of [schedule_retry]: a recorded hash is queued or not. *)
Lemma queued_again_ok s e r now :
  inv s now → PendingHashQueue.entry_ok e → in_flight s !! info_hash e = None →
  entries (queue s) !! info_hash e = None → (PendingHashQueue.sequence (queue s) + 1 ≤ u64_max)%Z →
  (now + from_millis 100 ≤ rr_next_due r < rr_expires_at r)%Z →
  let q := (PendingHashQueue.defer (queue s) e r).2 in
  inv (set_queue s q) now ∧ PendingHashQueue.capacity q = PendingHashQueue.capacity (queue s)
  ∧ (PendingHashQueue.sequence q ≤ PendingHashQueue.sequence (queue s) + 1)%Z
  ∧ if bool_decide (size (entries (queue s)) < PendingHashQueue.capacity (queue s)
                    ∧ PendingHashQueue.retries (queue s) < PendingHashQueue.retry_limit (queue s))
    then ∃ e', entries q = <[info_hash e := e']> (entries (queue s)) ∧ requeued e r now e'
    else entries q = entries (queue s).
Proof.
  intros Hinv Hok Hnf Hnq Hseq Hdue q. destruct (inv_queue _ _ Hinv) as [Hw Ht Hfd].
  destruct (PendingHashQueue.defer_cases (queue s) e r now Hw Ht Hok ltac:(lia)) as (D1 & D2 & D3 & _ & D5 & D6 & D7 & D8).
  rewrite <-(PendingHashQueue.defer_accepts (queue s) e r Hw Hnq). fold q in D1, D2, D3, D5, D6, D7, D8.
  split_and!; try done.
  - apply inv_set_queue; try done; [split; try done; by rewrite D5|].
    intros h' Hh'. assert (h' ≠ info_hash e) as Hne by (intros ->; rewrite Hnf in Hh'; by destruct Hh').
    rewrite (entries_delete_eq _ _ _ h' D7) by done. by apply (inv_disjoint _ _ Hinv).
  - destruct (PendingHashQueue.defer (queue s) e r).1; [|by eapply queue_delete_same].
    destruct D8 as (e' & He' & E1 & E2 & E3 & E4 & E5 & E6 & E7). exists e'. split; [by apply queue_delete_insert|].
    unfold requeued. rewrite E3, E4. split_and!; try done; lia.
Qed.

Lemma schedule_retry_ok s e failed delay now :
  inv s now → PendingHashQueue.entry_ok e → in_flight s !! info_hash e = None →
  entries (queue s) !! info_hash e = None →
  (PendingHashQueue.sequence (queue s) + 1 ≤ u64_max)%Z →
  ∃ s', schedule_retry s e failed delay now = Some s' ∧ inv s' now ∧ same_limits s s'
    ∧ completions s' = completions s ∧ in_flight s' = in_flight s ∧ task_hashes s' = task_hashes s
    ∧ (PendingHashQueue.sequence (queue s') ≤ PendingHashQueue.sequence (queue s) + 1)%Z
    ∧ retried s e failed delay now s'.
Proof.
  intros Hinv Hok Hnf Hnq Hseq. unfold schedule_retry. case_bool_decide as Hz.
  { exists s. split_and!; try done; [lia|]. unfold retried. by rewrite decide_True by by left. }
  destruct (is_retry e && bool_decide (expires_at e ≤ now)%Z) eqn:Hex.
  { apply andb_true_iff in Hex as [Hr Hex%bool_decide_eq_true]. eexists; split; [done|].
    split_and!; try done; [by apply inv_count|simpl; by rewrite app_nil_r|simpl; lia|].
    unfold retried. by rewrite decide_True by by right. }
  assert (¬ no_retry s e now) as Hre.
  { intros [?|[Hr Hx]]; [done|]. by rewrite Hr, bool_decide_true in Hex by done. }
  destruct (RetryHistory.record_cases (metadata_options s) (retry_history s) (info_hash e) now failed delay
    (inv_history _ _ Hinv)) as (o & h & Hrd & Hwh & Hrec). rewrite Hrd.
  destruct (RetryHistory.remember_ok (metadata_options s) h e Hwh) as [Hwr Hrem].
  set (s1 := set_history s (RetryHistory.remember h e)).
  assert (inv s1 now) as Hi1 by (by apply inv_set_history).
  destruct o as [r|].
  2:{ destruct Hrec as (Hx & Hh & Hfull). eexists; split; [done|].
      split_and!; try done; [by apply inv_count|simpl; by rewrite app_nil_r|simpl; lia|].
      unfold retried. rewrite decide_False, decide_True by done. split; [done|]. simpl. rewrite RetryHistory.remember_unknown; [done|]. by rewrite Hh. }
  assert (¬ history_full s (info_hash e) now) as Hro.
  { intros [Hx Hfull]. by pose proof (RetryHistory.record_refused _ _ _ _ _ _ _ _ (inv_history _ _ Hinv) Hrd Hx Hfull). }
  pose proof (recorded_next _ _ _ _ _ _ _ Hrec) as Hnr. destruct Hrec as ((st & Hst & Hstr) & Hoth & _ & _ & _ & Hnd).
  assert (RetryHistory.record_ <$> RetryHistory.entries (RetryHistory.remember h e) !! info_hash e = Some r
    ∧ delete (info_hash e) (RetryHistory.entries (RetryHistory.remember h e))
      = delete (info_hash e) (RetryHistory.unexpired now (RetryHistory.entries (retry_history s)))) as Hhist.
  { split; [by rewrite Hrem, Hst; simpl; rewrite Hstr|]. by rewrite RetryHistory.remember_others. }
  destruct (_ || _) eqn:Hor.
  { eexists; split; [done|]. split_and!; try done; [by apply inv_count|simpl; by rewrite app_nil_r|simpl; lia|].
    unfold retried. rewrite !decide_False, <-Hnr by done. cbv zeta. split_and!; [apply Hhist..|].
    rewrite decide_False; [done|]. intros (H1 & H2 & _). change (metadata_options s1) with (metadata_options s) in Hor.
    apply orb_true_iff in Hor as [Hor%bool_decide_eq_true|Hor%bool_decide_eq_true]; lia. }
  apply orb_false_iff in Hor as [Hlim%bool_decide_eq_false Hdue%bool_decide_eq_false].
  destruct (queued_again_ok s1 e r now) as (Hi2 & Hc2 & Hs2 & Hq); try done.
  { rewrite Hnd in *. unfold MAX_RETRY_LIFETIME, from_millis, from_secs in *. lia. }
  change (queue s1) with (queue s) in *. destruct (PendingHashQueue.defer (queue s) e r) as [ok q]. cbn [snd] in *.
  eexists; split; [done|]. split_and!; try done; [by apply inv_count|simpl; by rewrite app_nil_r|].
  unfold retried. rewrite !decide_False, <-Hnr by done. cbv zeta. split_and!; [apply Hhist..|].
  change (metadata_options s1) with (metadata_options s) in Hlim. unfold retry_fits.
  case_bool_decide as Hb; [rewrite decide_True by (split_and!; [lia|lia|apply Hb..]); exact Hq|].
  rewrite decide_False by tauto. exact Hq.
Qed.

(** The reports a job outcome produces. *)
Definition reported (h : string) (attempts : nat) (o : JobOutcome) (cb : bool)
  : list MetadataFetchCompletion :=
  match o with
  | Completed status => if cb then [mkCompletion h status attempts] else []
  | _ => []
  end.

(** A task leaves the set, and its hash the in-flight table. *)
Lemma leave_flight s now id h :
  inv s now → task_hashes s !! id = Some h →
  inv (set_queue (set_flight (set_tasks s (delete id (task_hashes s)) (next_task s)) (delete h (in_flight s)))
        (PendingHashQueue.remove (queue s) h).2) now.
Proof.
  intros [I1 I2 I3 I4 I5 I6 I7 I8] Hid. destruct I1 as [G1 G2 G3].
  destruct (PendingHashQueue.queue_remove_spec (queue s) h) as (_ & R2 & _ & _ & _ & R6).
  split; try done; simpl.
  - split; [by apply PendingHashQueue.remove_wf|by apply PendingHashQueue.remove_timely|by rewrite R6].
  - intros h' st [_ ?]%lookup_delete_Some. eauto.
  - intros h' [? [_ Hh]%lookup_delete_Some]. rewrite R2. apply PendingHashQueue.delete_remove_insert. eauto.
  - intros h'. destruct (decide (h' = h)) as [->|Hne].
    + rewrite lookup_delete_eq. split; [by intros [? ?]|]. intros [i [Hne Hi]%lookup_delete_Some].
      destruct Hne. by eapply I6.
    + rewrite lookup_delete_ne by done. rewrite (I5 h'). split; intros [i Hi]; exists i.
      * rewrite lookup_delete_ne; [done|]. intros <-. congruence.
      * by apply lookup_delete_Some in Hi as [_ ?].
  - intros i j h' [_ ?]%lookup_delete_Some [_ ?]%lookup_delete_Some. eauto.
  - intros i [? [_ ?]%lookup_delete_Some]. eauto.
  - rewrite map_size_delete. case_match; unfold Datatypes.id; lia.
Qed.

(** [retried] reads the queue, the history and the policy only. *)
Lemma retried_from s1 s e failed delay now s' :
  queue s1 = queue s → retry_history s1 = retry_history s → metadata_options s1 = metadata_options s →
  retried s1 e failed delay now s' → retried s e failed delay now s'.
Proof.
  destruct s1, s. cbn. intros -> -> -> H. exact H.
Qed.

Lemma job_result_ok s id h attempts o cb now :
  inv s now → task_hashes s !! id = Some h → (PendingHashQueue.sequence (queue s) + 1 ≤ u64_max)%Z →
  ∃ st s', in_flight s !! h = Some st ∧ info_hash (entry st) = h
    ∧ handle_job_result (set_tasks s (delete id (task_hashes s)) (next_task s)) (mkResult h attempts o) cb now = Some s'
    ∧ inv s' now ∧ same_limits s s' ∧ completions s' = completions s ++ reported h attempts o cb
    ∧ (PendingHashQueue.sequence (queue s') ≤ PendingHashQueue.sequence (queue s) + 1)%Z
    ∧ in_flight s' = delete h (in_flight s) ∧ task_hashes s' = delete id (task_hashes s)
    ∧ concluded s (entry st) o now s'.
Proof.
  intros Hinv Hid Hseq. pose proof (leave_flight _ _ _ _ Hinv Hid) as Hinv1.
  assert (is_Some (in_flight s !! h)) as [st Hst] by (apply (inv_tasks _ _ Hinv); eauto).
  destruct (inv_flight _ _ Hinv h st Hst) as (Hih & Hok & _). exists st.
  assert (entries (queue s) !! h = None) as Hnq by (apply (inv_disjoint _ _ Hinv); eauto).
  assert ((PendingHashQueue.remove (queue s) h).2 = queue s) as Hrm by (unfold PendingHashQueue.remove; by rewrite Hnq).
  unfold handle_job_result. cbn [in_flight set_tasks jr_info_hash jr_outcome jr_attempts queue set_flight]. rewrite Hst.
  rewrite Hrm in Hinv1 |- *. set (s1 := set_queue (set_flight _ _) _) in *.
  assert (queue s1 = queue s ∧ in_flight s1 = delete h (in_flight s) ∧ task_hashes s1 = delete id (task_hashes s)
    ∧ retry_history s1 = retry_history s ∧ metadata_options s1 = metadata_options s
    ∧ same_limits s s1 ∧ completions s1 = completions s) as (Q1 & F1 & T1 & H1 & O1 & L1 & C1) by (by split_and!).
  clearbody s1.
  assert (∀ s2 failed delay, inv s2 now → queue s2 = queue s → in_flight s2 = delete h (in_flight s) →
    task_hashes s2 = delete id (task_hashes s) → retry_history s2 = retry_history s →
    metadata_options s2 = metadata_options s → same_limits s s2 →
    ∃ s', schedule_retry s2 (entry st) failed delay now = Some s' ∧ inv s' now ∧ same_limits s s'
      ∧ completions s' = completions s2 ∧ (PendingHashQueue.sequence (queue s') ≤ PendingHashQueue.sequence (queue s) + 1)%Z
      ∧ in_flight s' = delete h (in_flight s) ∧ task_hashes s' = delete id (task_hashes s)
      ∧ retried s (entry st) failed delay now s') as Hretry.
  { intros s2 failed delay I2 Q2 F2 T2 H2 O2 L2.
    destruct (schedule_retry_ok s2 (entry st) failed delay now) as (s' & X0 & X1 & X2 & X3 & X4 & X5 & X6 & X7);
      rewrite ?Hih, ?Q2, ?F2; try done; [apply lookup_delete_eq|].
    exists s'. split_and!; try done; try congruence; [by eapply same_limits_trans|by eapply retried_from]. }
  assert (∀ s2, inv s2 now → let s3 := set_history s2 (RetryHistory.remove (retry_history s2) h) in
    inv s3 now ∧ RetryHistory.entries (retry_history s3) = delete h (RetryHistory.entries (retry_history s2))) as Hforget.
  { intros s2 Hi2 s3. destruct (RetryHistory.history_remove_ok (metadata_options s2) (retry_history s2) h (inv_history _ _ Hi2)).
    split; [by apply inv_set_history|done]. }
  destruct o as [|delay|status].
  - destruct (Hforget s1 Hinv1) as [Hi3 He3]. eexists. split; [done|]. split; [done|]. split; [done|].
    split_and!; try done; [simpl; by rewrite app_nil_r|simpl; rewrite Q1; lia|].
    unfold concluded, forgotten. rewrite Hih, He3, H1. by rewrite <-Q1.
  - destruct (Hretry (log_stat s1 (Inc "metadata_retry_deferred")) false delay) as (s' & -> & ? & ? & Hc & ? & ? & ? & ?);
      try done; [by apply inv_count|].
    exists s'. split_and!; try done. rewrite Hc. simpl. by rewrite C1, !app_nil_r.
  - set (s2 := finish s1 h status attempts cb). assert (inv s2 now) as Hi2 by (by apply inv_count).
    assert (completions s2 = completions s ++ reported h attempts (Completed status) cb) as Hc2 by (simpl; by rewrite C1).
    case_bool_decide as Hacc.
    + destruct (Hforget s2 Hi2) as [Hi3 He3]. eexists. split; [done|]. split; [done|]. split; [done|].
      split_and!; try done; [simpl; rewrite Q1; lia|].
      subst status. unfold concluded, forgotten. rewrite Hih, He3. simpl. by rewrite H1, Q1.
    + destruct (Hretry s2 true 0%Z) as (s' & -> & ? & ? & Hc & ? & ? & ? & ?); try done.
      exists s'. split_and!; try done; [congruence|]. by destruct status.
Qed.

(** The reports an event produces. *)
Definition event_reports (s : MetadataScheduler) (ev : event) : list MetadataFetchCompletion :=
  match ev with
  | TaskJoined id n o cb => match task_hashes s !! id with Some h => reported h n o cb | None => [] end
  | TaskPanicked id cb =>
      match task_hashes s !! id with Some h => reported h 0 (Completed FetchFailed) cb | None => [] end
  | _ => []
  end.

(** Leaving the loop. *)
Lemma stop_inv s now : inv s now → inv (stop s) now.
Proof.
  intros [I1 I2 I3 I4 I5 I6 I7 I8]. split; try done; simpl.
  - apply PendingHashQueue.queue_new_good.
  - intros h. split; by intros [? ?].
  - intros i [? ?]. done.
  - rewrite map_size_empty. lia.
Qed.

(** What an event leaves alone, given that it may end the loop or the input. *)
Definition kept (s : MetadataScheduler) (ev : event) (s' : MetadataScheduler) : Prop :=
  max_concurrent s' = max_concurrent s ∧ metadata_options s' = metadata_options s
  ∧ mode s' = match ev with InputClosed => (true, running s) | Shutdown => (input_closed s, false) | _ => mode s end
  ∧ PendingHashQueue.capacity (queue s') = PendingHashQueue.capacity (queue s).

Lemma stop_kept s now : inv s now → kept s Shutdown (stop s).
Proof.
  intros Hi. split_and!; try done. simpl.
  pose proof (PendingHashQueue.wf_capacity _ (PendingHashQueue.good_wf _ _ (inv_queue _ _ Hi))). lia.
Qed.

Lemma handle_event_ok s ev now :
  inv s now → (PendingHashQueue.sequence (queue s) + 2 ≤ u64_max)%Z →
  ∃ s', handle_event s ev now = Some s' ∧ inv s' now ∧ kept s ev s'
    ∧ completions s' = completions s ++ event_reports s ev
    ∧ (PendingHashQueue.sequence (queue s') ≤ PendingHashQueue.sequence (queue s) + 2)%Z.
Proof.
  intros Hinv Hseq. assert (0 ≤ PendingHashQueue.sequence (queue s))%Z as Hpos.
  { apply (PendingHashQueue.wf_seq _ (PendingHashQueue.good_wf _ _ (inv_queue _ _ Hinv))). }
  destruct ev as [hash tk cl| |id n o cb|id cb| | |]; simpl.
  - destruct (input_closed s) eqn:Hic; [exists s; rewrite app_nil_r; split_and!; try done; lia|].
    destruct (enqueue_inv s hash tk cl now Hinv Hseq) as (s' & -> & ? & ? & ? & ?).
    exists s'. rewrite app_nil_r. split_and!; done.
  - eexists. rewrite app_nil_r. split; [done|]. split_and!; try done; [|simpl; lia]. by destruct Hinv.
  - destruct (task_hashes s !! id) as [h|] eqn:Hid.
    + destruct (job_result_ok s id h n o cb now Hinv Hid ltac:(lia)) as (? & s' & _ & _ & -> & ? & ? & ? & ? & _).
      exists s'. split_and!; try done. lia.
    + exists s. rewrite app_nil_r. split_and!; try done. lia.
  - destruct (task_hashes s !! id) as [h|] eqn:Hid.
    + destruct (job_result_ok s id h 0 (Completed FetchFailed) cb now Hinv Hid ltac:(lia))
        as (? & s' & _ & _ & -> & ? & ? & ? & ? & _).
      exists s'. split_and!; try done. lia.
    + exists s. rewrite app_nil_r. split_and!; try done. lia.
  - exists s. rewrite app_nil_r. split_and!; try done. lia.
  - destruct (inv_queue _ _ Hinv) as [Hw Ht Hfd].
    destruct (PendingHashQueue.queue_expire_spec (queue s) now Hw) as (r & q & -> & Hwq & Heq & _ & (F1 & F2 & F3 & F4)).
    assert (inv (set_queue s q) now) as Hi1.
    { apply inv_set_queue; try done.
      - split; try done; [|by rewrite F4]. intros h e. rewrite Heq. intros [He0 _]%map_lookup_filter_Some. by eapply Ht.
      - intros h Hh. rewrite Heq. unfold PendingHashQueue.live. by rewrite map_lookup_filter, (inv_disjoint _ _ Hinv h Hh). }
    eexists; split; [done|]. cbn [fst snd]. rewrite app_nil_r.
    case_bool_decide; (split_and!; [|done|simpl; rewrite ?app_nil_r; done|simpl; lia]); [by apply inv_count|done].
  - eexists. rewrite app_nil_r. split; [done|].
    split_and!; [by apply stop_inv|by eapply stop_kept|done|simpl; lia].
Qed.

(** ** Claims *)

Definition round : Type := (nat → Instant) * event * Instant.

Fixpoint run (s : MetadataScheduler) (rs : list round) : option MetadataScheduler :=
  match rs with
  | [] => Some s
  | (clk, ev, now) :: rs => let! s := iteration s clk ev now in run s rs
  end.

(** The completion reports a round must produce: those of its arm, unless the
    loop is left or ends before it. *)
Definition round_reports (s : MetadataScheduler) (clk : nat → Instant) (ev : event) : list MetadataFetchCompletion :=
  if running s then
    match dispatch_ready s clk with
    | Some s1 => if finished s1 then [] else event_reports s1 ev
    | None => []
    end
  else [].

(** Those of a history, in order. *)
Fixpoint reports (s : MetadataScheduler) (rs : list round) : list MetadataFetchCompletion :=
  match rs with
  | [] => []
  | (clk, ev, now) :: rs =>
      round_reports s clk ev ++
      match iteration s clk ev now with Some s' => reports s' rs | None => [] end
  end.

Fixpoint clocked (t : Instant) (rs : list round) : Prop :=
  match rs with
  | [] => True
  | (clk, _, now) :: rs => clock_ok t clk now ∧ clocked now rs
  end.

(** Once the loop is left nothing runs and nothing waits. *)
Definition wound_up (s : MetadataScheduler) : Prop :=
  running s = false → task_hashes s = ∅ ∧ in_flight s = ∅ ∧ entries (queue s) = ∅.

Definition bounds (s : MetadataScheduler) : nat * nat := (max_concurrent s, PendingHashQueue.capacity (queue s)).

Lemma iteration_ok s t clk ev now :
  inv s t → wound_up s → clock_ok t clk now → (PendingHashQueue.sequence (queue s) + 2 ≤ u64_max)%Z →
  ∃ s', iteration s clk ev now = Some s' ∧ inv s' now ∧ wound_up s' ∧ bounds s' = bounds s
    ∧ completions s' = completions s ++ round_reports s clk ev
    ∧ (PendingHashQueue.sequence (queue s') ≤ PendingHashQueue.sequence (queue s) + 2)%Z.
Proof.
  intros Hinv Hw Hclk Hseq. unfold iteration, round_reports. destruct (running s) eqn:Hrun.
  2:{ exists s. rewrite app_nil_r. split_and!; try done; [|lia]. eapply inv_later; [done|].
      destruct Hclk as (? & _ & Hn). specialize (Hn 0). lia. }
  destruct (dispatch_ready_ok s t clk now Hinv Hclk) as (s1 & -> & Hi1 & (A1 & _ & A3 & A4) & Hc1 & Hs1).
  destruct (finished s1) eqn:Hfin.
  - eexists. split; [done|]. pose proof (stop_kept _ _ Hi1) as (B1 & _ & _ & B4). rewrite app_nil_r.
    pose proof (PendingHashQueue.wf_seq _ (PendingHashQueue.good_wf _ _ (inv_queue _ _ Hinv))).
    split_and!; [by apply stop_inv|done|unfold bounds; congruence|done|simpl; lia].
  - destruct (handle_event_ok s1 ev now Hi1 ltac:(lia)) as (s2 & Hev & Hi2 & (B1 & _ & B3 & B4) & Hc2 & Hs2).
    exists s2. split_and!; try done; [|unfold bounds; congruence|congruence|lia].
    intros Hstop. unfold mode in *. destruct ev; try (exfalso; congruence). simpl in Hev. by injection Hev as <-.
Qed.

(** Time of the last round. *)
Definition end_time (t : Instant) (rs : list round) : Instant := foldl (λ _ r, r.2) t rs.

Lemma scheduler_run_ok s t rs :
  inv s t → wound_up s → clocked t rs →
  (PendingHashQueue.sequence (queue s) + 2 * Z.of_nat (length rs) ≤ u64_max)%Z →
  ∃ s', run s rs = Some s' ∧ inv s' (end_time t rs) ∧ wound_up s' ∧ bounds s' = bounds s
    ∧ completions s' = completions s ++ reports s rs.
Proof.
  revert s t. induction rs as [|[[clk ev] now] rs IH]; intros s t Hinv Hw Hc Hseq.
  { exists s. rewrite app_nil_r. done. }
  destruct Hc as [Hclk Hc]. simpl in Hseq. cbn [run reports].
  destruct (iteration_ok s t clk ev now Hinv Hw Hclk ltac:(lia)) as (s1 & -> & Hi1 & Hw1 & Hb1 & Hc1 & Hs1).
  destruct (IH s1 now Hi1 Hw1 Hc ltac:(lia)) as (s' & Hr & Hi' & Hw' & Hb' & Hc').
  exists s'. split_and!; try done; [congruence|]. by rewrite Hc', Hc1, <-app_assoc.
Qed.

Lemma scheduler_new_inv qs c opts lk t : (0 ≤ mo_retry_history_capacity opts)%Z → inv (new qs c opts lk) t.
Proof.
  intros Hcap. split; simpl; try done.
  - apply PendingHashQueue.queue_new_good.
  - by apply RetryHistory.history_empty_wf.
  - intros h. split; [by intros [? ?]|by intros [? ?]].
  - intros i [? ?]. done.
  - rewrite map_size_empty. lia.
Qed.

(** C4: however hashes arrive, jobs end or panic, timers fire, the input ends
    or a shutdown comes, the scheduler never panics or loops; at most
    [max_concurrent] jobs run; a hash is in flight exactly when one task, and
    only one, works on it; a hash is never both queued and in flight; the
    queue respects its capacity; and once the loop is left no task, no hash in
    flight and no queued hash remains. *)
Theorem scheduler_safe (queue_size concurrency : nat) (options : MetadataOptions) (lookup : bool)
    (t : Instant) (rs : list round) :
  (0 ≤ mo_retry_history_capacity options)%Z → clocked t rs → (2 * Z.of_nat (length rs) ≤ u64_max)%Z →
  ∃ s, run (new queue_size concurrency options lookup) rs = Some s
    ∧ size (task_hashes s) ≤ concurrency `max` 1
    ∧ (∀ h, is_Some (in_flight s !! h) ↔ ∃ id, task_hashes s !! id = Some h)
    ∧ (∀ i j h, task_hashes s !! i = Some h → task_hashes s !! j = Some h → i = j)
    ∧ (∀ h, is_Some (in_flight s !! h) → entries (queue s) !! h = None)
    ∧ size (entries (queue s)) ≤ queue_size `max` 1
    ∧ (running s = false → task_hashes s = ∅ ∧ in_flight s = ∅ ∧ entries (queue s) = ∅).
Proof.
  intros Hcap Hc Hlen. destruct (scheduler_run_ok (new queue_size concurrency options lookup) t rs)
    as (s & Hr & Hi & Hw & [= L1 L2] & _); [by apply scheduler_new_inv|done|done|simpl; lia|].
  exists s. split_and!; try done; try apply Hi.
  - pose proof (inv_limit _ _ Hi). lia.
  - pose proof (PendingHashQueue.wf_size _ (PendingHashQueue.good_wf _ _ (inv_queue _ _ Hi))). lia.
Qed.

(** C23: the completion callback receives exactly the reports of the jobs that
    ended with a completion while it was set, in order and each once: nothing
    for gate rejections and deferrals, a failure for a panicked task, and
    nothing for tasks that are not running or were aborted by a shutdown. *)
Theorem completions_exactly_once (queue_size concurrency : nat) (options : MetadataOptions)
    (lookup : bool) (t : Instant) (rs : list round) :
  (0 ≤ mo_retry_history_capacity options)%Z → clocked t rs → (2 * Z.of_nat (length rs) ≤ u64_max)%Z →
  ∃ s, run (new queue_size concurrency options lookup) rs = Some s
    ∧ completions s = reports (new queue_size concurrency options lookup) rs.
Proof.
  intros Hcap Hc Hlen. destruct (scheduler_run_ok (new queue_size concurrency options lookup) t rs)
    as (s & Hr & _ & _ & _ & Hcs); [by apply scheduler_new_inv|done|done|simpl; lia|]. by exists s.
Qed.

(** C39: when a running job ends, its task and its hash leave the tables and
    nothing else does.  A rejected or accepted hash is forgotten, in the queue
    and in the history.  Any other outcome is recorded exactly as [retried]
    says: nothing changes when retries are off or the retry's own lifetime is
    over; a full history refuses unknown hashes; otherwise the history holds
    the new failure count and due time under the old lifetime, and the hash is
    queued again, with its peers and sources, exactly when attempts are left,
    it is due within its lifetime, and the queue and the share of retries have
    room; it is then due no sooner than 100 ms from now. *)
Theorem job_result_correct (s : MetadataScheduler) (id attempts : nat) (h : string) (o : JobOutcome) (cb : bool)
    (now : Instant) :
  inv s now → task_hashes s !! id = Some h → (PendingHashQueue.sequence (queue s) + 1 ≤ u64_max)%Z →
  ∃ st s', in_flight s !! h = Some st ∧ info_hash (entry st) = h
    ∧ handle_event s (TaskJoined id attempts o cb) now = Some s' ∧ inv s' now
    ∧ task_hashes s' = delete id (task_hashes s) ∧ in_flight s' = delete h (in_flight s)
    ∧ completions s' = completions s ++ reported h attempts o cb
    ∧ concluded s (entry st) o now s'.
Proof.
  intros Hinv Hid Hseq. simpl. rewrite Hid.
  destruct (job_result_ok s id h attempts o cb now Hinv Hid Hseq) as (st & s' & ? & ? & ? & ? & _ & ? & _ & ? & ? & ?).
  by exists st, s'.
Qed.
End scheduler.

Definition ex_rounds : list round :=
  [(λ _, 0, HashReceived (PendingHashQueue.ex_event "aa" 1 1) 0 false, 1);
   (λ _, 2, HashReceived (PendingHashQueue.ex_event "bb" 2 2) 0 false, 2);
   (λ _, 26000000, DispatchTick, 26000000);
   (λ _, 26000001, HashReceived (PendingHashQueue.ex_event "aa" 3 26000000) 0 false, 26000001);
   (λ _, 26000002, TaskJoined 0 3 (Completed FetchFailed) true, 26000003)]%Z.

Lemma ex_rounds_clocked : clocked 0 ex_rounds.
Proof. simpl. unfold clock_ok. split_and!; try done; lia. Qed.

Lemma scheduler_safe_witness :
  ∃ s, run (new 8 1 MetadataOptions_default true) ex_rounds = Some s
    ∧ size (task_hashes s) ≤ 1 `max` 1
    ∧ (∀ h, is_Some (in_flight s !! h) ↔ ∃ id, task_hashes s !! id = Some h)
    ∧ (∀ i j h, task_hashes s !! i = Some h → task_hashes s !! j = Some h → i = j)
    ∧ (∀ h, is_Some (in_flight s !! h) → entries (queue s) !! h = None)
    ∧ size (entries (queue s)) ≤ 8 `max` 1
    ∧ (running s = false → task_hashes s = ∅ ∧ in_flight s = ∅ ∧ entries (queue s) = ∅).
Proof.
  apply (scheduler_safe 8 1 MetadataOptions_default true 0 ex_rounds).
  - simpl. lia.
  - exact ex_rounds_clocked.
  - vm_compute. discriminate.
Defined.

Lemma completions_exactly_once_witness :
  ∃ s, run (new 8 1 MetadataOptions_default true) ex_rounds = Some s
    ∧ completions s = reports (new 8 1 MetadataOptions_default true) ex_rounds.
Proof.
  apply (completions_exactly_once 8 1 MetadataOptions_default true 0 ex_rounds).
  - simpl. lia.
  - exact ex_rounds_clocked.
  - vm_compute. discriminate.
Defined.

(** On this history the newer hash is dispatched first, and its failure is
    the one report. *)
Lemma ex_reports :
  reports (new 8 1 MetadataOptions_default true) ex_rounds = [mkCompletion "bb" FetchFailed 3].
Proof. vm_compute. reflexivity. Qed.

Definition ex_running : MetadataScheduler :=
  default (new 1 1 MetadataOptions_default true)
    (run (new 8 1 MetadataOptions_default true) (take 4 ex_rounds)).

Lemma job_result_correct_witness :
  ∃ st s', in_flight ex_running !! "bb"%string = Some st ∧ info_hash (entry st) = "bb"%string
    ∧ handle_event ex_running (TaskJoined 0 3 (Completed FetchFailed) true) 26000003 = Some s' ∧ inv s' 26000003
    ∧ task_hashes s' = delete 0 (task_hashes ex_running) ∧ in_flight s' = delete "bb"%string (in_flight ex_running)
    ∧ completions s' = completions ex_running ++ reported "bb" 3 (Completed FetchFailed) true
    ∧ concluded ex_running (entry st) (Completed FetchFailed) 26000003 s'.
Proof.
  apply (job_result_correct ex_running 0 3 "bb" (Completed FetchFailed) true 26000003).
  - destruct (scheduler_run_ok (new 8 1 MetadataOptions_default true) 0 (take 4 ex_rounds)) as (s & Hr & Hi & _).
    + apply scheduler_new_inv. simpl. lia.
    + done.
    + pose proof ex_rounds_clocked as Hc. simpl in *. tauto.
    + vm_compute. discriminate.
    + unfold ex_running. rewrite Hr. eapply inv_later; [exact Hi|done].
  - vm_compute. reflexivity.
  - vm_compute. discriminate.
Defined.

(** The failed hash is queued again, due after the initial delay of a minute. *)
Example ex_retried :
  (λ s, (λ e, (is_retry e, ready_at e)) <$> entries (queue s) !! "bb"%string)
    <$> handle_event ex_running (TaskJoined 0 3 (Completed FetchFailed) true) 26000003
  = Some (Some (true, 26000003 + from_secs 60)%Z).
Proof. vm_compute. reflexivity. Qed.

(** A job that has closed its channel takes no more peers, a full channel
    neither; the hash's sources are merged all the same. *)
Example ex_live_peer closed :
  (λ s, (λ st, (length (tx_buffer (peer_tx st)), tx_open (peer_tx st), size (scheduled_peers st), length (peers (entry st))))
          <$> in_flight s !! "bb"%string)
    <$> handle_event ex_running (HashReceived (PendingHashQueue.ex_event "bb" 9 26000002) 0 closed) 26000003
  = Some (Some (if closed then (0, false, 1, 2) else (1, true, 2, 2))).
Proof. destruct closed; vm_compute; reflexivity. Qed.

(** The input ends while a job runs: the loop goes on until the job is joined
    and its retry is gone, and a shutdown leaves it at once. *)
Example ex_winding_up :
  (λ rs, (λ s, (running s, size (task_hashes s), size (entries (queue s)), length (completions s)))
      <$> run ex_running rs) <$>
    [[(λ _, 26000002, InputClosed, 26000002); (λ _, 26000003, DispatchTick, 26000003)];
     [(λ _, 26000002, InputClosed, 26000002); (λ _, 26000003, TaskJoined 0 1 (Completed Accepted) true, 26000003);
      (λ _, 26000004, TaskJoined 1 1 GateRejected true, 26000004); (λ _, 26000005, DispatchTick, 26000005)];
     [(λ _, 26000002, Shutdown, 26000002); (λ _, 26000003, TaskJoined 0 1 (Completed Accepted) true, 26000003)]]%Z
  = [Some (true, 1, 1, 0); Some (false, 0, 0, 1); Some (false, 0, 0, 0)].
Proof. vm_compute. reflexivity. Qed.
End MetadataScheduler.
