(* ===== verification/Race.v ===== *)
(** * The peer race of a metadata job ([race_peer_fetches],
    [queue_race_candidate] and [process_hash] of [src/scheduler.rs])

    The race is an event loop: every iteration first tops up the running
    fetches, then waits for one of the [select!] arms.  Here the arms are
    events, [turn] is one iteration, and which event comes next is left to
    the environment. *)

From S2P Require Import Prelude Net Types HashQueue Scheduler.

(** Where a candidate came from. *)
Inductive CandidateSource := Initial | Live | Lookup.
#[global] Instance CandidateSource_eq_dec : EqDecision CandidateSource.
Proof. solve_decision. Defined.

(** [MetadataFetchOutcome], the metadata itself left abstract. *)
Inductive MetadataFetchOutcome {M : Type} := SkippedCached | Failed | Fetched (metadata : M).
Arguments MetadataFetchOutcome : clear implicits.

Module Race.
Section race.
Context {M : Type}.

Record Race := mk {
  tasks : list PeerCandidate;
  seen_peers : gset SocketAddr;
  pending_peers : list (PeerCandidate * CandidateSource);
  attempts_reserved : nat;
  lookup_open : bool;
  lookup_submitted : bool;
  lookup_deadline_elapsed : bool;
  accepting_live_peers : bool;
  (** bookkeeping of the model: addresses whose fetch was started, and
      fetches that ended after a real attempt *)
  started : list SocketAddr;
  attempted : nat;
}.

Definition queue_race_candidate (r : Race) (peer : PeerCandidate) (src : CandidateSource) : Race :=
  if bool_decide (size (seen_peers r) < MAX_METADATA_CANDIDATES_PER_HASH)
     && bool_decide (pc_addr peer ∉ seen_peers r)
  then mk (tasks r) ({[pc_addr peer]} ∪ seen_peers r) (pending_peers r ++ [(peer, src)])
          (attempts_reserved r) (lookup_open r) (lookup_submitted r) (lookup_deadline_elapsed r)
          (accepting_live_peers r) (started r) (attempted r)
  else r.

Definition new (peers : list PeerCandidate) (has_lookup : bool) : Race :=
  foldl (λ r p, queue_race_candidate r p Initial)
    (mk [] ∅ [] 0 has_lookup (negb has_lookup) false true [] 0) peers.

(** [while attempts_reserved < MAX_METADATA_PEERS_PER_HASH { .. }] *)
Fixpoint fill (fuel : nat) (r : Race) : Race :=
  match fuel with
  | 0 => r
  | S fuel =>
      if bool_decide (attempts_reserved r < MAX_METADATA_PEERS_PER_HASH) then
        match pending_peers r with
        | [] => r
        | (peer, _) :: rest =>
            fill fuel (mk (tasks r ++ [peer]) (seen_peers r) rest (attempts_reserved r + 1)
                         (lookup_open r) (lookup_submitted r) (lookup_deadline_elapsed r)
                         (accepting_live_peers r) (started r ++ [pc_addr peer]) (attempted r))
        end
      else r
  end.

Definition set_flags (r : Race) (lo ls ld al : bool) : Race :=
  mk (tasks r) (seen_peers r) (pending_peers r) (attempts_reserved r) lo ls ld al
     (started r) (attempted r).

(** The part of an iteration before [select!]; [true] when the race gives up. *)
Definition prepare (r : Race) : Race * bool :=
  let r := fill (length (pending_peers r)) r in
  let r := if bool_decide (MAX_METADATA_CANDIDATES_PER_HASH ≤ size (seen_peers r))
           then set_flags r false (lookup_submitted r) (lookup_deadline_elapsed r) false else r in
  (r, bool_decide (tasks r = [])
      && (bool_decide (MAX_METADATA_PEERS_PER_HASH ≤ attempts_reserved r)
          || (bool_decide (pending_peers r = []) && negb (accepting_live_peers r)
              && negb (lookup_open r)))).

Inductive event :=
  | TaskDone (i : nat) (outcome : MetadataFetchOutcome M)
  | TaskPanicked (i : nat)
  | LivePeer (peer : option PeerCandidate)
  | LookupPeer (peer : option SocketAddr) (now : Instant)
  | LookupSubmitted
  | LookupDeadline
  | IdleGrace.

Inductive progress :=
  | Continue (r : Race)
  | Return (result : option (PeerCandidate * M)) (r : Race).

Definition drop_task (r : Race) (i : nat) (reserved att : nat) : Race :=
  mk (take i (tasks r) ++ drop (S i) (tasks r)) (seen_peers r) (pending_peers r) reserved
     (lookup_open r) (lookup_submitted r) (lookup_deadline_elapsed r) (accepting_live_peers r)
     (started r) att.

(** A [select!] arm; [None] when its guard is false. *)
Definition select (r : Race) (ev : event) : option progress :=
  match ev with
  | TaskDone i outcome =>
      let! peer := tasks r !! i in
      match outcome with
      | SkippedCached => Some (Continue (drop_task r i (attempts_reserved r - 1) (attempted r)))
      | Failed => Some (Continue (drop_task r i (attempts_reserved r) (attempted r + 1)))
      | Fetched m => Some (Return (Some (peer, m)) (drop_task r i (attempts_reserved r) (attempted r + 1)))
      end
  | TaskPanicked i =>
      let! _ := tasks r !! i in
      Some (Continue (drop_task r i (attempts_reserved r) (attempted r + 1)))
  | LivePeer peer =>
      if accepting_live_peers r then
        Some (Continue match peer with
                       | Some p => queue_race_candidate r p Live
                       | None => set_flags r (lookup_open r) (lookup_submitted r)
                                   (lookup_deadline_elapsed r) false
                       end)
      else None
  | LookupPeer peer now =>
      if lookup_open r then
        Some (Continue match peer with
                       | Some a => queue_race_candidate r (mkPeer a now) Lookup
                       | None => set_flags r false (lookup_submitted r)
                                   (lookup_deadline_elapsed r) (accepting_live_peers r)
                       end)
      else None
  | LookupSubmitted =>
      if lookup_open r && negb (lookup_submitted r)
      then Some (Continue (set_flags r (lookup_open r) true (lookup_deadline_elapsed r)
                             (accepting_live_peers r)))
      else None
  | LookupDeadline =>
      if lookup_open r && negb (lookup_deadline_elapsed r)
      then Some (Continue (set_flags r (lookup_open r) (lookup_submitted r) true
                             (accepting_live_peers r)))
      else None
  | IdleGrace =>
      if bool_decide (tasks r = []) && bool_decide (pending_peers r = []) && negb (lookup_open r)
      then Some (Return None r) else None
  end.

(** One iteration; events whose guard is false do not fire. *)
Definition turn (r : Race) (ev : event) : option progress :=
  let '(r, giving_up) := prepare r in
  if giving_up then Some (Return None r) else select r ev.

(** Reachable states, and the outcomes they may return. *)
Inductive reach (peers : list PeerCandidate) (lk : bool) : Race → Prop :=
  | reach_new : reach peers lk (new peers lk)
  | reach_turn r ev r' : reach peers lk r → turn r ev = Some (Continue r') → reach peers lk r'.

(** ** Invariant *)

Record inv (r : Race) : Prop := {
  inv_reserved : attempts_reserved r = length (tasks r) + attempted r;
  inv_limit : attempts_reserved r ≤ MAX_METADATA_PEERS_PER_HASH;
  inv_seen : size (seen_peers r) ≤ MAX_METADATA_CANDIDATES_PER_HASH;
  inv_once : NoDup (started r ++ ((λ p, pc_addr p.1) <$> pending_peers r));
  inv_known : ∀ a, a ∈ started r ++ ((λ p, pc_addr p.1) <$> pending_peers r) → a ∈ seen_peers r;
  inv_tasks : ∀ p, p ∈ tasks r → pc_addr p ∈ started r;
}.

Lemma queue_candidate_inv r p src : inv r → inv (queue_race_candidate r p src).
Proof.
  intros [I1 I2 I3 I4 I5 I6]. unfold queue_race_candidate.
  case_bool_decide as Hsz; simpl; [|by split]. case_bool_decide as Hni; simpl; [|by split].
  split; simpl; try done.
  - rewrite size_union by set_solver. rewrite size_singleton. lia.
  - rewrite fmap_app, app_assoc. apply NoDup_app. split_and!; [done| |apply NoDup_singleton].
    intros x Hx ->%list_elem_of_singleton. by apply Hni, I5.
  - intros a. rewrite fmap_app, app_assoc, elem_of_app. intros [Ha|Ha].
    + apply elem_of_union_r. by apply I5.
    + apply list_elem_of_singleton in Ha as ->. set_solver.
Qed.

Lemma race_new_inv peers lk : inv (new peers lk).
Proof.
  unfold new. set (r0 := mk _ _ _ _ _ _ _ _ _ _).
  assert (inv r0) as H0.
  { split; [simpl; lia|simpl; lia|unfold r0; cbn [seen_peers]; rewrite size_empty; lia|apply NoDup_nil_2|..];
      by intros ? ?%elem_of_nil. }
  clearbody r0. revert r0 H0. induction peers as [|p ps IH]; intros r0 H0; [done|].
  simpl. by apply IH, queue_candidate_inv.
Qed.

Lemma fill_inv n r : inv r → inv (fill n r).
Proof.
  revert r; induction n as [|n IH]; intros r Hi; [done|]. simpl. case_bool_decide as Hlt; [|done].
  destruct (pending_peers r) as [|[p src] rest] eqn:Hp; [done|].
  destruct Hi as [I1 I2 I3 I4 I5 I6]. rewrite Hp in *. apply IH. split; simpl.
  - rewrite length_app. simpl. lia.
  - lia.
  - done.
  - by rewrite <-app_assoc.
  - by rewrite <-app_assoc.
  - intros q [Hq| ->%list_elem_of_singleton]%elem_of_app; [|set_solver]. apply elem_of_app. left. auto.
Qed.

Lemma set_flags_inv r a b c d : inv r → inv (set_flags r a b c d).
Proof. intros []. by split. Qed.

Lemma prepare_inv r : inv r → inv (prepare r).1.
Proof.
  intros Hi. unfold prepare. pose proof (fill_inv (length (pending_peers r)) r Hi) as Hf. simpl.
  case_bool_decide; [by apply set_flags_inv|done].
Qed.

Lemma drop_length {A} (l : list A) i x : l !! i = Some x → length l = S (length (take i l ++ drop (S i) l)).
Proof.
  intros Hx. apply lookup_lt_Some in Hx. rewrite length_app, length_take, length_drop. lia.
Qed.

Lemma drop_task_inv r i p (skipped : bool) :
  inv r → tasks r !! i = Some p →
  inv (drop_task r i (if skipped then attempts_reserved r - 1 else attempts_reserved r)
                     (if skipped then attempted r else attempted r + 1)).
Proof.
  intros [I1 I2 I3 I4 I5 I6] Hp. pose proof (drop_length _ _ _ Hp). split; simpl; try done.
  - destruct skipped; lia.
  - destruct skipped; lia.
  - intros q Hq. apply I6. rewrite <-(take_drop i (tasks r)). apply elem_of_app in Hq as [?|Hq].
    + apply elem_of_app. by left.
    + apply elem_of_app. right. rewrite (drop_S _ _ _ Hp). by constructor.
Qed.

Lemma turn_inv r ev pr :
  inv r → turn r ev = Some pr → match pr with Continue r' => inv r' | Return _ r' => inv r' end.
Proof.
  intros Hi. unfold turn. pose proof (prepare_inv r Hi) as Hp. destruct (prepare r) as [r1 g]. simpl in Hp.
  destruct g; [by intros [= <-]|]. destruct ev; simpl.
  - destruct (tasks r1 !! i) as [p|] eqn:Hpi; [|done]. destruct outcome; intros [= <-].
    + exact (drop_task_inv r1 i p true Hp Hpi).
    + exact (drop_task_inv r1 i p false Hp Hpi).
    + exact (drop_task_inv r1 i p false Hp Hpi).
  - destruct (tasks r1 !! i) as [p|] eqn:Hpi; [|done]. intros [= <-]. exact (drop_task_inv r1 i p false Hp Hpi).
  - destruct (accepting_live_peers r1); [|done]. intros [= <-].
    destruct peer; [by apply queue_candidate_inv|by apply set_flags_inv].
  - destruct (lookup_open r1); [|done]. intros [= <-].
    destruct peer; [by apply queue_candidate_inv|by apply set_flags_inv].
  - destruct (_ && _); [|done]. intros [= <-]. by apply set_flags_inv.
  - destruct (_ && _); [|done]. intros [= <-]. by apply set_flags_inv.
  - destruct (_ && _); [|done]. by intros [= <-].
Qed.

Lemma reach_inv peers lk r : reach peers lk r → inv r.
Proof.
  induction 1 as [|r ev r' _ IH Ht]; [apply race_new_inv|]. exact (turn_inv r ev _ IH Ht).
Qed.

(** C12: in every reachable state of the race, and in the state it returns
    from, at most 12 fetches run at once, running fetches and ended real
    attempts together never exceed 12 (a cache skip gives its reservation
    back), at most 64 candidates were considered, and no peer was ever
    fetched from twice. *)
Theorem race_attempts_bounded (peers : list PeerCandidate) (lk : bool) (r : Race) (ev : event) pr :
  reach peers lk r → turn r ev = Some pr →
  let r' := match pr with Continue r' => r' | Return _ r' => r' end in
  length (tasks r') + attempted r' ≤ MAX_METADATA_PEERS_PER_HASH
  ∧ size (seen_peers r') ≤ MAX_METADATA_CANDIDATES_PER_HASH
  ∧ NoDup (started r') ∧ (∀ p, p ∈ tasks r' → pc_addr p ∈ started r').
Proof.
  intros Hr Ht r'. pose proof (turn_inv r ev pr (reach_inv _ _ _ Hr) Ht) as Hi.
  assert (inv r') as [I1 I2 I3 I4 I5 I6] by (subst r'; by destruct pr).
  apply NoDup_app in I4 as [I4 _]. split_and!; try done. lia.
Qed.

(** ** The race ends *)

(** Work left when no new candidate arrives. *)
Definition measure (r : Race) : nat :=
  length (tasks r) + length (pending_peers r) + (if lookup_open r then 1 else 0)
  + (if lookup_submitted r then 0 else 1) + (if lookup_deadline_elapsed r then 0 else 1)
  + (if accepting_live_peers r then 1 else 0).

(** Events that bring no new candidate. *)
Definition quiet (ev : event) : bool :=
  match ev with LivePeer (Some _) | LookupPeer (Some _) _ => false | _ => true end.

Lemma fill_measure n r : measure (fill n r) = measure r.
Proof.
  revert r; induction n as [|n IH]; intros r; [done|]. simpl. case_bool_decide; [|done].
  destruct (pending_peers r) as [|[p src] rest] eqn:Hp; [done|]. rewrite IH.
  unfold measure. simpl. rewrite Hp, length_app. simpl. lia.
Qed.

Lemma prepare_measure r : measure (prepare r).1 ≤ measure r.
Proof.
  unfold prepare. simpl. rewrite <-(fill_measure (length (pending_peers r)) r). case_bool_decide; [|done].
  unfold measure. simpl. destruct (lookup_open _), (accepting_live_peers _); lia.
Qed.

Lemma quiet_decreases r ev r' : quiet ev → turn r ev = Some (Continue r') → measure r' < measure r.
Proof.
  intros Hq. unfold turn. pose proof (prepare_measure r) as Hm. destruct (prepare r) as [r1 g]. simpl in Hm.
  destruct g; [done|]. intros Hs. enough (measure r' < measure r1) by lia. revert Hs. destruct ev; simpl.
  - destruct (tasks r1 !! i) as [p|] eqn:Hp; [|done]. pose proof (drop_length _ _ _ Hp).
    destruct outcome; intros [= <-]; unfold measure; simpl; lia.
  - destruct (tasks r1 !! i) as [p|] eqn:Hp; [|done]. pose proof (drop_length _ _ _ Hp).
    intros [= <-]. unfold measure. simpl. lia.
  - destruct peer; [done|]. destruct (accepting_live_peers r1) eqn:Ha; [|done]. intros [= <-].
    unfold measure. simpl. rewrite Ha. lia.
  - destruct peer; [done|]. destruct (lookup_open r1) eqn:Ha; [|done]. intros [= <-].
    unfold measure. simpl. rewrite Ha. lia.
  - destruct (lookup_open r1) eqn:Hl; [|done]. destruct (lookup_submitted r1) eqn:Ha; [done|]. intros [= <-].
    unfold measure. simpl. rewrite Ha, Hl. lia.
  - destruct (lookup_open r1) eqn:Hl; [|done]. destruct (lookup_deadline_elapsed r1) eqn:Ha; [done|]. intros [= <-].
    unfold measure. simpl. rewrite Ha, Hl. lia.
  - destruct (_ && _); done.
Qed.

Lemma fill_done n r : length (pending_peers r) ≤ n →
  attempts_reserved (fill n r) < MAX_METADATA_PEERS_PER_HASH → pending_peers (fill n r) = [].
Proof.
  revert r; induction n as [|n IH]; intros r Hn Hlt; simpl in *.
  { by apply nil_length_inv; lia. }
  case_bool_decide; [|lia]. destruct (pending_peers r) as [|[p src] rest] eqn:Hp; [done|].
  apply IH; [|done]. simpl. simpl in Hn. lia.
Qed.

(** Without new candidates some arm can always fire: a running fetch, the end
    of the lookup, or the idle timer. *)
Lemma race_progress r : inv r → ∃ ev pr, quiet ev ∧ turn r ev = Some pr.
Proof.
  intros Hi. unfold turn. destruct (prepare r) as [r1 g] eqn:Hp. destruct g.
  { exists IdleGrace, (Return None r1). done. }
  destruct (tasks r1) as [|p ts] eqn:Ht.
  - destruct (lookup_open r1) eqn:Hl.
    { exists (LookupPeer None 0%Z). simpl. rewrite Hl. eauto. }
    exists IdleGrace. simpl. rewrite Ht, Hl. simpl.
    assert (pending_peers r1 = []) as ->; [|eauto].
    unfold prepare in Hp. injection Hp as Hp1 Hg.
    assert (pending_peers r1 = pending_peers (fill (length (pending_peers r)) r)
      ∧ attempts_reserved r1 = attempts_reserved (fill (length (pending_peers r)) r)) as [-> Hres].
    { rewrite <-Hp1. destruct (bool_decide (MAX_METADATA_CANDIDATES_PER_HASH ≤ _)); split; reflexivity. }
    apply fill_done; [done|]. rewrite Hp1, Ht in Hg. rewrite bool_decide_eq_true_2 in Hg by done.
    apply orb_false_iff in Hg as [Hg%bool_decide_eq_false _]. lia.
  - exists (TaskDone 0 Failed). simpl. rewrite Ht. eauto.
Qed.

(** A run of the race along the events that fire. *)
Fixpoint runs (r : Race) (evs : list event) : option progress :=
  match evs with
  | [] => Some (Continue r)
  | ev :: evs =>
      let! p := turn r ev in
      match p with
      | Continue r => runs r evs
      | Return o r => Some (Return o r)
      end
  end.

(** C26: the race always ends once candidates stop arriving: it never gets
    stuck (some arm can fire in every reachable state), and any sequence of
    fired arms that brings no new candidate returns within [measure r] steps,
    which is at most 64 candidates plus the four flags. *)
Theorem race_terminates (peers : list PeerCandidate) (lk : bool) (r : Race) :
  reach peers lk r →
  (∃ ev pr, quiet ev ∧ turn r ev = Some pr)
  ∧ ∀ evs, Forall (λ ev, Is_true (quiet ev)) evs → measure r < length evs →
      match runs r evs with Some (Continue _) => False | _ => True end.
Proof.
  intros Hr. split; [apply race_progress; by eapply reach_inv|]. clear Hr.
  intros evs Hq. revert r. induction Hq as [|ev evs Hev Hq IH]; intros r Hm; [simpl in Hm; lia|].
  simpl. destruct (turn r ev) as [[r'|o r']|] eqn:Ht; try done.
  pose proof (quiet_decreases r ev r' Hev Ht). apply IH. simpl in Hm. lia.
Qed.
End race.
Arguments Race : clear implicits.

Definition ex_peers : list PeerCandidate :=
  [mkPeer (SocketAddrV4 8 8 8 8 1) 0; mkPeer (SocketAddrV4 8 8 8 8 1) 1; mkPeer (SocketAddrV4 9 9 9 9 2) 1].

Lemma race_attempts_bounded_witness :
  ∃ r', turn (M:=nat) (new ex_peers false) (TaskDone 0 SkippedCached) = Some (Continue r')
  ∧ length (tasks r') + attempted r' ≤ MAX_METADATA_PEERS_PER_HASH
  ∧ size (seen_peers r') ≤ MAX_METADATA_CANDIDATES_PER_HASH
  ∧ NoDup (started r') ∧ (∀ p, p ∈ tasks r' → pc_addr p ∈ started r').
Proof.
  eexists. split; [vm_compute; reflexivity|].
  exact (race_attempts_bounded (M:=nat) ex_peers false (new ex_peers false) (TaskDone 0 SkippedCached) _
    (reach_new ex_peers false) ltac:(vm_compute; reflexivity)).
Defined.

Lemma race_terminates_witness :
  (∃ ev pr, quiet (M:=nat) ev ∧ turn (new ex_peers false) ev = Some pr)
  ∧ ∀ evs, Forall (λ ev, Is_true (quiet (M:=nat) ev)) evs → measure (new ex_peers false) < length evs →
      match runs (new ex_peers false) evs with Some (Continue _) => False | _ => True end.
Proof. exact (race_terminates (M:=nat) ex_peers false (new ex_peers false) (reach_new ex_peers false)). Defined.
End Race.

(** ** One job ([process_hash]) *)

Section job.
Context {M : Type}.
(** [hex::decode] *)
Context (hex_decode : string → option (list Z)).

Definition source_counter (src : HashSource) (suffix : string) : string :=
  String.append (match src with
                 | Announce => "metadata_source_announce_"
                 | GetPeers => "metadata_source_get_peers_"
                 | Sample => "metadata_source_sample_"
                 end) suffix.

(** [gate]: the admission callback's answer, if one is installed; [race]: how
    the peer race ends for the decoded hash, with the attempts it counted;
    [deliver]: the torrent callback, if installed, a panic counting as
    [false].  The strings are the counters the job bumps. *)
Definition process_hash (gate : option (string → MetadataAdmission)) (race : list Z → option M * nat)
    (deliver : option (M → bool)) (info_hash : string) (peers : list PeerCandidate) (src : HashSource)
  : JobResult * list string :=
  let admission := match gate with Some g => g info_hash | None => Fetch end in
  match admission with
  | Skip => (mkResult info_hash 0 GateRejected, [])
  | RetryAfter delay => (mkResult info_hash 0 (Deferred delay), [])
  | Fetch =>
      let log := source_counter src "started"
                 :: (if bool_decide (length peers = 0) then ["metadata_hash_only_started"] else []) in
      match hex_decode info_hash with
      | Some bytes =>
          if bool_decide (length bytes = 20) then
            let '(fetched, attempts) := race bytes in
            match fetched with
            | Some metadata =>
                let accepted := match deliver with Some f => f metadata | None => false end in
                (mkResult info_hash attempts (Completed (if accepted then Accepted else DeliveryRejected)),
                 log ++ [source_counter src "succeeded"])
            | None => (mkResult info_hash attempts (Completed FetchFailed),
                       log ++ [source_counter src "failed"])
            end
          else (mkResult info_hash 0 (Completed FetchFailed), log)
      | None => (mkResult info_hash 0 (Completed FetchFailed), log)
      end
  end.

Ltac no_accept :=
  split; [done|intros (_ & ? & ? & ? & ? & ? & ? & ? & ? & ? & _); simplify_eq/=; congruence].

(** A job reports acceptance exactly when the application let it fetch,
    the hash decodes to 20 bytes, the race produced metadata and the
    application took it; it reports attempts only if the race ran. *)
Theorem process_hash_accepts gate race deliver h ps src :
  jr_outcome (process_hash gate race deliver h ps src).1 = Completed Accepted ↔
  (match gate with Some g => g h = Fetch | None => True end)
  ∧ ∃ bytes m n f, hex_decode h = Some bytes ∧ length bytes = 20 ∧ race bytes = (Some m, n)
      ∧ deliver = Some f ∧ f m = true
      ∧ jr_attempts (process_hash gate race deliver h ps src).1 = n.
Proof.
  unfold process_hash. destruct gate as [g|].
  - destruct (g h); simpl; try (split; [done|by intros [? _]]).
    destruct (hex_decode h) as [bytes|]; simpl; [|no_accept].
    case_bool_decide; [|no_accept]. destruct (race bytes) as [[m|] n] eqn:Hr; simpl; [|no_accept].
    destruct deliver as [f|]; simpl; [|no_accept]. destruct (f m) eqn:Hf; simpl; [|no_accept].
    split; [|done]. intros _. split; [done|]. by exists bytes, m, n, f.
  - simpl. destruct (hex_decode h) as [bytes|]; simpl; [|no_accept].
    case_bool_decide; [|no_accept]. destruct (race bytes) as [[m|] n] eqn:Hr; simpl; [|no_accept].
    destruct deliver as [f|]; simpl; [|no_accept]. destruct (f m) eqn:Hf; simpl; [|no_accept].
    split; [|done]. intros _. split; [done|]. by exists bytes, m, n, f.
Qed.
End job.
