(* ===== verification/Bootstrap.v ===== *)
(** * Bootstrapping ([src/bootstrap.rs])

    [BootstrapGate] decides when the crawler contacts bootstrap hosts again,
    [BootstrapSourcePool] picks which resolved endpoints to contact and backs
    off the ones that time out, [resolve_bootstrap_nodes] filters what the
    resolver returns. *)

From S2P Require Import Prelude Net Types.

Local Open Scope Z_scope.

Module BootstrapGate.

Record BootstrapGate := mk { last_bootstrap : option Instant }.

Definition new : BootstrapGate := mk None.

Definition should_bootstrap (g : BootstrapGate) (pool_len : Z) (config : ResolvedCrawlConfig)
    (now : Instant) : bool * BootstrapGate :=
  if cf_bootstrap_max_nodes_per_round config =? 0 then (false, g)
  else if cf_low_watermark config <=? pool_len then (false, g)
  else if match last_bootstrap g with
          | Some last => age now last <? cf_bootstrap_interval config
          | None => false
          end then (false, g)
  else (true, mk (Some now)).

(** A run of the gate over successive readings of the pool length and clock;
    the answer lists the readings at which a round was started. *)
Fixpoint rounds (g : BootstrapGate) (config : ResolvedCrawlConfig) (calls : list (Z * Instant))
  : list (Z * Instant) :=
  match calls with
  | [] => []
  | (len, now) :: calls =>
      let '(ok, g) := should_bootstrap g len config now in
      if ok : bool then (len, now) :: rounds g config calls else rounds g config calls
  end.

(** Every started round is at least the interval after the previous one. *)
Fixpoint spaced (interval : Duration) (last : option Instant) (ts : list Instant) : Prop :=
  match ts with
  | [] => True
  | t :: ts =>
      match last with Some l => interval ≤ age t l | None => True end
      ∧ spaced interval (Some t) ts
  end.

Lemma should_bootstrap_true g len config now g' :
  should_bootstrap g len config now = (true, g') →
  len < cf_low_watermark config ∧ cf_bootstrap_max_nodes_per_round config ≠ 0
  ∧ match last_bootstrap g with
    | Some l => cf_bootstrap_interval config ≤ age now l | None => True end
  ∧ g' = mk (Some now).
Proof.
  unfold should_bootstrap.
  destruct (Z.eqb_spec (cf_bootstrap_max_nodes_per_round config) 0); [done|].
  destruct (Z.leb_spec (cf_low_watermark config) len); [done|].
  destruct (last_bootstrap g) as [l|].
  - destruct (Z.ltb_spec (age now l) (cf_bootstrap_interval config)); [done|].
    intros [= <-]. done.
  - intros [= <-]. done.
Qed.

Lemma should_bootstrap_false g len config now g' :
  should_bootstrap g len config now = (false, g') → g' = g.
Proof. unfold should_bootstrap. repeat case_match; congruence. Qed.

Lemma rounds_spec g config calls :
  spaced (cf_bootstrap_interval config) (last_bootstrap g) (rounds g config calls).*2
  ∧ Forall (λ c, c.1 < cf_low_watermark config) (rounds g config calls)
  ∧ rounds g config calls `sublist_of` calls.
Proof.
  revert g; induction calls as [|[len now] calls IH]; intros g; cbn [rounds].
  { split_and!; [done|constructor|constructor]. }
  destruct (should_bootstrap g len config now) as [[] g'] eqn:E.
  - apply should_bootstrap_true in E as (Hlen & _ & Hage & ->).
    destruct (IH (mk (Some now))) as (Hs & Hw & Hsub).
    split_and!; [split; done| by constructor| by constructor].
  - apply should_bootstrap_false in E as ->. destruct (IH g) as (Hs & Hw & Hsub).
    split_and!; [done..|by constructor].
Qed.

(** The gate starts a bootstrap round only while the candidate pool is
    below the low watermark and at least the configured interval after the
    previous round, over any history of calls; and it does start one at the
    first call at which both hold (with a non-zero round size). *)
Theorem gate_correct (config : ResolvedCrawlConfig) (calls : list (Z * Instant)) (g : BootstrapGate)
    (len : Z) (now : Instant) :
  (spaced (cf_bootstrap_interval config) None (rounds new config calls).*2
   ∧ Forall (λ c, c.1 < cf_low_watermark config) (rounds new config calls))
  ∧ ((should_bootstrap g len config now).1 = true ↔
       cf_bootstrap_max_nodes_per_round config ≠ 0 ∧ len < cf_low_watermark config
       ∧ ∀ l, last_bootstrap g = Some l → cf_bootstrap_interval config ≤ age now l).
Proof.
  split.
  { destruct (rounds_spec new config calls) as (? & ? & _). done. }
  split.
  - destruct (should_bootstrap g len config now) as [ok g'] eqn:E. simpl. intros ->.
    apply should_bootstrap_true in E as (Hlen & Hmax & Hage & _).
    split_and!; [done..|]. intros l Hl. by rewrite Hl in Hage.
  - intros (Hmax & Hlen & Hage). unfold should_bootstrap.
    destruct (Z.eqb_spec (cf_bootstrap_max_nodes_per_round config) 0); [done|].
    destruct (Z.leb_spec (cf_low_watermark config) len); [lia|].
    destruct (last_bootstrap g) as [l|]; [|done].
    specialize (Hage l eq_refl).
    destruct (Z.ltb_spec (age now l) (cf_bootstrap_interval config)); [lia|done].
Qed.

Example gate_default_rounds :
  (rounds new (from_options CrawlOptions_default)
     [(10000, 0); (0, 0); (999, from_secs 299); (999, from_secs 300); (0, from_secs 500)]).*2
  = [0; from_secs 300].
Proof. reflexivity. Qed.

End BootstrapGate.

Module BootstrapSourcePool.

Record BootstrapSourceState := mkState {
  last_attempt : option Instant;
  last_success : option Instant;
  fail_count : Z;
  backoff_until : option Instant;
}.

Definition state_default : BootstrapSourceState := mkState None None 0 None.

Record BootstrapSourcePool := mk {
  hosts : list string;
  states : gmap SocketAddr BootstrapSourceState;
  backoff_base : Duration;
  backoff_max : Duration;
}.

Definition new (hosts : list string) (base mx : Duration) : BootstrapSourcePool :=
  mk hosts ∅ base mx.

Definition set_states (p : BootstrapSourcePool) st : BootstrapSourcePool :=
  mk (hosts p) st (backoff_base p) (backoff_max p).

(** [self.states.entry(addr).or_default()] *)
Definition entry_or_default (p : BootstrapSourcePool) (a : SocketAddr) : BootstrapSourceState :=
  default state_default (states p !! a).

(** The [for addr in candidates] loop of [select]; [inl] is the early return. *)
Fixpoint select_loop (p : BootstrapSourcePool) (candidates : list SocketAddr) (max_nodes : nat)
    (now : Instant) (selected : list SocketAddr) (seen : gset SocketAddr)
    (earliest : option (SocketAddr * Instant))
  : (list SocketAddr + list SocketAddr * option (SocketAddr * Instant)) * BootstrapSourcePool :=
  match candidates with
  | [] => (inr (selected, earliest), p)
  | a :: candidates =>
      if bool_decide (a ∈ seen)
      then select_loop p candidates max_nodes now selected seen earliest
      else
        let seen := {[a]} ∪ seen in
        let state := entry_or_default p a in
        let p := set_states p (<[a := state]> (states p)) in
        match backoff_until state with
        | Some until =>
            if now <? until then
              let earliest :=
                match earliest with
                | Some (_, current) => if until <? current then Some (a, until) else earliest
                | None => Some (a, until)
                end in
              select_loop p candidates max_nodes now selected seen earliest
            else
              let selected := selected ++ [a] in
              if bool_decide (max_nodes ≤ length selected)%nat then (inl selected, p)
              else select_loop p candidates max_nodes now selected seen earliest
        | None =>
            let selected := selected ++ [a] in
            if bool_decide (max_nodes ≤ length selected)%nat then (inl selected, p)
            else select_loop p candidates max_nodes now selected seen earliest
        end
  end.

Definition select (p : BootstrapSourcePool) (candidates : list SocketAddr) (max_nodes : nat)
    (now : Instant) : list SocketAddr * BootstrapSourcePool :=
  match select_loop p candidates max_nodes now [] ∅ None with
  | (inl selected, p) => (selected, p)
  | (inr (selected, earliest), p) =>
      if bool_decide (selected = []) && bool_decide (0 < max_nodes)%nat
      then match earliest with
           | Some (a, _) => (selected ++ [a], p)
           | None => (selected, p)
           end
      else (selected, p)
  end.

Definition mark_attempt (p : BootstrapSourcePool) (a : SocketAddr) (now : Instant)
  : BootstrapSourcePool :=
  let s := entry_or_default p a in
  set_states p (<[a := mkState (Some now) (last_success s) (fail_count s) (backoff_until s)]> (states p)).

Definition mark_success (p : BootstrapSourcePool) (a : SocketAddr) (now : Instant)
  : BootstrapSourcePool :=
  let s := entry_or_default p a in
  set_states p (<[a := mkState (last_attempt s) (Some now) 0 None]> (states p)).

(** [Duration::MAX] and [Duration::saturating_mul] *)
Definition duration_max : Duration := u64_max * 1000000000 + 999999999.
Definition duration_saturating_mul (d : Duration) (n : Z) : Duration := Z.min duration_max (d * n).

Definition backoff_for (p : BootstrapSourcePool) (fail_count : Z) : Duration :=
  let multiplier := Z.shiftl 1 (Z.min (Z.max 0 (fail_count - 1)) 16) in
  Z.min (duration_saturating_mul (backoff_base p) multiplier) (backoff_max p).

Definition mark_timeout (p : BootstrapSourcePool) (a : SocketAddr) (now : Instant)
  : BootstrapSourcePool :=
  let s := entry_or_default p a in
  let fails := Z.min u32_max (fail_count s + 1) in
  set_states p
    (<[a := mkState (last_attempt s) (last_success s) fails (Some (now + backoff_for p fails))]>
       (states p)).

(** ** The selection rule *)

(** First occurrences, in order. *)
Fixpoint first_occurrences (seen : gset SocketAddr) (l : list SocketAddr) : list SocketAddr :=
  match l with
  | [] => []
  | a :: l =>
      if bool_decide (a ∈ seen) then first_occurrences seen l
      else a :: first_occurrences ({[a]} ∪ seen) l
  end.

Definition blocked_until (p : BootstrapSourcePool) (now : Instant) (a : SocketAddr) : option Instant :=
  match backoff_until (entry_or_default p a) with
  | Some until => if now <? until then Some until else None
  | None => None
  end.

Definition ready (p : BootstrapSourcePool) (now : Instant) (a : SocketAddr) : bool :=
  bool_decide (blocked_until p now a = None).

Lemma not_ready_blocked p now a t : blocked_until p now a = Some t → ¬ ready p now a.
Proof. unfold ready. intros -> H%bool_decide_unpack. done. Qed.

(** [select] may add default states, which stand for absent ones. *)
Definition same_states (p p' : BootstrapSourcePool) : Prop :=
  (∀ a, entry_or_default p' a = entry_or_default p a)
  ∧ backoff_base p' = backoff_base p ∧ backoff_max p' = backoff_max p ∧ hosts p' = hosts p.

#[global] Instance same_states_equiv : Equivalence same_states.
Proof.
  split.
  - by intros p.
  - intros p q (H1 & H2 & H3 & H4). split_and!; [intros a; by rewrite H1|done..].
  - intros p q r (H1 & H2 & H3 & H4) (G1 & G2 & G3 & G4).
    split_and!; [intros a; by rewrite G1|congruence..].
Qed.

Lemma same_states_insert p a :
  same_states p (set_states p (<[a := entry_or_default p a]> (states p))).
Proof.
  split_and!; try done. intros b. unfold entry_or_default at 1. simpl.
  destruct (decide (a = b)) as [->|?]; by simplify_map_eq.
Qed.

Lemma same_states_blocked p p' now a : same_states p p' → blocked_until p' now a = blocked_until p now a.
Proof. intros (H & _). unfold blocked_until. by rewrite H. Qed.

Lemma same_states_ready p p' now (l : list SocketAddr) :
  same_states p p' → filter (λ a, ready p' now a) l = filter (λ a, ready p now a) l.
Proof.
  intros Hs. apply list_filter_iff. intros a. unfold ready. by rewrite (same_states_blocked p p').
Qed.

(** [earliest_backoff] is the first of the least deadlines seen so far. *)
Definition earliest_ok (p : BootstrapSourcePool) (now : Instant) (blocked : list SocketAddr)
    (e : option (SocketAddr * Instant)) : Prop :=
  match e with
  | None => blocked = []
  | Some (a, t) => a ∈ blocked ∧ blocked_until p now a = Some t
                   ∧ ∀ b u, b ∈ blocked → blocked_until p now b = Some u → t ≤ u
  end.

Lemma earliest_ok_step p now blocked e a t :
  earliest_ok p now blocked e → blocked_until p now a = Some t →
  earliest_ok p now (blocked ++ [a])
    (match e with
     | Some (_, current) => if t <? current then Some (a, t) else e
     | None => Some (a, t)
     end).
Proof.
  intros He Ha. destruct e as [[a0 t0]|]; simpl in *.
  - destruct He as (Hin & H0 & Hmin).
    destruct (Z.ltb_spec t t0); simpl; (split_and!; [set_solver|done|]); intros b u;
      rewrite elem_of_app, list_elem_of_singleton; intros [Hb| ->] Hu.
    + specialize (Hmin _ _ Hb Hu). lia.
    + rewrite Ha in Hu. simplify_eq. lia.
    + by eapply Hmin.
    + rewrite Ha in Hu. simplify_eq. lia.
  - subst. split_and!; [set_solver|done|]. intros b u Hb Hu. apply list_elem_of_singleton in Hb as ->.
    rewrite Ha in Hu. simplify_eq. lia.
Qed.

Lemma earliest_ok_same p p' now blocked e :
  same_states p p' → earliest_ok p' now blocked e → earliest_ok p now blocked e.
Proof.
  intros Hs. destruct e as [[a t]|]; simpl; [|done].
  rewrite (same_states_blocked p p') by done. intros (? & ? & Hmin). split_and!; [done..|].
  intros b u Hb Hu. apply (Hmin b); [done|]. by rewrite (same_states_blocked p p').
Qed.

(** What the loop answers, given the addresses selected and the blocked ones
    already met, and the distinct candidates left. *)
Definition loop_post (p : BootstrapSourcePool) (mx : nat) (now : Instant)
    (sel blocked firsts : list SocketAddr)
    (res : (list SocketAddr + list SocketAddr * option (SocketAddr * Instant)) * BootstrapSourcePool)
  : Prop :=
  let all := sel ++ filter (λ a, ready p now a) firsts in
  match res with
  | (inl r, p') => same_states p p' ∧ r = take (Nat.max 1 mx) all ∧ r ≠ []
  | (inr (r, e), p') =>
      same_states p p' ∧ r = all ∧ (length r < Nat.max 1 mx)%nat
      ∧ earliest_ok p now (blocked ++ filter (λ a, ¬ ready p now a) firsts) e
  end.

Lemma loop_post_same p q mx now sel blocked firsts res :
  same_states p q → loop_post q mx now sel blocked firsts res →
  loop_post p mx now sel blocked firsts res.
Proof.
  intros Hq. unfold loop_post. rewrite (same_states_ready p q) by done.
  destruct res as [[r|[r e]] p'].
  - intros (? & ? & ?). split_and!; [by etrans|done..].
  - intros (? & ? & ? & He). split_and!; [by etrans|done|done|].
    eapply earliest_ok_same; [exact Hq|].
    erewrite (list_filter_iff (λ a, ¬ ready p now a)); [exact He|].
    intros x. unfold ready. by rewrite (same_states_blocked p q).
Qed.

Lemma loop_post_ready p mx now sel blocked a firsts res :
  ready p now a → loop_post p mx now (sel ++ [a]) blocked firsts res →
  loop_post p mx now sel blocked (a :: firsts) res.
Proof.
  intros Hr. unfold loop_post. rewrite filter_cons_True, filter_cons_False by tauto.
  by rewrite <-app_assoc.
Qed.

Lemma loop_post_blocked p mx now sel blocked a firsts res :
  ¬ ready p now a → loop_post p mx now sel (blocked ++ [a]) firsts res →
  loop_post p mx now sel blocked (a :: firsts) res.
Proof.
  intros Hr. unfold loop_post. rewrite filter_cons_False, filter_cons_True by done.
  by rewrite <-app_assoc.
Qed.

Lemma loop_post_return p q mx now sel blocked firsts :
  same_states p q → (mx ≤ length sel ≤ Nat.max 1 mx)%nat → sel ≠ [] →
  loop_post p mx now sel blocked firsts (inl sel, q).
Proof.
  intros Hs Hm Hne. assert (length sel ≠ 0%nat) by (by rewrite length_zero_iff_nil).
  split_and!; [done| |done].
  rewrite take_app_le by lia. by rewrite take_ge by lia.
Qed.

Lemma select_loop_spec p cs mx now sel seen e blocked :
  (length sel < Nat.max 1 mx)%nat → earliest_ok p now blocked e →
  loop_post p mx now sel blocked (first_occurrences seen cs) (select_loop p cs mx now sel seen e).
Proof.
  revert p sel seen e blocked. induction cs as [|a cs IH]; intros p sel seen e blocked Hlen He.
  { cbn. rewrite !app_nil_r. done. }
  cbn [select_loop first_occurrences]. case_bool_decide as Hseen; [by apply IH|].
  set (q := set_states p _).
  assert (same_states p q) as Hq by apply same_states_insert.
  assert (same_states q p) as Hq' by (by symmetry).
  assert (blocked_until p now a = None →
    loop_post p mx now sel blocked (a :: first_occurrences ({[a]} ∪ seen) cs)
      (if bool_decide (mx ≤ length (sel ++ [a]))%nat then (inl (sel ++ [a]), q)
       else select_loop q cs mx now (sel ++ [a]) ({[a]} ∪ seen) e)) as Hpush.
  { intros Hb. apply loop_post_ready; [unfold ready; by rewrite Hb|].
    assert (length (sel ++ [a]) = S (length sel)) as Hl by (rewrite length_app; simpl; lia).
    case_bool_decide as Hm; rewrite Hl in Hm.
    - apply loop_post_return; [done|lia|by destruct sel].
    - eapply loop_post_same; [done|]. apply IH; [lia|]. by eapply earliest_ok_same. }
  unfold blocked_until in Hpush.
  destruct (backoff_until (entry_or_default p a)) as [t|] eqn:Ebo; [|by apply Hpush].
  destruct (now <? t) eqn:Et; [|by apply Hpush]. clear Hpush.
  assert (blocked_until p now a = Some t) as Hb by (unfold blocked_until; by rewrite Ebo, Et).
  apply loop_post_blocked; [by eapply not_ready_blocked|].
  eapply loop_post_same; [done|]. apply IH; [done|].
  eapply earliest_ok_same; [done|]. by apply earliest_ok_step.
Qed.

Lemma elem_of_first_occurrences seen l a : a ∈ first_occurrences seen l ↔ a ∈ l ∧ a ∉ seen.
Proof.
  revert seen; induction l as [|b l IH]; intros seen; cbn [first_occurrences]; [set_solver|].
  case_bool_decide.
  - rewrite IH, elem_of_cons. split; [tauto|]. intros [[->|?] ?]; done.
  - rewrite !elem_of_cons, IH, elem_of_union, elem_of_singleton.
    destruct (decide (a = b)) as [->|?]; tauto.
Qed.

Lemma first_occurrences_NoDup seen l : NoDup (first_occurrences seen l).
Proof.
  revert seen; induction l as [|b l IH]; intros seen; cbn [first_occurrences]; [constructor|].
  case_bool_decide; [done|]. constructor; [|done].
  rewrite elem_of_first_occurrences. set_solver.
Qed.

(** [select] returns the first [max_nodes] distinct candidates that are
    not backing off, in resolver order; only when every candidate is backing
    off (and a round is wanted) does it force exactly one, whose backoff ends
    first.  It never disturbs a recorded source state. *)
Theorem select_correct (p : BootstrapSourcePool) (candidates : list SocketAddr) (max_nodes : nat)
    (now : Instant) :
  let usable := filter (λ a, ready p now a) (first_occurrences ∅ candidates) in
  let '(r, p') := select p candidates max_nodes now in
  NoDup r ∧ (length r ≤ Nat.max 1 max_nodes)%nat ∧ r ⊆ candidates ∧ same_states p p'
  ∧ (usable ≠ [] → r = take (Nat.max 1 max_nodes) usable)
  ∧ (usable = [] → candidates ≠ [] → (0 < max_nodes)%nat →
     ∃ a t, r = [a] ∧ blocked_until p now a = Some t
            ∧ ∀ b u, b ∈ candidates → blocked_until p now b = Some u → t ≤ u).
Proof.
  cbn zeta. pose proof (select_loop_spec p candidates max_nodes now [] ∅ None []) as H.
  specialize (H ltac:(simpl; lia) eq_refl). unfold loop_post in H. cbn zeta in H.
  rewrite !app_nil_l in H.
  set (usable := filter (λ a, ready p now a) (first_occurrences ∅ candidates)) in *.
  assert (NoDup usable) as Hnd by apply NoDup_filter, first_occurrences_NoDup.
  assert (usable ⊆ candidates) as Hsub.
  { intros x Hx%list_elem_of_filter. destruct Hx as [_ Hx%elem_of_first_occurrences]. tauto. }
  unfold select. destruct (select_loop _ _ _ _ _ _ _) as [[r|[r e]] p'].
  - destruct H as (Hs & -> & Hr). split_and!; try done.
    + eapply sublist_NoDup; [exact Hnd|apply sublist_take].
    + rewrite length_take. lia.
    + intros x Hx. apply Hsub. by eapply elem_of_take in Hx as (? & ?%list_elem_of_lookup_2 & _).
    + intros Hu. by rewrite Hu, take_nil in Hr.
  - destruct H as (Hs & -> & Hlen & He).
    case_bool_decide as Hu; simpl.
    + case_bool_decide as Hm; cycle 1.
      { rewrite Hu. split_and!; try done; [constructor|simpl; lia|set_solver]. }
      destruct e as [[a t]|]; simpl in He.
      * destruct He as (Hin & Ht & Hmin). apply list_elem_of_filter in Hin as [_ Hin].
        apply elem_of_first_occurrences in Hin as [Hin _]. rewrite Hu. simpl.
        split_and!; [apply NoDup_singleton|simpl; lia|set_solver|done|done|].
        intros _ _ _. exists a, t. split_and!; [done..|]. intros b u Hb Hbu. apply (Hmin b); [|done].
        apply list_elem_of_filter. split; [by eapply not_ready_blocked|].
        apply elem_of_first_occurrences. set_solver.
      * rewrite Hu. split_and!; try done; [constructor|simpl; lia|set_solver|].
        intros _ Hc _. destruct candidates as [|c cs]; [done|].
        assert (c ∈ first_occurrences ∅ (c :: cs)) as Hc' by (apply elem_of_first_occurrences; set_solver).
        destruct (ready p now c) eqn:Er.
        { assert (c ∈ usable) as Hcu by (apply list_elem_of_filter; rewrite Er; done).
          rewrite Hu in Hcu. by apply not_elem_of_nil in Hcu. }
        assert (c ∈ filter (λ a, ¬ ready p now a) (first_occurrences ∅ (c :: cs))) as Hcb.
        { apply list_elem_of_filter. rewrite Er. split; [tauto|done]. }
        rewrite He in Hcb. by apply not_elem_of_nil in Hcb.
    + split_and!; try done; [lia|]. intros _. by rewrite take_ge by lia.
Qed.

(** ** Backoff *)

Definition timeouts (p : BootstrapSourcePool) (a : SocketAddr) (ts : list Instant) :=
  fold_left (λ p t, mark_timeout p a t) ts p.

Lemma timeouts_snoc p a ts t : timeouts p a (ts ++ [t]) = mark_timeout (timeouts p a ts) a t.
Proof. apply fold_left_app. Qed.

Lemma timeouts_config p a ts :
  backoff_base (timeouts p a ts) = backoff_base p ∧ backoff_max (timeouts p a ts) = backoff_max p.
Proof.
  induction ts as [|t ts [IH1 IH2]] using rev_ind; [done|]. rewrite timeouts_snoc. simpl. auto.
Qed.

Lemma timeouts_fail_count p a ts :
  fail_count (entry_or_default p a) = 0 →
  fail_count (entry_or_default (timeouts p a ts) a) = Z.min u32_max (Z.of_nat (length ts)).
Proof.
  intros H0. induction ts as [|t ts IH] using rev_ind; [done|].
  rewrite timeouts_snoc, length_app. unfold mark_timeout, entry_or_default at 1. simpl.
  rewrite lookup_insert_eq. simpl. rewrite IH. unfold u32_max. lia.
Qed.

(** After [n+1] consecutive timeouts following a success, a bootstrap
    source is blocked for exactly [min (base * 2^min(n,16)) max] from the last
    timeout, and a success lifts the block at once. *)
Theorem source_backoff (p : BootstrapSourcePool) (a : SocketAddr) (t0 : Instant) (ts : list Instant)
    (t now : Instant) :
  backoff_max p ≤ duration_max →
  let p0 := mark_success p a t0 in
  let p1 := timeouts p0 a (ts ++ [t]) in
  blocked_until p0 now a = None
  ∧ (blocked_until p1 now a ≠ None ↔
       now < t + Z.min (backoff_base p * 2 ^ (Z.min (Z.of_nat (length ts)) 16)) (backoff_max p)).
Proof.
  intros Hm p0 p1.
  assert (entry_or_default p0 a = mkState (last_attempt (entry_or_default p a)) (Some t0) 0 None) as E0.
  { unfold entry_or_default at 1. subst p0. simpl. by rewrite lookup_insert_eq. }
  split.
  { unfold blocked_until. by rewrite E0. }
  subst p1. rewrite timeouts_snoc. unfold blocked_until.
  unfold mark_timeout at 1, entry_or_default at 1. simpl. rewrite lookup_insert_eq. simpl.
  rewrite timeouts_fail_count by by rewrite E0.
  destruct (timeouts_config p0 a ts) as [Hc1 Hc2].
  unfold backoff_for, duration_saturating_mul. rewrite Hc1, Hc2. simpl.
  replace (Z.min (Z.max 0 (Z.min u32_max (Z.min u32_max (Z.of_nat (length ts)) + 1) - 1)) 16)
    with (Z.min (Z.of_nat (length ts)) 16) by (unfold u32_max; lia).
  rewrite Z.shiftl_mul_pow2 by lia. rewrite Z.mul_1_l.
  replace (Z.min (Z.min duration_max (backoff_base p * 2 ^ Z.min (Z.of_nat (length ts)) 16)) (backoff_max p))
    with (Z.min (backoff_base p * 2 ^ Z.min (Z.of_nat (length ts)) 16) (backoff_max p)) by lia.
  destruct (Z.ltb_spec now (t + Z.min (backoff_base p * 2 ^ Z.min (Z.of_nat (length ts)) 16) (backoff_max p)));
    split; (done || lia).
Qed.

Definition example_addr : SocketAddr := SocketAddrV4 8 8 8 8 6881.
Definition example_pool : BootstrapSourcePool := new ["h"] (from_secs 300) (from_secs 3600).

Lemma source_backoff_witness :
  blocked_until (timeouts (mark_success example_pool example_addr 0) example_addr
                   ([0; 0] ++ [from_secs 10])) (from_secs 1209) example_addr ≠ None.
Proof.
  apply (source_backoff example_pool example_addr 0 [0; 0] (from_secs 10) (from_secs 1209));
    vm_compute; (discriminate || reflexivity).
Defined.

End BootstrapSourcePool.

(** ** Resolution *)

Section resolve.
(** [tokio::net::lookup_host]: [None] when resolution fails. *)
Context (lookup_host : string → option (list SocketAddr)).

Definition resolve_bootstrap_nodes (hosts : list string) (netmode : NetMode) : list SocketAddr :=
  host ← hosts;
  match lookup_host host with
  | Some addrs =>
      filter (λ a, addr_allowed_by_netmode a netmode = true ∧ is_valid_node_addr a = true) addrs
  | None => []
  end.

Lemma elem_of_resolve hosts netmode a :
  a ∈ resolve_bootstrap_nodes hosts netmode ↔
  addr_allowed_by_netmode a netmode = true ∧ is_valid_node_addr a = true
  ∧ ∃ h l, h ∈ hosts ∧ lookup_host h = Some l ∧ a ∈ l.
Proof.
  unfold resolve_bootstrap_nodes. rewrite list_elem_of_bind. split.
  - intros (h & Hin & Hh). destruct (lookup_host h) as [l|] eqn:E; [|by apply not_elem_of_nil in Hin].
    apply list_elem_of_filter in Hin as [[? ?] ?]. eauto 10.
  - intros (? & ? & h & l & Hh & Hl & Ha). exists h. rewrite Hl. split; [|done].
    by apply list_elem_of_filter.
Qed.
End resolve.
