(* ===== verification/Routing.v ===== *)
(** * Routing snapshot ([src/routing_snapshot.rs])

    The immutable per-family index that answers "the [count] nodes closest to
    a target": a Patricia trie stored in a vector of branches, built over the
    sorted node list.  Vector indices are explicit; [None] is a panic (or a
    search in a slice that is not partitioned), and the theorems show that
    neither occurs.  Both sorts are by total orders whose ties are equal
    nodes, so any correct sort gives the same result and [merge_sort] stands
    for [sort_unstable_by]. *)

From stdpp Require Import sorting.
From S2P Require Import Prelude Net.

Local Open Scope nat_scope.

(** ** Comparisons *)

(** A prefix-free encoding of a list that keeps the lexicographic order. *)
Fixpoint enc (l : list Z) : list Z :=
  match l with [] => [0%Z] | x :: l => 1%Z :: x :: enc l end.

Lemma lex_cmp_enc a b c d :
  lex_cmp (enc a ++ c) (enc b ++ d) = match lex_cmp a b with Eq => lex_cmp c d | o => o end.
Proof.
  revert b; induction a as [|x a IH]; intros [|y b]; simpl; try done.
  destruct (Z.compare x y); [apply IH|done..].
Qed.

Lemma enc_app_inj a b c d : enc a ++ c = enc b ++ d → a = b ∧ c = d.
Proof.
  revert b; induction a as [|x a IH]; intros [|y b]; simpl; try done.
  - by intros [= ->].
  - intros [= -> [-> ->]%IH]. done.
Qed.

(** [left.id.cmp(&right.id).then(left.addr.cmp(&right.addr))] *)
Definition node_cmp (l r : NodeTuple) : comparison :=
  match lex_cmp (id l) (id r) with Eq => kcmp (addr l) (addr r) | o => o end.

#[global] Instance okey_node : OrdKey NodeTuple := λ n, enc (id n) ++ okey (addr n).
#[global] Instance okey_node_inj : OrdKeyInj NodeTuple.
Proof. intros [i a] [j b] [? ?%okey_inj]%enc_app_inj. simpl in *. by subst. Qed.

Definition node_leb (l r : NodeTuple) : bool :=
  match node_cmp l r with Gt => false | _ => true end.

Lemma node_leb_key l r : node_leb l r = kleb l r.
Proof. unfold node_leb, kleb, lex_leb, node_cmp, okey, okey_node. by rewrite lex_cmp_enc. Qed.

Definition xor_id (target i : list Z) : list Z := zip_with Z.lxor i target.

Definition xor_distance_cmp (left right target : list Z) : comparison :=
  lex_cmp (xor_id target left) (xor_id target right).

Definition distance_leb (target : list Z) (l r : NodeTuple) : bool :=
  match xor_distance_cmp (id l) (id r) target with
  | Eq => match kcmp (addr l) (addr r) with Gt => false | _ => true end
  | Gt => false
  | Lt => true
  end.

Definition distance_key (target : list Z) (n : NodeTuple) : list Z :=
  enc (xor_id target (id n)) ++ okey (addr n).

Lemma distance_leb_key target l r :
  distance_leb target l r = lex_leb (distance_key target l) (distance_key target r).
Proof.
  unfold distance_leb, xor_distance_cmp, lex_leb, distance_key, kcmp. rewrite lex_cmp_enc.
  by destruct (lex_cmp (xor_id _ _) _).
Qed.

(** A node as the closeness order sees it, to inherit the order laws of keys. *)
Abbreviation closer target := (λ l r : NodeTuple, Is_true (distance_leb target l r)).

#[global] Instance lex_leb_trans : Transitive (λ a b : list Z, Is_true (lex_leb a b)).
Proof.
  intros a b c. unfold lex_leb. intros H1 H2.
  destruct (lex_cmp a b) eqn:E1; [|destruct (lex_cmp b c) eqn:E2|done].
  - apply lex_cmp_eq in E1. by rewrite E1.
  - apply lex_cmp_eq in E2. rewrite <-E2. by rewrite E1.
  - by rewrite (lex_cmp_lt_trans _ _ _ E1 E2).
  - done.
Qed.

#[global] Instance closer_trans target : Transitive (closer target).
Proof. intros a b c. rewrite !distance_leb_key. apply lex_leb_trans. Qed.
#[global] Instance closer_total target : Total (closer target).
Proof.
  intros a b. rewrite !distance_leb_key. unfold lex_leb.
  rewrite (lex_cmp_antisym (distance_key target a)). destruct (lex_cmp _ _); simpl; auto.
Qed.
#[global] Instance closer_dec target : RelDecision (closer target).
Proof. intros a b. apply _. Defined.

Definition by_id : relation NodeTuple := λ l r, Is_true (node_leb l r).
#[global] Instance by_id_dec : RelDecision by_id.
Proof. intros a b. unfold by_id. apply _. Defined.
#[global] Instance by_id_trans : Transitive by_id.
Proof. intros a b c. unfold by_id. rewrite !node_leb_key. apply kleb_trans. Qed.
#[global] Instance by_id_total : Total by_id.
Proof. intros a b. unfold by_id. rewrite !node_leb_key. apply kleb_total. Qed.

(** ** The prefix index *)

Module PrefixIndex.

Inductive PrefixBranch :=
  | Leaf (start end_ : nat)
  | Split (bit zero one : nat).

Record PrefixIndex := mk {
  nodes : list NodeTuple;
  branches : list PrefixBranch;
  root : option nat;
}.

Definition empty : PrefixIndex := mk [] [] None.

(** [&l[start..end_]] *)
Definition slice {A} (l : list A) (start end_ : nat) : option (list A) :=
  if bool_decide (start ≤ end_ ≤ length l) then Some (take (end_ - start) (drop start l)) else None.

(** [slice::partition_point], specified on partitioned slices only. *)
Fixpoint partition_point {A} (p : A → bool) (l : list A) : option nat :=
  match l with
  | [] => Some 0
  | x :: l =>
      if p x then S <$> partition_point p l
      else if forallb (λ y, negb (p y)) l then Some 0 else None
  end.

(** [first.iter().zip(last).position(|(left, right)| *left != right)] *)
Definition first_difference (a b : list Z) : option nat :=
  position (λ p, negb (p.1 =? p.2)%Z) (zip a b).

(** [u8::leading_zeros] *)
Definition leading_zeros (x : Z) : nat :=
  if (x =? 0)%Z then 8 else 7 - Z.to_nat (Z.log2 x).

Definition bit_is_zero (byte mask : Z) : bool := (Z.land byte mask =? 0)%Z.

Fixpoint build (fuel : nat) (ns : list NodeTuple) (start end_ : nat) (bs : list PrefixBranch)
  : option (nat * list PrefixBranch) :=
  match fuel with
  | 0 => None
  | S fuel =>
      let! first := ns !! start in
      let! last := ns !! (end_ - 1) in
      match first_difference (id first) (id last) with
      | Some byte =>
          let! x := id first !! byte in
          let! y := id last !! byte in
          let bit := byte * 8 + leading_zeros (Z.lxor x y) in
          let mask := Z.shiftl 1 (Z.of_nat (7 - bit `mod` 8)) in
          let! range := slice ns start end_ in
          let! count := partition_point (λ n, bit_is_zero (id n !!! byte) mask) range in
          let middle := start + count in
          let! z := build fuel ns start middle bs in
          let! o := build fuel ns middle end_ z.2 in
          Some (length o.2, o.2 ++ [Split bit z.1 o.1])
      | None => Some (length bs, bs ++ [Leaf start end_])
      end
  end.

Definition new (ns : list NodeTuple) : option PrefixIndex :=
  let ns := merge_sort by_id ns in
  if bool_decide (ns = []) then Some (mk ns [] None)
  else
    let! r := build (length ns) ns 0 (length ns) [] in
    Some (mk ns r.2 (Some r.1)).

Fixpoint visit (fuel : nat) (index : PrefixIndex) (branch : nat) (target : list Z) (limit : nat)
    (output : list NodeTuple) : option (nat * list NodeTuple) :=
  match fuel with
  | 0 => None
  | S fuel =>
      if bool_decide (limit ≤ length output) then Some (0, output)
      else
        let! b := branches index !! branch in
        match b with
        | Leaf start end_ =>
            let! s := slice (nodes index) start (end_ `min` (start + limit - length output)) in
            Some (1, output ++ s)
        | Split bit zero one =>
            let! byte := target !! (bit `div` 8) in
            let '(near, far) :=
              if bit_is_zero byte (Z.shiftl 1 (Z.of_nat (7 - bit `mod` 8)))
              then (zero, one) else (one, zero) in
            let! v1 := visit fuel index near target limit output in
            let! v2 := visit fuel index far target limit v1.2 in
            Some (1 + v1.1 + v2.1, v2.2)
        end
  end.

(** Lengths of live vectors are below [isize::MAX], so the saturating sum is
    the sum. *)
Definition append_nearest (index : PrefixIndex) (target : list Z) (count : nat)
    (output : list NodeTuple) : option (nat * list NodeTuple) :=
  match root index with
  | None => Some (0, output)
  | Some root =>
      let limit := length output + count `min` length (nodes index) in
      visit (S root) index root target limit output
  end.

End PrefixIndex.
Import PrefixIndex.

(** ** The snapshot *)

Record RoutingSnapshot := mkSnapshot { v4 : PrefixIndex; v6 : PrefixIndex }.

Definition snapshot_default : RoutingSnapshot := mkSnapshot empty empty.

Definition from_nodes (ns : list NodeTuple) (limit : nat) : option RoutingSnapshot :=
  let ns := take limit ns in
  let v6_nodes := filter (λ n, is_ipv6 (addr n) = true) ns in
  if bool_decide (length v6_nodes = 0) then
    let! i := PrefixIndex.new ns in Some (mkSnapshot i empty)
  else if bool_decide (length v6_nodes = length ns) then
    let! i := PrefixIndex.new ns in Some (mkSnapshot empty i)
  else
    let! i := PrefixIndex.new (filter (λ n, is_ipv6 (addr n) = false) ns) in
    let! j := PrefixIndex.new v6_nodes in
    Some (mkSnapshot i j).

Definition closest_nodes (s : RoutingSnapshot) (target : list Z) (count : nat)
    (filter_ipv6 : option bool) : option (list NodeTuple) :=
  if bool_decide (count = 0) then Some []
  else
    match filter_ipv6 with
    | Some true => let! r := append_nearest (v6 s) target count [] in Some r.2
    | Some false => let! r := append_nearest (v4 s) target count [] in Some r.2
    | None =>
        let! r := append_nearest (v4 s) target count [] in
        let! r := append_nearest (v6 s) target count r.2 in
        Some (take count (merge_sort (closer target) r.2))
    end.

(** ** Bits of a byte *)

Lemma bit_is_zero_spec b k : (0 ≤ k)%Z → bit_is_zero b (Z.shiftl 1 k) = negb (Z.testbit b k).
Proof. apply land_pow2_zero. Qed.

Lemma shiftr_split a k : (0 ≤ k)%Z →
  Z.shiftr a k = (2 * Z.shiftr a (k + 1) + Z.b2z (Z.testbit a k))%Z.
Proof.
  intros Hk. rewrite <-Z.shiftr_shiftr by lia.
  replace (Z.testbit a k) with (Z.odd (Z.shiftr a k)).
  - rewrite <-Z.div2_spec. apply Z.div2_odd.
  - by rewrite <-Z.bit0_odd, Z.shiftr_spec, Z.add_0_l.
Qed.

Lemma shiftr_lt a b k : (0 ≤ k)%Z → (Z.shiftr a k < Z.shiftr b k → a < b)%Z.
Proof.
  intros Hk. rewrite !Z.shiftr_div_pow2 by done. intros Hlt.
  destruct (Z.lt_ge_cases a b) as [?|Hge]; [done|].
  pose proof (Z.div_le_mono b a (2 ^ k)). lia.
Qed.

Lemma xor_bit_lt a b t k :
  (0 ≤ k)%Z → Z.shiftr a (k + 1) = Z.shiftr b (k + 1) →
  Z.testbit a k = Z.testbit t k → Z.testbit b k ≠ Z.testbit t k →
  (Z.lxor a t < Z.lxor b t)%Z.
Proof.
  intros Hk Hs Ha Hb. apply (shiftr_lt _ _ k); [done|].
  rewrite (shiftr_split (Z.lxor a t)), (shiftr_split (Z.lxor b t)) by done.
  rewrite !Z.lxor_spec, !Z.shiftr_lxor, Hs, Ha, xorb_nilpotent.
  replace (xorb (Z.testbit b k) (Z.testbit t k)) with true; [simpl; lia|].
  by destruct (Z.testbit b k), (Z.testbit t k).
Qed.

Lemma bit_lt a b k :
  (0 ≤ k)%Z → Z.shiftr a (k + 1) = Z.shiftr b (k + 1) →
  Z.testbit a k = false → Z.testbit b k = true → (a < b)%Z.
Proof.
  intros Hk Hs Ha Hb. rewrite <-(Z.lxor_0_r a), <-(Z.lxor_0_r b).
  apply (xor_bit_lt _ _ _ k); [done..| |]; rewrite ?Z.bits_0, ?Hb; done.
Qed.

Lemma top_difference f l :
  is_byte f → is_byte l → (f < l)%Z →
  let k := Z.log2 (Z.lxor f l) in
  (0 ≤ k ≤ 7)%Z ∧ leading_zeros (Z.lxor f l) = 7 - Z.to_nat k
  ∧ Z.shiftr f (k + 1) = Z.shiftr l (k + 1) ∧ Z.testbit f k = false ∧ Z.testbit l k = true.
Proof.
  intros Hf Hl Hlt k. unfold is_byte in *.
  assert (0 ≤ Z.lxor f l)%Z as H0 by (apply Z.lxor_nonneg; lia).
  assert (Z.lxor f l ≠ 0)%Z as Hne by (rewrite Z.lxor_eq_0_iff; lia).
  assert (0 ≤ k)%Z as Hk0 by apply Z.log2_nonneg.
  assert (Z.shiftr f (k + 1) = Z.shiftr l (k + 1)) as Hs.
  { apply Z.lxor_eq. rewrite <-Z.shiftr_lxor. apply Z.shiftr_eq_0; [done|]. unfold k. lia. }
  assert (Z.testbit f k ≠ Z.testbit l k) as Hd.
  { pose proof (Z.bit_log2 (Z.lxor f l) ltac:(lia)) as Hb. fold k in Hb.
    rewrite Z.lxor_spec in Hb. by destruct (Z.testbit f k), (Z.testbit l k). }
  split_and!; [done| | |done| |].
  - unfold k. assert (Z.log2 (Z.lxor f l) ≤ Z.max (Z.log2 f) (Z.log2 l))%Z by (apply Z.log2_lxor; lia).
    assert (∀ z, z < 256 → Z.log2 z ≤ 7)%Z as Hb.
    { intros z Hz. pose proof (Z.log2_le_mono z 255 ltac:(lia)). by change (Z.log2 255) with 7%Z in *. }
    pose proof (Hb f ltac:(lia)). pose proof (Hb l ltac:(lia)). lia.
  - unfold leading_zeros. destruct (Z.eqb_spec (Z.lxor f l) 0); [done|]. done.
  - destruct (Z.testbit f k) eqn:Ef; [|done]. destruct (Z.testbit l k) eqn:El; [done|].
    pose proof (bit_lt l f k Hk0 (eq_sym Hs) El Ef). lia.
  - destruct (Z.testbit l k) eqn:El; [done|]. destruct (Z.testbit f k) eqn:Ef; [|done].
    pose proof (bit_lt l f k Hk0 (eq_sym Hs) El Ef). lia.
Qed.

Lemma shiftr_between f x l j :
  (0 ≤ j)%Z → (f ≤ x ≤ l)%Z → Z.shiftr f j = Z.shiftr l j → Z.shiftr x j = Z.shiftr f j.
Proof.
  intros Hj [Hf Hl]. rewrite !Z.shiftr_div_pow2 by done. intros Hs.
  pose proof (Z.div_le_mono f x (2 ^ j)). pose proof (Z.div_le_mono x l (2 ^ j)). lia.
Qed.

(** ** Lexicographic order and prefixes *)

Lemma lex_leb_cons x a y b : lex_leb (x :: a) (y :: b) ↔ (x < y)%Z ∨ x = y ∧ lex_leb a b.
Proof.
  unfold lex_leb. simpl. destruct (Z.compare_spec x y) as [->|?|?]; split; try naive_solver lia.
Qed.

Lemma lex_between byte f x l :
  lex_leb f x → lex_leb x l → length x = length f → length l = length f →
  take byte f = take byte l →
  take byte x = take byte f
  ∧ ∀ a b c, f !! byte = Some a → l !! byte = Some b → x !! byte = Some c → (a ≤ c ≤ b)%Z.
Proof.
  revert f x l; induction byte as [|byte IH]; intros [|f0 f] [|x0 x] [|l0 l] H1 H2 L1 L2 Ht;
    simplify_eq/=; try done.
  - split; [done|]. intros a b c [= ->] [= ->] [= ->].
    apply lex_leb_cons in H1. apply lex_leb_cons in H2. lia.
  - apply lex_leb_cons in H1. apply lex_leb_cons in H2.
    assert (x0 = l0) as -> by lia.
    destruct (IH f x l) as [IH1 IH2]; [naive_solver lia..|done|].
    split; [by rewrite IH1|done].
Qed.

Lemma lex_same_prefix byte x y c d :
  lex_leb x y → take byte x = take byte y → x !! byte = Some c → y !! byte = Some d → (c ≤ d)%Z.
Proof.
  revert x y; induction byte as [|byte IH]; intros [|x0 x] [|y0 y] Hle Ht Hc Hd; simplify_eq/=;
    apply lex_leb_cons in Hle; [lia|]. eapply (IH x y); [naive_solver lia|done..].
Qed.

Lemma lex_cmp_prefix_lt p a b l1 l2 : (a < b)%Z → lex_cmp (p ++ a :: l1) (p ++ b :: l2) = Lt.
Proof.
  intros Hlt. induction p as [|x p IH]; simpl; [|by rewrite Z.compare_refl].
  apply Z.compare_lt_iff in Hlt. by rewrite Hlt.
Qed.

Lemma first_difference_None a b : length a = length b → first_difference a b = None → a = b.
Proof.
  revert b; induction a as [|x a IH]; intros [|y b] Hl; simplify_eq/=; try done.
  unfold first_difference. simpl. destruct (Z.eqb_spec x y) as [->|]; simpl; [|done].
  intros Hn. f_equal. apply IH; [done|]. unfold first_difference. by destruct (position _ _).
Qed.

Lemma first_difference_Some a b i :
  first_difference a b = Some i →
  take i a = take i b ∧ ∃ x y, a !! i = Some x ∧ b !! i = Some y ∧ x ≠ y.
Proof.
  revert b i; induction a as [|x a IH]; intros [|y b] i; simplify_eq/=; try done.
  unfold first_difference. simpl. destruct (Z.eqb_spec x y) as [->|]; simpl.
  - destruct (position _ _) as [j|] eqn:E; [|done]. intros [= <-].
    destruct (IH b j E) as (Ht & ?). simpl. by rewrite Ht.
  - intros [= <-]. split; [done|]. by exists x, y.
Qed.

Lemma by_id_ids x y : by_id x y → lex_leb (id x) (id y).
Proof.
  unfold by_id, node_leb, node_cmp, lex_leb. by destruct (lex_cmp (id x) (id y)).
Qed.

(** ** Shape of the trie *)

Definition id_ok (n : NodeTuple) : Prop := length (id n) = 20 ∧ Forall is_byte (id n).

(** Nodes [s..e) of the sorted list. *)
Definition range (ns : list NodeTuple) (s e : nat) : list NodeTuple := take (e - s) (drop s ns).

Lemma elem_of_range ns s e n : n ∈ range ns s e ↔ ∃ j, s ≤ j < e ∧ ns !! j = Some n.
Proof.
  unfold range. rewrite list_elem_of_lookup. split.
  - intros [i Hi]. rewrite lookup_take_Some, lookup_drop in Hi. destruct Hi. exists (s + i).
    split; [lia|done].
  - intros (j & Hj & Hn). exists (j - s). rewrite lookup_take_Some, lookup_drop.
    replace (s + (j - s)) with j by lia. split; [done|lia].
Qed.

Lemma range_app ns s m e : s ≤ m ≤ e → range ns s m ++ range ns m e = range ns s e.
Proof.
  intros Hm. unfold range. replace (drop m ns) with (drop (m - s) (drop s ns))
    by (rewrite drop_drop; f_equal; lia).
  rewrite <-(take_drop (m - s) (take (e - s) (drop s ns))).
  rewrite take_take, skipn_firstn_comm. f_equal; f_equal; lia.
Qed.

Section tree.
Context (ns : list NodeTuple).

Inductive tree_at (bs : list PrefixBranch) : nat → nat → nat → Prop :=
  | tree_leaf i s e v :
      bs !! i = Some (Leaf s e) → s < e ≤ length ns →
      (∀ n, n ∈ range ns s e → id n = v) →
      tree_at bs i s e
  | tree_split i bit z o s m e pre h :
      bs !! i = Some (Split bit z o) → z < i → o < i → bit `div` 8 < 20 →
      tree_at bs z s m → tree_at bs o m e → s ≤ m ≤ e →
      (∀ n (one : bool), n ∈ (if one then range ns m e else range ns s m) →
         ∃ x, take (bit `div` 8) (id n) = pre ∧ id n !! (bit `div` 8) = Some x
              ∧ Z.shiftr x (Z.of_nat (7 - bit `mod` 8) + 1) = h
              ∧ Z.testbit x (Z.of_nat (7 - bit `mod` 8)) = one) →
      tree_at bs i s e.

Lemma tree_at_app bs bs' i s e : tree_at bs i s e → tree_at (bs ++ bs') i s e.
Proof.
  induction 1 as [i s e v Hi|i bit z o s m e pre h Hi].
  - eapply tree_leaf; eauto using lookup_app_l_Some.
  - eapply tree_split; eauto using lookup_app_l_Some.
Qed.

Lemma partition_point_sorted {A} (p : A → bool) (l : list A) :
  (∀ i j x y, i < j → l !! i = Some x → l !! j = Some y → p y = true → p x = true) →
  ∃ c, partition_point p l = Some c ∧ c ≤ length l
       ∧ (∀ i x, l !! i = Some x → p x = bool_decide (i < c)).
Proof.
  induction l as [|a l IH]; intros Hp; simpl; [by exists 0|].
  destruct (p a) eqn:Ea.
  - destruct IH as (c & -> & Hc & Hs).
    { intros i j x y Hij Hx Hy. apply (Hp (S i) (S j)); [lia|done..]. }
    exists (S c). split_and!; [done|simpl; lia|]. intros [|i] x Hx.
    + by simplify_eq/=.
    + rewrite (Hs i x Hx). apply bool_decide_ext. lia.
  - replace (forallb (λ y, negb (p y)) l) with true.
    + exists 0. split_and!; [done|lia|]. intros i x Hx. rewrite bool_decide_false by lia.
      destruct i as [|i]; simplify_eq/=; [done|].
      destruct (p x) eqn:Ex; [|done]. rewrite (Hp 0 (S i) a x) in Ea; [done|lia|done..].
    + symmetry. apply forallb_forall. intros x [i Hi]%list_elem_of_In%list_elem_of_lookup.
      destruct (p x) eqn:Ex; [|done]. rewrite (Hp 0 (S i) a x) in Ea; [done|lia|done..].
Qed.

Context (Hsorted : Sorted.StronglySorted by_id ns) (Hok : Forall id_ok ns).

Lemma sorted_ids i j x y : i ≤ j → ns !! i = Some x → ns !! j = Some y → lex_leb (id x) (id y).
Proof.
  intros Hij Hx Hy. destruct (decide (i = j)) as [->|].
  - simplify_eq. unfold lex_leb. by rewrite lex_cmp_refl.
  - eapply by_id_ids, StronglySorted_lookup; [exact Hsorted| |done..]. lia.
Qed.

Lemma id_ok_at j n : ns !! j = Some n → id_ok n.
Proof. intros. by eapply Forall_lookup_1. Qed.

(** Between a first and a last node that differ at [byte], every node shares
    the prefix and the high bits, and the deciding bit grows with the index. *)
Lemma split_facts s e first lst byte x y :
  ns !! s = Some first → ns !! (e - 1) = Some lst → s < e →
  first_difference (id first) (id lst) = Some byte →
  id first !! byte = Some x → id lst !! byte = Some y →
  let k := Z.log2 (Z.lxor x y) in
  (0 ≤ k ≤ 7)%Z ∧ leading_zeros (Z.lxor x y) = 7 - Z.to_nat k ∧ byte < 20
  ∧ Z.testbit x k = false ∧ Z.testbit y k = true
  ∧ ∀ j n, s ≤ j < e → ns !! j = Some n →
      take byte (id n) = take byte (id first)
      ∧ ∃ c, id n !! byte = Some c ∧ Z.shiftr c (k + 1) = Z.shiftr x (k + 1).
Proof.
  intros Hf Hl Hse Hd Hx Hy k.
  destruct (id_ok_at _ _ Hf) as [Lf Bf]. destruct (id_ok_at _ _ Hl) as [Ll Bl].
  apply first_difference_Some in Hd as (Ht & x' & y' & Hx' & Hy' & Hne).
  rewrite Hx in Hx'. rewrite Hy in Hy'. injection Hx' as <-. injection Hy' as <-.
  assert (byte < 20) as Hbyte by (rewrite <-Lf; by eapply lookup_lt_Some).
  assert (x < y)%Z as Hlt.
  { pose proof (lex_same_prefix byte _ _ x y (sorted_ids s (e - 1) _ _ ltac:(lia) Hf Hl) Ht Hx Hy). lia. }
  destruct (top_difference x y) as (Hk & Hlz & Hs & Hbx & Hby);
    [exact (Forall_lookup_1 _ _ _ _ Bf Hx)|exact (Forall_lookup_1 _ _ _ _ Bl Hy)|done|]. fold k in Hk, Hlz, Hs, Hbx, Hby.
  split_and!; try done; [lia..|]. intros j n Hj Hn. destruct (id_ok_at _ _ Hn) as [Ln _].
  destruct (lex_between byte (id first) (id n) (id lst)) as [Hp Hb];
    [eapply (sorted_ids s j); [lia|done..]|eapply (sorted_ids j (e - 1)); [lia|done..]|lia|lia|done|].
  split; [done|]. destruct (lookup_lt_is_Some_2 (id n) byte) as [c Hc]; [lia|].
  exists c. split; [done|]. eapply shiftr_between; [lia| |done]. by apply Hb.
Qed.

Lemma range_same_id s e first lst :
  ns !! s = Some first → ns !! (e - 1) = Some lst → first_difference (id first) (id lst) = None →
  ∀ n, n ∈ range ns s e → id n = id first.
Proof.
  intros Hf Hl Hd. apply first_difference_None in Hd; cycle 1.
  { destruct (id_ok_at _ _ Hf), (id_ok_at _ _ Hl). lia. }
  intros n (j & Hj & Hn)%elem_of_range.
  pose proof (sorted_ids s j first n ltac:(lia) Hf Hn) as H1.
  pose proof (sorted_ids j (e - 1) n lst ltac:(lia) Hn Hl) as H2. rewrite <-Hd in H2.
  unfold lex_leb in H1, H2. rewrite (lex_cmp_antisym (id first)) in H2.
  destruct (lex_cmp (id first) (id n)) eqn:E; [|done..].
  apply lex_cmp_eq in E. by rewrite E.
Qed.

(** The partition of a range at its deciding bit is proper, and each side has
    the bit its branch says. *)
Lemma split_partition s e first lst byte x y :
  ns !! s = Some first → ns !! (e - 1) = Some lst → s < e ≤ length ns →
  first_difference (id first) (id lst) = Some byte →
  id first !! byte = Some x → id lst !! byte = Some y →
  let bit := byte * 8 + leading_zeros (Z.lxor x y) in
  let k := Z.of_nat (7 - bit `mod` 8) in
  bit `div` 8 = byte ∧ byte < 20 ∧
  ∃ c, partition_point (λ n, bit_is_zero (id n !!! byte) (Z.shiftl 1 k)) (range ns s e) = Some c
    ∧ 0 < c < e - s
    ∧ ∀ n (one : bool), n ∈ (if one then range ns (s + c) e else range ns s (s + c)) →
         ∃ z, take byte (id n) = take byte (id first) ∧ id n !! byte = Some z
              ∧ Z.shiftr z (k + 1) = Z.shiftr x (k + 1) ∧ Z.testbit z k = one.
Proof.
  intros Hf Hl Hse Hd Hx Hy bit k.
  destruct (split_facts s e first lst byte x y) as (Hk & Hlz & Hbyte & Hbx & Hby & Hall); [done|done|lia|done..|].
  assert (bit `div` 8 = byte ∧ k = Z.log2 (Z.lxor x y)) as [Hdiv Ek].
  { unfold k, bit. rewrite Hlz. set (lz := 7 - Z.to_nat (Z.log2 (Z.lxor x y))).
    assert (lz < 8) by (unfold lz; lia).
    rewrite (Nat.add_comm (byte * 8)), Nat.Div0.mod_add, Nat.div_add, Nat.mod_small, Nat.div_small by lia.
    split; unfold lz; lia. }
  rewrite <-Ek in *. split_and!; [done..|].
  assert (∀ i n, range ns s e !! i = Some n → i < e - s ∧ ns !! (s + i) = Some n) as Hr.
  { intros i n. unfold range. rewrite lookup_take_Some, lookup_drop. naive_solver. }
  assert (∀ n z, id n !! byte = Some z → bit_is_zero (id n !!! byte) (Z.shiftl 1 k) = negb (Z.testbit z k)) as Hz.
  { intros n z Hn. rewrite bit_is_zero_spec by lia. by erewrite list_lookup_total_correct. }
  destruct (partition_point_sorted (λ n, bit_is_zero (id n !!! byte) (Z.shiftl 1 k)) (range ns s e))
    as (c & Hc & Hcl & Hci).
  { intros i j n n' Hij [Hi Hn]%Hr [Hj Hn']%Hr.
    destruct (Hall (s + i) n) as (Ht & z & Hnz & Hs); [lia|done|].
    destruct (Hall (s + j) n') as (Ht' & z' & Hnz' & Hs'); [lia|done|].
    rewrite (Hz n z), (Hz n' z') by done. intros H0.
    destruct (Z.testbit z k) eqn:E1; [|done]. destruct (Z.testbit z' k) eqn:E2; [done|].
    pose proof (bit_lt z' z k ltac:(lia) (eq_trans Hs' (eq_sym Hs)) E2 E1).
    pose proof (lex_same_prefix byte (id n) (id n') z z'
      (sorted_ids (s + i) (s + j) _ _ ltac:(lia) Hn Hn') ltac:(congruence) Hnz Hnz'). lia. }
  assert (∀ j n z, s ≤ j < e → ns !! j = Some n → id n !! byte = Some z →
                   negb (Z.testbit z k) = bool_decide (j - s < c)) as Hbit.
  { intros j n z Hj Hn Hnz. rewrite <-(Hz n z Hnz). apply Hci. unfold range.
    rewrite lookup_take_Some, lookup_drop. replace (s + (j - s)) with j by lia. split; [done|lia]. }
  exists c. split_and!; [done| | |].
  - pose proof (Hbit s first x ltac:(lia) Hf Hx) as Hb. rewrite Hbx in Hb. simpl in Hb.
    symmetry in Hb. apply bool_decide_eq_true in Hb. lia.
  - pose proof (Hbit (e - 1) lst y ltac:(lia) Hl Hy) as Hb. rewrite Hby in Hb. simpl in Hb.
    symmetry in Hb. apply bool_decide_eq_false in Hb. lia.
  - assert (c ≤ e - s) by (unfold range in Hcl; rewrite length_take, length_drop in Hcl; lia).
    intros n one Hn. assert (∃ j, s ≤ j < e ∧ ns !! j = Some n ∧ one = bool_decide (¬ j - s < c))
      as (j & Hj & Hjn & ->).
    { destruct one; apply elem_of_range in Hn as (j & Hj & Hn); exists j; (split_and!; [lia..|done|]);
        symmetry; [apply bool_decide_true|apply bool_decide_false]; lia. }
    destruct (Hall j n Hj Hjn) as (Ht & z & Hnz & Hs). exists z. split_and!; [done..|].
    rewrite bool_decide_not, <-(Hbit j n z Hj Hjn Hnz). by rewrite negb_involutive.
Qed.

Lemma build_spec fuel s e bs :
  s < e ≤ length ns → e - s ≤ fuel →
  ∃ bs', build fuel ns s e bs = Some (length (bs ++ bs') - 1, bs ++ bs') ∧ bs' ≠ []
         ∧ tree_at (bs ++ bs') (length (bs ++ bs') - 1) s e.
Proof.
  revert s e bs; induction fuel as [|fuel IH]; intros s e bs Hse Hfuel; [lia|].
  cbn [build].
  destruct (lookup_lt_is_Some_2 ns s) as [first Hf]; [lia|].
  destruct (lookup_lt_is_Some_2 ns (e - 1)) as [lst Hl]; [lia|].
  rewrite Hf, Hl. destruct (first_difference (id first) (id lst)) as [byte|] eqn:Hd; cycle 1.
  { exists [Leaf s e]. rewrite length_app. simpl. replace (length bs + 1 - 1) with (length bs) by lia.
    split_and!; [done..|]. apply tree_leaf with (v := id first); [|lia|by eapply range_same_id].
    by rewrite lookup_app_r, Nat.sub_diag. }
  destruct (first_difference_Some _ _ _ Hd) as (_ & x & y & Hx & Hy & _). rewrite Hx, Hy.
  destruct (split_partition s e first lst byte x y) as (Hdiv & Hbyte & c & Hc & Hcb & Hgrp); [done..|].
  unfold slice. rewrite bool_decide_true by lia. fold (range ns s e). rewrite Hc.
  destruct (IH s (s + c) bs) as (b1 & -> & Hb1 & T1); [lia..|]. cbn [fst snd].
  destruct (IH (s + c) e (bs ++ b1)) as (b2 & -> & Hb2 & T2); [lia..|]. cbn [fst snd].
  set (bit := byte * 8 + _) in *.
  exists (b1 ++ b2 ++ [Split bit (length (bs ++ b1) - 1) (length ((bs ++ b1) ++ b2) - 1)]).
  rewrite !app_assoc. set (all := (bs ++ b1) ++ b2) in *.
  set (b := Split _ _ _).
  assert (length (all ++ [b]) - 1 = length all) as -> by (rewrite length_app; simpl; lia).
  assert (length all = length (bs ++ b1) + length b2) as Hlen by (unfold all; by rewrite length_app).
  assert (length b2 ≠ 0) by (by rewrite length_zero_iff_nil).
  split_and!; [done|by destruct b1|].
  eapply (tree_split _ _ bit) with (m := s + c); [by rewrite lookup_app_r, Nat.sub_diag|..].
  - lia.
  - lia.
  - by rewrite Hdiv.
  - unfold all. rewrite <-(app_assoc (bs ++ b1)). by apply tree_at_app.
  - by apply tree_at_app.
  - lia.
  - intros n one Hn. rewrite Hdiv. by apply Hgrp.
Qed.
End tree.

(** ** Visiting in order of distance *)

Lemma StronglySorted_range (R : relation NodeTuple) ns s e :
  Sorted.StronglySorted R ns → Sorted.StronglySorted R (range ns s e).
Proof.
  intros Hs. unfold range. rewrite <-(take_drop s ns) in Hs. apply StronglySorted_app_1_r in Hs.
  rewrite <-(take_drop (e - s) (drop s ns)) in Hs. by apply StronglySorted_app_1_l in Hs.
Qed.

Section visit.
Context (ns : list NodeTuple) (bs : list PrefixBranch) (target : list Z).
Context (Hsorted : Sorted.StronglySorted by_id ns) (Htarget : length target = 20).

(** Nodes on the target's side of a split are strictly closer. *)
Lemma closer_across byte k h pre x y a b t :
  (0 ≤ k)%Z → target !! byte = Some t →
  take byte (id x) = pre → id x !! byte = Some a → Z.shiftr a (k + 1) = h →
  take byte (id y) = pre → id y !! byte = Some b → Z.shiftr b (k + 1) = h →
  Z.testbit a k = Z.testbit t k → Z.testbit b k ≠ Z.testbit t k →
  closer target x y.
Proof.
  intros Hk Ht Hpx Ha Hsa Hpy Hb Hsb Hbx Hby.
  unfold distance_leb, xor_distance_cmp, xor_id.
  rewrite <-(take_drop_middle _ _ _ Ha), <-(take_drop_middle _ _ _ Hb), <-(take_drop_middle _ _ _ Ht).
  assert (length (take byte (id x)) = length (take byte target)) as Hl.
  { rewrite !length_take. apply lookup_lt_Some in Ha, Ht. lia. }
  rewrite Hpx, Hpy, !zip_with_app by congruence. simpl.
  rewrite lex_cmp_prefix_lt; [done|]. eapply xor_bit_lt; [done|congruence|done..].
Qed.

Lemma leaf_sorted s e v :
  (∀ n, n ∈ range ns s e → id n = v) → Sorted.StronglySorted (closer target) (range ns s e).
Proof.
  intros Hv. eapply StronglySorted_weaken; [by apply StronglySorted_range|].
  intros x y Hx%Hv Hy%Hv. unfold by_id, node_leb, node_cmp, distance_leb, xor_distance_cmp.
  rewrite Hx, Hy, !lex_cmp_refl. done.
Qed.

(** The answer of a visit: the output grows by the closest nodes of the
    subtree, in order, up to the limit. *)
Definition visited (s e limit : nat) (out : list NodeTuple) (res : option (nat * list NodeTuple)) : Prop :=
  ∃ c r, res = Some (c, out ++ take (limit - length out) r) ∧ r ≡ₚ range ns s e
         ∧ Sorted.StronglySorted (closer target) r.

Lemma visited_seq s1 e1 s2 e2 s e limit out f1 f2 :
  visited s1 e1 limit out (f1 out) → (∀ out', visited s2 e2 limit out' (f2 out')) →
  range ns s1 e1 ++ range ns s2 e2 ≡ₚ range ns s e →
  (∀ x y, x ∈ range ns s1 e1 → y ∈ range ns s2 e2 → closer target x y) →
  visited s e limit out
    (let! v1 := f1 out in let! v2 := f2 v1.2 in Some (1 + v1.1 + v2.1, v2.2)).
Proof.
  intros (c1 & r1 & -> & P1 & S1) H2 HP Hcl. cbn [fst snd].
  destruct (H2 (out ++ take (limit - length out) r1)) as (c2 & r2 & E2 & P2 & S2).
  rewrite E2. cbn [fst snd]. exists (1 + c1 + c2), (r1 ++ r2). split_and!.
  - rewrite take_app, <-app_assoc. do 5 f_equal. rewrite length_app, length_take. lia.
  - by rewrite P1, P2.
  - apply StronglySorted_app_2; [|done..]. intros x y Hx Hy. rewrite P1 in Hx. rewrite P2 in Hy.
    by apply Hcl.
Qed.

Lemma visit_spec fuel i s e limit out rt :
  tree_at ns bs i s e → i < fuel →
  visited s e limit out (visit fuel (mk ns bs rt) i target limit out).
Proof.
  intros Ht. revert fuel out.
  induction Ht as [i s e v Hi Hse Hv|i bit z o s m e pre h Hi Hz Ho Hbyte T1 IH1 T2 IH2 Hm Hgrp];
    intros [|fuel] out Hfuel; try lia; cbn [visit branches nodes].
  - case_bool_decide as Hlim.
    + exists 0, (range ns s e). replace (limit - length out) with 0 by lia. rewrite app_nil_r.
      split_and!; [done..|by eapply leaf_sorted].
    + rewrite Hi. unfold slice. rewrite bool_decide_true by lia.
      exists 1, (range ns s e). split_and!; [|done|by eapply leaf_sorted].
      unfold range. rewrite take_take. do 4 f_equal. lia.
  - case_bool_decide as Hlim.
    + exists 0, (merge_sort (closer target) (range ns s e)).
      replace (limit - length out) with 0 by lia. rewrite app_nil_r.
      split_and!; [done|apply merge_sort_Permutation|apply StronglySorted_merge_sort; apply _].
    + rewrite Hi. destruct (lookup_lt_is_Some_2 target (bit `div` 8)) as [t Htb]; [lia|]. rewrite Htb.
      set (k := Z.of_nat (7 - bit `mod` 8)) in *. rewrite bit_is_zero_spec by lia.
      destruct (Z.testbit t k) eqn:Et; cbn [negb].
      * eapply (visited_seq m e s m); [apply IH2; lia|intros out'; apply IH1; lia| |].
        -- rewrite Permutation_app_comm. by rewrite range_app.
        -- intros x y (a & ? & ? & ? & ?)%(Hgrp x true) (b & ? & ? & ? & ?)%(Hgrp y false).
           eapply (closer_across (bit `div` 8) k); [lia|done..|congruence|congruence].
      * eapply (visited_seq s m m e); [apply IH1; lia|intros out'; apply IH2; lia| |].
        -- by rewrite range_app.
        -- intros x y (a & ? & ? & ? & ?)%(Hgrp x false) (b & ? & ? & ? & ?)%(Hgrp y true).
           eapply (closer_across (bit `div` 8) k); [lia|done..|congruence|congruence].
Qed.
End visit.

(** ** The nearest nodes *)

Section nearest.
Context (target : list Z) (Htarget : length target = 20).

(** The reference: sort everything by distance and keep the first [count]. *)
Definition nearest (ns : list NodeTuple) : list NodeTuple := merge_sort (closer target) ns.

Lemma xor_id_inj i j :
  length i = 20 → length j = 20 → xor_id target i = xor_id target j → i = j.
Proof.
  unfold xor_id. revert i j. rewrite <-Htarget. clear Htarget.
  induction target as [|t tg IH]; intros [|x i] [|y j] Hi Hj; simplify_eq/=; [done|].
  intros [= Hx Hr]. f_equal; [|by apply IH].
  rewrite <-(Z.lxor_0_r x), <-(Z.lxor_nilpotent t), <-Z.lxor_assoc, Hx, Z.lxor_assoc.
  by rewrite Z.lxor_nilpotent, Z.lxor_0_r.
Qed.

Lemma closer_antisym x y : id_ok x → id_ok y → closer target x y → closer target y x → x = y.
Proof.
  intros [Hx _] [Hy _]. rewrite !distance_leb_key. unfold lex_leb.
  rewrite (lex_cmp_antisym (distance_key target x)).
  destruct (lex_cmp _ _) eqn:E; try done. intros _ _.
  apply lex_cmp_eq, enc_app_inj in E as [Ei%xor_id_inj Ea%okey_inj]; [|done..].
  destruct x, y; simpl in *; by subst.
Qed.

Lemma nearest_sorted ns : Sorted.StronglySorted (closer target) (nearest ns).
Proof. apply StronglySorted_merge_sort; apply _. Qed.
Lemma nearest_perm ns : nearest ns ≡ₚ ns.
Proof. apply merge_sort_Permutation. Qed.

Lemma nearest_unique ns r :
  Forall id_ok ns → r ≡ₚ ns → Sorted.StronglySorted (closer target) r → r = nearest ns.
Proof.
  intros Hok Hp Hs. apply (StronglySorted_unique_strong (closer target));
    [|done|apply nearest_sorted|by rewrite nearest_perm].
  rewrite Forall_forall in Hok. intros x y Hx Hy. rewrite Hp in Hx. rewrite nearest_perm in Hy.
  apply closer_antisym; by apply Hok.
Qed.

(** [r] holds the [k] nearest when it is sorted, has the right length and
    nothing left out is nearer. *)
Lemma nearest_take ns r rest k :
  Forall id_ok ns → ns ≡ₚ r ++ rest → Sorted.StronglySorted (closer target) r →
  length r = k `min` length ns → (∀ x y, x ∈ r → y ∈ rest → closer target x y) →
  take k (nearest ns) = r.
Proof.
  intros Hok Hp Hs Hl Hcl.
  rewrite <-(nearest_unique ns (r ++ nearest rest)); [|done| |].
  - destruct (decide (k ≤ length ns)).
    + rewrite take_app_le by lia. apply take_ge. lia.
    + assert (length (nearest rest) = 0) as ->%nil_length_inv.
      { apply Permutation_length in Hp. rewrite length_app in Hp.
        rewrite (Permutation_length (nearest_perm rest)). lia. }
      rewrite app_nil_r. apply take_ge. lia.
  - by rewrite nearest_perm.
  - apply StronglySorted_app_2; [|done|apply nearest_sorted]. intros x y Hx Hy.
    apply Hcl; [done|]. by rewrite nearest_perm in Hy.
Qed.

(** Merging the [k] nearest of two families gives the [k] nearest overall. *)
Lemma sorted_prefix_bound l k x y a :
  Sorted.StronglySorted (closer target) l → a ⊆+ l → k ≤ length a →
  (∀ z, z ∈ a → closer target z y) → x ∈ take k l → closer target x y.
Proof.
  intros Hs Ha Hk Hay (i & Hi)%list_elem_of_lookup.
  rewrite lookup_take_Some in Hi. destruct Hi as [Hi Hik].
  destruct (total (closer target) x y) as [?|Hyx]; [done|].
  destruct (decide (closer target x y)) as [?|Hn]; [done|]. exfalso.
  rewrite <-(take_drop_middle _ _ _ Hi) in Hs, Ha.
  assert (a ⊆+ take i l) as Hsub.
  { apply submseteq_app_r in Ha as (a1 & a2 & Hp & H1 & H2).
    assert (a2 = []) as ->.
    { destruct a2 as [|z a2]; [done|]. exfalso. apply Hn.
      apply StronglySorted_app_1_r in Hs. inversion Hs as [|? ? _ Hxs]; subst.
      assert (z ∈ a) as Hza by (rewrite Hp; set_solver).
      assert (z ∈ x :: drop (S i) l) as [->|Hz]%elem_of_cons.
      { eapply elem_of_submseteq; [|exact H2]. set_solver. }
      - by apply Hay.
      - rewrite Forall_forall in Hxs. etrans; [by apply Hxs|by apply Hay]. }
    rewrite app_nil_r in Hp. by rewrite Hp. }
  apply submseteq_length in Hsub. rewrite length_take in Hsub. lia.
Qed.

Lemma take_bound ns k x y :
  y ∈ drop k (nearest ns) → x ∈ take k (nearest ns) → closer target x y.
Proof.
  intros Hy Hx. pose proof (nearest_sorted ns) as Hs. rewrite <-(take_drop k (nearest ns)) in Hs.
  by eapply StronglySorted_app_1_elem_of.
Qed.

Lemma drop_full ns k y : y ∈ drop k (nearest ns) → length (take k (nearest ns)) = k.
Proof.
  intros (i & Hi)%list_elem_of_lookup. rewrite lookup_drop in Hi. apply lookup_lt_Some in Hi.
  rewrite length_take. lia.
Qed.

Lemma take_drop_regroup {A} k (l1 l2 : list A) :
  l1 ++ l2 ≡ₚ (take k l1 ++ take k l2) ++ drop k l1 ++ drop k l2.
Proof.
  rewrite <-(take_drop k l1) at 1. rewrite <-(take_drop k l2) at 1. solve_Permutation.
Qed.

Lemma nearest_merge a b k :
  Forall id_ok a → Forall id_ok b →
  take k (nearest (take k (nearest a) ++ take k (nearest b))) = take k (nearest (a ++ b)).
Proof.
  intros Ha Hb. symmetry.
  set (c := nearest (take k (nearest a) ++ take k (nearest b))).
  assert (c ≡ₚ take k (nearest a) ++ take k (nearest b)) as Hc by apply nearest_perm.
  apply (nearest_take _ _ (drop k c ++ drop k (nearest a) ++ drop k (nearest b))).
  - by apply Forall_app.
  - rewrite app_assoc, take_drop, Hc, <-take_drop_regroup. by rewrite !nearest_perm.
  - pose proof (nearest_sorted (take k (nearest a) ++ take k (nearest b))) as Hs. fold c in Hs.
    rewrite <-(take_drop k c) in Hs. by apply StronglySorted_app_1_l in Hs.
  - rewrite length_take, (Permutation_length Hc), !length_app, !length_take.
    rewrite !(Permutation_length (nearest_perm _)). lia.
  - intros x y Hx. rewrite !elem_of_app. intros [Hy|[Hy|Hy]].
    + by eapply take_bound.
    + eapply (sorted_prefix_bound c k x y (take k (nearest a))); [apply nearest_sorted| | | |done].
      * rewrite Hc. apply submseteq_inserts_r. done.
      * by erewrite drop_full.
      * intros z Hz. by eapply take_bound.
    + eapply (sorted_prefix_bound c k x y (take k (nearest b))); [apply nearest_sorted| | | |done].
      * rewrite Hc. apply submseteq_inserts_l. done.
      * by erewrite drop_full.
      * intros z Hz. by eapply take_bound.
Qed.
End nearest.

(** What an index built over [ns] answers. *)
Definition indexes (i : PrefixIndex) (ns : list NodeTuple) : Prop :=
  nodes i ≡ₚ ns ∧
  ∀ target count out, length target = 20 →
    ∃ c, append_nearest i target count out = Some (c, out ++ take count (nearest target ns)).

Lemma empty_indexes : indexes empty [].
Proof.
  split; [done|]. intros target count out _. exists 0. cbn. by rewrite take_nil, app_nil_r.
Qed.

Lemma new_indexes ns : Forall id_ok ns → ∃ i, PrefixIndex.new ns = Some i ∧ indexes i ns.
Proof.
  intros Hok. unfold PrefixIndex.new. set (l := merge_sort by_id ns).
  assert (l ≡ₚ ns) as Hp by apply merge_sort_Permutation.
  assert (Sorted.StronglySorted by_id l) as Hs by (apply StronglySorted_merge_sort; apply _).
  assert (Forall id_ok l) as Hokl by (by rewrite Hp).
  case_bool_decide as He.
  { exists (mk l [] None). split; [done|]. rewrite He in *. apply Permutation_nil in Hp as ->.
    apply empty_indexes. }
  assert (0 < length l) by (destruct l; [done|simpl; lia]).
  destruct (build_spec l Hs Hokl (length l) 0 (length l) []) as (bs & Hb & Hne & Ht); [lia..|].
  rewrite Hb. simpl in Ht |- *. eexists; split; [done|]. split; [done|].
  intros target count out Htg. unfold append_nearest. cbn [root nodes].
  destruct (visit_spec l bs target Hs Htg (S (length bs - 1)) (length bs - 1) 0 (length l)
    (length out + count `min` length l) out (Some (length bs - 1))) as (c & r & Hv & Hr & Hrs);
    [done|lia|].
  exists c. rewrite Hv. do 3 f_equal.
  assert (range l 0 (length l) = l) as Hrange by (unfold range; rewrite drop_0; apply take_ge; lia).
  rewrite Hrange, Hp in Hr. rewrite <-(nearest_unique target Htg ns r) by done.
  replace (length out + count `min` length l - length out) with (count `min` length l) by lia.
  rewrite <-take_take. rewrite (take_ge r (length l)); [done|].
  by rewrite (Permutation_length Hr), (Permutation_length Hp).
Qed.

Lemma nearest_perm_eq target ns ns' :
  length target = 20 → Forall id_ok ns → ns ≡ₚ ns' → nearest target ns = nearest target ns'.
Proof.
  intros Htg Hok Hp. symmetry. apply nearest_unique; [done..| |apply nearest_sorted].
  by rewrite nearest_perm.
Qed.

Lemma indexes_perm i ns ns' : Forall id_ok ns → ns ≡ₚ ns' → indexes i ns → indexes i ns'.
Proof.
  intros Hok Hp [H1 H2]. split; [by rewrite H1|]. intros target count out Htg.
  rewrite <-(nearest_perm_eq target ns) by done. by apply H2.
Qed.

Definition in_family (filter_ipv6 : option bool) (n : NodeTuple) : Prop :=
  match filter_ipv6 with Some b => is_ipv6 (addr n) = b | None => True end.
#[global] Instance in_family_dec f n : Decision (in_family f n).
Proof. unfold in_family. destruct f; apply _. Defined.

Lemma in_family_None (ns : list NodeTuple) : filter (in_family None) ns = ns.
Proof. induction ns as [|n ns IH]; [done|]. rewrite filter_cons_True by done. by rewrite IH. Qed.

Lemma split_families (ns : list NodeTuple) :
  filter (in_family (Some false)) ns ++ filter (in_family (Some true)) ns ≡ₚ ns.
Proof.
  induction ns as [|n ns IH]; [done|]. destruct (is_ipv6 (addr n)) eqn:E.
  - rewrite filter_cons_False, filter_cons_True by (simpl; congruence).
    rewrite <-Permutation_middle. by constructor.
  - rewrite filter_cons_True, filter_cons_False by (simpl; congruence). by constructor.
Qed.

Lemma from_nodes_indexes ns limit :
  Forall id_ok ns →
  ∃ s, from_nodes ns limit = Some s
       ∧ indexes (v4 s) (filter (in_family (Some false)) (take limit ns))
       ∧ indexes (v6 s) (filter (in_family (Some true)) (take limit ns)).
Proof.
  intros Hok. unfold from_nodes. set (l := take limit ns).
  assert (Forall id_ok l) as Hl by by apply Forall_take.
  assert (∀ b, Forall id_ok (filter (in_family (Some b)) l)) as Hf.
  { intros b. apply Forall_forall. intros x [_ Hx]%list_elem_of_filter.
    rewrite Forall_forall in Hl. by apply Hl. }
  pose proof (split_families l) as Hsp.
  change (filter (λ n, is_ipv6 (addr n) = true) l) with (filter (in_family (Some true)) l).
  change (filter (λ n, is_ipv6 (addr n) = false) l) with (filter (in_family (Some false)) l).
  case_bool_decide as H0; [|case_bool_decide as H1].
  - apply nil_length_inv in H0. rewrite H0, app_nil_r in Hsp.
    destruct (new_indexes l Hl) as (i & -> & Hi). eexists; split; [done|].
    rewrite H0. split; [by apply (indexes_perm _ l)|apply empty_indexes].
  - assert (filter (in_family (Some false)) l = []) as E.
    { apply nil_length_inv. apply Permutation_length in Hsp. rewrite length_app in Hsp. lia. }
    rewrite E in Hsp. simpl in Hsp.
    destruct (new_indexes l Hl) as (i & -> & Hi). eexists; split; [done|].
    rewrite E. split; [apply empty_indexes|by apply (indexes_perm _ l)].
  - destruct (new_indexes _ (Hf false)) as (i & -> & Hi).
    destruct (new_indexes _ (Hf true)) as (j & -> & Hj). by eexists.
Qed.

(** The answer of a snapshot, from the two indexes it holds. *)
Lemma closest_nodes_indexes s ns target count filter_ipv6 :
  Forall id_ok ns → length target = 20 →
  indexes (v4 s) (filter (in_family (Some false)) ns) →
  indexes (v6 s) (filter (in_family (Some true)) ns) →
  closest_nodes s target count filter_ipv6
  = Some (take count (nearest target (filter (in_family filter_ipv6) ns))).
Proof.
  intros Hl Htg [_ H4] [_ H6]. unfold closest_nodes. case_bool_decide as Hc; [by subst|].
  assert (∀ b, Forall id_ok (filter (in_family (Some b)) ns)) as Hf.
  { intros b. apply Forall_forall. intros x [_ Hx]%list_elem_of_filter.
    rewrite Forall_forall in Hl. by apply Hl. }
  destruct filter_ipv6 as [[]|].
  - by destruct (H6 target count [] Htg) as [c ->].
  - by destruct (H4 target count [] Htg) as [c ->].
  - destruct (H4 target count [] Htg) as [c ->]. cbn [fst snd app].
    destruct (H6 target count (take count (nearest target (filter (in_family (Some false)) ns))) Htg)
      as [c' ->]. cbn [snd]. f_equal.
    etrans; [exact (nearest_merge target Htg _ _ count (Hf false) (Hf true))|].
    f_equal. apply nearest_perm_eq; [done|by rewrite split_families|].
    by rewrite split_families, in_family_None.
Qed.

(** C9: a snapshot built from any list of nodes answers every nearest-node
    query without panicking, and with exactly the [count] nodes of the asked
    family that are closest to the target by XOR distance (ties broken by
    address), in that order: the trie walk and the two-family merge agree with
    sorting all nodes. *)
Theorem closest_nodes_correct (ns : list NodeTuple) (limit count : nat) (target : list Z)
    (filter_ipv6 : option bool) :
  Forall id_ok ns → length target = 20 →
  ∃ s, from_nodes ns limit = Some s
       ∧ closest_nodes s target count filter_ipv6
         = Some (take count (nearest target (filter (in_family filter_ipv6) (take limit ns)))).
Proof.
  intros Hok Htg. destruct (from_nodes_indexes ns limit Hok) as (s & Hs & H4 & H6).
  exists s. split; [done|]. apply closest_nodes_indexes; try done. by apply Forall_take.
Qed.

Definition ex_node (x p : Z) : NodeTuple := mkNode (replicate 20 x) (SocketAddrV4 8 8 8 8 p).
Definition ex_nodes : list NodeTuple :=
  [ex_node 200 1; ex_node 3 2; ex_node 3 1; ex_node 0 7; ex_node 96 4; ex_node 97 5].

Lemma closest_nodes_correct_witness :
  ∃ s, from_nodes ex_nodes 10 = Some s
       ∧ closest_nodes s (replicate 20 1%Z) 3 None = Some [ex_node 0 7; ex_node 3 1; ex_node 3 2].
Proof.
  destruct (closest_nodes_correct ex_nodes 10 3 (replicate 20 1%Z) None) as (s & H1 & H2).
  - vm_compute. repeat constructor; discriminate.
  - reflexivity.
  - exists s. split; [exact H1|]. etransitivity; [exact H2|]. vm_compute. reflexivity.
Defined.

(** ** Random selection *)

(** A snapshot built from distinct nodes with well-formed identifiers. *)
Definition snapshot_ok (snap : RoutingSnapshot) : Prop :=
  ∃ ns limit, from_nodes ns limit = Some snap ∧ Forall id_ok ns ∧ NoDup (addr <$> ns).

(** The sampling primitives of [rand]: [choose_multiple] and [index::sample]
    return distinct indices, as many as asked for or as there are. *)
Class Sampler := {
  sample_indices : nat → nat → list nat;
  sample_indices_nodup len amount : NoDup (sample_indices len amount);
  sample_indices_bound len amount : Forall (λ i, i < len) (sample_indices len amount);
  sample_indices_length len amount : length (sample_indices len amount) = amount `min` len;
}.

Section random.
Context `{Sampler}.

Definition random_nodes (s : RoutingSnapshot) (count : nat) (filter_ipv6 : option bool)
  : option (list NodeTuple) :=
  match filter_ipv6 with
  | Some true => mapM (λ i, nodes (v6 s) !! i) (sample_indices (length (nodes (v6 s))) count)
  | Some false => mapM (λ i, nodes (v4 s) !! i) (sample_indices (length (nodes (v4 s))) count)
  | None =>
      let v4_len := length (nodes (v4 s)) in
      let total := v4_len + length (nodes (v6 s)) in
      mapM (λ i, if bool_decide (i < v4_len) then nodes (v4 s) !! i else nodes (v6 s) !! (i - v4_len))
        (sample_indices total (count `min` total))
  end.

Lemma pick_submseteq (l : list NodeTuple) ix r :
  Forall2 (λ i n, l !! i = Some n) ix r → NoDup ix → r ⊆+ l.
Proof.
  intros H2 Hnd. set (pick := λ i, default (ex_node 0 0) (l !! i)).
  assert (pick <$> ix = r) as <-.
  { clear Hnd. induction H2 as [|i n ix r Hi _ IH]; [done|]. rewrite fmap_cons, IH. f_equal.
    unfold pick. by rewrite Hi. }
  assert (pick <$> seq 0 (length l) = l) as Hl.
  { apply list_eq. intros i. rewrite list_lookup_fmap.
    destruct (decide (i < length l)) as [Hi|Hi].
    - rewrite lookup_seq_lt by done. simpl. unfold pick.
      by destruct (lookup_lt_is_Some_2 l i Hi) as [n ->].
    - rewrite lookup_seq_ge, lookup_ge_None_2 by lia. done. }
  replace (pick <$> ix ⊆+ l) with (pick <$> ix ⊆+ (pick <$> seq 0 (length l))) by by rewrite Hl.
  apply fmap_submseteq, NoDup_submseteq; [done|].
  intros i Hi. apply elem_of_seq. split; [lia|]. simpl.
  apply list_elem_of_lookup in Hi as [j Hj]. destruct (Forall2_lookup_l _ _ _ _ _ H2 Hj) as (n & _ & Hn).
  by eapply lookup_lt_Some.
Qed.

Lemma mapM_lookup_total (l : list NodeTuple) (f : nat → option NodeTuple) (ix : list nat) :
  (∀ i, i < length l → f i = l !! i) → Forall (λ i, i < length l) ix → NoDup ix →
  ∃ r, mapM f ix = Some r ∧ r ⊆+ l ∧ length r = length ix.
Proof.
  intros Hf Hb Hnd.
  assert (∃ r, mapM f ix = Some r ∧ Forall2 (λ i n, l !! i = Some n) ix r) as (r & Hr & H2).
  { clear Hnd. induction Hb as [|i ix Hi Hb (r & Hr & H2)]; [by exists []|].
    destruct (lookup_lt_is_Some_2 l i Hi) as [n Hn].
    exists (n :: r). split; [|by constructor]. simpl. rewrite (Hf i Hi), Hn. simpl. by rewrite Hr. }
  exists r. split_and!; [done|by eapply pick_submseteq|symmetry; by eapply Forall2_length].
Qed.

(** Sampling from any snapshot succeeds: the indices are in range. *)
Lemma random_nodes_total s count filter_ipv6 : is_Some (random_nodes s count filter_ipv6).
Proof.
  assert (∀ (f : nat → option NodeTuple) len k, (∀ i, i < len → is_Some (f i)) →
    is_Some (mapM f (sample_indices len k))) as Hall.
  { intros f len k Hf. apply mapM_is_Some_2. eapply Forall_impl; [apply sample_indices_bound|]. auto. }
  unfold random_nodes. destruct filter_ipv6 as [[]|]; apply Hall; intros i Hi;
    [by apply lookup_lt_is_Some_2..|].
  case_bool_decide; apply lookup_lt_is_Some_2; lia.
Qed.

(** Random selection from a snapshot never panics and returns the asked
    number of nodes (or all there are), drawn without replacement from the
    asked address family. *)
Theorem random_nodes_correct (ns : list NodeTuple) (limit count : nat) (filter_ipv6 : option bool) :
  Forall id_ok ns →
  let family := filter (in_family filter_ipv6) (take limit ns) in
  ∃ s r, from_nodes ns limit = Some s ∧ random_nodes s count filter_ipv6 = Some r
         ∧ r ⊆+ family ∧ length r = count `min` length family.
Proof.
  intros Hok family. destruct (from_nodes_indexes ns limit Hok) as (s & Hs & [H4 _] & [H6 _]).
  exists s. unfold random_nodes.
  assert (∀ l f n, l ≡ₚ family → n `min` length l = count `min` length l →
            (∀ i, i < length l → f i = l !! i) →
            ∃ r, from_nodes ns limit = Some s ∧ mapM f (sample_indices (length l) n) = Some r
                 ∧ r ⊆+ family ∧ length r = count `min` length family) as Hgen.
  { intros l f n Hp Hn Hf.
    destruct (mapM_lookup_total l f (sample_indices (length l) n)) as (r & Hr & Hsub & Hlen);
      [done|apply sample_indices_bound|apply sample_indices_nodup|].
    exists r. rewrite Hlen, sample_indices_length, <-Hp. done. }
  destruct filter_ipv6 as [[]|]; [by apply Hgen..|].
  set (l := nodes (v4 s) ++ nodes (v6 s)).
  assert (l ≡ₚ family) as Hl.
  { unfold l, family. by rewrite H4, H6, in_family_None, split_families. }
  destruct (Hgen l (λ i, if bool_decide (i < length (nodes (v4 s))) then nodes (v4 s) !! i
                         else nodes (v6 s) !! (i - length (nodes (v4 s))))
              (count `min` length l)) as (r & Hr); [done|lia| |].
  - intros i Hi. unfold l. case_bool_decide; [by rewrite lookup_app_l|].
    by rewrite lookup_app_r by lia.
  - exists r. unfold l in Hr. by rewrite length_app in Hr.
Qed.
End random.

(** A sampler: the first indices. *)
#[global] Instance first_sampler : Sampler.
Proof.
  refine {| sample_indices := λ len amount, seq 0 (amount `min` len) |}.
  - intros. apply NoDup_seq.
  - intros len amount. apply Forall_forall. intros i Hi%elem_of_seq. lia.
  - intros. apply length_seq.
Defined.

Lemma random_nodes_correct_witness :
  ∃ s r, from_nodes ex_nodes 10 = Some s ∧ random_nodes (H:=first_sampler) s 4 (Some false) = Some r
         ∧ r ⊆+ ex_nodes ∧ length r = 4.
Proof.
  exact (random_nodes_correct (H:=first_sampler) ex_nodes 10 4 (Some false)
           ltac:(vm_compute; repeat constructor; discriminate)).
Defined.
