(* ===== verification/NodeId.v ===== *)
(** * Node and transaction identifiers ([src/node_id.rs])

    Random bytes are arguments: [rnd] is what [rand] fills the array with. *)

From S2P Require Import Prelude Net.

Local Open Scope Z_scope.

Module NodeId.

Definition transaction_id_from_bytes (bytes : list Z) : option (list Z) :=
  if negb (bool_decide (length bytes = 8%nat)) then None else Some bytes.

(** [random_node_id]: the twenty random bytes themselves. *)
Definition random_node_id (rnd : list Z) : list Z := rnd.

(** [tail i] is the [i]-th byte drawn by [rand::random()]. *)
Definition neighbor_node_id (remote_id local_id : list Z) (tail : nat → Z) : list Z :=
  let prefix_len := Nat.min (length remote_id) 6 in
  let id := take prefix_len remote_id in
  let id := if bool_decide (prefix_len < length local_id)%nat
            then id ++ drop prefix_len local_id else id in
  let id := id ++ (tail <$> seq 0 (20 - length id)) in
  take 20 id.

(** [u8] complement. *)
Definition u8_not (x : Z) : Z := 255 - x.

Definition target_for_bucket (local_id : list Z) (bucket : nat) (rnd : list Z) : option (list Z) :=
  let id := random_node_id rnd in
  let bucket := Nat.min bucket 159 in
  let byte := (bucket `div` 8)%nat in
  let bit := Z.of_nat (7 - bucket `mod` 8) in
  if bool_decide (byte ≤ length id ∧ byte ≤ length local_id)%nat then
    let id := take byte local_id ++ drop byte id in
    let lower_mask := (Z.shiftl 1 bit - 1) in
    let! l := local_id !! byte in
    let! r := id !! byte in
    Some (<[byte := Z.lor (Z.lxor (Z.land l (u8_not lower_mask)) (Z.shiftl 1 bit))
                      (Z.land r lower_mask)]> id)
  else None.

Definition target_for_prefix (prefix : Z) (rnd : list Z) : list Z :=
  <[0%nat := prefix]> (random_node_id rnd).

(** The bucket of an identifier: the position of the first bit in which it
    differs from the local one (159 when there is none). *)
Definition bucket_index (id local_id : list Z) : nat :=
  default 159%nat
    (position (λ bit,
       let byte := (bit `div` 8)%nat in
       negb (Z.land (Z.lxor (id !!! byte) (local_id !!! byte))
                    (Z.shiftl 1 (Z.of_nat (7 - bit `mod` 8))) =? 0))
     (seq 0 (Nat.min 160 (8 * length id)))).

Definition id20 (l : list Z) : Prop := length l = 20%nat ∧ Forall is_byte l.

(** ** Bit facts *)

Lemma mixed_byte l r k j :
  is_byte l → 0 ≤ k ≤ 7 → k ≤ j ≤ 7 →
  Z.testbit (Z.lor (Z.lxor (Z.land l (u8_not (Z.shiftl 1 k - 1))) (Z.shiftl 1 k))
                   (Z.land r (Z.shiftl 1 k - 1))) j
  = xorb (Z.testbit l j) (bool_decide (j = k)).
Proof.
  intros Hl Hk Hj. rewrite Z.lor_spec, Z.lxor_spec, !Z.land_spec.
  assert (Z.testbit (Z.shiftl 1 k - 1) j = false) as ->.
  { rewrite Z.shiftl_1_l, Z.sub_1_r, <-Z.ones_equiv. apply Z.ones_spec_high. lia. }
  assert (Z.testbit (u8_not (Z.shiftl 1 k - 1)) j = true) as ->.
  { unfold u8_not. rewrite Z.shiftl_1_l.
    replace (255 - (2 ^ k - 1)) with (Z.shiftl (Z.ones (8 - k)) k).
    - rewrite Z.shiftl_spec by lia. apply Z.ones_spec_low. lia.
    - rewrite Z.shiftl_mul_pow2, Z.ones_equiv by lia.
      assert (2 ^ (8 - k) * 2 ^ k = 256) by (rewrite <-Z.pow_add_r by lia; by replace (8 - k + k) with 8 by lia).
      lia. }
  rewrite Z.shiftl_1_l, Z.pow2_bits_eqb by lia. rewrite andb_false_r, andb_true_r, orb_false_r.
  f_equal. destruct (Z.eqb_spec k j); case_bool_decide; (done || lia).
Qed.

Lemma position_seq_first (p : nat → bool) n s b :
  (s ≤ b < s + n)%nat → p b = true → (∀ i, (s ≤ i < b)%nat → p i = false) →
  position p (seq s n) = Some (b - s)%nat.
Proof.
  revert s; induction n as [|n IH]; intros s Hb Hp Hlt; [lia|]. simpl.
  destruct (decide (s = b)) as [->|Hne].
  - rewrite Hp. f_equal. lia.
  - rewrite Hlt by lia. rewrite IH; [simpl; f_equal; lia|lia|done|]. intros i Hi. apply Hlt. lia.
Qed.

Lemma target_for_bucket_total local b rnd :
  id20 local → id20 rnd →
  ∃ t, target_for_bucket local b rnd = Some t ∧ length t = 20%nat
    ∧ let byte := (Nat.min b 159 `div` 8)%nat in
      let k := Z.of_nat (7 - Nat.min b 159 `mod` 8) in
      (byte < 20)%nat ∧ take byte t = take byte local
      ∧ ∃ l r, local !! byte = Some l ∧ is_byte l ∧ t !! byte =
          Some (Z.lor (Z.lxor (Z.land l (u8_not (Z.shiftl 1 k - 1))) (Z.shiftl 1 k))
                      (Z.land r (Z.shiftl 1 k - 1))).
Proof.
  intros [Ll Bl] [Lr Br]. unfold target_for_bucket, random_node_id.
  set (byte := (Nat.min b 159 `div` 8)%nat). set (k := Z.of_nat (7 - Nat.min b 159 `mod` 8)).
  assert (byte < 20)%nat as Hbyte by (apply Nat.Div0.div_lt_upper_bound; lia).
  rewrite bool_decide_true by lia.
  destruct (lookup_lt_is_Some_2 local byte) as [l Hl]; [lia|]. rewrite Hl.
  assert (length (take byte local) = byte) as Ltk by (rewrite length_take; lia).
  destruct (lookup_lt_is_Some_2 rnd byte) as [r Hr]; [lia|].
  rewrite lookup_app_r, Ltk, Nat.sub_diag, lookup_drop, Nat.add_0_r, Hr by lia.
  eexists. split; [done|].
  assert (length (take byte local ++ drop byte rnd) = 20%nat) as Lapp
    by (rewrite length_app, Ltk, length_drop; lia).
  split_and!; [by rewrite length_insert|done| |].
  - rewrite take_insert_ge by done. rewrite take_app_le by lia. apply take_ge. lia.
  - exists l, r. split_and!; [done|exact (Forall_lookup_1 _ _ _ _ Bl Hl)|].
    rewrite list_lookup_insert_eq; [done|lia].
Qed.

(** A target drawn for a bucket lands in that bucket: whatever the random
    bytes, the first bit in which it differs from the local identifier is the
    requested one. *)
Theorem target_for_bucket_correct (local_id rnd : list Z) (bucket : nat) :
  id20 local_id → id20 rnd → (bucket < 160)%nat →
  ∃ t, target_for_bucket local_id bucket rnd = Some t ∧ length t = 20%nat
       ∧ bucket_index t local_id = bucket.
Proof.
  intros Hl Hr Hb.
  destruct (target_for_bucket_total local_id bucket rnd Hl Hr)
    as (t & Ht & Lt & Hbyte & Htake & l & r & Hlb & Bl & Htb).
  exists t. split_and!; [done..|]. destruct Hl as [Ll _].
  rewrite (Nat.min_l bucket 159) in * by lia.
  set (byte := (bucket `div` 8)%nat) in *.
  unfold bucket_index. rewrite Lt. change (Nat.min 160 (8 * 20)) with 160%nat.
  rewrite (position_seq_first _ 160 0 bucket); [simpl; lia|lia| |].
  - fold byte. rewrite land_pow2_zero by lia. rewrite negb_involutive.
    rewrite (list_lookup_total_correct t byte _ Htb), (list_lookup_total_correct local_id byte _ Hlb).
    rewrite Z.lxor_spec, mixed_byte, bool_decide_true by (done || lia).
    by destruct (Z.testbit l _).
  - intros i Hi. cbn zeta. rewrite land_pow2_zero by lia. rewrite negb_involutive.
    destruct (decide (i `div` 8 = byte)%nat) as [E|E].
    + rewrite E, (list_lookup_total_correct t byte _ Htb), (list_lookup_total_correct local_id byte _ Hlb).
      assert (i `mod` 8 < bucket `mod` 8)%nat.
      { pose proof (Nat.div_mod_eq i 8). pose proof (Nat.div_mod_eq bucket 8). unfold byte in E. lia. }
      pose proof (Nat.mod_upper_bound bucket 8 ltac:(done)).
      rewrite Z.lxor_spec, mixed_byte, bool_decide_false by (done || lia).
      by destruct (Z.testbit l _).
    + assert (i `div` 8 < byte)%nat as Hlt.
      { pose proof (Nat.Div0.div_le_mono i bucket 8 ltac:(lia)). unfold byte in *. lia. }
      assert (t !!! (i `div` 8)%nat = local_id !!! (i `div` 8)%nat) as ->.
      { rewrite !list_lookup_total_alt. f_equal.
        rewrite <-(lookup_take_lt t byte), <-(lookup_take_lt local_id byte) by done. by rewrite Htake. }
      by rewrite Z.lxor_nilpotent, Z.bits_0.
Qed.

Lemma target_for_bucket_correct_witness :
  ∃ t, target_for_bucket (replicate 20 170) 13 (replicate 20 255) = Some t ∧ length t = 20%nat
       ∧ bucket_index t (replicate 20 170) = 13%nat.
Proof.
  apply (target_for_bucket_correct (replicate 20 170) (replicate 20 255) 13);
    [split; [done|]|split; [done|]|lia]; apply Forall_replicate; unfold is_byte; lia.
Defined.

(** The sender identifier shown to a remote node shares its first six bytes
    and keeps the local tail. *)
Lemma neighbor_node_id_full remote local tail :
  length remote = 20%nat → length local = 20%nat →
  neighbor_node_id remote local tail = take 6 remote ++ drop 6 local.
Proof.
  intros Hr Hl. unfold neighbor_node_id. rewrite Hr. simpl (Nat.min 20 6).
  rewrite bool_decide_true by lia.
  assert (length (take 6 remote ++ drop 6 local) = 20%nat) as E
    by (rewrite length_app, length_take, length_drop; lia).
  rewrite E. cbn [Nat.sub seq fmap list_fmap]. rewrite app_nil_r. apply take_ge. lia.
Qed.

Lemma neighbor_node_id_length remote local tail : length (neighbor_node_id remote local tail) = 20%nat.
Proof.
  unfold neighbor_node_id. cbn zeta. case_bool_decide;
    rewrite length_take, length_app, length_fmap, length_seq; lia.
Qed.

End NodeId.
