(* ===== verification/Krpc.v ===== *)
(** * KRPC messages ([src/krpc.rs], [src/protocol.rs])

    Byte strings are lists of integers in [0, 255].  Encoders write into a
    cleared buffer; the compact-node and compact-peer readers walk the fields
    of a decoded response.  Decoding of the envelope itself is done by a
    third-party bencode library; the specification below is a small bencode
    reader against which the encoders' output is shown to be unambiguous. *)

From S2P Require Import Prelude Net.

Local Open Scope Z_scope.

(** Byte-string literals. *)
Definition b (s : string) : list Z :=
  (λ a, Z.of_nat (Ascii.nat_of_ascii a)) <$> String.list_ascii_of_string s.

(** ** protocol.rs *)

Record DhtArgs := mkArgs {
  a_id : option (list Z);
  a_target : option (list Z);
  a_info_hash : option (list Z);
  a_token : option (list Z);
  a_port : option Z;
  a_implied_port : option Z;
}.

Record DhtResponse := mkResponse {
  r_id : option (list Z);
  r_nodes : option (list Z);
  r_nodes6 : option (list Z);
  r_values : option (list (list Z));
  r_samples : option (list Z);
  r_interval : option Z;
  r_num : option Z;
}.

Record DhtMessage := mkMessage {
  m_t : list Z;
  m_y : string;
  m_q : option string;
  m_a : option DhtArgs;
  m_r : option DhtResponse;
}.

(** ** Reading compact endpoints *)

(** [slice::chunks_exact] *)
Definition chunks_exact (n : nat) (l : list Z) : list (list Z) :=
  (λ i, take n (drop (i * n) l)) <$> seq 0 (length l `div` n).

Definition from_be_bytes (hi lo : Z) : Z := hi * 256 + lo.
Definition to_be_bytes (p : Z) : list Z := [p `div` 256; p `mod` 256].

Definition node_of_chunk4 (chunk : list Z) : NodeTuple :=
  mkNode (take 20 chunk)
    (SocketAddrV4 (chunk !!! 20%nat) (chunk !!! 21%nat) (chunk !!! 22%nat) (chunk !!! 23%nat)
       (from_be_bytes (chunk !!! 24%nat) (chunk !!! 25%nat))).

Definition node_of_chunk6 (chunk : list Z) : NodeTuple :=
  mkNode (take 20 chunk)
    (SocketAddrV6 (take 16 (drop 20 chunk)) (from_be_bytes (chunk !!! 36%nat) (chunk !!! 37%nat)) 0 0).

Section visit.
Context {S : Type} (visit : S → NodeTuple → S).

(** One pass of [for chunk in nodes.chunks_exact(..)]. *)
Definition visit_chunks (node_of : list Z → NodeTuple) (chunks : list (list Z)) (st : nat * S)
  : nat * S :=
  fold_left (λ st chunk,
    let node := node_of chunk in
    if is_valid_node_addr (addr node) then (Datatypes.S st.1, visit st.2 node) else st) chunks st.

Definition for_each_response_node (response : DhtResponse) (netmode : NetMode) (s : S) : nat * S :=
  let st := (0%nat, s) in
  let st :=
    match r_nodes response with
    | Some nodes =>
        if negb (bool_decide (netmode = Ipv6Only)) && bool_decide (length nodes `mod` 26 = 0)%nat
        then visit_chunks node_of_chunk4 (chunks_exact 26 nodes) st else st
    | None => st
    end in
  match r_nodes6 response with
  | Some nodes =>
      if negb (bool_decide (netmode = Ipv4Only)) && bool_decide (length nodes `mod` 38 = 0)%nat
      then visit_chunks node_of_chunk6 (chunks_exact 38 nodes) st else st
  | None => st
  end.
End visit.

Definition peer_of_value (bytes : list Z) : option SocketAddr :=
  if bool_decide (length bytes = 6)%nat then
    Some (SocketAddrV4 (bytes !!! 0%nat) (bytes !!! 1%nat) (bytes !!! 2%nat) (bytes !!! 3%nat)
            (from_be_bytes (bytes !!! 4%nat) (bytes !!! 5%nat)))
  else if bool_decide (length bytes = 18)%nat then
    Some (SocketAddrV6 (take 16 bytes) (from_be_bytes (bytes !!! 16%nat) (bytes !!! 17%nat)) 0 0)
  else None.

Definition for_each_response_peer {S} (visit : S → SocketAddr → S) (response : DhtResponse)
    (netmode : NetMode) (s : S) : nat * S :=
  match r_values response with
  | None => (0%nat, s)
  | Some values =>
      fold_left (λ st value,
        match peer_of_value value with
        | None => st
        | Some a =>
            if addr_allowed_by_netmode a netmode && is_valid_node_addr a
            then (Datatypes.S st.1, visit st.2 a) else st
        end) values (0%nat, s)
  end.

(** ** Encoders *)

Definition encode_find_node_query (buffer tid target sender_id : list Z) : list Z :=
  let buffer := [] in
  let buffer := buffer ++ b "d1:ad2:id20:" in
  let buffer := buffer ++ sender_id in
  let buffer := buffer ++ b "6:target20:" in
  let buffer := buffer ++ target in
  let buffer := buffer ++ b "e1:q9:find_node1:t8:" in
  let buffer := buffer ++ tid in
  buffer ++ b "1:y1:qe".

Definition encode_get_peers_query (buffer tid info_hash sender_id : list Z) : list Z :=
  let buffer := [] in
  let buffer := buffer ++ b "d1:ad2:id20:" in
  let buffer := buffer ++ sender_id in
  let buffer := buffer ++ b "9:info_hash20:" in
  let buffer := buffer ++ info_hash in
  let buffer := buffer ++ b "e1:q9:get_peers1:t8:" in
  let buffer := buffer ++ tid in
  buffer ++ b "1:y1:qe".

Definition encode_sample_infohashes_query (buffer tid target sender_id : list Z) : list Z :=
  let buffer := [] in
  let buffer := buffer ++ b "d1:ad2:id20:" in
  let buffer := buffer ++ sender_id in
  let buffer := buffer ++ b "6:target20:" in
  let buffer := buffer ++ target in
  let buffer := buffer ++ b "e1:q17:sample_infohashes1:t8:" in
  let buffer := buffer ++ tid in
  buffer ++ b "1:y1:qe".

(** The digit loop of [push_usize]; [None] is the cursor running off the
    twenty-byte array. *)
Fixpoint digits_loop (fuel : nat) (digits : list Z) (cursor : nat) (value : Z)
  : option (list Z * nat) :=
  match fuel, cursor with
  | S fuel, S cursor =>
      let digits := <[cursor := 48 + value `mod` 10]> digits in
      let value := value `div` 10 in
      if value =? 0 then Some (digits, cursor) else digits_loop fuel digits cursor value
  | _, _ => None
  end.

Definition push_usize (buffer : list Z) (value : Z) : option (list Z) :=
  let digits := replicate 20 0 in
  let! r := digits_loop 20 digits (length digits) value in
  Some (buffer ++ drop r.2 r.1).

(** The arm of the [match node.addr.ip()] in [encode_response]. *)
Definition push_node (ipv6 : bool) (buffer : list Z) (node : NodeTuple) : list Z :=
  match addr node, ipv6 with
  | SocketAddrV4 x y z w p, false => buffer ++ id node ++ [x; y; z; w] ++ to_be_bytes p
  | SocketAddrV6 o p _ _, true => buffer ++ id node ++ o ++ to_be_bytes p
  | _, _ => buffer
  end.

Definition encode_response (buffer tid node_id token : list Z) (nodes : list NodeTuple)
    (ipv6 : bool) : option (list Z) :=
  let buffer := [] in
  let buffer := buffer ++ b "d1:rd2:id20:" in
  let buffer := buffer ++ node_id in
  let compact_len :=
    if ipv6 then (length (filter (λ n, is_ipv6 (addr n) = true) nodes) * 38)%nat
    else (length (filter (λ n, is_ipv4 (addr n) = true) nodes) * 26)%nat in
  let! buffer :=
    (if bool_decide (0 < compact_len)%nat then
       let buffer := if ipv6 then buffer ++ b "6:nodes6" else buffer ++ b "5:nodes" in
       let! buffer := push_usize buffer (Z.of_nat compact_len) in
       let buffer := buffer ++ b ":" in
       Some (fold_left (push_node ipv6) nodes buffer)
     else Some buffer) in
  let buffer := buffer ++ b "5:token8:" in
  let buffer := buffer ++ token in
  let buffer := buffer ++ b "e1:t" in
  let! buffer := push_usize buffer (Z.of_nat (length tid)) in
  let buffer := buffer ++ b ":" in
  let buffer := buffer ++ tid in
  Some (buffer ++ b "1:y1:re").

(** [send_find_node_query]: the datagram is sent or the send fails. *)
Definition send_find_node_query (send_to : list Z → SocketAddr → option nat) (a : SocketAddr)
    (tid target sender_id buffer : list Z) : bool * list Z :=
  let buffer := encode_find_node_query buffer tid target sender_id in
  match send_to buffer a with Some _ => (true, buffer) | None => (false, buffer) end.

(** ** Reference: bencoded strings and dictionaries *)

Inductive bval :=
  | BStr (s : list Z)
  | BDict (l : list (list Z * bval)).

Fixpoint decimal (fuel : nat) (n : Z) : list Z :=
  match fuel with
  | 0%nat => []
  | S fuel => if n `div` 10 =? 0 then [48 + n `mod` 10]
              else decimal fuel (n `div` 10) ++ [48 + n `mod` 10]
  end.

Definition benc_str (s : list Z) : list Z := decimal 20 (Z.of_nat (length s)) ++ [58] ++ s.

Fixpoint benc (v : bval) : list Z :=
  match v with
  | BStr s => benc_str s
  | BDict l => [100] ++ concat (map (λ kv, benc_str kv.1 ++ benc kv.2) l) ++ [101]
  end.

(** Reads a decimal length up to the colon. *)
Fixpoint read_len (acc : Z) (l : list Z) : option (Z * list Z) :=
  match l with
  | [] => None
  | c :: l =>
      if c =? 58 then Some (acc, l)
      else if (48 <=? c) && (c <=? 57) then read_len (acc * 10 + (c - 48)) l
      else None
  end.

Definition read_str (l : list Z) : option (list Z * list Z) :=
  let! r := read_len 0 l in
  let n := Z.to_nat r.1 in
  if bool_decide (n ≤ length r.2)%nat then Some (take n r.2, drop n r.2) else None.

Fixpoint bdec (fuel : nat) (l : list Z) : option (bval * list Z) :=
  match fuel with
  | 0%nat => None
  | S fuel =>
      match l with
      | [] => None
      | c :: l' =>
          if c =? 100 then let! r := bdec_entries fuel l' in Some (BDict r.1, r.2)
          else let! r := read_str l in Some (BStr r.1, r.2)
      end
  end
with bdec_entries (fuel : nat) (l : list Z) : option (list (list Z * bval) * list Z) :=
  match fuel with
  | 0%nat => None
  | S fuel =>
      match l with
      | [] => None
      | c :: l' =>
          if c =? 101 then Some ([], l')
          else
            let! k := read_str l in
            let! v := bdec fuel k.2 in
            let! r := bdec_entries fuel v.2 in
            Some ((k.1, v.1) :: r.1, r.2)
      end
  end.

(** ** Decimal lengths *)

Definition is_digit (c : Z) : Prop := 48 ≤ c ≤ 57.
Definition read_digits (acc : Z) (l : list Z) : Z := fold_left (λ a c, a * 10 + (c - 48)) l acc.

Lemma decimal_digits fuel n : Forall is_digit (decimal fuel n).
Proof.
  assert (∀ m, is_digit (48 + m `mod` 10)) as Hd.
  { intros m. unfold is_digit. pose proof (Z.mod_pos_bound m 10). lia. }
  revert n; induction fuel as [|fuel IH]; intros n; cbn [decimal]; [constructor|].
  case_match; [apply Forall_singleton, Hd|].
  apply Forall_app. split; [apply IH|apply Forall_singleton, Hd].
Qed.

Lemma decimal_cons fuel n : ∃ c l, decimal (S fuel) n = c :: l ∧ is_digit c.
Proof.
  pose proof (decimal_digits (S fuel) n) as Hd.
  destruct (decimal (S fuel) n) as [|c l] eqn:E.
  - cbn [decimal] in E. case_match; [done|]. by destruct (decimal fuel (n `div` 10)).
  - exists c, l. split; [done|]. by inversion Hd.
Qed.

Lemma decimal_value fuel n : 0 ≤ n < 10 ^ Z.of_nat fuel → read_digits 0 (decimal fuel n) = n.
Proof.
  revert n; induction fuel as [|fuel IH]; intros n Hn; cbn [decimal].
  { change (10 ^ Z.of_nat 0) with 1 in Hn. unfold read_digits. simpl. lia. }
  pose proof (Z.div_mod n 10 ltac:(lia)).
  destruct (Z.eqb_spec (n `div` 10) 0) as [E|E].
  - unfold read_digits. simpl. lia.
  - unfold read_digits. rewrite fold_left_app. simpl. fold (read_digits 0 (decimal fuel (n `div` 10))).
    rewrite IH; [lia|]. rewrite Nat2Z.inj_succ, Z.pow_succ_r in Hn by lia.
    split; [apply Z.div_pos; lia|apply Z.div_lt_upper_bound; lia].
Qed.

Lemma read_len_digits acc l rest :
  Forall is_digit l → read_len acc (l ++ 58 :: rest) = Some (read_digits acc l, rest).
Proof.
  intros Hl. revert acc; induction Hl as [|c l Hc _ IH]; intros acc; simpl; [done|].
  unfold is_digit in Hc. destruct (Z.eqb_spec c 58); [lia|].
  destruct (Z.leb_spec 48 c), (Z.leb_spec c 57); try lia. simpl. apply IH.
Qed.

Lemma digits_loop_spec fuel digits cursor value :
  0 ≤ value < 10 ^ Z.of_nat cursor → (0 < cursor ≤ fuel)%nat → (cursor ≤ length digits)%nat →
  ∃ d c, digits_loop fuel digits cursor value = Some (d, c)
         ∧ drop c d = decimal cursor value ++ drop cursor digits.
Proof.
  revert digits cursor value; induction fuel as [|fuel IH]; intros digits cursor value Hv Hc Hl; [lia|].
  destruct cursor as [|cursor]; [lia|]. cbn [digits_loop decimal].
  set (digits' := <[cursor := _]> digits).
  assert (drop cursor digits' = (48 + value `mod` 10) :: drop (S cursor) digits) as Hd.
  { unfold digits'. rewrite (drop_S _ (48 + value `mod` 10)); [|apply list_lookup_insert_eq; lia].
    by rewrite drop_insert_lt by lia. }
  destruct (Z.eqb_spec (value `div` 10) 0) as [E|E].
  - exists digits', cursor. split; [done|]. by rewrite Hd.
  - rewrite Nat2Z.inj_succ, Z.pow_succ_r in Hv by lia.
    assert (0 ≤ value `div` 10 < 10 ^ Z.of_nat cursor)
      by (split; [apply Z.div_pos; lia|apply Z.div_lt_upper_bound; lia]).
    destruct cursor as [|cursor]; [change (10 ^ Z.of_nat 0) with 1 in *; lia|].
    destruct (IH digits' (S cursor) (value `div` 10)) as (d & c & Hloop & Hdrop);
      [done|lia|unfold digits'; rewrite length_insert; lia|].
    exists d, c. split; [done|]. rewrite Hdrop, Hd. by rewrite <-app_assoc.
Qed.

Lemma push_usize_spec buffer value :
  0 ≤ value ≤ usize_max → push_usize buffer value = Some (buffer ++ decimal 20 value).
Proof.
  intros Hv. unfold push_usize.
  destruct (digits_loop_spec 20 (replicate 20 0) 20 value) as (d & c & Hloop & Hdrop);
    [change (10 ^ Z.of_nat 20) with 100000000000000000000; unfold usize_max, u64_max in *; lia
    |lia|done|].
  change (length (replicate 20 0)) with 20%nat. rewrite Hloop. cbn [fst snd]. rewrite Hdrop.
  by rewrite drop_ge, app_nil_r by done.
Qed.

(** ** Bencode round trip *)

#[global] Arguments decimal : simpl never.

Definition len_ok (s : list Z) : Prop := Z.of_nat (length s) ≤ usize_max.

Fixpoint bwf (v : bval) : Prop :=
  match v with
  | BStr s => len_ok s
  | BDict l => foldr (λ kv P, len_ok kv.1 ∧ bwf kv.2 ∧ P) True l
  end.

Fixpoint bsize (v : bval) : nat :=
  match v with
  | BStr _ => 1
  | BDict l => S (foldr (λ kv n, S (bsize kv.2 + n)) 1%nat l)
  end.

Lemma read_str_benc s rest : len_ok s → read_str (benc_str s ++ rest) = Some (s, rest).
Proof.
  intros Hs. unfold read_str, benc_str. rewrite <-!app_assoc. cbn [app].
  rewrite read_len_digits by apply decimal_digits.
  rewrite decimal_value; [|unfold len_ok, usize_max, u64_max in Hs;
    change (10 ^ Z.of_nat 20) with 100000000000000000000; lia].
  cbn [fst snd]. rewrite Nat2Z.id, bool_decide_true by (rewrite length_app; lia).
  by rewrite take_app_length, drop_app_length.
Qed.

Lemma benc_str_cons s : ∃ c l, benc_str s = c :: l ∧ is_digit c.
Proof.
  destruct (decimal_cons 19 (Z.of_nat (length s))) as (c & l & E & Hc).
  exists c, (l ++ [58] ++ s). unfold benc_str. by rewrite E.
Qed.

Lemma bdec_benc fuel :
  (∀ v rest, (bsize v ≤ fuel)%nat → bwf v → bdec fuel (benc v ++ rest) = Some (v, rest))
  ∧ (∀ l rest, (foldr (λ kv n, S (bsize kv.2 + n)) 1%nat l ≤ fuel)%nat →
       foldr (λ kv P, len_ok kv.1 ∧ bwf kv.2 ∧ P) True l →
       bdec_entries fuel (concat (map (λ kv, benc_str kv.1 ++ benc kv.2) l) ++ 101 :: rest)
       = Some (l, rest)).
Proof.
  induction fuel as [|fuel [IHv IHl]].
  { split; [intros [] rest Hs _; simpl in Hs; lia|intros [|[k v] l] rest Hs _; simpl in Hs; lia]. }
  split.
  - intros [s|l] rest Hs Hwf; simpl in Hs, Hwf; cbn [benc bdec].
    + destruct (benc_str_cons s) as (c & l & E & Hc). pose proof (read_str_benc s rest Hwf) as Hr.
      rewrite E in *. simpl in *. unfold is_digit in Hc. destruct (Z.eqb_spec c 100); [lia|].
      by rewrite Hr.
    + rewrite <-!app_assoc. cbn [app Z.eqb Pos.eqb]. rewrite IHl; [done|lia|done].
  - intros [|[k v] l] rest Hs Hwf; [done|]. simpl in Hs, Hwf. destruct Hwf as (Hk & Hv & Hl).
    cbn [map concat bdec_entries fst snd]. rewrite <-!app_assoc.
    destruct (benc_str_cons k) as (c & l' & E & Hc).
    pose proof (read_str_benc k (benc v ++ concat (map (λ kv, benc_str kv.1 ++ benc kv.2) l) ++ 101 :: rest) Hk) as Hr.
    rewrite E in *. simpl in Hr |- *. unfold is_digit in Hc. destruct (Z.eqb_spec c 101); [lia|].
    rewrite Hr. cbn [fst snd]. rewrite IHv by (done || lia). cbn [fst snd].
    rewrite IHl by (done || lia). done.
Qed.

(** ** Queries *)

Definition query_value (method arg : string) (tid value sender_id : list Z) : bval :=
  BDict [(b "a", BDict [(b "id", BStr sender_id); (b arg, BStr value)]);
         (b "q", BStr (b method)); (b "t", BStr tid); (b "y", BStr (b "q"))].

(** Each query encoder writes, whatever the buffer held before, exactly
    one bencoded dictionary: reading it back yields the method, the sender,
    the argument and the transaction identifier, with nothing left over. *)
Theorem queries_roundtrip (buffer tid value sender_id : list Z) :
  length tid = 8%nat → length value = 20%nat → length sender_id = 20%nat →
  bdec 16 (encode_find_node_query buffer tid value sender_id)
    = Some (query_value "find_node" "target" tid value sender_id, [])
  ∧ bdec 16 (encode_get_peers_query buffer tid value sender_id)
    = Some (query_value "get_peers" "info_hash" tid value sender_id, [])
  ∧ bdec 16 (encode_sample_infohashes_query buffer tid value sender_id)
    = Some (query_value "sample_infohashes" "target" tid value sender_id, []).
Proof.
  intros Ht Hv Hs.
  assert (∀ m a, a = "target" ∨ a = "info_hash" →
            m = "find_node" ∨ m = "get_peers" ∨ m = "sample_infohashes" →
            bdec 16 (benc (query_value m a tid value sender_id) ++ [])
            = Some (query_value m a tid value sender_id, [])) as Hdec.
  { intros m a Ha Hm. apply bdec_benc; [destruct Ha as [->| ->], Hm as [->|[->| ->]]; vm_compute; lia|].
    simpl. unfold len_ok. rewrite Ht, Hv, Hs. unfold usize_max, u64_max.
    destruct Ha as [->| ->], Hm as [->|[->| ->]]; vm_compute; intuition discriminate. }
  assert (∀ m a out, a = "target" ∨ a = "info_hash" →
            m = "find_node" ∨ m = "get_peers" ∨ m = "sample_infohashes" →
            out = benc (query_value m a tid value sender_id) →
            bdec 16 out = Some (query_value m a tid value sender_id, [])) as Hout.
  { intros m a out Ha Hm ->. rewrite <-Hdec by done. by rewrite app_nil_r. }
  split_and!; apply Hout; auto; unfold query_value; cbn [benc map concat fst snd]; unfold benc_str;
    rewrite Ht, Hv, Hs; unfold encode_find_node_query, encode_get_peers_query,
      encode_sample_infohashes_query; rewrite <-!app_assoc, ?app_nil_l; cbv -[app]; simpl; reflexivity.
Qed.

Lemma queries_roundtrip_witness :
  bdec 16 (encode_find_node_query [1; 2; 3] (replicate 8 7) (replicate 20 1) (replicate 20 2))
  = Some (query_value "find_node" "target" (replicate 8 7) (replicate 20 1) (replicate 20 2), []).
Proof.
  apply (queries_roundtrip [1; 2; 3] (replicate 8 7) (replicate 20 1) (replicate 20 2)); reflexivity.
Defined.

(** ** Compact nodes *)

Definition compact_node (n : NodeTuple) : list Z :=
  match addr n with
  | SocketAddrV4 x y z w p => id n ++ [x; y; z; w] ++ to_be_bytes p
  | SocketAddrV6 o p _ _ => id n ++ o ++ to_be_bytes p
  end.

(** What a compact tuple keeps of a node: not the IPv6 flow info and scope. *)
Definition canonical (n : NodeTuple) : NodeTuple := mkNode (id n) (with_ip_port (addr n) (port (addr n))).

Definition family (ipv6 : bool) (n : NodeTuple) : Prop := is_ipv6 (addr n) = ipv6.
#[global] Instance family_dec ipv6 n : Decision (family ipv6 n).
Proof. unfold family. apply _. Defined.

Definition compact (ipv6 : bool) (nodes : list NodeTuple) : list Z :=
  concat (compact_node <$> filter (family ipv6) nodes).

Lemma push_nodes_spec ipv6 nodes buffer :
  fold_left (push_node ipv6) nodes buffer = buffer ++ compact ipv6 nodes.
Proof.
  revert buffer; induction nodes as [|n nodes IH]; intros buffer; [by rewrite app_nil_r|].
  cbn [fold_left]. rewrite IH. unfold compact.
  destruct n as [i [x y z w p|o p fl sc]], ipv6; unfold push_node; cbn [addr];
    [rewrite filter_cons_False by done|rewrite filter_cons_True by done
    |rewrite filter_cons_True by done|rewrite filter_cons_False by done]; try done;
    rewrite fmap_cons; set (rest := compact_node <$> _); cbn [concat]; unfold compact_node;
    cbn [addr id]; by rewrite <-!app_assoc.
Qed.

Definition width (ipv6 : bool) : nat := if ipv6 then 38%nat else 26%nat.

Lemma compact_node_length ipv6 n : node_wf n → family ipv6 n → length (compact_node n) = width ipv6.
Proof.
  intros (Hid & _ & Ha) Hf. destruct n as [i [x y z w p|o p fl sc]], ipv6; try done;
    unfold compact_node; simpl in *; rewrite !length_app; simpl; [lia|].
  destruct Ha as [Ho _]. lia.
Qed.

Lemma lookup_total_app_plus {A} `{Inhabited A} (l l' : list A) i k :
  length l = k → (l ++ l') !!! (k + i)%nat = l' !!! i.
Proof. intros <-. rewrite !list_lookup_total_alt, lookup_app_r by lia. do 2 f_equal. lia. Qed.

Lemma read_compact_node (ipv6 : bool) n :
  node_wf n → family ipv6 n →
  (if ipv6 then node_of_chunk6 else node_of_chunk4) (compact_node n) = canonical n.
Proof.
  intros (Hid & _ & Ha) Hf. destruct n as [i [x y z w p|o p fl sc]], ipv6; try done;
    unfold compact_node, canonical, node_of_chunk4, node_of_chunk6; simpl in Hid, Ha |- *.
  - f_equal; [by rewrite take_app_le, take_ge by lia|].
    rewrite (lookup_total_app_plus _ _ 0 20), (lookup_total_app_plus _ _ 1 20),
      (lookup_total_app_plus _ _ 2 20), (lookup_total_app_plus _ _ 3 20),
      (lookup_total_app_plus _ _ 4 20), (lookup_total_app_plus _ _ 5 20) by done.
    cbn. f_equal. unfold from_be_bytes. pose proof (Z.div_mod p 256). lia.
  - destruct Ha as (Ho & _ & Hp). f_equal; [by rewrite take_app_le, take_ge by lia|].
    rewrite drop_app_length' by done.
    f_equal; [by rewrite take_app_le, take_ge by lia|].
    rewrite (lookup_total_app_plus _ _ 16 20), (lookup_total_app_plus _ _ 17 20) by done.
    rewrite (lookup_total_app_plus _ _ 0 16), (lookup_total_app_plus _ _ 1 16) by done.
    cbn. unfold from_be_bytes. pose proof (Z.div_mod p 256). lia.
Qed.

Lemma chunks_exact_concat n (ls : list (list Z)) :
  (0 < n)%nat → Forall (λ l, length l = n) ls →
  chunks_exact n (concat ls) = ls ∧ length (concat ls) = (length ls * n)%nat.
Proof.
  intros Hn Hl. induction Hl as [|c ls Hc Hls [IH1 IH2]].
  { split; [|done]. unfold chunks_exact. by rewrite Nat.Div0.div_0_l. }
  cbn [concat]. rewrite length_app, IH2, Hc. split; [|simpl; lia].
  unfold chunks_exact in *. rewrite length_app, IH2, Hc in *.
  replace (n + length ls * n)%nat with (S (length ls) * n)%nat by lia.
  rewrite Nat.div_mul in * by lia. cbn [seq]. rewrite fmap_cons. simpl. rewrite drop_0.
  rewrite take_app_length' by done. f_equal. rewrite <-fmap_S_seq, <-list_fmap_compose.
  etrans; [|exact IH1]. apply list_fmap_ext. intros _ i _. simpl.
  by rewrite <-Hc, <-drop_drop, drop_app_length.
Qed.

Definition valid (n : NodeTuple) : Prop := is_valid_node_addr (addr n) = true.

Lemma visit_chunks_spec {S} (visit : S → NodeTuple → S) node_of chunks k s :
  let l := filter valid (node_of <$> chunks) in
  visit_chunks visit node_of chunks (k, s) = ((k + length l)%nat, fold_left visit l s).
Proof.
  cbn zeta. revert k s. unfold visit_chunks. induction chunks as [|c chunks IH]; intros k s.
  { simpl. by rewrite Nat.add_0_r. }
  rewrite fmap_cons. cbn [fold_left].
  destruct (is_valid_node_addr (addr (node_of c))) eqn:E; rewrite IH.
  - rewrite filter_cons_True by done. cbn. f_equal. lia.
  - rewrite filter_cons_False; [done|]. unfold valid. by rewrite E.
Qed.

(** The nodes a response carries for a network mode, in order. *)
Definition response_nodes (response : DhtResponse) (netmode : NetMode) : list NodeTuple :=
  filter valid
    ((match r_nodes response with
      | Some l => if negb (bool_decide (netmode = Ipv6Only)) && bool_decide (length l `mod` 26 = 0)%nat
                  then node_of_chunk4 <$> chunks_exact 26 l else []
      | None => []
      end)
     ++ (match r_nodes6 response with
         | Some l => if negb (bool_decide (netmode = Ipv4Only)) && bool_decide (length l `mod` 38 = 0)%nat
                     then node_of_chunk6 <$> chunks_exact 38 l else []
         | None => []
         end)).

Lemma for_each_response_node_spec {S} (visit : S → NodeTuple → S) response netmode s :
  for_each_response_node visit response netmode s
  = (length (response_nodes response netmode),
     fold_left visit (response_nodes response netmode) s).
Proof.
  unfold for_each_response_node, response_nodes. rewrite filter_app, length_app, fold_left_app.
  assert (∀ (o : option (list Z)) (c : list Z → bool) f g k s0,
    (match o with
     | Some l => if c l then visit_chunks visit f (g l) (k, s0) else (k, s0)
     | None => (k, s0)
     end) =
    (let l' := filter valid (match o with
               | Some l => if c l then f <$> g l else [] | None => [] end) in
     ((k + length l')%nat, fold_left visit l' s0))) as Hone.
  { intros o c f g k s0. destruct o as [l|]; [destruct (c l)|]; [apply visit_chunks_spec|..];
      simpl; by rewrite Nat.add_0_r. }
  rewrite (Hone (r_nodes response) (λ l, negb (bool_decide (netmode = Ipv6Only))
             && bool_decide (length l `mod` 26 = 0)%nat) node_of_chunk4 (chunks_exact 26)).
  cbn zeta.
  rewrite (Hone (r_nodes6 response) (λ l, negb (bool_decide (netmode = Ipv4Only))
             && bool_decide (length l `mod` 38 = 0)%nat) node_of_chunk6 (chunks_exact 38)).
  done.
Qed.

(** Reading a field of a decoded dictionary. *)
Definition bfield (k : string) (v : bval) : option bval :=
  match v with
  | BDict l =>
      foldr (λ kv acc, if bool_decide (kv.1 = b k) then Some kv.2 else acc) None l
  | BStr _ => None
  end.

Definition bstring (v : option bval) : option (list Z) :=
  match v with Some (BStr s) => Some s | _ => None end.

(** The response the remote side sees. *)
Definition response_of (v : bval) : DhtResponse :=
  match bfield "r" v with
  | Some r => mkResponse (bstring (bfield "id" r)) (bstring (bfield "nodes" r))
                (bstring (bfield "nodes6" r)) None None None None
  | None => mkResponse None None None None None None None
  end.

Definition response_value (tid node_id token : list Z) (nodes : list NodeTuple) (ipv6 : bool) : bval :=
  let c := compact ipv6 nodes in
  BDict [(b "r", BDict ([(b "id", BStr node_id)]
                        ++ (if bool_decide (c = []) then []
                            else [(b (if ipv6 then "nodes6" else "nodes"), BStr c)])
                        ++ [(b "token", BStr token)]));
         (b "t", BStr tid); (b "y", BStr (b "r"))].

Lemma compact_chunks ipv6 nodes :
  Forall node_wf nodes →
  let chunks := compact_node <$> filter (family ipv6) nodes in
  chunks_exact (width ipv6) (compact ipv6 nodes) = chunks
  ∧ length (compact ipv6 nodes) = (length (filter (family ipv6) nodes) * width ipv6)%nat.
Proof.
  intros Hwf. cbn zeta. rewrite <-(length_fmap compact_node (filter (family ipv6) nodes)).
  apply chunks_exact_concat; [by destruct ipv6; simpl; lia|].
  apply Forall_fmap, Forall_forall. intros n [Hf Hn]%list_elem_of_filter.
  apply compact_node_length; [|done]. rewrite Forall_forall in Hwf. by apply Hwf.
Qed.

Lemma encode_response_value buffer tid node_id token nodes ipv6 :
  Forall node_wf nodes → length node_id = 20%nat → length token = 8%nat → len_ok tid →
  len_ok (compact ipv6 nodes) →
  encode_response buffer tid node_id token nodes ipv6
  = Some (benc (response_value tid node_id token nodes ipv6)).
Proof.
  intros Hwf Hid Htok Htid Hlen. unfold encode_response.
  destruct (compact_chunks ipv6 nodes Hwf) as [_ Hc].
  set (n := if ipv6 then _ else _).
  assert (n = length (compact ipv6 nodes)) as ->.
  { rewrite Hc. unfold n. destruct ipv6; [done|]. simpl. do 2 f_equal.
    apply list_filter_iff. intros x. unfold family, is_ipv6. by destruct (is_ipv4 (addr x)). }
  clear Hc. unfold response_value. set (c := compact ipv6 nodes) in *.
  assert (∀ buf, fold_left (push_node ipv6) nodes buf = buf ++ c) as Hpush by (intros; apply push_nodes_spec).
  clearbody c. cbn zeta. rewrite !push_usize_spec by (unfold len_ok in *; lia).
  destruct (decide (c = [])) as [E|E].
  - rewrite bool_decide_false by (rewrite E; simpl; lia). rewrite bool_decide_true by done.
    rewrite push_usize_spec by (unfold len_ok in *; lia).
    f_equal. cbn [benc map concat fst snd app]. unfold benc_str. rewrite Hid, Htok.
    generalize (decimal 20 (Z.of_nat (length tid))); intros dt.
    rewrite <-!app_assoc, ?app_nil_l. cbv -[app]. by repeat (simpl; rewrite <-?app_assoc).
  - rewrite bool_decide_true by (destruct c; [done|simpl; lia]). rewrite bool_decide_false by done.
    rewrite Hpush, push_usize_spec by (unfold len_ok in *; lia).
    f_equal. cbn [benc map concat fst snd app]. unfold benc_str. rewrite Hid, Htok.
    generalize (decimal 20 (Z.of_nat (length tid))) (decimal 20 (Z.of_nat (length c))); intros dt dc.
    destruct ipv6; rewrite <-!app_assoc, ?app_nil_l; cbv -[app]; by repeat (simpl; rewrite <-?app_assoc).
Qed.

Lemma bdec_response tid node_id token nodes ipv6 :
  length node_id = 20%nat → length token = 8%nat → len_ok tid → len_ok (compact ipv6 nodes) →
  let v := response_value tid node_id token nodes ipv6 in bdec 20 (benc v) = Some (v, []).
Proof.
  intros Hid Htok Htid Hlen v. rewrite <-(app_nil_r (benc _)). apply bdec_benc.
  - unfold v, response_value. case_bool_decide; simpl; lia.
  - unfold v, response_value. case_bool_decide; simpl; unfold len_ok in *; rewrite Hid, Htok;
      split_and!; try done; destruct ipv6; done.
Qed.

Lemma response_value_nodes tid node_id token nodes ipv6 :
  let r := response_of (response_value tid node_id token nodes ipv6) in
  let c := compact ipv6 nodes in
  let field := if bool_decide (c = []) then None else Some c in
  r_nodes r = (if ipv6 then None else field) ∧ r_nodes6 r = (if ipv6 then field else None)
  ∧ r_id r = Some node_id.
Proof.
  cbn zeta. unfold response_value, response_of. cbn zeta. set (c := compact ipv6 nodes).
  case_bool_decide; destruct ipv6; split_and!; reflexivity.
Qed.

Lemma compact_nil ipv6 nodes :
  Forall node_wf nodes → compact ipv6 nodes = [] → filter (family ipv6) nodes = [].
Proof.
  intros Hwf Hn. destruct (compact_chunks ipv6 nodes Hwf) as [_ Hl]. rewrite Hn in Hl.
  apply nil_length_inv. destruct ipv6; simpl in Hl; lia.
Qed.

Lemma compact_read (ipv6 : bool) nodes netmode :
  Forall node_wf nodes → netmode ≠ (if ipv6 then Ipv4Only else Ipv6Only) →
  response_nodes (mkResponse None (if ipv6 then None else Some (compact ipv6 nodes))
                    (if ipv6 then Some (compact ipv6 nodes) else None) None None None None) netmode
  = filter valid (canonical <$> filter (family ipv6) nodes).
Proof.
  intros Hwf Hm. destruct (compact_chunks ipv6 nodes Hwf) as [Hc Hl].
  assert ((if ipv6 then node_of_chunk6 else node_of_chunk4) <$> (compact_node <$> filter (family ipv6) nodes)
          = canonical <$> filter (family ipv6) nodes) as Hread.
  { rewrite <-list_fmap_compose. apply list_fmap_ext. intros i n Hn%list_elem_of_lookup_2.
    apply list_elem_of_filter in Hn as [Hf Hn]. apply read_compact_node; [|done].
    rewrite Forall_forall in Hwf. by apply Hwf. }
  unfold response_nodes.
  destruct ipv6; cbn [r_nodes r_nodes6 width] in *; rewrite bool_decide_false by done;
    rewrite Hl, Nat.Div0.mod_mul, Hc, Hread; cbn [andb negb app]; [done|]. by rewrite app_nil_r.
Qed.

(** C21: a response encodes and reads back: the encoder never overruns its
    digit buffer and writes exactly one bencoded dictionary holding our
    identifier, the token, the transaction identifier and the compact nodes
    of the chosen family; a client that decodes it visits exactly those nodes
    that are publicly reachable, in order, and counts them. *)
Theorem response_roundtrip {S} (visit : S → NodeTuple → S) (s : S)
    (buffer tid node_id token : list Z) (nodes : list NodeTuple) (ipv6 : bool) (netmode : NetMode) :
  Forall node_wf nodes → length node_id = 20%nat → length token = 8%nat → len_ok tid →
  len_ok (compact ipv6 nodes) → netmode ≠ (if ipv6 then Ipv4Only else Ipv6Only) →
  ∃ out v, encode_response buffer tid node_id token nodes ipv6 = Some out
    ∧ bdec 20 out = Some (v, [])
    ∧ v = response_value tid node_id token nodes ipv6
    ∧ let seen := filter valid (canonical <$> filter (family ipv6) nodes) in
      for_each_response_node visit (response_of v) netmode s = (length seen, fold_left visit seen s).
Proof.
  intros Hwf Hid Htok Htid Hlen Hm.
  exists (benc (response_value tid node_id token nodes ipv6)), (response_value tid node_id token nodes ipv6).
  split_and!; [by apply encode_response_value| |done|].
  - by apply bdec_response.
  - cbn zeta. rewrite for_each_response_node_spec.
    assert (response_nodes (response_of (response_value tid node_id token nodes ipv6)) netmode
            = filter valid (canonical <$> filter (family ipv6) nodes)) as ->; [|done].
    rewrite <-(compact_read ipv6 nodes netmode) by done.
    destruct (response_value_nodes tid node_id token nodes ipv6) as (H4 & H6 & _).
    unfold response_nodes at 1. rewrite H4, H6. clear H4 H6. case_bool_decide as Hn.
    + unfold response_nodes. rewrite Hn. destruct ipv6; cbn [r_nodes r_nodes6]; simpl;
        by destruct netmode.
    + by destruct ipv6.
Qed.

Lemma response_roundtrip_witness :
  ∃ out v, encode_response [9] [1; 2] (replicate 20 7) (replicate 8 3)
             [mkNode (replicate 20 1) (SocketAddrV4 8 8 8 8 6881);
              mkNode (replicate 20 2) (SocketAddrV4 10 0 0 1 6881)] false = Some out
    ∧ bdec 20 out = Some (v, [])
    ∧ for_each_response_node (λ l n, l ++ [n]) (response_of v) Ipv4Only []
      = (1%nat, [mkNode (replicate 20 1) (SocketAddrV4 8 8 8 8 6881)]).
Proof.
  destruct (response_roundtrip (λ l n, l ++ [n]) [] [9] [1; 2] (replicate 20 7) (replicate 8 3)
    [mkNode (replicate 20 1) (SocketAddrV4 8 8 8 8 6881);
     mkNode (replicate 20 2) (SocketAddrV4 10 0 0 1 6881)] false Ipv4Only)
    as (out & v & H1 & H2 & _ & H3).
  - repeat constructor; vm_compute; discriminate.
  - reflexivity.
  - reflexivity.
  - vm_compute. discriminate.
  - vm_compute. discriminate.
  - discriminate.
  - exists out, v. split; [exact H1|]. split; [exact H2|]. exact H3.
Defined.

(** ** Compact peers *)

Definition response_peers (response : DhtResponse) (netmode : NetMode) : list SocketAddr :=
  filter (λ a, addr_allowed_by_netmode a netmode && is_valid_node_addr a = true)
    (omap peer_of_value (default [] (r_values response))).

Lemma for_each_response_peer_spec {S} (visit : S → SocketAddr → S) response netmode s :
  for_each_response_peer visit response netmode s
  = (length (response_peers response netmode), fold_left visit (response_peers response netmode) s).
Proof.
  unfold for_each_response_peer, response_peers. destruct (r_values response) as [vs|]; [|done].
  cbn [default from_option]. unfold Datatypes.id.
  assert (∀ k s0, fold_left (λ st value,
        match peer_of_value value with
        | None => st
        | Some a => if addr_allowed_by_netmode a netmode && is_valid_node_addr a
                    then (Datatypes.S st.1, visit st.2 a) else st
        end) vs (k, s0)
     = (let l := filter (λ a, addr_allowed_by_netmode a netmode && is_valid_node_addr a = true)
                   (omap peer_of_value vs) in ((k + length l)%nat, fold_left visit l s0))) as H.
  { induction vs as [|v vs IH]; intros k s0; cbn [fold_left omap list_omap].
    { simpl. by rewrite Nat.add_0_r. }
    destruct (peer_of_value v) as [a|]; [|apply IH].
    destruct (addr_allowed_by_netmode a netmode && is_valid_node_addr a) eqn:E; rewrite IH; cbn zeta.
    - rewrite filter_cons_True by done. cbn. f_equal. lia.
    - rewrite filter_cons_False by (rewrite E; done). done. }
  apply H.
Qed.
