(* ===== verification/FailureCache.v ===== *)
(** * Peer failure cache ([src/metadata.rs])

    [PeerFailureCache] remembers for a while which endpoints and which
    (torrent, endpoint) pairs failed.  Its expiry queue is invalidated lazily:
    a refreshed or removed entry leaves a stale queue element behind, which is
    recognised by its deadline. *)

From S2P Require Import Prelude Net.

Local Open Scope Z_scope.

Inductive PeerFailureReason := TimeoutFailure | ConnectFailed | MetadataFailed.
#[global] Instance PeerFailureReason_eq_dec : EqDecision PeerFailureReason.
Proof. solve_decision. Defined.

Inductive PeerFailureKey :=
  | Endpoint (a : SocketAddr)
  | MetadataKey (info_hash : list Z) (a : SocketAddr).

#[global] Instance PeerFailureKey_eq_dec : EqDecision PeerFailureKey.
Proof. solve_decision. Defined.
#[global] Instance PeerFailureKey_countable : Countable PeerFailureKey.
Proof.
  refine (inj_countable'
    (λ k, match k with Endpoint a => inl a | MetadataKey h a => inr (h, a) end)
    (λ x, match x with inl a => Endpoint a | inr (h, a) => MetadataKey h a end) _).
  by intros [].
Defined.

Record PeerFailureEntry := mkFailure { expires_at : Instant; reason : PeerFailureReason }.

Module PeerFailureCache.

Record PeerFailureCache := mk {
  entries : gmap PeerFailureKey PeerFailureEntry;
  expiry : list (Instant * PeerFailureKey);
  capacity : nat;
  ttl : Duration;
}.

Definition new (capacity : nat) (ttl : Duration) : PeerFailureCache := mk ∅ [] capacity ttl.

(** [inner.entries.get(&k).is_some_and(|entry| entry.expires_at == t)], then
    removal. *)
Definition drop_if_current (es : gmap PeerFailureKey PeerFailureEntry) (t : Instant)
    (k : PeerFailureKey) : gmap PeerFailureKey PeerFailureEntry :=
  match es !! k with
  | Some e => if bool_decide (expires_at e = t) then delete k es else es
  | None => es
  end.

Fixpoint expire_loop (es : gmap PeerFailureKey PeerFailureEntry)
    (q : list (Instant * PeerFailureKey)) (now : Instant)
  : gmap PeerFailureKey PeerFailureEntry * list (Instant * PeerFailureKey) :=
  match q with
  | [] => (es, [])
  | (t, k) :: rest => if now <? t then (es, q) else expire_loop (drop_if_current es t k) rest now
  end.

Definition expire (c : PeerFailureCache) (now : Instant) : PeerFailureCache :=
  let r := expire_loop (entries c) (expiry c) now in
  mk r.1 r.2 (capacity c) (ttl c).

Definition disabled (c : PeerFailureCache) : bool :=
  bool_decide (capacity c = 0%nat) || bool_decide (ttl c = 0).

Definition get (c : PeerFailureCache) (key : PeerFailureKey) (now : Instant)
  : option PeerFailureReason * nat * PeerFailureCache :=
  if disabled c then (None, 0%nat, c)
  else
    let c := expire c now in
    (reason <$> entries c !! key, size (entries c), c).

(** The capacity loop of [insert]. *)
Fixpoint evict_loop (es : gmap PeerFailureKey PeerFailureEntry)
    (q : list (Instant * PeerFailureKey)) (capacity : nat) (addr : PeerFailureKey)
  : gmap PeerFailureKey PeerFailureEntry * list (Instant * PeerFailureKey) :=
  if bool_decide (capacity ≤ size es)%nat && bool_decide (es !! addr = None) then
    match q with
    | [] => (es, [])
    | (t, k) :: rest => evict_loop (drop_if_current es t k) rest capacity addr
    end
  else (es, q).

Definition insert (c : PeerFailureCache) (addr : PeerFailureKey) (r : PeerFailureReason)
    (now : Instant) : nat * PeerFailureCache :=
  if disabled c then (0%nat, c)
  else
    let c := expire c now in
    let '(es, q) := evict_loop (entries c) (expiry c) (capacity c) addr in
    let t := now + ttl c in
    let es := <[addr := mkFailure t r]> es in
    (size es, mk es (q ++ [(t, addr)]) (capacity c) (ttl c)).

Definition remove (c : PeerFailureCache) (addr : PeerFailureKey) (now : Instant)
  : nat * PeerFailureCache :=
  if disabled c then (0%nat, c)
  else
    let c := expire c now in
    let es := delete addr (entries c) in
    (size es, mk es (expiry c) (capacity c) (ttl c)).

(** ** Invariant *)

(** Every entry has its queue element, the queue is ordered by deadline, and
    the table is within its capacity.  [latest] bounds the deadlines. *)
Record inv (c : PeerFailureCache) (clock : Instant) : Prop := {
  inv_queued : ∀ k e, entries c !! k = Some e → (expires_at e, k) ∈ expiry c;
  inv_sorted : Sorted.StronglySorted (λ x y : Instant * PeerFailureKey, x.1 ≤ y.1) (expiry c);
  inv_latest : Forall (λ x, x.1 ≤ clock + ttl c) (expiry c);
  inv_size : (size (entries c) ≤ capacity c)%nat;
  inv_ttl : 0 ≤ ttl c;
}.

Lemma new_inv cap d clock : 0 ≤ d → inv (new cap d) clock.
Proof.
  intros. split; simpl; [|constructor|constructor|rewrite map_size_empty; lia|done].
  intros k e. by rewrite lookup_empty.
Qed.

Lemma drop_if_current_lookup es t k j e :
  drop_if_current es t k !! j = Some e ↔ es !! j = Some e ∧ (j = k → expires_at e ≠ t).
Proof.
  unfold drop_if_current. destruct (es !! k) as [e'|] eqn:E.
  - case_bool_decide as Ht.
    + rewrite lookup_delete_Some. split.
      * intros [Hne ?]. split; [done|]. intros ->. done.
      * intros [He Hj]. split; [|done]. intros <-. simplify_eq. by apply Hj.
    + split; [|tauto]. intros He. split; [done|]. intros ->. by simplify_eq.
  - split; [|tauto]. intros He. split; [done|]. intros ->. by simplify_eq.
Qed.

Lemma drop_if_current_size es t k : (size (drop_if_current es t k) ≤ size es)%nat.
Proof.
  unfold drop_if_current. case_match; [|done]. case_bool_decide; [|done].
  rewrite map_size_delete. case_match; unfold Datatypes.id; lia.
Qed.

(** Which entries a run of queue removals keeps: those whose element is still
    queued. *)
Definition queued (es : gmap PeerFailureKey PeerFailureEntry) (q : list (Instant * PeerFailureKey)) :=
  ∀ k e, es !! k = Some e → (expires_at e, k) ∈ q.

Lemma queued_drop es t k q : queued es ((t, k) :: q) → queued (drop_if_current es t k) q.
Proof.
  intros Hq j e [He Hj]%drop_if_current_lookup.
  specialize (Hq j e He). apply elem_of_cons in Hq as [[= Ht ->]|?]; [|done]. by destruct (Hj eq_refl).
Qed.

Lemma cache_expire_loop_spec es q now :
  queued es q → Sorted.StronglySorted (λ x y : Instant * PeerFailureKey, x.1 ≤ y.1) q →
  let r := expire_loop es q now in
  queued r.1 r.2 ∧ r.2 `suffix_of` q ∧ (size r.1 ≤ size es)%nat
  ∧ (∀ k e, r.1 !! k = Some e ↔ es !! k = Some e ∧ now < expires_at e).
Proof.
  revert es; induction q as [|[t k] q IH]; intros es Hq Hs; cbn [expire_loop].
  { cbn. split_and!; [done..|]. intros k e. split; [|tauto]. intros He.
    by apply Hq, not_elem_of_nil in He. }
  destruct (Z.ltb_spec now t) as [Hlt|Hge].
  - cbn. split_and!; [done..|]. intros j e. split; [|tauto]. intros He. split; [done|].
    specialize (Hq j e He). inversion Hs as [|? ? _ Hall]; subst.
    apply elem_of_cons in Hq as [[= Ht ->]|Hin]; [lia|].
    rewrite Forall_forall in Hall. specialize (Hall _ Hin). simpl in Hall. lia.
  - inversion Hs as [|? ? Hs' _]; subst.
    destruct (IH (drop_if_current es t k)) as (H1 & H2 & H3 & H4);
      [by apply queued_drop|done|]. split_and!; [done|by apply suffix_cons_r| |].
    + pose proof (drop_if_current_size es t k). lia.
    + intros j e. rewrite H4, drop_if_current_lookup. split; [tauto|]. intros [He Hlt].
      split; [|done]. split; [done|]. intros -> Heq. lia.
Qed.

Lemma cache_expire_spec c clock now :
  inv c clock → clock ≤ now →
  inv (expire c now) now ∧ capacity (expire c now) = capacity c ∧ ttl (expire c now) = ttl c
  ∧ ∀ k e, entries (expire c now) !! k = Some e ↔ entries c !! k = Some e ∧ now < expires_at e.
Proof.
  intros [Hq Hs Hl Hsz Ht] Hc. unfold expire. cbn zeta.
  destruct (cache_expire_loop_spec (entries c) (expiry c) now Hq Hs) as (H1 & H2 & H3 & H4).
  split_and!; [|done..]. split; cbn [entries expiry capacity ttl]; [done| | |lia|done].
  - by eapply StronglySorted_suffix.
  - destruct H2 as [k Hk]. rewrite Hk, Forall_app in Hl. destruct Hl as [_ Hl].
    eapply Forall_impl; [exact Hl|]. simpl. intros. lia.
Qed.

(** Eviction drops entries oldest first: whatever survives expires no earlier
    than whatever was dropped. *)
Lemma evict_loop_spec es q cap addr :
  queued es q → Sorted.StronglySorted (λ x y : Instant * PeerFailureKey, x.1 ≤ y.1) q →
  (0 < cap)%nat →
  let r := evict_loop es q cap addr in
  queued r.1 r.2 ∧ r.2 `suffix_of` q ∧ (r.1 !! addr = None → (size r.1 < cap)%nat)
  ∧ (size r.1 ≤ size es)%nat
  ∧ (∀ k e, r.1 !! k = Some e → es !! k = Some e)
  ∧ (∀ k e k' e', es !! k = Some e → r.1 !! k = None → r.1 !! k' = Some e' → expires_at e ≤ expires_at e')
  ∧ (es !! addr ≠ None ∨ (size es < cap)%nat → r = (es, q)).
Proof.
  intros Hq Hs Hcap. revert es Hq Hs; induction q as [|[t k] q IH]; intros es Hq Hs; cbn zeta;
    cbn [evict_loop]; destruct (bool_decide (cap ≤ size es)%nat && bool_decide (es !! addr = None)) eqn:E.
  - cbn. assert (es = ∅) as ->.
    { apply map_empty. intros k. destruct (es !! k) as [e|] eqn:Ek; [|done].
      by apply Hq, not_elem_of_nil in Ek. }
    by split_and!.
  - cbn. split_and!; try done; [|congruence].
    intros Hn. apply andb_false_iff in E as [E|E]; apply bool_decide_eq_false in E; [lia|done].
  - inversion Hs as [|? ? Hs' Hall]; subst.
    destruct (IH (drop_if_current es t k) (queued_drop _ _ _ _ Hq) Hs') as (H1 & H2 & H3 & H4 & H5 & H6 & H7).
    apply andb_true_iff in E as [E1 E2]. apply bool_decide_eq_true in E1, E2.
    split_and!; [done|by apply suffix_cons_r|done| | | |].
    + pose proof (drop_if_current_size es t k). lia.
    + intros j e Hj%H5%drop_if_current_lookup. tauto.
    + intros j e k' e' Hj Hr Hk'.
      destruct (drop_if_current es t k !! j) as [e''|] eqn:Ed.
      * assert (e'' = e) as -> by (apply drop_if_current_lookup in Ed as [? _]; congruence).
        by eapply H6.
      * assert (j = k ∧ expires_at e = t) as [-> <-].
        { destruct (decide (j = k ∧ expires_at e = t)) as [?|Hn]; [done|]. exfalso.
          assert (drop_if_current es t k !! j = Some e) by (apply drop_if_current_lookup; naive_solver).
          congruence. }
        apply H5, drop_if_current_lookup in Hk' as [Hk' Hne]. specialize (Hq _ _ Hk').
        apply elem_of_cons in Hq as [[= Ht ->]|Hin]; [lia|].
        rewrite Forall_forall in Hall. by specialize (Hall _ Hin).
    + intros [?|?]; [done|lia].
  - cbn. split_and!; try done; [|congruence].
    intros Hn. apply andb_false_iff in E as [E|E]; apply bool_decide_eq_false in E; [lia|done].
Qed.

Definition enabled (c : PeerFailureCache) : Prop := (0 < capacity c)%nat ∧ 0 < ttl c.

Lemma enabled_not_disabled c : enabled c → disabled c = false.
Proof. intros [? ?]. unfold disabled. rewrite !bool_decide_false by lia. done. Qed.

Lemma insert_spec c clock now addr r :
  inv c clock → clock ≤ now → enabled c →
  let c' := (insert c addr r now).2 in
  inv c' now ∧ capacity c' = capacity c ∧ ttl c' = ttl c
  ∧ (insert c addr r now).1 = size (entries c')
  ∧ entries c' !! addr = Some (mkFailure (now + ttl c) r)
  ∧ (∀ k e, k ≠ addr → entries c' !! k = Some e → entries c !! k = Some e ∧ now < expires_at e)
  ∧ (∀ k e, k ≠ addr → entries c !! k = Some e → now < expires_at e → entries c' !! k = None →
       ((capacity c ≤ size (entries c))%nat ∧ entries c' !! k = None)
       ∧ ∀ k' e', entries c' !! k' = Some e' → expires_at e ≤ expires_at e').
Proof.
  intros Hinv Hc He. destruct (cache_expire_spec c clock now Hinv Hc) as (Hi & Hcap & Httl & Hent).
  cbn zeta. unfold insert. rewrite enabled_not_disabled by done. cbn zeta. destruct He as [He1 He2].
  destruct Hi as [Hq Hs Hl Hsz Ht0]. pose proof (inv_size _ _ Hinv) as Hsz0.
  destruct (evict_loop_spec (entries (expire c now)) (expiry (expire c now)) (capacity (expire c now)) addr Hq Hs)
    as (H1 & H2 & H3 & H4 & H5 & H6 & H7); [lia|].
  destruct (evict_loop _ _ _ addr) as [es q]; cbn [fst snd] in *.
  assert (Forall (λ x, x.1 ≤ now + ttl c) q) as Hlq.
  { destruct H2 as [p Hp]. rewrite Hp, Httl, Forall_app in Hl. tauto. }
  split_and!; cbn [entries expiry capacity ttl]; try done.
  - split; cbn [entries expiry capacity ttl].
    + intros k e. rewrite lookup_insert_Some, elem_of_app, list_elem_of_singleton. intros [[<- <-]|[_ Hk]].
      * right. simpl. by rewrite ?Httl.
      * left. by apply H1.
    + apply StronglySorted_snoc; [by eapply StronglySorted_suffix|]. simpl. by rewrite ?Httl.
    + apply Forall_app. split; [by rewrite ?Httl|]. apply Forall_singleton. simpl. rewrite ?Httl. lia.
    + rewrite map_size_insert. case_match; unfold Datatypes.id; [lia|].
      rewrite Hcap in *. specialize (H3 eq_refl). lia.
    + by rewrite ?Httl.
  - by rewrite lookup_insert_eq, ?Httl.
  - intros k e Hne. rewrite lookup_insert_ne by done. intros Hk%H5. by apply Hent.
  - intros k e Hne Hk Hlt. rewrite lookup_insert_ne by done. intros Hn.
    assert (entries (expire c now) !! k = Some e) as Hk' by (by apply Hent).
    split; [split; [|done]|].
    + destruct (decide (capacity c ≤ size (entries c))%nat) as [?|Hs0]; [done|]. exfalso.
      assert (es = entries (expire c now)) as ->; [|congruence].
      assert (size (entries (expire c now)) ≤ size (entries c))%nat.
      { apply (map_subseteq_size (entries (expire c now)) (entries c)). apply map_subseteq_spec.
        intros j x Hj. by apply Hent in Hj as [? _]. }
      assert ((es, q) = (entries (expire c now), expiry (expire c now))) as [= -> _];
        [apply H7; right; lia|done].
    + intros k' e'. rewrite lookup_insert_Some. intros [[<- <-]|[_ Hk1]]; [|by eapply H6].
      simpl. rewrite ?Httl. pose proof (inv_queued _ _ Hinv _ _ Hk) as Hin.
      pose proof (inv_latest _ _ Hinv) as Hlat. rewrite Forall_forall in Hlat.
      specialize (Hlat _ Hin). simpl in Hlat. lia.
Qed.

(** ** Histories *)

Inductive op :=
  | Get (k : PeerFailureKey)
  | Insert (k : PeerFailureKey) (r : PeerFailureReason)
  | Remove (k : PeerFailureKey).

Definition exec (c : PeerFailureCache) (o : op) (now : Instant) : PeerFailureCache :=
  match o with
  | Get k => (get c k now).2
  | Insert k r => (insert c k r now).2
  | Remove k => (remove c k now).2
  end.

Fixpoint run (c : PeerFailureCache) (ops : list (op * Instant)) : PeerFailureCache :=
  match ops with [] => c | (o, now) :: ops => run (exec c o now) ops end.

Lemma cache_run_app c ops ops' : run c (ops ++ ops') = run (run c ops) ops'.
Proof. revert c; induction ops as [|[o now] ops IH]; intros c; [done|]. apply IH. Qed.

Lemma run_keeps ops c : capacity (run c ops) = capacity c ∧ ttl (run c ops) = ttl c.
Proof.
  revert c; induction ops as [|[o now] ops IH]; intros c; [done|]. cbn [run]. destruct (IH (exec c o now)) as [-> ->].
  destruct o; cbn [exec]; unfold get, insert, remove; destruct (disabled c); try done. by destruct (evict_loop _ _ _ _).
Qed.

Lemma insert_remembers c k r now :
  disabled c = false → entries (insert c k r now).2 !! k = Some (mkFailure (now + ttl c) r).
Proof.
  unfold insert. intros ->. cbn zeta. destruct (evict_loop _ _ _ k) as [es q]. cbn. by rewrite lookup_insert_eq.
Qed.

(** A key without a current failure is not reported. *)
Lemma get_miss c clock k now :
  inv c clock → clock ≤ now → (∀ e, entries c !! k = Some e → expires_at e ≤ now) → (get c k now).1.1 = None.
Proof.
  intros Hi Hc Hk. unfold get. destruct (disabled c); [done|]. cbn [fst snd].
  destruct (cache_expire_spec c clock now Hi Hc) as (_ & _ & _ & Hent).
  destruct (entries (expire c now) !! k) as [e|] eqn:E; [|done]. apply Hent in E as [E Hlt]. apply Hk in E. lia.
Qed.

(** A lookup changes no current failure. *)
Lemma get_keeps c clock k now :
  inv c clock → clock ≤ now →
  inv (get c k now).2 now ∧ ∀ j e, entries (get c k now).2 !! j = Some e → entries c !! j = Some e.
Proof.
  intros Hi Hc. unfold get. destruct (cache_expire_spec c clock now Hi Hc) as (Hi' & _ & _ & Hent).
  destruct (disabled c); cbn [snd]; [|split; [done|]; intros j e; rewrite Hent; tauto].
  split; [|done]. destruct Hi as [? ? Hl ? ?]. split; try done. eapply Forall_impl; [exact Hl|]. simpl. intros. lia.
Qed.

(** The clock never goes back. *)
Fixpoint monotone (clock : Instant) (ops : list (op * Instant)) : Prop :=
  match ops with [] => True | (_, now) :: ops => clock ≤ now ∧ monotone now ops end.

(** What was last recorded about a key, and until when it counts: the
    unbounded log that the cache approximates. *)
Fixpoint recorded (d : Duration) (k : PeerFailureKey) (ops : list (op * Instant))
    (acc : option PeerFailureEntry) : option PeerFailureEntry :=
  match ops with
  | [] => acc
  | (Insert k' r, now) :: ops =>
      recorded d k ops (if bool_decide (k = k') then Some (mkFailure (now + d) r) else acc)
  | (Remove k', _) :: ops => recorded d k ops (if bool_decide (k = k') then None else acc)
  | (Get _, _) :: ops => recorded d k ops acc
  end.

Lemma exec_inv c clock o now :
  inv c clock → clock ≤ now → enabled c →
  inv (exec c o now) now ∧ capacity (exec c o now) = capacity c ∧ ttl (exec c o now) = ttl c.
Proof.
  intros Hi Hc He. destruct (cache_expire_spec c clock now Hi Hc) as (Hi' & Hcap & Httl & _).
  destruct o as [k|k r|k]; simpl.
  - unfold get. rewrite enabled_not_disabled by done. done.
  - destruct (insert_spec c clock now k r Hi Hc He) as (? & ? & ? & _). done.
  - unfold remove. rewrite enabled_not_disabled by done. cbn [fst snd entries]. split_and!; [|done..].
    destruct Hi' as [H1 H2 H3 H4 H5]. split; cbn [entries expiry capacity ttl]; try done.
    + intros j e [_ Hj]%lookup_delete_Some. by apply H1.
    + rewrite map_size_delete. case_match; unfold Datatypes.id; lia.
Qed.

(** An entry the cache holds is the last thing recorded about its key. *)
Definition agrees (c : PeerFailureCache) (d : Duration) (pre : list (op * Instant)) : Prop :=
  ∀ k e, entries c !! k = Some e → recorded d k pre None = Some e.

Lemma recorded_app d k ops1 ops2 acc :
  recorded d k (ops1 ++ ops2) acc = recorded d k ops2 (recorded d k ops1 acc).
Proof.
  revert acc; induction ops1 as [|[[] now] ops1 IH]; intros acc; simpl; auto.
Qed.

Lemma exec_agrees c clock o now pre :
  inv c clock → clock ≤ now → enabled c → agrees c (ttl c) pre →
  agrees (exec c o now) (ttl c) (pre ++ [(o, now)]).
Proof.
  intros Hi Hc He Ha. destruct (cache_expire_spec c clock now Hi Hc) as (_ & _ & Httl & Hent).
  intros j e. rewrite recorded_app. destruct o as [k|k r|k]; simpl.
  - unfold get. rewrite enabled_not_disabled by done. cbn [fst snd entries]. rewrite Hent. intros [? _]. by apply Ha.
  - destruct (insert_spec c clock now k r Hi Hc He) as (_ & _ & _ & _ & Hk & Hold & _).
    case_bool_decide as Hjk; [subst; by rewrite Hk|]. intros Hj. apply Ha. by apply Hold.
  - unfold remove. rewrite enabled_not_disabled by done. cbn [fst snd entries]. rewrite lookup_delete_Some, Hent.
    intros [Hne [? _]]. rewrite bool_decide_false by done. by apply Ha.
Qed.

Lemma cache_run_spec c clock ops pre :
  inv c clock → enabled c → monotone clock ops → agrees c (ttl c) pre →
  ∃ clock', inv (run c ops) clock' ∧ agrees (run c ops) (ttl c) (pre ++ ops)
    ∧ capacity (run c ops) = capacity c ∧ ttl (run c ops) = ttl c ∧ clock ≤ clock'
    ∧ clock' = default clock (snd <$> last ops).
Proof.
  revert c clock pre; induction ops as [|[o now] ops IH]; intros c clock pre Hi He Hm Ha; simpl.
  { exists clock. rewrite app_nil_r. done. }
  destruct Hm as [Hc Hm]. destruct (exec_inv c clock o now Hi Hc He) as (Hi' & Hcap & Httl).
  destruct (IH (exec c o now) now (pre ++ [(o, now)])) as (clock' & H1 & H2 & H3 & H4 & H5 & H6);
    [done|unfold enabled in *; by rewrite Hcap, Httl|done|rewrite Httl; by eapply exec_agrees|].
  exists clock'. rewrite <-app_assoc in H2. rewrite Httl in *. split_and!; try done; try congruence; try lia.
  rewrite H6. destruct ops as [|x ops]; [done|].
  change (last ((o, now) :: x :: ops)) with (last (x :: ops)).
  destruct (last (x :: ops)) eqn:El; [done|]. by apply last_None in El.
Qed.

(** C22: over any history of lookups, insertions and removals, the failure
    cache stays within its capacity and never reports a failure that is not
    current: a hit is the last failure recorded for that key, not removed
    since, and younger than the TTL.  An insertion is remembered for exactly
    the TTL, and drops an unexpired failure only when the table is full, always
    one that expires first. *)
Theorem failure_cache_correct (cap : nat) (d : Duration) (ops : list (op * Instant))
    (k : PeerFailureKey) (r : PeerFailureReason) (clock now : Instant) :
  (0 < cap)%nat → 0 < d → monotone clock ops → default clock (snd <$> last ops) ≤ now →
  let c := run (new cap d) ops in
  (size (entries c) ≤ cap)%nat
  ∧ (∀ r', (get c k now).1.1 = Some r' →
       ∃ e, recorded d k ops None = Some e ∧ reason e = r' ∧ now < expires_at e)
  ∧ (let c' := (insert c k r now).2 in
     (∀ later, now ≤ later → (get c' k later).1.1 = (if later <? now + d then Some r else None))
     ∧ ∀ j e, j ≠ k → entries c !! j = Some e → now < expires_at e → entries c' !! j = None →
         size (entries c) = cap ∧ ∀ j' e', entries c' !! j' = Some e' → expires_at e ≤ expires_at e').
Proof.
  intros Hcap Hd Hm Hnow. cbn zeta.
  destruct (cache_run_spec (new cap d) clock ops []) as (clock' & Hi & Ha & Hc & Ht & Hcl & Hcl');
    [apply new_inv; lia|done|done|intros j e; simpl; by rewrite lookup_empty|].
  simpl in Ha, Hc, Ht. set (c := run (new cap d) ops) in *.
  assert (enabled c) as He by (split; [rewrite Hc|rewrite Ht]; done).
  assert (clock' ≤ now) as Hn by lia.
  pose proof (inv_size _ _ Hi) as Hsz. split; [lia|]. split.
  - intros r'. unfold get. rewrite enabled_not_disabled by done. cbn [fst snd entries].
    destruct (cache_expire_spec c clock' now Hi Hn) as (_ & _ & _ & Hent).
    destruct (entries (expire c now) !! k) as [e|] eqn:E; simpl; [|done]. intros [= <-].
    apply Hent in E as [E Hlt]. exists e. split; [by apply Ha|done].
  - destruct (insert_spec c clock' now k r Hi Hn He) as (Hi' & Hc' & Ht' & _ & Hk & _ & Hevict).
    split.
    + intros later Hlater. set (c' := (insert c k r now).2) in *.
      assert (enabled c') as He' by (unfold enabled in *; by rewrite Hc', Ht').
      unfold get. rewrite enabled_not_disabled by done. cbn [fst snd entries].
      destruct (cache_expire_spec c' now later Hi' Hlater) as (_ & _ & _ & Hent).
      destruct (Z.ltb_spec later (now + d)).
      * assert (entries (expire c' later) !! k = Some (mkFailure (now + ttl c) r)) as ->; [|done].
        apply Hent. split; [done|]. simpl. lia.
      * destruct (entries (expire c' later) !! k) as [e|] eqn:E; [|done].
        apply Hent in E as [E Hlt]. rewrite Hk in E. simplify_eq. simpl in Hlt. lia.
    + intros j e Hne Hj Hlt Hnone. destruct (Hevict j e Hne Hj Hlt Hnone) as [[? _] Hold].
      split; [lia|done].
Qed.

Definition ex_key (x : Z) : PeerFailureKey := Endpoint (SocketAddrV4 8 8 8 x 6881).

Lemma failure_cache_correct_witness :
  (get (insert (run (new 2 60) [(Insert (ex_key 1) ConnectFailed, 5); (Insert (ex_key 2) TimeoutFailure, 6)])
          (ex_key 3) MetadataFailed 10).2 (ex_key 3) 69).1.1 = Some MetadataFailed.
Proof.
  destruct (failure_cache_correct 2 60
    [(Insert (ex_key 1) ConnectFailed, 5); (Insert (ex_key 2) TimeoutFailure, 6)]
    (ex_key 3) MetadataFailed 0 10) as (_ & _ & H & _); [lia|lia|cbn; lia|cbn; lia|].
  rewrite H by lia. reflexivity.
Defined.

End PeerFailureCache.
