(* ===== verification/Metadata.v ===== *)
(** * Metadata download ([src/metadata.rs])

    One fetch from one peer: failure-cache lookups, TCP connect, the two
    handshakes, the piece loop, hash validation and parsing, under one
    deadline.  The peer and the network are a script of replies; a [Waiting]
    reply or an exhausted message list is the point at which the deadline
    strikes.  The message codecs, SHA-1, bencode and UTF-8 decoding belong to
    third-party crates and are parameters. *)

From S2P Require Import Prelude Net Types FailureCache Race.

Local Open Scope Z_scope.

(** ** Vocabulary *)

Inductive MetadataFetchFailure :=
  | FConnect | FNoExtension | FSend | FSizeLimit | FSha1 | FParse | FReject | FOther.
#[global] Instance MetadataFetchFailure_eq_dec : EqDecision MetadataFetchFailure.
Proof. solve_decision. Defined.

Inductive MetadataTimeoutStage :=
  | ConnectHandshake | ExtensionHandshakeSend | ExtensionHandshakeReceive | PieceRequestSend
  | PieceReceive | Validation | TcpConnect | BaseHandshake.
#[global] Instance MetadataTimeoutStage_eq_dec : EqDecision MetadataTimeoutStage.
Proof. solve_decision. Defined.

(** [stage as u8] *)
Definition stage_index (s : MetadataTimeoutStage) : Z :=
  match s with
  | ConnectHandshake => 0 | ExtensionHandshakeSend => 1 | ExtensionHandshakeReceive => 2
  | PieceRequestSend => 3 | PieceReceive => 4 | Validation => 5 | TcpConnect => 6 | BaseHandshake => 7
  end.

Definition from_index (index : Z) : MetadataTimeoutStage :=
  match index with
  | 0 => ConnectHandshake | 1 => ExtensionHandshakeSend | 2 => ExtensionHandshakeReceive
  | 3 => PieceRequestSend | 4 => PieceReceive | 6 => TcpConnect | 7 => BaseHandshake
  | _ => Validation
  end.

Inductive MetadataConnectionError :=
  | CRefused | CReset | CAborted | CClosed | CTimeout | CInvalidHandshake | CInfoHashMismatch
  | CIoOther | COther.

(** The error kinds of [std::io] and of the peer library that the code tells
    apart. *)
Inductive ErrorKind := ConnectionRefused | ConnectionReset | ConnectionAborted | UnexpectedEof | TimedOut | OtherKind.
Inductive PeerError := PIo (kind : ErrorKind) | PConnectionClosed | PTimeout | PInvalidHandshake | PInfoHashMismatch | POther.

Definition connection_error_category (error : PeerError) : MetadataConnectionError :=
  match error with
  | PIo kind =>
      match kind with
      | ConnectionRefused => CRefused
      | ConnectionReset => CReset
      | ConnectionAborted => CAborted
      | UnexpectedEof => CClosed
      | TimedOut => CTimeout
      | OtherKind => CIoOther
      end
  | PConnectionClosed => CClosed
  | PTimeout => CTimeout
  | PInvalidHandshake => CInvalidHandshake
  | PInfoHashMismatch => CInfoHashMismatch
  | POther => COther
  end.

(** Decoded peer messages. *)
Inductive Message := Extended (id : Z) (payload : list Z) | OtherMessage.
Inductive MetadataMessageType := MRequest | MData | MReject | MUnknown.
#[global] Instance MetadataMessageType_eq_dec : EqDecision MetadataMessageType.
Proof. solve_decision. Defined.
Record MetadataMessage := mkMeta { mm_type : MetadataMessageType; mm_piece : Z; mm_data : option (list Z) }.

(** Bencoded values. *)
Inductive Value :=
  | VInt (i : Z)
  | VBytes (s : list Z)
  | VList (l : list Value)
  | VDict (l : list (list Z * Value)).

Definition as_dict (v : Value) : option (list (list Z * Value)) :=
  match v with VDict l => Some l | _ => None end.
Definition as_list (v : Value) : option (list Value) :=
  match v with VList l => Some l | _ => None end.
Definition as_integer (v : Value) : option Z := match v with VInt i => Some i | _ => None end.

Definition byte_string (s : string) : list Z :=
  (λ a, Z.of_nat (Ascii.nat_of_ascii a)) <$> String.list_ascii_of_string s.

Fixpoint dict_get (k : list Z) (l : list (list Z * Value)) : option Value :=
  match l with
  | [] => None
  | (k', v) :: l => if bool_decide (k' = k) then Some v else dict_get k l
  end.

(** What an awaited operation has done when the deadline strikes. *)
Inductive reply (A : Type) := Waiting | Reply (a : A).
Arguments Waiting {_}.
Arguments Reply {_} _.

(** The behaviour of a peer and of the network during one fetch. *)
Record PeerScript := mkScript {
  tcp_connect : reply (option PeerError);          (* [None]: connected *)
  base_handshake : reply (PeerError + list Z * bool); (* remote info hash, extension support *)
  encode_handshake_ok : bool;
  send_handshake_ok : reply bool;
  encode_request_ok : Z → bool;
  send_request_ok : Z → reply bool;
  incoming : list (option Message);                (* [None]: receive error *)
  validation_joined : reply bool;
}.

Definition FetchedMetadata : Type := string * Z * list FileInfo * Z.

(** [i64 as u64] and [size as u32] *)
Definition as_u64 (i : Z) : Z := i `mod` (u64_max + 1).
Definition as_u32 (i : Z) : Z := i `mod` (u32_max + 1).

Definition MAX_METADATA_SIZE : Z := 10 * 1024 * 1024.

Section fetch.
Context (sha1 : list Z → list Z).
Context (bdecode : list Z → option Value) (utf8 : list Z → option string).
Context (metadata_piece_count : Z → Z).
Context (decode_extension : Z → list Z → option (option Z * option Z)).
Context (decode_metadata : list Z → option MetadataMessage).
Context (overflow_checks : bool).

Definition as_str (v : Value) : option string :=
  match v with VBytes s => utf8 s | _ => None end.

(** ** parse_metadata

    The outer [None] is an arithmetic overflow, which panics in builds with
    overflow checks and wraps in the others. *)

Definition add_u64 (a b : Z) : option Z :=
  if (u64_max <? a + b) && overflow_checks then None else Some (u64_wrapping_add a b).

(** The body of [for file in files]. *)
Definition parse_file (file : Value) : option FileInfo :=
  match as_dict file with
  | None => None
  | Some file_dict =>
      match dict_get (byte_string "length") file_dict ≫= as_integer with
      | None => None
      | Some length =>
          let path :=
            match dict_get (byte_string "path") file_dict ≫= as_list with
            | Some parts => String.concat "/" (omap as_str parts)
            | None => ""
            end in
          Some (mkFile path (as_u64 length))
      end
  end.

Fixpoint parse_files (files : list Value) (total : Z) (acc : list FileInfo)
  : option (Z * list FileInfo) :=
  match files with
  | [] => Some (total, acc)
  | file :: files =>
      match parse_file file with
      | None => parse_files files total acc
      | Some info =>
          let! total := add_u64 total (fi_size info) in
          parse_files files total (acc ++ [info])
      end
  end.

Definition parse_metadata (info_bytes : list Z) : option (option FetchedMetadata) :=
  match bdecode info_bytes ≫= as_dict with
  | None => Some None
  | Some dict =>
      let name := default "Unknown" (dict_get (byte_string "name") dict ≫= as_str) in
      let piece_length :=
        as_u64 (default 0 (dict_get (byte_string "piece length") dict ≫= as_integer)) in
      let! r :=
        match dict_get (byte_string "files") dict ≫= as_list with
        | Some files => parse_files files 0 []
        | None =>
            match dict_get (byte_string "length") dict ≫= as_integer with
            | Some length => Some (as_u64 length, [mkFile name (as_u64 length)])
            | None => Some (0, [])
            end
        end in
      Some (if 0 <? r.1 then Some (name, r.1, r.2, piece_length) else None)
  end.

(** ** The piece loop *)

Record Download := mkDownload {
  metadata_size : Z;
  remote_ut_metadata_id : Z;
  pieces : gmap Z (list Z);
  total_received : Z;
  request_sent : bool;
}.

Definition download_start : Download := mkDownload 0 0 ∅ 0 false.

(** [for piece in 0..count]: [inl] is the early exit. *)
Fixpoint send_requests (io : PeerScript) (ps : list Z) : reply MetadataFetchFailure + unit :=
  match ps with
  | [] => inr tt
  | p :: ps =>
      if negb (encode_request_ok io p) then inl (Reply FSend)
      else match send_request_ok io p with
           | Waiting => inl Waiting
           | Reply false => inl (Reply FSend)
           | Reply true => send_requests io ps
           end
  end.

(** [for piece in 0..count] over the received pieces. *)
Fixpoint assemble (ps : list Z) (received : gmap Z (list Z)) (full_data : list Z) : option (list Z) :=
  match ps with
  | [] => Some full_data
  | p :: ps => let! data := received !! p in assemble ps received (full_data ++ data)
  end.

Definition piece_indices (size : Z) : list Z :=
  Z.of_nat <$> seq 0 (Z.to_nat (metadata_piece_count size)).

(** How one iteration of the loop ends. *)
Inductive turn :=
  | Continue (d : Download) (downloaded : option Z)
  | Fail (stage : MetadataTimeoutStage) (e : MetadataFetchFailure) (downloaded : option Z)
  | Stalled (stage : MetadataTimeoutStage)
  | Complete (full_data : list Z) (downloaded : Z).

Definition receive_stage (d : Download) : MetadataTimeoutStage :=
  if request_sent d then PieceReceive else ExtensionHandshakeReceive.

Definition on_handshake (io : PeerScript) (d : Download) (id : Z) (payload : list Z) : turn :=
  let '(size, ut) :=
    match decode_extension id payload with
    | Some (sz, ext) =>
        (match sz with Some s => as_u32 s | None => metadata_size d end,
         match ext with Some e => e | None => remote_ut_metadata_id d end)
    | None => (metadata_size d, remote_ut_metadata_id d)
    end in
  let d := mkDownload size ut (pieces d) (total_received d) (request_sent d) in
  if (0 <? size) && (0 <? ut) && negb (request_sent d) then
    if MAX_METADATA_SIZE <? size then Fail (receive_stage d) FSizeLimit None
    else match send_requests io (piece_indices size) with
         | inl Waiting => Stalled PieceRequestSend
         | inl (Reply e) => Fail PieceRequestSend e None
         | inr _ => Continue (mkDownload size ut (pieces d) (total_received d) true) None
         end
  else Continue d None.

Definition on_data (d : Download) (piece : Z) (data : list Z) : turn :=
  let len := Z.of_nat (length data) in
  let total :=
    match pieces d !! piece with
    | Some previous => Z.max 0 (total_received d - Z.of_nat (length previous))
    | None => total_received d
    end in
  let total := u64_saturating_add total len in
  let ps := <[piece := data]> (pieces d) in
  let d := mkDownload (metadata_size d) (remote_ut_metadata_id d) ps total (request_sent d) in
  if (metadata_size d =? 0) || (total <? metadata_size d) then Continue d (Some len)
  else
    match assemble (piece_indices (metadata_size d)) ps [] with
    | None => Fail (receive_stage d) FOther (Some len)
    | Some full_data => Complete full_data len
    end.

Definition on_message (io : PeerScript) (d : Download) (msg : Message) : turn :=
  match msg with
  | OtherMessage => Continue d None
  | Extended id payload =>
      if id =? 0 then on_handshake io d id payload
      else if negb (id =? 1) then Continue d None
      else
        match decode_metadata payload with
        | None => Continue d None
        | Some meta =>
            if request_sent d && bool_decide (mm_type meta = MReject)
               && (mm_piece meta <? metadata_piece_count (metadata_size d))
            then Fail (receive_stage d) FReject None
            else if negb (bool_decide (mm_type meta = MData)) then Continue d None
            else match mm_data meta with
                 | None => Continue d None
                 | Some data => on_data d (mm_piece meta) data
                 end
        end
  end.

(** The outcome of [fetch_with_peer] with the stage it stored last. *)
Inductive fetched :=
  | Pending (stage : MetadataTimeoutStage)
  | FetchErr (e : MetadataFetchFailure)
  | FetchOk (m : FetchedMetadata)
  | FetchPanic.

Inductive stat := Stat (name : string) | StatN (name : string) (n : Z).

Definition log_bytes (downloaded : option Z) : list stat :=
  match downloaded with Some n => [StatN "metadata_bytes_downloaded" n] | None => [] end.

(** Validation and parsing of the assembled bytes. *)
Definition finish_download (io : PeerScript) (info_hash full_data : list Z) : list stat * fetched :=
  match validation_joined io with
  | Waiting => ([], Pending Validation)
  | Reply joined =>
      if joined && bool_decide (sha1 full_data = info_hash) then
        let log := [StatN "observe_metadata_size" (Z.of_nat (length full_data))] in
        match parse_metadata full_data with
        | None => (log, FetchPanic)
        | Some (Some m) => (log, FetchOk m)
        | Some None => (log, FetchErr FParse)
        end
      else ([], FetchErr FSha1)
  end.

Fixpoint receive_loop (io : PeerScript) (info_hash : list Z) (d : Download)
    (msgs : list (option Message)) (log : list stat) : list stat * fetched :=
  match msgs with
  | [] => (log, Pending (receive_stage d))
  | None :: _ => (log, FetchErr FOther)
  | Some msg :: msgs =>
      match on_message io d msg with
      | Continue d n => receive_loop io info_hash d msgs (log ++ log_bytes n)
      | Fail _ e n => (log ++ log_bytes n, FetchErr e)
      | Stalled stage => (log, Pending stage)
      | Complete data n =>
          let '(log', r) := finish_download io info_hash data in
          (log ++ [StatN "metadata_bytes_downloaded" n] ++ log', r)
      end
  end.

(** ** The fetcher *)

Record RbitFetcher := mkFetcher {
  total_timeout : Duration;
  stats : list stat;
  peer_failure_cache : PeerFailureCache.PeerFailureCache;
}.

Definition new_with_runtime_stats (timeout_secs capacity ttl_secs : Z) : RbitFetcher :=
  mkFetcher (from_secs (if timeout_secs =? 0 then 15 else timeout_secs)) []
    (PeerFailureCache.new (Z.to_nat capacity) (from_secs ttl_secs)).

Definition fetcher_new (timeout_secs : Z) : RbitFetcher :=
  new_with_runtime_stats timeout_secs 200000 60.

Definition add_stats (f : RbitFetcher) (l : list stat) : RbitFetcher :=
  mkFetcher (total_timeout f) (stats f ++ l) (peer_failure_cache f).
Definition set_cache (f : RbitFetcher) c : RbitFetcher := mkFetcher (total_timeout f) (stats f) c.

Definition set_peer_failure_cache_entries (f : RbitFetcher) (count : nat) : RbitFetcher :=
  add_stats f [StatN "set_metadata_peer_failure_cache_entries" (Z.of_nat count)].

Definition record_peer_failure (f : RbitFetcher) (key : PeerFailureKey) (r : PeerFailureReason)
    (now : Instant) : RbitFetcher :=
  let '(n, c) := PeerFailureCache.insert (peer_failure_cache f) key r now in
  set_peer_failure_cache_entries (set_cache f c) n.

Definition record_timeout_failure (f : RbitFetcher) (info_hash : list Z) (a : SocketAddr)
    (stage : MetadataTimeoutStage) (now : Instant) : RbitFetcher :=
  match stage with
  | TcpConnect => record_peer_failure f (Endpoint a) TimeoutFailure now
  | Validation => f
  | _ => record_peer_failure f (MetadataKey info_hash a) TimeoutFailure now
  end.

(** [error as usize] *)
Definition error_index (c : MetadataConnectionError) : Z :=
  match c with
  | CRefused => 0 | CReset => 1 | CAborted => 2 | CClosed => 3 | CTimeout => 4 | CInvalidHandshake => 5
  | CInfoHashMismatch => 6 | CIoOther => 7 | COther => 8
  end.

Definition record_connection_failure (f : RbitFetcher) (info_hash : list Z) (a : SocketAddr)
    (stage : MetadataTimeoutStage) (error : PeerError) (now : Instant) : RbitFetcher :=
  let category := connection_error_category error in
  let f := add_stats f [StatN "metadata_connection_error" (error_index category);
                        Stat "metadata_connect_failed"] in
  let '(f, key) :=
    if bool_decide (stage = TcpConnect)
    then (add_stats f [Stat "metadata_failure_tcp_connect"], Endpoint a)
    else (add_stats f [Stat "metadata_failure_base_handshake"], MetadataKey info_hash a) in
  record_peer_failure f key ConnectFailed now.

(** [inl] carries a pending stage or the failure. *)
Definition connect_peer (f : RbitFetcher) (io : PeerScript) (info_hash : list Z) (a : SocketAddr)
    (now : Instant) : RbitFetcher * (fetched + unit) :=
  match tcp_connect io with
  | Waiting => (f, inl (Pending TcpConnect))
  | Reply (Some e) =>
      (record_connection_failure f info_hash a TcpConnect e now, inl (FetchErr FConnect))
  | Reply None =>
      match base_handshake io with
      | Waiting => (f, inl (Pending BaseHandshake))
      | Reply r =>
          let r :=
            match r with
            | inl e => inl e
            | inr (remote_hash, ext) =>
                if bool_decide (remote_hash = info_hash) then inr ext else inl PInfoHashMismatch
            end in
          match r with
          | inl e =>
              (record_connection_failure f info_hash a BaseHandshake e now, inl (FetchErr FConnect))
          | inr ext =>
              if negb ext then (add_stats f [Stat "metadata_no_extension"], inl (FetchErr FNoExtension))
              else (f, inr tt)
          end
      end
  end.

Definition fetch_with_peer (f : RbitFetcher) (io : PeerScript) (info_hash : list Z) (a : SocketAddr)
    (now : Instant) : RbitFetcher * fetched :=
  match connect_peer f io info_hash a now with
  | (f, inl r) => (f, r)
  | (f, inr _) =>
      if negb (encode_handshake_ok io) then (f, FetchErr FSend)
      else
        match send_handshake_ok io with
        | Waiting => (f, Pending ExtensionHandshakeSend)
        | Reply false => (f, FetchErr FSend)
        | Reply true =>
            let '(log, r) := receive_loop io info_hash download_start (incoming io) [] in
            (add_stats f log, r)
        end
  end.

Definition failure_stat (e : MetadataFetchFailure) : string :=
  match e with
  | FConnect => "metadata_failure_connect" | FNoExtension => "metadata_failure_no_extension"
  | FSend => "metadata_failure_send" | FSizeLimit => "metadata_failure_size_limit"
  | FSha1 => "metadata_failure_sha1" | FParse => "metadata_failure_parse"
  | FReject => "metadata_failure_reject" | FOther => "metadata_failure_other"
  end.

(** The cache check for one key; [true] when the peer is skipped. *)
Definition check_cache (f : RbitFetcher) (key : PeerFailureKey) (now : Instant) : bool * RbitFetcher :=
  let '(cached, n, c) := PeerFailureCache.get (peer_failure_cache f) key now in
  let f := set_peer_failure_cache_entries (set_cache f c) n in
  match cached with
  | None => (false, f)
  | Some r =>
      (true,
       add_stats f
         ([Stat "metadata_peer_failure_cache_hit";
           Stat (match key with
                 | Endpoint _ => "peer_cache_endpoint_hits"
                 | MetadataKey _ _ => "peer_cache_metadata_hits"
                 end)]
          ++ match r with
             | TimeoutFailure => [Stat "peer_cache_hit_timeout"]
             | ConnectFailed => [Stat "peer_cache_hit_connect"]
             | MetadataFailed => []
             end))
  end.

(** The [match result] of a finished or timed out attempt; [None] is a panic
    of the task. *)
Definition conclude (f : RbitFetcher) (info_hash : list Z) (a : SocketAddr) (r : fetched)
    (clk : nat → Instant) : option (MetadataFetchOutcome FetchedMetadata * RbitFetcher) :=
  match r with
  | FetchPanic => None
  | FetchOk m =>
      let c := (PeerFailureCache.remove (peer_failure_cache f) (Endpoint a) (clk 3%nat)).2 in
      let '(n, c) := PeerFailureCache.remove c (MetadataKey info_hash a) (clk 4%nat) in
      let f := set_peer_failure_cache_entries (set_cache f c) n in
      Some (Fetched m, add_stats f [Stat "metadata_peer_succeeded"])
  | FetchErr e =>
      let f := if bool_decide (e = FConnect) then f
               else record_peer_failure f (MetadataKey info_hash a) MetadataFailed (clk 3%nat) in
      Some (Failed, add_stats f [Stat "metadata_peer_failed"; Stat (failure_stat e)])
  | Pending stage =>
      let stage := from_index (stage_index stage) in
      let f := record_timeout_failure f info_hash a stage (clk 3%nat) in
      Some (Failed, add_stats f [Stat "metadata_peer_failed"; Stat "metadata_peer_timeout";
                                 Stat "metadata_failure_timeout"; StatN "metadata_timeout_stage" (stage_index stage)])
  end.

(** [clk 0] and [clk 1] are the cache lookups, [clk 2] the failure recorded
    during the connection, [clk 3] and [clk 4] the conclusion; [elapsed] is
    the measured duration.  The boolean says whether the attempt observer
    ran. *)
Definition fetch_with_attempt_observer (f : RbitFetcher) (io : PeerScript) (info_hash : list Z)
    (a : SocketAddr) (clk : nat → Instant) (elapsed : Duration)
  : option (bool * MetadataFetchOutcome FetchedMetadata * RbitFetcher) :=
  let '(hit, f) := check_cache f (Endpoint a) (clk 0%nat) in
  if hit : bool then Some (false, SkippedCached, f)
  else
    let '(hit, f) := check_cache f (MetadataKey info_hash a) (clk 1%nat) in
    if hit : bool then Some (false, SkippedCached, f)
    else
      let f := add_stats f [Stat "metadata_peer_attempt"] in
      let '(f, r) := fetch_with_peer f io info_hash a (clk 2%nat) in
      let f := add_stats f [StatN "observe_metadata_fetch_duration" (Z.min (elapsed `div` 1000000) u64_max)] in
      let! r := conclude f info_hash a r clk in
      Some (true, r.1, r.2).

(** ** Integrity *)

Lemma finish_download_ok io h data log m :
  finish_download io h data = (log, FetchOk m) → sha1 data = h ∧ parse_metadata data = Some (Some m).
Proof.
  unfold finish_download. destruct (validation_joined io) as [|[]]; simpl; [done| |done].
  case_bool_decide as Hs; [|done]. destruct (parse_metadata data) as [[m'|]|]; naive_solver.
Qed.

Lemma receive_loop_ok io h d msgs log log' m :
  receive_loop io h d msgs log = (log', FetchOk m) →
  ∃ bytes, sha1 bytes = h ∧ parse_metadata bytes = Some (Some m).
Proof.
  revert d log; induction msgs as [|[msg|] msgs IH]; intros d log; cbn [receive_loop]; [done| |done].
  destruct (on_message io d msg) as [d' n|? ? ?|?|data n]; [by apply IH|done|done|].
  destruct (finish_download io h data) as [l r] eqn:E. intros [= _ ->].
  exists data. by eapply finish_download_ok.
Qed.

Lemma connect_peer_ok f io h a now f' :
  connect_peer f io h a now = (f', inr tt) →
  tcp_connect io = Reply None ∧ base_handshake io = Reply (inr (h, true)).
Proof.
  unfold connect_peer. destruct (tcp_connect io) as [|[e|]]; [done|done|].
  destruct (base_handshake io) as [|[e|[rh ext]]]; [done|done|].
  case_bool_decide; [|done]. destruct ext; [|done]. naive_solver.
Qed.

Lemma fetch_with_peer_ok f io h a now f' m :
  fetch_with_peer f io h a now = (f', FetchOk m) →
  tcp_connect io = Reply None ∧ base_handshake io = Reply (inr (h, true))
  ∧ ∃ bytes, sha1 bytes = h ∧ parse_metadata bytes = Some (Some m).
Proof.
  unfold fetch_with_peer. destruct (connect_peer f io h a now) as [f1 [r|[]]] eqn:E.
  - intros [= _ ->]. unfold connect_peer in E.
    repeat (case_match; simplify_eq/=; try done).
  - apply connect_peer_ok in E as [H1 H2]. destruct (encode_handshake_ok io); [|done]. simpl.
    destruct (send_handshake_ok io) as [|[]]; [done| |done].
    destruct (receive_loop io h download_start (incoming io) []) as [l r] eqn:Er.
    intros [= _ ->]. split_and!; [done..|]. by eapply receive_loop_ok.
Qed.

(** C5: no metadata is accepted that does not hash to the requested
    identifier: whatever a peer sends, in whatever order, a fetch that
    reports success made a real attempt, completed both handshakes for the
    same torrent, and returns the parse of bytes whose SHA-1 is the info
    hash. *)
Theorem fetch_integrity (f f' : RbitFetcher) (io : PeerScript) (h : list Z) (a : SocketAddr)
    (clk : nat → Instant) (elapsed : Duration) (observed : bool) (m : FetchedMetadata) :
  fetch_with_attempt_observer f io h a clk elapsed = Some (observed, Fetched m, f') →
  observed = true ∧ tcp_connect io = Reply None ∧ base_handshake io = Reply (inr (h, true))
  ∧ ∃ bytes, sha1 bytes = h ∧ parse_metadata bytes = Some (Some m).
Proof.
  unfold fetch_with_attempt_observer.
  destruct (check_cache f (Endpoint a) (clk 0%nat)) as [[] f1]; [done|].
  destruct (check_cache f1 (MetadataKey h a) (clk 1%nat)) as [[] f2]; [done|].
  destruct (fetch_with_peer _ io h a (clk 2%nat)) as [f3 r] eqn:E.
  unfold conclude. destruct r as [s|e|m'|]; cbn [fst snd]; try done.
  destruct (PeerFailureCache.remove _ (MetadataKey h a) _) as [n c].
  intros [= <- -> _]. split; [done|]. by eapply fetch_with_peer_ok.
Qed.

(** ** Scope of failures *)

Abbreviation cache_entries f := (PeerFailureCache.entries (peer_failure_cache f)).

(** What a failure is charged to: the endpoint until its TCP connection
    stands, then the pair of torrent and endpoint. *)
Definition scope (io : PeerScript) (h : list Z) (a : SocketAddr) : PeerFailureKey :=
  match tcp_connect io with Reply None => MetadataKey h a | _ => Endpoint a end.

(** What an attempt with result [r] does to the cache, and when. *)
Definition charges (io : PeerScript) (h : list Z) (a : SocketAddr) (r : fetched) (clk : nat → Instant)
  : list (PeerFailureCache.op * Instant) :=
  match r with
  | FetchOk _ => [(PeerFailureCache.Remove (Endpoint a), clk 3%nat); (PeerFailureCache.Remove (MetadataKey h a), clk 4%nat)]
  | FetchErr FConnect => [(PeerFailureCache.Insert (scope io h a) ConnectFailed, clk 2%nat)]
  | FetchErr _ => [(PeerFailureCache.Insert (scope io h a) MetadataFailed, clk 3%nat)]
  | Pending Validation | FetchPanic => []
  | Pending _ => [(PeerFailureCache.Insert (scope io h a) TimeoutFailure, clk 3%nat)]
  end.

Lemma on_message_stage io d msg s : on_message io d msg = Stalled s → s = PieceRequestSend.
Proof.
  unfold on_message, on_handshake, on_data. intros H. repeat (case_match; simplify_eq/=; try done).
Qed.

Lemma receive_loop_stage io h d msgs log log' s :
  receive_loop io h d msgs log = (log', Pending s) → s ≠ TcpConnect.
Proof.
  revert d log; induction msgs as [|[msg|] msgs IH]; intros d log; cbn [receive_loop]; [|  |done].
  - intros [= _ <-]. unfold receive_stage. by destruct (request_sent d).
  - destruct (on_message io d msg) as [d' n|? ? ?|s'|data n] eqn:E; [by apply IH|done| |].
    + intros [= _ ->]. apply on_message_stage in E as ->. done.
    + unfold finish_download. repeat (case_match; simplify_eq/=; try done); naive_solver.
Qed.

Lemma fetch_result_connected f io h a now f' r :
  fetch_with_peer f io h a now = (f', r) →
  match r with
  | Pending TcpConnect => tcp_connect io = Waiting
  | FetchErr FConnect => True
  | _ => tcp_connect io = Reply None
  end.
Proof.
  unfold fetch_with_peer, connect_peer.
  destruct (tcp_connect io) as [|[e|]]; [by intros [= _ <-]..|].
  destruct (base_handshake io) as [|[e|[rh ext]]]; [by intros [= _ <-]..|].
  case_bool_decide; [|by intros [= _ <-]]. destruct ext; [|by intros [= _ <-]].
  cbn [negb]. destruct (encode_handshake_ok io); [|by intros [= _ <-]]. cbn [negb].
  destruct (send_handshake_ok io) as [|[]]; [by intros [= _ <-]| |by intros [= _ <-]].
  destruct (receive_loop io h download_start (incoming io) []) as [l r'] eqn:Er.
  intros [= _ <-]. destruct r' as [s|e|m|]; try done; [|by destruct e].
  apply receive_loop_stage in Er. by destruct s.
Qed.

Lemma record_failure_cache f k r now :
  peer_failure_cache (record_peer_failure f k r now) = (PeerFailureCache.insert (peer_failure_cache f) k r now).2.
Proof. unfold record_peer_failure. by destruct (PeerFailureCache.insert _ k r now). Qed.

Lemma check_cache_get f k now :
  (check_cache f k now).1 = bool_decide (is_Some (PeerFailureCache.get (peer_failure_cache f) k now).1.1)
  ∧ peer_failure_cache (check_cache f k now).2 = (PeerFailureCache.get (peer_failure_cache f) k now).2.
Proof. unfold check_cache. by destruct (PeerFailureCache.get _ k now) as [[[r|] n] c]. Qed.

Lemma on_message_fail io d msg st e n : on_message io d msg = Fail st e n → e ≠ FConnect.
Proof.
  assert (∀ ps e', send_requests io ps = inl (Reply e') → e' ≠ FConnect) as Hs.
  { induction ps as [|p ps IH]; intros e'; cbn; [done|]. repeat (case_match; try done); naive_solver. }
  unfold on_message, on_handshake, on_data. intros H. repeat (case_match; simplify_eq/=; try done); by eapply Hs.
Qed.

Lemma receive_loop_fail io h d msgs log log' e :
  receive_loop io h d msgs log = (log', FetchErr e) → e ≠ FConnect.
Proof.
  revert d log; induction msgs as [|[msg|] msgs IH]; intros d log; cbn [receive_loop]; [done| |naive_solver].
  destruct (on_message io d msg) as [d' n|? ? ?|s'|data n] eqn:E; [by apply IH| |done|].
  - intros [= _ <-]. by eapply on_message_fail.
  - unfold finish_download. repeat (case_match; simplify_eq/=; try done); naive_solver.
Qed.

(** Until its conclusion an attempt records only a failed connection. *)
Lemma fetch_cache f io h a now f' r :
  fetch_with_peer f io h a now = (f', r) →
  peer_failure_cache f' =
    match r with
    | FetchErr FConnect => (PeerFailureCache.insert (peer_failure_cache f) (scope io h a) ConnectFailed now).2
    | _ => peer_failure_cache f
    end.
Proof.
  unfold fetch_with_peer, connect_peer, scope.
  destruct (tcp_connect io) as [|[e|]]; [by intros [= <- <-]|intros [= <- <-]; exact (record_failure_cache (add_stats _ _) _ _ _)|].
  destruct (base_handshake io) as [|[e|[rh ext]]];
    [by intros [= <- <-]|intros [= <- <-]; exact (record_failure_cache (add_stats _ _) _ _ _)|].
  case_bool_decide; [|intros [= <- <-]; exact (record_failure_cache (add_stats _ _) _ _ _)]. destruct ext; [|by intros [= <- <-]].
  cbn [negb]. destruct (encode_handshake_ok io); [|by intros [= <- <-]]. cbn [negb].
  destruct (send_handshake_ok io) as [|[]]; [by intros [= <- <-]| |by intros [= <- <-]].
  destruct (receive_loop io h download_start (incoming io) []) as [l r'] eqn:Er. intros [= <- <-].
  destruct r' as [st|e|m|]; try done. apply receive_loop_fail in Er. by destruct e.
Qed.

(** Its result depends on the peer alone. *)
Lemma fetch_result_peer f f' io h a now now' :
  (fetch_with_peer f io h a now).2 = (fetch_with_peer f' io h a now').2.
Proof.
  unfold fetch_with_peer, connect_peer. destruct (tcp_connect io) as [|[e|]]; [done..|].
  destruct (base_handshake io) as [|[e|[rh ext]]]; [done..|]. case_bool_decide; [|done]. destruct ext; [|done]. cbn [negb].
  destruct (encode_handshake_ok io); [|done]. cbn [negb]. destruct (send_handshake_ok io) as [|[]]; [done| |done].
  by destruct (receive_loop io h download_start (incoming io) []).
Qed.

Lemma conclude_cache f io h a r clk out f' :
  conclude f h a r clk = Some (out, f') →
  match r with
  | Pending TcpConnect => tcp_connect io = Waiting
  | FetchErr FConnect => True
  | _ => tcp_connect io = Reply None
  end →
  peer_failure_cache f' =
    match r with
    | FetchErr FConnect => peer_failure_cache f
    | _ => PeerFailureCache.run (peer_failure_cache f) (charges io h a r clk)
    end
  ∧ out = match r with FetchOk m => Fetched m | _ => Failed end ∧ r ≠ FetchPanic.
Proof.
  unfold conclude, scope. destruct r as [s|err|m|]; [| | |done].
  - intros [= <- <-] Hc. split; [|done]. cbn [add_stats peer_failure_cache].
    destruct s; cbn [from_index stage_index record_timeout_failure charges PeerFailureCache.run PeerFailureCache.exec];
      unfold scope; rewrite ?Hc, ?record_failure_cache; done.
  - intros [= <- <-] Hc. split; [|done]. cbn [add_stats peer_failure_cache].
    destruct err; cbn [charges PeerFailureCache.run PeerFailureCache.exec]; unfold scope; rewrite ?Hc;
      first [rewrite bool_decide_true by done; done|rewrite bool_decide_false by done; apply record_failure_cache].
  - destruct (PeerFailureCache.remove _ (MetadataKey h a) _) as [n c] eqn:E. intros [= <- <-] Hc. split; [|done].
    cbn. by rewrite E.
Qed.

(** The lookups of a fetch, and what follows them. *)
Definition lookups (h : list Z) (a : SocketAddr) (clk : nat → Instant) : list (PeerFailureCache.op * Instant) :=
  [(PeerFailureCache.Get (Endpoint a), clk 0%nat); (PeerFailureCache.Get (MetadataKey h a), clk 1%nat)].

(** The lookup that finds the peer failing, if one does. *)
Definition skips (c : PeerFailureCache.PeerFailureCache) (h : list Z) (a : SocketAddr) (clk : nat → Instant) : option nat :=
  let r := PeerFailureCache.get c (Endpoint a) (clk 0%nat) in
  if bool_decide (is_Some r.1.1) then Some 0%nat
  else if bool_decide (is_Some (PeerFailureCache.get r.2 (MetadataKey h a) (clk 1%nat)).1.1) then Some 1%nat else None.

(** C40: failures are charged to the right thing, all of them and nothing
    else.  A fetch does to the failure cache exactly this: it looks the
    endpoint up and then the pair of torrent and endpoint, and skips a peer
    found failing without counting an attempt; otherwise the result, which the
    peer alone decides, says what follows.  A failed or timed-out attempt
    records one failure, with its kind, for the endpoint if the TCP connection
    did not complete and for the pair otherwise, and with an enabled cache it
    is then remembered for the time to live; a deadline that struck during
    local validation records nothing; a success forgets both. *)
Theorem failure_scope (f f' : RbitFetcher) (io : PeerScript) (h : list Z) (a : SocketAddr)
    (clk : nat → Instant) (elapsed : Duration) (observed : bool)
    (out : MetadataFetchOutcome FetchedMetadata) :
  fetch_with_attempt_observer f io h a clk elapsed = Some (observed, out, f') →
  let c := peer_failure_cache f in
  match skips c h a clk with
  | Some k => observed = false ∧ out = SkippedCached
      ∧ peer_failure_cache f' = PeerFailureCache.run c (take (S k) (lookups h a clk))
  | None =>
      ∃ r, (∀ f0 now, (fetch_with_peer f0 io h a now).2 = r)
        ∧ observed = true ∧ out = match r with FetchOk m => Fetched m | _ => Failed end
        ∧ peer_failure_cache f' = PeerFailureCache.run c (lookups h a clk ++ charges io h a r clk)
        ∧ ∀ k reason now, charges io h a r clk = [(PeerFailureCache.Insert k reason, now)] →
            PeerFailureCache.disabled c = false →
            cache_entries f' !! k = Some (mkFailure (now + PeerFailureCache.ttl c) reason)
  end.
Proof.
  unfold fetch_with_attempt_observer, skips. intros Hf. cbn zeta.
  destruct (check_cache_get f (Endpoint a) (clk 0%nat)) as [H1 C1].
  destruct (check_cache f (Endpoint a) (clk 0%nat)) as [b1 f1]. cbn [fst snd] in H1, C1. rewrite <-H1, <-C1.
  destruct b1; [simplify_eq; split_and!; [done|done|exact C1]|].
  destruct (check_cache_get f1 (MetadataKey h a) (clk 1%nat)) as [H2 C2].
  destruct (check_cache f1 (MetadataKey h a) (clk 1%nat)) as [b2 f2]. cbn [fst snd] in H2, C2. rewrite <-H2.
  assert (peer_failure_cache f2 = PeerFailureCache.run (peer_failure_cache f) (lookups h a clk)) as C3
    by (cbn; by rewrite C2, C1).
  destruct b2; [simplify_eq; split_and!; [done|done|exact C3]|].
  set (f2' := add_stats f2 _) in Hf. destruct (fetch_with_peer f2' io h a (clk 2%nat)) as [f3 r] eqn:E.
  set (f4 := add_stats f3 _) in Hf. destruct (conclude f4 h a r clk) as [[out' f5]|] eqn:Ec; [|done]. injection Hf as <- <- <-.
  pose proof (fetch_result_connected _ _ _ _ _ _ _ E) as Hconn. pose proof (fetch_cache _ _ _ _ _ _ _ E) as Hc3.
  destruct (conclude_cache f4 io h a r clk out' f5 Ec Hconn) as (Hc5 & Hout & _).
  assert (peer_failure_cache f5 = PeerFailureCache.run (peer_failure_cache f2) (charges io h a r clk)) as Hrun.
  { rewrite Hc5. change (peer_failure_cache f4) with (peer_failure_cache f3). rewrite Hc3.
    destruct r as [st|[]| |]; done. }
  exists r. split_and!; try done.
  - intros f0 now. rewrite (fetch_result_peer _ f2' _ _ _ _ (clk 2%nat)). by rewrite E.
  - by rewrite PeerFailureCache.cache_run_app, <-C3.
  - intros k reason now Hch Hen. rewrite Hrun, Hch. cbn [PeerFailureCache.run PeerFailureCache.exec].
    destruct (PeerFailureCache.run_keeps (lookups h a clk) (peer_failure_cache f)) as [Hcap Httl]. rewrite <-C3 in Hcap, Httl.
    rewrite <-Httl. apply PeerFailureCache.insert_remembers. unfold PeerFailureCache.disabled in *. by rewrite Hcap, Httl.
Qed.

(** ** An honest peer is served *)

Definition PIECE : Z := 16384.

Definition chunk (bytes : list Z) (i : Z) : list Z :=
  take (Z.to_nat PIECE) (drop (Z.to_nat (i * PIECE)) bytes).

Definition chunk_count (n : Z) : Z := div_ceil n PIECE.

Lemma chunk_count_bounds n : 0 < n → 0 < chunk_count n ∧ (chunk_count n - 1) * PIECE < n ≤ chunk_count n * PIECE.
Proof.
  intros Hn. unfold chunk_count, div_ceil, PIECE.
  pose proof (Z.div_mod (n + 16384 - 1) 16384 ltac:(lia)).
  pose proof (Z.mod_pos_bound (n + 16384 - 1) 16384 ltac:(lia)). lia.
Qed.

Lemma chunk_nonempty bytes i :
  0 ≤ i < chunk_count (Z.of_nat (length bytes)) → 0 < Z.of_nat (length (chunk bytes i)).
Proof.
  intros Hi. assert (0 < Z.of_nat (length bytes)) as Hb.
  { destruct (decide (length bytes = 0%nat)) as [E|?]; [|lia]. rewrite E in Hi.
    change (chunk_count (Z.of_nat 0)) with 0 in Hi. lia. }
  pose proof (chunk_count_bounds _ Hb). unfold chunk. rewrite length_take, length_drop.
  unfold PIECE in *. lia.
Qed.

(** The chunks up to [n] are the first [n] pieces of the data. *)
Lemma chunks_prefix bytes n :
  concat (chunk bytes <$> (Z.of_nat <$> seq 0 n)) = take (n * Z.to_nat PIECE) bytes.
Proof.
  induction n as [|n IH]; [done|].
  rewrite seq_S, !fmap_app, concat_app, IH. cbn [fmap list_fmap concat]. rewrite app_nil_r.
  unfold chunk. replace (Z.to_nat (Z.of_nat (0 + n) * PIECE)) with (n * Z.to_nat PIECE)%nat
    by (unfold PIECE; lia).
  rewrite take_take_drop. f_equal. lia.
Qed.

Lemma chunks_all bytes :
  concat (chunk bytes <$> (Z.of_nat <$> seq 0 (Z.to_nat (chunk_count (Z.of_nat (length bytes)))))) = bytes.
Proof.
  rewrite chunks_prefix. apply take_ge.
  destruct (decide (length bytes = 0%nat)); [lia|].
  pose proof (chunk_count_bounds (Z.of_nat (length bytes)) ltac:(lia)). unfold PIECE in *. lia.
Qed.

Definition received_len (bytes : list Z) (l : list Z) : Z :=
  Z.of_nat (length (concat (chunk bytes <$> l))).

Lemma received_len_perm bytes l l' : l ≡ₚ l' → received_len bytes l = received_len bytes l'.
Proof.
  intros Hp. unfold received_len. f_equal. apply Permutation_length.
  by rewrite Hp.
Qed.

Lemma received_len_app bytes l l' :
  received_len bytes (l ++ l') = received_len bytes l + received_len bytes l'.
Proof. unfold received_len. rewrite fmap_app, concat_app, length_app. lia. Qed.

Lemma assemble_spec ps m acc (g : Z → list Z) :
  (∀ p, p ∈ ps → m !! p = Some (g p)) → assemble ps m acc = Some (acc ++ concat (g <$> ps)).
Proof.
  revert acc; induction ps as [|p ps IH]; intros acc Hg; simpl; [by rewrite app_nil_r|].
  rewrite Hg by set_solver. rewrite IH by set_solver. by rewrite <-app_assoc.
Qed.

(** A peer that completes both handshakes, announces the true size and sends
    every piece once, in some order, with anything afterwards. *)
Record honest (io : PeerScript) (h bytes hs : list Z) (ut : Z) (payload : Z → list Z)
    (order : list Z) (rest : list (option Message)) : Prop := {
  honest_tcp : tcp_connect io = Reply None;
  honest_base : base_handshake io = Reply (inr (h, true));
  honest_encode : encode_handshake_ok io = true;
  honest_send : send_handshake_ok io = Reply true;
  honest_requests p : encode_request_ok io p = true ∧ send_request_ok io p = Reply true;
  honest_joined : validation_joined io = Reply true;
  honest_incoming :
    incoming io = Some (Extended 0 hs) :: ((λ i, Some (Extended 1 (payload i))) <$> order) ++ rest;
  honest_hs : decode_extension 0 hs = Some (Some (Z.of_nat (length bytes)), Some ut);
  honest_ut : 0 < ut;
  honest_size : 0 < Z.of_nat (length bytes) ≤ MAX_METADATA_SIZE;
  honest_piece i : decode_metadata (payload i) = Some (mkMeta MData i (Some (chunk bytes i)));
  honest_count : metadata_piece_count (Z.of_nat (length bytes)) = chunk_count (Z.of_nat (length bytes));
  honest_order : order ≡ₚ piece_indices (Z.of_nat (length bytes));
}.

Lemma send_requests_ok io ps :
  (∀ p, encode_request_ok io p = true ∧ send_request_ok io p = Reply true) → send_requests io ps = inr tt.
Proof. intros H. induction ps as [|p ps IH]; simpl; [done|]. by destruct (H p) as [-> ->]. Qed.

Lemma piece_indices_spec n : metadata_piece_count n = chunk_count n →
  NoDup (piece_indices n) ∧ ∀ i, i ∈ piece_indices n ↔ 0 ≤ i < chunk_count n.
Proof.
  intros Hc. unfold piece_indices. rewrite Hc. split.
  - apply NoDup_fmap; [apply _|apply NoDup_seq].
  - intros i. rewrite list_elem_of_fmap. split.
    + intros (k & -> & Hk%elem_of_seq). lia.
    + intros Hi. exists (Z.to_nat i). split; [lia|]. apply elem_of_seq. lia.
Qed.

(** The loop state after the pieces of [seen] have arrived. *)
Definition holds (bytes : list Z) (seen : list Z) (d : Download) : Prop :=
  metadata_size d = Z.of_nat (length bytes) ∧ request_sent d = true
  ∧ (∀ j, pieces d !! j = if bool_decide (j ∈ seen) then Some (chunk bytes j) else None)
  ∧ total_received d = received_len bytes seen.

Lemma received_all bytes n : metadata_piece_count n = chunk_count n → n = Z.of_nat (length bytes) →
  concat (chunk bytes <$> piece_indices n) = bytes.
Proof. intros Hc ->. unfold piece_indices. rewrite Hc. apply chunks_all. Qed.

Lemma on_data_honest bytes seen i todo d :
  let n := Z.of_nat (length bytes) in
  metadata_piece_count n = chunk_count n → 0 < n ≤ MAX_METADATA_SIZE →
  seen ++ i :: todo ≡ₚ piece_indices n → holds bytes seen d →
  match todo with
  | [] => ∃ k, on_data d i (chunk bytes i) = Complete bytes k
  | _ => ∃ d' k, on_data d i (chunk bytes i) = Continue d' k ∧ holds bytes (seen ++ [i]) d'
  end.
Proof.
  intros n Hc Hn Hp (Hsz & Hreq & Hps & Htot).
  destruct (piece_indices_spec n Hc) as [Hnd Hin]. rewrite <-Hp in Hnd.
  assert (i ∉ seen) as Hi by (apply NoDup_app in Hnd; set_solver).
  assert (received_len bytes (seen ++ i :: todo) = n) as Hall.
  { rewrite (received_len_perm _ _ _ Hp). unfold received_len. by rewrite (received_all bytes n). }
  replace (seen ++ i :: todo) with ((seen ++ [i]) ++ todo) in Hall by by rewrite <-app_assoc.
  rewrite received_len_app in Hall.
  assert (0 ≤ received_len bytes todo) as Ht0 by (unfold received_len; lia).
  assert (received_len bytes (seen ++ [i]) = received_len bytes seen + Z.of_nat (length (chunk bytes i))) as Hstep.
  { rewrite received_len_app. unfold received_len at 2. cbn [fmap list_fmap concat]. by rewrite app_nil_r. }
  unfold on_data. rewrite Hps, bool_decide_false by done. rewrite Htot, Hsz, Hreq. cbn zeta.
  assert (u64_saturating_add (received_len bytes seen) (Z.of_nat (length (chunk bytes i)))
          = received_len bytes (seen ++ [i])) as ->.
  { unfold u64_saturating_add, MAX_METADATA_SIZE, u64_max in *. lia. }
  cbn [metadata_size]. fold n. destruct (Z.eqb_spec n 0); [lia|]. cbn [orb].
  assert (∀ j, <[i := chunk bytes i]> (pieces d) !! j
               = if bool_decide (j ∈ seen ++ [i]) then Some (chunk bytes j) else None) as Hps'.
  { intros j. destruct (decide (i = j)) as [<-|Hne].
    - rewrite lookup_insert_eq, bool_decide_true; [done|set_solver].
    - rewrite lookup_insert_ne, Hps by done.
      rewrite (bool_decide_ext (j ∈ seen ++ [i]) (j ∈ seen)) by set_solver. done. }
  destruct todo as [|j todo].
  - change (received_len bytes []) with 0 in Hall. rewrite Z.add_0_r in Hall. rewrite Hall, Z.ltb_irrefl.
    rewrite (assemble_spec _ _ _ (chunk bytes)); [simpl; rewrite received_all by done; by eexists|].
    intros p Hpi. rewrite Hps', bool_decide_true; [done|]. by rewrite Hp.
  - assert (0 < received_len bytes (j :: todo)) as Hpos.
    { change (j :: todo) with ([j] ++ todo). rewrite received_len_app. unfold received_len at 1.
      cbn [fmap list_fmap concat]. rewrite app_nil_r.
      pose proof (chunk_nonempty bytes j). assert (j ∈ piece_indices n) as Hj%Hin by (rewrite <-Hp; set_solver).
      unfold received_len. fold n in H. lia. }
    destruct (Z.ltb_spec (received_len bytes (seen ++ [i])) n); [|lia]. do 2 eexists. split; [done|].
    done.
Qed.

Lemma receive_honest io h bytes hs ut payload order rest seen todo d log m :
  honest io h bytes hs ut payload order rest → sha1 bytes = h → parse_metadata bytes = Some (Some m) →
  seen ++ todo ≡ₚ order → todo ≠ [] → holds bytes seen d →
  (receive_loop io h d (((λ i, Some (Extended 1 (payload i))) <$> todo) ++ rest) log).2 = FetchOk m.
Proof.
  intros Hh Hs Hm. revert seen d log; induction todo as [|i todo IH]; intros seen d log Hp Hne Hd; [done|].
  cbn [fmap list_fmap app receive_loop on_message]. change (1 =? 0) with false. change (1 =? 1) with true.
  cbn [negb]. rewrite (honest_piece _ _ _ _ _ _ _ _ Hh i). cbn [mm_type mm_data mm_piece].
  rewrite (bool_decide_false (MData = MReject)), (bool_decide_true (MData = MData)) by done.
  rewrite andb_false_r. cbn [andb negb].
  pose proof (on_data_honest bytes seen i todo d (honest_count _ _ _ _ _ _ _ _ Hh)
    (honest_size _ _ _ _ _ _ _ _ Hh)) as Hod.
  rewrite <-(honest_order _ _ _ _ _ _ _ _ Hh) in Hod. specialize (Hod Hp Hd).
  destruct todo as [|j todo].
  - destruct Hod as [k ->]. unfold finish_download. rewrite (honest_joined _ _ _ _ _ _ _ _ Hh).
    rewrite bool_decide_true by done. cbn [andb]. by rewrite Hm.
  - destruct Hod as (d' & k & -> & Hd'). apply (IH (seen ++ [i])); [|done|done].
    by rewrite <-app_assoc.
Qed.

(** C10: an honest peer is served, whatever the shared failure cache holds
    about others: when the peer completes the handshakes, announces the true
    size (at most 10 MiB) and sends every 16 KiB piece, in any order, the fetch
    returns exactly the parsed metadata, provided that neither this endpoint
    nor this torrent at this endpoint has a current failure when it is looked
    up (a failure that has run out does not count). *)
Theorem honest_peer_served (f : RbitFetcher) (io : PeerScript) (h bytes hs : list Z) (ut : Z)
    (payload : Z → list Z) (order : list Z) (rest : list (option Message)) (a : SocketAddr)
    (clk : nat → Instant) (elapsed : Duration) (m : FetchedMetadata) (t : Instant) :
  honest io h bytes hs ut payload order rest → sha1 bytes = h → parse_metadata bytes = Some (Some m) →
  PeerFailureCache.inv (peer_failure_cache f) t → t ≤ clk 0%nat ≤ clk 1%nat →
  (∀ e, cache_entries f !! Endpoint a = Some e → expires_at e ≤ clk 0%nat) →
  (∀ e, cache_entries f !! MetadataKey h a = Some e → expires_at e ≤ clk 1%nat) →
  ∃ f', fetch_with_attempt_observer f io h a clk elapsed = Some (true, Fetched m, f').
Proof.
  intros Hh Hs Hm Hinv [Ht0 Ht1] He Hk. unfold fetch_with_attempt_observer.
  destruct (check_cache_get f (Endpoint a) (clk 0%nat)) as [M1 C1].
  rewrite (PeerFailureCache.get_miss _ t) in M1 by done.
  destruct (check_cache f (Endpoint a) (clk 0%nat)) as [b1 f1]. cbn [fst snd] in M1, C1. subst b1.
  destruct (PeerFailureCache.get_keeps _ t (Endpoint a) (clk 0%nat) Hinv Ht0) as [Hi1 Hsub]. rewrite <-C1 in Hi1, Hsub.
  destruct (check_cache_get f1 (MetadataKey h a) (clk 1%nat)) as [M2 _].
  rewrite (PeerFailureCache.get_miss _ (clk 0%nat)) in M2 by (try done; intros e E; by apply Hk, Hsub).
  destruct (check_cache f1 (MetadataKey h a) (clk 1%nat)) as [b2 f2]. cbn [fst] in M2. subst b2.
  set (f2' := add_stats f2 _).
  assert (∃ f3, fetch_with_peer f2' io h a (clk 2%nat) = (f3, FetchOk m)) as [f3 ->].
  { unfold fetch_with_peer, connect_peer.
    rewrite (honest_tcp _ _ _ _ _ _ _ _ Hh), (honest_base _ _ _ _ _ _ _ _ Hh), bool_decide_true by done.
    cbn [negb]. rewrite (honest_encode _ _ _ _ _ _ _ _ Hh), (honest_send _ _ _ _ _ _ _ _ Hh). cbn [negb].
    rewrite (honest_incoming _ _ _ _ _ _ _ _ Hh). cbn [receive_loop on_message]. change (0 =? 0) with true.
    cbn beta iota. pose proof (honest_size _ _ _ _ _ _ _ _ Hh) as Hsz.
    pose proof (honest_ut _ _ _ _ _ _ _ _ Hh) as Hut.
    unfold on_handshake. rewrite (honest_hs _ _ _ _ _ _ _ _ Hh).
    assert (as_u32 (Z.of_nat (length bytes)) = Z.of_nat (length bytes)) as ->
      by (unfold as_u32, u32_max, MAX_METADATA_SIZE in *; rewrite Z.mod_small; lia).
    cbn [request_sent download_start pieces total_received].
    destruct (Z.ltb_spec 0 (Z.of_nat (length bytes))); [|lia]. destruct (Z.ltb_spec 0 ut); [|lia].
    destruct (Z.ltb_spec MAX_METADATA_SIZE (Z.of_nat (length bytes))); [lia|]. cbn [andb negb].
    rewrite send_requests_ok by apply (honest_requests _ _ _ _ _ _ _ _ Hh).
    pose proof (receive_honest io h bytes hs ut payload order rest [] order
      (mkDownload (Z.of_nat (length bytes)) ut ∅ 0 true) ([] ++ log_bytes None) m Hh Hs Hm) as Hloop.
    destruct (receive_loop io h _ _ _) as [log r]. cbn [snd] in Hloop. eexists. f_equal. apply Hloop; [done| |].
    - intros ->. pose proof (honest_order _ _ _ _ _ _ _ _ Hh) as Hp. symmetry in Hp. apply Permutation_nil_r in Hp.
      destruct (piece_indices_spec _ (honest_count _ _ _ _ _ _ _ _ Hh)) as [_ Hin].
      pose proof (chunk_count_bounds (Z.of_nat (length bytes)) ltac:(lia)) as [Hc _].
      assert (0 ∈ piece_indices (Z.of_nat (length bytes))) as Hz by (apply Hin; lia).
      rewrite Hp in Hz. by apply not_elem_of_nil in Hz.
    - split_and!; try done. }
  unfold conclude. cbn [fst snd].
  destruct (PeerFailureCache.remove _ (MetadataKey h a) _) as [n c]. by eexists.
Qed.

(** ** Sizes of parsed metadata *)

Definition sizes_sum (l : list FileInfo) : Z := foldr (λ i s, fi_size i + s) 0 l.

Lemma as_u64_range i : 0 ≤ as_u64 i ≤ u64_max.
Proof. unfold as_u64. pose proof (Z.mod_pos_bound i (u64_max + 1)). unfold u64_max in *. lia. Qed.

Lemma parse_file_size file info : parse_file file = Some info → 0 ≤ fi_size info ≤ u64_max.
Proof.
  unfold parse_file. repeat case_match; intros; simplify_eq/=; try apply as_u64_range.
Qed.

Lemma sizes_sum_nonneg files : 0 ≤ sizes_sum (omap parse_file files).
Proof.
  induction files as [|file files IH]; [done|]. cbn [omap list_omap].
  destruct (parse_file file) as [info|] eqn:E; [|done]. simpl. apply parse_file_size in E. lia.
Qed.

Lemma parse_files_spec files total acc :
  0 ≤ total ≤ u64_max →
  let infos := omap parse_file files in
  parse_files files total acc
  = if overflow_checks && (u64_max <? total + sizes_sum infos) then None
    else Some ((total + sizes_sum infos) `mod` (u64_max + 1), acc ++ infos).
Proof.
  cbn zeta. revert total acc; induction files as [|file files IH]; intros total acc Ht.
  { simpl. rewrite Z.add_0_r, app_nil_r. destruct (Z.ltb_spec u64_max total); [lia|].
    rewrite andb_false_r. rewrite Z.mod_small by lia. done. }
  cbn [parse_files omap list_omap]. destruct (parse_file file) as [info|] eqn:E; [|by apply IH].
  pose proof (parse_file_size _ _ E) as Hi. pose proof (sizes_sum_nonneg files) as Hs.
  unfold add_u64. change (sizes_sum (info :: omap parse_file files))
    with (fi_size info + sizes_sum (omap parse_file files)).
  destruct (Z.ltb_spec u64_max (total + fi_size info)) as [Hov|Hok]; cbn [andb].
  - destruct overflow_checks; cbn [andb].
    + destruct (Z.ltb_spec u64_max (total + (fi_size info + sizes_sum (omap parse_file files)))); [done|lia].
    + rewrite IH by apply u64_wrapping_add_range. cbn [andb]. rewrite <-app_assoc. do 2 f_equal.
      unfold u64_wrapping_add. rewrite Zplus_mod_idemp_l. f_equal. lia.
  - rewrite IH by apply u64_wrapping_add_range. rewrite u64_wrapping_add_small by lia.
    rewrite <-Z.add_assoc, <-app_assoc. done.
Qed.

(** What parsing makes of a multi-file torrent, exactly: entries without
    an integer length are skipped, each size is the length reinterpreted as
    unsigned, and the total is the sum of the sizes modulo 2^64; when the sum
    does not fit, builds with overflow checks panic and the others wrap. *)
Theorem parse_metadata_files (info_bytes : list Z) (dict : list (list Z * Value)) (files : list Value) :
  bdecode info_bytes = Some (VDict dict) →
  dict_get (byte_string "files") dict ≫= as_list = Some files →
  let infos := omap parse_file files in
  let total := sizes_sum infos `mod` (u64_max + 1) in
  let name := default "Unknown" (dict_get (byte_string "name") dict ≫= as_str) in
  let piece_length := as_u64 (default 0 (dict_get (byte_string "piece length") dict ≫= as_integer)) in
  parse_metadata info_bytes
  = if overflow_checks && (u64_max <? sizes_sum infos) then None
    else Some (if 0 <? total then Some (name, total, infos, piece_length) else None).
Proof.
  intros Hd Hf. cbn zeta. unfold parse_metadata. rewrite Hd. cbn [mbind option_bind as_dict]. rewrite Hf.
  rewrite parse_files_spec by (unfold u64_max; lia). rewrite Z.add_0_l.
  by destruct (overflow_checks && _).
Qed.
End fetch.

(** ** Concrete runs

    A toy codec stands for the third-party ones: the digest is the data
    itself, messages carry their fields verbatim. *)

Definition toy_sha1 (l : list Z) : list Z := l.
Definition toy_utf8 (l : list Z) : option string := Some "name".
Definition toy_value : Value := VDict [(byte_string "length", VInt 7)].
Definition toy_bdecode (l : list Z) : option Value := Some toy_value.
Definition toy_extension (id : Z) (p : list Z) : option (option Z * option Z) :=
  match p with [size; ut] => Some (Some size, Some ut) | _ => None end.
Definition toy_metadata (p : list Z) : option MetadataMessage :=
  match p with i :: data => Some (mkMeta MData i (Some data)) | [] => None end.
Definition toy_bytes : list Z := [1; 2; 3].
Definition toy_payload (i : Z) : list Z := i :: chunk toy_bytes i.
Definition toy_script (msgs : list (option Message)) : PeerScript :=
  mkScript (Reply None) (Reply (inr (toy_bytes, true))) true (Reply true) (λ _, true) (λ _, Reply true)
    msgs (Reply true).
Definition toy_addr : SocketAddr := SocketAddrV4 8 8 8 8 6881.
Definition toy_messages : list (option Message) :=
  Some (Extended 0 [3; 5]) :: ((λ i, Some (Extended 1 (toy_payload i))) <$> [0]) ++ [].

Definition toy_fetch (f : RbitFetcher) (io : PeerScript) (h : list Z) :=
  fetch_with_attempt_observer toy_sha1 toy_bdecode toy_utf8 chunk_count toy_extension toy_metadata true
    f io h toy_addr (λ _, 0) 0.

Definition toy_fetcher : RbitFetcher := new_with_runtime_stats 4 10 60.

Lemma toy_honest : honest chunk_count toy_extension toy_metadata (toy_script toy_messages) toy_bytes
  toy_bytes [3; 5] 5 toy_payload [0] [].
Proof.
  split.
  - reflexivity.
  - reflexivity.
  - reflexivity.
  - reflexivity.
  - intros p. split; reflexivity.
  - reflexivity.
  - reflexivity.
  - reflexivity.
  - lia.
  - unfold MAX_METADATA_SIZE. simpl. lia.
  - intros i. reflexivity.
  - reflexivity.
  - reflexivity.
Qed.

(** A fetcher whose cache remembers another peer as failing and a failure of
    this one that has run out. *)
Definition other_addr : SocketAddr := SocketAddrV4 9 9 9 9 6881.
Definition busy_fetcher : RbitFetcher :=
  record_peer_failure (record_peer_failure toy_fetcher (MetadataKey toy_bytes toy_addr) TimeoutFailure 0)
    (Endpoint other_addr) ConnectFailed (60 * 1000000000).

Lemma honest_peer_served_witness :
  size (PeerFailureCache.entries (peer_failure_cache busy_fetcher)) = 1%nat
  ∧ ∃ f', fetch_with_attempt_observer toy_sha1 toy_bdecode toy_utf8 chunk_count toy_extension toy_metadata true
            busy_fetcher (toy_script toy_messages) toy_bytes toy_addr (λ _, 60 * 1000000000) 0
          = Some (true, Fetched ("Unknown", 7, [mkFile "Unknown" 7], 0), f').
Proof.
  split; [vm_compute; reflexivity|].
  apply (honest_peer_served toy_sha1 toy_bdecode toy_utf8 chunk_count toy_extension toy_metadata true
    busy_fetcher (toy_script toy_messages) toy_bytes toy_bytes [3; 5] 5 toy_payload [0] [] toy_addr
    (λ _, 60 * 1000000000) 0 ("Unknown", 7, [mkFile "Unknown" 7], 0) (60 * 1000000000) toy_honest eq_refl eq_refl).
  - unfold busy_fetcher. rewrite !record_failure_cache.
    eapply (PeerFailureCache.insert_spec _ 0).
    + eapply (PeerFailureCache.insert_spec _ 0);
        [by apply PeerFailureCache.new_inv|lia|split; [cbn; lia|reflexivity]].
    + lia.
    + split; [vm_compute; lia|reflexivity].
  - lia.
  - intros e He. vm_compute in He. done.
  - intros e He. vm_compute in He. done.
Defined.

Lemma fetch_integrity_witness :
  ∃ f', toy_fetch toy_fetcher (toy_script toy_messages) toy_bytes
          = Some (true, Fetched ("Unknown", 7, [mkFile "Unknown" 7], 0), f')
        ∧ ∃ bytes, toy_sha1 bytes = toy_bytes
            ∧ parse_metadata toy_bdecode toy_utf8 true bytes = Some (Some ("Unknown", 7, [mkFile "Unknown" 7], 0)).
Proof.
  eexists. split; [vm_compute; reflexivity|].
  eapply (fetch_integrity toy_sha1 toy_bdecode toy_utf8 chunk_count toy_extension toy_metadata true
    toy_fetcher _ (toy_script toy_messages) toy_bytes toy_addr (λ _, 0) 0).
  vm_compute. reflexivity.
Defined.

Definition refused_script : PeerScript :=
  mkScript (Reply (Some (PIo ConnectionRefused))) Waiting true Waiting (λ _, true) (λ _, Waiting) [] Waiting.

Lemma failure_scope_witness :
  ∃ f', toy_fetch toy_fetcher refused_script toy_bytes = Some (true, Failed, f')
    ∧ ∃ r, (∀ f0 now, (fetch_with_peer toy_sha1 toy_bdecode toy_utf8 chunk_count toy_extension toy_metadata true
                         f0 refused_script toy_bytes toy_addr now).2 = r)
      ∧ true = true ∧ Failed = match r with FetchOk m => Fetched m | _ => Failed end
      ∧ peer_failure_cache f'
        = PeerFailureCache.run (peer_failure_cache toy_fetcher)
            (lookups toy_bytes toy_addr (λ _, 0) ++ charges refused_script toy_bytes toy_addr r (λ _, 0))
      ∧ ∀ k reason now, charges refused_script toy_bytes toy_addr r (λ _, 0) = [(PeerFailureCache.Insert k reason, now)] →
          PeerFailureCache.disabled (peer_failure_cache toy_fetcher) = false →
          PeerFailureCache.entries (peer_failure_cache f') !! k
          = Some (mkFailure (now + PeerFailureCache.ttl (peer_failure_cache toy_fetcher)) reason).
Proof.
  eexists. split; [vm_compute; reflexivity|].
  eapply (failure_scope toy_sha1 toy_bdecode toy_utf8 chunk_count toy_extension toy_metadata true
    toy_fetcher _ refused_script toy_bytes toy_addr (λ _, 0) 0 true Failed).
  vm_compute. reflexivity.
Defined.

Definition two_files : list (list Z * Value) :=
  [(byte_string "files",
    VList [VDict [(byte_string "length", VInt 5)]; VInt 3; VDict [(byte_string "length", VInt 6)]])].

Lemma parse_metadata_files_witness :
  parse_metadata (λ _, Some (VDict two_files)) toy_utf8 true []
  = Some (Some ("Unknown", 11, [mkFile "" 5; mkFile "" 6], 0)).
Proof.
  exact (parse_metadata_files (λ _, Some (VDict two_files)) toy_utf8 true [] two_files
    [VDict [(byte_string "length", VInt 5)]; VInt 3; VDict [(byte_string "length", VInt 6)]] eq_refl eq_refl).
Defined.

(** A negative length makes the total overflow: a panic with overflow checks,
    and without them a total smaller than one of the files. *)
Definition wrapping_files : list (list Z * Value) :=
  [(byte_string "files",
    VList [VDict [(byte_string "length", VInt (-1))]; VDict [(byte_string "length", VInt 2)]])].

Example parse_total_overflows :
  parse_metadata (λ _, Some (VDict wrapping_files)) toy_utf8 true [] = None
  ∧ parse_metadata (λ _, Some (VDict wrapping_files)) toy_utf8 false []
    = Some (Some ("Unknown", 1, [mkFile "" u64_max; mkFile "" 2], 0)).
Proof. split; vm_compute; reflexivity. Qed.

(** A second extension handshake after the piece requests replaces the
    announced size without meeting the limit again: the loop then goes on
    collecting pieces up to the new size. *)
Example size_limit_bypassed :
  let d := mkDownload 3 5 ∅ 0 true in
  on_message chunk_count toy_extension toy_metadata (toy_script []) d (Extended 0 [4000000000; 5])
  = Continue (mkDownload 4000000000 5 ∅ 0 true) None
  ∧ MAX_METADATA_SIZE < 4000000000.
Proof. split; vm_compute; reflexivity. Qed.
