(* ===== verification/Stats.v ===== *)
(** * Statistics ([src/runtime_stats.rs])

    The fixed-bucket histograms with their percentile ([Module Histogram]),
    the counters, gauges and their snapshots ([Module Counters]), and the counters
    addressed by name ([Module Yield]).  The counters are atomics updated with
    [fetch_add], which wraps at 64 bits; a sequence of calls stands for one
    interleaving of the tasks. *)

From Stdlib Require Import SpecFloat.
From stdpp Require Import sorting gmap strings.
From S2P Require Import Prelude Net Float64 Types FailureCache Metadata.

Local Open Scope Z_scope.

Lemma wrap_add_mod v n k : (u64_wrapping_add v n + k) `mod` 2 ^ 64 = (v + (n + k)) `mod` 2 ^ 64.
Proof. unfold u64_wrapping_add. change (u64_max + 1) with (2 ^ 64). rewrite Zplus_mod_idemp_l. f_equal. lia. Qed.

Module Histogram.

Definition METADATA_QUEUE_WAIT_BUCKETS_MS : list Z := [10; 50; 100; 250; 500; 1000; 2000; 5000].
Definition METADATA_FETCH_BUCKETS_MS : list Z := [250; 500; 1000; 2000; 4000; 6000; 10000].
Definition METADATA_SIZE_BUCKETS_BYTES : list Z :=
  [16 * 1024; 32 * 1024; 64 * 1024; 128 * 1024; 256 * 1024; 512 * 1024; 1024 * 1024; 10 * 1024 * 1024].

(** [AtomicFixedHistogram], and [FixedHistogramSnapshot], which loads every
    field of it. *)
Record Histogram := mk { bounds : list Z; counts : list Z; overflow : Z; count : Z; sum : Z }.

Definition new (bounds : list Z) : Histogram := mk bounds (replicate (length bounds) 0) 0 0 0.

(** [self.bounds.iter().position(|bound| value <= *bound)] *)
Definition bucket (bounds : list Z) (value : Z) : option nat := position (λ b, value <=? b) bounds.

Definition record (h : Histogram) (value : Z) : Histogram :=
  let '(cs, over) :=
    match bucket (bounds h) value with
    | Some i => (alter (λ c, u64_wrapping_add c 1) i (counts h), overflow h)
    | None => (counts h, u64_wrapping_add (overflow h) 1)
    end in
  mk (bounds h) cs over (u64_wrapping_add (count h) 1) (u64_wrapping_add (sum h) value).

(** [x.ceil() as u64]: the cast saturates and sends NaN to zero. *)
Definition f64_ceil_u64 (x : f64) : Z :=
  match x with
  | S754_zero _ | S754_nan => 0
  | S754_infinity s => if s then 0 else u64_max
  | S754_finite s m e =>
      if s then 0
      else Z.min u64_max (if 0 <=? e then Z.pos m * 2 ^ e else - (- Z.pos m `div` 2 ^ (- e)))
  end.

(** [f64::clamp(0.0, 1.0)] *)
Definition clamp01 (p : f64) : f64 :=
  let p := if f64_ltb p f64_zero then f64_zero else p in
  if f64_ltb (f64_of_Z 1) p then f64_of_Z 1 else p.

Definition rank_of (count : Z) (p : f64) : Z :=
  Z.max (f64_ceil_u64 (f64_mul (f64_of_Z count) (clamp01 p))) 1.

(** [for (bound, count) in self.bounds.iter().zip(&self.counts)] *)
Fixpoint percentile_loop (l : list (Z * Z)) (cumulative rank : Z) : option Z :=
  match l with
  | [] => None
  | (bound, c) :: l =>
      let cumulative := u64_saturating_add cumulative c in
      if rank <=? cumulative then Some bound else percentile_loop l cumulative rank
  end.

Definition percentile (h : Histogram) (p : f64) : option Z :=
  if count h =? 0 then None
  else
    match percentile_loop (zip (bounds h) (counts h)) 0 (rank_of (count h) p) with
    | Some b => Some b
    | None => last (bounds h)
    end.

(** ** Correctness *)

(** How many recorded values fall into bucket [i], and how many at or below
    a bound. *)
Definition in_bucket (bs : list Z) (vs : list Z) (i : nat) : Z :=
  Z.of_nat (length (filter (λ v, bucket bs v = Some i) vs)).
Definition at_most (b : Z) (vs : list Z) : Z := Z.of_nat (length (filter (λ v, v ≤ b) vs)).

Definition increasing (bs : list Z) : Prop := Sorted.StronglySorted Z.lt bs.

Definition recorded (bs vs : list Z) : Histogram := fold_left record vs (new bs).

Lemma in_bucket_cons bs v vs i :
  in_bucket bs (v :: vs) i = (if decide (bucket bs v = Some i) then 1 else 0) + in_bucket bs vs i.
Proof. unfold in_bucket. rewrite filter_cons. case_decide; simpl; lia. Qed.

Lemma position_lt {A} (f : A → bool) l i : position f l = Some i → (i < length l)%nat.
Proof.
  revert i; induction l as [|x l IH]; intros i; simpl; [done|]. destruct (f x); [intros [= <-]; lia|].
  destruct (position f l); simpl; intros [= <-]. specialize (IH _ eq_refl). lia.
Qed.

(** What a history of observations leaves: counters that add up. *)
Record counted (bs vs : list Z) (h : Histogram) : Prop := {
  ct_bounds : bounds h = bs;
  ct_length : length (counts h) = length bs;
  ct_counts i c : counts h !! i = Some c → c = in_bucket bs vs i;
  ct_overflow : overflow h = Z.of_nat (length (filter (λ v, bucket bs v = None) vs));
  ct_count : count h = Z.of_nat (length vs);
  ct_sum : sum h = foldr Z.add 0 vs `mod` 2 ^ 64;
}.

Lemma recorded_snoc bs vs v : recorded bs (vs ++ [v]) = record (recorded bs vs) v.
Proof. unfold recorded. by rewrite fold_left_app. Qed.

Lemma in_bucket_snoc bs vs v i :
  in_bucket bs (vs ++ [v]) i = in_bucket bs vs i + (if decide (bucket bs v = Some i) then 1 else 0).
Proof. unfold in_bucket. rewrite filter_app, filter_cons, filter_nil, length_app. case_decide; simpl; lia. Qed.

Lemma in_bucket_length bs vs i : 0 ≤ in_bucket bs vs i ≤ Z.of_nat (length vs).
Proof. unfold in_bucket. pose proof (length_filter (λ v, bucket bs v = Some i) vs). lia. Qed.

Lemma foldr_add_snoc vs v : foldr Z.add 0 (vs ++ [v]) = foldr Z.add 0 vs + v.
Proof. rewrite foldr_app. simpl. rewrite Z.add_0_r. induction vs as [|x vs IH]; simpl; lia. Qed.

Lemma recorded_counted bs vs : Z.of_nat (length vs) ≤ u64_max → counted bs vs (recorded bs vs).
Proof.
  induction vs as [|v vs IH] using rev_ind; intros Hlen.
  { split; try done; [by apply length_replicate|]. intros i c Hc. by apply lookup_replicate in Hc as [-> _]. }
  rewrite length_app in Hlen. simpl in Hlen. destruct IH as [Hb Hl Hc Ho Hn Hs]; [lia|]. rewrite recorded_snoc.
  unfold record. rewrite Hb.
  assert (u64_wrapping_add (count (recorded bs vs)) 1 = Z.of_nat (length (vs ++ [v]))) as Hn'.
  { rewrite Hn, length_app, u64_wrapping_add_small; simpl; lia. }
  assert (u64_wrapping_add (sum (recorded bs vs)) v = foldr Z.add 0 (vs ++ [v]) `mod` 2 ^ 64) as Hs'.
  { rewrite Hs, foldr_add_snoc. unfold u64_wrapping_add. change (u64_max + 1) with (2 ^ 64). by rewrite Zplus_mod_idemp_l. }
  pose proof (length_filter (λ v, bucket bs v = None) vs) as Hf.
  assert (length (filter (λ v, bucket bs v = None) (vs ++ [v]))
    = (length (filter (λ v, bucket bs v = None) vs) + if decide (bucket bs v = None) then 1 else 0)%nat) as Hfs.
  { rewrite filter_app, filter_cons, filter_nil, length_app. by case_decide. }
  destruct (bucket bs v) as [k|] eqn:Hk; split; cbn [bounds counts overflow count sum]; try done.
  - by rewrite length_alter.
  - intros i c. rewrite in_bucket_snoc, Hk. destruct (decide (i = k)) as [->|Hne].
    + rewrite list_lookup_alter_eq. destruct (counts (recorded bs vs) !! k) as [c'|] eqn:E; simpl; intros [= <-].
      rewrite decide_True by done. apply Hc in E as ->. pose proof (in_bucket_length bs vs k).
      rewrite u64_wrapping_add_small by lia. lia.
    + rewrite list_lookup_alter_ne by done. intros E%Hc. rewrite decide_False by congruence. lia.
  - rewrite Hfs, decide_False by done. rewrite Ho. lia.
  - intros i c E%Hc. rewrite in_bucket_snoc, Hk, decide_False by done. lia.
  - rewrite Hfs, decide_True, Ho by done. rewrite u64_wrapping_add_small; lia.
Qed.

(** *** Buckets of increasing bounds *)

Lemma bucket_cons b bs v : bucket (b :: bs) v = if v <=? b then Some 0%nat else S <$> bucket bs v.
Proof. done. Qed.

Lemma at_most_split bs vs b prev i :
  increasing bs → bs !! S i = Some b → bs !! i = Some prev → in_bucket bs vs (S i) + at_most prev vs = at_most b vs.
Proof.
  intros Hinc Hb Hp. assert (∀ v, bucket bs v = Some (S i) ↔ prev < v ≤ b) as Hk.
  { intros v. clear vs. revert i Hb Hp. induction Hinc as [|x bs Hinc IH Hx]; intros i Hb Hp; [done|]. rewrite bucket_cons.
    destruct i as [|i]; simpl in Hb, Hp.
    - injection Hp as ->. destruct bs as [|y bs]; [done|]. injection Hb as ->. rewrite bucket_cons.
      inversion Hx; subst. destruct (Z.leb_spec v prev); [split; [done|lia]|].
      destruct (Z.leb_spec v b); simpl; [split; [lia|done]|]. destruct (bucket bs v); simpl; split; try done; lia.
    - rewrite Forall_lookup in Hx. pose proof (Hx _ _ Hp) as Hlt. specialize (IH i Hb Hp).
      destruct (Z.leb_spec v x); [split; [done|lia]|]. rewrite <-IH. destruct (bucket bs v); simpl; [|done].
      split; [by intros [= ->]|by intros [= ->]]. }
  assert (prev < b) as Hlt.
  { clear Hk. revert i Hb Hp. induction Hinc as [|x bs Hinc IH Hx]; intros i Hb Hp; [done|]. rewrite Forall_lookup in Hx.
    destruct i as [|i]; simpl in *; [injection Hp as <-; by apply (Hx 0%nat)|by eapply IH]. }
  unfold in_bucket, at_most. induction vs as [|v vs IH]; [done|]. rewrite !filter_cons. specialize (Hk v).
  destruct (decide (bucket bs v = Some (S i))) as [E|E]; rewrite Hk in E;
    destruct (decide (v ≤ prev)), (decide (v ≤ b)); simpl length; lia.
Qed.

Lemma at_most_first bs vs b : bs !! 0%nat = Some b → in_bucket bs vs 0 = at_most b vs.
Proof.
  destruct bs as [|x bs]; [done|]. intros [= ->]. unfold in_bucket, at_most. induction vs as [|v vs IH]; [done|].
  rewrite !filter_cons, bucket_cons. destruct (Z.leb_spec v b).
  - rewrite decide_True, (decide_True (P := v ≤ b)) by done. simpl. lia.
  - rewrite decide_False by (destruct (bucket bs v); simpl; congruence). by rewrite (decide_False (P := v ≤ b)) by lia.
Qed.

(** *** The loop *)

(** The counts of the remaining buckets add up to the values at or below
    their bounds. *)
Fixpoint cumulates (vs : list Z) (cumulative : Z) (l : list (Z * Z)) : Prop :=
  match l with
  | [] => True
  | (b, c) :: l => cumulative + c = at_most b vs ∧ cumulates vs (at_most b vs) l
  end.

Lemma at_most_bound b vs : 0 ≤ at_most b vs ≤ Z.of_nat (length vs).
Proof. unfold at_most. pose proof (length_filter (λ v, v ≤ b) vs). lia. Qed.

Lemma loop_finds vs l cumulative rank :
  Z.of_nat (length vs) ≤ u64_max → cumulates vs cumulative l →
  percentile_loop l cumulative rank = List.find (λ b, rank <=? at_most b vs) l.*1.
Proof.
  intros Hlen. revert cumulative; induction l as [|[b c] l IH]; intros cumulative Hc; [done|]. destruct Hc as [Hb Hc].
  cbn [percentile_loop]. unfold u64_saturating_add. rewrite Hb, Z.min_r by (pose proof (at_most_bound b vs); lia).
  simpl. destruct (rank <=? _); [done|]. by apply IH.
Qed.

Lemma counted_cumulates bs vs cs :
  increasing bs → length cs = length bs → (∀ i c, cs !! i = Some c → c = in_bucket bs vs i) →
  cumulates vs 0 (zip bs cs).
Proof.
  intros Hinc Hl Hc.
  assert (∀ k, (k ≤ length bs)%nat →
    cumulates vs (match k with 0%nat => 0 | S j => default 0 ((λ b, at_most b vs) <$> bs !! j) end)
      (zip (drop k bs) (drop k cs))) as Hgen; [|by apply (Hgen 0%nat); lia].
  intros k Hk. remember (length bs - k)%nat as n eqn:Hn. revert k Hk Hn; induction n as [|n IH]; intros k Hk Hn.
  { by rewrite drop_ge by lia. }
  destruct (lookup_lt_is_Some_2 bs k) as [b Hb]; [lia|]. destruct (lookup_lt_is_Some_2 cs k) as [c Hck]; [lia|].
  rewrite (drop_S _ _ _ Hb), (drop_S _ _ _ Hck). simpl. rewrite (Hc _ _ Hck). split.
  - destruct k as [|j]; [by rewrite Z.add_0_l; apply at_most_first|].
    destruct (lookup_lt_is_Some_2 bs j) as [prev Hp]; [lia|]. rewrite Hp. simpl.
    rewrite Z.add_comm. by eapply at_most_split.
  - specialize (IH (S k)). simpl in IH. rewrite Hb in IH. apply IH; lia.
Qed.

(** *** Ranks *)

(** The value of a rank among the sorted values. *)
Definition ranked (vs : list Z) (rank : Z) : option Z := merge_sort Z.le vs !! Z.to_nat (rank - 1).

Lemma sorted_at_most l r x b :
  Sorted.StronglySorted Z.le l → l !! r = Some x → Z.of_nat r + 1 ≤ at_most b l ↔ x ≤ b.
Proof.
  unfold at_most. intros Hs. revert r; induction Hs as [|y l Hs IH Hy]; intros r Hr; [done|]. rewrite filter_cons.
  rewrite Forall_lookup in Hy. destruct r as [|r]; simpl in Hr.
  - injection Hr as ->. case_decide; simpl length; [split; [done|lia]|]. split; [|lia]. intros Hle. exfalso.
    destruct (filter (λ v, v ≤ b) l) as [|z l'] eqn:E; [simpl in Hle; lia|].
    assert (z ∈ filter (λ v, v ≤ b) l) as Hz by (rewrite E; by left).
    apply list_elem_of_filter in Hz as [Hz [j Hj]%list_elem_of_lookup]. pose proof (Hy _ _ Hj). lia.
  - pose proof (Hy _ _ Hr) as Hyx. specialize (IH _ Hr). case_decide; simpl length; [lia|].
    split; [|intros Hxb; exfalso; apply H; by trans x]. intros Hle. apply IH. lia.
Qed.

Lemma at_most_perm b vs l : vs ≡ₚ l → at_most b vs = at_most b l.
Proof. intros Hp. unfold at_most. by rewrite Hp. Qed.

Lemma find_position bs x : List.find (λ b, x <=? b) bs = (let! i := bucket bs x in bs !! i).
Proof.
  induction bs as [|b bs IH]; [done|]. rewrite bucket_cons. simpl. destruct (x <=? b); [done|]. rewrite IH.
  by destruct (bucket bs x).
Qed.

Lemma find_ext {A} (f g : A → bool) l : (∀ x, f x = g x) → List.find f l = List.find g l.
Proof. intros H. induction l as [|x l IH]; [done|]. simpl. by rewrite H, IH. Qed.

Lemma find_none {A} (f : A → bool) l : (∀ x, f x = false) → List.find f l = None.
Proof. intros H. induction l as [|x l IH]; [done|]. simpl. by rewrite H. Qed.

(** C34: percentiles are those of the observed values.  For every sequence of
    observations (up to the range of the counters) and every percentile, NaN
    and out-of-range arguments included, the histogram's counters add up:
    each bucket counts the values it contains, the overflow those above the
    last bound, and the sum wraps at 64 bits.  The percentile is exactly the
    bound of the bucket of the observation with the computed rank in sorted
    order, or the last bound when that observation overflowed or the rank
    exceeds the number of observations; it is absent only when nothing was
    observed. *)
Theorem percentile_correct (bs vs : list Z) (p : f64) :
  increasing bs → Z.of_nat (length vs) ≤ u64_max →
  let h := recorded bs vs in
  counted bs vs h
  ∧ percentile h p =
    if decide (vs = []) then None
    else match (let! x := ranked vs (rank_of (Z.of_nat (length vs)) p) in let! i := bucket bs x in bs !! i) with
         | Some b => Some b
         | None => last bs
         end.
Proof.
  intros Hinc Hlen h. pose proof (recorded_counted bs vs Hlen) as Hct. fold h in Hct. split; [done|].
  destruct Hct as [Hb Hl Hc _ Hn _]. unfold percentile. rewrite Hn, Hb. case_decide as Hvs; [by subst vs|].
  destruct (Z.eqb_spec (Z.of_nat (length vs)) 0); [by destruct vs|].
  rewrite (loop_finds vs) by (done || by apply counted_cumulates). rewrite fst_zip by lia.
  set (rank := rank_of _ p). assert (1 ≤ rank) as Hrank by (unfold rank, rank_of; lia).
  assert (∀ b, at_most b vs = at_most b (merge_sort Z.le vs)) as Hperm.
  { intros b. apply at_most_perm. symmetry. apply merge_sort_Permutation. }
  unfold ranked. destruct (merge_sort Z.le vs !! Z.to_nat (rank - 1)) as [x|] eqn:Hx.
  - assert (∀ b, (rank <=? at_most b vs) = (x <=? b)) as Heq.
    { intros b. rewrite Hperm. pose proof (sorted_at_most _ _ x b (StronglySorted_merge_sort Z.le vs) Hx) as Hs.
      destruct (Z.leb_spec x b); [apply Z.leb_le|apply Z.leb_gt]; lia. }
    by rewrite (find_ext _ _ _ Heq), find_position.
  - apply lookup_ge_None in Hx. rewrite merge_sort_Permutation in Hx.
    assert (∀ b, (rank <=? at_most b vs) = false) as Heq.
    { intros b. apply Z.leb_gt. pose proof (at_most_bound b vs). lia. }
    by rewrite (find_none _ _ Heq).
Qed.

Lemma percentile_correct_witness :
  let h := recorded METADATA_QUEUE_WAIT_BUCKETS_MS [75; 600; 9999] in
  counted METADATA_QUEUE_WAIT_BUCKETS_MS [75; 600; 9999] h ∧ percentile h (f64_of_Z 1) = Some 5000.
Proof.
  destruct (percentile_correct METADATA_QUEUE_WAIT_BUCKETS_MS [75; 600; 9999] (f64_of_Z 1)) as [Hc Hp].
  - repeat constructor.
  - vm_compute. discriminate.
  - split; [exact Hc|]. rewrite Hp. vm_compute. reflexivity.
Defined.

End Histogram.

(** ** The counters

    [DhtRuntimeStatsInner] holds one atomic per field.  The model keeps the
    scalar fields in a map from their names; a field that is absent is zero. *)

Module Counters.

Record DhtRuntimeStats := mkStats {
  values : gmap string Z;
  metadata_timeout_stages : list Z;
  metadata_connection_errors : list Z;
  queue_wait_ms : Histogram.Histogram;
  fetch_duration_ms : Histogram.Histogram;
  metadata_size_bytes : Histogram.Histogram;
}.

Definition load (s : DhtRuntimeStats) (field : string) : Z := default 0 (values s !! field).

Record DhtRuntimeLimits := mkLimits {
  metadata_queue : Z; node_pool : Z; node_pool_low_watermark : Z; find_node_in_flight : Z;
  initial_find_node_rate : Z; hash_ingress_queue : Z; crawl_priority_queue : Z; crawl_discovery_queue : Z;
}.

Definition default_values : DhtRuntimeStats :=
  mkStats ∅ (replicate 8 0) (replicate 9 0)
    (Histogram.new Histogram.METADATA_QUEUE_WAIT_BUCKETS_MS)
    (Histogram.new Histogram.METADATA_FETCH_BUCKETS_MS)
    (Histogram.new Histogram.METADATA_SIZE_BUCKETS_BYTES).

(** The fields [with_limits] sets, the last one an atomic. *)
Definition capacity_fields (l : DhtRuntimeLimits) : list (string * Z) :=
  [("metadata_queue_max", metadata_queue l); ("node_pool_capacity", node_pool l);
   ("node_pool_low_watermark", node_pool_low_watermark l);
   ("find_node_in_flight_max", find_node_in_flight l);
   ("hash_ingress_queue_capacity", hash_ingress_queue l);
   ("crawl_priority_queue_capacity", crawl_priority_queue l);
   ("crawl_discovery_queue_capacity", crawl_discovery_queue l)].

Definition with_limits (l : DhtRuntimeLimits) : DhtRuntimeStats :=
  let d := default_values in
  mkStats
    (<["find_node_effective_rate_per_sec" := initial_find_node_rate l]> (list_to_map (capacity_fields l)))
    (metadata_timeout_stages d) (metadata_connection_errors d) (queue_wait_ms d) (fetch_duration_ms d)
    (metadata_size_bytes d).

(** The methods whose body is one [fetch_add(1)], with the field they count
    in. *)
Definition hash_counters : list (string * string) :=
  [("hash_received", "hashes_received"); ("hash_ingress_dropped", "hash_ingress_dropped")].

Definition queue_counters : list (string * string) :=
  [("metadata_queue_deduplicated", "metadata_queue_deduplicated");
   ("metadata_queue_inserted", "metadata_queue_inserted");
   ("metadata_queue_evicted", "metadata_queue_evicted")].

Definition race_counters : list (string * string) :=
  [("metadata_race_started", "metadata_races_started");
   ("metadata_peer_candidate", "metadata_peer_candidates");
   ("metadata_live_peer_join", "metadata_live_peer_joins")].

Definition peer_counters : list (string * string) :=
  [("peer_lookup_requested", "peer_lookup_requested"); ("peer_lookup_started", "peer_lookup_started");
   ("peer_lookup_rate_limited", "peer_lookup_rate_limited"); ("peer_lookup_empty", "peer_lookup_empty");
   ("peer_lookup_query", "peer_lookup_queries"); ("peer_lookup_response", "peer_lookup_responses");
   ("peer_lookup_timeout", "peer_lookup_timeouts");
   ("peer_lookup_send_failed", "peer_lookup_send_failures");
   ("peer_lookup_peer_found", "peer_lookup_peers_found");
   ("peer_lookup_response_dropped", "peer_lookup_response_dropped");
   ("peer_lookup_output_dropped", "peer_lookup_output_dropped");
   ("metadata_peer_attempt", "metadata_peer_attempts");
   ("metadata_peer_succeeded", "metadata_peer_succeeded");
   ("metadata_peer_failed", "metadata_peer_failed"); ("metadata_peer_timeout", "metadata_peer_timeouts");
   ("metadata_connect_failed", "metadata_connect_failed");
   ("metadata_no_extension", "metadata_no_extension");
   ("metadata_peer_failure_cache_hit", "metadata_peer_failure_cache_hits")].

Definition crawl_counters : list (string * string) :=
  [("query_new", "queries_new"); ("query_revisit", "queries_revisit");
   ("query_bootstrap", "queries_bootstrap"); ("response", "responses");
   ("unmatched_response", "unmatched_responses"); ("timeout", "timeouts");
   ("send_failure", "send_failures"); ("crawl_event_dropped_response", "crawl_events_dropped_response");
   ("crawl_event_dropped_discovered", "crawl_events_dropped_discovered"); ("udp_received", "udp_received")].

Definition response_counters : list (string * string) :=
  [("response_normal", "response_normal"); ("response_send_failed", "response_send_failed");
   ("announce_accepted", "announce_accepted"); ("announce_invalid_token", "announce_invalid_token");
   ("announce_filtered", "announce_filtered"); ("node_admitted", "node_admitted");
   ("node_replaced", "node_replaced"); ("node_dropped_duplicate", "node_dropped_duplicate");
   ("node_dropped_rate_limited", "node_dropped_rate_limited");
   ("node_dropped_invalid", "node_dropped_invalid")].

Definition outcome_counters : list (string * string) :=
  [("metadata_failure_timeout", "metadata_failure_timeout");
   ("metadata_failure_connect", "metadata_failure_connect")].

Definition failure_counters : list (string * string) :=
  [("metadata_failure_no_extension", "metadata_failure_no_extension");
   ("metadata_failure_send", "metadata_failure_send");
   ("metadata_failure_size_limit", "metadata_failure_size_limit");
   ("metadata_failure_sha1", "metadata_failure_sha1");
   ("metadata_failure_parse", "metadata_failure_parse");
   ("metadata_failure_other", "metadata_failure_other");
   ("peer_cache_hit_timeout", "peer_cache_timeout_hits");
   ("peer_cache_hit_connect", "peer_cache_connect_hits");
   ("metadata_failure_reject", "metadata_failure_reject");
   ("metadata_failure_tcp_connect", "metadata_failure_tcp_connect");
   ("metadata_failure_base_handshake", "metadata_failure_base_handshake");
   ("peer_cache_endpoint_hits", "peer_cache_endpoint_hits");
   ("peer_cache_metadata_hits", "peer_cache_metadata_hits")].

Definition backoff_counters : list (string * string) :=
  [("responsive_probe_backoff", "responsive_probe_backoffs")].

Definition udp_counters : list (string * string) :=
  [("udp_queue_full", "udp_queue_full"); ("udp_invalid", "udp_invalid");
   ("udp_response_rate_limited", "udp_responses_rate_limited");
   ("udp_response_priority_reserved", "udp_responses_priority_reserved")].

Definition counter_methods : list (string * string) :=
  hash_counters ++ queue_counters ++ race_counters ++ peer_counters ++ crawl_counters
  ++ response_counters ++ outcome_counters ++ failure_counters ++ backoff_counters ++ udp_counters.

(** The methods whose body adds their argument. *)
Definition adding_methods : list (string * string) :=
  [("metadata_queue_stale", "metadata_queue_stale"); ("metadata_peer_canceled", "metadata_peer_canceled");
   ("udp_received_bytes", "udp_rx_bytes"); ("metadata_bytes_downloaded", "metadata_bytes_downloaded")].

(** The methods whose body stores their argument. *)
Definition depth_gauges : list (string * string) :=
  [("set_hash_ingress_queue_depth", "hash_ingress_queue_depth");
   ("set_crawl_priority_queue_depth", "crawl_priority_queue_depth");
   ("set_crawl_discovery_queue_depth", "crawl_discovery_queue_depth")].

Definition size_gauges : list (string * string) :=
  [("set_metadata_peer_failure_cache_entries", "metadata_peer_failure_cache_entries");
   ("set_node_pool_size", "node_pool_size"); ("set_find_node_in_flight", "find_node_in_flight");
   ("set_find_node_effective_rate", "find_node_effective_rate_per_sec")].

Definition expiry_gauges : list (string * string) :=
  [("set_crawl_recent_expiry_entries", "crawl_recent_expiry_entries")].

Definition gauge_methods : list (string * string) :=
  depth_gauges ++ size_gauges ++ expiry_gauges.

(** A call of one of the methods: those without argument or with one numeric
    argument as the fetcher logs them, and the others. *)
Inductive call :=
  | Recorded (s : stat)
  | set_metadata_queue (depth in_flight : Z)
  | udp_sent (bytes : Z)
  | inbound_query (query : string)
  | set_crawl_recent_probe_entries (entries capacity : Z)
  | record_crawl_recent_expiry_batch (removed elapsed_micros calls : Z).

#[export] Instance stat_eq_dec : EqDecision stat.
Proof. solve_decision. Defined.
#[export] Instance call_eq_dec : EqDecision call.
Proof. solve_decision. Defined.

(** What a call does to a scalar field. *)
Inductive op := Add (n : Z) | Store (n : Z).

Definition inbound_counter (query : string) : string :=
  if bool_decide (query = "ping") then "inbound_ping"
  else if bool_decide (query = "find_node") then "inbound_find_node"
  else if bool_decide (query = "get_peers") then "inbound_get_peers"
  else if bool_decide (query = "announce_peer") then "inbound_announce_peer"
  else "inbound_other".

Definition field_of (table : list (string * string)) (m : string) : list string :=
  match (list_to_map table : gmap string string) !! m with Some f => [f] | None => [] end.

Definition effects (c : call) : list (string * op) :=
  match c with
  | Recorded (Stat m) => (λ f, (f, Add 1)) <$> field_of counter_methods m
  | Recorded (StatN m n) =>
      ((λ f, (f, Add n)) <$> field_of adding_methods m) ++ ((λ f, (f, Store n)) <$> field_of gauge_methods m)
  | set_metadata_queue depth in_flight =>
      [("metadata_queue_depth", Store depth); ("metadata_in_flight", Store in_flight)]
  | udp_sent bytes => [("udp_tx_packets", Add 1); ("udp_tx_bytes", Add bytes)]
  | inbound_query query => [(inbound_counter query, Add 1)]
  | set_crawl_recent_probe_entries entries capacity =>
      [("crawl_recent_probe_entries", Store entries); ("crawl_recent_probe_capacity", Store capacity)]
  | record_crawl_recent_expiry_batch removed elapsed_micros calls =>
      [("crawl_recent_expiry_removed", Add removed); ("crawl_recent_expiry_micros", Add elapsed_micros);
       ("crawl_recent_expiry_calls", Add calls)]
  end.

Definition op_apply (v : Z) (o : op) : Z :=
  match o with Add n => u64_wrapping_add v n | Store n => n end.

Definition touch (vs : gmap string Z) (e : string * op) : gmap string Z :=
  <[e.1 := op_apply (default 0 (vs !! e.1)) e.2]> vs.

(** [array[discriminant as usize].fetch_add(1)]; a discriminant is a valid
    index. *)
Definition bump (l : list Z) (i : Z) : list Z :=
  if 0 <=? i then alter (λ c, u64_wrapping_add c 1) (Z.to_nat i) l else l.

(** [matches!(stage, TcpConnect | BaseHandshake)] also counts the aggregate. *)
Definition metadata_timeout_stage (stages : list Z) (stage : Z) : list Z :=
  let stages := bump stages stage in
  if (stage =? stage_index TcpConnect) || (stage =? stage_index BaseHandshake)
  then bump stages (stage_index ConnectHandshake) else stages.

Definition apply (s : DhtRuntimeStats) (c : call) : DhtRuntimeStats :=
  let vs := fold_left touch (effects c) (values s) in
  let on (m : string) {A} (f : A → Z → A) (a : A) : A :=
    match c with Recorded (StatN m' n) => if bool_decide (m' = m) then f a n else a | _ => a end in
  mkStats vs
    (on "metadata_timeout_stage" metadata_timeout_stage (metadata_timeout_stages s))
    (on "metadata_connection_error" bump (metadata_connection_errors s))
    (on "observe_metadata_queue_wait" Histogram.record (queue_wait_ms s))
    (on "observe_metadata_fetch_duration" Histogram.record (fetch_duration_ms s))
    (on "observe_metadata_size" Histogram.record (metadata_size_bytes s)).

Definition run (s : DhtRuntimeStats) (cs : list call) : DhtRuntimeStats := fold_left apply cs s.

(** [DhtRuntimeSnapshot]: every field has the name of the field it loads. *)
Definition snapshot_fields : list string :=
  ["hashes_received"; "hash_ingress_dropped"; "hash_ingress_queue_depth"; "hash_ingress_queue_capacity";
   "crawl_priority_queue_depth"; "crawl_priority_queue_capacity"; "crawl_discovery_queue_depth";
   "crawl_discovery_queue_capacity"; "metadata_queue_depth"; "metadata_queue_max"; "metadata_in_flight";
   "metadata_queue_inserted"; "metadata_queue_deduplicated"; "metadata_queue_evicted";
   "metadata_queue_stale"; "metadata_races_started"; "metadata_peer_candidates";
   "metadata_live_peer_joins"; "metadata_peer_canceled"; "peer_lookup_requested"; "peer_lookup_started";
   "peer_lookup_rate_limited"; "peer_lookup_empty"; "peer_lookup_queries"; "peer_lookup_responses";
   "peer_lookup_timeouts"; "peer_lookup_send_failures"; "peer_lookup_peers_found";
   "peer_lookup_response_dropped"; "peer_lookup_output_dropped"; "metadata_peer_attempts";
   "metadata_peer_succeeded"; "metadata_peer_failed"; "metadata_peer_timeouts"; "metadata_connect_failed";
   "metadata_no_extension"; "metadata_peer_failure_cache_hits"; "metadata_peer_failure_cache_entries";
   "node_pool_size"; "node_pool_capacity"; "node_pool_low_watermark"; "find_node_in_flight";
   "find_node_in_flight_max"; "find_node_effective_rate_per_sec"; "queries_new"; "queries_revisit";
   "queries_bootstrap"; "responses"; "unmatched_responses"; "timeouts"; "send_failures";
   "crawl_events_dropped_response"; "crawl_events_dropped_discovered"; "udp_received"; "udp_queue_full";
   "udp_invalid"; "udp_responses_rate_limited"; "udp_responses_priority_reserved"].

Definition snapshot (s : DhtRuntimeStats) : list (string * Z) := (λ f, (f, load s f)) <$> snapshot_fields.

(** [DhtObservabilitySnapshot]: its scalar fields with the ones they load. *)
Definition observability_fields : list (string * string) :=
  [("udp_rx_packets", "udp_received"); ("udp_rx_bytes", "udp_rx_bytes");
   ("udp_tx_packets", "udp_tx_packets"); ("udp_tx_bytes", "udp_tx_bytes");
   ("inbound_ping", "inbound_ping"); ("inbound_find_node", "inbound_find_node");
   ("inbound_get_peers", "inbound_get_peers"); ("inbound_announce_peer", "inbound_announce_peer");
   ("inbound_other", "inbound_other"); ("response_normal", "response_normal");
   ("response_fallback", "udp_responses_priority_reserved");
   ("response_rate_limited", "udp_responses_rate_limited");
   ("response_send_failed", "response_send_failed"); ("announce_accepted", "announce_accepted");
   ("announce_invalid_token", "announce_invalid_token"); ("announce_filtered", "announce_filtered");
   ("node_admitted", "node_admitted"); ("node_replaced", "node_replaced");
   ("node_dropped_duplicate", "node_dropped_duplicate");
   ("node_dropped_rate_limited", "node_dropped_rate_limited");
   ("node_dropped_invalid", "node_dropped_invalid");
   ("metadata_bytes_downloaded", "metadata_bytes_downloaded");
   ("metadata_failure_timeout", "metadata_failure_timeout");
   ("metadata_failure_connect", "metadata_failure_connect");
   ("metadata_failure_no_extension", "metadata_failure_no_extension");
   ("metadata_failure_send", "metadata_failure_send");
   ("metadata_failure_size_limit", "metadata_failure_size_limit");
   ("metadata_failure_sha1", "metadata_failure_sha1");
   ("metadata_failure_parse", "metadata_failure_parse");
   ("metadata_failure_other", "metadata_failure_other");
   ("peer_cache_timeout_hits", "peer_cache_timeout_hits");
   ("peer_cache_connect_hits", "peer_cache_connect_hits");
   ("metadata_failure_reject", "metadata_failure_reject");
   ("metadata_failure_tcp_connect", "metadata_failure_tcp_connect");
   ("metadata_failure_base_handshake", "metadata_failure_base_handshake");
   ("peer_cache_endpoint_hits", "peer_cache_endpoint_hits");
   ("peer_cache_metadata_hits", "peer_cache_metadata_hits");
   ("crawl_recent_probe_entries", "crawl_recent_probe_entries");
   ("crawl_recent_probe_capacity", "crawl_recent_probe_capacity");
   ("crawl_recent_expiry_entries", "crawl_recent_expiry_entries");
   ("crawl_recent_expiry_removed", "crawl_recent_expiry_removed");
   ("crawl_recent_expiry_micros", "crawl_recent_expiry_micros");
   ("crawl_recent_expiry_calls", "crawl_recent_expiry_calls");
   ("responsive_probe_backoffs", "responsive_probe_backoffs")].

Definition observability_snapshot (s : DhtRuntimeStats) : list (string * Z) :=
  (λ x, (x.1, load s x.2)) <$> observability_fields.

(** The elements the nested snapshots load. *)
Definition timeout_stage_fields : list (string * nat) :=
  [("connect_handshake", 0%nat); ("tcp_connect", 6%nat); ("base_handshake", 7%nat);
   ("extension_handshake_send", 1%nat); ("extension_handshake_receive", 2%nat);
   ("piece_request_send", 3%nat); ("piece_receive", 4%nat); ("validation", 5%nat)].

Definition connection_error_fields : list (string * nat) :=
  [("refused", 0%nat); ("reset", 1%nat); ("aborted", 2%nat); ("closed", 3%nat); ("timeout", 4%nat);
   ("invalid_handshake", 5%nat); ("info_hash_mismatch", 6%nat); ("io_other", 7%nat); ("other", 8%nat)].

Definition metadata_timeout_stages_snapshot (s : DhtRuntimeStats) : list (string * Z) :=
  (λ x, (x.1, metadata_timeout_stages s !!! x.2)) <$> timeout_stage_fields.
Definition metadata_connection_errors_snapshot (s : DhtRuntimeStats) : list (string * Z) :=
  (λ x, (x.1, metadata_connection_errors s !!! x.2)) <$> connection_error_fields.

(** ** What the counters show *)

(** The operations of a list of calls on one field, in order. *)
Definition ops_on (f : string) (cs : list call) : list op :=
  snd <$> filter (λ e, e.1 = f) (cs ≫= effects).

Lemma touch_all f es vs :
  default 0 (fold_left touch es vs !! f)
  = fold_left op_apply (snd <$> filter (λ e : string * op, e.1 = f) es) (default 0 (vs !! f)).
Proof.
  revert vs; induction es as [|[g o] es IH]; intros vs; [done|]. cbn [fold_left]. rewrite IH, filter_cons. unfold touch.
  cbn [fst snd]. case_decide as E; simpl in E; [subst g|].
  - by rewrite lookup_insert_eq.
  - by rewrite lookup_insert_ne.
Qed.

Lemma load_run s cs f : load (run s cs) f = fold_left op_apply (ops_on f cs) (load s f).
Proof.
  revert s; induction cs as [|c cs IH]; intros s; [done|]. unfold run in *. cbn [fold_left]. rewrite IH. unfold ops_on.
  rewrite bind_cons, filter_app, fmap_app, fold_left_app. f_equal. unfold load. apply touch_all.
Qed.

(** Every scalar field that some call writes. *)
Definition table_outputs : list string := counter_methods.*2 ++ adding_methods.*2 ++ gauge_methods.*2.
Definition direct_outputs : list string :=
  ["metadata_queue_depth"; "metadata_in_flight"; "udp_tx_packets"; "udp_tx_bytes"; "inbound_ping";
   "inbound_find_node"; "inbound_get_peers"; "inbound_announce_peer"; "inbound_other";
   "crawl_recent_probe_entries"; "crawl_recent_probe_capacity"; "crawl_recent_expiry_removed";
   "crawl_recent_expiry_micros"; "crawl_recent_expiry_calls"].
Definition written_fields : list string := table_outputs ++ direct_outputs.

Lemma written_NoDup : NoDup written_fields.
Proof. apply (bool_decide_unpack _). vm_compute. exact I. Qed.

Lemma counter_methods_NoDup : NoDup counter_methods.*1.
Proof. apply (bool_decide_unpack _). vm_compute. exact I. Qed.
Lemma adding_methods_NoDup : NoDup adding_methods.*1.
Proof. apply (bool_decide_unpack _). vm_compute. exact I. Qed.
Lemma gauge_methods_NoDup : NoDup gauge_methods.*1.
Proof. apply (bool_decide_unpack _). vm_compute. exact I. Qed.

(** What one call does to one field. *)
Definition writes (f : string) (c : call) : list op := snd <$> filter (λ e, e.1 = f) (effects c).

Lemma ops_on_writes f cs : ops_on f cs = cs ≫= writes f.
Proof.
  unfold ops_on. induction cs as [|c cs IH]; [done|]. rewrite !bind_cons, filter_app, fmap_app. by rewrite IH.
Qed.

Lemma field_of_hit table m f m' :
  NoDup table.*1 → NoDup table.*2 → (m, f) ∈ table →
  filter (λ g, g = f) (field_of table m') = if decide (m' = m) then [f] else [].
Proof.
  intros H1 H2 Hin. unfold field_of. case_decide as E.
  - subst. rewrite (elem_of_list_to_map_1 _ m f) by done. by rewrite filter_cons, decide_True.
  - destruct (list_to_map table !! m') as [g|] eqn:Hg; [|done]. rewrite filter_cons, decide_False; [done|].
    intros ->. apply elem_of_list_to_map_2 in Hg. apply E. apply list_elem_of_lookup in Hin as [i Hi], Hg as [j Hj].
    assert (i = j) as ->; [|naive_solver].
    eapply NoDup_lookup; [apply H2| |]; rewrite list_lookup_fmap; [by rewrite Hi|by rewrite Hj].
Qed.

Lemma field_of_miss table f m' : f ∉ table.*2 → filter (λ g, g = f) (field_of table m') = [].
Proof.
  intros Hf. unfold field_of. destruct (list_to_map table !! m') as [g|] eqn:Hg; [|done].
  rewrite filter_cons, decide_False; [done|]. intros ->. apply Hf, list_elem_of_fmap.
  apply elem_of_list_to_map_2 in Hg. by exists (m', f).
Qed.

Lemma filter_tagged {A} f (o : A) (l : list string) :
  snd <$> filter (λ e, e.1 = f) ((λ g, (g, o)) <$> l) = (λ _, o) <$> filter (λ g, g = f) l.
Proof. induction l as [|g l IH]; [done|]. csimpl. rewrite !filter_cons. simpl. by case_decide; csimpl; rewrite ?IH. Qed.

(** The calls outside the tables touch no other field. *)
Lemma writes_direct f c : f ∉ direct_outputs → match c with Recorded _ => True | _ => writes f c = [] end.
Proof.
  intros Hd. destruct c as [s|d i|b|q|e cap|r m n]; [done|..]; unfold writes; cbn [effects];
    rewrite ?filter_cons, filter_nil; cbn [fst];
    repeat (rewrite decide_False by (intros <-; apply Hd; rewrite !list_elem_of_In; simpl; tauto)); try done.
  rewrite decide_False; [done|]. intros <-. apply Hd. unfold inbound_counter. rewrite !list_elem_of_In.
  repeat case_bool_decide; simpl; tauto.
Qed.

Lemma writes_unknown f c : f ∉ written_fields → writes f c = [].
Proof.
  unfold written_fields, table_outputs. rewrite !not_elem_of_app. intros ((Hc & Ha & Hg) & Hd).
  pose proof (writes_direct f c Hd) as Hw. destruct c as [[m|m n]|?|?|?|?|?]; try exact Hw; unfold writes; cbn [effects].
  - by rewrite filter_tagged, field_of_miss.
  - by rewrite filter_app, fmap_app, !filter_tagged, !field_of_miss.
Qed.

Lemma NoDup_three {A} (x y z : list A) a :
  NoDup (x ++ y ++ z) →
  (NoDup x ∧ NoDup y ∧ NoDup z)
  ∧ (a ∈ x → (a ∉ y) ∧ (a ∉ z)) ∧ (a ∈ y → (a ∉ x) ∧ (a ∉ z)) ∧ (a ∈ z → (a ∉ x) ∧ (a ∉ y)).
Proof.
  rewrite !NoDup_app. intros (Hx & H1 & Hy & H2 & Hz). specialize (H1 a). specialize (H2 a).
  rewrite elem_of_app in H1. tauto.
Qed.

Lemma table_NoDup f : NoDup table_outputs ∧ (f ∈ table_outputs → f ∉ direct_outputs).
Proof.
  pose proof written_NoDup as Hnd. unfold written_fields in Hnd. apply NoDup_app in Hnd as (? & H & _).
  split; [done|]. apply H.
Qed.

Lemma elem_of_outputs (m f : string) (table : list (string * string)) : (m, f) ∈ table → f ∈ table.*2.
Proof. intros H. apply list_elem_of_fmap. by exists (m, f). Qed.

Lemma writes_counter m f c :
  (m, f) ∈ counter_methods → writes f c = if decide (c = Recorded (Stat m)) then [Add 1] else [].
Proof.
  intros Hin. pose proof (elem_of_outputs _ _ _ Hin) as Hf. destruct (table_NoDup f) as [Hnd Hdir].
  destruct (NoDup_three _ _ _ f Hnd) as [(Hc & Hadd & Hga) (Hd & _)]. destruct (Hd Hf) as [Ha Hg].
  assert (f ∈ table_outputs) as Ht by (unfold table_outputs; rewrite !elem_of_app; tauto).
  pose proof (writes_direct f c (Hdir Ht)) as Hw.
  destruct c as [[m'|m' n]|?|?|?|?|?]; try (by rewrite Hw, decide_False).
  - unfold writes. cbn [effects]. rewrite filter_tagged, (field_of_hit _ m) by (done || apply counter_methods_NoDup).
    case_decide as E; [by rewrite E, decide_True|]. by rewrite decide_False by naive_solver.
  - unfold writes. cbn [effects]. rewrite filter_app, fmap_app, !filter_tagged, !field_of_miss by done.
    by rewrite decide_False.
Qed.

(** The argument of a call of the method [m]. *)
Definition argument (m : string) (c : call) : list Z :=
  match c with Recorded (StatN m' n) => if bool_decide (m' = m) then [n] else [] | _ => [] end.

Lemma writes_adding m f c : (m, f) ∈ adding_methods → writes f c = Add <$> argument m c.
Proof.
  intros Hin. pose proof (elem_of_outputs _ _ _ Hin) as Hf. destruct (table_NoDup f) as [Hnd Hdir].
  destruct (NoDup_three _ _ _ f Hnd) as [(Hc & Hadd & Hga) (_ & Hd & _)]. destruct (Hd Hf) as [Ha Hg].
  assert (f ∈ table_outputs) as Ht by (unfold table_outputs; rewrite !elem_of_app; tauto).
  pose proof (writes_direct f c (Hdir Ht)) as Hw. destruct c as [[m'|m' n]|?|?|?|?|?]; try exact Hw.
  - unfold writes. cbn [effects]. by rewrite filter_tagged, field_of_miss.
  - unfold writes. cbn [effects argument]. rewrite filter_app, fmap_app, !filter_tagged.
    rewrite (field_of_hit _ m), field_of_miss by (done || apply adding_methods_NoDup).
    case_decide; [by rewrite bool_decide_true|by rewrite bool_decide_false].
Qed.

Lemma writes_gauge m f c : (m, f) ∈ gauge_methods → writes f c = Store <$> argument m c.
Proof.
  intros Hin. pose proof (elem_of_outputs _ _ _ Hin) as Hf. destruct (table_NoDup f) as [Hnd Hdir].
  destruct (NoDup_three _ _ _ f Hnd) as [(Hc & Hadd & Hga) (_ & _ & Hd)]. destruct (Hd Hf) as [Ha Hg].
  assert (f ∈ table_outputs) as Ht by (unfold table_outputs; rewrite !elem_of_app; tauto).
  pose proof (writes_direct f c (Hdir Ht)) as Hw. destruct c as [[m'|m' n]|?|?|?|?|?]; try exact Hw.
  - unfold writes. cbn [effects]. by rewrite filter_tagged, field_of_miss.
  - unfold writes. cbn [effects argument]. rewrite filter_app, fmap_app, !filter_tagged.
    rewrite field_of_miss, (field_of_hit _ m) by (done || apply gauge_methods_NoDup).
    case_decide; [by rewrite bool_decide_true|by rewrite bool_decide_false].
Qed.

Lemma add_all ns v : 0 ≤ v ≤ u64_max → fold_left op_apply (Add <$> ns) v = (v + foldr Z.add 0 ns) `mod` 2 ^ 64.
Proof.
  revert v; induction ns as [|n ns IH]; intros v Hv.
  { simpl. rewrite Z.add_0_r, Z.mod_small; [done|]. change (2 ^ 64) with (u64_max + 1). lia. }
  csimpl. rewrite IH; [apply wrap_add_mod|]. unfold u64_wrapping_add. change (u64_max + 1) with (2 ^ 64).
  pose proof (Z.mod_pos_bound (v + n) (2 ^ 64) ltac:(done)). change (2 ^ 64) with (u64_max + 1) in *. lia.
Qed.

Lemma store_all ns v : fold_left op_apply (Store <$> ns) v = default v (last ns).
Proof.
  revert v; induction ns as [|n ns IH]; intros v; [done|]. csimpl. rewrite IH. destruct ns as [|k ns]; [done|].
  change (last (n :: k :: ns)) with (last (k :: ns)). destruct (last (k :: ns)) eqn:E; [done|].
  by apply last_None in E.
Qed.

(** How often a method without argument was called, and the arguments of the
    calls of the others, in order. *)
Definition times (m : string) (cs : list call) : Z := Z.of_nat (length (filter (λ c, c = Recorded (Stat m)) cs)).
Definition arguments (m : string) (cs : list call) : list Z := cs ≫= argument m.

Lemma counted_ops m f cs :
  (m, f) ∈ counter_methods → ops_on f cs = Add <$> replicate (Z.to_nat (times m cs)) 1.
Proof.
  intros Hin. rewrite ops_on_writes. unfold times. rewrite Nat2Z.id.
  induction cs as [|c cs IH]; [done|]. rewrite bind_cons, IH, filter_cons, (writes_counter m) by done. by case_decide.
Qed.

Lemma argument_ops (o : Z → op) m f cs :
  (∀ c, writes f c = o <$> argument m c) → ops_on f cs = o <$> arguments m cs.
Proof.
  intros Hw. rewrite ops_on_writes. unfold arguments. induction cs as [|c cs IH]; [done|].
  by rewrite !bind_cons, fmap_app, Hw, IH.
Qed.

Lemma foldr_ones n : foldr Z.add 0 (replicate n 1) = Z.of_nat n.
Proof. induction n as [|n IH]; [done|]. cbn [replicate foldr]. lia. Qed.

(** Only the limits and the rate start from something else than zero. *)
Lemma load_start l f : f ∈ counter_methods.*2 ++ adding_methods.*2 → load (with_limits l) f = 0.
Proof.
  intros Hf. unfold load, with_limits. cbn [values]. assert (f ∉ "find_node_effective_rate_per_sec" :: (capacity_fields l).*1) as Hn.
  { assert (Forall (λ g, g ∉ "find_node_effective_rate_per_sec" :: (capacity_fields (mkLimits 0 0 0 0 0 0 0 0)).*1)
      (counter_methods.*2 ++ adding_methods.*2)) as Hall by (apply (bool_decide_unpack _); vm_compute; exact I).
    rewrite Forall_forall in Hall. by apply Hall. }
  rewrite not_elem_of_cons in Hn. destruct Hn as [Hne Hn].
  rewrite lookup_insert_ne by done. by rewrite not_elem_of_list_to_map_1.
Qed.

Lemma counter_value l cs m f : (m, f) ∈ counter_methods → load (run (with_limits l) cs) f = times m cs `mod` 2 ^ 64.
Proof.
  intros Hin. rewrite load_run, (counted_ops m), load_start, add_all, foldr_ones; try done.
  - rewrite Z2Nat.id by (unfold times; lia). done.
  - apply elem_of_app. left. by eapply elem_of_outputs.
Qed.

(** A field is shown with a value by one of the two snapshots. *)
Definition shown (s : DhtRuntimeStats) (f : string) (v : Z) : Prop :=
  (f, v) ∈ snapshot s ∨ ∃ name, (name, f) ∈ observability_fields ∧ (name, v) ∈ observability_snapshot s.

Lemma shown_load s f : f ∈ snapshot_fields ++ observability_fields.*2 → shown s f (load s f).
Proof.
  intros [Hf|Hf]%elem_of_app; [left|right].
  - apply list_elem_of_fmap. by exists f.
  - apply list_elem_of_fmap in Hf as ([name g] & -> & Hin). exists name. split; [done|].
    apply list_elem_of_fmap. by exists (name, g).
Qed.

Lemma written_shown : Forall (λ f, f ∈ snapshot_fields ++ observability_fields.*2) written_fields.
Proof. apply (bool_decide_unpack _). vm_compute. exact I. Qed.

Lemma table_shown s f : f ∈ table_outputs → shown s f (load s f).
Proof.
  intros Hf. apply shown_load. pose proof written_shown as H. rewrite Forall_forall in H. apply H.
  unfold written_fields. apply elem_of_app. by left.
Qed.

Lemma elem_of_names l f v : (f, v) ∈ capacity_fields l → f ∈ (capacity_fields (mkLimits 0 0 0 0 0 0 0 0)).*1.
Proof.
  intros Hin. change (capacity_fields (mkLimits 0 0 0 0 0 0 0 0)).*1 with (capacity_fields l).*1.
  apply list_elem_of_fmap. by exists (f, v).
Qed.

Lemma capacities_fixed l cs f v : (f, v) ∈ capacity_fields l → load (run (with_limits l) cs) f = v.
Proof.
  intros Hin. assert (f ∉ "find_node_effective_rate_per_sec" :: written_fields) as Hn.
  { assert (Forall (λ g, g ∉ "find_node_effective_rate_per_sec" :: written_fields)
      (capacity_fields (mkLimits 0 0 0 0 0 0 0 0)).*1) as Hall by (apply (bool_decide_unpack _); vm_compute; exact I).
    rewrite Forall_forall in Hall. apply Hall. by eapply elem_of_names. }
  rewrite not_elem_of_cons in Hn. destruct Hn as [Hne Hn].
  rewrite load_run. assert (ops_on f cs = []) as ->.
  { rewrite ops_on_writes. induction cs as [|c cs IH]; [done|]. rewrite bind_cons, IH, writes_unknown; done. }
  unfold load, with_limits. cbn [fold_left values]. rewrite lookup_insert_ne by done.
  rewrite (elem_of_list_to_map_1 _ f v); [done| |done]. apply (bool_decide_unpack _). vm_compute. exact I.
Qed.

(** The snapshots report exactly what happened.  After any sequence of
    calls by any of the tasks, every counting method's number of calls,
    modulo 2^64, is shown by one of the two snapshots in the method's own
    field, which no other method changes; likewise the sum of the arguments
    of every adding method and the last argument of every gauge (its starting
    value before the first call).  The capacities shown are the configured
    limits throughout. *)
Theorem snapshots_exact (l : DhtRuntimeLimits) (cs : list call) :
  let s := run (with_limits l) cs in
  (∀ m f, (m, f) ∈ counter_methods → shown s f (times m cs `mod` 2 ^ 64))
  ∧ (∀ m f, (m, f) ∈ adding_methods → shown s f (foldr Z.add 0 (arguments m cs) `mod` 2 ^ 64))
  ∧ (∀ m f, (m, f) ∈ gauge_methods → shown s f (default (load (with_limits l) f) (last (arguments m cs))))
  ∧ (∀ f v, (f, v) ∈ capacity_fields l → (f, v) ∈ snapshot s).
Proof.
  intros s. split_and!.
  - intros m f Hin. rewrite <-(counter_value l cs m f Hin). apply table_shown, elem_of_app. left. by eapply elem_of_outputs.
  - intros m f Hin. pose proof (elem_of_outputs _ _ _ Hin) as Hf.
    assert (load s f = foldr Z.add 0 (arguments m cs) `mod` 2 ^ 64) as <-.
    { unfold s. rewrite load_run, (argument_ops Add m) by (intros c; by apply writes_adding).
      rewrite load_start, add_all; [done|done|]. apply elem_of_app. by right. }
    apply table_shown. unfold table_outputs. rewrite !elem_of_app. tauto.
  - intros m f Hin. pose proof (elem_of_outputs _ _ _ Hin) as Hf.
    assert (load s f = default (load (with_limits l) f) (last (arguments m cs))) as <-.
    { unfold s. rewrite load_run, (argument_ops Store m), store_all; [done|]. intros c. by apply writes_gauge. }
    apply table_shown. unfold table_outputs. rewrite !elem_of_app. tauto.
  - intros f v Hin. rewrite <-(capacities_fixed l cs f v Hin). apply list_elem_of_fmap. exists f. split; [done|].
    assert (Forall (λ g, g ∈ snapshot_fields) (capacity_fields (mkLimits 0 0 0 0 0 0 0 0)).*1) as Hall
      by (apply (bool_decide_unpack _); vm_compute; exact I).
    rewrite Forall_forall in Hall. apply Hall. by eapply (elem_of_names l).
Qed.

End Counters.

(** ** Yield counters

    The fixed counters and gauges of [YieldRuntimeStats], addressed by name.
    An unknown name trips a debug assertion; without debug assertions it is
    ignored. *)

Module Yield.

Definition counter_names : list string :=
  ["discovery_get_peers_observed"; "discovery_get_peers_rate_limited"; "discovery_get_peers_enqueued";
   "discovery_sample_queries"; "discovery_sample_responses"; "discovery_sample_timeouts";
   "discovery_sample_send_failed"; "discovery_sample_unsupported"; "discovery_sample_invalid";
   "discovery_sample_unmatched"; "discovery_sample_no_new"; "discovery_sample_hashes_enqueued";
   "discovery_hash_duplicate"; "discovery_hash_rate_limited"; "discovery_hash_queue_full";
   "discovery_input_dropped"; "discovery_node_capacity_dropped"; "discovery_sample_cooldown_full";
   "metadata_source_announce_started"; "metadata_source_announce_succeeded";
   "metadata_source_announce_failed"; "metadata_source_get_peers_started";
   "metadata_source_get_peers_succeeded"; "metadata_source_get_peers_failed";
   "metadata_source_sample_started"; "metadata_source_sample_succeeded"; "metadata_source_sample_failed";
   "metadata_retry_scheduled"; "metadata_retry_dispatched"; "metadata_retry_exhausted";
   "metadata_retry_evicted"; "metadata_retry_deferred"; "metadata_retry_new_peer";
   "metadata_retry_history_full"; "metadata_hash_only_started"; "lookup_finished_deadline";
   "lookup_finished_budget"; "lookup_finished_exhausted"; "lookup_finished_peers";
   "lookup_finished_canceled"; "lookup_source_seed_queries"; "lookup_request_queue_full"].

Definition gauge_names : list string :=
  ["metadata_retry_waiting"; "metadata_retry_history"; "discovery_candidate_nodes"; "discovery_cooldown_nodes";
   "discovery_samples_in_flight"].

(** The counters and the gauges; a field that is absent is zero. *)
Record YieldRuntimeStats := mkYield { counters : gmap string Z; gauges : gmap string Z }.

Definition yield_new : YieldRuntimeStats := mkYield ∅ ∅.

Section debug.
Context (debug_assertions : bool).

Definition inc (s : YieldRuntimeStats) (name : string) : option YieldRuntimeStats :=
  if bool_decide (name ∈ counter_names)
  then Some (mkYield (<[name := u64_wrapping_add (default 0 (counters s !! name)) 1]> (counters s)) (gauges s))
  else if debug_assertions then None else Some s.

Definition set (s : YieldRuntimeStats) (name : string) (value : Z) : option YieldRuntimeStats :=
  if bool_decide (name ∈ gauge_names)
  then Some (mkYield (counters s) (<[name := value]> (gauges s)))
  else if debug_assertions then None else Some s.

(** [BTreeMap]s from the names. *)
Definition snapshot (s : YieldRuntimeStats) : gmap string Z :=
  list_to_map ((λ n, (n, default 0 (counters s !! n))) <$> counter_names).
Definition gauges_snapshot (s : YieldRuntimeStats) : gmap string Z :=
  list_to_map ((λ n, (n, default 0 (gauges s !! n))) <$> gauge_names).

Fixpoint inc_all (s : YieldRuntimeStats) (names : list string) : option YieldRuntimeStats :=
  match names with [] => Some s | n :: names => let! s := inc s n in inc_all s names end.

Lemma inc_all_counts names s s' n :
  inc_all s names = Some s' → n ∈ counter_names → 0 ≤ default 0 (counters s !! n) ≤ u64_max →
  default 0 (counters s' !! n)
  = (default 0 (counters s !! n) + Z.of_nat (length (filter (λ m, m = n) names))) `mod` 2 ^ 64.
Proof.
  intros H Hn. revert s H; induction names as [|m names IH]; intros s; cbn [inc_all]; unfold mbind, option_bind.
  { intros [= <-] Hb. cbn. rewrite Z.add_0_r, Z.mod_small; [done|]. change (2 ^ 64) with (u64_max + 1). lia. }
  unfold inc. case_bool_decide as Hm.
  - intros H Hb. rewrite filter_cons. case_decide as E.
    + subst m. rewrite (IH _ H); cbn [counters]; rewrite lookup_insert_eq; cbn [default length Datatypes.id].
      * rewrite wrap_add_mod. f_equal. lia.
      * pose proof (Z.mod_pos_bound (default 0 (counters s !! n) + 1) (u64_max + 1) ltac:(done)).
        unfold u64_wrapping_add. lia.
    + rewrite (IH _ H); cbn [counters]; by rewrite lookup_insert_ne.
  - rewrite filter_cons, decide_False by (by intros ->). destruct debug_assertions; [done|]. apply IH.
Qed.

Lemma fst_pairs {A B} (g : A → B) l : ((λ n, (n, g n)) <$> l).*1 = l.
Proof. induction l as [|x l IH]; [done|]. csimpl. by rewrite IH. Qed.

(** After any sequence of increments the snapshot has exactly the fixed
    names, each with its number of increments modulo 2^64. *)
Lemma yield_snapshot_exact names s n :
  inc_all yield_new names = Some s →
  snapshot s !! n
  = if bool_decide (n ∈ counter_names)
    then Some (Z.of_nat (length (filter (λ m, m = n) names)) `mod` 2 ^ 64) else None.
Proof.
  intros H. unfold snapshot. case_bool_decide as Hn.
  - apply elem_of_list_to_map_1.
    + rewrite fst_pairs. apply (bool_decide_unpack _). vm_compute. exact I.
    + apply list_elem_of_fmap. exists n. split; [|done]. f_equal. by rewrite (inc_all_counts _ _ _ _ H Hn).
  - apply not_elem_of_list_to_map_1. by rewrite fst_pairs.
Qed.

End debug.

End Yield.
