(* ===== verification/Accounting.v ===== *)
(** * The accounts of metadata fetches ([src/metadata.rs], [src/runtime_stats.rs])

    What one fetch of [Metadata] adds to the statistics, and what the
    snapshots of [Stats] show after any interleaving of fetches with each
    other and with the calls of other components. *)

From stdpp Require Import gmap strings.
From S2P Require Import Prelude Net Types FailureCache Metadata Stats.

Local Open Scope Z_scope.

Module Accounting.

Import Counters.

(** *** What is counted *)

(** Calls without argument, with one argument, with any argument. *)
Inductive item := NoArg (m : string) | Arg (m : string) (n : Z) | AnyArg (m : string).

#[export] Instance item_eq_dec : EqDecision item.
Proof. solve_decision. Defined.

Definition matches (i : item) (s : stat) : Z :=
  match i, s with
  | NoArg m, Stat m' => if bool_decide (m' = m) then 1 else 0
  | Arg m n, StatN m' n' => if bool_decide (m' = m) && (n' =? n) then 1 else 0
  | AnyArg m, StatN m' _ => if bool_decide (m' = m) then 1 else 0
  | _, _ => 0
  end.

Definition tally (l : list stat) (i : item) : Z := foldr (λ s n, matches i s + n) 0 l.

Definition failure_items : list item :=
  NoArg <$> ["metadata_failure_connect"; "metadata_failure_no_extension"; "metadata_failure_send";
             "metadata_failure_size_limit"; "metadata_failure_sha1"; "metadata_failure_parse";
             "metadata_failure_reject"; "metadata_failure_other"].
Definition stage_items : list item :=
  Arg "metadata_timeout_stage" <$> [0; 1; 2; 3; 4; 5; 6; 7].
Definition error_items : list item :=
  Arg "metadata_connection_error" <$> [0; 1; 2; 3; 4; 5; 6; 7; 8].

Definition accounted : list item :=
  (NoArg <$> ["metadata_peer_attempt"; "metadata_peer_succeeded"; "metadata_peer_failed"; "metadata_peer_timeout";
              "metadata_failure_timeout"; "metadata_connect_failed"; "metadata_failure_tcp_connect";
              "metadata_failure_base_handshake"; "metadata_no_extension"; "metadata_peer_failure_cache_hit";
              "peer_cache_endpoint_hits"; "peer_cache_metadata_hits"])
  ++ [AnyArg "observe_metadata_fetch_duration"] ++ failure_items ++ stage_items ++ error_items.

Definition total (T : item → Z) (l : list item) : Z := foldr (λ i n, T i + n) 0 l.

(** The accounts hold of a tally with [abandoned] attempts that never ended. *)
Record balanced (abandoned : Z) (T : item → Z) : Prop := {
  bal_attempts : T (NoArg "metadata_peer_attempt")
    = T (NoArg "metadata_peer_succeeded") + T (NoArg "metadata_peer_failed") + abandoned;
  bal_durations : T (AnyArg "observe_metadata_fetch_duration")
    = T (NoArg "metadata_peer_succeeded") + T (NoArg "metadata_peer_failed");
  bal_failures : T (NoArg "metadata_peer_failed") = T (NoArg "metadata_failure_timeout") + total T failure_items;
  bal_timeouts : T (NoArg "metadata_peer_timeout") = T (NoArg "metadata_failure_timeout");
  bal_stages : T (NoArg "metadata_failure_timeout") = total T stage_items;
  bal_aggregate : T (Arg "metadata_timeout_stage" 0) = 0;
  bal_connect : T (NoArg "metadata_connect_failed") = T (NoArg "metadata_failure_connect");
  bal_errors : T (NoArg "metadata_failure_connect") = total T error_items;
  bal_phases : T (NoArg "metadata_failure_connect")
    = T (NoArg "metadata_failure_tcp_connect") + T (NoArg "metadata_failure_base_handshake");
  bal_extension : T (NoArg "metadata_no_extension") = T (NoArg "metadata_failure_no_extension");
  bal_hits : T (NoArg "metadata_peer_failure_cache_hit")
    = T (NoArg "peer_cache_endpoint_hits") + T (NoArg "peer_cache_metadata_hits");
}.

Lemma total_sum T U l : total (λ i, T i + U i) l = total T l + total U l.
Proof. induction l as [|i l IH]; [done|]. unfold total in *. cbn [foldr]. lia. Qed.

Lemma balanced_sum a b T U : balanced a T → balanced b U → balanced (a + b) (λ i, T i + U i).
Proof. intros [] []. split; rewrite ?total_sum; lia. Qed.

Lemma total_ext T U l : (∀ i, i ∈ l → T i = U i) → total T l = total U l.
Proof.
  intros H. induction l as [|i l IH]; [done|]. simpl. rewrite (H i) by left. rewrite IH; [done|]. intros j Hj. apply H. by right.
Qed.

(** Decides membership in the list of accounted items. *)
Ltac accounted_item := apply (bool_decide_unpack _); vm_compute; exact I.

Lemma balanced_ext a T U : (∀ i, i ∈ accounted → T i = U i) → balanced a T → balanced a U.
Proof.
  intros H [].
  assert (total T failure_items = total U failure_items) as E1.
  { apply total_ext. intros i Hi. apply H. unfold accounted. rewrite !elem_of_app. tauto. }
  assert (total T stage_items = total U stage_items) as E2.
  { apply total_ext. intros i Hi. apply H. unfold accounted. rewrite !elem_of_app. tauto. }
  assert (total T error_items = total U error_items) as E3.
  { apply total_ext. intros i Hi. apply H. unfold accounted. rewrite !elem_of_app. tauto. }
  split; rewrite <-?E1, <-?E2, <-?E3, <-!H by accounted_item; done.
Qed.

Section fetches.
Context (sha1 : list Z → list Z).
Context (bdecode : list Z → option Value) (utf8 : list Z → option string).
Context (metadata_piece_count : Z → Z).
Context (decode_extension : Z → list Z → option (option Z * option Z)).
Context (decode_metadata : list Z → option MetadataMessage).
Context (overflow_checks : bool).

Local Abbreviation on_message := (on_message metadata_piece_count decode_extension decode_metadata).
Local Abbreviation receive_loop :=
  (receive_loop sha1 bdecode utf8 metadata_piece_count decode_extension decode_metadata overflow_checks).
Local Abbreviation fetch_with_peer :=
  (fetch_with_peer sha1 bdecode utf8 metadata_piece_count decode_extension decode_metadata overflow_checks).
Local Abbreviation fetch_with_attempt_observer :=
  (fetch_with_attempt_observer sha1 bdecode utf8 metadata_piece_count decode_extension decode_metadata overflow_checks).

(** A fetch whose task is dropped at a pending operation, or panics: nothing
    is counted after the attempt itself. *)
Definition fetch_abandoned (f : RbitFetcher) (io : PeerScript) (info_hash : list Z) (a : SocketAddr)
    (clk : nat → Instant) : option RbitFetcher :=
  let '(hit, f) := check_cache f (Endpoint a) (clk 0%nat) in
  if hit : bool then None
  else
    let '(hit, f) := check_cache f (MetadataKey info_hash a) (clk 1%nat) in
    if hit : bool then None
    else
      let f := add_stats f [Stat "metadata_peer_attempt"] in
      match fetch_with_peer f io info_hash a (clk 2%nat) with
      | (f, Pending _) | (f, FetchPanic) => Some f
      | _ => None
      end.

(** The calls one fetch makes, from whatever state of the fetcher. *)
Inductive fetch_finished : list stat → Prop :=
  | log_finished f io h a clk elapsed b r f' l :
      fetch_with_attempt_observer f io h a clk elapsed = Some (b, r, f') → stats f' = stats f ++ l → fetch_finished l.

Inductive fetch_dropped : list stat → Prop :=
  | log_dropped f io h a clk f' l :
      fetch_abandoned f io h a clk = Some f' → stats f' = stats f ++ l → fetch_dropped l.

(** Entries that take no part in the accounts below. *)
Definition neutral (s : stat) : bool :=
  match s with
  | Stat m => bool_decide (m ∈ ["peer_cache_hit_timeout"; "peer_cache_hit_connect"])
  | StatN m _ =>
      bool_decide (m ∈ ["metadata_bytes_downloaded"; "observe_metadata_size"; "set_metadata_peer_failure_cache_entries"])
  end.

Definition core (l : list stat) : list stat := filter (λ s, neutral s = false) l.

(** [f'] is [f] with entries added whose core is [l]. *)
Definition adds (f f' : RbitFetcher) (l : list stat) : Prop := ∃ l', stats f' = stats f ++ l' ∧ core l' = l.

Lemma core_app l k : core (l ++ k) = core l ++ core k.
Proof. apply filter_app. Qed.

Lemma adds_trans f g h l k : adds f g l → adds g h k → adds f h (l ++ k).
Proof.
  intros (l' & Hl & <-) (k' & Hk & <-). exists (l' ++ k'). by rewrite Hk, Hl, (assoc_L (++)), core_app.
Qed.

Lemma adds_stats f l : adds f (add_stats f l) (core l).
Proof. by exists l. Qed.

Lemma adds_refl f : adds f f [].
Proof. exists []. by rewrite app_nil_r. Qed.

Lemma adds_cons f g s l : neutral s = false → adds (add_stats f [s]) g l → adds f g (s :: l).
Proof.
  intros Hs (l' & Hl & <-). exists (s :: l'). rewrite Hl. cbn [add_stats stats]. rewrite <-(assoc_L (++)).
  split; [done|]. unfold core. by rewrite filter_cons, decide_True.
Qed.

Lemma record_peer_failure_adds f key r now : adds f (record_peer_failure f key r now) [].
Proof.
  unfold record_peer_failure. destruct (PeerFailureCache.insert _ key r now) as [n c].
  by exists [StatN "set_metadata_peer_failure_cache_entries" (Z.of_nat n)].
Qed.

Lemma record_timeout_failure_adds f h a st now : adds f (record_timeout_failure f h a st now) [].
Proof. destruct st; simpl; auto using record_peer_failure_adds, adds_refl. Qed.

Definition connection_entries (c : MetadataConnectionError) (tcp : bool) : list stat :=
  [StatN "metadata_connection_error" (error_index c); Stat "metadata_connect_failed";
   Stat (if tcp then "metadata_failure_tcp_connect" else "metadata_failure_base_handshake")].

Lemma record_connection_failure_adds f h a st e now :
  adds f (record_connection_failure f h a st e now)
    (connection_entries (connection_error_category e) (bool_decide (st = TcpConnect))).
Proof.
  unfold record_connection_failure. case_bool_decide; rewrite <-(app_nil_r (connection_entries _ _));
    (eapply adds_trans; [|apply record_peer_failure_adds]); by eexists; (split; [|]); [cbn; rewrite <-(assoc_L (++))|].
Qed.

(** The entries of a fetch up to its result. *)
Definition fetch_core (r : fetched) (l : list stat) : Prop :=
  match r with
  | Pending s => s ≠ ConnectHandshake ∧ l = []
  | FetchErr FConnect => ∃ c tcp, l = connection_entries c tcp
  | FetchErr FNoExtension => l = [Stat "metadata_no_extension"]
  | _ => l = []
  end.

Lemma send_requests_errors io ps e : send_requests io ps = inl (Reply e) → e = FSend.
Proof. induction ps as [|p ps IH]; simpl; repeat (case_match; try done); congruence. Qed.

Lemma on_message_errors io d msg st e n : on_message io d msg = Fail st e n → e ≠ FConnect ∧ e ≠ FNoExtension.
Proof.
  unfold on_message, on_handshake, on_data. intros H. repeat (case_match; simplify_eq/=; try done);
    try (by split); by match goal with H : send_requests _ _ = _ |- _ => apply send_requests_errors in H as -> end.
Qed.

Lemma log_bytes_core n : core (log_bytes n) = [].
Proof. by destruct n. Qed.

Lemma receive_loop_core io h d msgs log log' r :
  receive_loop io h d msgs log = (log', r) → core log' = core log ∧ fetch_core r [].
Proof.
  revert d log; induction msgs as [|[msg|] msgs IH]; intros d log; cbn [receive_loop].
  - intros [= <- <-]. split; [done|]. unfold receive_stage. by destruct (request_sent d).
  - destruct (on_message io d msg) as [d' n|st e n|s'|data n] eqn:E.
    + intros [H ?]%IH. by rewrite H, core_app, log_bytes_core, app_nil_r.
    + intros [= <- <-]. rewrite core_app, log_bytes_core, app_nil_r. split; [done|].
      apply on_message_errors in E as [??]. by destruct e.
    + intros [= <- <-]. apply on_message_stage in E as ->. done.
    + unfold finish_download. repeat (case_match; simplify_eq/=); intros [= <- <-];
        rewrite ?core_app; by rewrite app_nil_r.
  - by intros [= <- <-].
Qed.

Lemma connect_peer_core f io h a now f' r :
  connect_peer f io h a now = (f', r) →
  ∃ l, adds f f' l ∧ match r with inl r => fetch_core r l | inr _ => l = [] end.
Proof.
  unfold connect_peer. destruct (tcp_connect io) as [|[e|]].
  - intros [= <- <-]. exists []. by split; [apply adds_refl|].
  - intros [= <- <-]. eexists. split; [apply record_connection_failure_adds|]. by eexists _, _.
  - destruct (base_handshake io) as [|hs]; [intros [= <- <-]; exists []; by split; [apply adds_refl|]|].
    destruct (match hs with inl e => inl e | inr (rh, ext) => _ end) as [e|[]]; intros [= <- <-].
    + eexists. split; [apply record_connection_failure_adds|]. by eexists _, _.
    + exists []. by split; [apply adds_refl|].
    + eexists. split; [apply adds_stats|]. done.
Qed.

Lemma fetch_with_peer_core f io h a now f' r :
  fetch_with_peer f io h a now = (f', r) → ∃ l, adds f f' l ∧ fetch_core r l.
Proof.
  unfold Metadata.fetch_with_peer. destruct (connect_peer f io h a now) as [f1 c] eqn:E.
  apply connect_peer_core in E as (l & Hl & Hr). destruct c as [x|[]]; [intros [= <- <-]; by exists l|]. subst l.
  destruct (encode_handshake_ok io); cbn [negb]; [|intros [= <- <-]; by exists []].
  destruct (send_handshake_ok io) as [|[]]; [intros [= <- <-]; by exists []| |intros [= <- <-]; by exists []].
  destruct (receive_loop io h download_start (incoming io) []) as [log r'] eqn:Er. intros [= <- <-].
  apply receive_loop_core in Er as [Hc Hr]. exists []. split; [|done].
  change [] with ([] ++ [] : list stat). eapply adds_trans; [done|]. by exists log.
Qed.

(** *** The shapes of a log *)

Lemma check_cache_core f key now hit f' :
  check_cache f key now = (hit, f') →
  adds f f' (if hit : bool
             then [Stat "metadata_peer_failure_cache_hit";
                   Stat (match key with Endpoint _ => "peer_cache_endpoint_hits" | _ => "peer_cache_metadata_hits" end)]
             else []).
Proof.
  unfold check_cache. destruct (PeerFailureCache.get _ key now) as [[[r|] n] c]; intros [= <- <-].
  - eexists. split; [cbn; by rewrite <-(assoc_L (++))|]. by destruct key, r.
  - by eexists.
Qed.

Definition outcome_entries (r : fetched) : list stat :=
  match r with
  | Pending s => [Stat "metadata_peer_failed"; Stat "metadata_peer_timeout"; Stat "metadata_failure_timeout";
                  StatN "metadata_timeout_stage" (stage_index s)]
  | FetchErr e => [Stat "metadata_peer_failed"; Stat (failure_stat e)]
  | FetchOk _ => [Stat "metadata_peer_succeeded"]
  | FetchPanic => []
  end.

Lemma conclude_core f h a r clk out f' : conclude f h a r clk = Some (out, f') → adds f f' (outcome_entries r).
Proof.
  unfold conclude. destruct r as [s|e|m|]; [| | |done].
  - intros [= _ <-]. assert (from_index (stage_index s) = s) as -> by (by destruct s).
    eapply (adds_trans _ _ _ [] _); [apply record_timeout_failure_adds|apply adds_stats].
  - intros [= _ <-].
    assert (core (outcome_entries (FetchErr e)) = outcome_entries (FetchErr e)) as <- by (by destruct e).
    eapply (adds_trans _ _ _ [] _); [|apply adds_stats].
    case_bool_decide; [apply adds_refl|apply record_peer_failure_adds].
  - destruct (PeerFailureCache.remove _ (MetadataKey h a) _) as [n c]. intros [= _ <-].
    eexists. split; [cbn; by rewrite <-(assoc_L (++))|done].
Qed.

(** The core of a fetch that was not skipped, and of one that was. *)
Definition attempt_entries (z : Z) (l : list stat) (r : fetched) : list stat :=
  Stat "metadata_peer_attempt" :: l ++ StatN "observe_metadata_fetch_duration" z :: outcome_entries r.

Lemma fetch_cores l :
  fetch_finished l →
  (∃ k, core l = [Stat "metadata_peer_failure_cache_hit"; Stat k]
     ∧ (k = "peer_cache_endpoint_hits" ∨ k = "peer_cache_metadata_hits"))
  ∨ ∃ z l' r, fetch_core r l' ∧ r ≠ FetchPanic ∧ core l = attempt_entries z l' r.
Proof.
  intros [f io h a clk elapsed b r f' l' H Hl]. assert (∀ k, adds f f' k → core l' = k) as Hadds.
  { intros k (k' & Hk & <-). rewrite Hl in Hk. by apply app_inv_head in Hk as ->. }
  unfold Metadata.fetch_with_attempt_observer in H.
  destruct (check_cache f (Endpoint a) (clk 0%nat)) as [hit1 f1] eqn:E1. apply check_cache_core in E1.
  destruct hit1; [simplify_eq; left; eauto|].
  destruct (check_cache f1 (MetadataKey h a) (clk 1%nat)) as [hit2 f2] eqn:E2. apply check_cache_core in E2.
  pose proof (adds_trans _ _ _ _ _ E1 E2) as E12. destruct hit2; [simplify_eq; left; eauto|].
  destruct (Metadata.fetch_with_peer _ _ _ _ _ _ _ _ _ _ _ _) as [f3 x] eqn:E3. apply fetch_with_peer_core in E3 as (k & E3 & Hk).
  destruct (conclude _ h a x clk) as [[out f4]|] eqn:E4; [|done]. simpl in H. simplify_eq.
  assert (x ≠ FetchPanic) as Hx by (by intros ->). apply conclude_core in E4. right.
  exists (Z.min (elapsed `div` 1000000) u64_max), k, x. split; [done|]. split; [done|]. apply Hadds.
  eapply (adds_trans _ _ _ [] _ E12), adds_cons; [done|]. by eapply (adds_trans _ _ _ _ _ E3), adds_cons.
Qed.

Lemma abandoned_core l : fetch_dropped l → core l = [Stat "metadata_peer_attempt"].
Proof.
  intros [f io h a clk f' l' H Hl]. assert (∀ k, adds f f' k → core l' = k) as Hadds.
  { intros k (k' & Hk & <-). rewrite Hl in Hk. by apply app_inv_head in Hk as ->. }
  unfold fetch_abandoned in H.
  destruct (check_cache f (Endpoint a) (clk 0%nat)) as [hit1 f1] eqn:E1. apply check_cache_core in E1.
  destruct hit1; [done|].
  destruct (check_cache f1 (MetadataKey h a) (clk 1%nat)) as [hit2 f2] eqn:E2. apply check_cache_core in E2.
  pose proof (adds_trans _ _ _ _ _ E1 E2) as E12. destruct hit2; [done|].
  destruct (Metadata.fetch_with_peer _ _ _ _ _ _ _ _ _ _ _ _) as [f3 x] eqn:E3. apply fetch_with_peer_core in E3 as (k & E3 & Hk).
  assert (k = [] ∧ f3 = f') as [-> ->] by (destruct x; simplify_eq; by destruct Hk || by split).
  apply Hadds. by eapply (adds_trans _ _ _ [] _ E12), adds_cons.
Qed.

End fetches.

(** *** Balance *)

Lemma neutral_unmatched s : neutral s = true → Forall (λ i, matches i s = 0) accounted.
Proof.
  destruct s as [m|m n]; simpl; rewrite bool_decide_eq_true, !elem_of_cons, elem_of_nil.
  - intros [->|[->|[]]]; accounted_item.
  - intros [->|[->|[->|[]]]]; accounted_item.
Qed.

Lemma tally_core l i : i ∈ accounted → tally (core l) i = tally l i.
Proof.
  intros Hi. unfold core. induction l as [|s l IH]; [done|]. rewrite filter_cons. case_decide as E.
  - cbn [tally foldr]. unfold tally in IH. by rewrite IH.
  - rewrite IH. cbn [tally foldr]. apply not_false_is_true in E. apply neutral_unmatched in E.
    rewrite Forall_forall in E. by rewrite E.
Qed.

Lemma tally_app l k i : tally (l ++ k) i = tally l i + tally k i.
Proof. unfold tally. induction l as [|s l IH]; [done|]. simpl. lia. Qed.

Lemma finished_balanced sha1 bdecode utf8 mpc de dm oc l :
  fetch_finished sha1 bdecode utf8 mpc de dm oc l → balanced 0 (tally l).
Proof.
  intros H. apply (balanced_ext _ (tally (core l))); [intros i Hi; by apply tally_core|].
  apply fetch_cores in H as [(k & -> & [->| ->])|(z & l' & r & Hl & Hr & ->)]; [by split|by split|].
  destruct r as [st|e|m|]; [| | |done].
  - destruct Hl as [Hst ->]. destruct st; [done|by split..].
  - destruct e; [destruct Hl as (c & tcp & ->); destruct c, tcp; by split|rewrite Hl; by split..].
  - rewrite Hl. by split.
Qed.

Lemma dropped_balanced sha1 bdecode utf8 mpc de dm oc l :
  fetch_dropped sha1 bdecode utf8 mpc de dm oc l → balanced 1 (tally l).
Proof.
  intros H. apply (balanced_ext _ (tally (core l))); [intros i Hi; by apply tally_core|].
  rewrite (abandoned_core _ _ _ _ _ _ _ _ H). by split.
Qed.

Lemma balanced_concat (P : list stat → Prop) n ls :
  (∀ l, P l → balanced n (tally l)) → Forall P ls → balanced (Z.of_nat (length ls) * n) (tally (concat ls)).
Proof.
  intros HP. induction 1 as [|l ls Hl _ IH]; [by split|]. cbn [concat length].
  apply (balanced_ext _ (λ i, tally l i + tally (concat ls) i)); [intros i _; by rewrite tally_app|].
  replace (Z.of_nat (S (length ls)) * n) with (n + Z.of_nat (length ls) * n) by lia.
  apply balanced_sum; [by apply HP|done].
Qed.

(** *** Calls and counters *)

Definition call_matches (i : item) (c : call) : Z := match c with Recorded s => matches i s | _ => 0 end.
Definition ctally (cs : list call) (i : item) : Z := foldr (λ c n, call_matches i c + n) 0 cs.

Lemma ctally_app cs ds i : ctally (cs ++ ds) i = ctally cs i + ctally ds i.
Proof. unfold ctally. induction cs as [|c cs IH]; [done|]. simpl. lia. Qed.

Lemma ctally_perm cs ds i : cs ≡ₚ ds → ctally cs i = ctally ds i.
Proof. unfold ctally. induction 1; simpl; lia. Qed.

Lemma ctally_recorded l i : ctally (Recorded <$> l) i = tally l i.
Proof. unfold ctally, tally. induction l as [|s l IH]; [done|]. csimpl. by rewrite <-IH. Qed.

Lemma matches_bound i s : 0 ≤ matches i s ≤ 1.
Proof. destruct i, s; simpl; try lia; case_match; lia. Qed.

Lemma ctally_bound cs i : 0 ≤ ctally cs i ≤ Z.of_nat (length cs).
Proof.
  unfold ctally. induction cs as [|c cs IH]; [done|]. cbn [foldr length].
  destruct c as [s| | | | |]; cbn [call_matches]; [pose proof (matches_bound i s)|..]; lia.
Qed.

Lemma times_ctally m cs : times m cs = ctally cs (NoArg m).
Proof.
  unfold times, ctally. induction cs as [|c cs IH]; [done|]. rewrite filter_cons. cbn [foldr].
  case_decide as E.
  - subst c. cbn [length call_matches matches]. rewrite bool_decide_true by done. lia.
  - assert (call_matches (NoArg m) c = 0) as ->; [|lia].
    destruct c as [[m'|m' n]| | | | |]; try done. simpl. rewrite bool_decide_false; [done|]. congruence.
Qed.

Lemma counter_tally lim cs m f :
  Z.of_nat (length cs) ≤ u64_max → (m, f) ∈ counter_methods →
  load (run (with_limits lim) cs) f = ctally cs (NoArg m).
Proof.
  intros Hlen Hin. rewrite (counter_value _ _ m), times_ctally by done. apply Z.mod_small.
  pose proof (ctally_bound cs (NoArg m)). change (2 ^ 64) with (u64_max + 1). lia.
Qed.

Lemma bump_lookup l n i :
  (i < length l)%nat → bump l n !!! i = if n =? Z.of_nat i then u64_wrapping_add (l !!! i) 1 else l !!! i.
Proof.
  intros Hi. unfold bump. destruct (Z.leb_spec 0 n), (Z.eqb_spec n (Z.of_nat i)); try lia; [|].
  - subst n. rewrite Nat2Z.id. destruct (lookup_lt_is_Some_2 l i Hi) as [x Hx].
    rewrite (list_lookup_total_correct _ _ x Hx). apply list_lookup_total_correct. by rewrite list_lookup_alter_eq, Hx.
  - rewrite !list_lookup_total_alt, list_lookup_alter_ne by lia. done.
Qed.

Lemma bump_length l n : length (bump l n) = length l.
Proof. unfold bump. case_match; [apply length_alter|done]. Qed.

Lemma errors_tally s cs i :
  (i < length (metadata_connection_errors s))%nat → 0 ≤ metadata_connection_errors s !!! i < 2 ^ 64 →
  metadata_connection_errors (run s cs) !!! i
  = (metadata_connection_errors s !!! i + ctally cs (Arg "metadata_connection_error" (Z.of_nat i))) `mod` 2 ^ 64.
Proof.
  revert s; induction cs as [|c cs IH]; intros s Hi Hv; [cbn; by rewrite Z.add_0_r, Z.mod_small|].
  unfold run in *. cbn [fold_left]. cbn [ctally foldr]. fold (ctally cs (Arg "metadata_connection_error" (Z.of_nat i))).
  destruct c as [[m|m n]| | | | |]; try (by rewrite IH). cbn [call_matches matches].
  destruct (decide (m = "metadata_connection_error")) as [->|Hm].
  - rewrite IH; cbn [apply metadata_connection_errors]; rewrite ?bool_decide_true by done; cbn [andb].
    + rewrite bump_lookup by done. destruct (n =? Z.of_nat i); [apply wrap_add_mod|done].
    + by rewrite bump_length.
    + rewrite bump_lookup by done. case_match; [|done]. apply Z.mod_pos_bound. lia.
  - rewrite IH; cbn [apply metadata_connection_errors]; by rewrite !bool_decide_false.
Qed.

(** The calls that bump a stage: its own, and for the aggregate those of the
    two connection stages. *)
Definition stage_tally (cs : list call) (i : nat) : Z :=
  ctally cs (Arg "metadata_timeout_stage" (Z.of_nat i))
  + if (i =? 0)%nat then ctally cs (Arg "metadata_timeout_stage" 6) + ctally cs (Arg "metadata_timeout_stage" 7) else 0.

Lemma stage_lookup l n i :
  (i < length l)%nat → (0 < length l)%nat → 0 ≤ l !!! i < 2 ^ 64 →
  metadata_timeout_stage l n !!! i
  = (l !!! i + ((if n =? Z.of_nat i then 1 else 0)
     + if (i =? 0)%nat then (if n =? 6 then 1 else 0) + (if n =? 7 then 1 else 0) else 0)) `mod` 2 ^ 64.
Proof.
  intros Hi H0 Hv. unfold metadata_timeout_stage. cbn [stage_index].
  assert (∀ x, u64_wrapping_add x 1 = (x + 1) `mod` 2 ^ 64) as Hw by done.
  destruct (Z.eqb_spec n 6), (Z.eqb_spec n 7); try lia; cbn [orb];
    rewrite !bump_lookup by (by rewrite ?bump_length);
    destruct (Nat.eqb_spec i 0), (Z.eqb_spec n (Z.of_nat i)), (Z.eqb_spec 0 (Z.of_nat i)); try lia; rewrite ?Hw; try done;
    rewrite ?Z.add_0_r, ?Z.add_0_l; try done; by rewrite Z.mod_small.
Qed.

Lemma stage_length l n : length (metadata_timeout_stage l n) = length l.
Proof. unfold metadata_timeout_stage. case_match; by rewrite !bump_length. Qed.

Lemma stages_tally s cs i :
  (i < length (metadata_timeout_stages s))%nat → 0 ≤ metadata_timeout_stages s !!! i < 2 ^ 64 →
  metadata_timeout_stages (run s cs) !!! i = (metadata_timeout_stages s !!! i + stage_tally cs i) `mod` 2 ^ 64.
Proof.
  revert s; induction cs as [|c cs IH]; intros s Hi Hv.
  { unfold stage_tally. cbn. case_match; by rewrite Z.add_0_r, Z.mod_small. }
  unfold run in *. cbn [fold_left].
  destruct c as [[m|m n]| | | | |]; try (rewrite IH by done; by unfold stage_tally).
  destruct (decide (m = "metadata_timeout_stage")) as [->|Hm].
  - assert (metadata_timeout_stages (apply s (Recorded (StatN "metadata_timeout_stage" n)))
      = metadata_timeout_stage (metadata_timeout_stages s) n) as Hs by done.
    rewrite IH; rewrite Hs; [|by rewrite stage_length|rewrite stage_lookup by (done || lia); by apply Z.mod_pos_bound].
    rewrite stage_lookup by (done || lia). rewrite Zplus_mod_idemp_l. f_equal. unfold stage_tally, ctally.
    cbn [foldr call_matches matches]. rewrite bool_decide_true by done. cbn [andb]. destruct (i =? 0)%nat; lia.
  - assert (metadata_timeout_stages (apply s (Recorded (StatN m n))) = metadata_timeout_stages s) as Hs
      by (cbn [apply metadata_timeout_stages]; by rewrite bool_decide_false).
    rewrite IH; rewrite Hs; [|done|done]. f_equal. f_equal. unfold stage_tally, ctally. cbn [foldr call_matches matches].
    rewrite bool_decide_false by done. done.
Qed.

Lemma durations_tally s cs :
  0 ≤ Histogram.count (fetch_duration_ms s) < 2 ^ 64 →
  Histogram.count (fetch_duration_ms (run s cs))
  = (Histogram.count (fetch_duration_ms s) + ctally cs (AnyArg "observe_metadata_fetch_duration")) `mod` 2 ^ 64.
Proof.
  revert s; induction cs as [|c cs IH]; intros s Hv; [cbn; by rewrite Z.add_0_r, Z.mod_small|].
  unfold run in *. cbn [fold_left ctally foldr]. fold (ctally cs (AnyArg "observe_metadata_fetch_duration")).
  destruct c as [[m|m n]| | | | |]; try (by rewrite IH). cbn [call_matches matches].
  destruct (decide (m = "observe_metadata_fetch_duration")) as [->|Hm].
  - assert (Histogram.count (fetch_duration_ms (apply s (Recorded (StatN "observe_metadata_fetch_duration" n))))
      = u64_wrapping_add (Histogram.count (fetch_duration_ms s)) 1) as Hs.
    { cbn [apply fetch_duration_ms]. rewrite bool_decide_true by done. unfold Histogram.record. by destruct (Histogram.bucket _ _). }
    rewrite IH; rewrite Hs; [rewrite bool_decide_true by done; apply wrap_add_mod|apply Z.mod_pos_bound; lia].
  - assert (fetch_duration_ms (apply s (Recorded (StatN m n))) = fetch_duration_ms s) as Hs
      by (cbn [apply fetch_duration_ms]; by rewrite bool_decide_false).
    rewrite IH; rewrite Hs; [|done]. by rewrite bool_decide_false.
Qed.

(** *** The accounts *)

(** Calls of other components: none of the methods accounted for here. *)
Definition foreign (c : call) : Prop := Forall (λ i, call_matches i c = 0) accounted.

Lemma foreign_balanced cs : Forall foreign cs → balanced 0 (ctally cs).
Proof.
  intros H. apply (balanced_ext _ (λ _, 0)); [|by split]. intros i Hi. induction H as [|c cs Hc _ IH]; [done|].
  unfold ctally in *. cbn [foldr]. unfold foreign in Hc. rewrite Forall_forall in Hc. rewrite Hc by done. lia.
Qed.

(** A field of a snapshot. *)
Definition field (l : list (string * Z)) (name : string) : Z := default 0 ((list_to_map l : gmap string Z) !! name).

Lemma field_fmap {A} (g : A → Z) (l : list (string * A)) name :
  field ((λ x, (x.1, g x.2)) <$> l) name = default 0 (g <$> ((list_to_map l : gmap string A) !! name)).
Proof.
  unfold field. rewrite <-lookup_fmap, <-list_to_map_fmap. by do 3 f_equal.
Qed.

Lemma field_self (g : string → Z) l f : f ∈ l → field ((λ f, (f, g f)) <$> l) f = g f.
Proof.
  intros Hf. unfold field. induction l as [|h l IH]; [by apply elem_of_nil in Hf|]. csimpl.
  destruct (decide (h = f)) as [->|Hne]; [by rewrite lookup_insert_eq|]. rewrite lookup_insert_ne by done. apply IH.
  set_solver.
Qed.

Section accounts.
Context (sha1 : list Z → list Z).
Context (bdecode : list Z → option Value) (utf8 : list Z → option string).
Context (metadata_piece_count : Z → Z).
Context (decode_extension : Z → list Z → option (option Z * option Z)).
Context (decode_metadata : list Z → option MetadataMessage).
Context (overflow_checks : bool).

Local Abbreviation fetch_finished :=
  (fetch_finished sha1 bdecode utf8 metadata_piece_count decode_extension decode_metadata overflow_checks).
Local Abbreviation fetch_dropped :=
  (fetch_dropped sha1 bdecode utf8 metadata_piece_count decode_extension decode_metadata overflow_checks).

(** The calls of the finished fetches, of the dropped ones and of the other
    components, in any order. *)
Record interleaving (finished dropped : list (list stat)) (cs : list call) : Prop := {
  il_finished : Forall fetch_finished finished;
  il_dropped : Forall fetch_dropped dropped;
  il_calls : ∃ others, Forall foreign others ∧ cs ≡ₚ (Recorded <$> concat finished ++ concat dropped) ++ others;
  il_width : Z.of_nat (length cs) ≤ u64_max;
}.

Lemma interleaving_balanced finished dropped cs :
  interleaving finished dropped cs → balanced (Z.of_nat (length dropped)) (ctally cs).
Proof.
  intros [Hf Hd (others & Ho & Hp) _].
  apply (balanced_ext _ (λ i, (tally (concat finished) i + tally (concat dropped) i) + ctally others i)).
  { intros i _. by rewrite (ctally_perm _ _ _ Hp), ctally_app, ctally_recorded, tally_app. }
  replace (Z.of_nat (length dropped)) with
    ((Z.of_nat (length finished) * 0 + Z.of_nat (length dropped) * 1) + 0) by lia.
  apply balanced_sum; [apply balanced_sum|by apply foreign_balanced].
  - eapply balanced_concat; [|done]. intros l. apply finished_balanced.
  - eapply balanced_concat; [|done]. intros l. apply dropped_balanced.
Qed.

(** The method that counts in a field. *)
Definition counting (f : string) : string :=
  default "" ((list_to_map ((λ x, (x.2, x.1)) <$> counter_methods) : gmap string string) !! f).

Lemma snapshot_tally lim cs f :
  Z.of_nat (length cs) ≤ u64_max → (counting f, f) ∈ counter_methods → f ∈ snapshot_fields →
  field (snapshot (run (with_limits lim) cs)) f = ctally cs (NoArg (counting f)).
Proof. intros Hlen Hm Hf. unfold snapshot. rewrite field_self by done. by apply counter_tally. Qed.

Lemma observability_tally lim cs f :
  Z.of_nat (length cs) ≤ u64_max → (counting f, f) ∈ counter_methods →
  (list_to_map observability_fields : gmap string string) !! f = Some f →
  field (observability_snapshot (run (with_limits lim) cs)) f = ctally cs (NoArg (counting f)).
Proof.
  intros Hlen Hm Hf. unfold observability_snapshot. rewrite (field_fmap (load _)), Hf. by apply counter_tally.
Qed.

Lemma stage_field lim cs name i :
  (list_to_map timeout_stage_fields : gmap string nat) !! name = Some i → (i < 8)%nat →
  0 ≤ stage_tally cs i < 2 ^ 64 →
  field (metadata_timeout_stages_snapshot (run (with_limits lim) cs)) name = stage_tally cs i.
Proof.
  intros Hn Hi Hb. unfold metadata_timeout_stages_snapshot. rewrite (field_fmap (λ i, _ !!! i)), Hn. cbn [fmap option_fmap option_map default].
  assert (metadata_timeout_stages (with_limits lim) !!! i = 0) as Hz by (apply (lookup_total_replicate_2 8); lia).
  rewrite stages_tally, Hz; [by rewrite Z.mod_small| |by rewrite Hz]. done.
Qed.

Lemma error_field lim cs name i :
  Z.of_nat (length cs) ≤ u64_max →
  (list_to_map connection_error_fields : gmap string nat) !! name = Some i → (i < 9)%nat →
  field (metadata_connection_errors_snapshot (run (with_limits lim) cs)) name
  = ctally cs (Arg "metadata_connection_error" (Z.of_nat i)).
Proof.
  intros Hlen Hn Hi. unfold metadata_connection_errors_snapshot. rewrite (field_fmap (λ i, _ !!! i)), Hn.
  cbn [fmap option_fmap option_map default].
  assert (metadata_connection_errors (with_limits lim) !!! i = 0) as Hz by (apply (lookup_total_replicate_2 9); lia).
  rewrite errors_tally, Hz; [rewrite Z.mod_small; [done|]| |by rewrite Hz]; [|done].
  pose proof (ctally_bound cs (Arg "metadata_connection_error" (Z.of_nat i))). change (2 ^ 64) with (u64_max + 1). lia.
Qed.

Lemma stage_tally_bound a cs i :
  balanced a (ctally cs) → Z.of_nat (length cs) ≤ u64_max → (i < 8)%nat → 0 ≤ stage_tally cs i < 2 ^ 64.
Proof.
  intros [] Hlen Hi. change (2 ^ 64) with (u64_max + 1). unfold total in bal_stages0. cbn [stage_items fmap list_fmap foldr] in bal_stages0.
  pose proof (ctally_bound cs (NoArg "metadata_failure_timeout")).
  assert (∀ n, 0 ≤ ctally cs (Arg "metadata_timeout_stage" n)) as Hpos by (intros n; apply ctally_bound).
  pose proof (Hpos 1); pose proof (Hpos 2); pose proof (Hpos 3); pose proof (Hpos 4); pose proof (Hpos 5);
    pose proof (Hpos 6); pose proof (Hpos 7).
  unfold stage_tally. destruct (Nat.eqb_spec i 0) as [->|]; [change (Z.of_nat 0) with 0; rewrite bal_aggregate0; lia|].
  pose proof (ctally_bound cs (Arg "metadata_timeout_stage" (Z.of_nat i))). lia.
Qed.

Lemma durations_field lim cs :
  Z.of_nat (length cs) ≤ u64_max →
  Histogram.count (fetch_duration_ms (run (with_limits lim) cs)) = ctally cs (AnyArg "observe_metadata_fetch_duration").
Proof.
  intros Hlen. rewrite durations_tally by done. cbn [with_limits fetch_duration_ms Histogram.count]. apply Z.mod_small.
  pose proof (ctally_bound cs (AnyArg "observe_metadata_fetch_duration")). change (2 ^ 64) with (u64_max + 1). cbn. lia.
Qed.

(** C31: the failure statistics add up as documented.  After any interleaving
    of fetches that ended, fetches whose task was dropped or panicked, and
    calls of other components, the two snapshots satisfy: every attempt
    succeeded, failed or was abandoned; the duration histogram has one
    observation per finished attempt; each failure is a timeout or has exactly
    one of the eight causes; the stage counters other than the aggregate
    [connect_handshake] partition the timeouts, and the aggregate is
    [tcp_connect + base_handshake]; the nine error categories partition the
    connection failures, as do the TCP and handshake phases; and every cache
    hit is an endpoint hit or a metadata hit. *)
Theorem fetch_accounting (lim : DhtRuntimeLimits) (finished dropped : list (list stat)) (cs : list call) :
  interleaving finished dropped cs →
  let s := run (with_limits lim) cs in
  let snap := field (snapshot s) in
  let obs := field (observability_snapshot s) in
  let stage := field (metadata_timeout_stages_snapshot s) in
  let error := field (metadata_connection_errors_snapshot s) in
  snap "metadata_peer_attempts"
    = snap "metadata_peer_succeeded" + snap "metadata_peer_failed" + Z.of_nat (length dropped)
  ∧ Histogram.count (fetch_duration_ms s) = snap "metadata_peer_succeeded" + snap "metadata_peer_failed"
  ∧ snap "metadata_peer_failed"
    = obs "metadata_failure_timeout" + obs "metadata_failure_connect" + obs "metadata_failure_no_extension"
      + obs "metadata_failure_send" + obs "metadata_failure_size_limit" + obs "metadata_failure_sha1"
      + obs "metadata_failure_parse" + obs "metadata_failure_reject" + obs "metadata_failure_other"
  ∧ snap "metadata_peer_timeouts" = obs "metadata_failure_timeout"
  ∧ obs "metadata_failure_timeout"
    = stage "tcp_connect" + stage "base_handshake" + stage "extension_handshake_send"
      + stage "extension_handshake_receive" + stage "piece_request_send" + stage "piece_receive" + stage "validation"
  ∧ stage "connect_handshake" = stage "tcp_connect" + stage "base_handshake"
  ∧ snap "metadata_connect_failed" = obs "metadata_failure_connect"
  ∧ obs "metadata_failure_connect"
    = error "refused" + error "reset" + error "aborted" + error "closed" + error "timeout"
      + error "invalid_handshake" + error "info_hash_mismatch" + error "io_other" + error "other"
  ∧ obs "metadata_failure_connect" = obs "metadata_failure_tcp_connect" + obs "metadata_failure_base_handshake"
  ∧ snap "metadata_no_extension" = obs "metadata_failure_no_extension"
  ∧ snap "metadata_peer_failure_cache_hits" = obs "peer_cache_endpoint_hits" + obs "peer_cache_metadata_hits".
Proof.
  intros Hil s snap obs stage error. pose proof (interleaving_balanced _ _ _ Hil) as Hbal.
  pose proof (il_width _ _ _ Hil) as Hlen.
  repeat match goal with
  | |- context [snap ?f] =>
      let m := eval vm_compute in (counting f) in
      assert (snap f = ctally cs (NoArg m)) as -> by (apply snapshot_tally; [done|accounted_item..])
  | |- context [obs ?f] =>
      let m := eval vm_compute in (counting f) in
      assert (obs f = ctally cs (NoArg m)) as -> by (apply observability_tally; [done|accounted_item|done])
  | |- context [error ?f] =>
      let i := eval vm_compute in (default 0%nat ((list_to_map connection_error_fields : gmap string nat) !! f)) in
      assert (error f = ctally cs (Arg "metadata_connection_error" (Z.of_nat i))) as ->
        by (apply error_field; [done|done|lia])
  | |- context [stage ?f] =>
      let i := eval vm_compute in (default 0%nat ((list_to_map timeout_stage_fields : gmap string nat) !! f)) in
      assert (stage f = stage_tally cs i) as ->
        by (apply stage_field; [done|lia|eapply stage_tally_bound; [done|done|lia]])
  end.
  unfold s. rewrite durations_field by done. destruct Hbal. unfold stage_tally. cbn -[ctally] in *.
  split_and!; try lia; cbv [Z.of_nat Pos.of_succ_nat Pos.succ]; lia.
Qed.
End accounts.

(** A refused connection, a fetch dropped while connecting, and a datagram. *)
Definition stuck_script : PeerScript :=
  mkScript Waiting Waiting true Waiting (λ _, true) (λ _, Waiting) [] Waiting.

Definition refused_log : list stat :=
  match toy_fetch toy_fetcher refused_script toy_bytes with Some (_, _, f') => stats f' | None => [] end.
Definition stuck_log : list stat :=
  match fetch_abandoned toy_sha1 toy_bdecode toy_utf8 chunk_count toy_extension toy_metadata true
          toy_fetcher stuck_script toy_bytes toy_addr (λ _, 0) with
  | Some f' => stats f'
  | None => []
  end.

Definition sample_calls : list call :=
  Recorded (Stat "udp_received") :: (Recorded <$> stuck_log ++ refused_log).

Lemma fetch_accounting_witness :
  let s := run (with_limits (mkLimits 0 0 0 0 0 0 0 0)) sample_calls in
  interleaving toy_sha1 toy_bdecode toy_utf8 chunk_count toy_extension toy_metadata true [refused_log] [stuck_log] sample_calls
  ∧ field (snapshot s) "metadata_peer_attempts" = 2
  ∧ field (snapshot s) "metadata_peer_attempts"
    = field (snapshot s) "metadata_peer_succeeded" + field (snapshot s) "metadata_peer_failed" + 1
  ∧ field (metadata_connection_errors_snapshot s) "refused" = 1.
Proof.
  intros s.
  assert (interleaving toy_sha1 toy_bdecode toy_utf8 chunk_count toy_extension toy_metadata true [refused_log] [stuck_log] sample_calls) as Hil.
  { split.
    - constructor; [|constructor]. eapply (log_finished _ _ _ _ _ _ _ toy_fetcher refused_script toy_bytes toy_addr (λ _, 0) 0);
        vm_compute; reflexivity.
    - constructor; [|constructor]. eapply (log_dropped _ _ _ _ _ _ _ toy_fetcher stuck_script toy_bytes toy_addr (λ _, 0));
        vm_compute; reflexivity.
    - exists [Recorded (Stat "udp_received")]. split; [constructor; [accounted_item|constructor]|].
      unfold sample_calls. cbn [concat]. rewrite !app_nil_r.
      rewrite (Permutation_app_comm _ [_]), (Permutation_app_comm stuck_log). done.
    - vm_compute. discriminate. }
  split; [exact Hil|]. split; [vm_compute; reflexivity|]. split; [|vm_compute; reflexivity].
  exact (proj1 (fetch_accounting toy_sha1 toy_bdecode toy_utf8 chunk_count toy_extension toy_metadata true
    (mkLimits 0 0 0 0 0 0 0 0) [refused_log] [stuck_log] sample_calls Hil)).
Defined.

End Accounting.
