(* ===== verification/Pressure.v ===== *)
(** * Back-pressure from the metadata queue ([src/crawl_config.rs],
    [src/crawl_engine.rs])

    How the crawler slows down when the metadata queue fills up.  As for the
    token bucket, the code is written once over an arithmetic interface; the
    crate runs it on binary64, the monotonicity is shown over the rationals,
    where the interpolation is exact. *)

From Stdlib Require Import SpecFloat QArith Qround Qminmax Lqa.
From S2P Require Import Prelude Float64 Budget Types.

Local Open Scope Z_scope.

(** [x.round() as u32]: half away from zero, then a saturating cast. *)
Class NumRound (F : Type) := n_round_u32 : F → Z.

#[global] Instance f64_round : NumRound f64 := λ x,
  match x with
  | S754_finite false m e =>
      Z.min u32_max
        (if 0 <=? e then Z.pos m * 2 ^ e else (Z.pos m + 2 ^ (- e - 1)) `div` 2 ^ (- e))
  | S754_infinity false => u32_max
  | _ => 0
  end.

#[global] Instance Q_round : NumRound Q := λ x, Z.max 0 (Z.min u32_max (Qfloor (x + (1 # 2))))%Q.

Section pressure.
Context {F : Type} `{Num F, NumRound F}.

(** A decimal literal with two digits. *)
Definition hundredths (n : Z) : F := n_div (n_of_Z n) (n_of_Z 100).

(** [f64::clamp] *)
Definition n_clamp (x lo hi : F) : F :=
  let x := if n_ltb x lo then lo else x in if n_ltb hi x then hi else x.

Definition rate_for_metadata_pressure (c : ResolvedCrawlConfig) (pressure : F) : Z :=
  let max := n_of_Z (cf_max_find_node_rate_per_sec c) in
  if n_ltb pressure (hundredths 80) then cf_max_find_node_rate_per_sec c
  else
    let floor := n_div (n_mul max (n_of_Z (cf_metadata_pressure_floor_percent c))) (n_of_Z 100) in
    if n_leb (hundredths 95) pressure then n_round_u32 floor
    else
      let progress := n_clamp (n_div (n_sub pressure (hundredths 80)) (hundredths 15)) n_zero (n_of_Z 1) in
      n_round_u32 (n_sub max (n_mul (n_sub max floor) progress)).

Definition metadata_pressure (queue_len max_queue_size : Z) : F :=
  if max_queue_size =? 0 then n_of_Z 1
  else n_min (n_div (n_of_Z queue_len) (n_of_Z max_queue_size)) (n_of_Z 1).
End pressure.

(** The unit tests of the crate, on binary64. *)
Definition ex_config : ResolvedCrawlConfig := from_options CrawlOptions_default.

Example pressure_tests :
  (λ n, rate_for_metadata_pressure ex_config (hundredths (F:=f64) n)) <$> [79; 80; 85; 90; 95; 100]
  = [200; 200; 150; 100; 50; 50].
Proof. vm_compute. reflexivity. Qed.

(** ** Over exact numbers *)

Local Open Scope Q_scope.

Lemma n_ltb_Q (x y : Q) : n_ltb x y = true ↔ x < y.
Proof.
  cbn. rewrite negb_true_iff, <-not_true_iff_false, Qle_bool_iff. split; intros; lra.
Qed.
Lemma n_leb_Q (x y : Q) : n_leb x y = true ↔ x <= y.
Proof. apply Qle_bool_iff. Qed.

Lemma round_mono (x y : Q) : x <= y → (n_round_u32 x ≤ n_round_u32 y)%Z.
Proof.
  intros Hxy. unfold n_round_u32, Q_round.
  assert (Qfloor (x + (1 # 2)) ≤ Qfloor (y + (1 # 2)))%Z by (apply Qfloor_resp_le; lra). lia.
Qed.

Lemma round_int (z : Z) : (0 ≤ z ≤ u32_max)%Z → n_round_u32 (inject_Z z) = z.
Proof.
  intros Hz. unfold n_round_u32, Q_round.
  assert (Qfloor (inject_Z z + (1 # 2)) = z) as ->; [|lia].
  assert (inject_Z z <= inject_Z z + (1 # 2)) as Hlo by lra.
  apply Qfloor_resp_le in Hlo. rewrite Qfloor_Z in Hlo.
  pose proof (Qfloor_le (inject_Z z + (1 # 2))) as Hf.
  assert (Qfloor (inject_Z z + (1 # 2)) < z + 1)%Z; [|lia].
  rewrite Zlt_Qlt, inject_Z_plus. change (inject_Z 1) with 1. lra.
Qed.

(** The value the code rounds, as a function of the exact pressure. *)
Definition floor_rate (c : ResolvedCrawlConfig) : Q :=
  inject_Z (cf_max_find_node_rate_per_sec c) * inject_Z (cf_metadata_pressure_floor_percent c)
  / inject_Z 100.

Definition ideal_rate (c : ResolvedCrawlConfig) (p : Q) : Q :=
  let mx := inject_Z (cf_max_find_node_rate_per_sec c) in
  let t := (p - (4 # 5)) / (3 # 20) in
  if Qle_bool p (4 # 5) then mx
  else if Qle_bool (19 # 20) p then floor_rate c
  else mx - (mx - floor_rate c) * t.

Definition rate_ok (c : ResolvedCrawlConfig) : Prop :=
  (0 ≤ cf_max_find_node_rate_per_sec c ≤ u32_max)%Z
  ∧ (0 ≤ cf_metadata_pressure_floor_percent c ≤ 100)%Z.

Lemma floor_rate_bounds c : rate_ok c → 0 <= floor_rate c <= inject_Z (cf_max_find_node_rate_per_sec c).
Proof.
  intros [Hm Hp]. unfold floor_rate.
  set (m := cf_max_find_node_rate_per_sec c) in *. set (p := cf_metadata_pressure_floor_percent c) in *.
  assert (0 <= inject_Z m) as Hm' by (change 0 with (inject_Z 0); rewrite <-Zle_Qle; lia).
  assert (0 <= inject_Z p) as Hp0 by (change 0 with (inject_Z 0); rewrite <-Zle_Qle; lia).
  assert (inject_Z p <= 100) as Hp1 by (change 100 with (inject_Z 100); rewrite <-Zle_Qle; lia).
  unfold Qdiv. change (/ inject_Z 100) with (1 # 100). split; nra.
Qed.

Lemma round_proper (x y : Q) : x == y → n_round_u32 x = n_round_u32 y.
Proof. intros Hxy. apply Z.le_antisymm; apply round_mono; rewrite Hxy; apply Qle_refl. Qed.

Lemma clamp_unit (x : Q) : 0 <= x <= 1 → n_clamp x n_zero (n_of_Z 1) == x.
Proof.
  intros Hx. unfold n_clamp. destruct (n_ltb x n_zero) eqn:E1.
  { apply n_ltb_Q in E1. change (n_zero (F:=Q)) with 0 in E1. lra. }
  destruct (n_ltb (n_of_Z 1) x) eqn:E2; [|reflexivity].
  apply n_ltb_Q in E2. change (n_of_Z (F:=Q) 1) with 1 in E2. lra.
Qed.

Lemma progress_unit (p : Q) :
  (4 # 5) <= p < (19 # 20) → 0 <= (p - (4 # 5)) / (3 # 20) <= 1.
Proof.
  intros Hp. unfold Qdiv. change (/ (3 # 20)) with (20 # 3). lra.
Qed.

Lemma rate_ideal c p : rate_ok c → rate_for_metadata_pressure c p = n_round_u32 (ideal_rate c p).
Proof.
  intros Hok. destruct (Hok) as [Hm _]. unfold rate_for_metadata_pressure, ideal_rate.
  assert (hundredths (F:=Q) 80 == 4 # 5) as H80 by reflexivity.
  assert (hundredths (F:=Q) 95 == 19 # 20) as H95 by reflexivity.
  assert (hundredths (F:=Q) 15 == 3 # 20) as H15 by reflexivity.
  destruct (n_ltb p (hundredths 80)) eqn:E80.
  { apply n_ltb_Q in E80. rewrite H80 in E80.
    assert (Qle_bool p (4 # 5) = true) as -> by (apply Qle_bool_iff; lra). by rewrite round_int. }
  assert ((4 # 5) <= p) as Hlo.
  { apply Qnot_lt_le. intros Hlt. rewrite <-H80, <-n_ltb_Q in Hlt. congruence. }
  destruct (n_leb (hundredths 95) p) eqn:E95.
  { apply n_leb_Q in E95. rewrite H95 in E95.
    destruct (Qle_bool p (4 # 5)) eqn:Eb; [apply Qle_bool_iff in Eb; lra|].
    by assert (Qle_bool (19 # 20) p = true) as -> by by apply Qle_bool_iff. }
  assert (p < (19 # 20)) as Hhi.
  { apply Qnot_le_lt. intros Hle. rewrite <-H95, <-n_leb_Q in Hle. congruence. }
  assert (Qle_bool (19 # 20) p = false) as ->.
  { destruct (Qle_bool (19 # 20) p) eqn:Eb; [apply Qle_bool_iff in Eb; lra|done]. }
  pose proof (progress_unit p (conj Hlo Hhi)) as Hu.
  assert (n_div (n_sub p (hundredths 80)) (hundredths (F:=Q) 15) == (p - (4 # 5)) / (3 # 20)) as Ht
    by (cbn [n_div n_sub Q_num]; by rewrite H80, H15).
  apply round_proper. cbn [n_sub n_mul n_div n_of_Z Q_num] in *. fold (floor_rate c).
  rewrite clamp_unit by by rewrite Ht. rewrite Ht.
  destruct (Qle_bool p (4 # 5)) eqn:Eb; [|reflexivity]. apply Qle_bool_iff in Eb.
  assert ((p - (4 # 5)) / (3 # 20) == 0) as -> by (assert (p == 4 # 5) as -> by lra; reflexivity). ring.
Qed.

Lemma qle_spec (x y : Q) : BoolSpec (x <= y) (y < x) (Qle_bool x y).
Proof.
  destruct (Qle_bool x y) eqn:E; constructor; [by apply Qle_bool_iff|].
  apply Qnot_le_lt. rewrite <-Qle_bool_iff. congruence.
Qed.

Lemma ideal_antitone c p q : rate_ok c → p <= q → ideal_rate c q <= ideal_rate c p.
Proof.
  intros Hok Hpq. destruct (floor_rate_bounds c Hok) as [H0 H1]. unfold ideal_rate.
  set (m := inject_Z _) in *. set (f := floor_rate c) in *.
  assert (∀ x, (4 # 5) <= x < (19 # 20) → f <= m - (m - f) * ((x - (4 # 5)) / (3 # 20)) <= m) as Hb.
  { intros x Hx%progress_unit. nra. }
  assert ((4 # 5) < p → q < (19 # 20) →
    m - (m - f) * ((q - (4 # 5)) / (3 # 20)) <= m - (m - f) * ((p - (4 # 5)) / (3 # 20))) as Hmid.
  { intros Hp Hq. unfold Qdiv. change (/ (3 # 20)) with (20 # 3). nra. }
  destruct (qle_spec p (4 # 5)), (qle_spec q (4 # 5)), (qle_spec (19 # 20) q),
    (qle_spec (19 # 20) p); try lra; try (by apply Hmid); apply Hb; lra.
Qed.

(** The crawl rate reacts to the metadata queue as intended (over exact
    numbers): the full rate below 80% pressure, the configured floor from
    95%, never outside the two, and never higher at higher pressure. *)
Theorem pressure_rate_antitone (c : ResolvedCrawlConfig) (p q : Q) :
  rate_ok c → p <= q →
  let rate := rate_for_metadata_pressure (F:=Q) c in
  (rate q ≤ rate p)%Z
  ∧ (n_round_u32 (floor_rate c) ≤ rate q ≤ cf_max_find_node_rate_per_sec c)%Z
  ∧ (p < (4 # 5) → rate p = cf_max_find_node_rate_per_sec c)
  ∧ ((19 # 20) <= q → rate q = n_round_u32 (floor_rate c)).
Proof.
  intros Hok Hpq. cbn zeta. destruct (floor_rate_bounds c Hok) as [H0 H1]. destruct (Hok) as [Hm _].
  rewrite !rate_ideal by done.
  assert (∀ x, x < (4 # 5) → n_round_u32 (ideal_rate c x) = cf_max_find_node_rate_per_sec c) as Hlow.
  { intros x Hx. unfold ideal_rate.
    assert (Qle_bool x (4 # 5) = true) as -> by (apply Qle_bool_iff; lra). by apply round_int. }
  assert (∀ x, (19 # 20) <= x → ideal_rate c x = floor_rate c) as Hhigh.
  { intros x Hx. unfold ideal_rate. destruct (Qle_bool x (4 # 5)) eqn:E; [apply Qle_bool_iff in E; lra|].
    by assert (Qle_bool (19 # 20) x = true) as -> by by apply Qle_bool_iff. }
  split_and!.
  - by apply round_mono, ideal_antitone.
  - apply round_mono. rewrite <-(Hhigh (Qmax q 1)) by (eapply Qle_trans; [|apply Q.le_max_r]; lra).
    apply ideal_antitone; [done|apply Q.le_max_l].
  - rewrite <-(Hlow (Qmin q 0)) by (eapply Qle_lt_trans; [apply Q.le_min_r|lra]).
    apply round_mono, ideal_antitone; [done|apply Q.le_min_l].
  - apply Hlow.
  - intros. by rewrite Hhigh.
Qed.

Lemma pressure_rate_antitone_witness :
  (rate_for_metadata_pressure (F:=Q) ex_config (9 # 10)
   ≤ rate_for_metadata_pressure (F:=Q) ex_config (17 # 20))%Z.
Proof.
  apply (pressure_rate_antitone ex_config (17 # 20) (9 # 10)); [|lra].
  split; vm_compute; split; discriminate.
Defined.
