(* ===== verification/Crawl.v ===== *)
(** * The crawl actor ([src/crawl_engine.rs])

    The actor that owns the candidate pool, the reservoir of responsive nodes,
    the in-flight [find_node] requests and the budgets, together with the
    engine's entry points.  Channels are bounded queues in the state: the
    engine's [try_send] drops on a full queue, the egress tasks and the
    resolver tasks are events.  The clock readings of one event are a function
    [clk]; [el] gives the measured durations of expiry passes and [rnd] the
    random choices of each request.  Publishing routing snapshots is not part
    of this file. *)

From S2P Require Import Prelude Net Float64 Budget Recent Pool Reservoir Types.
From S2P Require Import Bootstrap Pressure NodeId Krpc.

Local Open Scope Z_scope.

Module CrawlActor.

Definition SCHEDULE_INTERVAL : Duration := from_millis 5.
Definition MAX_POOL_SCAN_PER_SCHEDULE : nat := 256.

Definition recent_probe_capacity (c : ResolvedCrawlConfig) : nat :=
  let ttl := cf_recent_probe_ttl c `div` 1000000000 in
  let query_window := cf_max_find_node_rate_per_sec c * ttl + cf_burst c in
  let destination_window :=
    div_ceil (cf_max_new_destinations_per_minute c * ttl) 60
    + div_ceil (cf_max_new_destinations_per_minute c) 60 in
  let resident_window := destination_window + cf_responsive_capacity c + cf_max_in_flight c in
  let bootstrap_enabled :=
    (0 <? cf_bootstrap_max_nodes_per_round c) && (0 <? cf_low_watermark c) in
  let capacity := if bootstrap_enabled then query_window else Z.min query_window resident_window in
  Z.to_nat (Z.min (Z.max capacity 1) usize_max).

Record PendingKey := mkKey { k_addr : SocketAddr; k_tid : list Z }.
#[global] Instance PendingKey_eq_dec : EqDecision PendingKey.
Proof. solve_decision. Defined.
#[global] Instance PendingKey_countable : Countable PendingKey.
Proof.
  refine (inj_countable' (λ k, (k_addr k, k_tid k)) (λ x, mkKey x.1 x.2) _). by intros [].
Defined.

Inductive ProbePurpose := NewProbe | RevisitProbe | BootstrapProbe.
#[global] Instance ProbePurpose_eq_dec : EqDecision ProbePurpose.
Proof. solve_decision. Defined.

Record PendingRequest := mkPending {
  p_node : NodeTuple;
  purpose : ProbePurpose;
  dispatched_at : Instant;
  deadline : Instant;
  subnet : SubnetKey;
}.

Inductive PriorityEvent :=
  | Response (remote_addr : SocketAddr) (tid : list Z) (response : DhtResponse)
  | SendFailed (key : PendingKey)
  | BootstrapResolved (candidates : list SocketAddr).

Record OutboundRequest := mkOutbound {
  o_key : PendingKey;
  o_node : NodeTuple;
  o_target : list Z;
  o_sender_id : list Z;
}.

(** The counters of [ActorMetrics]; the metrics of an actor are the
    increments since the last flush. *)
Inductive ActorMetric :=
  | MAdmitted | MReplaced | MDuplicate | MAdmissionLimited | MInvalid
  | MQueriesNew | MQueriesRevisit | MQueriesBootstrap
  | MResponses | MTimeouts | MSendFailures | MUnmatched.

Definition record_admission (outcome : AdmissionOutcome) : ActorMetric :=
  match outcome with
  | AdmittedNew => MAdmitted
  | Replaced => MReplaced
  | Duplicate => MDuplicate
  | RateLimited => MAdmissionLimited
  | Invalid => MInvalid
  end.

Definition record_runtime_admission (outcome : AdmissionOutcome) : string * Z :=
  match outcome with
  | AdmittedNew => ("node_admitted", 1)
  | Replaced => ("node_replaced", 1)
  | Duplicate => ("node_dropped_duplicate", 1)
  | RateLimited => ("node_dropped_rate_limited", 1)
  | Invalid => ("node_dropped_invalid", 1)
  end.

(** The random choices of one request: the roll of [choose_target], the
    index of the sparse prefix, a random identifier and the random tail of a
    neighbour identifier. *)
Record Rand := mkRand { walk : Z; prefix : nat; ident : list Z; tail : nat → Z }.

Record CrawlActor := mk {
  config : ResolvedCrawlConfig;
  netmode : NetMode;
  local_id : list Z;
  priority_rx : list PriorityEvent;
  discovery_rx : list NodeTuple;
  egress_v4 : option (list OutboundRequest);
  egress_v6 : option (list OutboundRequest);
  pool : NodePool.NodePool;
  responsive : ResponsiveReservoir.ResponsiveReservoir;
  pending : gmap PendingKey PendingRequest;
  pending_expiry : list (Instant * PendingKey);
  subnet_in_flight : gmap SubnetKey nat;
  query_budget : RateBucket.RateBucket f64;
  destination_budget : RateBucket.RateBucket f64;
  bootstrap_gate : BootstrapGate.BootstrapGate;
  bootstrap_pool : BootstrapSourcePool.BootstrapSourcePool;
  bootstrap_queue : list SocketAddr;
  resolving : nat;
  node_count : nat;
  max_metadata_queue_size : Z;
  next_tid : Z;
  metrics : list ActorMetric;
  runtime_stats : list (string * Z);
}.

(** *** Field updates *)

Definition set_channels (s : CrawlActor) p d : CrawlActor :=
  mk (config s) (netmode s) (local_id s) p d (egress_v4 s) (egress_v6 s) (pool s) (responsive s)
     (pending s) (pending_expiry s) (subnet_in_flight s) (query_budget s) (destination_budget s)
     (bootstrap_gate s) (bootstrap_pool s) (bootstrap_queue s) (resolving s) (node_count s)
     (max_metadata_queue_size s) (next_tid s) (metrics s) (runtime_stats s).
Definition set_egress (s : CrawlActor) x4 x6 : CrawlActor :=
  mk (config s) (netmode s) (local_id s) (priority_rx s) (discovery_rx s) x4 x6 (pool s)
     (responsive s) (pending s) (pending_expiry s) (subnet_in_flight s) (query_budget s)
     (destination_budget s) (bootstrap_gate s) (bootstrap_pool s) (bootstrap_queue s)
     (resolving s) (node_count s) (max_metadata_queue_size s) (next_tid s) (metrics s)
     (runtime_stats s).
Definition set_pool (s : CrawlActor) p : CrawlActor :=
  mk (config s) (netmode s) (local_id s) (priority_rx s) (discovery_rx s) (egress_v4 s)
     (egress_v6 s) p (responsive s) (pending s) (pending_expiry s) (subnet_in_flight s)
     (query_budget s) (destination_budget s) (bootstrap_gate s) (bootstrap_pool s)
     (bootstrap_queue s) (resolving s) (node_count s) (max_metadata_queue_size s) (next_tid s)
     (metrics s) (runtime_stats s).
Definition set_responsive (s : CrawlActor) r : CrawlActor :=
  mk (config s) (netmode s) (local_id s) (priority_rx s) (discovery_rx s) (egress_v4 s)
     (egress_v6 s) (pool s) r (pending s) (pending_expiry s) (subnet_in_flight s) (query_budget s)
     (destination_budget s) (bootstrap_gate s) (bootstrap_pool s) (bootstrap_queue s)
     (resolving s) (node_count s) (max_metadata_queue_size s) (next_tid s) (metrics s)
     (runtime_stats s).
Definition set_flight (s : CrawlActor) p e n t : CrawlActor :=
  mk (config s) (netmode s) (local_id s) (priority_rx s) (discovery_rx s) (egress_v4 s)
     (egress_v6 s) (pool s) (responsive s) p e n (query_budget s) (destination_budget s)
     (bootstrap_gate s) (bootstrap_pool s) (bootstrap_queue s) (resolving s) (node_count s)
     (max_metadata_queue_size s) t (metrics s) (runtime_stats s).
Definition set_budgets (s : CrawlActor) q d : CrawlActor :=
  mk (config s) (netmode s) (local_id s) (priority_rx s) (discovery_rx s) (egress_v4 s)
     (egress_v6 s) (pool s) (responsive s) (pending s) (pending_expiry s) (subnet_in_flight s) q d
     (bootstrap_gate s) (bootstrap_pool s) (bootstrap_queue s) (resolving s) (node_count s)
     (max_metadata_queue_size s) (next_tid s) (metrics s) (runtime_stats s).
Definition set_bootstrap (s : CrawlActor) g p q n : CrawlActor :=
  mk (config s) (netmode s) (local_id s) (priority_rx s) (discovery_rx s) (egress_v4 s)
     (egress_v6 s) (pool s) (responsive s) (pending s) (pending_expiry s) (subnet_in_flight s)
     (query_budget s) (destination_budget s) g p q n (node_count s) (max_metadata_queue_size s)
     (next_tid s) (metrics s) (runtime_stats s).
Definition set_node_count (s : CrawlActor) n : CrawlActor :=
  mk (config s) (netmode s) (local_id s) (priority_rx s) (discovery_rx s) (egress_v4 s)
     (egress_v6 s) (pool s) (responsive s) (pending s) (pending_expiry s) (subnet_in_flight s)
     (query_budget s) (destination_budget s) (bootstrap_gate s) (bootstrap_pool s)
     (bootstrap_queue s) (resolving s) n (max_metadata_queue_size s) (next_tid s) (metrics s)
     (runtime_stats s).
Definition note (s : CrawlActor) ms st : CrawlActor :=
  mk (config s) (netmode s) (local_id s) (priority_rx s) (discovery_rx s) (egress_v4 s)
     (egress_v6 s) (pool s) (responsive s) (pending s) (pending_expiry s) (subnet_in_flight s)
     (query_budget s) (destination_budget s) (bootstrap_gate s) (bootstrap_pool s)
     (bootstrap_queue s) (resolving s) (node_count s) (max_metadata_queue_size s) (next_tid s)
     (metrics s ++ ms) (runtime_stats s ++ st).
Definition clear_metrics (s : CrawlActor)  : CrawlActor :=
  mk (config s) (netmode s) (local_id s) (priority_rx s) (discovery_rx s) (egress_v4 s)
     (egress_v6 s) (pool s) (responsive s) (pending s) (pending_expiry s) (subnet_in_flight s)
     (query_budget s) (destination_budget s) (bootstrap_gate s) (bootstrap_pool s)
     (bootstrap_queue s) (resolving s) (node_count s) (max_metadata_queue_size s) (next_tid s) []
     (runtime_stats s).


(** ** Start *)

Definition new (config : ResolvedCrawlConfig) (netmode : NetMode) (local_id : list Z)
    (has_v4 has_v6 : bool) (max_queue : Z) (now : Instant) : CrawlActor :=
  let destination_burst := Z.max (div_ceil (cf_max_new_destinations_per_minute config) 60) 1 in
  {| config := config; netmode := netmode; local_id := local_id;
     priority_rx := []; discovery_rx := [];
     egress_v4 := if has_v4 then Some [] else None;
     egress_v6 := if has_v6 then Some [] else None;
     pool := NodePool.new (Z.to_nat (cf_pool_capacity config)) (cf_max_replacements_per_minute config)
               (cf_recent_probe_ttl config) (recent_probe_capacity config) now;
     responsive := ResponsiveReservoir.new (Z.to_nat (cf_responsive_capacity config))
                     (cf_responsive_ttl config) (cf_revisit_interval config);
     pending := ∅; pending_expiry := []; subnet_in_flight := ∅;
     query_budget := RateBucket.per_second (cf_max_find_node_rate_per_sec config) (cf_burst config) false now;
     destination_budget :=
       RateBucket.per_minute (cf_max_new_destinations_per_minute config) destination_burst false now;
     bootstrap_gate := BootstrapGate.new;
     bootstrap_pool := BootstrapSourcePool.new (cf_bootstrap_nodes config)
                         (cf_bootstrap_backoff_base config) (cf_bootstrap_backoff_max config);
     bootstrap_queue := []; resolving := 0; node_count := 0;
     max_metadata_queue_size := max_queue; next_tid := 1; metrics := []; runtime_stats := [] |}.

(** ** Engine entry points: [try_send] on the bounded channels *)

Definition route_discovered (s : CrawlActor) (n : NodeTuple) : CrawlActor :=
  let room := Z.of_nat (length (discovery_rx s)) <? cf_discovery_event_channel_capacity (config s) in
  let s := if room then set_channels s (priority_rx s) (discovery_rx s ++ [n]) else s in
  let s := note s [] [("set_crawl_discovery_queue_depth", Z.of_nat (length (discovery_rx s)))] in
  if room then s else note s [] [("crawl_event_dropped_discovered", 1)].

Definition send_priority (s : CrawlActor) (ev : PriorityEvent) : bool * CrawlActor :=
  let room := Z.of_nat (length (priority_rx s)) <? cf_priority_event_channel_capacity (config s) in
  let s := if room then set_channels s (priority_rx s ++ [ev]) (discovery_rx s) else s in
  (room, note s [] [("set_crawl_priority_queue_depth", Z.of_nat (length (priority_rx s)))]).

Definition route_response (s : CrawlActor) (a : SocketAddr) (tid : list Z) (r : DhtResponse) : CrawlActor :=
  let '(ok, s) := send_priority s (Response a tid r) in
  if ok : bool then s else note s [] [("crawl_event_dropped_response", 1)].

(** One turn of an egress task: the head of its queue is sent or fails. *)
Definition egress_turn (s : CrawlActor) (ipv6 sent : bool) : CrawlActor :=
  match (if ipv6 then egress_v6 s else egress_v4 s) with
  | Some (r :: q) =>
      let s := if ipv6 then set_egress s (egress_v4 s) (Some q) else set_egress s (Some q) (egress_v6 s) in
      let bytes := encode_find_node_query [] (k_tid (o_key r)) (o_target r) (o_sender_id r) in
      if sent then note s [] [("udp_sent", Z.of_nat (length bytes))]
      else (send_priority s (SendFailed (o_key r))).2
  | _ => s
  end.

(** A resolver task hands in what it resolved. *)
Definition resolver_done (s : CrawlActor) (resolved : list SocketAddr) : CrawlActor :=
  match resolving s with
  | 0%nat => s
  | S n =>
      let s := set_bootstrap s (bootstrap_gate s) (bootstrap_pool s) (bootstrap_queue s) n in
      (send_priority s (BootstrapResolved resolved)).2
  end.

(** ** In-flight requests *)

Definition subnet_count (s : CrawlActor) (k : SubnetKey) : nat := default 0%nat (subnet_in_flight s !! k).

Definition release_pending (s : CrawlActor) (p : PendingRequest) : CrawlActor :=
  let counts :=
    match subnet_in_flight s !! subnet p with
    | Some count =>
        if bool_decide (count - 1 = 0)%nat then delete (subnet p) (subnet_in_flight s)
        else <[subnet p := (count - 1)%nat]> (subnet_in_flight s)
    | None => subnet_in_flight s
    end in
  note (set_flight s (pending s) (pending_expiry s) counts (next_tid s)) []
    [("set_find_node_in_flight", Z.of_nat (size (pending s)))].

Definition choose_target (s : CrawlActor) (rnd : Rand) : option (list Z) :=
  let total := Z.max (Z.min u8_max (cf_random_walk_percent (config s) + cf_sparse_bucket_percent (config s))) 1 in
  if walk rnd `mod` total <? cf_sparse_bucket_percent (config s) then
    let prefixes := ResponsiveReservoir.sparse_prefixes (responsive s) in
    let! p := prefixes !! (prefix rnd `mod` length prefixes)%nat in
    Some (NodeId.target_for_prefix p (ident rnd))
  else Some (NodeId.random_node_id (ident rnd)).

Definition egress_capacity (s : CrawlActor) : Z := Z.max (cf_max_in_flight (config s)) 1.

Section handlers.
Context (rnd : Z → Rand) (el : nat → Z).

Definition try_dispatch (s : CrawlActor) (n : NodeTuple) (why : ProbePurpose) (now : Instant)
  : option (bool * CrawlActor) :=
  if cf_max_in_flight (config s) <=? Z.of_nat (size (pending s)) then Some (false, s)
  else
    let! backing := ResponsiveReservoir.is_backing_off (responsive s) (addr n) now in
    if backing : bool then Some (false, s)
    else
      let sub := subnet_from_addr (addr n) in
      if cf_max_in_flight_per_subnet (config s) <=? Z.of_nat (subnet_count s sub) then Some (false, s)
      else
        match (if is_ipv4 (addr n) then egress_v4 s else egress_v6 s) with
        | None => Some (false, s)
        | Some q =>
            if egress_capacity s <=? Z.of_nat (length q) then Some (false, s)
            else
              let rnd := rnd (next_tid s) in
              let key := mkKey (addr n) (be8 (next_tid s)) in
              let d := now + cf_request_timeout (config s) in
              let s := set_flight s
                         (<[key := mkPending n why now d sub]> (pending s))
                         (pending_expiry s ++ [(d, key)])
                         (<[sub := S (subnet_count s sub)]> (subnet_in_flight s))
                         (Z.max (u64_wrapping_add (next_tid s) 1) 1) in
              let s := note s [] [("set_find_node_in_flight", Z.of_nat (size (pending s)))] in
              let! sender_id :=
                (if cf_neighbor_sender_id (config s) then
                   let generated := NodeId.neighbor_node_id (id n) (local_id s) (tail rnd) in
                   if bool_decide (length generated = 20%nat) then Some generated else None
                 else Some (local_id s)) in
              let! target := choose_target s rnd in
              let request := mkOutbound key n target sender_id in
              let s := if is_ipv4 (addr n)
                       then set_egress s (Some (q ++ [request])) (egress_v6 s)
                       else set_egress s (egress_v4 s) (Some (q ++ [request])) in
              let! r := ResponsiveReservoir.record_probe (responsive s) (addr n) now in
              Some (true, set_responsive s r)
        end.

(** ** Scheduling *)

Definition take_destination (s : CrawlActor) (now : Instant) : bool * CrawlActor :=
  let '(ok, b) := RateBucket.try_take_one (destination_budget s) now in
  (ok, set_budgets s (query_budget s) b).

Definition refund_destination (s : CrawlActor) : CrawlActor :=
  set_budgets s (query_budget s) (RateBucket.refund_one (destination_budget s)).

Definition contains_recent (s : CrawlActor) (a : SocketAddr) (now : Instant)
  : option (bool * CrawlActor) :=
  let! r := NodePool.contains_recent (pool s) a now (el 0) in
  Some (r.1, set_pool s r.2).

Definition defer_revisit (s : CrawlActor) (a : SocketAddr) (now : Instant) : option CrawlActor :=
  let! r := ResponsiveReservoir.defer_revisit (responsive s) a (now + SCHEDULE_INTERVAL) now in
  Some (set_responsive s r).

Definition record_probe (s : CrawlActor) (a : SocketAddr) (now : Instant) : option CrawlActor :=
  let! p := NodePool.record_probe (pool s) a now el in Some (set_pool s p).

Definition schedule_revisit (s : CrawlActor) (now : Instant) : option (bool * CrawlActor) :=
  let! r := ResponsiveReservoir.next_revisit (responsive s) now in
  let s := set_responsive s r.2 in
  match r.1 with
  | None => Some (false, s)
  | Some n =>
      let! c := contains_recent s (addr n) now in
      let '(was_recent, s) := c in
      let '(ok, s) := if was_recent : bool then (true, s) else take_destination s now in
      if negb ok then
        let! s := defer_revisit s (addr n) now in Some (false, s)
      else
        let! d := try_dispatch s n RevisitProbe now in
        let '(sent, s) := d in
        if sent : bool then
          let! s := record_probe s (addr n) now in
          Some (true, note s [MQueriesRevisit] [("query_revisit", 1)])
        else
          let s := if was_recent : bool then s else refund_destination s in
          let! s := defer_revisit s (addr n) now in
          Some (false, s)
  end.

(** The scan of the pool; [true] when a candidate was probed. *)
Fixpoint scan_loop (n : nat) (s : CrawlActor) (now : Instant) : option (bool * CrawlActor) :=
  match n with
  | 0%nat => Some (false, s)
  | S n =>
      match NodePool.front (pool s) with
      | None => Some (false, s)
      | Some candidate =>
          let sub := subnet_from_addr (addr candidate) in
          let! skip :=
            (if cf_max_in_flight_per_subnet (config s) <=? Z.of_nat (subnet_count s sub) then Some true
             else ResponsiveReservoir.is_backing_off (responsive s) (addr candidate) now) in
          if skip : bool then scan_loop n (set_pool s (NodePool.rotate_front_to_back (pool s)).2) now
          else
            let '(ok, s) := take_destination s now in
            if negb ok then Some (false, s)
            else
              let! t := NodePool.take_front_for_probe (pool s) now el in
              let! probed := t.1 in
              let s := set_pool s t.2 in
              let! d := try_dispatch s probed NewProbe now in
              let '(sent, s) := d in
              if sent : bool then Some (true, note s [MQueriesNew] [("query_new", 1)])
              else
                let! p := NodePool.restore_front (pool s) probed now in
                Some (false, refund_destination (set_pool s p))
      end
  end.

Definition scan_pool (s : CrawlActor) (now : Instant) : option (bool * CrawlActor) :=
  let! r := scan_loop (Nat.min (NodePool.len (pool s)) MAX_POOL_SCAN_PER_SCHEDULE) s now in
  if r.1 : bool then Some r else schedule_revisit r.2 now.

Definition schedule_one (s : CrawlActor) (now : Instant) : option (bool * CrawlActor) :=
  match (if Z.of_nat (NodePool.len (pool s)) <? cf_low_watermark (config s)
         then head (bootstrap_queue s) else None) with
  | None => scan_pool s now
  | Some a =>
      let! c := contains_recent s a now in
      let '(recent, s) := c in
      let is_new := negb recent in
      let '(ok, s) := if is_new then take_destination s now else (true, s) in
      if negb ok then schedule_revisit s now
      else
        let! d := try_dispatch s (mkNode (local_id s) a) BootstrapProbe now in
        let '(sent, s) := d in
        if sent : bool then
          let s := set_bootstrap s (bootstrap_gate s) (bootstrap_pool s) (drop 1 (bootstrap_queue s))
                     (resolving s) in
          let! s := record_probe s a now in
          let s := set_bootstrap s (bootstrap_gate s)
                     (BootstrapSourcePool.mark_attempt (bootstrap_pool s) a now)
                     (bootstrap_queue s) (resolving s) in
          Some (true, note s [MQueriesBootstrap] [("query_bootstrap", 1)])
        else scan_pool (if is_new then refund_destination s else s) now
  end.

(** [for scheduled in 0..budget]; [n] is [budget - scheduled]. *)
Fixpoint schedule_loop (n : nat) (s : CrawlActor) (now : Instant) : option CrawlActor :=
  let refund s := set_budgets s (RateBucket.refund (query_budget s) (Z.of_nat n)) (destination_budget s) in
  match n with
  | 0%nat => Some s
  | S n' =>
      if cf_max_in_flight (config s) <=? Z.of_nat (size (pending s)) then Some (refund s)
      else
        let! r := schedule_one s now in
        if r.1 : bool then schedule_loop n' r.2 now else Some (refund r.2)
  end.

(** A probe that timed out or could not be sent. *)
Definition probe_failed (s : CrawlActor) (p : PendingRequest) (m : ActorMetric) (st : string)
    (now : Instant) : option CrawlActor :=
  let s := note (release_pending s p) [m] [(st, 1)] in
  let! r := ResponsiveReservoir.record_failure (responsive s) (addr (p_node p)) (dispatched_at p) now in
  let s := set_responsive s r.2 in
  let s := if r.1 : bool then note s [] [("responsive_probe_backoff", 1)] else s in
  Some (if bool_decide (purpose p = BootstrapProbe)
        then set_bootstrap s (bootstrap_gate s)
               (BootstrapSourcePool.mark_timeout (bootstrap_pool s) (addr (p_node p)) now)
               (bootstrap_queue s) (resolving s)
        else s).

Definition forget (s : CrawlActor) (key : PendingKey) : CrawlActor :=
  set_flight s (delete key (pending s)) (pending_expiry s) (subnet_in_flight s) (next_tid s).

Fixpoint expire_loop (q : list (Instant * PendingKey)) (s : CrawlActor) (now : Instant)
  : option CrawlActor :=
  match q with
  | [] => Some s
  | (d, key) :: q' =>
      if now <? d then Some s
      else
        let s := set_flight s (pending s) q' (subnet_in_flight s) (next_tid s) in
        match pending s !! key with
        | Some p =>
            if bool_decide (deadline p = d) then
              let! s := probe_failed (forget s key) p MTimeouts "timeout" now in expire_loop q' s now
            else expire_loop q' s now
        | None => expire_loop q' s now
        end
  end.

Definition expire_pending (s : CrawlActor) (now : Instant) : option CrawlActor :=
  expire_loop (pending_expiry s) s now.

Definition maybe_resolve_bootstrap (s : CrawlActor) (now : Instant) : CrawlActor :=
  if negb (bool_decide (bootstrap_queue s = [])) then s
  else
    let '(ok, g) := BootstrapGate.should_bootstrap (bootstrap_gate s)
                      (Z.of_nat (NodePool.len (pool s))) (config s) now in
    set_bootstrap s g (bootstrap_pool s) (bootstrap_queue s)
      (if ok : bool then S (resolving s) else resolving s).

Definition sync_node_count (s : CrawlActor) : CrawlActor :=
  note (set_node_count s (NodePool.len (pool s))) []
    [("set_node_pool_size", Z.of_nat (NodePool.len (pool s)))].

Definition on_schedule_tick (s : CrawlActor) (metadata_queue_len : Z) (now : Instant)
  : option CrawlActor :=
  let! s := expire_pending s now in
  let s := maybe_resolve_bootstrap s now in
  let rate := rate_for_metadata_pressure (config s)
                (metadata_pressure (F:=f64) metadata_queue_len (max_metadata_queue_size s)) in
  let s := note s [] [("set_find_node_effective_rate", rate)] in
  let b := RateBucket.set_per_second_rate (query_budget s) rate now in
  let '(budget, b) := RateBucket.try_take b (cf_burst (config s)) now in
  let! s := schedule_loop (Z.to_nat budget) (set_budgets s b (destination_budget s)) now in
  Some (sync_node_count s).

(** ** Events *)

Definition count_admission (outcome : AdmissionOutcome) (s : CrawlActor) : CrawlActor :=
  note s [record_admission outcome] [record_runtime_admission outcome].

Definition admit_one (s : CrawlActor) (n : NodeTuple) (now : Instant) : option CrawlActor :=
  let! r := NodePool.admit_node (pool s) n now (el 0) in
  Some (count_admission r.1 (set_pool s r.2)).

(** The actor's [admit]. *)
Definition accept_node (s : CrawlActor) (n : NodeTuple) (now : Instant) : option CrawlActor :=
  let! s := admit_one s n now in Some (sync_node_count s).

Definition handle_response (s : CrawlActor) (remote_addr : SocketAddr) (tid : list Z)
    (response : DhtResponse) (now : Instant) : option CrawlActor :=
  let key := mkKey remote_addr tid in
  match pending s !! key with
  | None => Some (note s [MUnmatched] [("unmatched_response", 1)])
  | Some p =>
      let s := note (release_pending (forget s key) p) [MResponses] [("response", 1)] in
      let s := if bool_decide (purpose p = BootstrapProbe)
               then set_bootstrap s (bootstrap_gate s)
                      (BootstrapSourcePool.mark_success (bootstrap_pool s) remote_addr now)
                      (bootstrap_queue s) (resolving s)
               else s in
      let node :=
        match r_id response with
        | Some i => if bool_decide (length i = 20%nat) then mkNode i (addr (p_node p)) else p_node p
        | None => p_node p
        end in
      let! r := ResponsiveReservoir.record (responsive s) node now (dispatched_at p) in
      let s := set_responsive s r in
      let! s := (for_each_response_node
                   (λ o n, match o with Some s => admit_one s n now | None => None end)
                   response (netmode s) (Some s)).2 in
      Some (sync_node_count s)
  end.

Definition handle_priority (s : CrawlActor) (ev : PriorityEvent) (now : Instant) : option CrawlActor :=
  match ev with
  | Response a tid r => handle_response s a tid r now
  | SendFailed key =>
      match pending s !! key with
      | Some p => probe_failed (forget s key) p MSendFailures "send_failure" now
      | None => Some s
      end
  | BootstrapResolved candidates =>
      let '(selected, p) :=
        BootstrapSourcePool.select (bootstrap_pool s) candidates
          (Z.to_nat (cf_bootstrap_max_nodes_per_round (config s))) now in
      Some (set_bootstrap s (bootstrap_gate s) p (bootstrap_queue s ++ selected) (resolving s))
  end.

(** [recv] / [try_recv] of each channel, with its handler. *)
Definition recv_priority (s : CrawlActor) (now : Instant) : option (option CrawlActor) :=
  match priority_rx s with
  | [] => None
  | ev :: q =>
      let s := set_channels s q (discovery_rx s) in
      let s := note s [] [("set_crawl_priority_queue_depth", Z.of_nat (length q))] in
      Some (handle_priority s ev now)
  end.

Definition recv_discovery (s : CrawlActor) (now : Instant) : option (option CrawlActor) :=
  match discovery_rx s with
  | [] => None
  | n :: q =>
      let s := set_channels s (priority_rx s) q in
      let s := note s [] [("set_crawl_discovery_queue_depth", Z.of_nat (length q))] in
      Some (accept_node s n now)
  end.

(** The batch loop: the event counted as [events] reads the clock as
    [clk events]. *)
Fixpoint drain_loop (fuel : nat) (events nodes : Z) (s : CrawlActor) (clk : nat → Instant)
  : option CrawlActor :=
  match fuel with
  | 0%nat => None
  | S fuel' =>
      let now := clk (Z.to_nat events) in
      if (events <? cf_event_batch_limit (config s)) && (nodes <? cf_node_batch_limit (config s)) then
        match (if events `mod` 8 =? 0 then recv_discovery s now else None) with
        | Some r => let! s := r in drain_loop fuel' (events + 1) (nodes + 1) s clk
        | None =>
            match recv_priority s now with
            | Some r => let! s := r in drain_loop fuel' (events + 1) nodes s clk
            | None =>
                match recv_discovery s now with
                | Some r => let! s := r in drain_loop fuel' (events + 1) (nodes + 1) s clk
                | None => Some s
                end
            end
        end
      else Some s
  end.

(** Out of fuel is [None]: that it never happens is part of the theorems. *)
Definition drain_events (s : CrawlActor) (clk : nat → Instant) : option CrawlActor :=
  drain_loop (S (Z.to_nat (cf_event_batch_limit (config s)))) 1 0 s clk.

Definition flush_metrics (s : CrawlActor) : CrawlActor :=
  let '(entries, capacity, expiry) := NodePool.recent_state (pool s) in
  let s := note s [] [("set_crawl_recent_probe_entries", Z.of_nat entries);
                      ("set_crawl_recent_probe_capacity", Z.of_nat capacity);
                      ("set_crawl_recent_expiry_entries", Z.of_nat expiry)] in
  let '((expired, micros, calls), p) := NodePool.take_recent_expiry_stats (pool s) in
  let s := note (set_pool s p) [] [("crawl_recent_expired", Z.of_nat expired);
                                   ("crawl_recent_expiry_micros", micros);
                                   ("crawl_recent_expiry_calls", calls)] in
  clear_metrics s.
End handlers.

(** The arms of the actor's [select!] and the tasks around it. *)
Inductive event :=
  | ScheduleTick (metadata_queue_len : Z)
  | MetricsTick
  | RecvPriority
  | RecvDiscovery
  | RouteDiscovered (n : NodeTuple)
  | RouteResponse (a : SocketAddr) (tid : list Z) (r : DhtResponse)
  | EgressTurn (ipv6 sent : bool)
  | ResolverDone (resolved : list SocketAddr).

Definition handle_event (s : CrawlActor) (ev : event) (rnd : Z → Rand) (el : nat → Z)
    (now : Instant) (clk : nat → Instant) : option CrawlActor :=
  match ev with
  | ScheduleTick q => on_schedule_tick rnd el s q now
  | MetricsTick => Some (flush_metrics s)
  | RecvPriority =>
      match recv_priority el s now with
      | Some r => let! s := r in drain_events el s clk
      | None => Some s
      end
  | RecvDiscovery =>
      match recv_discovery el s now with
      | Some r => let! s := r in drain_events el s clk
      | None => Some s
      end
  | RouteDiscovered n => Some (route_discovered s n)
  | RouteResponse a tid r => Some (route_response s a tid r)
  | EgressTurn ipv6 sent => Some (egress_turn s ipv6 sent)
  | ResolverDone l => Some (resolver_done s l)
  end.

(** ** Invariant *)

(** How many requests in flight go to subnet [k]. *)
Abbreviation in_subnet := (count_by subnet).

Definition nonzero (n : nat) : option nat := if bool_decide (n = 0%nat) then None else Some n.

(** A request in flight is filed under its own address, counts for that
    address's subnet, will be found by the expiry queue, and has an
    identifier of its own. *)
Definition entry_ok (s : CrawlActor) (key : PendingKey) (p : PendingRequest) : Prop :=
  subnet p = subnet_from_addr (k_addr key) ∧ addr (p_node p) = k_addr key
  ∧ deadline p = dispatched_at p + cf_request_timeout (config s)
  ∧ (deadline p, key) ∈ pending_expiry s
  ∧ ∃ n, 1 ≤ n < next_tid s ∧ k_tid key = be8 n.

Definition flight_ok (t : Instant) (s : CrawlActor) : Prop :=
  (∀ k, subnet_in_flight s !! k = nonzero (in_subnet (pending s) k))
  ∧ (∀ k, Z.of_nat (in_subnet (pending s) k) ≤ cf_max_in_flight_per_subnet (config s))
  ∧ Z.of_nat (size (pending s)) ≤ cf_max_in_flight (config s)
  ∧ (∀ key p, pending s !! key = Some p → entry_ok s key p)
  ∧ Sorted.StronglySorted (λ x y : Instant * PendingKey, x.1 ≤ y.1) (pending_expiry s)
  ∧ Forall (λ x : Instant * PendingKey, x.1 ≤ t + cf_request_timeout (config s)) (pending_expiry s)
  ∧ 1 ≤ next_tid s.

Definition pool_ok (t : Instant) (s : CrawlActor) : Prop :=
  NodePool.wf (pool s) ∧ NodePool.clock_le (pool s) t.

Definition reservoir_ok (t : Instant) (s : CrawlActor) : Prop :=
  ResponsiveReservoir.wf (responsive s) ∧ ResponsiveReservoir.timely (responsive s) t
  ∧ ResponsiveReservoir.sparse_prefixes (responsive s) ≠ [].

Definition within {A} (cap : Z) (q : option (list A)) : Prop :=
  match q with Some l => Z.of_nat (length l) ≤ cap | None => True end.

Definition queues_ok (s : CrawlActor) : Prop :=
  within (egress_capacity s) (egress_v4 s) ∧ within (egress_capacity s) (egress_v6 s)
  ∧ Z.of_nat (length (priority_rx s)) ≤ cf_priority_event_channel_capacity (config s)
  ∧ Z.of_nat (length (discovery_rx s)) ≤ cf_discovery_event_channel_capacity (config s).

Definition actor_ok (t : Instant) (s : CrawlActor) : Prop :=
  pool_ok t s ∧ reservoir_ok t s ∧ flight_ok t s ∧ queues_ok s.

(** *** The in-flight table *)

Lemma subnet_count_ok t s k : flight_ok t s → subnet_count s k = in_subnet (pending s) k.
Proof.
  intros (Hc & _). unfold subnet_count. rewrite Hc. unfold nonzero. by case_bool_decide.
Qed.

(** Dropping a request releases its subnet slot, whatever part of the expiry
    queue is popped with it. *)
Lemma flight_drop t s key p q :
  flight_ok t s → pending s !! key = Some p → q `suffix_of` pending_expiry s →
  (∀ key' p', pending s !! key' = Some p' → key' ≠ key → (deadline p', key') ∈ q) →
  flight_ok t (release_pending
    (set_flight s (delete key (pending s)) q (subnet_in_flight s) (next_tid s)) p).
Proof.
  intros (Hc & Hlim & Hsz & He & Hs & Hf & Hn) Hp Hsuf Hq. split_and!; simpl.
  - intros k. pose proof (count_by_delete subnet _ _ _ k Hp) as Hd. rewrite Hc.
    pose proof (count_by_delete subnet _ _ _ (subnet p) Hp) as Hd'. rewrite bool_decide_true in Hd' by done.
    unfold nonzero at 1. rewrite bool_decide_false by lia. rewrite Hd'.
    replace (in_subnet (delete key (pending s)) (subnet p) + 1 - 1)%nat
      with (in_subnet (delete key (pending s)) (subnet p)) by lia.
    destruct (decide (subnet p = k)) as [<-|Hne].
    + unfold nonzero. clear Hd Hd'. case_bool_decide; [apply lookup_delete_eq|apply lookup_insert_eq].
    + rewrite bool_decide_false in Hd by done. rewrite Nat.add_0_r in Hd. rewrite <-Hd, <-Hc. clear Hd Hd'.
      case_bool_decide; [by apply lookup_delete_ne|by apply lookup_insert_ne].
  - intros k. pose proof (count_by_delete subnet _ _ _ k Hp). specialize (Hlim k). lia.
  - rewrite map_size_delete_Some by eauto. lia.
  - intros key' p' [Hne Hp']%lookup_delete_Some. destruct (He _ _ Hp') as (? & ? & ? & _ & ?).
    split_and!; try done. by apply Hq.
  - by eapply StronglySorted_suffix.
  - destruct Hsuf as [l Hl]. rewrite Hl in Hf. by apply Forall_app in Hf as [_ ?].
  - done.
Qed.

Lemma flight_release t s key p :
  flight_ok t s → pending s !! key = Some p → flight_ok t (release_pending (forget s key) p).
Proof.
  intros Hok Hp. apply (flight_drop t s key p (pending_expiry s)); [done..|].
  intros key' p' Hp' _. by apply Hok in Hp' as (_ & _ & _ & ? & _).
Qed.

(** A new request has a fresh identifier as long as the counter has not
    wrapped. *)
Lemma flight_insert t s n why :
  let sub := subnet_from_addr (addr n) in
  let key := mkKey (addr n) (be8 (next_tid s)) in
  let d := t + cf_request_timeout (config s) in
  flight_ok t s → Z.of_nat (size (pending s)) < cf_max_in_flight (config s) →
  Z.of_nat (subnet_count s sub) < cf_max_in_flight_per_subnet (config s) →
  next_tid s < u64_max →
  pending s !! key = None
  ∧ Z.max (u64_wrapping_add (next_tid s) 1) 1 = next_tid s + 1
  ∧ flight_ok t (set_flight s (<[key := mkPending n why t d sub]> (pending s))
                  (pending_expiry s ++ [(d, key)])
                  (<[sub := S (subnet_count s sub)]> (subnet_in_flight s))
                  (Z.max (u64_wrapping_add (next_tid s) 1) 1)).
Proof.
  intros sub key d Hok Hsz Hsub Htid. pose proof Hok as (Hc & Hlim & _ & He & Hs & Hf & Hn).
  assert (pending s !! key = None) as Hnew.
  { destruct (pending s !! key) as [p|] eqn:Hp; [|done].
    destruct (He _ _ Hp) as (_ & _ & _ & _ & m & Hm & Hb). apply be8_inj in Hb; lia. }
  assert (Z.max (u64_wrapping_add (next_tid s) 1) 1 = next_tid s + 1) as Hnext.
  { rewrite u64_wrapping_add_small; lia. }
  rewrite (subnet_count_ok t) in * by done.
  split; [done|]. split; [done|]. rewrite Hnext. split_and!; simpl.
  - intros k. rewrite count_by_insert by done. simpl.
    case_bool_decide as Hk.
    + subst k. rewrite lookup_insert_eq. unfold nonzero. rewrite bool_decide_false by lia. f_equal. lia.
    + rewrite lookup_insert_ne by done. rewrite Hc. by rewrite Nat.add_0_r.
  - intros k. rewrite count_by_insert by done. simpl. specialize (Hlim k).
    case_bool_decide; [subst k|]; lia.
  - rewrite map_size_insert_None by done. lia.
  - intros key' p' [[<- <-]|[Hne Hp']]%lookup_insert_Some.
    + split_and!; simpl; try done; [set_solver|]. exists (next_tid s). split; [simpl; lia|done].
    + destruct (He _ _ Hp') as (? & ? & ? & ? & m & ? & ?). split_and!; simpl; try done; [set_solver|].
      exists m. split; [simpl; lia|done].
  - by apply StronglySorted_snoc.
  - apply Forall_app. split; [done|]. by repeat constructor.
  - lia.
Qed.


(** *** One scheduling step

    [sched_step t b s s']: the invariant holds again, and exactly one request
    was added when [b], none otherwise.  Requests in flight stay. *)

Definition sched_step (t : Instant) (b : bool) (s s' : CrawlActor) : Prop :=
  actor_ok t s' ∧ config s' = config s ∧ query_budget s' = query_budget s
  ∧ next_tid s' = next_tid s + Z.b2z b ∧ pending s ⊆ pending s'
  ∧ size (pending s') = (size (pending s) + Nat.b2n b)%nat.

(** What the bookkeeping around a request never touches. *)
Definition core (s : CrawlActor) :=
  (config s, (priority_rx s, discovery_rx s, egress_v4 s, egress_v6 s),
   (pending s, pending_expiry s, subnet_in_flight s, next_tid s)).

Lemma core_ok t s s' :
  core s' = core s → actor_ok t s → pool_ok t s' → reservoir_ok t s' → actor_ok t s'.
Proof.
  unfold core. intros [= Hc Hp Hd H4 H6 Hm He Hn Ht] (_ & _ & Hf & Hq) Hpool Hres. split_and!; [done..| |].
  - unfold flight_ok, entry_ok in *. by rewrite Hc, Hm, He, Hn, Ht.
  - unfold queues_ok, egress_capacity in *. by rewrite Hc, Hp, Hd, H4, H6.
Qed.

Lemma core_step t s s' :
  core s' = core s → query_budget s' = query_budget s → actor_ok t s → pool_ok t s' →
  reservoir_ok t s' → sched_step t false s s'.
Proof.
  intros Hcore Hb Hok Hp Hr. pose proof Hcore as [= Hc _ _ _ _ Hm _ _ Ht].
  split_and!; [by eapply core_ok|done|done|rewrite Ht; simpl; lia|by rewrite Hm|rewrite Hm; simpl; lia].
Qed.

Lemma sched_step_refl t s : actor_ok t s → sched_step t false s s.
Proof. intros Hok. apply core_step; try done; apply Hok. Qed.

Lemma sched_step_trans t b1 b2 s1 s2 s3 :
  sched_step t b1 s1 s2 → sched_step t b2 s2 s3 → b1 && b2 = false →
  sched_step t (b1 || b2) s1 s3.
Proof.
  intros (_ & Hc & Hb & Ht & Hm & Hs) (Hok & Hc' & Hb' & Ht' & Hm' & Hs') Hx.
  split_and!; [done|congruence|congruence| |by etrans|];
    destruct b1, b2; simpl in *; (done || lia).
Qed.

Lemma sched_then t b s1 s2 s3 :
  sched_step t false s1 s2 → sched_step t b s2 s3 → sched_step t b s1 s3.
Proof. intros H1 H2. by apply (sched_step_trans _ _ _ _ _ _ H1 H2). Qed.

Lemma then_sched t b s1 s2 s3 :
  sched_step t b s1 s2 → sched_step t false s2 s3 → sched_step t b s1 s3.
Proof.
  intros H1 H2. pose proof (sched_step_trans _ _ _ _ _ _ H1 H2) as H3.
  rewrite andb_false_r, orb_false_r in H3. auto.
Qed.

Lemma sched_ok t b s s' : sched_step t b s s' → actor_ok t s'.
Proof. by intros [? _]. Qed.

Lemma sched_tid t b s s' : sched_step t b s s' → next_tid s' = next_tid s + Z.b2z b.
Proof. by intros (_ & _ & _ & ? & _). Qed.

(** The reservoir's own lemmas give the actor's clause. *)
Lemma reservoir_step t s r :
  reservoir_ok t s → ResponsiveReservoir.wf r → ResponsiveReservoir.timely r t →
  ResponsiveReservoir.snapshot_state r = ResponsiveReservoir.snapshot_state (responsive s) →
  reservoir_ok t (set_responsive s r).
Proof.
  intros (_ & _ & Hs) Hw Ht [= _ _ Hsp _]. split_and!; simpl; [done..|]. by rewrite Hsp.
Qed.

Lemma is_backing_off_total r a now :
  ResponsiveReservoir.wf r → is_Some (ResponsiveReservoir.is_backing_off r a now).
Proof.
  intros (_ & _ & Hix & _). unfold ResponsiveReservoir.is_backing_off.
  destruct (ResponsiveReservoir.index r !! a) as [i|] eqn:Hi; [|done].
  destruct (ResponsiveReservoir.index_entry _ _ _ Hix Hi) as (e & He & _).
  unfold ResponsiveReservoir.slot_entry in He. by destruct (ResponsiveReservoir.slots r !! i).
Qed.

Lemma choose_target_total t s rnd : reservoir_ok t s → is_Some (choose_target s rnd).
Proof.
  intros (_ & _ & Hs). unfold choose_target. destruct (_ <? _); [|done].
  set (l := ResponsiveReservoir.sparse_prefixes (responsive s)) in *.
  assert (length l ≠ 0%nat) by (by destruct l).
  destruct (lookup_lt_is_Some_2 l (prefix rnd `mod` length l)) as [x ->]; [|done].
  by apply Nat.mod_upper_bound.
Qed.

Section steps.
Context (rnd : Z → Rand) (el : nat → Z).

Lemma contains_recent_ok t s a :
  actor_ok t s →
  ∃ b s', contains_recent el s a t = Some (b, s') ∧ sched_step t false s s'
    ∧ destination_budget s' = destination_budget s ∧ bootstrap_queue s' = bootstrap_queue s.
Proof.
  intros Hok. pose proof Hok as ([Hwf Hcl] & Hr & _). unfold contains_recent, NodePool.contains_recent.
  destruct (NodePool.pool_exec_wf (pool s) (NodePool.Query a) t el Hwf Hcl) as (p & Hp & Hwf' & Hcl').
  simpl in Hp. unfold NodePool.contains_recent in Hp.
  destruct (NodePool.expire_recent (pool s) t (el 0%nat)) as [p'|]; [|done]. simplify_eq/=.
  eexists _, _. split; [done|]. split_and!; [|done..]. by apply core_step.
Qed.

Lemma actor_record_probe_ok t s a :
  actor_ok t s → ∃ s', record_probe el s a t = Some s' ∧ sched_step t false s s'.
Proof.
  intros Hok. pose proof Hok as ([Hwf Hcl] & Hr & _). unfold record_probe.
  destruct (NodePool.record_probe_wf (pool s) a t el Hwf Hcl) as (p & -> & ? & ? & _).
  eexists. split; [done|]. by apply core_step.
Qed.

Lemma actor_defer_ok t s a :
  actor_ok t s → ∃ s', defer_revisit s a t = Some s' ∧ sched_step t false s s'.
Proof.
  intros Hok. pose proof Hok as (Hp & Hr & _). pose proof Hr as (Hwf & Ht & _). unfold defer_revisit.
  destruct (ResponsiveReservoir.defer_ok (responsive s) a (t + SCHEDULE_INTERVAL) t Hwf Ht)
    as (r & -> & ? & ? & Hrest). eexists. split; [done|]. apply core_step; try done.
  apply reservoir_step; try done. by apply ResponsiveReservoir.rest_snapshot.
Qed.

Lemma take_destination_ok t s now : actor_ok t s → sched_step t false s (take_destination s now).2.
Proof.
  intros Hok. unfold take_destination. destruct (RateBucket.try_take_one _ _).
  apply core_step; try done; apply Hok.
Qed.

Lemma refund_destination_ok t s : actor_ok t s → sched_step t false s (refund_destination s).
Proof. intros Hok. apply core_step; try done; apply Hok. Qed.

Lemma note_ok t s ms st : actor_ok t s → sched_step t false s (note s ms st).
Proof. intros Hok. apply core_step; try done; apply Hok. Qed.

Lemma set_bootstrap_ok t s g p q n : actor_ok t s → sched_step t false s (set_bootstrap s g p q n).
Proof. intros Hok. apply core_step; try done; apply Hok. Qed.

Lemma egress_push_ok s n q r :
  queues_ok s → (if is_ipv4 (addr n) then egress_v4 s else egress_v6 s) = Some q →
  Z.of_nat (length q) < egress_capacity s →
  queues_ok (if is_ipv4 (addr n) then set_egress s (Some (q ++ [r])) (egress_v6 s)
             else set_egress s (egress_v4 s) (Some (q ++ [r]))).
Proof.
  intros (H4 & H6 & Hp & Hd) Hq Hlen.
  destruct (is_ipv4 (addr n)); (split_and!; try done); simpl; rewrite length_app; simpl;
    unfold egress_capacity in *; simpl; lia.
Qed.

(** A probe leaves the pool, the budgets and the bootstrap queue alone. *)
Definition side (s : CrawlActor) :=
  (pool s, destination_budget s, bootstrap_queue s, bootstrap_pool s, bootstrap_gate s, local_id s).

Lemma try_dispatch_ok t s n why :
  actor_ok t s → next_tid s < u64_max →
  ∃ b s', try_dispatch rnd s n why t = Some (b, s') ∧ sched_step t b s s' ∧ side s' = side s
    ∧ (b = false → s' = s).
Proof.
  intros Hok Htid. pose proof Hok as (Hp & Hr & Hf & Hq). unfold try_dispatch.
  destruct (Z.leb_spec (cf_max_in_flight (config s)) (Z.of_nat (size (pending s)))) as [|Hsz].
  { exists false, s. split_and!; try done. by apply sched_step_refl. }
  destruct (is_backing_off_total (responsive s) (addr n) t) as [b ->]; [apply Hr|].
  destruct b. { exists false, s. split_and!; try done. by apply sched_step_refl. }
  set (sub := subnet_from_addr (addr n)).
  destruct (Z.leb_spec (cf_max_in_flight_per_subnet (config s)) (Z.of_nat (subnet_count s sub)))
    as [|Hsub]. { exists false, s. split_and!; try done. by apply sched_step_refl. }
  destruct (if is_ipv4 (addr n) then egress_v4 s else egress_v6 s) as [q|] eqn:Hqe.
  2:{ exists false, s. split_and!; try done. by apply sched_step_refl. }
  destruct (Z.leb_spec (egress_capacity s) (Z.of_nat (length q))) as [|Hlen].
  { exists false, s. split_and!; try done. by apply sched_step_refl. }
  destruct (flight_insert t s n why Hf Hsz Hsub Htid) as (Hnew & Hnext & Hf1). fold sub in Hf1, Hnew.
  set (key := mkKey (addr n) (be8 (next_tid s))) in *.
  set (d := t + cf_request_timeout (config s)) in *. cbn zeta.
  set (s1 := note (set_flight s _ _ _ _) _ _).
  assert (∃ sid, (if cf_neighbor_sender_id (config s1) then
     if bool_decide (length (NodeId.neighbor_node_id (id n) (local_id s1) (tail (rnd (next_tid s)))) = 20%nat)
     then Some (NodeId.neighbor_node_id (id n) (local_id s1) (tail (rnd (next_tid s)))) else None
     else Some (local_id s1)) = Some sid) as [sid ->].
  { destruct (cf_neighbor_sender_id _); [|by eexists].
    rewrite bool_decide_true by apply NodeId.neighbor_node_id_length. by eexists. }
  destruct (choose_target_total t s1 (rnd (next_tid s)) Hr) as [target ->].
  pose proof (egress_push_ok s1 n q (mkOutbound key n target sid) Hq Hqe Hlen) as Hq2.
  set (s2 := if is_ipv4 (addr n) then set_egress s1 _ _ else _) in *.
  assert (responsive s2 = responsive s ∧ pool s2 = pool s ∧ side s2 = side s ∧ flight_ok t s2
    ∧ config s2 = config s ∧ query_budget s2 = query_budget s ∧ next_tid s2 = next_tid s1
    ∧ pending s2 = pending s1) as (Hr2 & Hp2 & Hs2 & Hf2 & Hc2 & Hb2 & Ht2 & Hm2).
  { subst s2. by destruct (is_ipv4 (addr n)). }
  rewrite Hr2. destruct (ResponsiveReservoir.record_probe_ok (responsive s) (addr n) t)
    as (r & -> & Hrw & Hrt & Hrest); [apply Hr..|].
  assert (actor_ok t (set_responsive s2 r)) as Hok2.
  { split; [|split; [|split]]; [|apply reservoir_step; try done|done..].
    - unfold pool_ok. simpl. by rewrite Hp2.
    - unfold reservoir_ok. by rewrite Hr2.
    - rewrite Hr2. by apply ResponsiveReservoir.rest_snapshot. }
  eexists true, _. split; [done|]. split; [|done]. split; [done|]. split_and!; try done; simpl.
  - by rewrite Ht2.
  - rewrite Hm2. by apply insert_subseteq.
  - rewrite Hm2. simpl. rewrite map_size_insert_None by done. lia.
Qed.

(** Threads a quiet step in front of what the goal asks for. *)
Lemma step_first t s s1 (P : bool → CrawlActor → Prop) e :
  sched_step t false s s1 →
  (∃ b s', e = Some (b, s') ∧ sched_step t b s1 s' ∧ P b s') →
  ∃ b s', e = Some (b, s') ∧ sched_step t b s s' ∧ P b s'.
Proof.
  intros H1 (b & s' & He & H2 & HP). exists b, s'. split_and!; [done| |done].
  by eapply sched_then.
Qed.

Lemma schedule_revisit_ok t s :
  actor_ok t s → next_tid s < u64_max →
  ∃ b s', schedule_revisit rnd el s t = Some (b, s') ∧ sched_step t b s s' ∧ True.
Proof.
  intros Hok Htid. pose proof Hok as (Hp & Hr & _). pose proof Hr as (Hwf & Ht & _).
  unfold schedule_revisit.
  destruct (ResponsiveReservoir.next_revisit_spec (responsive s) t Hwf Ht)
    as (o & r & Hnr & Hwf1 & Ht1 & _). rewrite Hnr. cbn [fst snd].
  assert (sched_step t false s (set_responsive s r)) as H1.
  { apply core_step; try done. apply reservoir_step; try done.
    exact (ResponsiveReservoir.next_revisit_snapshot _ _ _ Hnr). }
  apply (step_first _ _ _ _ _ H1). pose proof (sched_ok _ _ _ _ H1) as Hok1.
  apply sched_tid in H1. cbn [Z.b2z] in H1. set (s1 := set_responsive s r) in *. clearbody s1.
  destruct o as [n|]; [|exists false, s1; split_and!; [done|by apply sched_step_refl|done]].
  destruct (contains_recent_ok t s1 (addr n) Hok1) as (rec & s2 & -> & H2 & _).
  apply (step_first _ _ _ _ _ H2). pose proof (sched_ok _ _ _ _ H2) as Hok2.
  apply sched_tid in H2. cbn [Z.b2z] in H2.
  assert (∃ ok s3, (if rec then (true, s2) else take_destination s2 t) = (ok, s3)
                   ∧ sched_step t false s2 s3) as (ok & s3 & -> & H3).
  { destruct rec; [by eexists _, _; split; [done|apply sched_step_refl]|].
    pose proof (take_destination_ok t s2 t Hok2) as H3.
    destruct (take_destination s2 t) as [ok s3]. by exists ok, s3. }
  apply (step_first _ _ _ _ _ H3). pose proof (sched_ok _ _ _ _ H3) as Hok3.
  apply sched_tid in H3. cbn [Z.b2z] in H3. destruct ok; cbn [negb].
  2:{ destruct (actor_defer_ok t s3 (addr n) Hok3) as (s4 & -> & H4). by exists false, s4. }
  destruct (try_dispatch_ok t s3 n RevisitProbe Hok3) as (b & s4 & -> & H4 & _ & Hsame); [lia|].
  destruct b.
  - destruct (actor_record_probe_ok t s4 (addr n) (sched_ok _ _ _ _ H4)) as (s5 & -> & H5).
    eexists true, _. split; [done|]. split; [|done].
    eapply then_sched; [exact H4|]. eapply then_sched; [exact H5|]. apply note_ok. by eapply sched_ok.
  - rewrite (Hsame eq_refl) in *. set (s5 := if rec then s3 else _).
    assert (sched_step t false s3 s5) as H5.
    { subst s5. destruct rec; [by apply sched_step_refl|by apply refund_destination_ok]. }
    destruct (actor_defer_ok t s5 (addr n) (sched_ok _ _ _ _ H5)) as (s6 & -> & H6).
    exists false, s6. split_and!; [done| |done]. by eapply sched_then.
Qed.

Lemma rotate_ok t s : actor_ok t s → sched_step t false s (set_pool s (NodePool.rotate_front_to_back (pool s)).2).
Proof.
  intros Hok. apply core_step; try done; [|apply Hok]. split; simpl.
  - apply NodePool.rotate_front_wf, Hok.
  - destruct Hok as ([_ Hcl] & _). unfold NodePool.rotate_front_to_back. by case_bool_decide.
Qed.

(** Probing the head of the pool, or putting it back. *)
Lemma probe_front_ok t s candidate :
  actor_ok t s → next_tid s < u64_max → NodePool.front (pool s) = Some candidate →
  ∃ b s', (let! r := NodePool.take_front_for_probe (pool s) t el in
           let! probed := r.1 in
           let s := set_pool s r.2 in
           let! d := try_dispatch rnd s probed NewProbe t in
           let '(sent, s) := d in
           if sent : bool then Some (true, note s [MQueriesNew] [("query_new", 1)])
           else
             let! p := NodePool.restore_front (pool s) probed t in
             Some (false, refund_destination (set_pool s p))) = Some (b, s')
    ∧ sched_step t b s s' ∧ True.
Proof.
  intros Hok Htid Hfr. pose proof Hok as ([Hwf Hcl] & Hr & _).
  destruct (NodePool.take_front_cases (pool s) t el Hwf Hcl)
    as (o & p & -> & Hwf1 & Hcl1 & Httl & Hcap & Hcase).
  unfold NodePool.front in Hfr. destruct (NodePool.queue (pool s)) as [|e q] eqn:Hq; [done|].
  destruct Hcase as (-> & Hq1 & Hni & _). cbn [fst snd]. set (n := NodePool.node e) in *.
  assert (sched_step t false s (set_pool s p)) as H1 by (by apply core_step).
  destruct (try_dispatch_ok t (set_pool s p) n NewProbe (sched_ok _ _ _ _ H1) Htid)
    as (b & s2 & -> & H2 & Hside & Hsame). destruct b.
  - eexists true, _. split; [done|]. split; [|done]. eapply sched_then; [exact H1|].
    eapply then_sched; [exact H2|]. apply note_ok. by eapply sched_ok.
  - rewrite (Hsame eq_refl). simpl (pool _).
    destruct (NodePool.restore_front_wf p n t) as (p' & -> & Hwf' & _ & _ & Ht' & Hl); [done..| |].
    { destruct Hwf as [_ (_ & _ & Hlen & _)]. rewrite Hq in Hlen. rewrite Hq1, Hcap. simpl in Hlen. lia. }
    eexists false, _. split; [done|]. split; [|done]. eapply then_sched.
    + apply core_step with (s' := set_pool s p'); try done. split; [done|]. unfold NodePool.clock_le.
      simpl. rewrite Ht'. by apply Hl.
    + apply refund_destination_ok, core_ok with s; try done. split; [done|]. unfold NodePool.clock_le.
      simpl. rewrite Ht'. by apply Hl.
Qed.

Lemma scan_loop_ok t n s :
  actor_ok t s → next_tid s < u64_max →
  ∃ b s', scan_loop rnd el n s t = Some (b, s') ∧ sched_step t b s s' ∧ True.
Proof.
  revert s; induction n as [|n IH]; intros s Hok Htid; cbn [scan_loop].
  { exists false, s. split_and!; [done|by apply sched_step_refl|done]. }
  destruct (NodePool.front (pool s)) as [candidate|] eqn:Hfr.
  2:{ exists false, s. split_and!; [done|by apply sched_step_refl|done]. }
  cbn zeta. assert (∃ skip, (if cf_max_in_flight_per_subnet (config s) <=?
      Z.of_nat (subnet_count s (subnet_from_addr (addr candidate))) then Some true
     else ResponsiveReservoir.is_backing_off (responsive s) (addr candidate) t) = Some skip) as [skip ->].
  { destruct (_ <=? _); [by eexists|]. apply is_backing_off_total, Hok. }
  destruct skip.
  { pose proof (rotate_ok t s Hok) as H1. apply (step_first _ _ _ _ _ H1).
    apply IH; [by eapply sched_ok|]. apply sched_tid in H1. rewrite H1. simpl. lia. }
  pose proof (take_destination_ok t s t Hok) as H1.
  assert (pool (take_destination s t).2 = pool s) as Hp.
  { unfold take_destination. by destruct (RateBucket.try_take_one _ _). }
  destruct (take_destination s t) as [ok s1]. cbn [snd] in *. apply (step_first _ _ _ _ _ H1).
  pose proof (sched_ok _ _ _ _ H1) as Hok1. apply sched_tid in H1. cbn [Z.b2z] in H1.
  destruct ok; cbn [negb].
  - apply (probe_front_ok t s1 candidate); [done|lia|by rewrite Hp].
  - exists false, s1. split_and!; [done|by apply sched_step_refl|done].
Qed.

Lemma scan_pool_ok t s :
  actor_ok t s → next_tid s < u64_max →
  ∃ b s', scan_pool rnd el s t = Some (b, s') ∧ sched_step t b s s' ∧ True.
Proof.
  intros Hok Htid. unfold scan_pool.
  destruct (scan_loop_ok t (NodePool.len (pool s) `min` MAX_POOL_SCAN_PER_SCHEDULE) s Hok Htid)
    as (b & s1 & -> & H1 & _). cbn [fst snd]. destruct b; [by exists true, s1|].
  apply (step_first _ _ _ _ _ H1), schedule_revisit_ok; [by eapply sched_ok|].
  apply sched_tid in H1. rewrite H1. simpl. lia.
Qed.

Lemma schedule_one_ok t s :
  actor_ok t s → next_tid s < u64_max →
  ∃ b s', schedule_one rnd el s t = Some (b, s') ∧ sched_step t b s s' ∧ True.
Proof.
  intros Hok Htid. unfold schedule_one.
  destruct (if _ <? _ then head (bootstrap_queue s) else None) as [a|]; [|by apply scan_pool_ok].
  destruct (contains_recent_ok t s a Hok) as (rec & s1 & -> & H1 & _).
  apply (step_first _ _ _ _ _ H1). pose proof (sched_ok _ _ _ _ H1) as Hok1.
  apply sched_tid in H1. cbn [Z.b2z] in H1. cbn zeta.
  assert (∃ ok s2, (if negb rec then take_destination s1 t else (true, s1)) = (ok, s2)
                   ∧ sched_step t false s1 s2) as (ok & s2 & -> & H2).
  { destruct rec; [by eexists _, _; split; [done|apply sched_step_refl]|].
    pose proof (take_destination_ok t s1 t Hok1) as H2.
    destruct (negb false), (take_destination s1 t) as [ok s2]; [by exists ok, s2|].
    by eexists _, _; split; [done|apply sched_step_refl]. }
  apply (step_first _ _ _ _ _ H2). pose proof (sched_ok _ _ _ _ H2) as Hok2.
  apply sched_tid in H2. cbn [Z.b2z] in H2. destruct ok; cbn [negb].
  2:{ apply schedule_revisit_ok; [done|lia]. }
  destruct (try_dispatch_ok t s2 (mkNode (local_id s2) a) BootstrapProbe Hok2)
    as (b & s3 & -> & H3 & _ & Hsame); [lia|]. destruct b.
  - set (s4 := set_bootstrap s3 _ _ _ _). assert (sched_step t false s3 s4) as H4.
    { apply set_bootstrap_ok. by eapply sched_ok. }
    destruct (actor_record_probe_ok t s4 a (sched_ok _ _ _ _ H4)) as (s5 & -> & H5).
    eexists true, _. split; [done|]. split; [|done].
    eapply then_sched; [exact H3|]. eapply then_sched; [exact H4|]. eapply then_sched; [exact H5|].
    eapply then_sched; [|apply note_ok]; [by apply set_bootstrap_ok; eapply sched_ok|].
    eapply sched_ok, set_bootstrap_ok, sched_ok. exact H5.
  - rewrite (Hsame eq_refl). destruct rec; simpl negb; cbn iota; [apply scan_pool_ok; [done|lia]|].
    pose proof (refund_destination_ok t s2 Hok2) as H4. apply (step_first _ _ _ _ _ H4), scan_pool_ok.
    + by eapply sched_ok.
    + apply sched_tid in H4. rewrite H4. simpl. lia.
Qed.

(** [sent] of the [n] tokens become requests; the bucket gets the rest back. *)
Definition sent_of (t : Instant) (n : nat) (s s' : CrawlActor) (sent : nat) : Prop :=
  actor_ok t s' ∧ config s' = config s ∧ (sent ≤ n)%nat
  ∧ next_tid s' = next_tid s + Z.of_nat sent ∧ pending s ⊆ pending s'
  ∧ size (pending s') = (size (pending s) + sent)%nat
  ∧ query_budget s' = if bool_decide (sent < n)%nat
                      then RateBucket.refund (query_budget s) (Z.of_nat (n - sent))
                      else query_budget s.

Lemma schedule_loop_ok t n s :
  actor_ok t s → next_tid s + Z.of_nat n ≤ u64_max →
  ∃ s' sent, schedule_loop rnd el n s t = Some s' ∧ sent_of t n s s' sent.
Proof.
  assert (∀ m s0, actor_ok t s0 → sent_of t (S m) s0
    (set_budgets s0 (RateBucket.refund (query_budget s0) (Z.of_nat (S m))) (destination_budget s0)) 0%nat) as Hstop.
  { intros m s0 H0. split; [by eapply core_ok; [| |apply H0..]|].
    split_and!; simpl; try done; lia. }
  revert s; induction n as [|n IH]; intros s Hok Htid; cbn [schedule_loop].
  { exists s, 0%nat. split; [done|]. split_and!; try done; apply Hok || lia. }
  destruct (Z.leb_spec (cf_max_in_flight (config s)) (Z.of_nat (size (pending s)))).
  { eexists _, 0%nat. split; [done|]. by apply Hstop. }
  destruct (schedule_one_ok t s Hok) as (b & s1 & -> & (Hok1 & Hc1 & Hb1 & Ht1 & Hm1 & Hs1) & _); [lia|].
  cbn [fst snd]. destruct b; cbn [Z.b2z Nat.b2n] in *.
  - destruct (IH s1 Hok1) as (s' & sent & -> & (Hok' & Hc & Hle & Ht & Hm & Hs & Hb)); [lia|].
    exists s', (S sent). split; [done|]. split; [done|]. split_and!; [congruence|lia|lia|by etrans|lia|].
    rewrite Hb, Hb1. destruct (decide (sent < n)%nat).
    + rewrite !bool_decide_true by lia. done.
    + rewrite !bool_decide_false by lia. done.
  - eexists _, 0%nat. split; [done|].
    destruct (Hstop n s1 Hok1) as (Hok' & Hc & _ & Ht & Hm & Hs & Hb).
    split; [done|]. split_and!; [congruence|lia|simpl in *; lia|by etrans|simpl in *; lia|].
    simpl. by rewrite Hb1.
Qed.

(** *** Requests that end *)

Lemma actor_flight t s p e c n :
  actor_ok t s → flight_ok t (set_flight s p e c n) → actor_ok t (set_flight s p e c n).
Proof. intros (Hp & Hr & _ & Hq) Hf. done. Qed.

Lemma probe_failed_ok t s p m st :
  actor_ok t (release_pending s p) →
  ∃ s', probe_failed s p m st t = Some s' ∧ actor_ok t s' ∧ core s' = core (release_pending s p).
Proof.
  intros Hok. unfold probe_failed. set (s1 := note (release_pending s p) _ _).
  assert (actor_ok t s1) as Hok1 by exact Hok. pose proof Hok1 as (Hp & Hr & _).
  destruct (ResponsiveReservoir.record_failure_ok (responsive s1) (addr (p_node p)) (dispatched_at p) t)
    as (b & r & -> & Hrw & Hrt & Hrest & _); [apply Hr..|]. cbn [fst snd].
  assert (actor_ok t (set_responsive s1 r)) as Hok2.
  { apply (core_ok t s1); [done..|]. apply reservoir_step; try done.
    by apply ResponsiveReservoir.rest_snapshot. }
  eexists. split; [done|]. destruct b, (bool_decide _); done.
Qed.

Lemma expiry_covers t s : flight_ok t s → ∀ key p, pending s !! key = Some p → (deadline p, key) ∈ pending_expiry s.
Proof. intros (_ & _ & _ & He & _) key p Hp. by apply He in Hp as (_ & _ & _ & ? & _). Qed.

(** Popping the head of the expiry queue when its request is gone. *)
Lemma flight_pop t s d key q :
  flight_ok t s → pending_expiry s = (d, key) :: q →
  (∀ p, pending s !! key = Some p → deadline p ≠ d) →
  flight_ok t (set_flight s (pending s) q (subnet_in_flight s) (next_tid s)).
Proof.
  intros Hok Hq Hne. pose proof Hok as (Hc & Hlim & Hsz & He & Hs & Hf & Hn). rewrite Hq in Hs, Hf.
  split_and!; simpl; try done.
  - intros key' p Hp. destruct (He _ _ Hp) as (? & ? & ? & Hin & ?). split_and!; try done. simpl.
    rewrite Hq in Hin. apply elem_of_cons in Hin as [[= Hd ->]|]; [|done]. by apply Hne in Hp.
  - by inversion Hs.
  - by inversion Hf.
Qed.

Lemma expire_loop_ok t q s :
  actor_ok t s → pending_expiry s = q →
  ∃ s', expire_loop q s t = Some s' ∧ actor_ok t s' ∧ config s' = config s ∧ next_tid s' = next_tid s
    ∧ pending s' = filter (λ kp : PendingKey * PendingRequest, t < deadline kp.2) (pending s).
Proof.
  revert s; induction q as [|[d key] q IH]; intros s Hok Hq; cbn [expire_loop];
    pose proof Hok as (_ & _ & Hf & _); pose proof (expiry_covers _ _ Hf) as Hcov; rewrite Hq in Hcov.
  { exists s. split_and!; try done; [apply Hok..|]. symmetry. apply map_filter_id.
    intros k p Hp. by apply Hcov, elem_of_nil in Hp. }
  destruct (Z.ltb_spec t d) as [Hlt|Hle].
  { exists s. split_and!; try done; [apply Hok..|]. symmetry. apply map_filter_id. intros k p Hp. simpl.
    destruct Hf as (_ & _ & _ & _ & Hs & _). rewrite Hq in Hs. inversion_clear Hs as [|? ? _ Hall].
    rewrite Forall_forall in Hall. apply Hcov, elem_of_cons in Hp as [[= -> _]|Hin]; [done|].
    specialize (Hall _ Hin). simpl in Hall. lia. }
  set (s1 := set_flight s (pending s) q (subnet_in_flight s) (next_tid s)).
  change (pending s1) with (pending s).
  assert ((∀ p, pending s !! key = Some p → deadline p ≠ d) →
    ∃ s', expire_loop q s1 t = Some s' ∧ actor_ok t s' ∧ config s' = config s ∧ next_tid s' = next_tid s
    ∧ pending s' = filter (λ kp : PendingKey * PendingRequest, t < deadline kp.2) (pending s)) as Hskip.
  { intros Hne. apply (IH s1); [|done]. apply actor_flight; [done|]. by eapply flight_pop. }
  destruct (pending s !! key) as [p|] eqn:Hp; [|by apply Hskip].
  case_bool_decide as Hd; [|apply Hskip; naive_solver].
  destruct (probe_failed_ok t (forget s1 key) p MTimeouts "timeout") as (s2 & -> & Hok2 & Hcore).
  { apply (actor_flight t s). { exact Hok. } eapply (flight_drop t s key p q); [done..| |].
    - rewrite Hq. by exists [(d, key)].
    - intros key' p' Hp' Hne. apply Hcov, elem_of_cons in Hp' as [[= _ ->]|]; done. }
  injection Hcore as Hc _ _ _ _ Hm He _ Ht.
  destruct (IH s2 Hok2 He) as (s' & -> & Hok' & Hc' & Ht' & Hm'). exists s'.
  split_and!; [done..|congruence|congruence|]. rewrite Hm', Hm. simpl.
  rewrite map_filter_delete. apply delete_id, map_lookup_filter_None. right. intros p'. rewrite Hp.
  intros [= <-]. simpl. lia.
Qed.

Lemma expire_pending_ok t s :
  actor_ok t s →
  ∃ s', expire_pending s t = Some s' ∧ actor_ok t s' ∧ config s' = config s ∧ next_tid s' = next_tid s
    ∧ pending s' = filter (λ kp : PendingKey * PendingRequest, t < deadline kp.2) (pending s).
Proof. intros Hok. by apply expire_loop_ok. Qed.

Lemma try_take_le {F} `{Num F} (b : RateBucket.RateBucket F) mx now :
  0 ≤ mx → (Z.to_nat (RateBucket.try_take b mx now).1 ≤ Z.to_nat mx)%nat.
Proof. intros Hmx. unfold RateBucket.try_take. destruct (_ || _); simpl; lia. Qed.

(** The query budget a tick at [now] starts with. *)
Definition tick_budget (s : CrawlActor) (metadata_queue_len : Z) (now : Instant)
  : Z * RateBucket.RateBucket f64 :=
  RateBucket.try_take
    (RateBucket.set_per_second_rate (query_budget s)
       (rate_for_metadata_pressure (config s)
          (metadata_pressure (F:=f64) metadata_queue_len (max_metadata_queue_size s))) now)
    (cf_burst (config s)) now.

(** What [probe_failed] never reads or writes. *)
Definition rates (s : CrawlActor) := (query_budget s, max_metadata_queue_size s).

Lemma probe_failed_frame t s p m st s' : probe_failed s p m st t = Some s' → rates s' = rates s.
Proof.
  unfold probe_failed. destruct (ResponsiveReservoir.record_failure _ _ _ _) as [[b r]|]; [|done].
  intros [= <-]. destruct (bool_decide _), b; done.
Qed.

Lemma expire_frame t q s s' : expire_loop q s t = Some s' → rates s' = rates s.
Proof.
  revert s; induction q as [|[d key] q IH]; intros s H; cbn [expire_loop] in H; [by injection H as <-|].
  destruct (t <? d); [by injection H as <-|]. cbn zeta in H.
  destruct (pending _ !! key) as [p|]; [|by apply IH in H]. case_bool_decide; [|by apply IH in H].
  bind_inv H. apply IH in H as ->. by apply probe_failed_frame in E as ->.
Qed.

Lemma tick_ok t s q :
  actor_ok t s → 0 ≤ cf_burst (config s) → next_tid s + cf_burst (config s) ≤ u64_max →
  ∃ s' sent, on_schedule_tick rnd el s q t = Some s' ∧ actor_ok t s' ∧ config s' = config s
    ∧ let '(budget, bucket) := tick_budget s q t in
      let waiting := filter (λ kp : PendingKey * PendingRequest, t < deadline kp.2) (pending s) in
      (sent ≤ Z.to_nat budget)%nat ∧ Z.of_nat sent ≤ cf_burst (config s)
      ∧ next_tid s' = next_tid s + Z.of_nat sent
      ∧ waiting ⊆ pending s' ∧ size (pending s') = (size waiting + sent)%nat
      ∧ query_budget s' = if bool_decide (sent < Z.to_nat budget)%nat
                          then RateBucket.refund bucket (Z.of_nat (Z.to_nat budget - sent))
                          else bucket.
Proof.
  intros Hok Hb0 Hb. unfold on_schedule_tick.
  destruct (expire_pending_ok t s Hok) as (s1 & He & Hok1 & Hc1 & Ht1 & Hm1). rewrite He.
  pose proof (expire_frame _ _ _ _ He) as [= Hq1 Hx1].
  set (s2 := maybe_resolve_bootstrap s1 t).
  assert (actor_ok t s2 ∧ core s2 = core s1 ∧ query_budget s2 = query_budget s1
          ∧ max_metadata_queue_size s2 = max_metadata_queue_size s1) as (Hok2 & Hcore2 & Hq2 & Hx2).
  { subst s2. unfold maybe_resolve_bootstrap. case_match; [done|].
    by destruct (BootstrapGate.should_bootstrap _ _ _ _). }
  injection Hcore2 as Hc2 _ _ _ _ Hm2 _ _ Ht2. clearbody s2. cbn zeta.
  set (rate := rate_for_metadata_pressure _ _). set (s3 := note s2 _ _).
  assert (tick_budget s q t =
    RateBucket.try_take (RateBucket.set_per_second_rate (query_budget s3) rate t) (cf_burst (config s3)) t)
    as Hbud.
  { unfold tick_budget. subst rate s3. simpl. by rewrite Hq2, Hq1, Hx2, Hx1, Hc2, Hc1. }
  assert (Z.to_nat (tick_budget s q t).1 ≤ Z.to_nat (cf_burst (config s)))%nat as Hle
    by (by apply try_take_le).
  rewrite <-Hbud. destruct (tick_budget s q t) as [budget bucket]. simpl in Hle. clear Hbud.
  set (s4 := set_budgets s3 bucket (destination_budget s3)).
  destruct (schedule_loop_ok t (Z.to_nat budget) s4)
    as (s5 & sent & -> & Hok5 & Hc5 & Hle5 & Ht5 & Hm5 & Hs5 & Hb5); [exact Hok2|simpl; lia|].
  eexists _, sent. split; [done|]. rewrite <-Hm1, <-Hm2. simpl in *. split; [exact Hok5|].
  split; [congruence|]. split_and!; try done; lia.
Qed.

(** *** Events *)

(** The handlers send nothing: they keep the invariant and the counter. *)
Definition quiet (t : Instant) (s s' : CrawlActor) : Prop :=
  actor_ok t s' ∧ config s' = config s ∧ next_tid s' = next_tid s.

Lemma quiet_trans t s1 s2 s3 : quiet t s1 s2 → quiet t s2 s3 → quiet t s1 s3.
Proof. intros (_ & ? & ?) (? & ? & ?). split_and!; [done|congruence|congruence]. Qed.

Lemma quiet_core t s s' : actor_ok t s' → core s' = core s → quiet t s s'.
Proof. by intros ? [= ? _ _ _ _ _ _ _ ?]. Qed.

Lemma admit_one_ok t s n : actor_ok t s → ∃ s', admit_one el s n t = Some s' ∧ quiet t s s'.
Proof.
  intros Hok. pose proof Hok as ([Hwf Hcl] & _). unfold admit_one.
  destruct (NodePool.admit_cases (pool s) n t (el 0%nat) Hwf Hcl) as (o & p & -> & ? & ? & _).
  eexists. split; [done|]. apply quiet_core; [|done]. apply (core_ok t s); try done. apply Hok.
Qed.

Lemma accept_node_ok t s n : actor_ok t s → ∃ s', accept_node el s n t = Some s' ∧ quiet t s s'.
Proof. intros Hok. unfold accept_node. destruct (admit_one_ok t s n Hok) as (s' & -> & ?). by eexists. Qed.

Lemma admit_all_ok t ns s :
  actor_ok t s →
  ∃ s', fold_left (λ o n, match o with Some s => admit_one el s n t | None => None end) ns (Some s) = Some s'
    ∧ quiet t s s'.
Proof.
  revert s; induction ns as [|n ns IH]; intros s Hok; simpl; [by exists s|].
  destruct (admit_one_ok t s n Hok) as (s1 & -> & H1). destruct (IH s1) as (s' & -> & H2); [apply H1|].
  exists s'. split; [done|]. by eapply quiet_trans.
Qed.

Lemma handle_response_ok t s a tid r :
  actor_ok t s → ∃ s', handle_response el s a tid r t = Some s' ∧ quiet t s s'.
Proof.
  intros Hok. unfold handle_response.
  destruct (pending s !! mkKey a tid) as [p|] eqn:Hp; [|by eexists].
  set (s1 := note (release_pending _ p) _ _).
  assert (actor_ok t s1) as Hok1.
  { change (actor_ok t (release_pending (forget s (mkKey a tid)) p)). apply (actor_flight t s); [exact Hok|].
    apply flight_release; [apply Hok|done]. }
  cbn zeta. set (s2 := if bool_decide _ then set_bootstrap s1 _ _ _ _ else s1).
  assert (quiet t s s2) as H2. { subst s2. destruct (bool_decide _); done. }
  set (node := match r_id r with Some _ => _ | None => _ end).
  pose proof H2 as ((Hp2 & Hr2 & Hrest2) & _).
  destruct (ResponsiveReservoir.record_ok (responsive s2) node t (dispatched_at p))
    as (rr & Hrec & Hrw & Hrt & _); [apply Hr2..|]. rewrite Hrec.
  assert (actor_ok t (set_responsive s2 rr)) as Hok3.
  { apply (core_ok t s2); try done. apply reservoir_step; try done.
    by apply ResponsiveReservoir.record_snapshot in Hrec. }
  rewrite for_each_response_node_spec. cbn [snd].
  destruct (admit_all_ok t (response_nodes r (netmode (set_responsive s2 rr))) _ Hok3) as (s4 & -> & H4).
  eexists. split; [done|]. eapply quiet_trans; [exact H2|]. exact H4.
Qed.

Lemma handle_priority_ok t s ev :
  actor_ok t s → ∃ s', handle_priority el s ev t = Some s' ∧ quiet t s s'.
Proof.
  intros Hok. destruct ev as [a tid r|key|l]; cbn [handle_priority].
  - by apply handle_response_ok.
  - destruct (pending s !! key) as [p|] eqn:Hp; [|by exists s].
    destruct (probe_failed_ok t (forget s key) p MSendFailures "send_failure") as (s' & -> & Hok' & Hcore).
    { apply (actor_flight t s); [exact Hok|]. apply flight_release; [apply Hok|done]. }
    exists s'. split; [done|]. injection Hcore as Hc _ _ _ _ _ _ _ Ht. done.
  - destruct (BootstrapSourcePool.select _ _ _ _) as [sel bp]. by eexists.
Qed.

Lemma recv_priority_ok t s r :
  actor_ok t s → recv_priority el s t = Some r → ∃ s', r = Some s' ∧ quiet t s s'.
Proof.
  intros Hok. unfold recv_priority. destruct (priority_rx s) as [|ev q] eqn:Hq; [done|]. intros [= <-].
  set (s0 := note _ _ _). assert (actor_ok t s0) as Hok0.
  { destruct Hok as (? & ? & ? & ? & ? & Hlen & ?). rewrite Hq in Hlen. simpl in Hlen.
    do 5 (split; [done|]). split; [simpl; lia|done]. }
  destruct (handle_priority_ok t s0 ev Hok0) as (s' & -> & H'). by exists s'.
Qed.

Lemma recv_discovery_ok t s r :
  actor_ok t s → recv_discovery el s t = Some r → ∃ s', r = Some s' ∧ quiet t s s'.
Proof.
  intros Hok. unfold recv_discovery. destruct (discovery_rx s) as [|n q] eqn:Hq; [done|]. intros [= <-].
  set (s0 := note _ _ _). assert (actor_ok t s0) as Hok0.
  { destruct Hok as (? & ? & ? & ? & ? & ? & Hlen). rewrite Hq in Hlen. simpl in Hlen.
    do 6 (split; [done|]). simpl. lia. }
  destruct (accept_node_ok t s0 n Hok0) as (s' & -> & H'). by exists s'.
Qed.

Lemma actor_ok_mono t t' s : actor_ok t s → t ≤ t' → actor_ok t' s.
Proof.
  intros ([? Hcl] & (? & Htm & ?) & (? & ? & ? & ? & ? & Hf & ?) & ?) Hle.
  split; [split; [done|by eapply NodePool.clock_le_mono]|].
  split; [split_and!; [done|by eapply ResponsiveReservoir.timely_mono|done]|].
  split; [|done]. do 5 (split; [done|]). split; [|done].
  eapply Forall_impl; [exact Hf|]. simpl. lia.
Qed.

Lemma quiet_mono t t' s s' : quiet t s s' → t ≤ t' → quiet t' s s'.
Proof. intros (? & ? & ?) ?. split_and!; try done. by eapply actor_ok_mono. Qed.

Lemma drain_loop_ok fuel events nodes s clk t fin :
  actor_ok t s → 0 ≤ events → t ≤ clk (Z.to_nat events) →
  (∀ i j, (i ≤ j)%nat → clk i ≤ clk j ≤ fin) →
  cf_event_batch_limit (config s) - events < Z.of_nat fuel → (fuel ≠ 0)%nat →
  ∃ s', drain_loop el fuel events nodes s clk = Some s' ∧ quiet fin s s'.
Proof.
  revert events nodes s t.
  induction fuel as [|fuel IH]; intros events nodes s t Hok He Ht Hclk Hfuel Hne; [done|].
  cbn [drain_loop]. cbn zeta.
  set (now := clk (Z.to_nat events)) in *. clear Hne.
  assert (now ≤ fin) as Hfin by (apply (Hclk (Z.to_nat events) (Z.to_nat events)); lia).
  assert (now ≤ clk (Z.to_nat (events + 1))) as Hnext by (apply Hclk; lia).
  pose proof (actor_ok_mono _ _ _ Hok Ht) as Hok1.
  assert (quiet fin s s) as Hstop by (split; [eapply actor_ok_mono; [done|lia]|done]).
  destruct (_ && _) eqn:Hgo; [|by exists s].
  apply andb_prop in Hgo as [Hgo%Z.ltb_lt _].
  assert (∀ s1 nodes1, quiet now s s1 →
    ∃ s', drain_loop el fuel (events + 1) nodes1 s1 clk = Some s' ∧ quiet fin s s') as Hrec.
  { intros s1 n1 H1. pose proof H1 as (Hok' & Hc & _).
    destruct (IH (events + 1) n1 s1 now) as (s' & -> & H'); [done|lia|done..|rewrite Hc; lia|lia|].
    exists s'. split; [done|]. eapply quiet_trans; [by eapply quiet_mono|done]. }
  assert (∀ r, recv_discovery el s now = Some r → ∃ s', (let! s := r in
    drain_loop el fuel (events + 1) (nodes + 1) s clk) = Some s' ∧ quiet fin s s') as Hdisc.
  { intros r Hr. destruct (recv_discovery_ok _ _ _ Hok1 Hr) as (s1 & -> & H1). by apply Hrec. }
  destruct (if events `mod` 8 =? 0 then recv_discovery el s now else None) as [r|] eqn:Hfirst.
  { apply Hdisc. by destruct (_ =? _). }
  destruct (recv_priority el s now) as [r|] eqn:Hpr.
  { destruct (recv_priority_ok _ _ _ Hok1 Hpr) as (s1 & -> & H1). by apply Hrec. }
  destruct (recv_discovery el s now) as [r|] eqn:Hdr; [by apply Hdisc|by exists s].
Qed.

Lemma drain_events_ok s clk t fin :
  actor_ok t s → (∀ i j, (i ≤ j)%nat → clk i ≤ clk j ≤ fin) → (∀ i, t ≤ clk i) →
  ∃ s', drain_events el s clk = Some s' ∧ quiet fin s s'.
Proof. intros Hok Hclk Ht. eapply drain_loop_ok; try done; lia. Qed.

(** *** Entry points *)

Lemma send_priority_ok t s ev : actor_ok t s → quiet t s (send_priority s ev).2.
Proof.
  intros (? & ? & ? & ? & ? & Hlen & ?). unfold send_priority. cbn [snd].
  destruct (Z.ltb_spec (Z.of_nat (length (priority_rx s))) (cf_priority_event_channel_capacity (config s)));
    [|done]. split; [|done]. do 5 (split; [done|]). split; [|done]. simpl. rewrite length_app. simpl. lia.
Qed.

Lemma route_discovered_ok t s n : actor_ok t s → quiet t s (route_discovered s n).
Proof.
  intros Hok. pose proof Hok as (? & ? & ? & ? & ? & ? & Hlen). unfold route_discovered.
  destruct (Z.ltb_spec (Z.of_nat (length (discovery_rx s))) (cf_discovery_event_channel_capacity (config s)));
    [|done]. split; [|done]. do 6 (split; [done|]). simpl. rewrite length_app. simpl. lia.
Qed.

Lemma route_response_ok t s a tid r : actor_ok t s → quiet t s (route_response s a tid r).
Proof.
  intros Hok. unfold route_response. pose proof (send_priority_ok t s (Response a tid r) Hok) as H.
  destruct (send_priority _ _) as [[] s']; exact H.
Qed.

Lemma egress_turn_ok t s v sent : actor_ok t s → quiet t s (egress_turn s v sent).
Proof.
  intros Hok. unfold egress_turn. set (q0 := if v then egress_v6 s else egress_v4 s).
  destruct q0 as [[|r q]|] eqn:Hq; [done| |done].
  set (s1 := if v then set_egress s _ _ else _).
  assert (quiet t s s1) as H1.
  { destruct Hok as (? & ? & ? & H4 & H6 & ?). subst s1 q0. unfold egress_capacity in *.
    destruct v; rewrite Hq in *; simpl in *; (split; [|done]); do 3 (split; [done|]);
      unfold queues_ok, egress_capacity; simpl; split_and!; (done || lia || apply H). }
  cbn zeta. destruct sent; [exact H1|]. eapply quiet_trans; [exact H1|]. apply send_priority_ok, H1.
Qed.

Lemma resolver_done_ok t s l : actor_ok t s → quiet t s (resolver_done s l).
Proof.
  intros Hok. unfold resolver_done. destruct (resolving s); [done|]. cbn zeta.
  eapply quiet_trans; [|apply send_priority_ok]; done.
Qed.
End steps.

(** ** Histories

    A step is an event with its inputs: the random choices, the durations of
    expiry passes, the clock at its start ([now]), the readings of the batch
    loop ([clk]) and the time its handling ends ([fin]). *)

Record step := mkStep {
  st_event : event;
  st_rnd : Z → Rand;
  st_el : nat → Z;
  st_now : Instant;
  st_clk : nat → Instant;
  st_fin : Instant;
}.

Fixpoint run (s : CrawlActor) (steps : list step) : option CrawlActor :=
  match steps with
  | [] => Some s
  | x :: steps =>
      let! s := handle_event s (st_event x) (st_rnd x) (st_el x) (st_now x) (st_clk x) in
      run s steps
  end.

(** The clock never goes back. *)
Fixpoint clocked (t : Instant) (steps : list step) : Prop :=
  match steps with
  | [] => True
  | x :: steps =>
      t ≤ st_now x ≤ st_fin x ∧ (∀ i, st_now x ≤ st_clk x i)
      ∧ (∀ i j, (i ≤ j)%nat → st_clk x i ≤ st_clk x j ≤ st_fin x) ∧ clocked (st_fin x) steps
  end.

Definition end_time (t : Instant) (steps : list step) : Instant :=
  default t (st_fin <$> last steps).

(** The unsigned fields the actor reads. *)
Definition limits_ok (c : ResolvedCrawlConfig) : Prop :=
  0 ≤ cf_burst c ∧ 0 ≤ cf_max_in_flight c ∧ 0 ≤ cf_max_in_flight_per_subnet c
  ∧ 0 ≤ cf_priority_event_channel_capacity c ∧ 0 ≤ cf_discovery_event_channel_capacity c.

Lemma limits_of_options o : crawl_options_ok o → limits_ok (from_options o).
Proof.
  intros (H1 & H2 & _). unfold limits_ok, from_options. simpl.
  split_and!; try lia. destruct (_ =? 0); lia.
Qed.

Lemma actor_new_ok c nm lid v4 v6 mq t : limits_ok c → actor_ok t (new c nm lid v4 v6 mq t).
Proof.
  intros (? & ? & ? & ? & ?). split; [|split; [|split]].
  - split; [apply NodePool.pool_new_wf|apply NodePool.pool_new_clock].
  - pose proof (ResponsiveReservoir.reservoir_new_wf (Z.to_nat (cf_responsive_capacity c))
      (cf_responsive_ttl c) (cf_revisit_interval c) t) as [? ?]. done.
  - split_and!; simpl; try done; intros; constructor.
  - split_and!; simpl; try lia; [destruct v4|destruct v6]; simpl; unfold egress_capacity; simpl; lia.
Qed.

Lemma crawl_event_ok t s x steps :
  actor_ok t s → clocked t (x :: steps) → 0 ≤ cf_burst (config s) →
  next_tid s + cf_burst (config s) ≤ u64_max →
  ∃ s', handle_event s (st_event x) (st_rnd x) (st_el x) (st_now x) (st_clk x) = Some s'
    ∧ actor_ok (st_fin x) s' ∧ config s' = config s
    ∧ next_tid s ≤ next_tid s' ≤ next_tid s + cf_burst (config s).
Proof.
  intros Hok ([Ht Hfin] & Hlow & Hclk & _) Hb0 Hb. pose proof (actor_ok_mono _ _ _ Hok Ht) as Hok1.
  assert (∀ s', quiet (st_now x) s s' → ∃ s'', Some s' = Some s''
    ∧ actor_ok (st_fin x) s'' ∧ config s'' = config s
    ∧ next_tid s ≤ next_tid s'' ≤ next_tid s + cf_burst (config s)) as Hq.
  { intros s' (Hok' & Hc & Htid). exists s'. split_and!; try done; try lia. by eapply actor_ok_mono. }
  assert (∀ s1, quiet (st_now x) s s1 → ∃ s', drain_events (st_el x) s1 (st_clk x) = Some s'
    ∧ actor_ok (st_fin x) s' ∧ config s' = config s
    ∧ next_tid s ≤ next_tid s' ≤ next_tid s + cf_burst (config s)) as Hdrain.
  { intros s1 (Hok' & Hc & Htid).
    destruct (drain_events_ok (st_el x) s1 (st_clk x) (st_now x) (st_fin x)) as (s' & -> & ? & ? & ?); try done.
    exists s'. split_and!; try done; [congruence|lia|lia]. }
  destruct (st_event x) as [q| | | |n|a tid r|v6 sent|l]; cbn [handle_event].
  - destruct (tick_ok (st_rnd x) (st_el x) (st_now x) s q Hok1 Hb0 Hb) as (s' & sent & -> & Hok' & Hc & Hrest).
    exists s'. split; [done|]. split; [by eapply actor_ok_mono|]. split; [done|].
    destruct (tick_budget s q (st_now x)) as [budget bucket]. destruct Hrest as (_ & ? & ? & _). lia.
  - apply Hq. unfold flush_metrics. simpl. split; [|done].
    apply (core_ok _ s); [done..| |apply Hok1]. apply Hok1.
  - destruct (recv_priority (st_el x) s (st_now x)) as [r|] eqn:Hr; [|by apply Hq].
    destruct (recv_priority_ok (st_el x) _ _ _ Hok1 Hr) as (s1 & -> & H1). by apply Hdrain.
  - destruct (recv_discovery (st_el x) s (st_now x)) as [r|] eqn:Hr; [|by apply Hq].
    destruct (recv_discovery_ok (st_el x) _ _ _ Hok1 Hr) as (s1 & -> & H1). by apply Hdrain.
  - by apply Hq, route_discovered_ok.
  - by apply Hq, route_response_ok.
  - by apply Hq, egress_turn_ok.
  - by apply Hq, resolver_done_ok.
Qed.

Lemma end_time_cons t x steps : end_time t (x :: steps) = end_time (st_fin x) steps.
Proof. unfold end_time. destruct steps as [|y steps]; [done|]. rewrite last_cons_cons. by destruct (last (y :: steps)) eqn:E; [|by apply last_None in E]. Qed.

Lemma run_ok steps t s :
  actor_ok t s → clocked t steps → 0 ≤ cf_burst (config s) →
  next_tid s + Z.of_nat (length steps) * cf_burst (config s) ≤ u64_max →
  ∃ s', run s steps = Some s' ∧ actor_ok (end_time t steps) s' ∧ config s' = config s
    ∧ next_tid s' ≤ next_tid s + Z.of_nat (length steps) * cf_burst (config s).
Proof.
  revert t s; induction steps as [|x steps IH]; intros t s Hok Hcl Hb0 Hb; cbn [run length] in *.
  { exists s. split; [done|]. split; [exact Hok|]. split; [done|lia]. }
  destruct (crawl_event_ok t s x steps Hok Hcl Hb0) as (s1 & -> & Hok1 & Hc1 & Ht1); [nia|].
  destruct Hcl as (_ & _ & _ & Hcl). rewrite end_time_cons.
  destruct (IH (st_fin x) s1 Hok1 Hcl) as (s' & -> & ? & ? & ?); [by rewrite Hc1|rewrite Hc1; nia|].
  exists s'. split; [done|]. split; [done|]. split; [congruence|]. rewrite Hc1 in *. nia.
Qed.

(** ** Claims *)

(** C3: no history of the crawl actor panics or loops for ever.  Whatever
    events arrive (nodes, replies of any shape, send failures, resolver
    results, ticks), with a clock that never goes back and fewer requests
    than identifiers, the actor reaches a state in which: the in-flight table
    is within its limit; each subnet's counter is exactly the number of
    requests in flight to it, is absent at zero and within its limit; every
    request is filed under its own address and identifier and will be found
    by the (sorted) expiry queue; the candidate pool and the reservoir satisfy
    their invariants; and no channel exceeds its capacity. *)
Theorem crawl_history_safe (o : CrawlOptions) (nm : NetMode) (lid : list Z) (v4 v6 : bool)
    (mq : Z) (t : Instant) (steps : list step) :
  let c := from_options o in
  crawl_options_ok o → clocked t steps → Z.of_nat (length steps) * cf_burst c < u64_max →
  ∃ s, run (new c nm lid v4 v6 mq t) steps = Some s ∧ config s = c
    ∧ actor_ok (end_time t steps) s.
Proof.
  intros c Hc%limits_of_options; fold c in Hc; clearbody c; intros Hcl Hb.
  destruct (run_ok steps t (new c nm lid v4 v6 mq t)) as (s & Hr & Hok & Hcfg & _);
    [by apply actor_new_ok|done|apply Hc|
     change (1 + Z.of_nat (length steps) * cf_burst c ≤ u64_max); lia|]. by exists s.
Qed.

Definition ex_options : CrawlOptions :=
  mkCrawlOptions (mkPoolOptions 8 1 4 900 0 2) RateLimitOptions_default BootstrapOptions_default
    TargetOptions_default (mkSchedulerOptions 8 8 16 16 8 1000).
Definition ex_config : ResolvedCrawlConfig := from_options ex_options.
Definition ex_rand : Rand := mkRand 40 7 (replicate 20 9) (λ _, 3).
Definition ex_step (ev : event) (now : Instant) : step :=
  mkStep ev (λ _, ex_rand) (λ _, 0) now (λ _, now) now.
Definition ex_node : NodeTuple := mkNode (replicate 20 1) (SocketAddrV4 8 8 8 8 6881).

(** A node is discovered, probed and answers with another one, which is
    probed and times out. *)
Definition ex_steps : list step :=
  [ex_step (RouteDiscovered ex_node) 1000; ex_step RecvDiscovery 2000;
   ex_step (ScheduleTick 0) 1000000000; ex_step (EgressTurn false true) 1000000001;
   ex_step (RouteResponse (addr ex_node) (be8 1)
     (mkResponse (Some (replicate 20 5)) (Some (replicate 20 2 ++ [9; 9; 9; 9; 26; 225]))
        None None None None None)) 1000000002;
   ex_step RecvPriority 1000000003; ex_step MetricsTick 1000000004;
   ex_step (ScheduleTick 0) 2000000000; ex_step (ScheduleTick 0) 9000000000].

Lemma ex_options_ok : crawl_options_ok ex_options.
Proof. unfold crawl_options_ok. simpl. lia. Qed.

Lemma ex_steps_clocked : clocked 0 ex_steps.
Proof. simpl. split_and!; intros; (done || lia). Qed.

Lemma crawl_history_safe_witness :
  ∃ s, run (new ex_config Ipv4Only (replicate 20 4) true false 100 0) ex_steps = Some s
    ∧ config s = ex_config ∧ actor_ok (end_time 0 ex_steps) s.
Proof.
  apply (crawl_history_safe ex_options Ipv4Only (replicate 20 4) true false 100 0 ex_steps).
  - apply ex_options_ok.
  - apply ex_steps_clocked.
  - vm_compute. reflexivity.
Defined.

(** C13: one scheduling tick in any reachable state.  It first drops exactly
    the requests whose deadline has passed; the requests it sends number at
    most the granted budget (so at most the burst), each takes one new
    identifier and one in-flight slot, no waiting request is lost, and every
    granted token that did not become a request goes back to the bucket. *)
Theorem schedule_tick_correct (o : CrawlOptions) (nm : NetMode) (lid : list Z) (v4 v6 : bool)
    (mq : Z) (t now q : Z) (steps : list step) (s : CrawlActor) (rnd : Z → Rand) (el : nat → Z) :
  let c := from_options o in
  crawl_options_ok o → clocked t steps → end_time t steps ≤ now →
  (Z.of_nat (length steps) + 1) * cf_burst c < u64_max →
  run (new c nm lid v4 v6 mq t) steps = Some s →
  ∃ s' sent, on_schedule_tick rnd el s q now = Some s'
    ∧ let '(budget, bucket) := tick_budget s q now in
      let waiting := filter (λ kp : PendingKey * PendingRequest, now < deadline kp.2) (pending s) in
      (sent ≤ Z.to_nat budget)%nat ∧ Z.of_nat sent ≤ cf_burst c
      ∧ next_tid s' = next_tid s + Z.of_nat sent
      ∧ waiting ⊆ pending s' ∧ size (pending s') = (size waiting + sent)%nat
      ∧ Z.of_nat (size (pending s')) ≤ cf_max_in_flight c
      ∧ query_budget s' = if bool_decide (sent < Z.to_nat budget)%nat
                          then RateBucket.refund bucket (Z.of_nat (Z.to_nat budget - sent))
                          else bucket.
Proof.
  intros c Hc%limits_of_options; fold c in Hc; clearbody c; intros Hcl Hle Hb Hrun.
  pose proof (proj1 Hc) as Hb0. rewrite Z.mul_add_distr_r, Z.mul_1_l in Hb.
  destruct (run_ok steps t (new c nm lid v4 v6 mq t)) as (s0 & Hr & Hok & Hcfg & Htid);
    [by apply actor_new_ok|done|apply Hc|
     change (1 + Z.of_nat (length steps) * cf_burst c ≤ u64_max); lia|]. rewrite Hrun in Hr. injection Hr as <-.
  change (next_tid s ≤ 1 + Z.of_nat (length steps) * cf_burst c) in Htid.
  change (config s = c) in Hcfg. apply (actor_ok_mono _ now) in Hok; [|done].
  destruct (tick_ok rnd el now s q Hok) as (s' & sent & Htick & (_ & _ & Hf & _) & Hc' & Hres);
    [rewrite Hcfg; apply Hc|rewrite Hcfg; lia|]. exists s', sent. split; [done|].
  destruct (tick_budget s q now) as [budget bucket]. destruct Hf as (_ & _ & Hsz & _).
  rewrite Hc', Hcfg in Hsz. rewrite Hcfg in Hres. naive_solver.
Qed.

Lemma schedule_tick_correct_witness :
  ∃ s s' sent, run (new ex_config Ipv4Only (replicate 20 4) true false 100 0) (take 2 ex_steps) = Some s
    ∧ on_schedule_tick (λ _, ex_rand) (λ _, 0) s 0 1000000000 = Some s'
    ∧ next_tid s' = next_tid s + Z.of_nat sent ∧ sent = 1%nat.
Proof.
  destruct (run (new ex_config Ipv4Only (replicate 20 4) true false 100 0) (take 2 ex_steps))
    as [s|] eqn:Hr; [|vm_compute in Hr; discriminate].
  destruct (schedule_tick_correct ex_options Ipv4Only (replicate 20 4) true false 100 0
    1000000000 0 (take 2 ex_steps) s (λ _, ex_rand) (λ _, 0)) as (s' & sent & Ht & Hres).
  - apply ex_options_ok.
  - simpl. split_and!; intros; (done || lia).
  - vm_compute. discriminate.
  - vm_compute. reflexivity.
  - exact Hr.
  - exists s, s', sent. destruct (tick_budget s 0 1000000000) as [budget bucket].
    destruct Hres as (_ & _ & Hn & _). split; [reflexivity|]. split; [exact Ht|]. split; [exact Hn|].
    apply (f_equal (option_map next_tid)) in Ht.
    assert (option_map next_tid (let! s := run (new ex_config Ipv4Only (replicate 20 4) true false 100 0)
      (take 2 ex_steps) in on_schedule_tick (λ _, ex_rand) (λ _, 0) s 0 1000000000) = Some 2) as H2
      by (vm_compute; reflexivity).
    rewrite Hr in H2. rewrite H2 in Ht. cbn [option_map] in Ht. injection Ht as Ht.
    assert (option_map next_tid (run (new ex_config Ipv4Only (replicate 20 4) true false 100 0)
      (take 2 ex_steps)) = Some 1) as H1 by (vm_compute; reflexivity).
    rewrite Hr in H1. cbn [option_map] in H1. injection H1 as H1. lia.
Defined.
End CrawlActor.
