(* ===== verification/Discovery.v ===== *)
(** * Hash discovery ([src/discovery.rs])

    The deduplication table of discovered hashes ([Module HashDedup]) and the
    actor that samples remote nodes with [sample_infohashes] queries
    ([Module DiscoveryActor]).  Bounded channels are queues in the state;
    sending a datagram, the clock reading after it and the random target of a
    query are inputs indexed by the transaction counter.  [debug_assert!] and
    [unwrap] are [None] when they fail. *)

From S2P Require Import Prelude Net Float64 Budget Types Routing NodeId Krpc.

Local Open Scope Z_scope.

Definition SAMPLE_TID_TAG : Z := 181.
Definition MAX_REMOTE_INTERVAL : Z := 21600.
Definition MAX_LOCAL_INTERVAL : Z := 7 * 24 * 60 * 60.
Definition MAX_SAMPLES_PER_RESPONSE : nat := 256.
Definition MAX_HASH_SOURCES : nat := 4.
Definition INPUT_CAPACITY : Z := 1024.
Definition RESPONSE_CAPACITY : Z := 256.
Definition SEED_REFRESH : Duration := from_secs 5.

Definition is_sample_tid (tid : list Z) : bool := bool_decide (head tid = Some SAMPLE_TID_TAG).

Definition DueKey : Type := Instant * Z * SocketAddr.

(** ** Deduplication *)

Module HashDedup.

Record HashDedup := mk {
  entries : gmap (list Z) (list (SocketAddr * HashSource));
  expiry : list (Instant * list Z);
  capacity : Z;
  ttl : Duration;
}.

Definition new (capacity : Z) (ttl : Duration) : HashDedup := mk ∅ [] (Z.max capacity 1) ttl.

(** [while self.expiry.front().is_some_and(|(at, _)| *at <= now)] *)
Fixpoint expire_loop (q : list (Instant * list Z)) (m : gmap (list Z) (list (SocketAddr * HashSource)))
    (now : Instant) : list (Instant * list Z) * gmap (list Z) (list (SocketAddr * HashSource)) :=
  match q with
  | [] => ([], m)
  | (at_, old) :: q' => if at_ <=? now then expire_loop q' (delete old m) now else (q, m)
  end.

Definition expire (s : HashDedup) (now : Instant) : HashDedup :=
  let r := expire_loop (expiry s) (entries s) now in mk r.2 r.1 (capacity s) (ttl s).

Definition find_source (a : SocketAddr) (l : list (SocketAddr * HashSource)) : option HashSource :=
  snd <$> List.find (λ x, bool_decide (x.1 = a)) l.

Definition contains (s : HashDedup) (hash : list Z) (a : SocketAddr) (source : HashSource)
    (now : Instant) : bool * HashDedup :=
  let s := expire s now in
  (match entries s !! hash with
   | None => false
   | Some sources =>
       match find_source a sources with
       | Some previous =>
           negb (bool_decide (previous = GetPeers) && bool_decide (source = Sample))
       | None => bool_decide (MAX_HASH_SOURCES ≤ length sources)%nat
       end
   end, s).

(** [*previous = source] on the first match. *)
Fixpoint set_source (a : SocketAddr) (source : HashSource) (l : list (SocketAddr * HashSource))
  : list (SocketAddr * HashSource) :=
  match l with
  | [] => []
  | x :: l => if bool_decide (x.1 = a) then (x.1, source) :: l else x :: set_source a source l
  end.

Definition insert (s : HashDedup) (hash : list Z) (a : SocketAddr) (source : HashSource)
    (now : Instant) : HashDedup :=
  match entries s !! hash with
  | Some sources =>
      let sources' :=
        match find_source a sources with
        | Some _ => if bool_decide (source = Sample) then set_source a source sources else sources
        | None => if bool_decide (length sources < MAX_HASH_SOURCES)%nat
                  then sources ++ [(a, source)] else sources
        end in
      mk (<[hash := sources']> (entries s)) (expiry s) (capacity s) (ttl s)
  | None =>
      let '(m, q) :=
        if capacity s <=? Z.of_nat (size (entries s)) then
          match expiry s with
          | (_, old) :: q => (delete old (entries s), q)
          | [] => (entries s, [])
          end
        else (entries s, expiry s) in
      mk (<[hash := [(a, source)]]> m) (q ++ [(now + ttl s, hash)]) (capacity s) (ttl s)
  end.


(** *** Invariant: the queue and the map hold the same hashes, in the order of
    their deadlines *)

Definition hashes (s : HashDedup) : list (list Z) := (expiry s).*2.

Definition sources_ok (l : list (SocketAddr * HashSource)) : Prop :=
  l ≠ [] ∧ (length l ≤ MAX_HASH_SOURCES)%nat ∧ NoDup l.*1.

Definition wf (t : Instant) (s : HashDedup) : Prop :=
  NoDup (hashes s) ∧ dom (entries s) = list_to_set (hashes s)
  ∧ Z.of_nat (size (entries s)) ≤ capacity s ∧ 1 ≤ capacity s
  ∧ map_Forall (λ _, sources_ok) (entries s)
  ∧ Sorted.StronglySorted (λ x y : Instant * list Z, x.1 ≤ y.1) (expiry s)
  ∧ Forall (λ x : Instant * list Z, x.1 ≤ t + ttl s) (expiry s).

Lemma dedup_new_wf t cap ttl : wf t (new cap ttl).
Proof.
  unfold wf, hashes. simpl. split_and!;
    [apply NoDup_nil_2|apply dom_empty_L|rewrite map_size_empty; lia|lia|apply map_Forall_empty|constructor..].
Qed.

Lemma dedup_wf_mono t t' s : wf t s → t ≤ t' → wf t' s.
Proof.
  intros (? & ? & ? & ? & ? & ? & Hf) Hle. split_and!; try done.
  eapply Forall_impl; [exact Hf|]. simpl. lia.
Qed.

(** Popping the oldest hash. *)
Lemma dedup_pop_wf t s d h q :
  wf t s → expiry s = (d, h) :: q →
  wf t (mk (delete h (entries s)) q (capacity s) (ttl s))
  ∧ size (delete h (entries s)) = (size (entries s) - 1)%nat ∧ is_Some (entries s !! h).
Proof.
  intros (Hnd & Hdom & Hsz & Hc & Hsrc & Hs & Hf) Hq. unfold hashes in *. rewrite Hq in *. simpl in *.
  apply NoDup_cons in Hnd as [Hni Hnd].
  assert (is_Some (entries s !! h)) as Hh by (apply elem_of_dom; rewrite Hdom; set_solver).
  assert (size (delete h (entries s)) = (size (entries s) - 1)%nat) as Hsz'.
  { rewrite map_size_delete_Some by done. lia. }
  split; [|done]. split_and!; simpl; try done.
  - rewrite dom_delete_L, Hdom. apply set_eq. intros x. rewrite elem_of_difference, !elem_of_list_to_set.
    set_solver.
  - lia.
  - by apply map_Forall_delete.
  - by inversion Hs.
  - by inversion Hf.
Qed.

Definition drop_oldest (s : HashDedup) : HashDedup :=
  match expiry s with
  | (_, old) :: q => mk (delete old (entries s)) q (capacity s) (ttl s)
  | [] => s
  end.

Lemma expire_cons s now d h q :
  expiry s = (d, h) :: q →
  expire s now = if d <=? now then expire (drop_oldest s) now else s.
Proof.
  intros Hq. unfold expire, drop_oldest. rewrite Hq. simpl. destruct (d <=? now); [done|].
  destruct s. simpl in *. by subst.
Qed.

(** Expiry removes exactly the hashes whose deadline has passed. *)
Lemma dedup_expire_spec t s now :
  wf t s →
  wf t (expire s now) ∧ capacity (expire s now) = capacity s ∧ ttl (expire s now) = ttl s
  ∧ expiry (expire s now) = filter (λ x : Instant * list Z, now < x.1) (expiry s)
  ∧ ∀ h, entries (expire s now) !! h
      = if bool_decide (h ∈ (filter (λ x : Instant * list Z, now < x.1) (expiry s)).*2)
        then entries s !! h else None.
Proof.
  remember (expiry s) as q eqn:Hq. symmetry in Hq.
  revert s Hq; induction q as [|[d h] q IH]; intros s Hq Hwf.
  - unfold expire. rewrite Hq. simpl. destruct Hwf as (Hnd & Hdom & Hrest).
    unfold hashes in *. rewrite Hq in *. simpl in *.
    assert (entries s = ∅) as He by (apply dom_empty_inv_L; set_solver).
    split_and!; simpl; try done; try (by apply Hrest). intros h. by rewrite He.
  - rewrite (expire_cons _ _ _ _ _ Hq). destruct (dedup_pop_wf _ _ _ _ _ Hwf Hq) as (Hwf1 & _ & _).
    pose proof Hwf as (Hnd & Hdom & _ & _ & _ & Hs & _). unfold hashes in *. rewrite Hq in Hs, Hnd, Hdom.
    inversion_clear Hs as [|? ? Hs' Hall]. simpl in Hnd, Hdom. apply NoDup_cons in Hnd as [Hni Hnd].
    destruct (Z.leb_spec d now) as [Hle|Hlt].
    + unfold drop_oldest. rewrite Hq. set (s1 := mk _ _ _ _) in *.
      destruct (IH s1 eq_refl Hwf1) as (Hw & Hc & Ht & Hex & Hent).
      rewrite filter_cons_False by (simpl; lia). split_and!; [done..|].
      intros h'. rewrite Hent. simpl. case_bool_decide as Hin; [|done].
      apply lookup_delete_ne. intros <-. apply Hni.
      apply list_elem_of_fmap in Hin as (x & -> & Hx). apply list_elem_of_filter in Hx as [_ Hx].
      apply list_elem_of_fmap. by exists x.
    + assert (filter (λ x : Instant * list Z, now < x.1) ((d, h) :: q) = (d, h) :: q) as ->.
      { apply filter_Forall_id. apply Forall_cons. split; [done|].
        eapply Forall_impl; [exact Hall|]. intros [? ?]; simpl; lia. }
      split_and!; [done..|]. intros h'. case_bool_decide as Hd; [done|].
      apply not_elem_of_dom. rewrite Hdom. intros Hin. apply Hd. simpl. set_solver.
Qed.

Lemma find_source_None a l : find_source a l = None → a ∉ l.*1.
Proof.
  unfold find_source. destruct (List.find _ l) as [x|] eqn:Hf; [done|]. intros _ Hin.
  apply list_elem_of_fmap in Hin as (y & -> & Hy). apply list_elem_of_In in Hy.
  pose proof (List.find_none _ _ Hf _ Hy) as Hn. simpl in Hn. by rewrite bool_decide_true in Hn.
Qed.

Lemma set_source_fst a src l : (set_source a src l).*1 = l.*1.
Proof. induction l as [|x l IH]; [done|]. cbn [set_source]. case_bool_decide; [done|]. csimpl. by rewrite IH. Qed.

Lemma merge_sources_ok a src l :
  sources_ok l →
  sources_ok (match find_source a l with
              | Some _ => if bool_decide (src = Sample) then set_source a src l else l
              | None => if bool_decide (length l < MAX_HASH_SOURCES)%nat then l ++ [(a, src)] else l
              end).
Proof.
  intros (Hne & Hlen & Hnd). destruct (find_source a l) eqn:Hf.
  - case_bool_decide; [|done]. pose proof (set_source_fst a src l) as Hfst. split_and!.
    + intros Hn. rewrite Hn in Hfst. destruct l; done.
    + rewrite <-(length_fmap fst), Hfst, length_fmap. done.
    + by rewrite Hfst.
  - case_bool_decide; [|done]. split_and!.
    + by destruct l.
    + rewrite length_app. simpl. lia.
    + rewrite fmap_app. apply NoDup_app. split_and!; [done| |by apply NoDup_singleton].
      intros x Hx ->%list_elem_of_singleton. by apply (find_source_None a l).
Qed.

(** The table after room has been made for a new hash. *)
Definition make_room (s : HashDedup) : HashDedup :=
  if capacity s <=? Z.of_nat (size (entries s)) then drop_oldest s else s.

Lemma make_room_wf t s :
  wf t s → wf t (make_room s) ∧ Z.of_nat (size (entries (make_room s))) < capacity s
    ∧ capacity (make_room s) = capacity s ∧ ttl (make_room s) = ttl s.
Proof.
  intros Hwf. pose proof Hwf as (_ & Hdom & Hsz & Hc & _). unfold make_room.
  destruct (Z.leb_spec (capacity s) (Z.of_nat (size (entries s)))); [|by split_and!].
  unfold drop_oldest. destruct (expiry s) as [|[d h] q] eqn:Hq.
  - unfold hashes in Hdom. rewrite Hq in Hdom. simpl in Hdom.
    apply dom_empty_inv_L in Hdom. rewrite Hdom, map_size_empty in *. lia.
  - destruct (dedup_pop_wf _ _ _ _ _ Hwf Hq) as (Hw & Hs & _). split_and!; try done. simpl. lia.
Qed.

Lemma insert_fresh s h a src now :
  entries s !! h = None →
  insert s h a src now
  = mk (<[h := [(a, src)]]> (entries (make_room s))) (expiry (make_room s) ++ [(now + ttl s, h)])
       (capacity s) (ttl s).
Proof.
  intros Hh. unfold insert, make_room. rewrite Hh. destruct (_ <=? _); [|done].
  unfold drop_oldest. destruct (expiry s) as [|[d o] q] eqn:Hq; [|done]. by rewrite Hq.
Qed.

Lemma dedup_insert_wf t s h a src :
  wf t s → wf t (insert s h a src t) ∧ capacity (insert s h a src t) = capacity s
    ∧ ttl (insert s h a src t) = ttl s.
Proof.
  intros Hwf. destruct (entries s !! h) as [l|] eqn:Hh.
  - unfold insert. rewrite Hh. destruct Hwf as (? & Hdom & Hsz & ? & Hsrc & ? & ?). split; [|done].
    split_and!; simpl; try done.
    + rewrite dom_insert_lookup_L by eauto. done.
    + rewrite map_size_insert_Some by eauto. done.
    + apply map_Forall_insert_2; [|done]. by apply merge_sources_ok, (Hsrc h).
  - rewrite insert_fresh by done. destruct (make_room_wf t s Hwf) as (Hw & Hlt & Hc & Ht).
    destruct Hw as (Hnd & Hdom & Hsz & ? & Hsrc & Hs & Hf).
    assert (entries (make_room s) !! h = None) as Hh'.
    { unfold make_room, drop_oldest. destruct (_ <=? _); [|done].
      destruct (expiry s) as [|[d o] q]; [done|]. simpl. rewrite lookup_delete_None. by right. }
    assert (h ∉ hashes (make_room s)) as Hni.
    { intros Hin. apply not_elem_of_dom in Hh'. apply Hh'. rewrite Hdom. by apply elem_of_list_to_set. }
    split; [|done]. unfold wf, hashes in *. split_and!; simpl; rewrite ?fmap_app; simpl; try lia.
    + apply NoDup_app. split_and!; [done| |by apply NoDup_singleton].
      by intros x Hx ->%list_elem_of_singleton.
    + rewrite dom_insert_L, Hdom, list_to_set_app_L. set_solver.
    + rewrite map_size_insert_None by done. lia.
    + apply map_Forall_insert_2; [|done]. split_and!; [done|simpl; unfold MAX_HASH_SOURCES; lia|].
      by apply NoDup_singleton.
    + apply StronglySorted_snoc; [done|]. eapply Forall_impl; [exact Hf|]. rewrite Ht. done.
    + apply Forall_app. split; [|by repeat constructor]. eapply Forall_impl; [exact Hf|]. by rewrite Ht.
Qed.

Lemma dedup_contains_wf t s h a src now :
  wf t s → wf t (contains s h a src now).2 ∧ capacity (contains s h a src now).2 = capacity s
    ∧ ttl (contains s h a src now).2 = ttl s.
Proof. intros Hwf. destruct (dedup_expire_spec t s now Hwf) as (? & ? & ? & _). done. Qed.

(** *** The window of a remembered hash *)

Inductive op :=
  | Query (hash : list Z) (a : SocketAddr) (source : HashSource)
  | Remember (hash : list Z) (a : SocketAddr) (source : HashSource).

Definition exec (s : HashDedup) (o : op) (now : Instant) : HashDedup :=
  match o with
  | Query h a src => (contains s h a src now).2
  | Remember h a src => insert s h a src now
  end.

Fixpoint run (s : HashDedup) (os : list (op * Instant)) : HashDedup :=
  match os with [] => s | (o, now) :: os => run (exec s o now) os end.

Fixpoint clocked (t : Instant) (os : list (op * Instant)) : Prop :=
  match os with [] => True | (_, now) :: os => t ≤ now ∧ clocked now os end.

Definition last_time (t : Instant) (os : list (op * Instant)) : Instant := default t (snd <$> last os).

Definition is_remember (o : op * Instant) : bool := match o.1 with Remember _ _ _ => true | _ => false end.

(** How many operations may have added a hash. *)
Definition additions (os : list (op * Instant)) : nat := length (filter is_remember os).

Lemma dedup_exec_wf t s o now :
  wf t s → t ≤ now → wf now (exec s o now) ∧ capacity (exec s o now) = capacity s ∧ ttl (exec s o now) = ttl s.
Proof.
  intros Hwf Hle. apply (dedup_wf_mono _ now) in Hwf; [|done].
  destruct o; [by apply dedup_contains_wf|by apply dedup_insert_wf].
Qed.

Lemma last_time_cons t o now os : last_time t ((o, now) :: os) = last_time now os.
Proof.
  unfold last_time. destruct os as [|x os]; [done|]. rewrite last_cons_cons.
  destruct (last (x :: os)) eqn:E; [done|by apply last_None in E].
Qed.

Lemma dedup_run_wf t s os :
  wf t s → clocked t os → wf (last_time t os) (run s os) ∧ capacity (run s os) = capacity s ∧ ttl (run s os) = ttl s.
Proof.
  revert t s; induction os as [|[o now] os IH]; intros t s Hwf Hcl; [split; [exact Hwf|done]|].
  destruct Hcl as [Hle Hcl]. rewrite last_time_cons. simpl.
  destruct (dedup_exec_wf t s o now Hwf Hle) as (Hwf1 & Hc & Ht).
  destruct (IH now _ Hwf1 Hcl) as (? & ? & ?). split_and!; [done|congruence|congruence].
Qed.

Lemma dedup_size t s : wf t s → size (entries s) = length (expiry s).
Proof.
  intros (Hnd & Hdom & _). rewrite <-size_dom, Hdom, size_list_to_set by done.
  unfold hashes. by rewrite length_fmap.
Qed.

(** [h] is remembered for [a] until [d], with at most [n] younger hashes. *)
Definition remembered (h : list Z) (a : SocketAddr) (src : HashSource) (d : Instant) (n : nat)
    (s : HashDedup) : Prop :=
  (∃ pre post, expiry s = pre ++ (d, h) :: post ∧ (length post ≤ n)%nat)
  ∧ ∃ l p, entries s !! h = Some l ∧ find_source a l = Some p ∧ (p = src ∨ p = Sample).

Lemma find_source_app a l x : find_source a (l ++ [x]) =
  match find_source a l with Some p => Some p | None => if bool_decide (x.1 = a) then Some x.2 else None end.
Proof.
  unfold find_source. induction l as [|y l IH]; simpl; [by destruct (bool_decide _)|].
  destruct (bool_decide (y.1 = a)); [done|exact IH].
Qed.

Lemma find_set_source a b src l :
  find_source a (set_source b src l)
  = if bool_decide (a = b) then (λ _, src) <$> find_source a l else find_source a l.
Proof.
  unfold find_source. induction l as [|y l IH]; [by case_bool_decide|]. cbn [set_source].
  destruct (decide (y.1 = b)) as [Hb|Hb].
  - rewrite (bool_decide_true (y.1 = b)) by done. cbn [List.find fst]. destruct (decide (y.1 = a)) as [Ha|Ha].
    + rewrite (bool_decide_true (y.1 = a)), (bool_decide_true (a = b)) by congruence. done.
    + rewrite (bool_decide_false (y.1 = a)), (bool_decide_false (a = b)) by congruence. done.
  - rewrite (bool_decide_false (y.1 = b)) by done. cbn [List.find]. destruct (decide (y.1 = a)) as [Ha|Ha].
    + rewrite (bool_decide_true (y.1 = a)), (bool_decide_false (a = b)) by congruence. done.
    + rewrite (bool_decide_false (y.1 = a)) by done. exact IH.
Qed.

Lemma remembered_query t s h a src d n h' a' src' now :
  wf t s → remembered h a src d n s → now < d →
  remembered h a src d n (contains s h' a' src' now).2.
Proof.
  intros Hwf ((pre & post & Hex & Hn) & l & p & Hl & Hp) Hlt.
  destruct (dedup_expire_spec t s now Hwf) as (_ & _ & _ & Hexp & Hent). cbn [snd contains].
  rewrite Hex, filter_app, filter_cons_True in Hexp by done.
  split; [|exists l, p; split; [|done]].
  - eexists _, _. split; [exact Hexp|]. pose proof (length_filter (λ x : Z * list Z, now < x.1) post). lia.
  - unfold contains. simpl. rewrite Hent, bool_decide_true; [done|]. rewrite Hex, filter_app, filter_cons_True by done.
    rewrite fmap_app. set_solver.
Qed.

Lemma remembered_insert t s h a src d n h' a' src' :
  wf t s → remembered h a src d n s → Z.of_nat (S n) < capacity s →
  remembered h a src d (S n) (insert s h' a' src' t).
Proof.
  intros Hwf ((pre & post & Hex & Hn) & l & p & Hl & Hp & Hsrc) Hcap.
  destruct (entries s !! h') as [l'|] eqn:Hh'.
  - unfold insert. rewrite Hh'. split; [by eexists _, _; split; [exact Hex|lia]|]. simpl.
    destruct (decide (h = h')) as [<-|Hne]; [|rewrite lookup_insert_ne by done; by eexists _, _].
    rewrite lookup_insert_eq. rewrite Hl in Hh'. injection Hh' as <-.
    match goal with |- ∃ l0 p0, Some ?x = Some l0 ∧ _ => exists x end.
    destruct (find_source a' l) eqn:Hf.
    + case_bool_decide; [|by eexists]. rewrite find_set_source, Hp.
      case_bool_decide; simpl; [exists src'|exists p]; auto.
    + case_bool_decide; [|by eexists]. rewrite find_source_app, Hp. by eexists.
  - rewrite insert_fresh by done. assert (h ≠ h') as Hne by congruence.
    assert (∃ pre', expiry (make_room s) = pre' ++ (d, h) :: post ∧ entries (make_room s) !! h = Some l)
      as (pre' & Hex' & Hl').
    { unfold make_room. destruct (Z.leb_spec (capacity s) (Z.of_nat (size (entries s)))) as [Hfull|];
        [|by exists pre]. rewrite (dedup_size t), Hex, length_app in Hfull by done. simpl in Hfull.
      unfold drop_oldest. rewrite Hex. destruct pre as [|[d0 h0] pre]; [simpl in Hfull; lia|].
      exists pre. split; [done|]. simpl. rewrite lookup_delete_ne; [done|]. intros ->.
      destruct Hwf as (Hnd & _). unfold hashes in Hnd. rewrite Hex in Hnd. csimpl in Hnd.
      apply NoDup_cons in Hnd as [Hni _]. apply Hni. rewrite fmap_app. set_solver. }
    split.
    + exists pre', (post ++ [(t + ttl s, h')]). simpl. rewrite Hex', <-app_assoc. split; [done|].
      rewrite length_app. simpl. lia.
    + exists l, p. simpl. by rewrite lookup_insert_ne.
Qed.

Lemma remembered_run t s os h a src d n :
  wf t s → remembered h a src d n s → clocked t os → last_time t os < d →
  Z.of_nat (n + additions os) < capacity s →
  remembered h a src d (n + additions os) (run s os).
Proof.
  revert t s n; induction os as [|[o now] os IH]; intros t s n Hwf Hr Hcl Hlt Hcap.
  { unfold additions. simpl. by rewrite Nat.add_0_r. }
  destruct Hcl as [Hle Hcl]. rewrite last_time_cons in Hlt. pose proof (dedup_wf_mono _ _ _ Hwf Hle) as Hwf'.
  destruct (dedup_exec_wf t s o now Hwf Hle) as (Hwf1 & Hc & _).
  assert (∀ u os', clocked u os' → u ≤ last_time u os') as Hmono.
  { intros u os'. revert u. induction os' as [|[o' v] os' IH']; intros u Hu; [done|].
    destruct Hu as [? Hu]. rewrite last_time_cons. specialize (IH' _ Hu). lia. }
  specialize (Hmono _ _ Hcl). cbn [run]. destruct o as [h' a' src'|h' a' src'].
  - assert (additions ((Query h' a' src', now) :: os) = additions os) as Ha by done.
    rewrite Ha in *. apply (IH now); try done. eapply remembered_query; [done..|lia].
  - assert (additions ((Remember h' a' src', now) :: os) = S (additions os)) as Ha by done.
    rewrite Ha in *. replace (n + S (additions os))%nat with (S n + additions os)%nat by lia.
    apply (IH now); try done; [|rewrite Hc; lia]. eapply remembered_insert; [done..|lia].
Qed.

(** A hash stays deduplicated for exactly its window.  When a hash that
    the table does not know is remembered at [t0], asking again for the same
    endpoint and source answers "duplicate" at every time before [t0 + ttl],
    whatever was asked or remembered in between, provided fewer than
    [capacity] additions happened; from [t0 + ttl] on the table has forgotten
    it, even if it was refreshed meanwhile. *)
Theorem dedup_window (cap : Z) (window : Duration) (os1 os2 : list (op * Instant)) (t t0 now : Instant)
    (h : list Z) (a : SocketAddr) (src : HashSource) :
  let s := run (new cap window) os1 in
  clocked t os1 → last_time t os1 ≤ t0 →
  entries (expire s t0) !! h = None →
  let s2 := run (insert (contains s h a src t0).2 h a src t0) os2 in
  clocked t0 os2 → last_time t0 os2 ≤ now → Z.of_nat (additions os2) < Z.max cap 1 →
  (now < t0 + window → (contains s2 h a src now).1 = true)
  ∧ (t0 + window ≤ now → last_time t0 os2 < t0 + window → (contains s2 h a src now).1 = false).
Proof.
  intros s Hcl1 Ht0 Hfresh s2 Hcl2 Hnow Hadd.
  destruct (dedup_run_wf t (new cap window) os1 (dedup_new_wf _ _ _) Hcl1) as (Hwf & Hc & Htt).
  fold s in Hwf, Hc, Htt. apply (dedup_wf_mono _ t0) in Hwf; [|done].
  destruct (dedup_contains_wf t0 s h a src t0 Hwf) as (Hwf1 & Hc1 & Htt1).
  set (s1 := (contains s h a src t0).2) in *.
  destruct (dedup_insert_wf t0 s1 h a src Hwf1) as (Hwf2 & Hc2 & Htt2).
  assert (remembered h a src (t0 + window) 0 (insert s1 h a src t0)) as Hrem.
  { rewrite insert_fresh by exact Hfresh. split.
    - exists (expiry (make_room s1)), []. cbn [expiry]. rewrite Htt1, Htt. done.
    - exists [(a, src)], src. simpl. rewrite lookup_insert_eq. split; [done|]. split; [|by left].
      unfold find_source. simpl. by rewrite bool_decide_true. }
  assert (last_time t0 os2 < t0 + window →
    remembered h a src (t0 + window) (additions os2) s2 ∧ wf (last_time t0 os2) s2) as Hrun.
  { intros Hlt. split; [|exact (proj1 (dedup_run_wf t0 _ os2 Hwf2 Hcl2))].
    apply (remembered_run t0 _ os2 h a src (t0 + window) 0); try done. rewrite Hc2, Hc1, Hc. done. }
  split.
  - intros Hlt. destruct Hrun as [Hr Hw]; [lia|].
    destruct (remembered_query _ _ _ _ _ _ _ h a src now Hw Hr Hlt) as (_ & l & p & Hl & Hp & Hsrc).
    unfold contains in *. simpl in *. rewrite Hl, Hp.
    destruct Hsrc as [->| ->]; by destruct src.
  - intros Hge Hlt. destruct Hrun as [((pre & post & Hex & _) & _) Hw]; [done|].
    destruct (dedup_expire_spec _ s2 now Hw) as (_ & _ & _ & _ & Hent).
    unfold contains. simpl. rewrite Hent, bool_decide_false; [done|]. intros Hin.
    apply list_elem_of_fmap in Hin as ([d' h'] & -> & Hin). apply list_elem_of_filter in Hin as [Hd Hin].
    destruct Hw as (Hnd & _). unfold hashes in Hnd.
    assert (d' = t0 + window) as ->; [|simpl in Hd; lia].
    apply list_elem_of_lookup in Hin as [i Hi].
    assert (expiry s2 !! length pre = Some (t0 + window, h')) as Hj.
    { rewrite Hex. by apply list_lookup_middle. }
    assert (i = length pre) as ->.
    { eapply NoDup_lookup; [exact Hnd|rewrite list_lookup_fmap, Hi; done|rewrite list_lookup_fmap, Hj; done]. }
    congruence.
Qed.

Definition ex_addr : SocketAddr := SocketAddrV4 8 8 8 8 6881.
Definition ex_dedup_ops : list (op * Instant) :=
  [(Query [7] ex_addr GetPeers, 12); (Remember [8] ex_addr GetPeers, 13); (Remember [7] ex_addr Sample, 14)].

Lemma dedup_window_witness :
  let s2 := run (insert (contains (run (new 4 10) []) [7] ex_addr GetPeers 11).2 [7] ex_addr GetPeers 11) ex_dedup_ops in
  (15 < 11 + 10 → (contains s2 [7] ex_addr GetPeers 15).1 = true)
  ∧ (11 + 10 ≤ 15 → last_time 11 ex_dedup_ops < 11 + 10 → (contains s2 [7] ex_addr GetPeers 15).1 = false).
Proof.
  apply (dedup_window 4 10 [] ex_dedup_ops 0 11 15 [7] ex_addr GetPeers).
  - exact I.
  - vm_compute. discriminate.
  - vm_compute. reflexivity.
  - simpl. lia.
  - vm_compute. discriminate.
  - vm_compute. reflexivity.
Defined.

End HashDedup.

(** ** The actor *)

Module DiscoveryActor.

Record HashInput := mkInput { hi_hash : list Z; hi_node : NodeTuple }.
Record SampleResponse := mkSampleResponse {
  sr_addr : SocketAddr; sr_tid : list Z; sr_response : option DhtResponse }.
Record SampleNode := mkSampleNode { sn_node : NodeTuple; sn_due : option DueKey }.
Record PendingSample := mkPendingSample { ps_tid : list Z; ps_deadline : Instant }.

Record DiscoveryActor := mk {
  options : DiscoveryOptions;
  netmode : NetMode;
  local_id : list Z;
  v4 : bool;
  v6 : bool;
  filter_cb : option (string → bool);
  input_rx : list HashInput;
  response_rx : list SampleResponse;
  hash_rx : list HashDiscovered;
  hash_capacity : Z;
  nodes : gmap SocketAddr SampleNode;
  due : gset DueKey;
  sequence : Z;
  pending : gmap SocketAddr PendingSample;
  cooldowns : gmap SocketAddr (NodeTuple * Instant);
  cooldown_expiry : gset (Instant * SocketAddr);
  next_tid : Z;
  query_budget : RateBucket.RateBucket f64;
  get_peers_budget : RateBucket.RateBucket f64;
  sample_hash_budget : RateBucket.RateBucket f64;
  dedup : HashDedup.HashDedup;
  next_seed_refresh : Instant;
  stats : list (string * Z);
}.

(** *** Field updates *)

Definition set_filter (s : DiscoveryActor) f : DiscoveryActor :=
  mk (options s) (netmode s) (local_id s) (v4 s) (v6 s) f (input_rx s) (response_rx s) (hash_rx s)
     (hash_capacity s) (nodes s) (due s) (sequence s) (pending s) (cooldowns s)
     (cooldown_expiry s) (next_tid s) (query_budget s) (get_peers_budget s) (sample_hash_budget s)
     (dedup s) (next_seed_refresh s) (stats s).
Definition set_channels (s : DiscoveryActor) i r h : DiscoveryActor :=
  mk (options s) (netmode s) (local_id s) (v4 s) (v6 s) (filter_cb s) i r h (hash_capacity s)
     (nodes s) (due s) (sequence s) (pending s) (cooldowns s) (cooldown_expiry s) (next_tid s)
     (query_budget s) (get_peers_budget s) (sample_hash_budget s) (dedup s) (next_seed_refresh s)
     (stats s).
Definition set_nodes (s : DiscoveryActor) n d q : DiscoveryActor :=
  mk (options s) (netmode s) (local_id s) (v4 s) (v6 s) (filter_cb s) (input_rx s) (response_rx s)
     (hash_rx s) (hash_capacity s) n d q (pending s) (cooldowns s) (cooldown_expiry s)
     (next_tid s) (query_budget s) (get_peers_budget s) (sample_hash_budget s) (dedup s)
     (next_seed_refresh s) (stats s).
Definition set_pending (s : DiscoveryActor) p t : DiscoveryActor :=
  mk (options s) (netmode s) (local_id s) (v4 s) (v6 s) (filter_cb s) (input_rx s) (response_rx s)
     (hash_rx s) (hash_capacity s) (nodes s) (due s) (sequence s) p (cooldowns s)
     (cooldown_expiry s) t (query_budget s) (get_peers_budget s) (sample_hash_budget s) (dedup s)
     (next_seed_refresh s) (stats s).
Definition set_cooldowns (s : DiscoveryActor) c e : DiscoveryActor :=
  mk (options s) (netmode s) (local_id s) (v4 s) (v6 s) (filter_cb s) (input_rx s) (response_rx s)
     (hash_rx s) (hash_capacity s) (nodes s) (due s) (sequence s) (pending s) c e (next_tid s)
     (query_budget s) (get_peers_budget s) (sample_hash_budget s) (dedup s) (next_seed_refresh s)
     (stats s).
Definition set_budgets (s : DiscoveryActor) q g h : DiscoveryActor :=
  mk (options s) (netmode s) (local_id s) (v4 s) (v6 s) (filter_cb s) (input_rx s) (response_rx s)
     (hash_rx s) (hash_capacity s) (nodes s) (due s) (sequence s) (pending s) (cooldowns s)
     (cooldown_expiry s) (next_tid s) q g h (dedup s) (next_seed_refresh s) (stats s).
Definition set_dedup (s : DiscoveryActor) d : DiscoveryActor :=
  mk (options s) (netmode s) (local_id s) (v4 s) (v6 s) (filter_cb s) (input_rx s) (response_rx s)
     (hash_rx s) (hash_capacity s) (nodes s) (due s) (sequence s) (pending s) (cooldowns s)
     (cooldown_expiry s) (next_tid s) (query_budget s) (get_peers_budget s) (sample_hash_budget s)
     d (next_seed_refresh s) (stats s).
Definition set_refresh (s : DiscoveryActor) t : DiscoveryActor :=
  mk (options s) (netmode s) (local_id s) (v4 s) (v6 s) (filter_cb s) (input_rx s) (response_rx s)
     (hash_rx s) (hash_capacity s) (nodes s) (due s) (sequence s) (pending s) (cooldowns s)
     (cooldown_expiry s) (next_tid s) (query_budget s) (get_peers_budget s) (sample_hash_budget s)
     (dedup s) t (stats s).
Definition note (s : DiscoveryActor) st : DiscoveryActor :=
  mk (options s) (netmode s) (local_id s) (v4 s) (v6 s) (filter_cb s) (input_rx s) (response_rx s)
     (hash_rx s) (hash_capacity s) (nodes s) (due s) (sequence s) (pending s) (cooldowns s)
     (cooldown_expiry s) (next_tid s) (query_budget s) (get_peers_budget s) (sample_hash_budget s)
     (dedup s) (next_seed_refresh s) (stats s ++ st).


Definition new (netmode : NetMode) (local_id : list Z) (v4 v6 : bool) (opts : DiscoveryOptions)
    (hash_capacity : Z) (now : Instant) : DiscoveryActor :=
  let clamp x lo hi := Z.min (Z.max x lo) hi in
  let opts :=
    mkDiscoveryOptions (do_enabled opts) (do_sample_queries_per_second opts) (do_sample_burst opts)
      (do_sample_max_in_flight opts) (clamp (do_sample_query_timeout_secs opts) 1 300)
      (Z.min (do_sample_min_interval_secs opts) MAX_LOCAL_INTERVAL)
      (clamp (do_sample_failure_backoff_secs opts) 1 MAX_LOCAL_INTERVAL)
      (Z.min (do_sample_no_new_backoff_secs opts) MAX_LOCAL_INTERVAL)
      (do_sample_max_nodes opts) (do_sample_cooldown_capacity opts) (do_hash_dedup_capacity opts)
      (clamp (do_hash_dedup_ttl_secs opts) 1 MAX_LOCAL_INTERVAL)
      (do_get_peers_hashes_per_second opts) (do_get_peers_burst opts)
      (do_sample_hashes_per_second opts) (do_sample_hash_burst opts) in
  {| options := opts; netmode := netmode; local_id := local_id; v4 := v4; v6 := v6;
     filter_cb := None; input_rx := []; response_rx := []; hash_rx := [];
     hash_capacity := hash_capacity; nodes := ∅; due := ∅; sequence := 0; pending := ∅;
     cooldowns := ∅; cooldown_expiry := ∅; next_tid := 1;
     query_budget := RateBucket.per_second (do_sample_queries_per_second opts) (do_sample_burst opts) false now;
     get_peers_budget := RateBucket.per_second (do_get_peers_hashes_per_second opts) (do_get_peers_burst opts) true now;
     sample_hash_budget := RateBucket.per_second (do_sample_hashes_per_second opts) (do_sample_hash_burst opts) true now;
     dedup := HashDedup.new (do_hash_dedup_capacity opts) (from_secs (Z.max (do_hash_dedup_ttl_secs opts) 1));
     next_seed_refresh := now; stats := [] |}.

(** ** The handle: [try_send] on the bounded channels

    [spawn_discovery] with [enabled] unset spawns no actor and gives a handle
    without channels, on which both operations do nothing. *)

Definition observe_get_peers (s : DiscoveryActor) (hash : list Z) (n : NodeTuple) : DiscoveryActor :=
  if do_enabled (options s) then
    let s := note s [("discovery_get_peers_observed", 1)] in
    if Z.of_nat (length (input_rx s)) <? INPUT_CAPACITY
    then set_channels s (input_rx s ++ [mkInput hash n]) (response_rx s) (hash_rx s)
    else note s [("discovery_input_dropped", 1)]
  else s.

Definition route_response (s : DiscoveryActor) (a : SocketAddr) (tid : list Z)
    (response : option DhtResponse) : DiscoveryActor :=
  if do_enabled (options s) then
    if Z.of_nat (length (response_rx s)) <? RESPONSE_CAPACITY
    then set_channels s (input_rx s) (response_rx s ++ [mkSampleResponse a tid response]) (hash_rx s)
    else note s [("discovery_input_dropped", 1)]
  else s.

(** ** Candidate nodes *)

Definition schedule (s : DiscoveryActor) (a : SocketAddr) (at_ : Instant) : DiscoveryActor :=
  match nodes s !! a with
  | None => s
  | Some entry =>
      let d := match sn_due entry with Some old => due s ∖ {[old]} | None => due s end in
      let q := u64_wrapping_add (sequence s) 1 in
      let key := (at_, q, a) in
      set_nodes s (<[a := mkSampleNode (sn_node entry) (Some key)]> (nodes s)) ({[key]} ∪ d) q
  end.

Definition admit_node (s : DiscoveryActor) (n : NodeTuple) (now : Instant) : DiscoveryActor :=
  if negb (is_valid_node_addr (addr n)) || negb (addr_allowed_by_netmode (addr n) (netmode s)) then s
  else
    let enroll s :=
      match nodes s !! addr n with
      | Some entry =>
          set_nodes s (<[addr n := mkSampleNode n (sn_due entry)]> (nodes s)) (due s) (sequence s)
      | None =>
          let insert s :=
            schedule (set_nodes s (<[addr n := mkSampleNode n None]> (nodes s)) (due s) (sequence s))
              (addr n) now in
          if Z.max (do_sample_max_nodes (options s)) 1 <=? Z.of_nat (size (nodes s)) then
            match set_first (due s) with
            | Some key =>
                if key.1.1 <=? now
                then insert (set_nodes s (delete key.2 (nodes s)) (due s ∖ {[key]}) (sequence s))
                else note s [("discovery_node_capacity_dropped", 1)]
            | None => note s [("discovery_node_capacity_dropped", 1)]
            end
          else insert s
      end in
    match cooldowns s !! addr n with
    | Some (_, until) =>
        if now <? until then s
        else enroll (set_cooldowns s (delete (addr n) (cooldowns s))
                      (cooldown_expiry s ∖ {[(until, addr n)]}))
    | None => enroll s
    end.

Definition failure_delay (s : DiscoveryActor) : Duration :=
  from_secs (Z.max (do_sample_failure_backoff_secs (options s)) 1).

Definition cooldown_capacity (s : DiscoveryActor) : Z := Z.max (do_sample_cooldown_capacity (options s)) 1.

Definition enter_cooldown (s : DiscoveryActor) (a : SocketAddr) (until : Instant) : option DiscoveryActor :=
  match nodes s !! a with
  | None => Some s
  | Some entry =>
      let d := match sn_due entry with Some key => due s ∖ {[key]} | None => due s end in
      let s := set_nodes s (delete a (nodes s)) d (sequence s) in
      if Z.of_nat (size (cooldowns s)) <? cooldown_capacity s then
        Some (set_cooldowns s (<[a := (sn_node entry, until)]> (cooldowns s))
                ({[(until, a)]} ∪ cooldown_expiry s))
      else None
  end.

(** ** Delivering hashes *)

Section emit.
(** The crate's [hex::encode]. *)
Context (hex_encode : list Z → string).

Definition emit_hash (s : DiscoveryActor) (hash : list Z) (n : NodeTuple) (source : HashSource)
    (now : Instant) : bool * DiscoveryActor :=
  let '(duplicate, d) := HashDedup.contains (dedup s) hash (addr n) source now in
  let s := set_dedup s d in
  if duplicate : bool then (false, note s [("discovery_hash_duplicate", 1)])
  else
    let get_peers := bool_decide (source = GetPeers) in
    let '(granted, b) :=
      RateBucket.try_take_one (if get_peers then get_peers_budget s else sample_hash_budget s) now in
    let s := if get_peers then set_budgets s (query_budget s) b (sample_hash_budget s)
             else set_budgets s (query_budget s) (get_peers_budget s) b in
    if negb granted then
      (false, note s [(if get_peers then "discovery_get_peers_rate_limited" else "discovery_hash_rate_limited", 1)])
    else
      let info_hash := hex_encode hash in
      if match filter_cb s with Some f => negb (f info_hash) | None => false end then (false, s)
      else
        let ev := mkDiscovered info_hash None (Some n) source now in
        if Z.of_nat (length (hash_rx s)) <? hash_capacity s then
          let s := set_channels s (input_rx s) (response_rx s) (hash_rx s ++ [ev]) in
          let s := set_dedup s (HashDedup.insert (dedup s) hash (addr n) source now) in
          (true, note s [("hash_received", 1);
                         ("set_hash_ingress_queue_depth", Z.of_nat (length (hash_rx s)));
                         (if get_peers then "discovery_get_peers_enqueued"
                          else "discovery_sample_hashes_enqueued", 1)])
        else (false, note s [("discovery_hash_queue_full", 1)])
  .

(** [for sample in samples.chunks_exact(20).take(MAX_SAMPLES_PER_RESPONSE)] *)
Fixpoint sample_loop (samples : list (list Z)) (s : DiscoveryActor) (n : NodeTuple) (now : Instant)
    (novel : nat) : nat * DiscoveryActor :=
  match samples with
  | [] => (novel, s)
  | hash :: samples =>
      let '(known, d) := HashDedup.contains (dedup s) hash (addr n) Sample now in
      let s := set_dedup s d in
      let '(_, s) := emit_hash s hash n Sample now in
      sample_loop samples s n now (if known : bool then novel else S novel)
  end.

Definition handle_response (s : DiscoveryActor) (ev : SampleResponse) (now : Instant)
  : option DiscoveryActor :=
  let a := sr_addr ev in
  let matched :=
    match pending s !! a with
    | Some p => bool_decide (ps_tid p = sr_tid ev) && (now <? ps_deadline p)
    | None => false
    end in
  if negb matched then Some (note s [("discovery_sample_unmatched", 1)])
  else
    let s := set_pending s (delete a (pending s)) (next_tid s) in
    let unsupported s :=
      enter_cooldown (note s [("discovery_sample_unsupported", 1)]) a (now + failure_delay s) in
    match sr_response ev with
    | None => unsupported s
    | Some response =>
        match r_samples response, r_interval response, r_num response with
        | Some samples, Some interval, Some num =>
            let id_ := match r_id response with
                       | Some i => if bool_decide (length i = 20%nat) then Some i else None
                       | None => None
                       end in
            match id_ with
            | Some i =>
                if (MAX_REMOTE_INTERVAL <? interval) || negb (bool_decide (length samples `mod` 20 = 0)%nat)
                   || (num <? Z.of_nat (length samples `div` 20))
                then
                  enter_cooldown (note s [("discovery_sample_invalid", 1)]) a
                    (now + Z.max (failure_delay s) (from_secs (Z.min interval MAX_REMOTE_INTERVAL)))
                else
                  let s := note s [("discovery_sample_responses", 1)] in
                  let source_node := mkNode i a in
                  let! entry := nodes s !! a in
                  let s := set_nodes s (<[a := mkSampleNode source_node (sn_due entry)]> (nodes s))
                             (due s) (sequence s) in
                  let '(novel, s) :=
                    sample_loop (take MAX_SAMPLES_PER_RESPONSE (chunks_exact 20 samples)) s source_node now 0 in
                  let wait := Z.max (Z.max interval (do_sample_min_interval_secs (options s))) 1 in
                  let '(wait, s) :=
                    if bool_decide (novel = 0%nat)
                       && bool_decide (length samples `div` 20 ≤ MAX_SAMPLES_PER_RESPONSE)%nat
                    then (Z.max wait (do_sample_no_new_backoff_secs (options s)),
                          note s [("discovery_sample_no_new", 1)])
                    else (wait, s) in
                  let! s := enter_cooldown s a (now + from_secs wait) in
                  let neighbors :=
                    (for_each_response_node
                       (λ l n, if bool_decide (length l < 64)%nat then l ++ [n] else l)
                       response (netmode s) []).2 in
                  Some (fold_left (λ s n, admit_node s n now) neighbors s)
            | None =>
                enter_cooldown (note s [("discovery_sample_invalid", 1)]) a
                  (now + Z.max (failure_delay s) (from_secs (Z.min interval MAX_REMOTE_INTERVAL)))
            end
        | _, _, _ => unsupported s
        end
    end.
End emit.

(** ** Ticks *)

(** [for _ in 0..256] over the expired cooldowns. *)
Fixpoint cooldown_loop (n : nat) (s : DiscoveryActor) (now : Instant) : DiscoveryActor :=
  match n with
  | 0%nat => s
  | S n =>
      match set_first (cooldown_expiry s) with
      | Some (until, a) =>
          if until <=? now then
            let e := cooldown_expiry s ∖ {[(until, a)]} in
            match cooldowns s !! a with
            | Some (nd, _) =>
                cooldown_loop n (admit_node (set_cooldowns s (delete a (cooldowns s)) e) nd now) now
            | None => cooldown_loop n (set_cooldowns s (cooldowns s) e) now
            end
          else s
      | None => s
      end
  end.

(** [for addr in expired] *)
Fixpoint timeout_loop (expired : list SocketAddr) (s : DiscoveryActor) (now : Instant)
  : option DiscoveryActor :=
  match expired with
  | [] => Some s
  | a :: expired =>
      let s := set_pending s (delete a (pending s)) (next_tid s) in
      let s := note s [("discovery_sample_timeouts", 1)] in
      let! s := enter_cooldown s a (now + failure_delay s) in
      timeout_loop expired s now
  end.

Definition expired_samples (s : DiscoveryActor) (now : Instant) : list SocketAddr :=
  (filter (λ kp : SocketAddr * PendingSample, ps_deadline kp.2 ≤ now) (map_to_list (pending s))).*1.

Definition refresh_seeds `{Sampler} (s : DiscoveryActor) (snapshot : RoutingSnapshot) (now : Instant)
  : option DiscoveryActor :=
  if next_seed_refresh s <=? now then
    let s := set_refresh s (now + SEED_REFRESH) in
    let family := match netmode s with
                  | Ipv4Only => Some false
                  | Ipv6Only => Some true
                  | DualStack => None
                  end in
    let! seeds := random_nodes snapshot 128 family in
    Some (fold_left (λ s n, admit_node s n now) seeds s)
  else Some s.

(** What the network and the clock do to the query with transaction counter
    [t]: the random target, whether the datagram was sent, the time after. *)
Record Net := mkNet { nt_target : Z → list Z; nt_sent : Z → bool; nt_clock : Z → Instant }.

(** [for _ in 0..self.options.sample_burst.min(64)] *)
Fixpoint dispatch_loop (n : nat) (s : DiscoveryActor) (net : Net) (now : Instant)
  : option DiscoveryActor :=
  match n with
  | 0%nat => Some s
  | S n =>
      if do_sample_max_in_flight (options s) <=? Z.of_nat (size (pending s)) then Some s
      else
        match set_first (due s) with
        | None => Some s
        | Some key =>
            if now <? key.1.1 then Some s
            else if cooldown_capacity s <=? Z.of_nat (size (cooldowns s) + size (pending s))
            then Some (note s [("discovery_sample_cooldown_full", 1)])
            else
              let '(granted, b) := RateBucket.try_take_one (query_budget s) now in
              let s := set_budgets s b (get_peers_budget s) (sample_hash_budget s) in
              if negb granted then Some s
              else
                let! entry := nodes s !! key.2 in
                let nd := sn_node entry in
                let s := set_nodes s (<[key.2 := mkSampleNode nd None]> (nodes s)) (due s ∖ {[key]})
                           (sequence s) in
                let t := next_tid s in
                let tid := <[0%nat := SAMPLE_TID_TAG]> (be8 t) in
                let s := set_pending s (pending s) (Z.max (u64_wrapping_add t 1) 1) in
                let buffer := encode_sample_infohashes_query [] tid (NodeId.random_node_id (nt_target net t)) (local_id s) in
                let sent := (if is_ipv4 (addr nd) then v4 s else v6 s) && nt_sent net t in
                if sent then
                  let p := mkPendingSample tid
                    (nt_clock net t + from_secs (Z.max (do_sample_query_timeout_secs (options s)) 1)) in
                  let s := set_pending s (<[addr nd := p]> (pending s)) (next_tid s) in
                  dispatch_loop n (note s [("udp_sent", Z.of_nat (length buffer));
                                           ("discovery_sample_queries", 1)]) net now
                else
                  let! s := enter_cooldown (note s [("discovery_sample_send_failed", 1)]) (addr nd)
                              (now + failure_delay s) in
                  dispatch_loop n s net now
        end
  end.

Definition on_tick `{Sampler} (s : DiscoveryActor) (snapshot : RoutingSnapshot) (net : Net)
    (now : Instant) : option DiscoveryActor :=
  let s := cooldown_loop 256 s now in
  let! s := timeout_loop (expired_samples s now) s now in
  let! s := refresh_seeds s snapshot now in
  let! s := dispatch_loop (Z.to_nat (Z.min (do_sample_burst (options s)) 64)) s net now in
  Some (note s [("discovery_candidate_nodes", Z.of_nat (size (nodes s)));
                ("discovery_cooldown_nodes", Z.of_nat (size (cooldowns s)));
                ("discovery_samples_in_flight", Z.of_nat (size (pending s)))]).

(** ** Events: the arms of [select!] and the tasks around the actor *)

Inductive event :=
  | Tick (snapshot : RoutingSnapshot) (net : Net)
  | RecvResponse
  | RecvInput
  | ObserveGetPeers (hash : list Z) (n : NodeTuple)
  | RouteResponse (a : SocketAddr) (tid : list Z) (response : option DhtResponse)
  | ConsumeHash
  | SetFilter (f : option (string → bool)).

(** Whether the task of the event exists: the actor's own arms need the actor
    [spawn_discovery] spawned. *)
Definition spawned (s : DiscoveryActor) (ev : event) : bool :=
  match ev with Tick _ _ | RecvResponse | RecvInput => do_enabled (options s) | _ => true end.

Definition handle_event `{Sampler} (hex_encode : list Z → string) (s : DiscoveryActor) (ev : event)
    (now : Instant) : option DiscoveryActor :=
  if negb (spawned s ev) then Some s else
  match ev with
  | Tick snapshot net => on_tick s snapshot net now
  | RecvResponse =>
      match response_rx s with
      | [] => Some s
      | r :: q => handle_response hex_encode (set_channels s (input_rx s) q (hash_rx s)) r now
      end
  | RecvInput =>
      match input_rx s with
      | [] => Some s
      | c :: q =>
          Some (emit_hash hex_encode (set_channels s q (response_rx s) (hash_rx s)) (hi_hash c) (hi_node c)
                  GetPeers now).2
      end
  | ObserveGetPeers hash n => Some (observe_get_peers s hash n)
  | RouteResponse a tid r => Some (route_response s a tid r)
  | ConsumeHash => Some (set_channels s (input_rx s) (response_rx s) (drop 1 (hash_rx s)))
  | SetFilter f => Some (set_filter s f)
  end.

(** ** Invariant

    Every known address is in exactly one place: waiting (in [nodes] with a
    key in [due]), in flight (in [nodes] without a key, and in [pending]) or
    resting (in [cooldowns]).  [held] is an address that an operation has
    taken out of [due] or [pending] and not yet put back. *)

Definition held_count (held : option SocketAddr) : nat := if held then 1%nat else 0%nat.

Definition placed (held : option SocketAddr) (s : DiscoveryActor) : Prop :=
  (∀ a e, nodes s !! a = Some e →
     addr (sn_node e) = a ∧ ∀ key, sn_due e = Some key → key ∈ due s ∧ key.2 = a)
  ∧ (∀ key, key ∈ due s → ∃ e, nodes s !! key.2 = Some e ∧ sn_due e = Some key)
  ∧ (∀ a, (∃ e, nodes s !! a = Some e ∧ sn_due e = None) ↔ is_Some (pending s !! a) ∨ held = Some a)
  ∧ (∀ a, held = Some a → pending s !! a = None)
  ∧ (∀ a n u, cooldowns s !! a = Some (n, u) →
       addr n = a ∧ (u, a) ∈ cooldown_expiry s ∧ nodes s !! a = None)
  ∧ (∀ u a, (u, a) ∈ cooldown_expiry s → ∃ n, cooldowns s !! a = Some (n, u))
  ∧ Z.of_nat (size (nodes s)) ≤ Z.max (do_sample_max_nodes (options s)) 1
  ∧ Z.of_nat (size (cooldowns s) + size (pending s) + held_count held) ≤ cooldown_capacity s
  ∧ Z.of_nat (size (pending s) + held_count held) ≤ do_sample_max_in_flight (options s).

(** What the node operations never touch. *)
Definition io (s : DiscoveryActor) :=
  (options s, netmode s, (input_rx s, response_rx s, hash_rx s, hash_capacity s), dedup s).

Definition queues_ok (s : DiscoveryActor) : Prop :=
  Z.of_nat (length (input_rx s)) ≤ INPUT_CAPACITY ∧ Z.of_nat (length (response_rx s)) ≤ RESPONSE_CAPACITY
  ∧ Z.of_nat (length (hash_rx s)) ≤ hash_capacity s.

Definition actor_ok (t : Instant) (s : DiscoveryActor) : Prop :=
  placed None s ∧ HashDedup.wf t (dedup s) ∧ queues_ok s.

Lemma placed_cooldown_waiting s a : placed None s → is_Some (nodes s !! a) → cooldowns s !! a = None.
Proof.
  intros (_ & _ & _ & _ & Hc & _) [e He]. destruct (cooldowns s !! a) as [[n u]|] eqn:E; [|done].
  apply Hc in E as (_ & _ & E). congruence.
Qed.

Lemma insert_waiting s a n at_ q :
  placed None s → nodes s !! a = None → cooldowns s !! a = None → addr n = a →
  Z.of_nat (size (nodes s)) < Z.max (do_sample_max_nodes (options s)) 1 →
  placed None (set_nodes s (<[a := mkSampleNode n (Some (at_, q, a))]> (nodes s))
                 ({[(at_, q, a)]} ∪ due s) q).
Proof.
  intros (H1 & H2 & H3 & H4 & H5 & H6 & H7 & H8 & H9) Hn Hc Ha Hsz.
  assert (∀ key, key ∈ due s → key.2 ≠ a) as Hna.
  { intros key Hk Heq. destruct (H2 _ Hk) as (e & He & _). congruence. }
  unfold placed. simpl. split_and!; try done.
  - intros b e [[<- <-]|[Hne Hb]]%lookup_insert_Some.
    + split; [done|]. intros key [= <-]. split; [set_solver|done].
    + destruct (H1 _ _ Hb) as [? Hd]. split; [done|]. intros key Hk. destruct (Hd _ Hk). split; [set_solver|done].
  - intros key [->%elem_of_singleton|Hk]%elem_of_union.
    + eexists. simpl. by rewrite lookup_insert_eq.
    + destruct (H2 _ Hk) as (e & He & Hd). exists e. rewrite lookup_insert_ne; [done|]. by apply not_eq_sym, Hna.
  - intros b. rewrite <-H3. split; intros (e & He & Hd).
    + apply lookup_insert_Some in He as [[<- <-]|[Hne He]]; [done|]. eauto.
    + exists e. rewrite lookup_insert_ne by congruence. done.
  - intros b m u Hb. destruct (H5 _ _ _ Hb) as (? & ? & ?). split_and!; try done.
    rewrite lookup_insert_ne by congruence. done.
  - rewrite map_size_insert_None by done. lia.
Qed.

Lemma remove_waiting s key q :
  placed None s → key ∈ due s →
  placed None (set_nodes s (delete key.2 (nodes s)) (due s ∖ {[key]}) q)
  ∧ S (size (delete key.2 (nodes s))) = size (nodes s).
Proof.
  intros (H1 & H2 & H3 & H4 & H5 & H6 & H7 & H8 & H9) Hk.
  destruct (H2 _ Hk) as (e & He & Hd).
  assert (S (size (delete key.2 (nodes s))) = size (nodes s)) as Hsz.
  { assert (size (nodes s) ≠ 0%nat) by (by apply (map_size_ne_0_lookup_2 _ key.2); eauto).
    rewrite map_size_delete_Some by eauto. lia. }
  split; [|done]. unfold placed. simpl. split_and!; try done.
  - intros b e' [Hne Hb]%lookup_delete_Some. destruct (H1 _ _ Hb) as [? Hd']. split; [done|].
    intros k' Hk'. destruct (Hd' _ Hk') as [? <-]. split; [|done]. set_solver.
  - intros k' [Hk' Hne]%elem_of_difference. destruct (H2 _ Hk') as (e' & He' & Hd'). exists e'.
    rewrite lookup_delete_ne; [done|]. intros Heq. rewrite <-Heq in He'. set_solver.
  - intros b. rewrite <-H3. split; intros (e' & He' & Hd').
    + apply lookup_delete_Some in He' as [_ He']. eauto.
    + exists e'. rewrite lookup_delete_ne; [done|]. intros <-. congruence.
  - intros b m u Hb. destruct (H5 _ _ _ Hb) as (? & ? & ?). split_and!; try done.
    rewrite lookup_delete_None. by right.
  - lia.
Qed.

Lemma replace_node held s a e n q :
  placed held s → nodes s !! a = Some e → addr n = a →
  placed held (set_nodes s (<[a := mkSampleNode n (sn_due e)]> (nodes s)) (due s) q).
Proof.
  intros (H1 & H2 & H3 & H4 & H5 & H6 & H7 & H8 & H9) He Ha. unfold placed. simpl. split_and!; try done.
  - intros b e' [[<- <-]|[Hne Hb]]%lookup_insert_Some; [|by apply H1].
    split; [done|]. simpl. by apply H1.
  - intros key Hk. destruct (H2 _ Hk) as (e' & He' & Hd). destruct (decide (key.2 = a)) as [Heq|Hne].
    + rewrite Heq in *. eexists. rewrite lookup_insert_eq. split; [done|]. simpl. congruence.
    + exists e'. by rewrite lookup_insert_ne.
  - intros b. rewrite <-H3. destruct (decide (a = b)) as [<-|Hne].
    + rewrite lookup_insert_eq, He. naive_solver.
    + by rewrite lookup_insert_ne.
  - intros b m u Hb. destruct (H5 _ _ _ Hb) as (? & ? & ?). split_and!; try done.
    rewrite lookup_insert_ne by congruence. done.
  - rewrite map_size_insert_Some by eauto. done.
Qed.

Lemma drop_cooldown held s a n u :
  placed held s → cooldowns s !! a = Some (n, u) →
  placed held (set_cooldowns s (delete a (cooldowns s)) (cooldown_expiry s ∖ {[(u, a)]})).
Proof.
  intros (H1 & H2 & H3 & H4 & H5 & H6 & H7 & H8 & H9) Hc. unfold placed. simpl. split_and!; try done.
  - intros b m v [Hne Hb]%lookup_delete_Some. destruct (H5 _ _ _ Hb) as (? & ? & ?). set_solver.
  - intros v b [Hin Hne]%elem_of_difference. destruct (H6 _ _ Hin) as [m Hm]. exists m.
    rewrite lookup_delete_ne; [done|]. intros <-. rewrite Hc in Hm. set_solver.
  - rewrite map_size_delete_Some by eauto. unfold cooldown_capacity in *. simpl. lia.
Qed.

Lemma enter_cooldown_ok s a until :
  placed (Some a) s →
  ∃ s', enter_cooldown s a until = Some s' ∧ placed None s' ∧ io s' = io s
    ∧ ∃ n, cooldowns s' = <[a := (n, until)]> (cooldowns s).
Proof.
  intros (H1 & H2 & H3 & H4 & H5 & H6 & H7 & H8 & H9). unfold enter_cooldown.
  destruct (proj2 (H3 a) (or_intror eq_refl)) as (e & He & Hd). rewrite He, Hd. simpl in H8, H9.
  destruct (Z.ltb_spec (Z.of_nat (size (cooldowns s))) (cooldown_capacity s)) as [Hlt|Hge];
    [|unfold cooldown_capacity in *; lia].
  assert (cooldowns s !! a = None) as Hc.
  { destruct (cooldowns s !! a) as [[n u]|] eqn:E; [|done]. apply H5 in E as (_ & _ & E). congruence. }
  change (_ <? _) with (Z.of_nat (size (cooldowns s)) <? cooldown_capacity s).
  apply Z.ltb_lt in Hlt. rewrite Hlt. eexists. split; [done|]. split; [|by eauto].
  unfold placed. simpl. split_and!; try done.
  - intros b e' [Hne Hb]%lookup_delete_Some. by apply H1.
  - intros key Hk. destruct (H2 _ Hk) as (e' & He' & Hd'). exists e'.
    rewrite lookup_delete_ne; [done|]. intros Heq. rewrite <-Heq in He'. congruence.
  - intros b. specialize (H3 b). split.
    + intros (e' & [Hne He']%lookup_delete_Some & Hd'). left.
      destruct (proj1 H3) as [?|[= ?]]; [by eauto|done|congruence].
    + intros [Hp|]; [|done]. destruct (proj2 H3 (or_introl Hp)) as (e' & He' & Hd'). exists e'.
      rewrite lookup_delete_ne; [done|]. intros <-. rewrite (H4 a eq_refl) in Hp. by destruct Hp.
  - intros b m v [[<- [= <- <-]]|[Hne Hb]]%lookup_insert_Some.
    + split_and!; [by apply H1 in He as [? _]|set_solver|apply lookup_delete_eq].
    + destruct (H5 _ _ _ Hb) as (? & ? & ?). split_and!; [done|set_solver|]. rewrite lookup_delete_None. by right.
  - intros v b [[= -> ->]%elem_of_singleton|Hin]%elem_of_union.
    + eexists. by rewrite lookup_insert_eq.
    + destruct (H6 _ _ Hin) as [m Hm]. exists m. rewrite lookup_insert_ne by congruence. done.
  - rewrite map_size_delete_Some by eauto. lia.
  - rewrite map_size_insert_None by done. unfold cooldown_capacity in *. simpl. lia.
  - lia.
Qed.

Lemma hold_pending s a p t :
  placed None s → pending s !! a = Some p → placed (Some a) (set_pending s (delete a (pending s)) t).
Proof.
  intros (H1 & H2 & H3 & H4 & H5 & H6 & H7 & H8 & H9) Hp. unfold placed. simpl.
  assert (size (pending s) ≠ 0%nat) by (by apply (map_size_ne_0_lookup_2 _ a); eauto).
  rewrite map_size_delete_Some by eauto. simpl in *. split_and!; try done; try lia.
  - intros b. rewrite H3. destruct (decide (a = b)) as [<-|Hne].
    + rewrite Hp. split; eauto.
    + rewrite lookup_delete_ne by done. split; intros [?|?]; (done || auto || congruence).
  - intros b [= <-]. apply lookup_delete_eq.
  - unfold cooldown_capacity in *. simpl. lia.
Qed.

Lemma hold_due s key e q :
  placed None s → key ∈ due s → nodes s !! key.2 = Some e →
  Z.of_nat (size (cooldowns s) + size (pending s)) < cooldown_capacity s →
  Z.of_nat (size (pending s)) < do_sample_max_in_flight (options s) →
  placed (Some key.2) (set_nodes s (<[key.2 := mkSampleNode (sn_node e) None]> (nodes s)) (due s ∖ {[key]}) q).
Proof.
  intros (H1 & H2 & H3 & H4 & H5 & H6 & H7 & H8 & H9) Hk He Hc Hp. unfold placed. simpl.
  destruct (H2 _ Hk) as (e0 & He0 & Hd). rewrite He in He0. injection He0 as <-.
  split_and!; try done; try (unfold cooldown_capacity in *; simpl; lia).
  - intros b e' [[<- <-]|[Hne Hb]]%lookup_insert_Some.
    + split; [|done]. simpl. by apply (H1 _ _ He).
    + destruct (H1 _ _ Hb) as [? Hd']. split; [done|]. intros k' Hk'. destruct (Hd' _ Hk') as [? <-].
      set_solver.
  - intros k' [Hk' Hne]%elem_of_difference. destruct (H2 _ Hk') as (e' & He' & Hd'). exists e'.
    rewrite lookup_insert_ne; [done|]. intros Heq. rewrite <-Heq in He'. set_solver.
  - intros b. destruct (decide (key.2 = b)) as [<-|Hne].
    + rewrite lookup_insert_eq. split; [by right|]. intros _. by eexists.
    + rewrite lookup_insert_ne by done. rewrite H3. split; intros [?|?]; (done || auto || congruence).
  - intros b [= <-]. destruct (pending s !! key.2) as [p|] eqn:E; [|done].
    destruct (proj2 (H3 key.2)) as (e' & He' & Hd'); [left; by rewrite E|]. congruence.
  - intros b m u Hb. destruct (H5 _ _ _ Hb) as (? & ? & ?). split_and!; try done.
    rewrite lookup_insert_ne; [done|]. congruence.
  - rewrite map_size_insert_Some by eauto. done.
Qed.

Lemma send_ok s a p t :
  placed (Some a) s → placed None (set_pending s (<[a := p]> (pending s)) t).
Proof.
  intros (H1 & H2 & H3 & H4 & H5 & H6 & H7 & H8 & H9). unfold placed. simpl in *.
  pose proof (H4 a eq_refl) as Hp. rewrite map_size_insert_None by done.
  split_and!; try done; try (unfold cooldown_capacity in *; simpl; lia).
  intros b. rewrite H3. destruct (decide (a = b)) as [<-|Hne].
  - rewrite lookup_insert_eq. split; eauto.
  - rewrite lookup_insert_ne by done. split; intros [?|?]; (done || auto || congruence).
Qed.

(** ** Operations *)

(** No address leaves its cooldown before its time. *)
Definition rests (now : Instant) (s s' : DiscoveryActor) : Prop :=
  ∀ a n u, cooldowns s !! a = Some (n, u) → now < u → cooldowns s' !! a = Some (n, u).

Definition node_step (now : Instant) (s s' : DiscoveryActor) : Prop :=
  placed None s' ∧ io s' = io s ∧ rests now s s'.

Lemma node_step_same now s s' :
  placed None s' → io s' = io s → cooldowns s' = cooldowns s → node_step now s s'.
Proof. intros ? ? Hc. split; [done|]. split; [done|]. intros a n u. by rewrite Hc. Qed.

Lemma node_step_refl now s : placed None s → node_step now s s.
Proof. intros ?. by apply node_step_same. Qed.

Lemma node_step_trans now s1 s2 s3 : node_step now s1 s2 → node_step now s2 s3 → node_step now s1 s3.
Proof.
  intros (_ & Hio & Hr) (? & Hio' & Hr'). split; [done|]. split; [congruence|].
  intros a n u Ha Hu. eauto.
Qed.

Lemma schedule_fresh s a n at_ :
  schedule (set_nodes s (<[a := mkSampleNode n None]> (nodes s)) (due s) (sequence s)) a at_
  = let q := u64_wrapping_add (sequence s) 1 in
    set_nodes s (<[a := mkSampleNode n (Some (at_, q, a))]> (nodes s)) ({[(at_, q, a)]} ∪ due s) q.
Proof. unfold schedule. simpl. rewrite lookup_insert_eq. simpl. by rewrite insert_insert_eq. Qed.

Lemma admit_new_ok s n now :
  placed None s → cooldowns s !! addr n = None → nodes s !! addr n = None →
  Z.of_nat (size (nodes s)) < Z.max (do_sample_max_nodes (options s)) 1 →
  node_step now s (schedule (set_nodes s (<[addr n := mkSampleNode n None]> (nodes s)) (due s) (sequence s))
                     (addr n) now).
Proof.
  intros Hpl Hc Hn Hsz. rewrite schedule_fresh. apply node_step_same; [|done..]. by apply insert_waiting.
Qed.

Lemma admit_node_ok s n now : placed None s → node_step now s (admit_node s n now).
Proof.
  intros Hpl. unfold admit_node. destruct (_ || _); [by apply node_step_refl|].
  assert (∀ s, placed None s → cooldowns s !! addr n = None → node_step now s
    (match nodes s !! addr n with
     | Some entry => set_nodes s (<[addr n := mkSampleNode n (sn_due entry)]> (nodes s)) (due s) (sequence s)
     | None =>
         let insert s := schedule (set_nodes s (<[addr n := mkSampleNode n None]> (nodes s)) (due s) (sequence s))
              (addr n) now in
         if Z.max (do_sample_max_nodes (options s)) 1 <=? Z.of_nat (size (nodes s)) then
            match set_first (due s) with
            | Some key =>
                if key.1.1 <=? now
                then insert (set_nodes s (delete key.2 (nodes s)) (due s ∖ {[key]}) (sequence s))
                else note s [("discovery_node_capacity_dropped", 1)]
            | None => note s [("discovery_node_capacity_dropped", 1)]
            end
          else insert s
     end)) as Hadmit.
  { clear s Hpl. intros s Hpl Hc. destruct (nodes s !! addr n) as [e|] eqn:He.
    { apply node_step_same; [by apply replace_node|done..]. }
    cbn zeta. destruct (Z.leb_spec (Z.max (do_sample_max_nodes (options s)) 1) (Z.of_nat (size (nodes s)))).
    2:{ by apply admit_new_ok. }
    destruct (set_first (due s)) as [key|] eqn:Hf; [|by apply node_step_same].
    destruct (key.1.1 <=? now); [|by apply node_step_same].
    apply set_first_Some in Hf as [Hk _]. destruct (remove_waiting s key (sequence s) Hpl Hk) as [Hpl1 Hsz].
    set (s1 := set_nodes s (delete key.2 (nodes s)) _ _) in *.
    apply (node_step_trans now s s1); [by apply node_step_same|]. apply admit_new_ok; try done.
    - simpl. rewrite lookup_delete_None. by right.
    - destruct Hpl as (_ & _ & _ & _ & _ & _ & Hmax & _). simpl. lia. }
  destruct (cooldowns s !! addr n) as [[m u]|] eqn:Hc; [|by apply Hadmit].
  destruct (Z.ltb_spec now u) as [|Hle]; [by apply node_step_refl|].
  pose proof (drop_cooldown None s _ _ _ Hpl Hc) as Hpl1. set (s1 := set_cooldowns s _ _) in *.
  apply (node_step_trans now s s1); [|apply Hadmit; [done|apply lookup_delete_eq]].
  split; [done|]. split; [done|]. intros b m' u' Hb Hu. simpl. rewrite lookup_delete_ne; [done|]. intros <-.
  rewrite Hc in Hb. injection Hb as -> ->. lia.
Qed.

Lemma enroll_all_ok ns s now : placed None s → node_step now s (fold_left (λ s n, admit_node s n now) ns s).
Proof.
  revert s; induction ns as [|n ns IH]; intros s Hpl; simpl; [by apply node_step_refl|].
  pose proof (admit_node_ok s n now Hpl) as H1. eapply node_step_trans; [exact H1|]. apply IH, H1.
Qed.

Lemma cooldown_loop_ok n s now : placed None s → node_step now s (cooldown_loop n s now).
Proof.
  revert s; induction n as [|n IH]; intros s Hpl; cbn [cooldown_loop]; [by apply node_step_refl|].
  destruct (set_first (cooldown_expiry s)) as [[u a]|] eqn:Hf; [|by apply node_step_refl].
  destruct (Z.leb_spec u now) as [Hle|]; [|by apply node_step_refl].
  apply set_first_Some in Hf as [Hin _]. pose proof Hpl as (_ & _ & _ & _ & _ & H6 & _).
  destruct (H6 _ _ Hin) as [m Hm]. rewrite Hm. cbn zeta.
  pose proof (drop_cooldown None s _ _ _ Hpl Hm) as Hpl1. set (s1 := set_cooldowns s _ _) in *.
  assert (node_step now s s1) as H1.
  { split; [done|]. split; [done|]. intros b m' u' Hb Hu. simpl. rewrite lookup_delete_ne; [done|]. intros <-.
    rewrite Hm in Hb. injection Hb as -> ->. lia. }
  pose proof (admit_node_ok s1 m now Hpl1) as H2.
  eapply node_step_trans; [exact H1|]. eapply node_step_trans; [exact H2|]. apply IH, H2.
Qed.

(** Entering a cooldown disturbs no other one: the address was not resting. *)
Lemma held_not_resting s a : placed (Some a) s → cooldowns s !! a = None.
Proof.
  intros (_ & _ & H3 & _ & H5 & _). destruct (proj2 (H3 a) (or_intror eq_refl)) as (e & He & _).
  destruct (cooldowns s !! a) as [[n u]|] eqn:E; [|done]. apply H5 in E as (_ & _ & E). congruence.
Qed.

Lemma enter_step now s a until :
  placed (Some a) s →
  ∃ s', enter_cooldown s a until = Some s' ∧ node_step now s s'
    ∧ ∃ n, cooldowns s' !! a = Some (n, until).
Proof.
  intros Hpl. destruct (enter_cooldown_ok s a until Hpl) as (s' & He & Hpl' & Hio & n & Hc).
  exists s'. split; [done|]. split; [split; [done|split; [done|]]|].
  - intros b m u Hb Hu. rewrite Hc, lookup_insert_ne; [done|]. intros <-.
    rewrite (held_not_resting _ _ Hpl) in Hb. done.
  - exists n. by rewrite Hc, lookup_insert_eq.
Qed.

Lemma timeout_loop_ok l s now :
  placed None s → NoDup l → (∀ a, a ∈ l → is_Some (pending s !! a)) →
  ∃ s', timeout_loop l s now = Some s' ∧ node_step now s s'.
Proof.
  revert s; induction l as [|a l IH]; intros s Hpl Hnd Hl; cbn [timeout_loop].
  { exists s. split; [done|]. by apply node_step_refl. }
  apply NoDup_cons in Hnd as [Hni Hnd]. destruct (Hl a) as [p Hp]; [set_solver|].
  pose proof (hold_pending s a p (next_tid s) Hpl Hp) as Hh. cbn zeta.
  set (s1 := note (set_pending s _ _) _).
  destruct (enter_step now s1 a (now + failure_delay s1)) as (s2 & He & H2 & _); [exact Hh|]. rewrite He.
  assert (pending s2 = delete a (pending s)) as Hps.
  { unfold enter_cooldown in He. destruct (nodes s1 !! a); [|by injection He as <-].
    destruct (_ <? _); [by injection He as <-|done]. }
  destruct (IH s2) as (s' & -> & H3); [apply H2|done| |].
  { intros b Hb. rewrite Hps, lookup_delete_ne; [apply Hl; set_solver|]. intros <-. done. }
  exists s'. split; [done|]. eapply node_step_trans; [|exact H3]. exact H2.
Qed.

Lemma expired_samples_ok s now :
  NoDup (expired_samples s now) ∧ ∀ a, a ∈ expired_samples s now → is_Some (pending s !! a).
Proof.
  unfold expired_samples. split.
  - eapply NoDup_fmap_fst; [|apply NoDup_filter, NoDup_map_to_list].
    intros x y1 y2 [_ H1]%list_elem_of_filter [_ H2]%list_elem_of_filter.
    apply elem_of_map_to_list in H1, H2. congruence.
  - intros a ([b p] & -> & [_ Hin]%list_elem_of_filter)%list_elem_of_fmap.
    apply elem_of_map_to_list in Hin. simpl. by rewrite Hin.
Qed.

Lemma refresh_seeds_ok `{Sampler} s snap now :
  placed None s → ∃ s', refresh_seeds s snap now = Some s' ∧ node_step now s s'.
Proof.
  intros Hpl. unfold refresh_seeds. destruct (_ <=? _); [|exists s; split; [done|by apply node_step_refl]].
  cbn zeta. destruct (random_nodes_total snap 128 (match netmode (set_refresh s (now + SEED_REFRESH)) with
    | Ipv4Only => Some false | Ipv6Only => Some true | DualStack => None end)) as [seeds ->].
  eexists. split; [done|].
  exact (enroll_all_ok seeds (set_refresh s (now + SEED_REFRESH)) now Hpl).
Qed.

Lemma sample_dispatch_ok n s net now :
  placed None s → ∃ s', dispatch_loop n s net now = Some s' ∧ node_step now s s'.
Proof.
  revert s; induction n as [|n IH]; intros s Hpl; cbn [dispatch_loop].
  { exists s. split; [done|]. by apply node_step_refl. }
  destruct (Z.leb_spec (do_sample_max_in_flight (options s)) (Z.of_nat (size (pending s)))) as [|Hmax].
  { exists s. split; [done|]. by apply node_step_refl. }
  destruct (set_first (due s)) as [key|] eqn:Hf; [|exists s; split; [done|by apply node_step_refl]].
  apply set_first_Some in Hf as [Hk _].
  destruct (now <? key.1.1); [exists s; split; [done|by apply node_step_refl]|].
  destruct (Z.leb_spec (cooldown_capacity s) (Z.of_nat (size (cooldowns s) + size (pending s)))) as [|Hcap].
  { eexists. split; [done|]. by apply node_step_same. }
  destruct (RateBucket.try_take_one (query_budget s) now) as [granted b]. cbn zeta.
  destruct granted; cbn [negb]; [|eexists; split; [done|by apply node_step_same]].
  pose proof Hpl as (H1 & H2 & _). destruct (H2 _ Hk) as (e & He & _).
  change (nodes (set_budgets s b (get_peers_budget s) (sample_hash_budget s))) with (nodes s). rewrite He.
  destruct (H1 _ _ He) as [Haddr _]. cbn zeta. rewrite Haddr.
  pose proof (hold_due s key e (sequence s) Hpl Hk He Hcap Hmax) as Hh.
  set (s1 := set_nodes _ _ _ _). set (t := next_tid s1). set (tid := <[0%nat := SAMPLE_TID_TAG]> (be8 t)).
  destruct (_ && nt_sent net t).
  - set (s2 := note _ _). assert (node_step now s s2) as Hs2.
    { apply node_step_same; [|done..]. exact (send_ok _ key.2 _ (next_tid s2) Hh). }
    destruct (IH s2) as (s' & -> & H3); [apply Hs2|]. exists s'. split; [done|]. exact (node_step_trans _ _ _ _ Hs2 H3).
  - set (s2 := note _ _). destruct (enter_step now s2 key.2 (now + failure_delay s2)) as (s3 & He3 & H3 & _);
      [exact Hh|].
    change (failure_delay (set_pending s1 (pending s1) (Z.max (u64_wrapping_add t 1) 1))) with (failure_delay s2).
    rewrite He3. destruct (IH s3) as (s' & -> & H4); [apply H3|]. exists s'. split; [done|].
    eapply node_step_trans; [|exact H4]. exact H3.
Qed.

Lemma on_tick_ok `{Sampler} s snap net now :
  placed None s → ∃ s', on_tick s snap net now = Some s' ∧ node_step now s s'.
Proof.
  intros Hpl. unfold on_tick. cbn zeta. pose proof (cooldown_loop_ok 256 s now Hpl) as H1.
  set (s1 := cooldown_loop 256 s now) in *. clearbody s1. destruct (expired_samples_ok s1 now) as [Hnd Hin].
  destruct (timeout_loop_ok (expired_samples s1 now) s1 now) as (s2 & -> & H2); [apply H1|done..|].
  destruct (refresh_seeds_ok s2 snap now) as (s3 & -> & H3); [apply H2|].
  destruct (sample_dispatch_ok (Z.to_nat (Z.min (do_sample_burst (options s3)) 64)) s3 net now)
    as (s4 & -> & H4); [apply H3|]. eexists. split; [done|].
  eapply node_step_trans; [exact H1|]. eapply node_step_trans; [exact H2|].
  eapply node_step_trans; [exact H3|]. exact H4.
Qed.

(** *** Delivering hashes touches only the table, the budgets and the queue *)

Definition places (s : DiscoveryActor) :=
  (options s, netmode s, (nodes s, due s, pending s), (cooldowns s, cooldown_expiry s)).

Definition chan_ok (t : Instant) (s : DiscoveryActor) : Prop := HashDedup.wf t (dedup s) ∧ queues_ok s.

Lemma placed_places held s s' : places s' = places s → placed held s → placed held s'.
Proof.
  unfold places, placed, cooldown_capacity. intros [= Ho Hn Hd Hp Hc He Hx].
  by rewrite Ho, Hd, Hp, Hc, He, Hx.
Qed.

Lemma io_chan t s s' : io s' = io s → chan_ok t s → chan_ok t s'.
Proof. unfold io, chan_ok, queues_ok. intros [= Ho Hn Hi Hr Hh Hc Hd]. by rewrite Hi, Hr, Hh, Hc, Hd. Qed.

Section emit_proofs.
Context (hex_encode : list Z → string).

Lemma emit_hash_ok t s h n src :
  chan_ok t s →
  let s' := (emit_hash hex_encode s h n src t).2 in
  chan_ok t s' ∧ places s' = places s ∧ hash_capacity s' = hash_capacity s.
Proof.
  intros [Hd Hq]. unfold emit_hash.
  destruct (HashDedup.dedup_contains_wf t (dedup s) h (addr n) src t Hd) as (Hd1 & _).
  destruct (HashDedup.contains (dedup s) h (addr n) src t) as [dup d]. cbn [snd] in Hd1.
  destruct dup; [done|]. cbn zeta.
  destruct (RateBucket.try_take_one _ t) as [granted b].
  set (s1 := if bool_decide (src = GetPeers) then _ else _).
  assert (chan_ok t s1 ∧ places s1 = places s ∧ hash_capacity s1 = hash_capacity s) as (Hc1 & Hp1 & Hh1).
  { subst s1. destruct (bool_decide _); done. }
  destruct granted; cbn [negb]; [|done].
  destruct (match filter_cb s1 with Some f => negb (f (hex_encode h)) | None => false end); [done|].
  destruct (Z.ltb_spec (Z.of_nat (length (hash_rx s1))) (hash_capacity s1)); [|done].
  destruct Hc1 as [Hd2 (Hi & Hr & Hh)]. split; [|done].
  split; [by apply HashDedup.dedup_insert_wf|]. split; [done|]. split; [done|]. simpl.
  rewrite length_app. simpl. lia.
Qed.

Lemma sample_loop_ok t l s n k :
  chan_ok t s →
  let s' := (sample_loop hex_encode l s n t k).2 in
  chan_ok t s' ∧ places s' = places s ∧ hash_capacity s' = hash_capacity s.
Proof.
  revert s k; induction l as [|h l IH]; intros s k Hok; cbn [sample_loop]; [done|].
  destruct (HashDedup.dedup_contains_wf t (dedup s) h (addr n) Sample t (proj1 Hok)) as (Hd1 & _).
  destruct (HashDedup.contains (dedup s) h (addr n) Sample t) as [known d]. cbn [snd] in Hd1. cbn zeta.
  destruct (emit_hash_ok t (set_dedup s d) h n Sample) as (Hok1 & Hp1 & Hh1); [by split; [|apply Hok]|].
  destruct (emit_hash hex_encode (set_dedup s d) h n Sample t) as [b s1]. cbn [snd] in *.
  destruct (IH s1 (if known then k else S k) Hok1) as (Hok2 & Hp2 & Hh2).
  split; [done|]. split; [by rewrite Hp2, Hp1|by rewrite Hh2, Hh1].
Qed.

(** What one event does to the actor. *)
Definition ok_step (t : Instant) (s s' : DiscoveryActor) : Prop :=
  actor_ok t s' ∧ options s' = options s ∧ hash_capacity s' = hash_capacity s ∧ rests t s s'.

Lemma ok_step_same t s s' :
  actor_ok t s' → options s' = options s → hash_capacity s' = hash_capacity s →
  cooldowns s' = cooldowns s → ok_step t s s'.
Proof. intros ? ? ? Hc. split; [done|]. split; [done|]. split; [done|]. intros a n u. by rewrite Hc. Qed.

Lemma node_ok_step t s0 s s' :
  chan_ok t s → options s = options s0 → hash_capacity s = hash_capacity s0 → cooldowns s = cooldowns s0 →
  node_step t s s' → ok_step t s0 s'.
Proof.
  intros Hch Ho Hh Hc (Hpl & Hio & Hr). pose proof (io_chan t _ _ Hio Hch) as Hch'.
  injection Hio as Ho' _ _ _ _ Hh' _.
  split; [by split|]. split; [congruence|]. split; [congruence|]. intros a n u. rewrite <-Hc. apply Hr.
Qed.

(** The wait a reply asks for, as far as the protocol lets it. *)
Definition asked_wait (ev : SampleResponse) : Z :=
  match sr_response ev with
  | Some r =>
      match r_samples r, r_interval r, r_num r with
      | Some _, Some interval, Some _ => Z.max (Z.min interval MAX_REMOTE_INTERVAL) 1
      | _, _, _ => 1
      end
  | None => 1
  end.

Definition rests_for (s' : DiscoveryActor) (ev : SampleResponse) (now : Instant) : Prop :=
  ∃ n u, cooldowns s' !! sr_addr ev = Some (n, u) ∧ now + from_secs (asked_wait ev) ≤ u.

Lemma failure_delay_min s : from_secs 1 ≤ failure_delay s.
Proof. unfold failure_delay, from_secs. lia. Qed.

Lemma from_secs_mono a b : a ≤ b → from_secs a ≤ from_secs b.
Proof. unfold from_secs. lia. Qed.

Lemma sample_response_ok t s ev :
  placed None s → chan_ok t s →
  ∃ s', handle_response hex_encode s ev t = Some s' ∧ ok_step t s s'
    ∧ ∀ p, pending s !! sr_addr ev = Some p → ps_tid p = sr_tid ev → t < ps_deadline p → rests_for s' ev t.
Proof.
  intros Hpl Hch. unfold handle_response. destruct (pending s !! sr_addr ev) as [p|] eqn:Hp.
  2:{ eexists. split; [done|]. split; [apply ok_step_same; [by split|done..]|done]. }
  case_bool_decide as Htid; cbn [andb negb].
  2:{ eexists; split; [done|]; split; [apply ok_step_same; [by split|done..]|naive_solver]. }
  destruct (Z.ltb_spec t (ps_deadline p)) as [_|Hlate]; cbn [negb].
  2:{ eexists; split; [done|]; split; [apply ok_step_same; [by split|done..]|].
      intros p' [= <-]. lia. }
  cbn zeta. pose proof (hold_pending s (sr_addr ev) p (next_tid s) Hpl Hp) as Hh.
  set (s1 := set_pending s _ _) in *.
  match goal with |- ∃ s', ?x = Some s' ∧ _ =>
    cut (∃ s', x = Some s' ∧ ok_step t s s' ∧ rests_for s' ev t) end.
  { intros (s' & -> & ? & ?). exists s'. auto. }
  assert (∀ st until, t + from_secs (asked_wait ev) ≤ until →
    ∃ s', enter_cooldown (note s1 st) (sr_addr ev) until = Some s' ∧ ok_step t s s' ∧ rests_for s' ev t) as Hout.
  { intros st until Hu. destruct (enter_step t (note s1 st) (sr_addr ev) until) as (s' & -> & Hs' & n & Hn); [exact Hh|].
    exists s'. split; [done|]. split; [by apply (node_ok_step t s (note s1 st))|]. by exists n, until. }
  pose proof (failure_delay_min s1) as Hfd.
  destruct (sr_response ev) as [response|] eqn:Hr.
  2:{ apply Hout. unfold asked_wait. rewrite Hr. lia. }
  destruct (r_samples response) as [samples|] eqn:Hrs, (r_interval response) as [interval|] eqn:Hri,
    (r_num response) as [num|] eqn:Hrn; try (apply Hout; unfold asked_wait; rewrite Hr, Hrs, ?Hri, ?Hrn; lia).
  assert (asked_wait ev = Z.max (Z.min interval MAX_REMOTE_INTERVAL) 1) as Hask.
  { unfold asked_wait. by rewrite Hr, Hrs, Hri, Hrn. }
  assert (t + from_secs (asked_wait ev)
    ≤ t + Z.max (failure_delay s1) (from_secs (Z.min interval MAX_REMOTE_INTERVAL))) as Hinv.
  { rewrite Hask. unfold from_secs in *. lia. }
  destruct (match r_id response with Some i => _ | None => _ end) as [i|]; [|by apply Hout].
  destruct (_ || _) eqn:Hv; [by apply Hout|].
  apply orb_false_elim in Hv as [[Hv _]%orb_false_elim _]. apply Z.ltb_ge in Hv.
  pose proof Hh as (_ & _ & H3 & _). destruct (proj2 (H3 (sr_addr ev)) (or_intror eq_refl)) as (e & He & _).
  change (nodes (note s1 [("discovery_sample_responses", 1)])) with (nodes s1). rewrite He.
  pose proof (replace_node (Some (sr_addr ev)) s1 _ e (mkNode i (sr_addr ev)) (sequence s1) Hh He eq_refl) as Hh2.
  set (s2 := set_nodes (note s1 _) _ _ _).
  destruct (sample_loop_ok t (take MAX_SAMPLES_PER_RESPONSE (chunks_exact 20 samples)) s2 (mkNode i (sr_addr ev)) 0)
    as (Hc3 & Hp3 & Hh3); [exact Hch|].
  destruct (sample_loop hex_encode _ s2 (mkNode i (sr_addr ev)) t 0) as [novel s3]. cbn [snd] in *.
  match goal with |- context [if ?c then (Z.max ?w ?x, note s3 ?y) else _] =>
    assert (∃ wait s4, (if c then (Z.max w x, note s3 y) else (w, s3)) = (wait, s4) ∧ w ≤ wait
      ∧ placed (Some (sr_addr ev)) s4 ∧ chan_ok t s4 ∧ hash_capacity s4 = hash_capacity s3 ∧ places s4 = places s3)
      as (wait & s4 & -> & Hw & Hpl4 & Hch4 & Hh4 & Hp4)
  end.
  { assert (placed (Some (sr_addr ev)) s3) as Hpl3 by exact (placed_places _ _ _ Hp3 Hh2).
    destruct (_ && _); eexists _, _; (split; [done|]); (split; [lia|]); done. }
  destruct (enter_step t s4 (sr_addr ev) (t + from_secs wait) Hpl4) as (s5 & -> & H5 & n5 & Hn5).
  eexists. split; [done|]. rewrite Hp3 in Hp4. injection Hp4 as Ho4 _ _ _ _ Hc4 _.
  pose proof (enroll_all_ok (for_each_response_node
    (λ l n, if bool_decide (length l < 64)%nat then l ++ [n] else l) response (netmode s5) []).2 s5 t (proj1 H5)) as H6.
  split.
  - apply (node_ok_step t s s4); try done; [by rewrite Hh4, Hh3|]. eapply node_step_trans; [exact H5|exact H6].
  - assert (asked_wait ev ≤ wait) as Hle%from_secs_mono by (rewrite Hask; lia).
    exists n5, (t + from_secs wait). split; [|lia]. apply (proj2 (proj2 H6)); [done|].
    pose proof (from_secs_mono 1 (asked_wait ev) ltac:(rewrite Hask; lia)). unfold from_secs in *. lia.
Qed.
End emit_proofs.

(** ** Histories *)

Section history.
Context `{Sampler} (hex_encode : list Z → string).

Fixpoint run (s : DiscoveryActor) (evs : list (event * Instant)) : option DiscoveryActor :=
  match evs with
  | [] => Some s
  | (ev, now) :: evs => let! s := handle_event hex_encode s ev now in run s evs
  end.

Fixpoint clocked (t : Instant) (evs : list (event * Instant)) : Prop :=
  match evs with [] => True | (_, now) :: evs => t ≤ now ∧ clocked now evs end.

Definition end_time (t : Instant) (evs : list (event * Instant)) : Instant := default t (snd <$> last evs).

Lemma disc_ok_mono t t' s : actor_ok t s → t ≤ t' → actor_ok t' s.
Proof. intros (? & ? & ?) ?. split; [done|]. split; [by eapply HashDedup.dedup_wf_mono|done]. Qed.

Lemma disc_event_ok t s ev now :
  actor_ok t s → t ≤ now → ∃ s', handle_event hex_encode s ev now = Some s' ∧ ok_step now s s'.
Proof.
  intros Hok Hle. apply (disc_ok_mono _ now) in Hok; [|done]. pose proof Hok as (Hpl & Hd & Hq).
  pose proof Hq as (Hi & Hr & Hh). unfold handle_event.
  destruct (spawned s ev); cbn [negb]; [|eexists; split; [done|]; by apply ok_step_same].
  destruct ev as [snap net| | |hash n|a tid r| |f].
  - destruct (on_tick_ok s snap net now Hpl) as (s' & -> & Hs'). exists s'. split; [done|].
    by apply (node_ok_step now s s).
  - destruct (response_rx s) as [|r q] eqn:Hx; [eexists; split; [done|]; by apply ok_step_same|].
    set (s1 := set_channels _ _ _ _). destruct (sample_response_ok hex_encode now s1 r) as (s' & -> & Hs' & _).
    + exact Hpl.
    + split; [done|]. split; [done|]. simpl in *. split; [lia|done].
    + by exists s'.
  - destruct (input_rx s) as [|c q] eqn:Hx; [eexists; split; [done|]; by apply ok_step_same|].
    set (s1 := set_channels _ _ _ _).
    destruct (emit_hash_ok hex_encode now s1 (hi_hash c) (hi_node c) GetPeers) as ([Hd1 Hq1] & Hp1 & Hh1).
    { split; [done|]. simpl in Hi. split; [simpl; lia|]. done. }
    eexists. split; [done|]. pose proof Hp1 as [= Ho1 _ _ _ _ Hc1 _].
    apply ok_step_same; try done. split; [exact (placed_places _ _ _ Hp1 Hpl)|done].
  - eexists. split; [done|]. unfold observe_get_peers. cbn zeta.
    destruct (do_enabled (options s)); [|by apply ok_step_same].
    destruct (Z.ltb_spec (Z.of_nat (length (input_rx (note s [("discovery_get_peers_observed", 1)])))) INPUT_CAPACITY);
      apply ok_step_same; try done. split; [exact Hpl|]. split; [exact Hd|].
    split; [simpl in *; rewrite length_app; simpl; lia|done].
  - eexists. split; [done|]. unfold route_response.
    destruct (do_enabled (options s)); [|by apply ok_step_same].
    destruct (Z.ltb_spec (Z.of_nat (length (response_rx s))) RESPONSE_CAPACITY);
      apply ok_step_same; try done. split; [exact Hpl|]. split; [exact Hd|]. split; [done|].
    split; [simpl; rewrite length_app; simpl; lia|done].
  - eexists. split; [done|]. apply ok_step_same; try done. split; [exact Hpl|]. split; [exact Hd|].
    split; [done|]. split; [done|]. simpl. rewrite length_drop. lia.
  - eexists. split; [done|]. by apply ok_step_same.
Qed.

Lemma disc_end_cons t ev now evs : end_time t ((ev, now) :: evs) = end_time now evs.
Proof.
  unfold end_time. destruct evs as [|x evs]; [done|]. rewrite last_cons_cons.
  destruct (last (x :: evs)) eqn:E; [done|by apply last_None in E].
Qed.

Lemma disc_run_ok t s evs :
  actor_ok t s → clocked t evs →
  ∃ s', run s evs = Some s' ∧ actor_ok (end_time t evs) s' ∧ options s' = options s
    ∧ ∀ a n u, cooldowns s !! a = Some (n, u) → end_time t evs < u → cooldowns s' !! a = Some (n, u).
Proof.
  revert t s; induction evs as [|[ev now] evs IH]; intros t s Hok Hcl; cbn [run].
  { exists s. split; [done|]. split; [exact Hok|done]. }
  destruct Hcl as [Hle Hcl]. destruct (disc_event_ok t s ev now Hok Hle) as (s1 & -> & Hok1 & Ho & _ & Hr).
  destruct (IH now s1 Hok1 Hcl) as (s' & -> & Hok' & Ho' & Hr'). rewrite disc_end_cons.
  exists s'. split; [done|]. split; [done|]. split; [congruence|]. intros a n u Ha Hu. apply Hr'; [|done].
  apply Hr; [done|]. assert (∀ v es, clocked v es → v ≤ end_time v es) as Hm.
  { intros v es. revert v. induction es as [|[e w] es IHe]; intros v Hv; [done|]. destruct Hv as [? Hv].
    rewrite disc_end_cons. specialize (IHe _ Hv). lia. }
  specialize (Hm _ _ Hcl). lia.
Qed.
End history.

Definition options_ok (o : DiscoveryOptions) : Prop := 0 ≤ do_sample_max_in_flight o.

Lemma disc_new_ok nm lid v4 v6 o cap t :
  options_ok o → 0 ≤ cap → actor_ok t (new nm lid v4 v6 o cap t).
Proof.
  intros Ho Hc. split; [|split; [apply HashDedup.dedup_new_wf|]].
  - unfold placed, cooldown_capacity. simpl. rewrite !map_size_empty. split_and!; try done; try lia;
      try (by intros; set_solver). intros a. split; [by intros (e & ? & ?)|].
    intros [[? ?]|]; done.
  - split_and!; simpl; done.
Qed.

(** ** Claims *)

(** C14: no history of the discovery actor panics (no failed [unwrap] and no
    failed [debug_assert!]).  With a clock that never goes back, any replies
    and any send results, every known address is always in exactly one of
    three places (waiting with a key in the due queue, in flight, or resting),
    the indexes agree with the maps, the node pool, the requests in flight and
    the reserved cooldown slots stay within their limits, the deduplication
    table is consistent, and no channel overflows. *)
Theorem discovery_history_safe `{Sampler} (hex_encode : list Z → string) (nm : NetMode) (lid : list Z)
    (v4 v6 : bool) (o : DiscoveryOptions) (cap : Z) (t : Instant) (evs : list (event * Instant)) :
  options_ok o → 0 ≤ cap → clocked t evs →
  ∃ s, run hex_encode (new nm lid v4 v6 o cap t) evs = Some s ∧ actor_ok (end_time t evs) s.
Proof.
  intros Ho Hc Hcl.
  destruct (disc_run_ok hex_encode t _ evs (disc_new_ok nm lid v4 v6 o cap t Ho Hc) Hcl) as (s & Hr & Hok & _).
  by exists s.
Qed.

Definition ex_options : DiscoveryOptions :=
  mkDiscoveryOptions true 4 8 16 3 300 900 1800 4 8 8 900 8 16 16 64.
Definition ex_seed : NodeTuple := mkNode (replicate 20 1) (SocketAddrV4 8 8 8 8 6881).
Definition ex_snapshot : RoutingSnapshot :=
  match from_nodes [ex_seed] 8 with Some s => s | None => snapshot_default end.
Definition ex_net : Net := mkNet (λ _, replicate 20 3) (λ _, true) (λ _, 1000000000).
Definition ex_tid : list Z := [181; 0; 0; 0; 0; 0; 0; 1].
Definition ex_reply : DhtResponse :=
  mkResponse (Some (replicate 20 1)) None None None (Some (replicate 40 7)) (Some 600) (Some 9).
Definition ex_hex : list Z → string := λ l, if bool_decide (l = replicate 20 7) then "07" else "".

(** The seed is sampled and answers. *)
Definition ex_events : list (event * Instant) :=
  [(Tick ex_snapshot ex_net, 0); (Tick ex_snapshot ex_net, 1000000000);
   (RouteResponse (addr ex_seed) ex_tid (Some ex_reply), 1000000001)].

Lemma discovery_history_safe_witness :
  ∃ s, run ex_hex (new Ipv4Only (replicate 20 2) true false ex_options 10 0) ex_events = Some s
    ∧ actor_ok (end_time 0 ex_events) s.
Proof.
  apply (discovery_history_safe ex_hex Ipv4Only (replicate 20 2) true false ex_options 10 0 ex_events).
  - vm_compute. discriminate.
  - lia.
  - simpl. lia.
Defined.

(** Sampling is polite.  When a reply to an outstanding query is handled
    at [now], the node rests at least the interval it asked for (at least one
    second, at most the protocol's six hours are honoured), and until that
    time nothing that happens to the actor, neither rediscovery nor any
    number of ticks, makes it a candidate or sends it another query. *)
Theorem sampled_node_rests `{Sampler} (hex_encode : list Z → string) (nm : NetMode) (lid : list Z)
    (v4 v6 : bool) (o : DiscoveryOptions) (cap : Z) (t now : Instant) (evs1 evs2 : list (event * Instant))
    (s : DiscoveryActor) (r : SampleResponse) (p : PendingSample) :
  options_ok o → 0 ≤ cap → clocked t evs1 →
  run hex_encode (new nm lid v4 v6 o cap t) evs1 = Some s →
  end_time t evs1 ≤ now → pending s !! sr_addr r = Some p → ps_tid p = sr_tid r → now < ps_deadline p →
  clocked now evs2 → end_time now evs2 < now + from_secs (asked_wait r) →
  ∃ s1 s2, handle_response hex_encode s r now = Some s1 ∧ run hex_encode s1 evs2 = Some s2
    ∧ is_Some (cooldowns s2 !! sr_addr r)
    ∧ nodes s2 !! sr_addr r = None ∧ pending s2 !! sr_addr r = None.
Proof.
  intros Ho Hc Hcl1 Hrun Hle Hp Htid Hdl Hcl2 Hend.
  destruct (disc_run_ok hex_encode t _ evs1 (disc_new_ok nm lid v4 v6 o cap t Ho Hc) Hcl1) as (s0 & Hr & Hok & _).
  rewrite Hrun in Hr. injection Hr as <-. apply (disc_ok_mono _ now) in Hok; [|done].
  destruct Hok as (Hpl & Hch).
  destruct (sample_response_ok hex_encode now s r Hpl Hch) as (s1 & Hs1 & (Hok1 & _) & Hrest).
  destruct (Hrest p Hp Htid Hdl) as (n & u & Hn & Hu).
  destruct (disc_run_ok hex_encode now s1 evs2 Hok1 Hcl2) as (s2 & Hs2 & (Hpl2 & _) & _ & Hkeep).
  exists s1, s2. split; [done|]. split; [done|].
  assert (cooldowns s2 !! sr_addr r = Some (n, u)) as Hcd by (apply Hkeep; [done|lia]).
  destruct Hpl2 as (_ & _ & H3 & _ & H5 & _). destruct (H5 _ _ _ Hcd) as (_ & _ & Hnone).
  split; [by rewrite Hcd|]. split; [done|]. apply eq_None_not_Some. intros Hsome.
  destruct (proj2 (H3 (sr_addr r)) (or_introl Hsome)) as (e & He & _). congruence.
Qed.

Definition ex_actor : DiscoveryActor :=
  match run ex_hex (new Ipv4Only (replicate 20 2) true false ex_options 10 0) (take 2 ex_events) with
  | Some s => s
  | None => new Ipv4Only [] true false ex_options 10 0
  end.

Lemma sampled_node_rests_witness :
  let r := mkSampleResponse (addr ex_seed) ex_tid (Some ex_reply) in
  ∃ s1 s2, handle_response ex_hex ex_actor r 2000000000 = Some s1
    ∧ run ex_hex s1 [(Tick ex_snapshot ex_net, 300000000000)] = Some s2
    ∧ is_Some (cooldowns s2 !! sr_addr r)
    ∧ nodes s2 !! sr_addr r = None ∧ pending s2 !! sr_addr r = None.
Proof.
  intros r.
  apply (sampled_node_rests ex_hex Ipv4Only (replicate 20 2) true false ex_options 10 0 2000000000
    (take 2 ex_events) [(Tick ex_snapshot ex_net, 300000000000)] ex_actor r (mkPendingSample ex_tid 4000000000)).
  - vm_compute. discriminate.
  - lia.
  - simpl. lia.
  - vm_compute. reflexivity.
  - vm_compute. discriminate.
  - vm_compute. reflexivity.
  - reflexivity.
  - reflexivity.
  - simpl. lia.
  - vm_compute. reflexivity.
Defined.

End DiscoveryActor.
