(* ===== verification/PeerLookup.v ===== *)
(** * Iterative peer lookups ([src/peer_lookup.rs])

    The actor that walks towards an info hash with [get_peers] queries and
    hands the peers it learns to the job that asked.  Channels are bounded
    queues in the state; the datagrams sent and the peers handed over are
    recorded in [queries] and [delivered] with the lookup they belong to.
    What the actor reads while it awaits (clock, send results, whether a
    receiver was dropped, whether a result channel has room, the order in
    which a hash set is iterated) is an input ([Env]). *)

From S2P Require Import Prelude Net Float64 Budget Types HashQueue Routing Krpc.

Local Open Scope Z_scope.

Module PeerLookup.

Definition LOOKUP_TID_TAG : Z := 165.
Definition MAX_FRONTIER_NODES : nat := 64.
Definition MAX_PEERS_PER_LOOKUP : nat := MAX_METADATA_CANDIDATES_PER_HASH.
Definition REQUEST_CHANNEL_CAPACITY : Z := 1024.
Definition RESPONSE_CHANNEL_CAPACITY : Z := 4096.

Definition lookup_duration (millis : Z) : Duration := from_millis (Z.min (Z.max millis 1) 300000).
Definition lookup_deadline (now : Instant) (duration : Duration) : Instant :=
  now + Z.min duration (from_secs 300).

Record PendingKey := mkKey { k_addr : SocketAddr; k_tid : list Z }.
#[global] Instance PendingKey_eq_dec : EqDecision PendingKey.
Proof. solve_decision. Defined.
#[global] Instance PendingKey_countable : Countable PendingKey.
Proof.
  refine (inj_countable' (λ k, (k_addr k, k_tid k)) (λ x, mkKey x.1 x.2) _). by intros [].
Defined.

Record PendingQuery := mkQuery { lookup_id : Z; q_deadline : Instant }.

Record LookupState := mkLookup {
  info_hash : list Z;
  frontier : list NodeTuple;
  source_nodes : list NodeTuple;
  seen_nodes : gset SocketAddr;
  peers : gset SocketAddr;
  queried : nat;
  outstanding : nat;
  deadline : Instant;
  st_max_queries : Z;
}.

Definition with_counts (st : LookupState) q o : LookupState :=
  mkLookup (info_hash st) (frontier st) (source_nodes st) (seen_nodes st) (peers st) q o
    (deadline st) (st_max_queries st).
Definition with_nodes (st : LookupState) f src : LookupState :=
  mkLookup (info_hash st) f src (seen_nodes st) (peers st) (queried st) (outstanding st)
    (deadline st) (st_max_queries st).

(** [frontier.iter().enumerate().min_by(..)]: the first of the closest. *)
Fixpoint min_index (hash : list Z) (l : list NodeTuple) (i : nat) (best : nat * NodeTuple) : nat :=
  match l with
  | [] => best.1
  | n :: l =>
      match xor_distance_cmp (id n) (id best.2) hash with
      | Lt => min_index hash l (S i) (i, n)
      | _ => min_index hash l (S i) best
      end
  end.

Definition closest_index (hash : list Z) (l : list NodeTuple) : option nat :=
  match l with [] => None | n :: l => Some (min_index hash l 1 (0%nat, n)) end.

Definition pop_closest (st : LookupState) : option (option (NodeTuple * bool * LookupState)) :=
  match source_nodes st with
  | n :: rest => Some (Some (n, true, with_nodes st (frontier st) rest))
  | [] =>
      match closest_index (info_hash st) (frontier st) with
      | None => Some None
      | Some i =>
          let! r := swap_remove i (frontier st) in
          Some (Some (r.1, false, with_nodes st r.2 []))
      end
  end.

Definition finish_reason (st : LookupState) (closed : bool) (now : Instant) : option string :=
  if closed then Some "lookup_finished_canceled"
  else if deadline st <=? now then Some "lookup_finished_deadline"
  else if bool_decide (MAX_PEERS_PER_LOOKUP ≤ size (peers st))%nat then Some "lookup_finished_peers"
  else if bool_decide (outstanding st = 0%nat) && (st_max_queries st <=? Z.of_nat (queried st))
  then Some "lookup_finished_budget"
  else if bool_decide (outstanding st = 0%nat) && bool_decide (frontier st = [])
          && bool_decide (source_nodes st = [])
  then Some "lookup_finished_exhausted"
  else None.

Definition is_complete (st : LookupState) (closed : bool) (now : Instant) : bool :=
  bool_decide (is_Some (finish_reason st closed now)).

Record LookupResponse := mkLookupResponse {
  lr_addr : SocketAddr; lr_tid : list Z; lr_response : DhtResponse }.
Record PeerLookupRequest := mkRequest { rq_info_hash : list Z; rq_source_nodes : list NodeTuple }.

Definition is_peer_lookup_tid (tid : list Z) : bool := bool_decide (head tid = Some LOOKUP_TID_TAG).

Record PeerLookupActor := mk {
  netmode : NetMode;
  local_id : list Z;
  socket_v4 : bool;
  socket_v6 : bool;
  request_rx : list PeerLookupRequest;
  response_rx : list LookupResponse;
  request_budget : RateBucket.RateBucket f64;
  max_active_lookups : Z;
  max_queries : Z;
  max_concurrent_queries : Z;
  lookup_timeout : Duration;
  query_timeout : Duration;
  active : gmap Z LookupState;
  pending : gmap PendingKey PendingQuery;
  pending_expiry : list (Instant * PendingKey);
  next_lookup_id : Z;
  next_tid : Z;
  queries : list (Z * SocketAddr);
  delivered : list (Z * SocketAddr);
  stats : list (string * Z);
}.

(** *** Field updates *)

Definition set_channels (s : PeerLookupActor) q r : PeerLookupActor :=
  mk (netmode s) (local_id s) (socket_v4 s) (socket_v6 s) q r (request_budget s)
     (max_active_lookups s) (max_queries s) (max_concurrent_queries s) (lookup_timeout s)
     (query_timeout s) (active s) (pending s) (pending_expiry s) (next_lookup_id s) (next_tid s)
     (queries s) (delivered s) (stats s).
Definition set_budget (s : PeerLookupActor) b : PeerLookupActor :=
  mk (netmode s) (local_id s) (socket_v4 s) (socket_v6 s) (request_rx s) (response_rx s) b
     (max_active_lookups s) (max_queries s) (max_concurrent_queries s) (lookup_timeout s)
     (query_timeout s) (active s) (pending s) (pending_expiry s) (next_lookup_id s) (next_tid s)
     (queries s) (delivered s) (stats s).
Definition set_active (s : PeerLookupActor) a i : PeerLookupActor :=
  mk (netmode s) (local_id s) (socket_v4 s) (socket_v6 s) (request_rx s) (response_rx s)
     (request_budget s) (max_active_lookups s) (max_queries s) (max_concurrent_queries s)
     (lookup_timeout s) (query_timeout s) a (pending s) (pending_expiry s) i (next_tid s)
     (queries s) (delivered s) (stats s).
Definition set_pending (s : PeerLookupActor) p e t : PeerLookupActor :=
  mk (netmode s) (local_id s) (socket_v4 s) (socket_v6 s) (request_rx s) (response_rx s)
     (request_budget s) (max_active_lookups s) (max_queries s) (max_concurrent_queries s)
     (lookup_timeout s) (query_timeout s) (active s) p e (next_lookup_id s) t (queries s)
     (delivered s) (stats s).
Definition set_outputs (s : PeerLookupActor) q d : PeerLookupActor :=
  mk (netmode s) (local_id s) (socket_v4 s) (socket_v6 s) (request_rx s) (response_rx s)
     (request_budget s) (max_active_lookups s) (max_queries s) (max_concurrent_queries s)
     (lookup_timeout s) (query_timeout s) (active s) (pending s) (pending_expiry s)
     (next_lookup_id s) (next_tid s) q d (stats s).
Definition note (s : PeerLookupActor) st : PeerLookupActor :=
  mk (netmode s) (local_id s) (socket_v4 s) (socket_v6 s) (request_rx s) (response_rx s)
     (request_budget s) (max_active_lookups s) (max_queries s) (max_concurrent_queries s)
     (lookup_timeout s) (query_timeout s) (active s) (pending s) (pending_expiry s)
     (next_lookup_id s) (next_tid s) (queries s) (delivered s) (stats s ++ st).


Definition new (netmode : NetMode) (local_id : list Z) (v4 v6 : bool) (o : PeerLookupOptions)
    (now : Instant) : PeerLookupActor :=
  {| netmode := netmode; local_id := local_id; socket_v4 := v4; socket_v6 := v6;
     request_rx := []; response_rx := [];
     request_budget := RateBucket.per_second (po_max_lookups_per_second o) (po_burst o) true now;
     max_active_lookups := po_max_active_lookups o; max_queries := po_max_queries o;
     max_concurrent_queries := Z.max (po_max_concurrent_queries o) 1;
     lookup_timeout := lookup_duration (po_lookup_timeout_ms o);
     query_timeout := lookup_duration (po_query_timeout_ms o);
     active := ∅; pending := ∅; pending_expiry := []; next_lookup_id := 1; next_tid := 1;
     queries := []; delivered := []; stats := [] |}.

(** [fields] computes the fields of an updated state, [record_fields] also
    the updates of a state given by its fields. *)
Ltac fields :=
  cbn [note set_outputs set_pending set_active set_budget set_channels netmode local_id
    socket_v4 socket_v6 request_rx response_rx request_budget max_active_lookups max_queries
    max_concurrent_queries lookup_timeout query_timeout active pending pending_expiry next_lookup_id
    next_tid queries delivered stats].
Ltac record_fields :=
  lazy beta iota zeta delta [note set_outputs set_pending set_active set_budget set_channels netmode local_id
    socket_v4 socket_v6 request_rx response_rx request_budget max_active_lookups max_queries
    max_concurrent_queries lookup_timeout query_timeout active pending pending_expiry next_lookup_id
    next_tid queries delivered stats].

(** What a handler reads from its environment.  The dispatch loop's readings
    are indexed by the lookup and the transaction counter, the ones made when
    a lookup may end by the lookup. *)
Record Env := mkEnv {
  en_closed : Z → Z → bool;
  en_now : Z → Z → Instant;
  en_sent : Z → Z → bool;
  en_after : Z → Z → Instant;
  en_end : Z → Instant;
  en_end_closed : Z → bool;
  en_reason_closed : Z → bool;
  en_sweep_closed : Z → bool;
  en_accept : SocketAddr → bool;
  en_peer_closed : SocketAddr → bool;
  en_order : gset Z → list Z;
}.

Definition route_response (s : PeerLookupActor) (a : SocketAddr) (tid : list Z) (r : DhtResponse)
  : PeerLookupActor :=
  if Z.of_nat (length (response_rx s)) <? RESPONSE_CHANNEL_CAPACITY
  then set_channels s (request_rx s) (response_rx s ++ [mkLookupResponse a tid r])
  else note s [("peer_lookup_response_dropped", 1)].

(** A job submits a request ([try_send] of the request sender). *)
Definition submit (s : PeerLookupActor) (r : PeerLookupRequest) : PeerLookupActor :=
  if Z.of_nat (length (request_rx s)) <? REQUEST_CHANNEL_CAPACITY
  then set_channels s (request_rx s ++ [r]) (response_rx s) else s.

Definition tid_of (n : Z) : list Z := <[0%nat := LOOKUP_TID_TAG]> (be8 n).

Definition next_transaction_id (s : PeerLookupActor) : list Z * PeerLookupActor :=
  (tid_of (next_tid s),
   set_pending s (pending s) (pending_expiry s) (Z.max (u64_wrapping_add (next_tid s) 1) 1)).

Section handlers.
Context (env : Env).

Definition finish_lookup (s : PeerLookupActor) (i : Z) (now : Instant) : PeerLookupActor :=
  let s :=
    match active s !! i with
    | Some st =>
        let s := set_active s (delete i (active s)) (next_lookup_id s) in
        match finish_reason st (en_reason_closed env i) now with
        | Some reason => note s [(reason, 1)]
        | None => s
        end
    | None => s
    end in
  set_pending s (filter (λ kp : PendingKey * PendingQuery, lookup_id kp.2 ≠ i) (pending s))
    (pending_expiry s) (next_tid s).

Definition finish_if_complete (s : PeerLookupActor) (i : Z) (now : Instant) : PeerLookupActor :=
  match active s !! i with
  | Some st => if is_complete st (en_end_closed env i) now then finish_lookup s i now else s
  | None => s
  end.

(** The guard and the choice of one round: [None] is [break]. *)
Definition next_query (s : PeerLookupActor) (i : Z) : option (option (NodeTuple * bool * LookupState)) :=
  match active s !! i with
  | None => Some None
  | Some st =>
      let t := next_tid s in
      if en_closed env i t || (deadline st <=? en_now env i t)
         || bool_decide (MAX_PEERS_PER_LOOKUP ≤ size (peers st))%nat
         || (max_queries s <=? Z.of_nat (queried st))
         || (max_concurrent_queries s <=? Z.of_nat (outstanding st))
      then Some None
      else
        let! r := pop_closest st in
        Some (match r with
              | None => None
              | Some (n, seed, st) => Some (n, seed, with_counts st (S (queried st)) (outstanding st))
              end)
  end.

Fixpoint dispatch_loop (fuel : nat) (s : PeerLookupActor) (i : Z) : option PeerLookupActor :=
  match fuel with
  | 0%nat => None
  | S fuel =>
      let t := next_tid s in
      let! q := next_query s i in
      match q with
      | None => Some s
      | Some (n, seed, st) =>
          let s := set_active s (<[i := st]> (active s)) (next_lookup_id s) in
          let '(tid, s) := next_transaction_id s in
          let key := mkKey (addr n) tid in
          let buffer := encode_get_peers_query [] tid (info_hash st) (local_id s) in
          let! st := active s !! i in
          let operation_deadline := deadline st in
          let sent := (if is_ipv4 (addr n) then socket_v4 s else socket_v6 s) && en_sent env i t in
          if negb sent then dispatch_loop fuel (note s [("peer_lookup_send_failed", 1)]) i
          else
            let s := if seed : bool then note s [("lookup_source_seed_queries", 1)] else s in
            let d := Z.min (lookup_deadline (en_after env i t) (query_timeout s)) operation_deadline in
            let s := set_pending s (<[key := mkQuery i d]> (pending s)) (pending_expiry s ++ [(d, key)])
                       (next_tid s) in
            let s := match active s !! i with
                     | Some st =>
                         set_active s (<[i := with_counts st (queried st) (S (outstanding st))]> (active s))
                           (next_lookup_id s)
                     | None => s
                     end in
            let s := set_outputs s (queries s ++ [(i, addr n)]) (delivered s) in
            dispatch_loop fuel (note s [("udp_sent", Z.of_nat (length buffer)); ("peer_lookup_query", 1)]) i
      end
  end.

(** A round takes a node from the frontier or the source nodes. *)
Definition dispatch_fuel (s : PeerLookupActor) (i : Z) : nat :=
  match active s !! i with
  | Some st => S (length (frontier st) + length (source_nodes st))
  | None => 1%nat
  end.

Definition dispatch_more (s : PeerLookupActor) (i : Z) : option PeerLookupActor :=
  let! s := dispatch_loop (dispatch_fuel s i) s i in
  Some (finish_if_complete s i (en_end env i)).

(** [.filter(family).filter(|node| seen_sources.insert(node.addr)).take(8)]:
    the iterator stops pulling once eight nodes are taken. *)
Fixpoint source_loop (ns : list NodeTuple) (family : option bool) (room : nat)
    (seen : gset SocketAddr) : list NodeTuple * gset SocketAddr :=
  match room with
  | 0%nat => ([], seen)
  | S room' =>
      match ns with
      | [] => ([], seen)
      | n :: ns =>
          if negb (bool_decide (in_family family n)) || bool_decide (addr n ∈ seen)
          then source_loop ns family room seen
          else
            let '(l, seen) := source_loop ns family room' ({[addr n]} ∪ seen) in
            (n :: l, seen)
      end
  end.

Definition start_lookup (s : PeerLookupActor) (r : PeerLookupRequest) (closed : bool)
    (snapshot : RoutingSnapshot) (now : Instant) : option PeerLookupActor :=
  if closed then Some s
  else
    let s := note s [("peer_lookup_requested", 1)] in
    let '(granted, s) :=
      if max_active_lookups s <=? Z.of_nat (size (active s)) then (false, s)
      else let '(g, b) := RateBucket.try_take_one (request_budget s) now in (g, set_budget s b) in
    if negb granted then Some (note s [("peer_lookup_rate_limited", 1)])
    else
      let family := match socket_v4 s, socket_v6 s with
                    | true, false => Some false
                    | false, true => Some true
                    | _, _ => None
                    end in
      let! front := closest_nodes snapshot (rq_info_hash r)
                      (Z.to_nat (Z.min (max_queries s) (Z.of_nat MAX_FRONTIER_NODES))) family in
      let '(sources, seen) := source_loop (rq_source_nodes r) family 8 ∅ in
      let front := filter (λ n, addr n ∉ seen) front in
      if bool_decide (front = []) && bool_decide (sources = [])
      then Some (note s [("peer_lookup_empty", 1); ("lookup_finished_exhausted", 1)])
      else
        let i := next_lookup_id s in
        let st := mkLookup (rq_info_hash r) front sources (list_to_set (addr <$> front ++ sources)) ∅ 0 0
                    (lookup_deadline now (lookup_timeout s)) (max_queries s) in
        let s := set_active s (<[i := st]> (active s)) (Z.max (u64_wrapping_add i 1) 1) in
        dispatch_more (note s [("peer_lookup_started", 1)]) i.

(** [for_each_response_peer]'s closure: the peers and what was discovered. *)
Definition visit_peer (acc : gset SocketAddr * list SocketAddr) (p : SocketAddr)
  : gset SocketAddr * list SocketAddr :=
  if bool_decide (size acc.1 < MAX_PEERS_PER_LOOKUP)%nat && negb (bool_decide (p ∈ acc.1))
  then ({[p]} ∪ acc.1, acc.2 ++ [p]) else acc.

(** [for node in response_nodes] *)
Fixpoint add_nodes (ns : list NodeTuple) (front : list NodeTuple) (seen : gset SocketAddr)
  : list NodeTuple * gset SocketAddr :=
  match ns with
  | [] => (front, seen)
  | n :: ns =>
      if bool_decide (MAX_FRONTIER_NODES ≤ length front)%nat then (front, seen)
      else if bool_decide (addr n ∈ seen) then add_nodes ns front seen
      else add_nodes ns (front ++ [n]) ({[addr n]} ∪ seen)
  end.

(** [for peer in discovered] *)
Definition deliver (i : Z) (s : PeerLookupActor) (p : SocketAddr) : PeerLookupActor :=
  if en_accept env p then
    note (set_outputs s (queries s) (delivered s ++ [(i, p)])) [("peer_lookup_peer_found", 1)]
  else if en_peer_closed env p then s
  else note s [("peer_lookup_output_dropped", 1)].

Definition handle_response (s : PeerLookupActor) (ev : LookupResponse) (now : Instant)
  : option PeerLookupActor :=
  let key := mkKey (lr_addr ev) (lr_tid ev) in
  match pending s !! key with
  | None => Some s
  | Some q =>
      let s := set_pending s (delete key (pending s)) (pending_expiry s) (next_tid s) in
      let i := lookup_id q in
      match active s !! i with
      | None => Some s
      | Some st =>
          if deadline st <=? now then Some (finish_lookup s i now)
          else
            let s := note s [("peer_lookup_response", 1)] in
            let '(ps, discovered) :=
              (for_each_response_peer visit_peer (lr_response ev) (netmode s) (peers st, [])).2 in
            let response_nodes :=
              (for_each_response_node (λ l n, l ++ [n]) (lr_response ev) (netmode s) []).2 in
            let '(front, seen) := add_nodes response_nodes (frontier st) (seen_nodes st) in
            let st := mkLookup (info_hash st) front (source_nodes st) seen ps (queried st)
                        (outstanding st - 1) (deadline st) (st_max_queries st) in
            let s := set_active s (<[i := st]> (active s)) (next_lookup_id s) in
            let s := fold_left (deliver i) discovered s in
            dispatch_more s i
      end
  end.

(** [while let Some((deadline, key)) = self.pending_expiry.front()] *)
Fixpoint expire_loop (q : list (Instant * PendingKey)) (s : PeerLookupActor) (affected : gset Z)
    (now : Instant) : gset Z * PeerLookupActor :=
  match q with
  | [] => (affected, s)
  | (d, key) :: q' =>
      if now <? d then (affected, s)
      else
        let s := set_pending s (pending s) q' (next_tid s) in
        match pending s !! key with
        | Some p =>
            if bool_decide (q_deadline p = d) then
              let s := set_pending s (delete key (pending s)) q' (next_tid s) in
              let '(s, affected) :=
                match active s !! lookup_id p with
                | Some st =>
                    (set_active s (<[lookup_id p := with_counts st (queried st) (outstanding st - 1)]> (active s))
                       (next_lookup_id s), {[lookup_id p]} ∪ affected)
                | None => (s, affected)
                end in
              expire_loop q' (note s [("peer_lookup_timeout", 1)]) affected now
            else expire_loop q' s affected now
        | None => expire_loop q' s affected now
        end
  end.

Fixpoint dispatch_all (ids : list Z) (s : PeerLookupActor) : option PeerLookupActor :=
  match ids with
  | [] => Some s
  | i :: ids => let! s := dispatch_more s i in dispatch_all ids s
  end.

Definition complete_lookups (s : PeerLookupActor) (now : Instant) : list Z :=
  (filter (λ p : Z * LookupState, is_complete p.2 (en_sweep_closed env p.1) now = true)
     (map_to_list (active s))).*1.

Definition expire (s : PeerLookupActor) (now : Instant) : option PeerLookupActor :=
  let '(affected, s) := expire_loop (pending_expiry s) s ∅ now in
  let! s := dispatch_all (en_order env affected) s in
  Some (fold_left (λ s i, finish_lookup s i now) (complete_lookups s now) s).
End handlers.

(** ** Events: the arms of [select!] and the tasks around the actor *)

Inductive event :=
  | RecvResponse
  | Maintenance
  | RecvRequest (closed : bool) (snapshot : RoutingSnapshot)
  | Submit (r : PeerLookupRequest)
  | RouteResponse (a : SocketAddr) (tid : list Z) (r : DhtResponse).

Definition handle_event (s : PeerLookupActor) (ev : event) (env : Env) (now : Instant)
  : option PeerLookupActor :=
  match ev with
  | RecvResponse =>
      match response_rx s with
      | [] => Some s
      | r :: q => handle_response env (set_channels s (request_rx s) q) r now
      end
  | Maintenance => expire env s now
  | RecvRequest closed snapshot =>
      match request_rx s with
      | [] => Some s
      | r :: q => start_lookup env (set_channels s q (response_rx s)) r closed snapshot now
      end
  | Submit r => Some (submit s r)
  | RouteResponse a tid r => Some (route_response s a tid r)
  end.

(** ** Invariant *)

(** How many of the outputs [l] belong to lookup [i]. *)
Definition of_lookup (l : list (Z * SocketAddr)) (i : Z) : nat := length (filter (λ x, x.1 = i) l).

(** The addresses a lookup may still query. *)
Definition candidates (st : LookupState) : list SocketAddr := addr <$> frontier st ++ source_nodes st.

Record lookup_ok (s : PeerLookupActor) (i : Z) (st : LookupState) : Prop := {
  lo_id : 1 ≤ i < next_lookup_id s;
  lo_frontier : (length (frontier st) ≤ MAX_FRONTIER_NODES)%nat;
  lo_sources : (length (source_nodes st) ≤ 8)%nat;
  lo_peers : (size (peers st) ≤ MAX_PEERS_PER_LOOKUP)%nat;
  lo_queried : Z.of_nat (queried st) ≤ max_queries s;
  lo_concurrent : Z.of_nat (outstanding st) ≤ max_concurrent_queries s;
  lo_outstanding : outstanding st = count_by lookup_id (pending s) i;
  lo_distinct : NoDup (candidates st);
  lo_seen a : a ∈ candidates st → a ∈ seen_nodes st;
  lo_asked a : (i, a) ∈ queries s → a ∈ seen_nodes st ∧ a ∉ candidates st;
  lo_told p : (i, p) ∈ delivered s → p ∈ peers st;
  lo_count : (of_lookup (queries s) i ≤ queried st)%nat;
  lo_max : st_max_queries st = max_queries s;
}.

Definition has_tid (s : PeerLookupActor) (key : PendingKey) : Prop :=
  ∃ n, 1 ≤ n < next_tid s ∧ k_tid key = tid_of n.

Definition pending_ok (s : PeerLookupActor) (key : PendingKey) (p : PendingQuery) : Prop :=
  is_Some (active s !! lookup_id p) ∧ (q_deadline p, key) ∈ pending_expiry s ∧ has_tid s key.

(** Deadlines queue up in order, except for queries cut short by the end of
    their lookup. *)
Definition in_order (s : PeerLookupActor) (x y : Instant * PendingKey) : Prop :=
  x.1 ≤ y.1 ∨ ∀ p, pending s !! y.2 = Some p → q_deadline p = y.1 →
    ∃ st, active s !! lookup_id p = Some st ∧ deadline st = y.1.

Definition horizon (s : PeerLookupActor) (t : Instant) : Instant := lookup_deadline t (query_timeout s).

Record actor_ok (t : Instant) (s : PeerLookupActor) : Prop := {
  ao_lookups i st : active s !! i = Some st → lookup_ok s i st;
  ao_active : Z.of_nat (size (active s)) ≤ max_active_lookups s;
  ao_pending key p : pending s !! key = Some p → pending_ok s key p;
  ao_expiry : Forall (λ x, x.1 ≤ horizon s t ∧ has_tid s x.2) (pending_expiry s);
  ao_order : Sorted.StronglySorted (in_order s) (pending_expiry s);
  ao_queries : NoDup (queries s);
  ao_delivered : NoDup (delivered s);
  ao_asked i : Z.of_nat (of_lookup (queries s) i) ≤ max_queries s;
  ao_told i : (of_lookup (delivered s) i ≤ MAX_PEERS_PER_LOOKUP)%nat;
  ao_known x : x ∈ queries s ++ delivered s → x.1 < next_lookup_id s;
  ao_ids : 1 ≤ next_lookup_id s ∧ 1 ≤ next_tid s ∧ 0 < query_timeout s ∧ 1 ≤ max_concurrent_queries s;
  ao_requests : Z.of_nat (length (request_rx s)) ≤ REQUEST_CHANNEL_CAPACITY;
  ao_hashes : Forall (λ r, length (rq_info_hash r) = 20%nat) (request_rx s);
  ao_responses : Z.of_nat (length (response_rx s)) ≤ RESPONSE_CHANNEL_CAPACITY;
}.

(** The limits, which no handler changes. *)
Definition limits (s : PeerLookupActor) :=
  (max_active_lookups s, max_queries s, max_concurrent_queries s, (lookup_timeout s, query_timeout s)).

(** *** Identifiers *)

Lemma tid_of_inj n m : 0 ≤ n < 2 ^ 56 → 0 ≤ m < 2 ^ 56 → tid_of n = tid_of m → n = m.
Proof.
  intros Hn Hm Heq. change (2 ^ 56) with 72057594037927936 in *.
  apply be8_inj; [unfold u64_max; lia..|]. apply list_eq. intros [|i].
  - rewrite !be8_byte by lia. change (256 ^ (7 - Z.of_nat 0)) with 72057594037927936.
    by rewrite !Z.div_small by lia.
  - assert (tid_of n !! S i = tid_of m !! S i) as Hi by congruence.
    unfold tid_of in Hi. by rewrite !list_lookup_insert_ne in Hi by done.
Qed.

Lemma of_lookup_app l x i :
  of_lookup (l ++ [x]) i = (of_lookup l i + if bool_decide (x.1 = i) then 1 else 0)%nat.
Proof.
  unfold of_lookup. rewrite filter_app, length_app. f_equal. case_bool_decide.
  - by rewrite filter_cons_True.
  - by rewrite filter_cons_False.
Qed.

(** Distinct outputs of a lookup that all lie in a set are no more than it. *)
Lemma of_lookup_size l i (X : gset SocketAddr) :
  NoDup l → (∀ p, (i, p) ∈ l → p ∈ X) → (of_lookup l i ≤ size X)%nat.
Proof.
  intros Hnd Hin. unfold of_lookup. set (l' := filter _ l).
  assert (NoDup l'.*2) as Hnd'.
  { apply NoDup_fmap_2_strong; [|by apply NoDup_filter].
    intros [x1 p1] [x2 p2] [H1 _]%list_elem_of_filter [H2 _]%list_elem_of_filter. simpl in *. congruence. }
  rewrite <-(length_fmap snd l'), <-(size_list_to_set (C:=gset SocketAddr) l'.*2) by done.
  apply subseteq_size. intros p Hp. apply elem_of_list_to_set, list_elem_of_fmap in Hp as ([j q] & -> & Hq).
  apply list_elem_of_filter in Hq as [Hj Hq]. simpl in Hj. subst j. by apply Hin.
Qed.

(** *** State changes *)

Lemma lookup_ok_frame s s' i st :
  next_lookup_id s ≤ next_lookup_id s' → limits s' = limits s →
  count_by lookup_id (pending s') i = count_by lookup_id (pending s) i →
  (∀ a, (i, a) ∈ queries s' → (i, a) ∈ queries s) → (∀ a, (i, a) ∈ delivered s' → (i, a) ∈ delivered s) →
  of_lookup (queries s') i = of_lookup (queries s) i →
  lookup_ok s i st → lookup_ok s' i st.
Proof.
  intros Hid [= Hma Hmq Hmc _ _] Hc Hq Hd Hn [].
  split; rewrite ?Hmq, ?Hmc, ?Hc, ?Hn in *; auto; lia.
Qed.

Lemma in_order_weaken s s' l :
  Sorted.StronglySorted (in_order s) l →
  (∀ x y, x ∈ l → y ∈ l → in_order s x y → in_order s' x y) → Sorted.StronglySorted (in_order s') l.
Proof. intros. by eapply StronglySorted_weaken. Qed.

Lemma has_tid_mono s s' key : next_tid s ≤ next_tid s' → has_tid s key → has_tid s' key.
Proof. intros Hle (n & ? & ?). exists n. split; [lia|done]. Qed.

Lemma lookup_ok_mono t t' s : actor_ok t s → t ≤ t' → actor_ok t' s.
Proof.
  intros [] Hle. split; try done. eapply Forall_impl; [exact ao_expiry0|].
  intros x [Hx ?]. split; [|done]. unfold horizon, lookup_deadline in *. lia.
Qed.

(** Replacing the state of an active lookup. *)
Lemma lookup_update t s i st st' :
  actor_ok t s → active s !! i = Some st → lookup_ok s i st' → deadline st' = deadline st →
  actor_ok t (set_active s (<[i := st']> (active s)) (next_lookup_id s)).
Proof.
  intros Hok Hi Hst Hdl. destruct Hok. split; simpl; try done.
  - intros j sj [[<- <-]|[Hne Hj]]%lookup_insert_Some.
    + eapply lookup_ok_frame; [..|exact Hst]; done.
    + eapply lookup_ok_frame; [..|by apply ao_lookups0]; done.
  - rewrite map_size_insert_Some by eauto. done.
  - intros key p Hp. destruct (ao_pending0 _ _ Hp) as (Ha & ? & ?). split_and!; try done. simpl.
    destruct (decide (i = lookup_id p)) as [<-|Hne]; [by rewrite lookup_insert_eq|by rewrite lookup_insert_ne].
  - eapply in_order_weaken; [done|]. intros x y _ _ [?|Hy]; [by left|right]. simpl.
    intros p Hp Hd. destruct (Hy p Hp Hd) as (sp & Hsp & Hds).
    destruct (decide (i = lookup_id p)) as [Heq|Hne].
    + rewrite <-Heq in *. rewrite lookup_insert_eq. exists st'. split; [done|]. congruence.
    + rewrite lookup_insert_ne by done. eauto.
Qed.

(** Ending a lookup takes its queries with it. *)
Lemma finish_lookup_ok env t s i now :
  actor_ok t s → actor_ok t (finish_lookup env s i now)
    ∧ active (finish_lookup env s i now) = delete i (active s)
    ∧ pending (finish_lookup env s i now)
      = filter (λ kp : PendingKey * PendingQuery, lookup_id kp.2 ≠ i) (pending s)
    ∧ limits (finish_lookup env s i now) = limits s
    ∧ next_tid (finish_lookup env s i now) = next_tid s
    ∧ next_lookup_id (finish_lookup env s i now) = next_lookup_id s.
Proof.
  intros Hok. set (s' := finish_lookup env s i now).
  assert (∃ l, s' = note (set_pending (set_active s (delete i (active s)) (next_lookup_id s))
    (filter (λ kp : PendingKey * PendingQuery, lookup_id kp.2 ≠ i) (pending s)) (pending_expiry s) (next_tid s)) l)
    as [l ->].
  { subst s'. unfold finish_lookup. destruct (active s !! i) as [st|] eqn:Hi.
    - destruct (finish_reason _ _ _) as [r|]; [by exists [(r, 1)]|]. exists [].
      unfold note, set_pending, set_active. simpl. by rewrite app_nil_r.
    - exists []. rewrite delete_id by done. unfold note, set_pending, set_active. simpl. rewrite app_nil_r.
      by destruct s. }
  split; [|done]. destruct Hok. split; simpl; try done.
  - intros j sj [Hne Hj]%lookup_delete_Some. eapply lookup_ok_frame; [..|by apply ao_lookups0]; try done. simpl.
    unfold count_by. rewrite map_filter_filter. f_equal. apply map_filter_ext. intros k p _. simpl.
    split; [naive_solver|]. intros <-. done.
  - etrans; [|exact ao_active0]. apply inj_le, map_subseteq_size, delete_subseteq.
  - intros key p [Hp Hne]%map_lookup_filter_Some. destruct (ao_pending0 _ _ Hp) as (Ha & ? & ?).
    split_and!; try done. simpl in *. by rewrite lookup_delete_ne.
  - eapply in_order_weaken; [done|]. intros x y _ _ [?|Hy]; [by left|right]. simpl.
    intros p [Hp Hne]%map_lookup_filter_Some Hd. destruct (Hy p Hp Hd) as (sp & Hsp & Hds).
    exists sp. simpl in Hne. by rewrite lookup_delete_ne.
Qed.

Lemma finish_if_complete_ok env t s i now :
  actor_ok t s →
  let s' := finish_if_complete env s i now in
  actor_ok t s' ∧ limits s' = limits s ∧ next_tid s' = next_tid s ∧ next_lookup_id s' = next_lookup_id s
  ∧ (s' = s ∨ s' = finish_lookup env s i now).
Proof.
  intros Hok. unfold finish_if_complete. cbn zeta. destruct (active s !! i); [|by split_and!; auto].
  destruct (is_complete _ _ _); [|by split_and!; auto].
  destruct (finish_lookup_ok env t s i now Hok) as (? & _ & _ & ? & ? & ?). split_and!; auto.
Qed.

(** A query that ends frees its place, whatever part of the expiry queue is
    popped with it. *)
Lemma drop_query t s key p st q :
  actor_ok t s → pending s !! key = Some p → active s !! lookup_id p = Some st →
  q `suffix_of` pending_expiry s →
  (∀ key' p', pending s !! key' = Some p' → key' ≠ key → (q_deadline p', key') ∈ q) →
  actor_ok t (set_active (set_pending s (delete key (pending s)) q (next_tid s))
    (<[lookup_id p := with_counts st (queried st) (outstanding st - 1)]> (active s)) (next_lookup_id s)).
Proof.
  intros Hok Hp Hst Hsuf Hq. destruct Hok. split; simpl; try done.
  - intros j sj Hj. pose proof (count_by_delete lookup_id _ _ _ j Hp) as Hc.
    apply lookup_insert_Some in Hj as [[<- <-]|[Hne Hj]].
    + destruct (ao_lookups0 _ _ Hst). rewrite bool_decide_true in Hc by done.
      split; simpl; try done; lia.
    + rewrite bool_decide_false, Nat.add_0_r in Hc by done.
      eapply lookup_ok_frame; [..|by apply ao_lookups0]; done.
  - rewrite map_size_insert_Some by eauto. done.
  - intros key' p' [Hne Hp']%lookup_delete_Some. destruct (ao_pending0 _ _ Hp') as (Ha & ? & ?).
    split_and!; [|by apply Hq|done]. simpl. by apply lookup_insert_is_Some'; right.
  - destruct Hsuf as [l Hl]. rewrite Hl in ao_expiry0. by apply Forall_app in ao_expiry0 as [_ ?].
  - eapply in_order_weaken; [by eapply StronglySorted_suffix|]. intros x y _ _ [?|Hy]; [by left|right]. simpl.
    intros p' [Hne Hp']%lookup_delete_Some Hd. destruct (Hy p' Hp' Hd) as (sp & Hsp & Hds).
    destruct (decide (lookup_id p = lookup_id p')) as [Heq|].
    + rewrite Heq in *. rewrite lookup_insert_eq. eexists. split; [done|]. simpl. congruence.
    + rewrite lookup_insert_ne by done. eauto.
Qed.

(** Popping a queue head whose query is gone. *)
Lemma pop_stale t s d key q :
  actor_ok t s → pending_expiry s = (d, key) :: q →
  (∀ p, pending s !! key = Some p → q_deadline p ≠ d) →
  actor_ok t (set_pending s (pending s) q (next_tid s)).
Proof.
  intros Hok Hq Hne. destruct Hok. rewrite Hq in *. split; simpl; try done.
  - intros i st Hi. eapply lookup_ok_frame; [..|by apply ao_lookups0]; done.
  - intros key' p Hp. destruct (ao_pending0 _ _ Hp) as (? & Hin & ?). split_and!; try done. simpl.
    rewrite Hq in Hin. apply elem_of_cons in Hin as [[= Hd ->]|]; [|done]. by apply Hne in Hp.
  - by inversion ao_expiry0.
  - by inversion ao_order0.
Qed.

(** Taking a transaction identifier. *)
Lemma take_tid_ok t s :
  actor_ok t s → actor_ok t (set_pending s (pending s) (pending_expiry s) (next_tid s + 1)).
Proof.
  intros []. split; simpl; try done.
  - intros i st Hi. eapply lookup_ok_frame; [..|by apply ao_lookups0]; done.
  - intros key p Hp. destruct (ao_pending0 _ _ Hp) as (? & ? & ?). split_and!; try done.
    eapply has_tid_mono; [|done]. simpl. lia.
  - eapply Forall_impl; [exact ao_expiry0|]. intros x [? ?]. split; [done|].
    eapply has_tid_mono; [|done]. simpl. lia.
  - lia.
Qed.

(** The state after a query of lookup [i] to [a] with deadline [d]. *)
Definition sent_state (s : PeerLookupActor) (i : Z) (st : LookupState) (a : SocketAddr) (d : Instant)
  : PeerLookupActor :=
  let key := mkKey a (tid_of (next_tid s)) in
  set_outputs
    (set_active (set_pending s (<[key := mkQuery i d]> (pending s)) (pending_expiry s ++ [(d, key)])
                   (next_tid s + 1))
       (<[i := with_counts st (queried st) (S (outstanding st))]> (active s)) (next_lookup_id s))
    (queries s ++ [(i, a)]) (delivered s).

Lemma tid_fresh t s a n :
  actor_ok t s → next_tid s < 2 ^ 56 → n = next_tid s → ¬ has_tid s (mkKey a (tid_of n)).
Proof.
  intros Hok Hlt -> (m & Hm & Heq). pose proof (ao_ids _ _ Hok). apply tid_of_inj in Heq; lia.
Qed.

Lemma send_query_ok t t' s i st a :
  actor_ok t s → active s !! i = Some st → next_tid s < 2 ^ 56 → t ≤ t' →
  a ∈ seen_nodes st → a ∉ candidates st → (i, a) ∉ queries s →
  (of_lookup (queries s) i < queried st)%nat → Z.of_nat (outstanding st) < max_concurrent_queries s →
  actor_ok t' (sent_state s i st a (Z.min (horizon s t') (deadline st))).
Proof.
  intros Hok Hi Htid Ht Hseen Hnc Hnq Hcnt Hcon. pose proof (lookup_ok_mono _ _ _ Hok Ht) as Hok'.
  set (key := mkKey a (tid_of (next_tid s))).
  assert (¬ has_tid s key) as Hfresh by (by eapply tid_fresh).
  assert (pending s !! key = None) as Hnp.
  { destruct (pending s !! key) as [p|] eqn:E; [|done]. by apply (ao_pending _ _ Hok) in E as (_ & _ & ?). }
  assert (∀ y, y ∈ pending_expiry s → y.2 ≠ key) as Hny.
  { intros y Hy Heq. pose proof (ao_expiry _ _ Hok) as Hall. rewrite Forall_forall in Hall.
    destruct (Hall _ Hy) as [_ Hh]. by rewrite Heq in Hh. }
  destruct Hok'. pose proof (ao_lookups0 _ _ Hi) as Hlo.
  split; unfold sent_state; fold key; simpl; try done.
  - intros j sj Hj. pose proof (count_by_insert lookup_id (pending s) key (mkQuery i (Z.min (horizon s t') (deadline st))) j Hnp) as Hc.
    apply lookup_insert_Some in Hj as [[<- <-]|[Hne Hj]]; simpl in Hc.
    + destruct Hlo. rewrite bool_decide_true in Hc by done. split; simpl; try done; try lia.
      * intros b [?|[= ->]%list_elem_of_singleton]%elem_of_app; auto.
      * rewrite of_lookup_app. simpl. rewrite bool_decide_true by done. lia.
    + rewrite bool_decide_false, Nat.add_0_r in Hc by done.
      eapply lookup_ok_frame; [..|by apply ao_lookups0]; try done; simpl.
      * intros b [?|[= -> ->]%list_elem_of_singleton]%elem_of_app; done.
      * rewrite of_lookup_app. simpl. rewrite bool_decide_false by done. lia.
  - rewrite map_size_insert_Some by eauto. done.
  - intros key' p [[<- <-]|[Hne Hp]]%lookup_insert_Some.
    + split_and!; simpl; [by rewrite lookup_insert_eq|set_solver|]. exists (next_tid s). simpl. split; [lia|done].
    + destruct (ao_pending0 _ _ Hp) as (Ha & Hin & Hh). split_and!; simpl.
      * by apply lookup_insert_is_Some'; right.
      * set_solver.
      * eapply has_tid_mono; [|done]. simpl. lia.
  - apply Forall_app. split.
    + eapply Forall_impl; [exact ao_expiry0|]. intros x [Hx Hh]. split; [done|].
      eapply has_tid_mono; [|done]. simpl. lia.
    + constructor; [|done]. simpl. split; [unfold horizon; simpl; lia|]. exists (next_tid s). simpl. split; [lia|done].
  - apply StronglySorted_snoc.
    + eapply in_order_weaken; [done|]. intros x y _ Hy [?|Ho]; [by left|right]. simpl.
      intros p Hp Hd. rewrite lookup_insert_ne in Hp by (intros Heq; by eapply Hny).
      destruct (Ho p Hp Hd) as (sp & Hsp & Hds). destruct (decide (i = lookup_id p)) as [Heq|].
      * rewrite <-Heq in *. rewrite lookup_insert_eq. eexists. split; [done|]. simpl. congruence.
      * rewrite lookup_insert_ne by done. eauto.
    + apply Forall_forall. intros x Hx. pose proof ao_expiry0 as Hall. rewrite Forall_forall in Hall.
      destruct (Hall _ Hx) as [Hle _]. unfold in_order. simpl.
      destruct (Z.le_ge_cases (horizon s t') (deadline st)) as [Hm|Hm].
      * left. rewrite Z.min_l by done. done.
      * right. rewrite Z.min_r by done. intros p. rewrite lookup_insert_eq. intros [= <-] _. simpl.
        rewrite lookup_insert_eq. eauto.
  - apply NoDup_app. split_and!; [done| |apply NoDup_singleton].
    by intros x Hx ->%list_elem_of_singleton.
  - intros j. rewrite of_lookup_app. simpl. case_bool_decide as Hj; [|rewrite Nat.add_0_r; done].
    subst j. destruct Hlo. lia.
  - intros x. rewrite !elem_of_app, list_elem_of_singleton. intros [[?| ->]|?].
    + apply ao_known0, elem_of_app. auto.
    + simpl. apply Hlo.
    + apply ao_known0, elem_of_app. auto.
  - lia.
Qed.

(** *** The dispatch loop *)

Lemma min_index_lt hash l i best n :
  (best.1 < n)%nat → (i + length l ≤ n)%nat → (min_index hash l i best < n)%nat.
Proof.
  revert i best; induction l as [|x l IH]; intros i best Hb Hn; simpl in *; [done|].
  destruct (xor_distance_cmp _ _ _); apply IH; simpl; lia.
Qed.

(** A round takes one candidate, and only that. *)
Lemma pop_closest_spec st :
  match pop_closest st with
  | None => False
  | Some None => frontier st = [] ∧ source_nodes st = []
  | Some (Some (n, _, st')) =>
      st' = with_nodes st (frontier st') (source_nodes st')
      ∧ addr n :: candidates st' ≡ₚ candidates st
      ∧ (length (frontier st') ≤ length (frontier st))%nat
      ∧ (length (source_nodes st') ≤ length (source_nodes st))%nat
      ∧ S (length (frontier st') + length (source_nodes st'))
        = (length (frontier st) + length (source_nodes st))%nat
  end.
Proof.
  unfold pop_closest. destruct (source_nodes st) as [|n rest] eqn:Hs.
  - destruct (closest_index (info_hash st) (frontier st)) as [i|] eqn:Hc.
    + assert (i < length (frontier st))%nat as Hi.
      { unfold closest_index in Hc. destruct (frontier st) as [|x l]; [done|]. simplify_eq.
        apply min_index_lt; simpl; lia. }
      destruct (lookup_lt_is_Some_2 _ _ Hi) as [x Hx].
      destruct (swap_remove_Some _ _ _ Hx) as (y & l & -> & _ & Hp & Hl & _). simpl.
      split; [done|]. unfold candidates. simpl. rewrite Hs, !app_nil_r. split; [by rewrite <-Hp|]. lia.
    + unfold closest_index in Hc. by destruct (frontier st).
  - simpl. split; [done|]. unfold candidates. simpl. rewrite Hs. split; [|lia].
    rewrite !fmap_app. simpl. by rewrite Permutation_middle.
Qed.

(** Counting a node out of the candidates before it is asked. *)
Lemma lookup_ok_pop s i st n seed st' :
  lookup_ok s i st → pop_closest st = Some (Some (n, seed, st')) → Z.of_nat (queried st) < max_queries s →
  lookup_ok s i (with_counts st' (S (queried st')) (outstanding st')).
Proof.
  intros [] Hp Hq. pose proof (pop_closest_spec st) as Hs. rewrite Hp in Hs.
  destruct Hs as (Heq & Hperm & Hf & Hsn & _). rewrite Heq in *. simpl in *.
  assert (∀ a, a ∈ candidates st' → a ∈ candidates st) as Hsub.
  { intros a Ha. rewrite <-Hperm. by right. }
  split; simpl; try done; try lia.
  - rewrite <-Hperm in lo_distinct0. by apply NoDup_cons in lo_distinct0 as [_ ?].
  - intros a Ha. by apply lo_seen0, Hsub.
  - intros a Ha. apply lo_asked0 in Ha as [? Hna]. split; [done|]. intros ?. by apply Hna, Hsub.
Qed.

(** The part of the state the invariant reads, channels apart. *)
Definition core (s : PeerLookupActor) :=
  (active s, pending s, pending_expiry s, (next_lookup_id s, next_tid s), (queries s, delivered s), limits s).

Lemma actor_ok_core t s s' :
  actor_ok t s → core s' = core s →
  Z.of_nat (length (request_rx s')) ≤ REQUEST_CHANNEL_CAPACITY →
  Forall (λ r, length (rq_info_hash r) = 20%nat) (request_rx s') →
  Z.of_nat (length (response_rx s')) ≤ RESPONSE_CHANNEL_CAPACITY → actor_ok t s'.
Proof.
  intros [] [= Ha Hp He Hi Ht Hq Hd H1 H2 H3 H4 H5] Hr Hh Hs. split; rewrite ?Ha, ?Hp, ?He, ?Hi, ?Ht, ?Hq, ?Hd, ?H1, ?H2, ?H3, ?H5; try done.
  - intros i st Hst. eapply lookup_ok_frame; [..|by apply ao_lookups0]; try rewrite ?Hp, ?Hq, ?Hd, ?Hi; try done.
    unfold limits. congruence.
  - intros key p Hk. specialize (ao_pending0 _ _ Hk). unfold pending_ok, has_tid in *. by rewrite Ha, He, Ht.
  - eapply Forall_impl; [exact ao_expiry0|]. intros x. unfold horizon, has_tid. by rewrite H5, Ht.
  - eapply in_order_weaken; [done|]. intros x y _ _. unfold in_order. by rewrite Ha, Hp.
Qed.

Lemma lookup_note_ok t s l : actor_ok t s → actor_ok t (note s l).
Proof. intros Hok. eapply actor_ok_core; [exact Hok|done|apply Hok..]. Qed.

(** What the environment may do between [now] and [fin]: the clock does not
    run backwards, a receiver that was dropped stays dropped, and a hash set
    is iterated over its elements. *)
Record env_ok (env : Env) (now fin : Instant) : Prop := {
  eo_order_ok : now ≤ fin;
  eo_after i n : now ≤ en_after env i n ≤ fin;
  eo_mono i j n m : n < m → en_after env i n ≤ en_after env j m;
  eo_now i n : now ≤ en_now env i n ≤ en_end env i;
  eo_closed i n : en_closed env i n = true → en_end_closed env i = true;
  eo_elements X : en_order env X ≡ₚ elements X;
}.

(** No query is overdue at [now], unless its whole lookup is. *)
Definition fresh (now : Instant) (s : PeerLookupActor) : Prop :=
  ∀ key p, pending s !! key = Some p →
    now < q_deadline p ∨ ∃ st, active s !! lookup_id p = Some st ∧ deadline st ≤ now.

Definition clock_from (env : Env) (t : Instant) (s : PeerLookupActor) : Prop :=
  ∀ i n, next_tid s ≤ n → t ≤ en_after env i n.

(** What serving lookup [i] does, when it takes at most [k] identifiers. *)
Record served (env : Env) (now fin : Instant) (i : Z) (k : Z) (t : Instant) (s : PeerLookupActor)
    (t' : Instant) (s' : PeerLookupActor) : Prop := {
  sv_ok : actor_ok t' s';
  sv_time : t ≤ t' ≤ fin;
  sv_clock : clock_from env t' s';
  sv_limits : limits s' = limits s;
  sv_id : next_lookup_id s' = next_lookup_id s;
  sv_tid : next_tid s ≤ next_tid s' ≤ next_tid s + k;
  sv_others j : j ≠ i → active s' !! j = active s !! j;
  sv_fresh : fresh now s → fresh now s';
}.

Lemma served_refl env now fin i t s :
  actor_ok t s → t ≤ fin → clock_from env t s → served env now fin i 0 t s t s.
Proof. intros. split; try done; lia. Qed.

Lemma served_weaken env now fin i k k' t s t' s' :
  served env now fin i k t s t' s' → k ≤ k' → served env now fin i k' t s t' s'.
Proof. intros [] Hk. split; try done. lia. Qed.

Lemma served_trans env now fin i k1 k2 t s t1 s1 t2 s2 :
  served env now fin i k1 t s t1 s1 → served env now fin i k2 t1 s1 t2 s2 →
  served env now fin i (k1 + k2) t s t2 s2.
Proof.
  intros [] []. split; try done; try lia; try congruence; auto.
  intros j Hj. by rewrite sv_others1, sv_others0.
Qed.

(** The choice of a round keeps the invariant, and its node may be asked. *)
Lemma next_query_ok env now fin t s i n seed st :
  env_ok env now fin → actor_ok t s → next_query env s i = Some (Some (n, seed, st)) →
  let s1 := set_active s (<[i := st]> (active s)) (next_lookup_id s) in
  actor_ok t s1 ∧ addr n ∈ seen_nodes st ∧ addr n ∉ candidates st ∧ (i, addr n) ∉ queries s
  ∧ (of_lookup (queries s) i < queried st)%nat ∧ Z.of_nat (outstanding st) < max_concurrent_queries s
  ∧ now < deadline st
  ∧ ∃ st0, active s !! i = Some st0 ∧ deadline st = deadline st0
      ∧ S (length (frontier st) + length (source_nodes st))
        = (length (frontier st0) + length (source_nodes st0))%nat.
Proof.
  intros Henv Hok Hnq s1. unfold next_query in Hnq. destruct (active s !! i) as [st0|] eqn:Hi; [|done].
  destruct (_ || _) eqn:Hg; [done|]. rewrite !orb_false_iff in Hg. destruct Hg as ((((_ & Hdl) & _) & Hmq) & Hmc).
  destruct (pop_closest st0) as [[[[n' seed'] st']|]|] eqn:Hpop; simplify_eq/=.
  pose proof (ao_lookups _ _ Hok _ _ Hi) as Hlo. pose proof (pop_closest_spec st0) as Hs. rewrite Hpop in Hs.
  destruct Hs as (Heq & Hperm & _ & _ & Hlen). pose proof (lookup_ok_pop _ _ _ _ _ _ Hlo Hpop ltac:(lia)) as Hlo'.
  assert (addr n ∈ candidates st0) as Hin by (rewrite <-Hperm; by left).
  assert (deadline st' = deadline st0 ∧ seen_nodes st' = seen_nodes st0 ∧ outstanding st' = outstanding st0
    ∧ queried st' = queried st0) as (Hd & Hse & Ho & Hqd) by (by rewrite Heq).
  pose proof (eo_now _ _ _ Henv i (next_tid s)).
  split; [eapply lookup_update; [done..|]; by rewrite <-Hd|]. simpl. rewrite Hse, Ho, Hqd, Hd. split_and!.
  - by apply Hlo.
  - pose proof (lo_distinct _ _ _ Hlo) as Hnd. rewrite <-Hperm in Hnd. by apply NoDup_cons in Hnd as [? _].
  - intros Hq. by apply (lo_asked _ _ _ Hlo) in Hq as [_ ?].
  - pose proof (lo_count _ _ _ Hlo). lia.
  - lia.
  - lia.
  - exists st0. split_and!; [done..|lia].
Qed.

Lemma clock_from_mono env t s s' :
  clock_from env t s → next_tid s ≤ next_tid s' → clock_from env t s'.
Proof. intros Hc Hle i n Hn. apply Hc. lia. Qed.

(** Queries survive a change of a lookup that keeps its deadline. *)
Lemma fresh_update now s s' i st st0 :
  fresh now s → active s !! i = Some st0 → deadline st = deadline st0 →
  active s' = <[i := st]> (active s) →
  (∀ key p, pending s' !! key = Some p → pending s !! key = Some p ∨ now < q_deadline p) → fresh now s'.
Proof.
  intros Hf Hi Hd Ha Hp key p Hk. destruct (Hp _ _ Hk) as [Hk'|]; [|by left].
  destruct (Hf _ _ Hk') as [?|(sp & Hsp & Hle)]; [by left|right]. rewrite Ha.
  destruct (decide (i = lookup_id p)) as [Heq|].
  - rewrite <-Heq in *. rewrite lookup_insert_eq. exists st. split; [done|]. simplify_eq. lia.
  - rewrite lookup_insert_ne by done. eauto.
Qed.

(** A round whose datagram could not be sent. *)
Lemma skip_round env now fin t s i n seed st l :
  env_ok env now fin → actor_ok t s → t ≤ fin → clock_from env t s →
  next_query env s i = Some (Some (n, seed, st)) →
  served env now fin i 1 t s t
    (note (set_pending (set_active s (<[i := st]> (active s)) (next_lookup_id s)) (pending s)
       (pending_expiry s) (next_tid s + 1)) l).
Proof.
  intros Henv Hok Ht Hcl Hnq.
  destruct (next_query_ok _ _ _ _ _ _ _ _ _ Henv Hok Hnq) as (Hok1 & _ & _ & _ & _ & _ & _ & st0 & Hi & Hd & _).
  split; simpl; try done; try lia.
  - apply lookup_note_ok. by apply (take_tid_ok t) in Hok1.
  - eapply clock_from_mono; [done|]. simpl. lia.
  - intros j Hj. by rewrite lookup_insert_ne.
  - intros Hf. eapply fresh_update; [exact Hf|done..|]. simpl. auto.
Qed.

(** A round whose datagram was sent. *)
Lemma sent_round env now fin t s i n seed st l :
  env_ok env now fin → actor_ok t s → t ≤ fin → clock_from env t s → next_tid s < 2 ^ 56 →
  next_query env s i = Some (Some (n, seed, st)) →
  let t' := en_after env i (next_tid s) in
  let s1 := set_active s (<[i := st]> (active s)) (next_lookup_id s) in
  served env now fin i 1 t s t'
    (note (sent_state s1 i st (addr n) (Z.min (horizon s1 t') (deadline st))) l).
Proof.
  intros Henv Hok Ht Hcl Htid Hnq t' s1.
  destruct (next_query_ok _ _ _ _ _ _ _ _ _ Henv Hok Hnq)
    as (Hok1 & Hseen & Hnc & Hnq' & Hcnt & Hcon & Hdl & st0 & Hi & Hd & _). fold s1 in Hok1.
  assert (t ≤ t') as Ht' by (apply Hcl; lia). destruct (eo_after _ _ _ Henv i (next_tid s)) as [Hn Hfin].
  assert (active s1 !! i = Some st) as Hi1 by apply lookup_insert_eq.
  split; simpl; try done; try lia.
  - apply lookup_note_ok. by apply (send_query_ok t).
  - intros j m Hm. simpl in Hm. apply (eo_mono _ _ _ Henv). lia.
  - intros j Hj. by rewrite !lookup_insert_ne.
  - intros Hf. eapply (fresh_update _ s _ i (with_counts st (queried st) (S (outstanding st))) st0);
      [done..|simpl; by rewrite insert_insert_eq|].
    simpl. intros key p [[<- <-]|[_ ?]]%lookup_insert_Some; [right|by left]. simpl.
    pose proof (ao_ids _ _ Hok). unfold horizon, lookup_deadline. simpl. change (from_secs 300) with 300000000000.
    fold t' in Hn. lia.
Qed.

Lemma lookup_dispatch_loop_ok env now fin i fuel t s :
  env_ok env now fin → actor_ok t s → t ≤ fin → clock_from env t s →
  (dispatch_fuel s i ≤ fuel)%nat → next_tid s + Z.of_nat fuel ≤ 2 ^ 56 →
  ∃ t' s', dispatch_loop env fuel s i = Some s'
    ∧ served env now fin i (Z.of_nat fuel) t s t' s' ∧ next_query env s' i = Some None.
Proof.
  intros Henv. revert t s; induction fuel as [|fuel IH]; intros t s Hok Ht Hcl Hfuel Htid.
  { unfold dispatch_fuel in Hfuel. destruct (active s !! i); lia. }
  cbn [dispatch_loop]. destruct (next_query env s i) as [[[[n seed] st]|]|] eqn:Hnq.
  - destruct (next_query_ok _ _ _ _ _ _ _ _ _ Henv Hok Hnq)
      as (_ & _ & _ & _ & _ & _ & _ & st0 & Hi & Hd & Hlen).
    pose proof (ao_ids _ _ Hok) as (_ & Ht1 & _).
    cbn [next_transaction_id]. cbn [set_active set_pending active pending pending_expiry next_tid].
    rewrite lookup_insert_eq.
    assert (Z.max (u64_wrapping_add (next_tid s) 1) 1 = next_tid s + 1) as Htn.
    { rewrite u64_wrapping_add_small; change (2 ^ 56) with 72057594037927936 in *; unfold u64_max; lia. }
    assert (∀ t1 s1, served env now fin i 1 t s t1 s1 → next_tid s1 = next_tid s + 1 →
      (∃ q o, active s1 !! i = Some (with_counts st q o)) →
      ∃ t' s', dispatch_loop env fuel s1 i = Some s'
        ∧ served env now fin i (Z.of_nat (S fuel)) t s t' s' ∧ next_query env s' i = Some None) as Hnext.
    { intros t1 s1 Hs1 Hn1 (q & o & Ha1). destruct (IH t1 s1) as (t' & s' & -> & Hs' & Hq').
      - apply Hs1.
      - apply Hs1.
      - apply Hs1.
      - unfold dispatch_fuel in *. rewrite Ha1, Hi in *. simpl. lia.
      - lia.
      - exists t', s'. split; [done|]. split; [|done].
        replace (Z.of_nat (S fuel)) with (1 + Z.of_nat fuel) by lia. by eapply served_trans. }
    destruct (negb _).
    + pose proof (skip_round env now fin t s i n seed st [("peer_lookup_send_failed"%string, 1)] Henv Hok Ht Hcl Hnq) as Hs1.
      rewrite <-Htn in Hs1 at 1. eapply Hnext; [exact Hs1|done|]. exists (queried st), (outstanding st). simpl.
      rewrite lookup_insert_eq. by destruct st.
    + match goal with |- context [encode_get_peers_query ?a ?b ?c ?d] =>
        generalize (encode_get_peers_query a b c d); intros buffer end.
      match goal with |- ∃ _ _, dispatch_loop _ _ ?x _ = _ ∧ _ => assert (∃ l, x = note (sent_state
        (set_active s (<[i := st]> (active s)) (next_lookup_id s)) i st (addr n)
        (Z.min (horizon s (en_after env i (next_tid s))) (deadline st))) l) as [l ->] end.
      { set (sent := [("udp_sent"%string, Z.of_nat (length buffer)); ("peer_lookup_query"%string, 1)]).
        unfold sent_state, horizon; destruct seed; fields; rewrite lookup_insert_eq; fields; rewrite Htn;
          [exists (("lookup_source_seed_queries"%string, 1) :: sent)|exists sent]; destruct s;
          record_fields; by rewrite <-?app_assoc. }
      eapply Hnext; [by eapply (sent_round env now fin t s i n seed st l); [..|lia|]|done|].
      simpl. rewrite lookup_insert_eq. eauto.
  - exists t, s. split; [done|]. split; [|done]. eapply served_weaken; [by apply served_refl|lia].
  - exfalso. unfold next_query in Hnq. destruct (active s !! i) as [st|]; [|done].
    destruct (_ || _); [done|]. pose proof (pop_closest_spec st). by destruct (pop_closest st).
Qed.

(** Ending a lookup, whatever the reason. *)
Lemma finish_served env now fin t s i x :
  actor_ok t s → t ≤ fin → clock_from env t s → served env now fin i 0 t s t (finish_lookup env s i x).
Proof.
  intros Hok Ht Hcl. destruct (finish_lookup_ok env t s i x Hok) as (Hok' & Ha & Hp & Hl & Htid & Hid).
  split; rewrite ?Ha, ?Hp, ?Htid; try done; try lia.
  - eapply clock_from_mono; [done|]. lia.
  - intros j Hj. by rewrite lookup_delete_ne.
  - intros Hf key p. rewrite Hp, Ha. intros [Hk Hne]%map_lookup_filter_Some. simpl in Hne.
    rewrite lookup_delete_ne by done. by eapply Hf.
Qed.

(** When no round is possible and nothing is outstanding, the lookup is over. *)
Lemma stuck_complete env now fin t s i st :
  env_ok env now fin → actor_ok t s → active s !! i = Some st → next_query env s i = Some None →
  outstanding st = 0%nat → is_complete st (en_end_closed env i) (en_end env i) = true.
Proof.
  intros Henv Hok Hi Hnq Ho. unfold next_query in Hnq. rewrite Hi in Hnq.
  pose proof (ao_lookups _ _ Hok _ _ Hi) as Hlo. pose proof (eo_now _ _ _ Henv i (next_tid s)) as [_ Hnow].
  pose proof (ao_ids _ _ Hok) as (_ & _ & _ & Hmc). unfold is_complete. apply bool_decide_eq_true_2.
  unfold finish_reason. rewrite Ho, (lo_max _ _ _ Hlo) in *. rewrite (bool_decide_true (0%nat = 0%nat)) by done.
  destruct (en_end_closed env i) eqn:Hc; [done|].
  destruct (en_closed env i (next_tid s)) eqn:Hc'; [by apply (eo_closed _ _ _ Henv) in Hc'; congruence|].
  destruct (Z.leb_spec (deadline st) (en_end env i)) as [|Hdl]; [done|].
  case_bool_decide; [done|]. simpl. destruct (Z.leb_spec (max_queries s) (Z.of_nat (queried st))); [done|].
  destruct (Z.leb_spec (deadline st) (en_now env i (next_tid s))) as [|_]; [lia|].
  destruct (Z.leb_spec (max_concurrent_queries s) (Z.of_nat 0)) as [|_]; [lia|]. simpl in Hnq.
  pose proof (pop_closest_spec st) as Hs. destruct (pop_closest st) as [[[[]]|]|]; [done| |done].
  destruct Hs as [-> ->]. done.
Qed.

Lemma dispatch_more_ok env now fin t s i :
  env_ok env now fin → actor_ok t s → t ≤ fin → clock_from env t s → next_tid s + 73 ≤ 2 ^ 56 →
  ∃ t' s', dispatch_more env s i = Some s' ∧ served env now fin i 73 t s t' s'
    ∧ ∀ st, active s' !! i = Some st → (0 < outstanding st)%nat.
Proof.
  intros Henv Hok Ht Hcl Htid. assert (dispatch_fuel s i ≤ 73)%nat as Hfuel.
  { unfold dispatch_fuel. destruct (active s !! i) as [st|] eqn:Hi; [|lia].
    destruct (ao_lookups _ _ Hok _ _ Hi). unfold MAX_FRONTIER_NODES in *. lia. }
  destruct (lookup_dispatch_loop_ok env now fin i (dispatch_fuel s i) t s) as (t' & s1 & Hs1 & Hsv & Hnq); try done; [lia|].
  unfold dispatch_more. rewrite Hs1. cbn. exists t'. eexists. split; [done|].
  apply (served_weaken _ _ _ _ _ 73) in Hsv; [|lia]. unfold finish_if_complete.
  destruct (active s1 !! i) as [st|] eqn:Hi.
  - destruct (is_complete st (en_end_closed env i) (en_end env i)) eqn:Hco.
    + destruct (finish_lookup_ok env t' s1 i (en_end env i) (sv_ok _ _ _ _ _ _ _ _ _ Hsv)) as (_ & Ha & _). split.
      * change 73 with (73 + 0). eapply served_trans; [exact Hsv|]. apply finish_served; apply Hsv.
      * intros st'. by rewrite Ha, lookup_delete_eq.
    + split; [done|]. intros st'. rewrite Hi. intros [= <-].
      destruct (decide (outstanding st = 0%nat)) as [Ho|]; [|lia].
      pose proof (stuck_complete env now fin t' s1 i st Henv (sv_ok _ _ _ _ _ _ _ _ _ Hsv) Hi Hnq Ho). congruence.
  - split; [done|]. intros st'. by rewrite Hi.
Qed.

(** *** Responses *)

(** Every active lookup waits for an answer, so none is forgotten. *)
Definition live (s : PeerLookupActor) : Prop :=
  ∀ i st, active s !! i = Some st → (0 < outstanding st)%nat.

(** What a handler that runs until [fin] leaves. *)
Record stepped (fin : Instant) (k : Z) (s s' : PeerLookupActor) : Prop := {
  sp_ok : actor_ok fin s';
  sp_limits : limits s' = limits s;
  sp_id : next_lookup_id s ≤ next_lookup_id s' ≤ next_lookup_id s + 1;
  sp_tid : next_tid s ≤ next_tid s' ≤ next_tid s + k;
  sp_live : live s';
}.

Lemma stepped_same fin k s s' :
  actor_ok fin s → live s → 0 ≤ k → core s' = core s →
  Z.of_nat (length (request_rx s')) ≤ REQUEST_CHANNEL_CAPACITY →
  Forall (λ r, length (rq_info_hash r) = 20%nat) (request_rx s') →
  Z.of_nat (length (response_rx s')) ≤ RESPONSE_CHANNEL_CAPACITY → stepped fin k s s'.
Proof.
  intros Hok Hl Hk Hc H1 H2 H3. pose proof (actor_ok_core _ _ _ Hok Hc H1 H2 H3).
  injection Hc as Ha _ _ Hi Ht _ _ H4 H5 H6 H7 H8. split; try done; try lia.
  - unfold limits. congruence.
  - intros i st. rewrite Ha. apply Hl.
Qed.

Lemma served_live env now fin i k t s t' s' :
  served env now fin i k t s t' s' → (∀ j st, j ≠ i → active s !! j = Some st → (0 < outstanding st)%nat) →
  (∀ st, active s' !! i = Some st → (0 < outstanding st)%nat) → live s'.
Proof.
  intros Hs Ho Hi j st Hj. destruct (decide (j = i)) as [->|Hne]; [by apply Hi|].
  rewrite (sv_others _ _ _ _ _ _ _ _ _ Hs) in Hj by done. by eapply Ho.
Qed.

Lemma served_stepped env now fin i k t s t' s' :
  served env now fin i k t s t' s' → live s' → stepped fin k s s'.
Proof. intros [] Hl. split; try done; [|lia]. eapply lookup_ok_mono; [done|lia]. Qed.

(** The peers of a response that are new to the lookup. *)
Lemma visit_peers response nm ps0 :
  (size ps0 ≤ MAX_PEERS_PER_LOOKUP)%nat →
  let r := (for_each_response_peer visit_peer response nm (ps0, [])).2 in
  (size r.1 ≤ MAX_PEERS_PER_LOOKUP)%nat ∧ ps0 ⊆ r.1 ∧ NoDup r.2 ∧ ∀ p, p ∈ r.2 → p ∈ r.1 ∧ p ∉ ps0.
Proof.
  intros Hsz. set (I := λ r : gset SocketAddr * list SocketAddr, (size r.1 ≤ MAX_PEERS_PER_LOOKUP)%nat
    ∧ ps0 ⊆ r.1 ∧ NoDup r.2 ∧ ∀ p, p ∈ r.2 → p ∈ r.1 ∧ p ∉ ps0).
  assert (I (ps0, [])) as H0.
  { split; [done|]. split; [done|]. split; [constructor|]. by intros p ?%elem_of_nil. }
  assert (∀ r p, I r → I (visit_peer r p)) as Hstep.
  { intros [ps l] p (H1 & H2 & H3 & H4). unfold visit_peer. case_bool_decide as Hlt; [|done].
    case_bool_decide as Hin; [done|]. unfold I. simpl in *. split_and!.
    - rewrite size_union by set_solver. rewrite size_singleton. lia.
    - set_solver.
    - apply NoDup_app. split_and!; [done| |apply NoDup_singleton].
      intros x Hx ->%list_elem_of_singleton. by apply H4 in Hx as [? _].
    - intros q [Hq|Hq]%elem_of_app.
      + apply H4 in Hq. set_solver.
      + apply list_elem_of_singleton in Hq. subst q. set_solver. }
  unfold for_each_response_peer. destruct (r_values response) as [vs|]; [|exact H0].
  generalize 0%nat. revert H0. generalize (ps0, @nil SocketAddr). induction vs as [|v vs IH]; intros r Hr n; [done|].
  simpl. destruct (peer_of_value v) as [a|]; [|by apply IH]. destruct (_ && _); [|by apply IH].
  apply IH. by apply Hstep.
Qed.

(** The nodes of a response that are new to the lookup. *)
Lemma add_nodes_spec ns front seen :
  (length front ≤ MAX_FRONTIER_NODES)%nat →
  ∃ l, (add_nodes ns front seen).1 = front ++ l
    ∧ (length (front ++ l) ≤ MAX_FRONTIER_NODES)%nat
    ∧ NoDup (addr <$> l) ∧ (∀ a, a ∈ addr <$> l → a ∉ seen)
    ∧ (add_nodes ns front seen).2 = seen ∪ list_to_set (addr <$> l).
Proof.
  revert front seen; induction ns as [|n ns IH]; intros front seen Hf.
  { exists []. rewrite app_nil_r. split_and!; [done..|constructor|by intros a ?%elem_of_nil|simpl; set_solver]. }
  cbn [add_nodes]. case_bool_decide as Hfull.
  { exists []. rewrite app_nil_r. split_and!; [done..|constructor|by intros a ?%elem_of_nil|simpl; set_solver]. }
  case_bool_decide as Hin; [by apply IH|].
  destruct (IH (front ++ [n]) ({[addr n]} ∪ seen)) as (l & -> & Hlen & Hnd & Hns & ->).
  { rewrite length_app. simpl. lia. }
  exists (n :: l). rewrite <-app_assoc in *. split_and!; [done..| | |].
  - simpl. constructor; [|done]. intros Ha%Hns. set_solver.
  - simpl. intros a [->|Ha%Hns]%elem_of_cons; [done|set_solver].
  - simpl. set_solver.
Qed.

(** A lookup that learns nodes and peers stays well formed. *)
Lemma lookup_ok_learn s i st ns ps :
  lookup_ok s i st → peers st ⊆ ps → (size ps ≤ MAX_PEERS_PER_LOOKUP)%nat →
  let r := add_nodes ns (frontier st) (seen_nodes st) in
  lookup_ok s i (mkLookup (info_hash st) r.1 (source_nodes st) r.2 ps (queried st) (outstanding st)
                   (deadline st) (st_max_queries st)).
Proof.
  intros [] Hps Hsz r. destruct (add_nodes_spec ns (frontier st) (seen_nodes st)) as (l & H1 & H2 & H3 & H4 & H5);
    [done|]. fold r in H1, H5. rewrite <-H1 in H2.
  assert (∀ st', frontier st' = r.1 → source_nodes st' = source_nodes st →
    candidates st' ≡ₚ candidates st ++ (addr <$> l)) as Hc.
  { intros st' Hf Hs. unfold candidates. rewrite Hf, Hs, H1, !fmap_app. solve_Permutation. }
  split; simpl; try done; rewrite ?Hc by done.
  - apply NoDup_app. split_and!; [done| |done]. intros a Ha Hl. by apply (H4 a), lo_seen0.
  - intros a Ha. rewrite Hc, elem_of_app in Ha by done. rewrite H5. set_solver.
  - intros a [Hs Hn]%lo_asked0. rewrite H5, Hc, elem_of_app by done. split; [set_solver|].
    intros [?|Ha]; [done|]. by apply (H4 a).
  - auto.
Qed.

(** Peers handed over. *)
Lemma deliver_fold env i d s :
  ∃ d' l, fold_left (deliver env i) d s = note (set_outputs s (queries s) (delivered s ++ ((i,.) <$> d'))) l
    ∧ d' `sublist_of` d.
Proof.
  revert s; induction d as [|p d IH]; intros s.
  { exists [], []. split; [|done]. destruct s. record_fields. simpl. by rewrite !app_nil_r. }
  simpl. destruct (IH (deliver env i s p)) as (d' & l & -> & Hsub). unfold deliver.
  destruct (en_accept env p); [|destruct (en_peer_closed env p)].
  - exists (p :: d'). eexists. split; [|by constructor].
    destruct s. record_fields. simpl. by rewrite <-!app_assoc.
  - exists d', l. split; [done|by constructor].
  - exists d'. eexists. split; [|by constructor]. destruct s. record_fields. by rewrite <-!app_assoc.
Qed.

Lemma deliver_ok t s i st d :
  actor_ok t s → active s !! i = Some st → NoDup d → (∀ p, p ∈ d → p ∈ peers st ∧ (i, p) ∉ delivered s) →
  actor_ok t (set_outputs s (queries s) (delivered s ++ ((i,.) <$> d))).
Proof.
  intros Hok Hi Hnd Hd. destruct Hok.
  assert (∀ x, x ∈ (i,.) <$> d ↔ x.1 = i ∧ x.2 ∈ d) as Hin.
  { intros [j p]. rewrite list_elem_of_fmap. simpl. split; [by intros (? & [= -> ->] & ?)|intros [-> ?]; eauto]. }
  assert (NoDup (delivered s ++ ((i,.) <$> d))) as Hnd'.
  { apply NoDup_app. split_and!; [done| |by apply NoDup_fmap_2; [apply _|]].
    intros [j p] Hx [Hj Hp]%Hin. simpl in *. subst j. by apply Hd in Hp as [_ ?]. }
  assert (∀ p, (i, p) ∈ delivered s ++ ((i,.) <$> d) → p ∈ peers st) as Hpeers.
  { intros p [Hp|[_ Hp]%Hin]%elem_of_app; [by apply (ao_lookups0 _ _ Hi)|by apply Hd in Hp as [? _]]. }
  split; simpl; try done.
  - intros j sj Hj. destruct (decide (j = i)) as [->|Hne].
    + simplify_eq. destruct (ao_lookups0 _ _ Hi). by split.
    + eapply lookup_ok_frame; [..|by apply ao_lookups0]; try done. simpl.
      intros p [?|[? _]%Hin]%elem_of_app; done.
  - intros j. destruct (decide (j = i)) as [->|Hne].
    + etrans; [by eapply of_lookup_size|]. apply (ao_lookups0 _ _ Hi).
    + assert (of_lookup (delivered s ++ ((i,.) <$> d)) j = of_lookup (delivered s) j) as ->; [|done].
      unfold of_lookup. rewrite filter_app, length_app. clear -Hne.
      induction d as [|p d IH]; simpl; [lia|]. by rewrite filter_cons_False by (simpl; congruence).
  - intros x. rewrite !elem_of_app. intros [Hx|[Hx|[Hx _]%Hin]].
    + apply ao_known0. set_solver.
    + apply ao_known0. set_solver.
    + rewrite Hx. apply (ao_lookups0 _ _ Hi).
Qed.

(** A query that is answered frees its place. *)
Lemma drop_answered t s key p st :
  actor_ok t s → pending s !! key = Some p → active s !! lookup_id p = Some st →
  actor_ok t (set_active (set_pending s (delete key (pending s)) (pending_expiry s) (next_tid s))
    (<[lookup_id p := with_counts st (queried st) (outstanding st - 1)]> (active s)) (next_lookup_id s)).
Proof.
  intros Hok Hp Hst. eapply drop_query; [done..|].
  intros key' p' Hp' _. by apply (ao_pending _ _ Hok) in Hp' as (_ & ? & _).
Qed.

(** Ending a lookup takes a query of it that was dropped just before. *)
Lemma finish_dropped env s key q now :
  pending s !! key = Some q →
  finish_lookup env (set_pending s (delete key (pending s)) (pending_expiry s) (next_tid s)) (lookup_id q) now
  = finish_lookup env s (lookup_id q) now.
Proof.
  intros Hp. unfold finish_lookup. fields. set (i := lookup_id q).
  assert (filter (λ kp : PendingKey * PendingQuery, lookup_id kp.2 ≠ i) (delete key (pending s))
          = filter (λ kp : PendingKey * PendingQuery, lookup_id kp.2 ≠ i) (pending s)) as Hf.
  { rewrite map_filter_delete. apply delete_id, map_lookup_filter_None. right. intros p Hp' Hne.
    rewrite Hp in Hp'. simplify_eq/=. }
  destruct (active s !! i); [destruct (finish_reason _ _ _)|]; fields; rewrite Hf; by destruct s.
Qed.

Lemma lookup_response_ok env now fin s ev :
  env_ok env now fin → actor_ok now s → live s → next_tid s + 73 ≤ 2 ^ 56 →
  ∃ s', handle_response env s ev now = Some s' ∧ stepped fin 73 s s'.
Proof.
  intros Henv Hok Hlive Htid. pose proof (eo_order_ok _ _ _ Henv) as Hfin.
  assert (clock_from env now s) as Hcl by (intros j n _; apply (eo_after _ _ _ Henv)).
  unfold handle_response. destruct (pending s !! _) as [q|] eqn:Hp.
  2:{ exists s. split; [done|]. apply stepped_same; try apply Hok; try done; try lia. by eapply lookup_ok_mono. }
  destruct (ao_pending _ _ Hok _ _ Hp) as ([st Hst] & _ & _). cbn [set_pending active]. rewrite Hst.
  pose proof (drop_answered _ _ _ _ _ Hok Hp Hst) as Hok1.
  set (key := mkKey (lr_addr ev) (lr_tid ev)) in *. set (i := lookup_id q) in *.
  destruct (Z.leb_spec (deadline st) now) as [Hdl|Hdl].
  - eexists. split; [done|]. pose proof (finish_dropped env s key q now Hp) as Hfd. fold i in Hfd. rewrite Hfd. clear Hfd.
    assert (served env now fin i 0 now s now (finish_lookup env s i now)) as Hsv by (by apply finish_served).
    eapply (served_stepped _ now _ i 73 now); [eapply served_weaken; [done|lia]|].
    eapply served_live; [exact Hsv|intros; by eapply Hlive|].
    intros st'. destruct (finish_lookup_ok env now s i now Hok) as (_ & -> & _). by rewrite lookup_delete_eq.
  - fields. pose proof (lo_peers _ _ _ (ao_lookups _ _ Hok _ _ Hst)) as Hsz.
    pose proof (visit_peers (lr_response ev) (netmode s) (peers st) Hsz) as Hv.
    destruct (for_each_response_peer _ _ _ _).2 as [ps disc]. simpl in Hv. destruct Hv as (Hv1 & Hv2 & Hv3 & Hv4).
    match goal with |- context [add_nodes ?x _ _] => generalize x; intros ns end.
    set (s1 := set_active _ _ _) in Hok1. set (st1 := with_counts st (queried st) (outstanding st - 1)) in *.
    assert (active s1 !! i = Some st1) as Hi1 by apply lookup_insert_eq.
    pose proof (lookup_ok_learn s1 i st1 ns ps (ao_lookups _ _ Hok1 _ _ Hi1) Hv2 Hv1) as Hlo.
    destruct (add_nodes ns (frontier st) (seen_nodes st)) as [front seen] eqn:Hadd. simpl in Hlo. rewrite Hadd in Hlo.
    cbn [fst snd] in Hlo. eapply lookup_update in Hlo; [|exact Hok1|exact Hi1|done].
    match type of Hlo with actor_ok _ (set_active _ (<[i := ?st']> _) _) => set (st2 := st') in * end.
    set (s2 := set_active s1 _ _) in Hlo.
    assert (active s2 = <[i := st2]> (active s)) as Ha2 by apply insert_insert_eq.
    assert (active s2 !! i = Some st2) as Hi2 by (by rewrite Ha2, lookup_insert_eq).
    match goal with |- context [fold_left (deliver env i) disc ?x] => set (s3 := x) end.
    assert (s3 = note s2 [("peer_lookup_response"%string, 1)]) as ->.
    { unfold s3, s2, s1. fields. rewrite insert_insert_eq. by destruct s. }
    destruct (deliver_fold env i disc (note s2 [("peer_lookup_response"%string, 1)])) as (d & l & -> & Hsub).
    assert (actor_ok now (set_outputs s2 (queries s2) (delivered s2 ++ ((i,.) <$> d)))) as Hok3.
    { eapply deliver_ok; [done..|by eapply sublist_NoDup|]. intros p Hp'.
      eapply elem_of_sublist in Hp'; [|exact Hsub].
      apply Hv4 in Hp' as [? Hn]. split; [done|]. intros Hd. apply Hn. by apply (ao_lookups _ _ Hok _ _ Hst). }
    set (s4 := note _ l). assert (actor_ok now s4) as Hok4.
    { eapply actor_ok_core; [exact Hok3|done|apply Hok..]. }
    destruct (dispatch_more_ok env now fin now s4 i Henv Hok4) as (t' & s' & -> & Hsv & Hout); [lia|done|done|].
    exists s'. split; [done|].
    assert (served env now fin i 73 now s4 t' s' → stepped fin 73 s s') as Hfin'.
    { intros []. split; try done; [eapply lookup_ok_mono; [done|lia]| |].
      { rewrite sv_id0. change (next_lookup_id s4) with (next_lookup_id s). lia. }
      eapply served_live; [exact Hsv| |done]. intros j sj Hj Hsj.
      change (active s4) with (active s2) in Hsj. rewrite Ha2, lookup_insert_ne in Hsj by done. by eapply Hlive. }
    by apply Hfin'.
Qed.

(** *** New lookups *)

Lemma closest_nodes_ok snap target count family :
  snapshot_ok snap → length target = 20%nat →
  ∃ l, closest_nodes snap target count family = Some l ∧ (length l ≤ count)%nat ∧ NoDup (addr <$> l).
Proof.
  intros (ns & limit & Hs & Hok & Hnd) Htg. destruct (from_nodes_indexes ns limit Hok) as (s & Hs' & H4 & H6).
  rewrite Hs in Hs'. simplify_eq. eexists. split; [by apply (closest_nodes_indexes _ (take limit ns)); [apply Forall_take|..]|].
  split; [rewrite length_take; lia|]. eapply sublist_NoDup; [|apply fmap_sublist, sublist_take].
  rewrite nearest_perm. eapply sublist_NoDup; [|apply fmap_sublist, sublist_filter].
  eapply sublist_NoDup; [done|apply fmap_sublist, sublist_take].
Qed.

Lemma source_loop_spec ns family room seen :
  ∃ l, source_loop ns family room seen = (l, seen ∪ list_to_set (addr <$> l))
    ∧ (length l ≤ room)%nat ∧ NoDup (addr <$> l) ∧ ∀ a, a ∈ addr <$> l → a ∉ seen.
Proof.
  revert room seen; induction ns as [|n ns IH]; intros [|room] seen; cbn [source_loop];
    try (exists []; split_and!; [f_equal; simpl; set_solver|simpl; lia|constructor|by intros a ?%elem_of_nil]).
  destruct (_ || _) eqn:Hg; [by apply (IH (S room))|]. apply orb_false_iff in Hg as [_ Hin%bool_decide_eq_false].
  destruct (IH room ({[addr n]} ∪ seen)) as (l & -> & Hlen & Hnd & Hns). exists (n :: l). split_and!.
  - f_equal. simpl. set_solver.
  - simpl. lia.
  - simpl. constructor; [|done]. intros Ha%Hns. set_solver.
  - simpl. intros a [->|Ha%Hns]%elem_of_cons; [done|set_solver].
Qed.

(** Adding a lookup under the next identifier. *)
Lemma new_lookup_ok t s hash front sources d :
  actor_ok t s → Z.of_nat (size (active s)) < max_active_lookups s → 0 ≤ max_queries s →
  (length front ≤ MAX_FRONTIER_NODES)%nat → (length sources ≤ 8)%nat → NoDup (addr <$> front ++ sources) →
  let st := mkLookup hash front sources (list_to_set (addr <$> front ++ sources)) ∅ 0 0 d (max_queries s) in
  active s !! next_lookup_id s = None
  ∧ actor_ok t (set_active s (<[next_lookup_id s := st]> (active s)) (next_lookup_id s + 1)).
Proof.
  intros Hok Hsz Hmq Hf Hs Hnd st. set (i := next_lookup_id s). destruct Hok.
  assert (active s !! i = None) as Hi.
  { destruct (active s !! i) as [st'|] eqn:E; [|done]. apply ao_lookups0 in E as []. lia. }
  assert (∀ key p, pending s !! key = Some p → lookup_id p ≠ i) as Hne.
  { intros key p Hp Heq. apply ao_pending0 in Hp as ([st' Hst'] & _). congruence. }
  assert (∀ a, (i, a) ∉ queries s ∧ (i, a) ∉ delivered s) as Hno.
  { intros a. split; intros Ha; (assert ((i, a) ∈ queries s ++ delivered s) as Hin by set_solver);
      apply ao_known0 in Hin; simpl in Hin; lia. }
  split; [done|]. split; simpl; try done.
  - intros j sj [[<- <-]|[Hj Hsj]]%lookup_insert_Some.
    + split; simpl; try done; try lia.
      * apply Nat.le_0_l.
      * symmetry. unfold count_by. apply map_size_empty_iff, map_empty. intros key.
        apply map_lookup_filter_None. right. intros p Hp. simpl. by eapply Hne.
      * intros a Ha. by apply elem_of_list_to_set.
      * intros a Ha. by apply Hno in Ha.
      * intros a Ha. by apply Hno in Ha.
      * unfold of_lookup. destruct (filter _ _) as [|[j a] l] eqn:E; [simpl; lia|].
        assert ((j, a) ∈ filter (λ x : Z * SocketAddr, x.1 = i) (queries s)) as Hin by (rewrite E; by left).
        apply list_elem_of_filter in Hin as [Hj Hin]. simpl in Hj. subst j. by apply Hno in Hin.
    + eapply lookup_ok_frame; [..|by apply ao_lookups0]; try done. simpl. lia.
  - rewrite map_size_insert_None by done. lia.
  - intros key p Hp. pose proof (Hne _ _ Hp). destruct (ao_pending0 _ _ Hp) as (? & ? & ?).
    split_and!; try done. simpl. by rewrite lookup_insert_ne.
  - eapply in_order_weaken; [done|]. intros x y _ _ [?|Ho]; [by left|right]. intros p Hp Hd. simpl in *.
    rewrite lookup_insert_ne by (symmetry; by eapply Hne). by apply Ho.
  - intros x Hx%ao_known0. lia.
  - lia.
Qed.

Lemma start_lookup_ok env now fin s r closed snap :
  env_ok env now fin → actor_ok now s → live s → 0 ≤ max_queries s → next_tid s + 73 ≤ 2 ^ 56 →
  next_lookup_id s + 1 ≤ u64_max → snapshot_ok snap → length (rq_info_hash r) = 20%nat →
  ∃ s', start_lookup env s r closed snap now = Some s' ∧ stepped fin 73 s s'.
Proof.
  intros Henv Hok Hlive Hmq Htid Hid Hsnap Hr. pose proof (eo_order_ok _ _ _ Henv) as Hfin.
  assert (∀ s', core s' = core s → request_rx s' = request_rx s → response_rx s' = response_rx s →
    ∃ s'', Some s' = Some s'' ∧ stepped fin 73 s s'') as Hsame.
  { intros s' Hc H1 H2. exists s'. split; [done|]. apply stepped_same; rewrite ?H1, ?H2; try apply Hok; try done.
    by eapply lookup_ok_mono. }
  unfold start_lookup. destruct closed; [by apply Hsame|]. fields.
  destruct (Z.leb_spec (max_active_lookups s) (Z.of_nat (size (active s)))) as [|Hsz]; [by apply Hsame|].
  destruct (RateBucket.try_take_one _ _) as [[] b]; [|by apply Hsame]. fields.
  set (s1 := set_budget _ b). generalize (match socket_v4 s with true => if socket_v6 s then None else Some false
    | false => if socket_v6 s then Some true else None end). intros family.
  destruct (closest_nodes_ok snap (rq_info_hash r) (Z.to_nat (Z.min (max_queries s) (Z.of_nat MAX_FRONTIER_NODES)))
    family Hsnap Hr) as (front & -> & Hlen & Hnd). cbn [mbind option_bind].
  destruct (source_loop_spec (rq_source_nodes r) family 8 ∅) as (src & -> & Hl8 & Hnds & _).
  match goal with |- context [filter ?P front] => set (front' := filter P front) end.
  destruct (bool_decide (front' = []) && bool_decide (src = [])); [by apply Hsame|].
  assert (front' `sublist_of` front) as Hsub by apply sublist_filter.
  assert (actor_ok now s1) as Hok1 by (eapply actor_ok_core; [exact Hok|done|apply Hok..]).
  destruct (new_lookup_ok now s1 (rq_info_hash r) front' src (lookup_deadline now (lookup_timeout s)) Hok1)
    as [Hnone Hok2]; try done.
  { apply sublist_length in Hsub. lia. }
  { rewrite fmap_app. apply NoDup_app. split_and!; [|
      |done].
    - eapply sublist_NoDup; [exact Hnd|by apply fmap_sublist].
    - intros a (n & -> & Hn)%list_elem_of_fmap. apply list_elem_of_filter in Hn as [Hn _]. set_solver. }
  rewrite u64_wrapping_add_small, Z.max_l; [|pose proof (ao_ids _ _ Hok); lia..].
  match goal with |- context [dispatch_more env ?x ?i] => set (s2 := x); set (i0 := i) end.
  assert (actor_ok now s2) as Hok3 by (eapply actor_ok_core; [exact Hok2|done|apply Hok..]).
  destruct (dispatch_more_ok env now fin now s2 i0 Henv Hok3) as (t' & s' & -> & Hsv & Hout); [done| |done|].
  { intros j n _. apply (eo_after _ _ _ Henv). }
  exists s'. split; [done|]. assert (live s') as Hlive'.
  { eapply served_live; [exact Hsv| |done]. intros j sj Hj Hsj. unfold s2 in Hsj. simpl in Hsj.
    rewrite lookup_insert_ne in Hsj by done. by eapply Hlive. }
  destruct Hsv. split; try done; [eapply lookup_ok_mono; [done|lia]|].
  rewrite sv_id0. change (next_lookup_id s2) with (next_lookup_id s + 1). lia.
Qed.

(** *** Maintenance *)

(** The counters and limits of a state. *)
Definition counters (s : PeerLookupActor) := (limits s, next_lookup_id s, next_tid s).

(** When the queue's head is not due, no live query is. *)
Lemma head_fresh t s now :
  actor_ok t s → (∀ x, head (pending_expiry s) = Some x → now < x.1) → fresh now s.
Proof.
  intros Hok Hh key p Hp. destruct (ao_pending _ _ Hok _ _ Hp) as (_ & Hin & _).
  pose proof (ao_order _ _ Hok) as Hs. destruct (pending_expiry s) as [|x q]; [by apply elem_of_nil in Hin|].
  specialize (Hh x eq_refl). apply elem_of_cons in Hin as [<-|Hin]; [by left|].
  inversion Hs as [|? ? _ Hall]; subst. rewrite Forall_forall in Hall. destruct (Hall _ Hin) as [?|Ho]; simpl in *.
  - left. lia.
  - destruct (Ho p Hp eq_refl) as (st & Hst & Hd). destruct (Z.lt_ge_cases now (q_deadline p)); [by left|right].
    exists st. split; [done|lia].
Qed.

(** What popping the due queries leaves. *)
Record swept (t now : Instant) (A : gset Z) (s : PeerLookupActor) (A' : gset Z) (s' : PeerLookupActor) : Prop := {
  sw_ok : actor_ok t s';
  sw_counters : counters s' = counters s;
  sw_fresh : fresh now s';
  sw_dom : dom (active s') = dom (active s);
  sw_affected : A ⊆ A' ∧ A' ⊆ A ∪ dom (active s);
  sw_others i : i ∉ A' → active s' !! i = active s !! i;
}.

Lemma lookup_expire_loop_ok t now q s A :
  actor_ok t s → pending_expiry s = q →
  swept t now A s (expire_loop q s A now).1 (expire_loop q s A now).2.
Proof.
  revert s A; induction q as [|[d key] q IH]; intros s A Hok Hq; cbn [expire_loop].
  { split; try done; [|set_solver]. apply (head_fresh t); [done|]. simpl. by rewrite Hq. }
  destruct (Z.ltb_spec now d) as [Hlt|Hle].
  { split; try done; [|set_solver]. apply (head_fresh t); [done|]. simpl. rewrite Hq. by intros x [= <-]. }
  fields. destruct (pending s !! key) as [p|] eqn:Hp; [case_bool_decide as Hd|].
  - destruct (ao_pending _ _ Hok _ _ Hp) as ([st Hst] & _ & _). fields. rewrite Hst.
    match goal with |- context [expire_loop q ?x ?a now] => set (s1 := x); set (A1 := a) end.
    assert (actor_ok t s1) as Hok1.
    { apply lookup_note_ok. pose proof (drop_query t s key p st q Hok Hp Hst) as Hdrop. apply Hdrop.
      - rewrite Hq. by apply suffix_cons_r.
      - intros key' p' Hp' Hne. destruct (ao_pending _ _ Hok _ _ Hp') as (_ & Hin & _). rewrite Hq in Hin.
        by apply elem_of_cons in Hin as [[= _ ?]|]. }
    destruct (IH s1 A1 Hok1 eq_refl) as [H1 H2 H3 H4 [H5 H6] H7].
    assert (dom (active s1) = dom (active s)) as Hdom.
    { unfold s1. simpl. rewrite dom_insert_lookup_L; eauto. }
    assert (lookup_id p ∈ dom (active s)) as Hin by (apply elem_of_dom; eauto).
    split; try done; [by rewrite H4, Hdom|set_solver|]. intros i Hi. rewrite H7 by done. unfold s1. simpl.
    apply lookup_insert_ne. intros <-. apply Hi, H5. set_solver.
  - match goal with |- context [expire_loop q ?x ?a now] => set (s1 := x) end.
    assert (actor_ok t s1) as Hok1 by (apply (pop_stale t s d key); [done..|]; intros p'; rewrite Hp; congruence).
    by destruct (IH s1 A Hok1 eq_refl).
  - match goal with |- context [expire_loop q ?x ?a now] => set (s1 := x) end.
    assert (actor_ok t s1) as Hok1 by (apply (pop_stale t s d key); [done..|]; intros p'; rewrite Hp; congruence).
    by destruct (IH s1 A Hok1 eq_refl).
Qed.

(** Serving the lookups whose queries ran out. *)
Lemma dispatch_all_ok env now fin ids t s :
  env_ok env now fin → actor_ok t s → t ≤ fin → clock_from env t s → NoDup ids →
  next_tid s + 73 * Z.of_nat (length ids) ≤ 2 ^ 56 →
  ∃ s', dispatch_all env ids s = Some s' ∧ actor_ok fin s' ∧ limits s' = limits s
    ∧ next_lookup_id s' = next_lookup_id s
    ∧ next_tid s ≤ next_tid s' ≤ next_tid s + 73 * Z.of_nat (length ids)
    ∧ (fresh now s → fresh now s') ∧ (∀ j, j ∉ ids → active s' !! j = active s !! j)
    ∧ ∀ j st, j ∈ ids → active s' !! j = Some st → (0 < outstanding st)%nat.
Proof.
  intros Henv. revert t s; induction ids as [|i ids IH]; intros t s Hok Ht Hcl Hnd Htid; cbn [dispatch_all].
  { exists s. split; [done|]. split; [by eapply lookup_ok_mono|]. simpl. split_and!; try done; try lia.
    by intros j st ?%elem_of_nil. }
  apply NoDup_cons in Hnd as [Hni Hnd]. cbn [length] in *.
  destruct (dispatch_more_ok env now fin t s i Henv Hok Ht Hcl) as (t1 & s1 & -> & [] & Hout); [lia|].
  cbn [mbind option_bind]. destruct (IH t1 s1) as (s' & -> & H1 & H2 & H3 & H4 & H5 & H6 & H7); try done; [lia..|].
  exists s'. split_and!; try done; try congruence; try lia; auto.
  - intros j [Hj Hj']%not_elem_of_cons. rewrite H6 by done. by apply sv_others0.
  - intros j st [->|Hj]%elem_of_cons; [|by apply H7]. rewrite H6 by done. apply Hout.
Qed.

(** Ending several lookups. *)
Lemma finish_all_ok env t now ids s :
  actor_ok t s →
  let s' := fold_left (λ s i, finish_lookup env s i now) ids s in
  actor_ok t s' ∧ counters s' = counters s ∧ (fresh now s → fresh now s')
  ∧ ∀ i st, active s' !! i = Some st → active s !! i = Some st ∧ i ∉ ids.
Proof.
  revert s; induction ids as [|i ids IH]; intros s Hok; simpl.
  { split_and!; try done. intros i st Hi. split; [done|apply not_elem_of_nil]. }
  destruct (finish_lookup_ok env t s i now Hok) as (Hok1 & Ha & Hp & Hl & Ht & Hid).
  destruct (IH _ Hok1) as (H1 & H2 & H3 & H4). split_and!; [done|unfold counters in *; congruence| |].
  - intros Hf. apply H3. intros key p. rewrite Hp, Ha. intros [Hk Hne]%map_lookup_filter_Some. simpl in Hne.
    rewrite lookup_delete_ne by done. by eapply Hf.
  - intros j st [Hj Hn]%H4. rewrite Ha in Hj. apply lookup_delete_Some in Hj as [Hne Hj].
    split; [done|]. apply not_elem_of_cons. done.
Qed.

(** The lookups a sweep keeps are not over. *)
Lemma kept_lookup env s now i st :
  active s !! i = Some st → i ∉ complete_lookups env s now →
  now < deadline st ∧ en_sweep_closed env i = false ∧ (size (peers st) < MAX_PEERS_PER_LOOKUP)%nat.
Proof.
  intros Hi Hn. assert (is_complete st (en_sweep_closed env i) now = false) as Hc.
  { apply not_true_is_false. intros Hc. apply Hn. unfold complete_lookups. apply list_elem_of_fmap.
    exists (i, st). split; [done|]. apply list_elem_of_filter. split; [done|]. by apply elem_of_map_to_list. }
  unfold is_complete in Hc. apply bool_decide_eq_false in Hc. unfold finish_reason in Hc.
  destruct (en_sweep_closed env i); [exfalso; by apply Hc|].
  destruct (Z.leb_spec (deadline st) now); [exfalso; by apply Hc|].
  case_bool_decide; [exfalso; by apply Hc|]. split_and!; [lia|done|lia].
Qed.

(** What a maintenance tick at [now] leaves: nothing overdue. *)
Definition nothing_overdue (now : Instant) (s : PeerLookupActor) : Prop :=
  (∀ i st, active s !! i = Some st → now < deadline st ∧ (size (peers st) < MAX_PEERS_PER_LOOKUP)%nat)
  ∧ ∀ key p, pending s !! key = Some p → now < q_deadline p.

Lemma expire_ok env now fin s :
  env_ok env now fin → actor_ok now s → live s →
  next_tid s + 73 * (max_active_lookups s + 1) ≤ 2 ^ 56 →
  ∃ s', expire env s now = Some s' ∧ stepped fin (73 * (max_active_lookups s + 1)) s s' ∧ nothing_overdue now s'.
Proof.
  intros Henv Hok Hlive Htid. unfold expire. pose proof (lookup_expire_loop_ok now now (pending_expiry s) s ∅ Hok eq_refl) as Hsw.
  destruct (expire_loop _ _ _ _) as [A s1]. cbn [fst snd] in Hsw. destruct Hsw as [H1 [= K1 K2 K3 K4 K5 K6 K7] H3 H4 [_ H5] H6].
  assert (limits s1 = limits s) as Hl1 by (unfold limits; congruence).
  pose proof (eo_elements _ _ _ Henv A) as Hel.
  assert (Z.of_nat (length (en_order env A)) ≤ max_active_lookups s) as Hlen.
  { rewrite Hel. change (length (elements A)) with (size A). etrans; [|apply (ao_active _ _ Hok)].
    apply inj_le. rewrite <-(size_dom (active s)). apply subseteq_size. set_solver. }
  destruct (dispatch_all_ok env now fin (en_order env A) now s1 Henv H1) as (s2 & -> & G1 & G2 & G3 & G4 & G5 & G6 & G7).
  { apply Henv. } { intros j n _. apply (eo_after _ _ _ Henv). } { rewrite Hel. apply NoDup_elements. } { lia. }
  cbn [mbind option_bind]. destruct (finish_all_ok env fin now (complete_lookups env s2 now) s2 G1) as (F1 & [= L1 L2 L3 L4 L5 L6 L7] & F3 & F4).
  set (s' := fold_left _ _ _) in *. exists s'. split; [done|].
  assert (∀ i, i ∈ en_order env A ↔ i ∈ A) as HA by (intros i; by rewrite Hel, elem_of_elements).
  split; [split; try done; [unfold limits in *; congruence|lia..|]|].
  - intros i st [Hi _]%F4. destruct (decide (i ∈ A)) as [Ha|Ha].
    + eapply G7; [by apply HA|done].
    + rewrite G6, H6 in Hi by (by rewrite ?HA). by eapply Hlive.
  - split.
    + intros i st [Hi Hn]%F4. by destruct (kept_lookup _ _ _ _ _ Hi Hn) as (? & _ & ?).
    + intros key p Hp. destruct (F3 (G5 H3) _ _ Hp) as [?|(st & [Hi Hn]%F4 & Hd)]; [done|].
      destruct (kept_lookup _ _ _ _ _ Hi Hn) as (? & _). lia.
Qed.

(** ** Histories *)

(** An event, what it reads, and when its handler starts and ends. *)
Record step := mkStep { sp_event : event; sp_env : Env; sp_now : Instant; sp_fin : Instant }.

Definition event_ok (ev : event) : Prop :=
  match ev with
  | RecvRequest _ snap => snapshot_ok snap
  | Submit r => length (rq_info_hash r) = 20%nat
  | _ => True
  end.

Fixpoint clocked (t : Instant) (evs : list step) : Prop :=
  match evs with
  | [] => True
  | x :: evs => t ≤ sp_now x ∧ env_ok (sp_env x) (sp_now x) (sp_fin x) ∧ event_ok (sp_event x)
                ∧ clocked (sp_fin x) evs
  end.

Fixpoint run (s : PeerLookupActor) (evs : list step) : option PeerLookupActor :=
  match evs with
  | [] => Some s
  | x :: evs => let! s := handle_event s (sp_event x) (sp_env x) (sp_now x) in run s evs
  end.

Definition end_time (t : Instant) (evs : list step) : Instant := default t (sp_fin <$> last evs).

Lemma lookup_event_ok t s ev env now fin :
  actor_ok t s → live s → t ≤ now → env_ok env now fin → event_ok ev → 0 ≤ max_queries s →
  next_tid s + 73 * (max_active_lookups s + 1) ≤ 2 ^ 56 → next_lookup_id s + 1 ≤ u64_max →
  ∃ s', handle_event s ev env now = Some s' ∧ stepped fin (73 * (max_active_lookups s + 1)) s s'.
Proof.
  intros Hok Hlive Hle Henv Hev Hmq Htid Hid. apply (lookup_ok_mono _ now) in Hok; [|done].
  pose proof (ao_active _ _ Hok) as Hma. pose proof (eo_order_ok _ _ _ Henv) as Hfin.
  assert (∀ s' s'', stepped fin 73 s' s'' → core s' = core s →
    stepped fin (73 * (max_active_lookups s + 1)) s s'') as Hweak.
  { intros s' s'' [] [= ? ? ? Hi Ht ? ? ? ? ? ? ?]. rewrite Hi, Ht in *. split; try done; [|lia].
    unfold limits in *. congruence. }
  assert (∀ s', core s' = core s → Z.of_nat (length (request_rx s')) ≤ REQUEST_CHANNEL_CAPACITY →
    Forall (λ r, length (rq_info_hash r) = 20%nat) (request_rx s') →
    Z.of_nat (length (response_rx s')) ≤ RESPONSE_CHANNEL_CAPACITY →
    ∃ s'', Some s' = Some s'' ∧ stepped fin (73 * (max_active_lookups s + 1)) s s'') as Hsame.
  { intros s' Hc H1 H2 H3. exists s'. split; [done|]. apply stepped_same; try done; [|lia].
    by eapply lookup_ok_mono. }
  destruct ev as [| |closed snap|r|a tid r]; cbn [handle_event].
  - destruct (response_rx s) as [|r q] eqn:Hq; [by apply Hsame; try apply Hok|].
    destruct (lookup_response_ok env now fin (set_channels s (request_rx s) q) r Henv) as (s' & -> & Hs'); try done.
    + eapply actor_ok_core; [exact Hok|done|apply Hok..|]. pose proof (ao_responses _ _ Hok). rewrite Hq in *. simpl in *. lia.
    + simpl. lia.
    + exists s'. split; [done|]. by eapply Hweak.
  - destruct (expire_ok env now fin s) as (s' & -> & ? & _); eauto.
  - destruct (request_rx s) as [|r q] eqn:Hq; [by apply Hsame; try apply Hok|].
    pose proof (ao_requests _ _ Hok) as Hr. pose proof (ao_hashes _ _ Hok) as Hh. rewrite Hq in *.
    apply Forall_cons in Hh as [Hh1 Hh2].
    destruct (start_lookup_ok env now fin (set_channels s q (response_rx s)) r closed snap Henv) as (s' & -> & Hs'); try done.
    + eapply actor_ok_core; [exact Hok|done|simpl in *; lia|done|apply Hok].
    + simpl. lia.
    + exists s'. split; [done|]. by eapply Hweak.
  - unfold submit. destruct (Z.ltb_spec (Z.of_nat (length (request_rx s))) REQUEST_CHANNEL_CAPACITY);
      [|by apply Hsame; try apply Hok].
    apply Hsame; try apply Hok; simpl; try done.
    + rewrite length_app. simpl. lia.
    + apply Forall_app. split; [apply Hok|]. by constructor.
  - unfold route_response. destruct (Z.ltb_spec (Z.of_nat (length (response_rx s))) RESPONSE_CHANNEL_CAPACITY);
      [|by apply Hsame; try apply Hok].
    apply Hsame; try apply Hok; simpl; try done. rewrite length_app. simpl. lia.
Qed.

Lemma lookup_end_cons t x evs : end_time t (x :: evs) = end_time (sp_fin x) evs.
Proof. unfold end_time. rewrite last_cons. by destruct (last evs). Qed.

Lemma lookup_run_ok t s evs :
  actor_ok t s → live s → clocked t evs → 0 ≤ max_queries s →
  next_tid s + Z.of_nat (length evs) * (73 * (max_active_lookups s + 1)) ≤ 2 ^ 56 →
  next_lookup_id s + Z.of_nat (length evs) ≤ u64_max →
  ∃ s', run s evs = Some s' ∧ actor_ok (end_time t evs) s' ∧ live s' ∧ limits s' = limits s
    ∧ next_tid s' ≤ next_tid s + Z.of_nat (length evs) * (73 * (max_active_lookups s + 1)).
Proof.
  revert t s; induction evs as [|x evs IH]; intros t s Hok Hlive Hcl Hmq Htid Hid; cbn [run].
  { exists s. split_and!; try done. simpl. lia. }
  destruct Hcl as (Hle & Henv & Hev & Hcl). cbn [length] in *. pose proof (ao_active _ _ Hok) as Hma.
  rewrite Nat2Z.inj_succ, Z.mul_succ_l in *.
  assert (0 ≤ Z.of_nat (length evs) * (73 * (max_active_lookups s + 1))) by nia.
  destruct (lookup_event_ok t s (sp_event x) (sp_env x) (sp_now x) (sp_fin x)) as (s1 & -> & []); try done; [lia..|].
  cbn [mbind option_bind]. pose proof sp_limits0 as [= E1 E2 E3 E4 E5].
  destruct (IH (sp_fin x) s1) as (s' & -> & H1 & H2 & H3 & H4); try done; rewrite ?E1, ?E2; try lia.
  rewrite lookup_end_cons. exists s'. split_and!; try done; [congruence|]. rewrite E1 in H4. lia.
Qed.

Definition options_ok (o : PeerLookupOptions) : Prop := 0 ≤ po_max_active_lookups o ∧ 0 ≤ po_max_queries o.

Lemma lookup_new_ok nm lid v4 v6 o t : options_ok o → actor_ok t (new nm lid v4 v6 o t) ∧ live (new nm lid v4 v6 o t).
Proof.
  intros [Ha Hq]. split; [|by intros i st Hi]. split; simpl; try done; try apply NoDup_nil_2; try by constructor.
  - unfold of_lookup. simpl. unfold MAX_PEERS_PER_LOOKUP, MAX_METADATA_CANDIDATES_PER_HASH. lia.
  - by intros x ?%elem_of_nil.
  - unfold lookup_duration, from_millis. lia.
Qed.

(** What a history of [n] events may use up of the transaction counter. *)
Definition tid_budget (o : PeerLookupOptions) (n : nat) : Z :=
  1 + Z.of_nat n * (73 * (po_max_active_lookups o + 1)).

(** C15: peer lookups stay within their limits over every history.  Whatever
    jobs request, whatever datagrams arrive and in whatever order the arms of
    the loop run, no handler panics, and afterwards: at most
    [max_active_lookups] lookups are active; each has at most
    [max_queries] queries behind it and [max_concurrent_queries] in flight,
    and [outstanding] counts exactly its pending queries; no lookup asks the
    same node twice or hands the same peer over twice, and none hands over
    more than its peer limit; the expiry queue covers every pending query in
    order of its deadline.  Every active lookup still waits for an answer, so
    none is left behind.  (The transaction counter shows seven of its eight
    bytes, hence the bound on the history.) *)
Theorem lookup_history_safe (nm : NetMode) (lid : list Z) (v4 v6 : bool) (o : PeerLookupOptions) (t : Instant)
    (evs : list step) :
  options_ok o → clocked t evs → tid_budget o (length evs) ≤ 2 ^ 56 →
  ∃ s, run (new nm lid v4 v6 o t) evs = Some s ∧ actor_ok (end_time t evs) s ∧ live s.
Proof.
  intros Ho Hcl Hb. destruct (lookup_new_ok nm lid v4 v6 o t Ho) as [Hok Hlive]. destruct Ho as [Ha Hq].
  unfold tid_budget in Hb. change (2 ^ 56) with 72057594037927936 in *.
  destruct (lookup_run_ok t _ evs Hok Hlive Hcl) as (s & Hr & ? & ? & _); [done|done| |by exists s].
  simpl. unfold u64_max. nia.
Qed.

(** C29: maintenance leaves nothing overdue.  After any history, the
    maintenance tick at [now] returns, and then every active lookup has time
    and peers to go, every pending query's deadline lies ahead, and every
    active lookup has a query in flight: a lookup whose deadline has passed
    is gone with its queries, although queries cut short by the end of their
    lookup leave the expiry queue out of order. *)
Theorem lookup_maintenance (nm : NetMode) (lid : list Z) (v4 v6 : bool) (o : PeerLookupOptions)
    (t now fin : Instant) (evs : list step) (env : Env) :
  options_ok o → clocked t evs → end_time t evs ≤ now → env_ok env now fin →
  tid_budget o (S (length evs)) ≤ 2 ^ 56 →
  ∃ s s', run (new nm lid v4 v6 o t) evs = Some s ∧ handle_event s Maintenance env now = Some s'
    ∧ nothing_overdue now s' ∧ actor_ok fin s' ∧ live s'.
Proof.
  intros Ho Hcl Hle Henv Hb. destruct (lookup_new_ok nm lid v4 v6 o t Ho) as [Hok Hlive]. destruct Ho as [Ha Hq].
  unfold tid_budget in Hb. change (2 ^ 56) with 72057594037927936 in *.
  destruct (lookup_run_ok t _ evs Hok Hlive Hcl) as (s & Hr & Hok' & Hlive' & [= E1 E2 E3 E4 E5] & Ht); [done|simpl; lia|simpl; unfold u64_max; nia|].
  simpl in E1, Ht. destruct (expire_ok env now fin s Henv) as (s' & Hs' & [] & Hno); [by eapply lookup_ok_mono|done| |].
  { rewrite E1. change (2 ^ 56) with 72057594037927936. lia. }
  by exists s, s'.
Qed.

Definition ex_env (now : Instant) : Env := {|
  en_closed _ _ := false; en_now _ _ := now; en_sent _ _ := true; en_after _ _ := now; en_end _ := now;
  en_end_closed _ := false; en_reason_closed _ := false; en_sweep_closed _ := false;
  en_accept _ := true; en_peer_closed _ := false; en_order := elements |}.
Definition ex_options : PeerLookupOptions := mkPeerLookupOptions 32 32 4 3 2 2000 500.
Definition ex_hash : list Z := replicate 20 9.
Definition ex_node (x p : Z) : NodeTuple := mkNode (replicate 20 x) (SocketAddrV4 8 8 8 8 p).
Definition ex_nodes : list NodeTuple := [ex_node 1 6881; ex_node 8 6882; ex_node 9 6883; ex_node 3 6884].
Definition ex_snapshot : RoutingSnapshot :=
  match from_nodes ex_nodes 8 with Some s => s | None => snapshot_default end.
(** A reply with two peers, one of them twice. *)
Definition ex_reply : DhtResponse :=
  mkResponse None None None (Some [[9; 9; 9; 9; 26; 225]; [9; 9; 9; 8; 26; 225]; [9; 9; 9; 9; 26; 225]]) None None None.
Definition ex_steps : list step :=
  (λ et, mkStep et.1 (ex_env et.2) et.2 et.2) <$>
    [(Submit (mkRequest ex_hash [ex_node 5 7000]), 0);
     (RecvRequest false ex_snapshot, 1);
     (RouteResponse (SocketAddrV4 8 8 8 8 7000) (tid_of 1) ex_reply, 2);
     (RecvResponse, 3);
     (Maintenance, 600000000);
     (Maintenance, 3000000000)].

Lemma ex_env_ok now : env_ok (ex_env now) now now.
Proof. split; simpl; intros; try done; lia. Qed.

Lemma ex_snapshot_ok : snapshot_ok ex_snapshot.
Proof.
  exists ex_nodes, 8%nat. split_and!.
  - by vm_compute.
  - repeat constructor; lia.
  - vm_compute. repeat constructor; set_solver.
Qed.

Lemma ex_lookup_clocked : clocked 0 ex_steps.
Proof.
  unfold ex_steps. simpl. pose proof ex_env_ok. pose proof ex_snapshot_ok. split_and!; try done; lia.
Qed.

(** The history of the example: the source node is asked first, then the two
    closest nodes of the snapshot, up to the limit of three queries. *)
Example ex_lookup :
  ∃ s, run (new Ipv4Only (replicate 20 7) true false ex_options 0) (take 4 ex_steps) = Some s
    ∧ queries s = [(1, SocketAddrV4 8 8 8 8 7000); (1, SocketAddrV4 8 8 8 8 6883); (1, SocketAddrV4 8 8 8 8 6882)]
    ∧ delivered s = [(1, SocketAddrV4 9 9 9 9 6881); (1, SocketAddrV4 9 9 9 8 6881)].
Proof. eexists. split; [by vm_compute|]. done. Qed.

Lemma lookup_history_safe_witness :
  ∃ s, run (new Ipv4Only (replicate 20 7) true false ex_options 0) ex_steps = Some s
    ∧ actor_ok (end_time 0 ex_steps) s ∧ live s.
Proof.
  apply (lookup_history_safe Ipv4Only (replicate 20 7) true false ex_options 0 ex_steps).
  - split; simpl; lia.
  - apply ex_lookup_clocked.
  - vm_compute. discriminate.
Defined.

Lemma lookup_maintenance_witness :
  ∃ s s', run (new Ipv4Only (replicate 20 7) true false ex_options 0) (take 4 ex_steps) = Some s
    ∧ handle_event s Maintenance (ex_env 4) 4 = Some s' ∧ nothing_overdue 4 s' ∧ actor_ok 4 s' ∧ live s'.
Proof.
  apply (lookup_maintenance Ipv4Only (replicate 20 7) true false ex_options 0 4 4 (take 4 ex_steps) (ex_env 4)).
  - split; simpl; lia.
  - pose proof ex_lookup_clocked as H. simpl in *. tauto.
  - vm_compute. discriminate.
  - apply ex_env_ok.
  - vm_compute. discriminate.
Defined.

End PeerLookup.
