(* ===== verification/Publish.v ===== *)
(** * Publishing the routing snapshot ([publish_snapshot] of [src/crawl_engine.rs])

    The snapshot arm of the crawl actor's loop and what it relies on: the
    fixed-size byte arrays of the source are lists here, so that the actor
    only ever stores and sends twenty-byte identifiers is an invariant of its
    histories ([typed]), proved over every handler of the actor.  With it the
    published snapshot is always a well-formed index. *)

From S2P Require Import Prelude Net Float64 Budget Recent Pool Reservoir Snapshot Types Bootstrap Routing NodeId Krpc Pressure Crawl.

Local Open Scope Z_scope.

(** ** Identifiers in the reservoir *)

Module Stored.
Import ResponsiveReservoir.

Definition stored (r : ResponsiveReservoir) : Prop :=
  (∀ i e, slot_entry r i = Some e → node_wf (node e)) ∧ length (snapshot_member_cursors r) = 256%nat
  ∧ Forall is_byte (sparse_prefixes r).

Lemma stored_slots r i o :
  stored r → (∀ e, o = Some e → node_wf (node e)) → stored (set_slots r (<[i := o]> (slots r))).
Proof.
  intros (Hr & Hc & Hp) Ho. split; [|done]. intros j e. unfold slot_entry. simpl.
  destruct (decide (i = j)) as [<-|Hne].
  - destruct (decide (i < length (slots r))%nat) as [Hi|Hi].
    + rewrite list_lookup_insert_eq by done. auto.
    + rewrite list_insert_ge by lia. apply (Hr i).
  - rewrite list_lookup_insert_ne by done. apply (Hr j).
Qed.

Lemma stored_update r i f r' :
  stored r → (∀ e, node_wf (node e) → node_wf (node (f e))) → update r i f = Some r' → stored r'.
Proof.
  intros Hr Hf H. unfold update in H. bind_inv H. simplify_eq. apply stored_slots; [done|].
  intros e [= <-]. by eapply Hf, Hr.
Qed.

Lemma stored_unschedule r i r' : stored r → unschedule r i = Some r' → stored r'.
Proof.
  intros Hr H. unfold unschedule in H. destruct (slot_entry r i) as [e|] eqn:He; [|done].
  set (r0 := match revisit_key e with Some key => _ | None => _ end) in H.
  assert (stored r0) as H0 by (unfold r0; by destruct (revisit_key e)). clearbody r0. clear r Hr He.
  set (o := if ready e then _ else _) in H. destruct o as [r1|] eqn:Ho; [|done]. subst o.
  assert (stored r1) as H1; [|by eapply stored_update in H]. clear H.
  destruct (ready e); [|by simplify_eq].
  set (o := match previous e with Some p => _ | None => _ end) in Ho.
  destruct o as [r2|] eqn:Ho2; [|done]. subst o.
  assert (stored r2) as H2.
  { destruct (previous e); [by eapply stored_update in Ho2|by simplify_eq]. }
  set (o := match next e with Some p => _ | None => _ end) in Ho.
  destruct o as [r3|] eqn:Ho3; [|done]. subst o.
  assert (stored r3) as H3.
  { destruct (next e); [by eapply stored_update in Ho3|by simplify_eq]. }
  destruct (ready_len r3); by simplify_eq.
Qed.

Lemma stored_push_ready r i r' : stored r → push_ready r i = Some r' → stored r'.
Proof.
  intros Hr H. unfold push_ready in H. bind_inv H. simplify_eq. eapply stored_update in E; [|done..].
  change (stored r1). destruct (ready_tail r0); [by eapply stored_update in E0|by simplify_eq].
Qed.

Lemma stored_enqueue r i t now r' : stored r → enqueue_revisit r i t now = Some r' → stored r'.
Proof.
  intros Hr H. unfold enqueue_revisit in H. bind_inv H. apply stored_unschedule in E; [|done].
  set (w := match blocked_until _ with Some _ => _ | None => _ end) in H. case_bool_decide.
  - by eapply stored_push_ready.
  - bind_inv H. simplify_eq. eapply stored_update in E1; [done|exact E|done].
Qed.

Lemma stored_record r n now at_ r' : stored r → node_wf n → record r n now at_ = Some r' → stored r'.
Proof.
  intros Hr Hn H. unfold record in H. destruct (index r !! addr n) as [i|].
  - bind_inv H. eapply stored_update in E0; [|done..]. case_bool_decide; [|by simplify_eq]. bind_inv H.
    eapply stored_update in E1; [|done..]. by eapply stored_enqueue in H.
  - bind_inv H. simplify_eq. change (stored r1). eapply stored_enqueue in E1; [done|].
    assert (stored r0) as H0.
    { destruct o as [old|]; [|by simplify_eq]. bind_inv E0. simplify_eq. by eapply stored_unschedule in E2. }
    pose proof (stored_slots r0 (write_cursor r) (Some (mkEntry n (now + ttl r0) at_ now 0 None None false None None)) H0)
      as Hs. apply Hs. by intros e [= <-].
Qed.

Lemma stored_promote n r now r' : stored r → promote_loop n r now = Some r' → stored r'.
Proof.
  revert r; induction n as [|n IH]; intros r Hr H; cbn [promote_loop] in H; [by simplify_eq|].
  destruct (set_first _); [|by simplify_eq]. case_bool_decide; [by simplify_eq|]. bind_inv H.
  eapply stored_update in E; [|done..]. eapply stored_push_ready in E0; [|done]. by eapply IH.
Qed.

Lemma stored_select n r now o r' :
  stored r → select_loop n r now = Some (o, r') → stored r' ∧ ∀ x, o = Some x → node_wf x.
Proof.
  revert r; induction n as [|n IH]; intros r Hr H; cbn [select_loop] in H; [by simplify_eq|].
  destruct (ready_head r); [|by simplify_eq]. bind_inv H. apply stored_unschedule in E; [|done].
  case_bool_decide.
  - apply IH in H; [done|]. by apply (stored_slots (set_index r0 _) n0 None).
  - simplify_eq. split; [done|]. intros x [= <-]. by eapply E.
Qed.

Lemma stored_next_revisit r now o r' :
  stored r → next_revisit r now = Some (o, r') → stored r' ∧ ∀ x, o = Some x → node_wf x.
Proof. intros Hr H. unfold next_revisit in H. bind_inv H. eapply stored_select; [|done]. by eapply stored_promote. Qed.

Lemma stored_record_probe r a now r' : stored r → record_probe r a now = Some r' → stored r'.
Proof.
  intros Hr H. unfold record_probe in H. destruct (index r !! a); [|by simplify_eq]. bind_inv H.
  eapply stored_update in E; [|done..]. by eapply stored_enqueue.
Qed.

Lemma stored_defer r a t now r' : stored r → defer_revisit r a t now = Some r' → stored r'.
Proof.
  intros Hr H. unfold defer_revisit in H. destruct (index r !! a); [|by simplify_eq]. bind_inv H.
  by eapply stored_enqueue.
Qed.

Lemma stored_failure r a d now b r' : stored r → record_failure r a d now = Some (b, r') → stored r'.
Proof.
  intros Hr H. unfold record_failure in H. destruct (index r !! a); [|by simplify_eq]. bind_inv H.
  case_bool_decide; [by simplify_eq|]. bind_inv H. simplify_eq.
  eapply stored_update in E0; [|done..]. by eapply stored_enqueue.
Qed.

Lemma stored_new c t i : stored (new c t i).
Proof.
  split; [|split].
  - intros j e. unfold slot_entry, new. simpl. destruct (replicate _ None !! j) eqn:E; [|done].
    by apply lookup_replicate in E as [-> _].
  - by vm_compute.
  - apply Forall_fmap, Forall_forall. intros x Hx%elem_of_seq. unfold is_byte. simpl. lia.
Qed.
End Stored.

(** ** Identifiers in the candidate pool *)

Module Queued.
Import NodePool.

Definition queued_ok (p : NodePool) : Prop := Forall (λ e, node_wf (node e)) (queue p).

Lemma queue_expire p now el p' : expire_recent p now el = Some p' → queue p' = queue p.
Proof. unfold expire_recent. intros. repeat case_match; by simplify_eq. Qed.

Lemma queue_prepare p a now el p' : prepare_recent_slot p a now el = Some p' → queue p' = queue p.
Proof.
  unfold prepare_recent_slot. intros H. bind_inv H. rewrite <-(queue_expire _ _ _ _ E). clear E.
  revert n H. generalize (S (length (RecentProbes.expiry (recent p)))) as k. induction k as [|k IH]; intros q H; [done|].
  cbn [prepare_loop] in H. destruct (_ && _); [|by simplify_eq]. bind_inv H.
  rewrite <-(queue_expire _ _ _ _ E). by apply IH.
Qed.

Lemma queued_admit p n now el o p' :
  queued_ok p → node_wf n → admit_node p n now el = Some (o, p') → queued_ok p'.
Proof.
  intros Hp Hn H. unfold admit_node in H. case_match; [by simplify_eq|]. bind_inv H.
  apply queue_expire in E. unfold queued_ok in Hp. rewrite <-E in Hp. clear E. case_match; [by simplify_eq|].
  set (g := if warmed n0 then _ else _) in H.
  assert (queue g.2 = queue n0) as Hg by (unfold g; by destruct (warmed n0); [destruct (RateBucket.try_take_one _ _)|]).
  clearbody g. destruct g as [granted q]. simpl in Hg. rewrite <-Hg in Hp. case_match; [by simplify_eq|].
  set (g := if bool_decide (capacity q ≤ _)%nat then _ else _) in H.
  assert (Forall (λ e, node_wf (node e)) (queue g.2)) as Hq.
  { unfold g. destruct (bool_decide (capacity q ≤ _)%nat); [|done]. unfold pop_front_internal. destruct (queue q) eqn:E; simpl; [by rewrite E|].
    by inversion Hp. }
  clearbody g. destruct g as [replaced q']. simpl in Hq.
  assert (Forall (λ e, node_wf (node e)) (queue q' ++ [mkQueued n now])) as Hr
    by (apply Forall_app; split; [done|by constructor]).
  injection H as _ <-. unfold queued_ok. by match goal with |- context [bool_decide ?P] => destruct (bool_decide P) end.
Qed.

Lemma queued_rotate p : queued_ok p → queued_ok (rotate_front_to_back p).2.
Proof.
  unfold queued_ok, rotate_front_to_back. intros Hp. case_bool_decide; [done|]. simpl.
  by rewrite rotate_left_Permutation.
Qed.

Lemma queued_take p now el o p' :
  queued_ok p → take_front_for_probe p now el = Some (o, p') → queued_ok p' ∧ ∀ n, o = Some n → node_wf n.
Proof.
  unfold queued_ok, take_front_for_probe, pop_front_internal. intros Hp H.
  destruct (queue p) as [|e q] eqn:Hq; [by simplify_eq; rewrite Hq|]. bind_inv H. simplify_eq. inversion Hp; subst.
  apply queue_prepare in E. simpl in *. rewrite E. split; [done|]. by intros x [= <-].
Qed.

Lemma queued_restore p n at_ p' : queued_ok p → node_wf n → restore_front p n at_ = Some p' → queued_ok p'.
Proof. unfold queued_ok, restore_front. intros Hp Hn H. bind_inv H. simplify_eq. by constructor. Qed.

Lemma queued_contains p a now el b p' : queued_ok p → contains_recent p a now el = Some (b, p') → queued_ok p'.
Proof.
  unfold queued_ok, contains_recent. intros Hp H. bind_inv H. simplify_eq. apply queue_expire in E. by rewrite E.
Qed.

Lemma queued_probe p a now el p' : queued_ok p → record_probe p a now el = Some p' → queued_ok p'.
Proof.
  unfold queued_ok, record_probe. intros Hp H. bind_inv H. simplify_eq. apply queue_prepare in E. simpl. by rewrite E.
Qed.
End Queued.

(** ** Identifiers in a response *)

Definition bytes_opt (o : option (list Z)) : Prop := match o with Some l => Forall is_byte l | None => True end.

(** What the decoder guarantees of the fields the crawl reads. *)
Definition response_ok (r : DhtResponse) : Prop :=
  bytes_opt (r_id r) ∧ bytes_opt (r_nodes r) ∧ bytes_opt (r_nodes6 r) ∧ bytes_opt (r_samples r).

Lemma chunks_bytes k l :
  (0 < k)%nat → Forall is_byte l → Forall (λ c, length c = k ∧ Forall is_byte c) (chunks_exact k l).
Proof.
  intros Hk Hl. unfold chunks_exact. apply Forall_fmap, Forall_forall. intros i Hi%elem_of_seq. simpl. split.
  - rewrite length_take, length_drop. pose proof (Nat.Div0.mul_div_le (length l) k). nia.
  - by apply Forall_take, Forall_drop.
Qed.

Lemma byte_at c i : Forall is_byte c → is_byte (c !!! i).
Proof.
  intros Hc. destruct (decide (i < length c)%nat) as [Hi|Hi].
  - destruct (lookup_lt_is_Some_2 c i Hi) as [x Hx]. rewrite (list_lookup_total_correct _ _ _ Hx).
    rewrite Forall_lookup in Hc. by eapply Hc.
  - rewrite list_lookup_total_alt, lookup_ge_None_2 by lia. done.
Qed.

Lemma chunk_nodes_wf c :
  Forall is_byte c → (length c = 26%nat → node_wf (node_of_chunk4 c)) ∧ (length c = 38%nat → node_wf (node_of_chunk6 c)).
Proof.
  intros Hc. assert (∀ i j, 0 ≤ from_be_bytes (c !!! i) (c !!! j) < 65536) as Hp.
  { intros i j. pose proof (byte_at c i Hc). pose proof (byte_at c j Hc). unfold from_be_bytes, is_byte in *. lia. }
  split; intros Hl; (split; [simpl; rewrite length_take; lia|]); (split; [by apply Forall_take|]); simpl.
  - auto 10 using byte_at.
  - rewrite length_take, length_drop. split; [lia|]. auto using Forall_take, Forall_drop.
Qed.

Lemma visit_chunks_inv {S} (visit : S → NodeTuple → S) (node_of : list Z → NodeTuple) (I : S → Prop) chunks st :
  Forall (λ c, node_wf (node_of c)) chunks → (∀ s n, I s → node_wf n → I (visit s n)) → I st.2 →
  I (visit_chunks visit node_of chunks st).2.
Proof.
  intros Hch Hv. revert st; induction Hch as [|c chunks Hc _ IH]; intros st Hst; [done|]. apply IH. simpl.
  case_match; [|done]. by apply Hv.
Qed.

(** Only well-formed nodes are read out of a response. *)
Lemma response_nodes_inv {S} (visit : S → NodeTuple → S) (I : S → Prop) r nm s :
  response_ok r → (∀ s n, I s → node_wf n → I (visit s n)) → I s → I (for_each_response_node visit r nm s).2.
Proof.
  intros (_ & H4 & H6 & _) Hv Hs. unfold for_each_response_node. set (st := match r_nodes r with Some _ => _ | None => _ end).
  assert (I st.2) as Hst.
  { unfold st. destruct (r_nodes r); [|done]. destruct (_ && _); [|done]. apply visit_chunks_inv; try done.
    eapply Forall_impl; [apply (chunks_bytes 26); [lia|done]|]. intros c [Hl Hc]. by apply chunk_nodes_wf. }
  clearbody st. destruct (r_nodes6 r); [|done]. destruct (_ && _); [|done]. apply visit_chunks_inv; try done.
  eapply Forall_impl; [apply (chunks_bytes 38); [lia|done]|]. intros c [Hl Hc]. by apply chunk_nodes_wf.
Qed.

(** The addresses selected for bootstrapping are candidates. *)
Lemma select_forall (P : SocketAddr → Prop) p cs mx now :
  Forall P cs → Forall P (BootstrapSourcePool.select p cs mx now).1.
Proof.
  intros Hcs. unfold BootstrapSourcePool.select.
  assert (∀ p sel seen e, Forall P sel → (∀ a u, e = Some (a, u) → P a) →
    match (BootstrapSourcePool.select_loop p cs mx now sel seen e).1 with
    | inl l => Forall P l | inr (l, e') => Forall P l ∧ ∀ a u, e' = Some (a, u) → P a end) as Hloop.
  { clear p. induction Hcs as [|a cs Ha _ IH]; intros p sel seen e Hsel He; [done|].
    cbn [BootstrapSourcePool.select_loop]. case_bool_decide; [by apply IH|].
    assert (Forall P (sel ++ [a])) as Hsel' by (apply Forall_app; split; [done|by apply Forall_singleton]).
    destruct (BootstrapSourcePool.backoff_until _) as [until|]; [destruct (now <? until)|];
      [|destruct (bool_decide _); [done|by apply IH]..].
    apply IH; [done|]. destruct e as [[c v]|]; [destruct (until <? v)|]; intros ? ? [= <- <-]; eauto. }
  specialize (Hloop p [] ∅ None (List.Forall_nil _)). destruct (BootstrapSourcePool.select_loop _ _ _ _ _ _ _) as [[l|[l e]] q];
    cbn [fst] in Hloop.
  - by apply Hloop.
  - destruct Hloop as [Hl He]; [done|]. destruct (_ && _); [|done]. destruct e as [[a u]|]; [|done]. simpl.
    apply Forall_app. split; [done|]. apply Forall_singleton. by eapply He.
Qed.

(** ** Identifiers in the actor *)

Module Publish.
Import CrawlActor Stored Queued.

Definition priority_ok (ev : PriorityEvent) : Prop := 
  match ev with Response _ _ r => response_ok r | BootstrapResolved l => Forall addr_wf l | SendFailed _ => True end.

(** A request that fits the encoder's fixed fields. *)
Definition request_ok (o : OutboundRequest) : Prop :=
  length (k_tid (o_key o)) = 8%nat ∧ NodeId.id20 (o_target o) ∧ NodeId.id20 (o_sender_id o) ∧ node_wf (o_node o).

Definition egress_ok (q : option (list OutboundRequest)) : Prop := match q with Some l => Forall request_ok l | None => True end.

Record typed (s : CrawlActor) : Prop := {
  ty_local : NodeId.id20 (local_id s);
  ty_stored : stored (responsive s);
  ty_queued : queued_ok (pool s);
  ty_pending : map_Forall (λ _ p, node_wf (p_node p)) (pending s);
  ty_discovery : Forall node_wf (discovery_rx s);
  ty_priority : Forall priority_ok (priority_rx s);
  ty_bootstrap : Forall addr_wf (bootstrap_queue s);
  ty_egress_v4 : egress_ok (egress_v4 s);
  ty_egress_v6 : egress_ok (egress_v6 s);
}.

Definition rand_ok (rnd : Z → Rand) : Prop := ∀ n, NodeId.id20 (ident (rnd n)) ∧ ∀ i, is_byte (tail (rnd n) i).

(** Splits [typed] of an updated actor into its fields. *)
Ltac typed H := destruct H; constructor; cbn [local_id responsive pool pending discovery_rx priority_rx bootstrap_queue egress_v4
  egress_v6 set_channels set_egress set_pool set_responsive set_flight set_budgets set_bootstrap set_node_count note
  clear_metrics] in *; try done.

Lemma typed_responsive s r : typed s → stored r → typed (set_responsive s r).
Proof. intros H Hr. by typed H. Qed.
Lemma typed_pool s p : typed s → queued_ok p → typed (set_pool s p).
Proof. intros H Hr. by typed H. Qed.
Lemma typed_budgets s a c : typed s → typed (set_budgets s a c).
Proof. intros H. by typed H. Qed.
Lemma typed_bootstrap s a c d e : typed s → Forall addr_wf d → typed (set_bootstrap s a c d e).
Proof. intros H Hd. by typed H. Qed.
Lemma typed_note s a c : typed s → typed (note s a c).
Proof. intros H. by typed H. Qed.
Lemma typed_count s n : typed s → typed (set_node_count s n).
Proof. intros H. by typed H. Qed.
Lemma typed_forget s key : typed s → typed (forget s key).
Proof. intros H. typed H. by apply map_Forall_delete. Qed.
Lemma typed_release s p : typed s → typed (release_pending s p).
Proof. intros H. unfold release_pending. apply typed_note. by typed H. Qed.
Lemma typed_expiry s q c n : typed s → typed (set_flight s (pending s) q c n).
Proof. intros H. by typed H. Qed.

Create HintDb typed.
#[local] Hint Resolve typed_responsive typed_pool typed_budgets typed_bootstrap typed_note typed_count typed_forget
  typed_release typed_expiry ty_stored ty_queued ty_bootstrap : typed.
#[local] Hint Extern 2 (Forall addr_wf (bootstrap_queue _)) => apply ty_bootstrap : typed.
#[local] Hint Extern 2 (Forall addr_wf (drop _ _)) => apply Forall_drop : typed.

Lemma typed_take_destination s now : typed s → typed (take_destination s now).2.
Proof. intros H. unfold take_destination. destruct (RateBucket.try_take_one _ _). simpl. auto with typed. Qed.
Lemma typed_refund s : typed s → typed (refund_destination s).
Proof. unfold refund_destination. auto with typed. Qed.
Lemma typed_contains el s a now b s' : typed s → contains_recent el s a now = Some (b, s') → typed s'.
Proof.
  intros H E. unfold contains_recent in E. bind_inv E. simplify_eq. destruct p as [x p].
  eapply queued_contains in E0; [|by apply ty_queued]. auto with typed.
Qed.
Lemma typed_defer s a now s' : typed s → defer_revisit s a now = Some s' → typed s'.
Proof.
  intros H E. unfold defer_revisit in E. bind_inv E. simplify_eq.
  apply stored_defer in E0; [|by apply ty_stored]. auto with typed.
Qed.
Lemma typed_record_probe el s a now s' : typed s → record_probe el s a now = Some s' → typed s'.
Proof.
  intros H E. unfold record_probe in E. bind_inv E. simplify_eq.
  apply queued_probe in E0; [|by apply ty_queued]. auto with typed.
Qed.

Lemma target_ok s rnd target : typed s → NodeId.id20 (ident rnd) → choose_target s rnd = Some target → NodeId.id20 target.
Proof.
  intros H [Hl Hb] E. unfold choose_target in E. case_match; [|by simplify_eq]. bind_inv E. simplify_eq.
  unfold NodeId.target_for_prefix, NodeId.random_node_id. split; [by rewrite length_insert|].
  apply Forall_insert; [done|]. destruct (ty_stored _ H) as (_ & _ & Hp). rewrite Forall_lookup in Hp. by eapply Hp.
Qed.

Lemma neighbor_ok remote local tl :
  Forall is_byte remote → Forall is_byte local → (∀ i, is_byte (tl i)) →
  NodeId.id20 (NodeId.neighbor_node_id remote local tl).
Proof.
  intros Hr Hl Ht. split; [apply NodeId.neighbor_node_id_length|]. unfold NodeId.neighbor_node_id.
  apply Forall_take, Forall_app. split.
  - case_bool_decide; [apply Forall_app; split|]; auto using Forall_take, Forall_drop.
  - apply Forall_fmap, Forall_forall. intros i _. apply Ht.
Qed.

Section handlers.
Context (rnd : Z → Rand) (el : nat → Z).
Context (Hrnd : rand_ok rnd).

Lemma typed_dispatch s n why now b s' :
  typed s → node_wf n → try_dispatch rnd s n why now = Some (b, s') → typed s'.
Proof.
  intros H Hn E. unfold try_dispatch in E. case_match; [by simplify_eq|]. bind_inv E.
  destruct b0; [by simplify_eq|]. case_match; [by simplify_eq|].
  destruct (if is_ipv4 (addr n) then egress_v4 s else egress_v6 s) as [q|] eqn:Hq; [|done || by simplify_eq].
  case_match; [by simplify_eq|]. destruct (Hrnd (next_tid s)) as [Hid Htl].
  set (s1 := note _ _ _) in E.
  assert (typed s1) as Hs1.
  { unfold s1. apply typed_note. typed H. by apply map_Forall_insert_2. }
  destruct (if cf_neighbor_sender_id _ then _ else _) as [sender|] eqn:Hs in E; [|done].
  assert (NodeId.id20 sender) as Hsender.
  { destruct (cf_neighbor_sender_id _); [|simplify_eq; apply H]. case_bool_decide; [|done]. simplify_eq.
    apply neighbor_ok; [apply Hn|apply H|done]. }
  bind_inv E. pose proof (target_ok _ _ _ Hs1 Hid E1) as Htarget. injection E as <- <-.
  apply typed_responsive; [|eapply stored_record_probe; [|done]; by destruct (is_ipv4 _); apply Hs1].
  assert (Forall request_ok (q ++ [mkOutbound (mkKey (addr n) (be8 (next_tid s))) n l sender])) as Hf.
  { apply Forall_app. split; [|constructor; [|done]; split_and!; simpl; try done; apply be8_length].
    destruct (is_ipv4 _); [pose proof (ty_egress_v4 _ H) as Hx|pose proof (ty_egress_v6 _ H) as Hx];
      rewrite Hq in Hx; exact Hx. }
  destruct (is_ipv4 (addr n)); by typed Hs1.
Qed.

Lemma typed_revisit s now b s' : typed s → schedule_revisit rnd el s now = Some (b, s') → typed s'.
Proof.
  intros H E. unfold schedule_revisit in E. bind_inv E. destruct p as [o r].
  apply stored_next_revisit in E0 as [Hr Ho]; [|by apply ty_stored]. simpl in E.
  destruct o as [n|]; [|simplify_eq; auto with typed]. bind_inv E. destruct p as [was s1].
  apply typed_contains in E0; [|auto with typed].
  set (g := if was then _ else _) in E. assert (typed g.2) as Hg by (unfold g; destruct was; [done|by apply typed_take_destination]).
  clearbody g. destruct g as [ok s2]. simpl in Hg. case_match; bind_inv E.
  - apply typed_defer in E1; [by simplify_eq|done].
  - destruct p as [sent s3]. apply typed_dispatch in E1; [|done|auto]. destruct sent; bind_inv E; simplify_eq.
    + apply typed_record_probe in E2; auto with typed.
    + apply typed_defer in E2; [done|]. destruct was; [done|]. by apply typed_refund.
Qed.

Lemma typed_scan n s now b s' : typed s → scan_loop rnd el n s now = Some (b, s') → typed s'.
Proof.
  revert s; induction n as [|n IH]; intros s H E; cbn [scan_loop] in E; [by simplify_eq|].
  destruct (NodePool.front (pool s)) as [c|]; [|by simplify_eq].
  destruct (if cf_max_in_flight_per_subnet (config s) <=? _ then Some true else _) as [[]|]; [| |done].
  - eapply IH; [|done]. apply typed_pool; [done|]. apply queued_rotate, H.
  - pose proof (typed_take_destination s now H) as Ht. destruct (take_destination s now) as [ok s1]. simpl in Ht.
    case_match; [by simplify_eq|]. bind_inv E. destruct p as [o p]. simpl in *. subst o.
    apply queued_take in E0 as [Hp Ho]; [|by apply ty_queued]. specialize (Ho _ eq_refl). destruct p0 as [sent s2].
    apply typed_dispatch in E2; [|auto with typed|done]. destruct sent; [simplify_eq; auto with typed|].
    bind_inv E. simplify_eq. apply typed_refund, typed_pool; [done|]. eapply queued_restore; [|done..]. by apply ty_queued.
Qed.

Lemma typed_scan_pool s now b s' : typed s → scan_pool rnd el s now = Some (b, s') → typed s'.
Proof.
  intros H E. unfold scan_pool in E. bind_inv E. destruct p as [x s1]. apply typed_scan in E0; [|done].
  destruct x; [by simplify_eq/=|]. by apply typed_revisit in E.
Qed.

Lemma typed_schedule_one s now b s' : typed s → schedule_one rnd el s now = Some (b, s') → typed s'.
Proof.
  intros H E. unfold schedule_one in E. destruct (if _ <? cf_low_watermark (config s) then head (bootstrap_queue s) else None) as [a|] eqn:Ha;
    [|by eapply typed_scan_pool].
  assert (addr_wf a) as Hwf.
  { destruct (_ <? _); [|done]. pose proof (ty_bootstrap _ H) as Hb. destruct (bootstrap_queue s) as [|c q]; [done|].
    injection Ha as ->. by apply Forall_cons in Hb as [? _]. }
  bind_inv E. destruct p as [recent s1]. apply typed_contains in E0; [|done].
  set (g := if negb recent then _ else _) in E.
  assert (typed g.2) as Hg by (unfold g; destruct recent; [done|by apply typed_take_destination]).
  clearbody g. destruct g as [ok s2]. simpl in Hg. case_match; [by apply typed_revisit in E|]. bind_inv E.
  destruct p as [sent s3]. apply typed_dispatch in E1; [|done|split; [apply Hg|split; [apply Hg|done]]]. destruct sent.
  - bind_inv E. simplify_eq. apply typed_record_probe in E2; auto with typed.
  - apply typed_scan_pool in E; [done|]. destruct recent; [done|]. by apply typed_refund.
Qed.

Lemma typed_schedule n s now s' : typed s → schedule_loop rnd el n s now = Some s' → typed s'.
Proof.
  revert s; induction n as [|n IH]; intros s H E; cbn [schedule_loop] in E; [by simplify_eq|].
  case_match; [simplify_eq; auto with typed|]. bind_inv E. destruct p as [x s1].
  apply typed_schedule_one in E0; [|done]. destruct x; [by apply IH in E|]. simplify_eq/=. auto with typed.
Qed.

Lemma typed_failed s p m st now s' : typed s → probe_failed s p m st now = Some s' → typed s'.
Proof.
  intros H E. unfold probe_failed in E. bind_inv E. destruct p0 as [x r]. simplify_eq.
  apply stored_failure in E0; [|apply ty_stored; auto with typed].
  cbn [fst snd]. match goal with |- typed (if _ then set_bootstrap ?s1 _ _ _ _ else _) => assert (typed s1) as Hs1 end.
  { destruct x; auto 6 with typed. }
  case_bool_decide; [|done]. apply typed_bootstrap; [done|]. by apply ty_bootstrap.
Qed.

Lemma typed_expire q s now s' : typed s → expire_loop q s now = Some s' → typed s'.
Proof.
  revert s; induction q as [|[d key] q IH]; intros s H E; cbn [expire_loop] in E; [by simplify_eq|].
  case_match; [by simplify_eq|]. assert (typed (set_flight s (pending s) q (subnet_in_flight s) (next_tid s)))
    as Hs1 by auto with typed.
  destruct (pending _ !! key); [|by eapply IH]. case_bool_decide; [|by eapply IH]. bind_inv E.
  eapply IH; [|done]. eapply typed_failed; [|done]. auto with typed.
Qed.

Lemma typed_tick s q now s' : typed s → on_schedule_tick rnd el s q now = Some s' → typed s'.
Proof.
  intros H E. unfold on_schedule_tick in E. bind_inv E. apply typed_expire in E0; [|done].
  set (s1 := maybe_resolve_bootstrap c now) in E. assert (typed s1) as Hs1.
  { unfold s1, maybe_resolve_bootstrap. destruct (negb _); [done|]. destruct (BootstrapGate.should_bootstrap _ _ _ _).
    auto with typed. }
  clearbody s1. destruct (RateBucket.try_take _ _ _). bind_inv E. simplify_eq.
  apply typed_schedule in E1; [|auto with typed]. unfold sync_node_count. auto with typed.
Qed.

Lemma typed_admit s n now s' : typed s → node_wf n → admit_one el s n now = Some s' → typed s'.
Proof.
  intros H Hn E. unfold admit_one in E. bind_inv E. destruct p as [o p]. simplify_eq.
  apply queued_admit in E0; [|by apply ty_queued|done]. unfold count_admission. auto with typed.
Qed.

Lemma typed_accept s n now s' : typed s → node_wf n → accept_node el s n now = Some s' → typed s'.
Proof.
  intros H Hn E. unfold accept_node in E. bind_inv E. simplify_eq. apply typed_admit in E0; [|done..].
  unfold sync_node_count. auto with typed.
Qed.

Lemma typed_response s a tid r now s' :
  typed s → response_ok r → handle_response el s a tid r now = Some s' → typed s'.
Proof.
  intros H Hr E. unfold handle_response in E. destruct (pending s !! mkKey a tid) as [p|] eqn:Hp;
    [|simplify_eq; auto with typed].
  pose proof (ty_pending _ H _ _ Hp) as Hpn. simpl in Hpn.
  set (s1 := note (release_pending (forget s (mkKey a tid)) p) [MResponses] [("response", 1)]) in E.
  assert (typed s1) as Hs1 by (unfold s1; auto with typed). clearbody s1.
  set (s2 := if bool_decide (purpose p = BootstrapProbe) then _ else _) in E.
  assert (typed s2) as Hs2 by (unfold s2; case_bool_decide; auto with typed). clearbody s2.
  set (n := match r_id r with Some _ => _ | None => _ end) in E.
  assert (node_wf n) as Hn.
  { unfold n. destruct Hr as (Hid & _). destruct (r_id r); [|done]. case_bool_decide; [|done]. by split; [|split; [|apply Hpn]]. }
  clearbody n. destruct (ResponsiveReservoir.record _ _ _ _) as [r0|] eqn:E0; [|done].
  apply stored_record in E0; [|by apply ty_stored|done].
  set (o := (for_each_response_node _ _ _ _).2) in E.
  assert (∀ s3, o = Some s3 → typed s3) as Ho.
  { apply (response_nodes_inv _ (λ o, ∀ s3, o = Some s3 → typed s3)); [done| |].
    - intros [s3|] m Hi Hm s4; [|done]. intros E'. eapply typed_admit; [by apply Hi|done..].
    - intros s3 [= <-]. auto with typed. }
  clearbody o. destruct o; [|done]. simplify_eq. unfold sync_node_count. auto with typed.
Qed.

Lemma typed_priority s ev now s' :
  typed s → priority_ok ev → handle_priority el s ev now = Some s' → typed s'.
Proof.
  intros H Hev E. destruct ev as [a tid r|key|cands]; cbn [handle_priority] in E.
  - by apply typed_response in E.
  - destruct (pending s !! key); [|by simplify_eq]. apply typed_failed in E; auto with typed.
  - set (k := Z.to_nat _) in E. pose proof (select_forall addr_wf (bootstrap_pool s) cands k now Hev) as Hsel.
    destruct (BootstrapSourcePool.select _ _ _ _). simplify_eq. apply typed_bootstrap; [done|]. apply Forall_app.
    split; [by apply ty_bootstrap|done].
Qed.

Lemma typed_recv_priority s now o s' : typed s → recv_priority el s now = Some o → o = Some s' → typed s'.
Proof.
  intros H E ->. unfold recv_priority in E. destruct (priority_rx s) as [|ev q] eqn:Hq; [done|]. injection E as E.
  pose proof (ty_priority _ H) as Hf. rewrite Hq in Hf. inversion Hf; subst.
  eapply typed_priority in E; [done| |done]. apply typed_note. by typed H.
Qed.

Lemma typed_recv_discovery s now o s' : typed s → recv_discovery el s now = Some o → o = Some s' → typed s'.
Proof.
  intros H E ->. unfold recv_discovery in E. destruct (discovery_rx s) as [|ev q] eqn:Hq; [done|]. injection E as E.
  pose proof (ty_discovery _ H) as Hf. rewrite Hq in Hf. inversion Hf; subst.
  eapply typed_accept in E; [done| |done]. apply typed_note. by typed H.
Qed.

Lemma typed_drain fuel ev ns s clk s' : typed s → drain_loop el fuel ev ns s clk = Some s' → typed s'.
Proof.
  revert ev ns s; induction fuel as [|fuel IH]; intros ev ns s H E; [done|]. cbn [drain_loop] in E.
  case_match; [|by simplify_eq].
  destruct (if ev `mod` 8 =? 0 then _ else _) as [o|] eqn:Ho.
  - destruct o as [s1|]; [|done]. apply IH in E; [done|]. case_match; [|done]. by eapply typed_recv_discovery.
  - clear Ho. destruct (recv_priority el s _) as [o|] eqn:Ho.
    + destruct o as [s1|]; [|done]. apply IH in E; [done|]. by eapply typed_recv_priority.
    + clear Ho. destruct (recv_discovery el s _) as [o|] eqn:Ho; [|by simplify_eq].
      destruct o as [s1|]; [|done]. apply IH in E; [done|]. by eapply typed_recv_discovery.
Qed.
End handlers.

Lemma typed_send s ev : typed s → priority_ok ev → typed (send_priority s ev).2.
Proof.
  intros H Hev. unfold send_priority. simpl. apply typed_note. case_match; [|done]. typed H. apply Forall_app. split; [done|]. by apply Forall_singleton.
Qed.

Lemma typed_route_response s a tid r : typed s → response_ok r → typed (route_response s a tid r).
Proof.
  intros H Hr. unfold route_response. pose proof (typed_send s (Response a tid r) H Hr) as Hs.
  destruct (send_priority _ _) as [[] s1]; [done|]. by apply typed_note.
Qed.

Lemma typed_route_discovered s n : typed s → node_wf n → typed (route_discovered s n).
Proof.
  intros H Hn. unfold route_discovered. destruct (_ <? _); repeat apply typed_note; [|done]. typed H.
  apply Forall_app. split; [done|]. by apply Forall_singleton.
Qed.

Lemma typed_egress s ipv6 sent : typed s → typed (egress_turn s ipv6 sent).
Proof.
  intros H. unfold egress_turn. destruct (if ipv6 then _ else _) as [[|r q]|] eqn:Hq; [done| |done].
  set (s1 := if ipv6 then _ else _). assert (typed s1) as Hs1.
  { unfold s1. pose proof (ty_egress_v4 _ H) as H4. pose proof (ty_egress_v6 _ H) as H6.
    destruct ipv6; rewrite Hq in *; [inversion H6|inversion H4]; by typed H. }
  clearbody s1. destruct sent; [auto with typed|]. by apply typed_send.
Qed.

(** What is asked of the inputs of an event. *)
Definition event_typed (x : step) : Prop :=
  rand_ok (st_rnd x)
  ∧ match st_event x with
    | RouteDiscovered n => node_wf n
    | RouteResponse _ _ r => response_ok r
    | ResolverDone l => Forall addr_wf l
    | _ => True
    end.

Lemma typed_event s x s' :
  typed s → event_typed x → handle_event s (st_event x) (st_rnd x) (st_el x) (st_now x) (st_clk x) = Some s' → typed s'.
Proof.
  intros H [Hr Hx] E. destruct (st_event x) as [q| | | |n|a tid r|ipv6 sent|l]; cbn [handle_event] in E.
  - by eapply typed_tick.
  - injection E as <-. unfold flush_metrics. destruct (NodePool.recent_state _) as [[? ?] ?].
    destruct (NodePool.take_recent_expiry_stats _) as [[[? ?] ?] p] eqn:Hp.
    assert (queued_ok p) by (injection Hp as <- <- <- <-; by apply ty_queued).
    match goal with |- typed (clear_metrics ?s1) => assert (typed s1) as Hs1 by auto with typed end. by typed Hs1.
  - destruct (recv_priority _ _ _) as [o|] eqn:Ho; [|by simplify_eq]. destruct o as [s1|]; [|done].
    apply typed_drain in E; [done|]. by eapply typed_recv_priority.
  - destruct (recv_discovery _ _ _) as [o|] eqn:Ho; [|by simplify_eq]. destruct o as [s1|]; [|done].
    apply typed_drain in E; [done|]. by eapply typed_recv_discovery.
  - injection E as <-. by apply typed_route_discovered.
  - injection E as <-. by apply typed_route_response.
  - injection E as <-. by apply typed_egress.
  - injection E as <-. unfold resolver_done. destruct (resolving s); [done|]. apply typed_send; auto with typed.
Qed.

(** ** The snapshot arm *)

(** The snapshot is shared with the server, the discovery and the lookups; the
    actor is its only writer. *)
Record Engine := mkEngine { actor : CrawlActor; published : RoutingSnapshot }.

Definition engine_new (c : ResolvedCrawlConfig) (nm : NetMode) (lid : list Z) (v4 v6 : bool) (mq : Z) (t : Instant)
  : Engine := mkEngine (new c nm lid v4 v6 mq t) snapshot_default.

Definition publish_snapshot (e : Engine) (now : Instant) : option Engine :=
  let limit := Z.to_nat (cf_routing_snapshot_size (config (actor e))) in
  let! r := Snapshot.snapshot (responsive (actor e)) limit now in
  let! snap := from_nodes r.1 limit in
  Some (mkEngine (set_responsive (actor e) r.2) snap).

(** A turn of the loop, the snapshot arm included. *)
Inductive turn := ActorTurn (x : step) | SnapshotTick (now : Instant).

Definition take_turn (e : Engine) (x : turn) : option Engine :=
  match x with
  | ActorTurn x =>
      let! s := handle_event (actor e) (st_event x) (st_rnd x) (st_el x) (st_now x) (st_clk x) in
      Some (mkEngine s (published e))
  | SnapshotTick now => publish_snapshot e now
  end.

Fixpoint run_engine (e : Engine) (turns : list turn) : option Engine :=
  match turns with [] => Some e | x :: turns => let! e := take_turn e x in run_engine e turns end.

Definition turn_end (x : turn) : Instant := match x with ActorTurn x => st_fin x | SnapshotTick now => now end.
Definition turn_ok (t : Instant) (x : turn) : Prop :=
  match x with ActorTurn x => clocked t [x] ∧ event_typed x | SnapshotTick now => t ≤ now end.
Fixpoint turns_ok (t : Instant) (turns : list turn) : Prop :=
  match turns with [] => True | x :: turns => turn_ok t x ∧ turns_ok (turn_end x) turns end.
Definition turns_end (t : Instant) (turns : list turn) : Instant := default t (turn_end <$> last turns).

(** The nodes of a snapshot. *)
Definition snapshot_nodes (snap : RoutingSnapshot) : list NodeTuple :=
  PrefixIndex.nodes (v4 snap) ++ PrefixIndex.nodes (v6 snap).

Definition engine_ok (t : Instant) (e : Engine) : Prop :=
  actor_ok t (actor e) ∧ typed (actor e) ∧ snapshot_ok (published e) ∧ Forall node_wf (snapshot_nodes (published e)).

(** What a snapshot tick publishes. *)
Definition publishes (e : Engine) (now : Instant) (e' : Engine) : Prop :=
  let limit := Z.to_nat (cf_routing_snapshot_size (config (actor e))) in
  let r := responsive (actor e) in
  ∃ seeds fresh extra, Snapshot.sample_of r now limit seeds fresh extra
    ∧ from_nodes (seeds ++ fresh ++ extra) limit = Some (published e')
    ∧ snapshot_nodes (published e') ≡ₚ seeds ++ fresh ++ extra
    ∧ Snapshot.sparse_ok r now (ResponsiveReservoir.sparse_prefixes (responsive (actor e'))).

Lemma stored_ids r : stored r → Snapshot.ids_ok r.
Proof.
  intros (Hr & _) i e He. destruct (Hr i e He) as (Hl & Hb & _). unfold Snapshot.prefix_of.
  destruct (id (ResponsiveReservoir.node e)) as [|x l] eqn:Hid; [done|]. inversion Hb as [|? ? Hx]; subst. unfold is_byte in Hx.
  exists (Z.to_nat x). split; [done|]. lia.
Qed.

Lemma eligible_ids r now n : stored r → n ∈ Snapshot.eligible_nodes r now → node_wf n.
Proof.
  intros (Hr & _) (e & -> & [_ (o & [i Hi]%list_elem_of_lookup & Ho)%list_elem_of_omap]%list_elem_of_filter)%list_elem_of_fmap.
  apply (Hr i). unfold ResponsiveReservoir.slot_entry. by rewrite Hi.
Qed.

Lemma publish_ok t e now :
  engine_ok t e → t ≤ now →
  ∃ e', publish_snapshot e now = Some e' ∧ publishes e now e' ∧ engine_ok now e'
    ∧ config (actor e') = config (actor e) ∧ next_tid (actor e') = next_tid (actor e).
Proof.
  intros (Hok & Hty & _) Hle. apply (actor_ok_mono _ now) in Hok as (Hp & (Hwf & Htm & _) & Hrest); [|done].
  pose proof (ty_stored _ Hty) as Hst. set (limit := Z.to_nat (cf_routing_snapshot_size (config (actor e)))).
  destruct (Snapshot.snapshot_ok (responsive (actor e)) now limit Hwf (stored_ids _ Hst)) as
    (seeds & fresh & extra & c & cs & sparse & ln & Hs & Hsa & Hsp & [_ Hcs _] & _); [apply Hst|].
  set (r' := Snapshot.set_snapshot _ _ _ _ _) in Hs.
  assert (Forall node_wf (seeds ++ fresh ++ extra)) as Hids.
  { apply Forall_forall. intros n Hn. eapply eligible_ids; [done|]. by apply (Snapshot.sa_eligible _ _ _ _ _ _ Hsa). }
  assert (Forall id_ok (seeds ++ fresh ++ extra)) as Hid by (eapply Forall_impl; [exact Hids|]; by intros n (? & ? & _)).
  destruct (from_nodes_indexes _ limit Hid) as (snap & Hf & [H4 _] & [H6 _]).
  assert (snapshot_nodes snap ≡ₚ seeds ++ fresh ++ extra) as Hperm.
  { unfold snapshot_nodes. rewrite H4, H6, (take_ge (seeds ++ _)) by (rewrite (Snapshot.sa_length _ _ _ _ _ _ Hsa); lia).
    by rewrite split_families. }
  exists (mkEngine (set_responsive (actor e) r') snap).
  assert (stored r') as Hst'.
  { destruct Hst as (Hr & _). split; [exact Hr|]. split; [done|]. apply Forall_forall. intros b Hb.
    apply Hsp in Hb as (q & -> & Hq & _). unfold is_byte. lia. }
  split; [|split; [|split; [split_and!|done]]].
  - unfold publish_snapshot. fold limit. rewrite Hs. cbn [fst snd]. by rewrite Hf.
  - by exists seeds, fresh, extra.
  - split; [exact Hp|]. split; [|exact Hrest]. split; [exact Hwf|]. split; [exact Htm|apply Hsp].
  - by apply typed_responsive.
  - exists (seeds ++ fresh ++ extra), limit. split; [done|]. split; [done|]. apply Hsa.
  - by rewrite Hperm.
Qed.

Lemma turn_ok_le t x : turn_ok t x → t ≤ turn_end x.
Proof. destruct x as [x|now]; [|done]. intros [Hx _]. simpl in *. lia. Qed.

Lemma turn_step t e x :
  engine_ok t e → turn_ok t x → 0 ≤ cf_burst (config (actor e)) →
  next_tid (actor e) + cf_burst (config (actor e)) ≤ u64_max →
  ∃ e', take_turn e x = Some e' ∧ engine_ok (turn_end x) e' ∧ config (actor e') = config (actor e)
    ∧ next_tid (actor e') ≤ next_tid (actor e) + cf_burst (config (actor e)).
Proof.
  intros Hok Hx Hb Htid. destruct x as [x|now]; cbn [take_turn turn_end].
  - destruct Hok as (Hok & Hty & Hsn), Hx as [Hcl Hx].
    destruct (crawl_event_ok t (actor e) x [] Hok Hcl Hb Htid) as (s' & Hs' & Hok' & Hc & Ht). rewrite Hs'.
    eexists. split; [done|]. split; [|by cbn [actor]; split; [|lia]]. split; [done|]. split; [|done].
    by eapply typed_event.
  - destruct (publish_ok t e now Hok Hx) as (e' & -> & _ & Hok' & Hc & Ht). exists e'. rewrite Ht. split_and!; try done. lia.
Qed.

Lemma turns_end_cons t x turns : turns_end t (x :: turns) = turns_end (turn_end x) turns.
Proof. unfold turns_end. by destruct turns as [|y turns] using rev_ind; [|rewrite app_comm_cons, !last_snoc]. Qed.

Lemma engine_run_ok turns t e :
  engine_ok t e → turns_ok t turns → 0 ≤ cf_burst (config (actor e)) →
  next_tid (actor e) + Z.of_nat (length turns) * cf_burst (config (actor e)) ≤ u64_max →
  ∃ e', run_engine e turns = Some e' ∧ engine_ok (turns_end t turns) e' ∧ config (actor e') = config (actor e).
Proof.
  revert t e; induction turns as [|x turns IH]; intros t e Hok Hx Hb Htid; cbn [run_engine length] in *; [by exists e|].
  destruct Hx as [Hx Hxs]. destruct (turn_step t e x Hok Hx Hb) as (e1 & -> & Hok1 & Hc1 & Ht1); [nia|].
  destruct (IH (turn_end x) e1 Hok1 Hxs) as (e' & -> & Hok' & Hc'); [by rewrite Hc1|rewrite Hc1; nia|].
  exists e'. rewrite turns_end_cons. split_and!; try done. congruence.
Qed.

Lemma engine_new_ok c nm lid v4 v6 mq t : limits_ok c → NodeId.id20 lid → engine_ok t (engine_new c nm lid v4 v6 mq t).
Proof.
  intros Hc Hl. split; [by apply actor_new_ok|]. split.
  - constructor; try done; [apply stored_new|exact (List.Forall_nil _)|..]; simpl; repeat case_match; constructor.
  - split; [exists [], 0%nat; by repeat constructor|constructor].
Qed.

(** C17: the crawl stores and sends only well-formed identifiers, and what it
    publishes is always a well-formed sample.  Over every history of the
    actor's events and snapshot ticks, with a clock that never goes back and
    responses of any shape, nothing panics; every node in the candidate pool,
    the reservoir, the table of requests in flight and the channels has an
    identifier of twenty bytes and a proper address; every queued request has an eight-byte
    transaction identifier and a twenty-byte target and sender, as its
    encoder assumes; and the published snapshot indexes distinct, well-formed
    nodes.  A further snapshot tick publishes, up to order, exactly a sample
    of the reservoir (distinct live nodes, as many as fit, every prefix and
    every subnet represented as far as possible). *)
Theorem engine_history_typed (o : CrawlOptions) (nm : NetMode) (lid : list Z) (v4 v6 : bool) (mq : Z) (t : Instant)
    (turns : list turn) :
  let c := from_options o in
  crawl_options_ok o → NodeId.id20 lid → turns_ok t turns → Z.of_nat (length turns) * cf_burst c < u64_max →
  ∃ e, run_engine (engine_new c nm lid v4 v6 mq t) turns = Some e ∧ engine_ok (turns_end t turns) e
    ∧ ∀ now, turns_end t turns ≤ now → ∃ e', publish_snapshot e now = Some e' ∧ publishes e now e'.
Proof.
  intros c Hc%limits_of_options; fold c in Hc; clearbody c; intros Hl Hcl Hb.
  destruct (engine_run_ok turns t (engine_new c nm lid v4 v6 mq t)) as (e & Hr & Hok & _);
    [by apply engine_new_ok|done|apply Hc|cbn [engine_new actor new config next_tid]; lia|].
  exists e. split; [done|]. split; [done|]. intros now Hn.
  destruct (publish_ok _ e now Hok Hn) as (e' & ? & ? & _). by exists e'.
Qed.

Definition ex_turns : list turn := (ActorTurn <$> take 7 ex_steps) ++ SnapshotTick 1000000005 :: (ActorTurn <$> drop 7 ex_steps).

Lemma ex_turns_ok : turns_ok 0 ex_turns.
Proof.
  assert (rand_ok (λ _, ex_rand)) as Hr.
  { intros n. split; [split; [done|]|intros i; done]. simpl. repeat constructor; done. }
  simpl. split_and!; try done; try lia; try (intros; lia); repeat constructor; done.
Qed.

Lemma engine_history_typed_witness :
  ∃ e, run_engine (engine_new ex_config Ipv4Only (replicate 20 4) true false 100 0) ex_turns = Some e
    ∧ engine_ok (turns_end 0 ex_turns) e
    ∧ ∀ now, turns_end 0 ex_turns ≤ now → ∃ e', publish_snapshot e now = Some e' ∧ publishes e now e'.
Proof.
  apply (engine_history_typed ex_options Ipv4Only (replicate 20 4) true false 100 0 ex_turns).
  - apply ex_options_ok.
  - split; [reflexivity|]. repeat constructor; discriminate.
  - apply ex_turns_ok.
  - vm_compute. reflexivity.
Defined.

(** The node that answered is published. *)
Example ex_published :
  (let! e := run_engine (engine_new ex_config Ipv4Only (replicate 20 4) true false 100 0) ex_turns in
   Some (PrefixIndex.nodes (v4 (published e)))) = Some [mkNode (replicate 20 5) (addr ex_node)].
Proof. by vm_compute. Qed.

End Publish.
