(* ===== verification/Ingress.v ===== *)
(** * Receiving datagrams ([src/udp_buffer.rs], [src/udp_ingress.rs])

    The pool of receive buffers, the listener that hands each datagram to a
    worker, and the worker's end of its queue.  A handle of a worker is the
    number of its channel: every listener has its own list of handles and
    drops the ones whose worker is gone, while the channels are shared.  The
    hash of a source address is a parameter; indexing out of range is [None]. *)

From S2P Require Import Prelude Net.

Module Ingress.

(** ** [UdpBufferPool] *)

Definition MAX_DHT_UDP_PACKET : nat := 8192.
Definition INITIAL_POOL_SIZE : nat := 512.
Definition MAX_POOL_SIZE : nat := 4096.

Record UdpPacket := mkPacket { buf : list Z; len : nat }.

(** [&self.buf[..self.len]] *)
Definition payload (p : UdpPacket) : option (list Z) :=
  if bool_decide (len p ≤ length (buf p)) then Some (take (len p) (buf p)) else None.

Record UdpBufferPool := mkPool { free : list (list Z); buf_capacity : nat }.

Definition alloc_buffer (capacity : nat) : list Z := replicate capacity 0%Z.

(** [ArrayQueue::push] *)
Definition push_free (l : list (list Z)) (b : list Z) : list (list Z) :=
  if bool_decide (length l < MAX_POOL_SIZE) then l ++ [b] else l.

Definition pool_new : UdpBufferPool :=
  mkPool (fold_left (λ l _, push_free l (alloc_buffer MAX_DHT_UDP_PACKET)) (seq 0 INITIAL_POOL_SIZE) [])
    MAX_DHT_UDP_PACKET.

Definition acquire (p : UdpBufferPool) : list Z * UdpBufferPool :=
  match free p with
  | b :: l => (b, mkPool l (buf_capacity p))
  | [] => (alloc_buffer (buf_capacity p), p)
  end.

Definition release (p : UdpBufferPool) (b : list Z) : UdpBufferPool :=
  if negb (bool_decide (length b = buf_capacity p)) then p
  else mkPool (push_free (free p) b) (buf_capacity p).

(** ** Worker queues *)

Definition QUEUE_SIZE : nat := 5000.

(** The queue of a worker; [open] until its receiver is dropped. *)
Record Channel := mkChannel { queue : list (UdpPacket * SocketAddr * SocketAddr); open : bool }.

Inductive TrySend := Sent | Full | Closed.

Definition try_send (chans : list Channel) (w : nat) (m : UdpPacket * SocketAddr * SocketAddr)
  : option (TrySend * list Channel) :=
  let! c := chans !! w in
  Some (if negb (open c) then (Closed, chans)
        else if bool_decide (length (queue c) < QUEUE_SIZE)
             then (Sent, <[w := mkChannel (queue c ++ [m]) true]> chans)
             else (Full, chans)).

(** ** [process_udp_packet] *)

Inductive ProcessUdpPacketError := PacketTooLarge | InvalidPacket | ChokedWorkers | NoLiveWorkers.

Record Ingress := mk {
  pool : UdpBufferPool;
  channels : list Channel;
  runtime_stats : list (string * Z);
}.

Definition set_pool (s : Ingress) p : Ingress := mk p (channels s) (runtime_stats s).
Definition set_channels (s : Ingress) c : Ingress := mk (pool s) c (runtime_stats s).
Definition note (s : Ingress) l : Ingress := mk (pool s) (channels s) (runtime_stats s ++ l).

(** What one round over the workers found. *)
Inductive Offer := Taken | Dead (worker_index : nat) | Busy.

(** [for offset in 0..worker_count] *)
Fixpoint offer (offsets : list nat) (workers : list nat) (preferred : nat)
    (m : UdpPacket * SocketAddr * SocketAddr) (chans : list Channel) : option (Offer * list Channel) :=
  match offsets with
  | [] => Some (Busy, chans)
  | offset :: offsets =>
      let index := (preferred + offset) `mod` length workers in
      let! w := workers !! index in
      let! r := try_send chans w m in
      match r.1 with
      | Sent => Some (Taken, r.2)
      | Full => offer offsets workers preferred m r.2
      | Closed => Some (Dead index, r.2)
      end
  end.

Section process.
Context (origin_hash : SocketAddr → Z).

(** ['select_worker: loop]: a round that meets a dead worker starts over
    without it. *)
Fixpoint select_worker (fuel : nat) (packet : UdpPacket) (origin local : SocketAddr) (workers : list nat)
    (s : Ingress) : option (option ProcessUdpPacketError * list nat * Ingress) :=
  match fuel with
  | 0 => None
  | S fuel =>
      if bool_decide (workers = []) then Some (Some NoLiveWorkers, workers, set_pool s (release (pool s) (buf packet)))
      else
        let count := length workers in
        let preferred := Z.to_nat (origin_hash origin `mod` Z.of_nat count) in
        let! r := offer (seq 0 count) workers preferred (packet, origin, local) (channels s) in
        let s := set_channels s r.2 in
        match r.1 with
        | Taken => Some (None, workers, s)
        | Dead index =>
            let! r := swap_remove index workers in
            select_worker fuel packet origin local r.2 s
        | Busy =>
            let s := note s [("udp_queue_full"%string, 1%Z)] in
            Some (Some ChokedWorkers, workers, set_pool s (release (pool s) (buf packet)))
        end
  end.

Definition process_udp_packet (s : Ingress) (b : list Z) (size : nat) (origin local : SocketAddr)
    (workers : list nat) : option (option ProcessUdpPacketError * list nat * Ingress) :=
  let s := note s [("udp_received"%string, 1%Z); ("udp_received_bytes"%string, Z.of_nat size)] in
  if bool_decide (MAX_DHT_UDP_PACKET < size) then
    let s := note s [("udp_invalid"%string, 1%Z)] in
    Some (Some PacketTooLarge, workers, set_pool s (release (pool s) b))
  else
    let! invalid := (if bool_decide (size = 0) then Some true
                     else let! x := b !! 0 in Some (negb (x =? 100)%Z)) in
    if invalid : bool then
      let s := note s [("udp_invalid"%string, 1%Z)] in
      Some (Some InvalidPacket, workers, set_pool s (release (pool s) b))
    else select_worker (S (length workers)) (mkPacket b size) origin local workers s.
End process.

(** ** The tasks *)

(** A listener holds the buffer it receives into until it stops. *)
Record Listener := mkListener { local_addr : SocketAddr; workers : list nat; buffer : option (list Z) }.

(** [spawn_udp_listener]: an error without workers, otherwise the task starts
    with a fresh buffer. *)
Definition spawn_udp_listener (p : UdpBufferPool) (local : SocketAddr) (ws : list nat)
  : option (Listener * UdpBufferPool) :=
  if bool_decide (ws = []) then None
  else let '(b, p) := acquire p in Some (mkListener local ws (Some b), p).

Record System := mkSystem {
  ingress : Ingress;
  listeners : list Listener;
  handled : list (nat * (list Z * SocketAddr * SocketAddr));
}.

Inductive event :=
  (** [recv_from] of a listener returns a datagram, or fails *)
  | Datagram (l : nat) (data : list Z) (origin : SocketAddr)
  | RecvError (l : nat)
  (** a listener sees the shutdown *)
  | Shutdown (l : nat)
  (** a worker takes the next packet, handles it and returns the buffer *)
  | Work (w : nat)
  (** the receiver of a worker is dropped *)
  | WorkerExit (w : nat).

Section system.
Context (origin_hash : SocketAddr → Z).

(** The next turn of the listener's loop, or its end. *)
Definition next_turn (s : System) (i : Ingress) (l : nat) (x : Listener) (ws : list nat) (stop : bool) : System :=
  if stop then mkSystem i (<[l := mkListener (local_addr x) ws None]> (listeners s)) (handled s)
  else
    let '(b, p) := acquire (pool i) in
    mkSystem (set_pool i p) (<[l := mkListener (local_addr x) ws (Some b)]> (listeners s)) (handled s).

(** [Ok((size, origin_addr))]: the datagram is written into
    [&mut buf[..buf_capacity]], a longer one is cut off. *)
Definition receive (s : System) (l : nat) (x : Listener) (b data : list Z) (origin : SocketAddr) : option System :=
  let capacity := buf_capacity (pool (ingress s)) in
  if negb (bool_decide (capacity ≤ length b)) then None
  else
    let size := length data `min` capacity in
    let b := take size data ++ drop size b in
    let! r := process_udp_packet origin_hash (ingress s) b size origin (local_addr x) (workers x) in
    let '(result, ws, i) := r in
    Some (next_turn s i l x ws (match result with Some NoLiveWorkers => true | _ => false end)).

Definition handle_event (s : System) (ev : event) : option System :=
  match ev with
  | Datagram l data origin =>
      match listeners s !! l with
      | Some x => match buffer x with Some b => receive s l x b data origin | None => Some s end
      | None => Some s
      end
  | RecvError l =>
      match listeners s !! l with
      | Some x =>
          match buffer x with
          | Some b => Some (next_turn s (set_pool (ingress s) (release (pool (ingress s)) b)) l x (workers x) false)
          | None => Some s
          end
      | None => Some s
      end
  | Shutdown l =>
      match listeners s !! l with
      | Some x =>
          match buffer x with
          | Some b => Some (next_turn s (set_pool (ingress s) (release (pool (ingress s)) b)) l x (workers x) true)
          | None => Some s
          end
      | None => Some s
      end
  | Work w =>
      match channels (ingress s) !! w with
      | Some (mkChannel ((packet, origin, local) :: q) true) =>
          let! data := payload packet in
          let i := set_channels (ingress s) (<[w := mkChannel q true]> (channels (ingress s))) in
          Some (mkSystem (set_pool i (release (pool i) (buf packet))) (listeners s)
                  (handled s ++ [(w, (data, origin, local))]))
      | _ => Some s
      end
  | WorkerExit w =>
      match channels (ingress s) !! w with
      | Some c =>
          Some (mkSystem (set_channels (ingress s) (<[w := mkChannel [] false]> (channels (ingress s))))
                  (listeners s) (handled s))
      | None => Some s
      end
  end.

Fixpoint run (s : System) (evs : list event) : option System :=
  match evs with [] => Some s | ev :: evs => let! s := handle_event s ev in run s evs end.
End system.

(** ** Choosing a worker *)

(** The state of a handle's worker. *)
Definition alive (chans : list Channel) (w : nat) : Prop := ∃ c, chans !! w = Some c ∧ open c = true.
Definition full (chans : list Channel) (w : nat) : Prop :=
  ∃ c, chans !! w = Some c ∧ open c = true ∧ QUEUE_SIZE ≤ length (queue c).
Definition dead (chans : list Channel) (w : nat) : Prop := ∃ c, chans !! w = Some c ∧ open c = false.

(** [w] has room, and [chans'] is [chans] with [m] at the end of its queue. *)
Definition appended (chans chans' : list Channel) (w : nat) (m : UdpPacket * SocketAddr * SocketAddr) : Prop :=
  ∃ c, chans !! w = Some c ∧ open c = true ∧ length (queue c) < QUEUE_SIZE
    ∧ chans' = <[w := mkChannel (queue c ++ [m]) true]> chans.

Definition handles_ok (chans : list Channel) (ws : list nat) : Prop := Forall (λ w, w < length chans) ws.

Lemma try_send_spec chans w m :
  w < length chans →
  ∃ r, try_send chans w m = Some r ∧
    match r.1 with
    | Sent => appended chans r.2 w m
    | Full => full chans w ∧ r.2 = chans
    | Closed => dead chans w ∧ r.2 = chans
    end.
Proof.
  intros Hw. destruct (lookup_lt_is_Some_2 chans w Hw) as [c Hc]. unfold try_send. rewrite Hc.
  eexists. split; [done|]. destruct (open c) eqn:Ho; simpl; [|split; [by exists c|done]].
  case_bool_decide; simpl.
  - by exists c.
  - split; [|done]. exists c. split_and!; [done..|lia].
Qed.

Definition worker_at (ws : list nat) (preferred offset : nat) : option nat :=
  ws !! ((preferred + offset) `mod` length ws).

(** A round tries the workers in order from the preferred one. *)
Lemma offer_spec offsets ws preferred m chans :
  ws ≠ [] → handles_ok chans ws →
  ∃ r, offer offsets ws preferred m chans = Some r ∧
    ∃ tried rest, offsets = tried ++ rest
      ∧ (∀ o w, o ∈ tried → worker_at ws preferred o = Some w → full chans w)
      ∧ match r.1 with
        | Taken => ∃ o w, hd_error rest = Some o ∧ worker_at ws preferred o = Some w ∧ appended chans r.2 w m
        | Dead index => r.2 = chans ∧ ∃ w, ws !! index = Some w ∧ dead chans w
        | Busy => r.2 = chans ∧ rest = []
        end.
Proof.
  intros Hws Hh. assert (0 < length ws) as Hpos by (destruct ws; [done|simpl; lia]).
  induction offsets as [|o offsets IH]; cbn [offer].
  { eexists. split; [done|]. exists [], []. split_and!; try done. by intros o w ?%elem_of_nil. }
  destruct (lookup_lt_is_Some_2 ws ((preferred + o) `mod` length ws)) as [w Hw].
  { apply Nat.mod_upper_bound. lia. }
  rewrite Hw. pose proof Hh as Hall. unfold handles_ok in Hall. rewrite Forall_forall in Hall.
  destruct (try_send_spec chans w m) as (r & -> & Hr).
  { apply Hall. by eapply list_elem_of_lookup_2. }
  destruct r as [[] chans']; cbn [fst snd] in *.
  - eexists. split; [done|]. exists [], (o :: offsets). split; [done|]. split; [by intros ? ? ?%elem_of_nil|]. simpl. eauto.
  - destruct Hr as [Hfull ->]. destruct IH as (r & -> & tried & rest & -> & Htried & Hr).
    exists r. split; [done|]. exists (o :: tried), rest. split; [done|]. split; [|done].
    intros o' w' [->|Ho]%elem_of_cons Hw'; [unfold worker_at in Hw'; simplify_eq; done|by eapply Htried].
  - destruct Hr as [Hdead ->]. eexists. split; [done|]. exists [], (o :: offsets). split; [done|].
    split; [by intros ? ? ?%elem_of_nil|]. simpl. eauto.
Qed.

(** The offsets of a round reach every worker. *)
Lemma offsets_cover (ws : list nat) preferred w :
  preferred < length ws → w ∈ ws → ∃ o, o ∈ seq 0 (length ws) ∧ worker_at ws preferred o = Some w.
Proof.
  intros Hp [j Hj]%list_elem_of_lookup. pose proof (lookup_lt_Some _ _ _ Hj) as Hlt.
  exists ((j + length ws - preferred) `mod` length ws). split.
  - apply elem_of_seq. split; [lia|]. apply Nat.mod_upper_bound. lia.
  - unfold worker_at. rewrite Nat.Div0.add_mod_idemp_r.
    replace (preferred + (j + length ws - preferred)) with (j + 1 * length ws) by lia.
    rewrite Nat.Div0.mod_add, Nat.mod_small by done. done.
Qed.

Section correct.
Context (origin_hash : SocketAddr → Z).

(** What handing over a packet may do: the outcome, the handles that remain
    and the state. *)
Definition handed_over (packet : UdpPacket) (origin local : SocketAddr) (ws : list nat) (s : Ingress)
    (result : option ProcessUdpPacketError) (ws' : list nat) (s' : Ingress) : Prop :=
  ws' ⊆ ws ∧ (∀ w, w ∈ ws → w ∉ ws' → dead (channels s) w) ∧
  match result with
  | None => pool s' = pool s ∧ ∃ w, w ∈ ws' ∧ appended (channels s) (channels s') w (packet, origin, local)
  | Some ChokedWorkers =>
      pool s' = release (pool s) (buf packet) ∧ channels s' = channels s
      ∧ ws' ≠ [] ∧ ∀ w, w ∈ ws' → full (channels s) w
  | Some NoLiveWorkers => pool s' = release (pool s) (buf packet) ∧ channels s' = channels s ∧ ws' = []
  | _ => False
  end.

Lemma handles_sub chans ws ws' : ws' ⊆ ws → handles_ok chans ws → handles_ok chans ws'.
Proof. unfold handles_ok. rewrite !Forall_forall. auto. Qed.

Lemma preferred_lt origin (ws : list nat) :
  ws ≠ [] → Z.to_nat (origin_hash origin `mod` Z.of_nat (length ws)) < length ws.
Proof.
  intros Hws. assert (0 < length ws) by (destruct ws; [done|simpl; lia]).
  pose proof (Z.mod_pos_bound (origin_hash origin) (Z.of_nat (length ws)) ltac:(lia)).
  apply Nat2Z.inj_lt. rewrite Z2Nat.id; lia.
Qed.

Lemma select_worker_ok fuel packet origin local ws s :
  handles_ok (channels s) ws → length ws < fuel →
  ∃ result ws' s', select_worker origin_hash fuel packet origin local ws s = Some (result, ws', s')
    ∧ handed_over packet origin local ws s result ws' s'.
Proof.
  revert ws s; induction fuel as [|fuel IH]; intros ws s Hh Hf; [lia|]. cbn [select_worker].
  case_bool_decide as Hnil.
  { subst ws. eexists _, _, _. split; [done|]. split; [done|]. split; [by intros w ?%elem_of_nil|]. done. }
  set (p := Z.to_nat _). destruct (offer_spec (seq 0 (length ws)) ws p (packet, origin, local) (channels s) Hnil Hh)
    as (r & -> & tried & rest & Hseq & Htried & Hr).
  destruct r as [[| index |] chans']; cbn [fst snd] in *.
  - destruct Hr as (o & w & _ & Hw & Happ). eexists _, _, _. split; [done|]. split; [done|]. split; [done|].
    split; [done|]. exists w. split; [by eapply list_elem_of_lookup_2|done].
  - destruct Hr as [-> (w & Hw & Hdead)]. destruct (swap_remove_Some _ _ _ Hw) as (y & l & -> & _ & Hperm & Hlen & _).
    cbn [fst snd].
    assert (l ⊆ ws) as Hsub by (intros x Hx; rewrite <-Hperm; by right).
    destruct (IH l (set_channels s (channels s))) as (result & ws' & s' & -> & Hsub' & Hgone & Hres).
    { by eapply handles_sub. } { apply lookup_lt_Some in Hw. lia. }
    exists result, ws', s'. split; [done|]. split; [by etrans|]. split; [|done].
    intros x Hx Hnx. rewrite <-Hperm in Hx. apply elem_of_cons in Hx as [->|Hx]; [done|by apply Hgone].
  - destruct Hr as [-> ->]. rewrite app_nil_r in Hseq. eexists _, _, _. split; [done|]. split; [done|]. split; [done|].
    split; [done|]. split; [done|]. split; [done|]. intros w Hw.
    destruct (offsets_cover ws p w) as (o & Ho & Hwo); [by apply preferred_lt|done|]. rewrite Hseq in Ho. by eapply Htried.
Qed.

(** ** The pool and the queues *)

Definition pool_ok (p : UdpBufferPool) : Prop :=
  buf_capacity p = MAX_DHT_UDP_PACKET ∧ length (free p) ≤ MAX_POOL_SIZE
  ∧ Forall (λ b, length b = buf_capacity p) (free p).

(** A queued packet fits its buffer and starts like a bencoded dictionary. *)
Definition packet_ok (p : UdpPacket) : Prop :=
  length (buf p) = MAX_DHT_UDP_PACKET ∧ 0 < len p ≤ MAX_DHT_UDP_PACKET ∧ buf p !! 0 = Some 100%Z.

Definition channel_ok (c : Channel) : Prop :=
  length (queue c) ≤ QUEUE_SIZE ∧ Forall (λ m, packet_ok m.1.1) (queue c).

Definition system_ok (s : System) : Prop :=
  pool_ok (pool (ingress s)) ∧ Forall channel_ok (channels (ingress s))
  ∧ Forall (λ x, handles_ok (channels (ingress s)) (workers x)
                 ∧ ∀ b, buffer x = Some b → length b = MAX_DHT_UDP_PACKET) (listeners s)
  ∧ Forall (λ h, head h.2.1.1 = Some 100%Z ∧ length h.2.1.1 ≤ MAX_DHT_UDP_PACKET) (handled s).

Lemma packet_positive : 0 < MAX_DHT_UDP_PACKET.
Proof. by apply Nat.ltb_lt; vm_compute. Qed.

Lemma pool_acquire_ok p : pool_ok p → pool_ok (acquire p).2 ∧ length (acquire p).1 = MAX_DHT_UDP_PACKET.
Proof.
  intros (Hc & Hl & Hf). unfold acquire. destruct (free p) as [|b l] eqn:E; simpl.
  - split; [by split_and!; rewrite ?E|]. unfold alloc_buffer. by rewrite length_replicate.
  - apply Forall_cons in Hf as [Hb Hf]. simpl in Hl. split; [split_and!; simpl; [done|lia|done]|]. congruence.
Qed.

Lemma release_ok p b : pool_ok p → pool_ok (release p b).
Proof.
  intros (Hc & Hl & Hf). unfold release. case_bool_decide as Hb; simpl; [|done]. unfold push_free.
  case_bool_decide; [|done]. split_and!; simpl; [done|rewrite length_app; simpl; lia|].
  apply Forall_app. split; [done|]. by constructor.
Qed.

Lemma appended_ok chans chans' w m :
  Forall channel_ok chans → packet_ok m.1.1 → appended chans chans' w m →
  Forall channel_ok chans' ∧ length chans' = length chans.
Proof.
  intros Hall Hm (c & Hc & _ & Hlt & ->). split; [|by rewrite length_insert]. apply Forall_insert; [done|].
  destruct (Forall_lookup_1 _ _ _ _ Hall Hc) as [_ Hq]. split; simpl.
  - rewrite length_app. simpl. lia.
  - apply Forall_app. split; [done|]. by constructor.
Qed.

(** Where a datagram that was received ends up. *)
Lemma process_ok i b size origin local ws :
  pool_ok (pool i) → Forall channel_ok (channels i) → handles_ok (channels i) ws →
  length b = MAX_DHT_UDP_PACKET → size ≤ MAX_DHT_UDP_PACKET →
  ∃ result ws' i', process_udp_packet origin_hash i b size origin local ws = Some (result, ws', i')
    ∧ pool_ok (pool i') ∧ Forall channel_ok (channels i') ∧ length (channels i') = length (channels i) ∧ ws' ⊆ ws
    ∧ if decide (0 < size ∧ b !! 0 = Some 100%Z)
      then handed_over (mkPacket b size) origin local ws i result ws' i'
      else result = Some InvalidPacket ∧ ws' = ws ∧ channels i' = channels i ∧ pool i' = release (pool i) b.
Proof.
  intros Hp Hc Hh Hb Hs. unfold process_udp_packet. rewrite bool_decide_false by lia.
  destruct (lookup_lt_is_Some_2 b 0) as [x Hx]; [rewrite Hb; apply packet_positive|].
  assert (∃ inv, (if bool_decide (size = 0) then Some true else let! x := b !! 0 in Some (negb (x =? 100)%Z)) = Some inv
    ∧ (inv = false ↔ 0 < size ∧ b !! 0 = Some 100%Z)) as (inv & -> & Hinv).
  { case_bool_decide as Hz; [exists true; split; [done|]; split; [done|lia]|]. rewrite Hx. eexists. split; [done|].
    destruct (Z.eqb_spec x 100) as [->|Hne]; simpl; split; try done; [|naive_solver]. intros _. split; [lia|done]. }
  case_decide as Hd.
  - apply Hinv in Hd as Hi. rewrite Hi.
    destruct (select_worker_ok (S (length ws)) (mkPacket b size) origin local ws
      (note i [("udp_received"%string, 1%Z); ("udp_received_bytes"%string, Z.of_nat size)])) as (result & ws' & i' & -> & Hho); [done|lia|].
    exists result, ws', i'. split; [done|]. pose proof Hho as (Hsub & _ & Hres).
    assert (packet_ok (mkPacket b size)) as Hpk by (split_and!; simpl; [done|lia|done|apply Hd]).
    destruct result as [[]|]; try done.
    + destruct Hres as (Hpool & Hch & _). simpl in Hpool, Hch. rewrite Hpool, Hch. split_and!; try done. by apply release_ok.
    + destruct Hres as (Hpool & Hch & _). simpl in Hpool, Hch. rewrite Hpool, Hch. split_and!; try done. by apply release_ok.
    + destruct Hres as (Hpool & w & _ & Happ). simpl in Hpool, Happ. rewrite Hpool.
      destruct (appended_ok _ _ _ (mkPacket b size, origin, local) Hc Hpk Happ). split_and!; done.
  - destruct inv; [|destruct Hd; by apply Hinv]. eexists _, _, _. split; [done|]. split_and!; try done. by apply release_ok.
Qed.

Lemma listeners_update (chans chans' : list Channel) (ls : list Listener) l x :
  Forall (λ x, handles_ok chans (workers x) ∧ ∀ b, buffer x = Some b → length b = MAX_DHT_UDP_PACKET) ls →
  length chans' = length chans → handles_ok chans (workers x) →
  (∀ b, buffer x = Some b → length b = MAX_DHT_UDP_PACKET) →
  Forall (λ x, handles_ok chans' (workers x) ∧ ∀ b, buffer x = Some b → length b = MAX_DHT_UDP_PACKET) (<[l := x]> ls).
Proof.
  intros Hall Hlen Hx Hb. unfold handles_ok in *. rewrite Hlen. by apply Forall_insert.
Qed.

Lemma next_turn_ok s i l x ws stop :
  system_ok s → pool_ok (pool i) → Forall channel_ok (channels i) → length (channels i) = length (channels (ingress s)) →
  handles_ok (channels (ingress s)) ws → system_ok (next_turn s i l x ws stop).
Proof.
  intros (_ & _ & Hl & Hh) Hp Hc Hlen Hws. unfold next_turn. destruct stop.
  - split_and!; try done. simpl. by eapply listeners_update.
  - pose proof (pool_acquire_ok (pool i) Hp) as [Hp' Hb]. destruct (acquire (pool i)) as [b p]. simpl in *.
    split; [done|]. split; [done|]. split; [|done]. simpl. eapply listeners_update; try done. intros b' [= <-]. done.
Qed.

Lemma receive_ok s l x b data origin :
  system_ok s → listeners s !! l = Some x → buffer x = Some b →
  ∃ s', receive origin_hash s l x b data origin = Some s' ∧ system_ok s'.
Proof.
  intros Hok Hx Hb. pose proof Hok as (Hp & Hc & Hl & Hh).
  destruct (Forall_lookup_1 _ _ _ _ Hl Hx) as [Hws Hbl]. specialize (Hbl b Hb).
  unfold receive. destruct Hp as (Hcap & Hp). rewrite Hcap, bool_decide_true by lia. cbn [negb].
  set (size := length data `min` MAX_DHT_UDP_PACKET).
  destruct (process_ok (ingress s) (take size data ++ drop size b) size origin (local_addr x) (workers x))
    as (result & ws & i & -> & Hp' & Hc' & Hlen & Hsub & _); try done.
  - rewrite length_app, length_take, length_drop, Hbl. lia.
  - lia.
  - eexists. split; [done|]. apply next_turn_ok; try done. by eapply handles_sub.
Qed.

Lemma ingress_event_ok s ev : system_ok s → ∃ s', handle_event origin_hash s ev = Some s' ∧ system_ok s'.
Proof.
  intros Hok. pose proof Hok as (Hp & Hc & Hl & Hh).
  assert (∀ l x b stop, listeners s !! l = Some x → buffer x = Some b →
    system_ok (next_turn s (set_pool (ingress s) (release (pool (ingress s)) b)) l x (workers x) stop)) as Hturn.
  { intros l x b stop Hx Hb. destruct (Forall_lookup_1 _ _ _ _ Hl Hx) as [Hws _].
    apply next_turn_ok; try done. by apply release_ok. }
  destruct ev as [l data origin|l|l|w|w]; cbn [handle_event].
  - destruct (listeners s !! l) as [x|] eqn:Hx; [|eauto]. destruct (buffer x) as [b|] eqn:Hb; [|eauto].
    by apply receive_ok.
  - destruct (listeners s !! l) as [x|] eqn:Hx; [|eauto]. destruct (buffer x) as [b|] eqn:Hb; eauto.
  - destruct (listeners s !! l) as [x|] eqn:Hx; [|eauto]. destruct (buffer x) as [b|] eqn:Hb; eauto.
  - destruct (channels (ingress s) !! w) as [[q o]|] eqn:Hw; [|eauto].
    destruct q as [|[[packet origin] local] q]; [eauto|]. destruct o; [|eauto].
    destruct (Forall_lookup_1 _ _ _ _ Hc Hw) as [Hq Hpk]. simpl in Hq, Hpk. apply Forall_cons in Hpk as [Hpk Hpks].
    simpl in Hpk. destruct Hpk as (Hbl & Hsz & Hd). unfold payload. rewrite bool_decide_true by lia.
    eexists. split; [done|]. split; [by apply release_ok|]. split; [|split].
    + simpl. apply Forall_insert; [done|]. split; [simpl; lia|done].
    + simpl. unfold handles_ok. by rewrite length_insert.
    + simpl. apply Forall_app. split; [done|]. constructor; [|done]. simpl. split.
      * destruct (buf packet) as [|z l]; [done|]. destruct (len packet); [lia|]. simpl in *. done.
      * rewrite length_take. lia.
  - destruct (channels (ingress s) !! w) as [c|] eqn:Hw; [|eauto]. eexists. split; [done|]. split_and!; try done.
    + simpl. apply Forall_insert; [done|]. split; simpl; [apply Nat.le_0_l|constructor].
    + simpl. unfold handles_ok. by rewrite length_insert.
Qed.

Lemma ingress_run_ok s evs : system_ok s → ∃ s', run origin_hash s evs = Some s' ∧ system_ok s'.
Proof.
  revert s; induction evs as [|ev evs IH]; intros s Hok; cbn [run]; [eauto|].
  destruct (ingress_event_ok s ev Hok) as (s1 & -> & Hok1). by apply IH.
Qed.

End correct.

(** Starting the workers and the listeners. *)
Fixpoint spawn_listeners (p : UdpBufferPool) (locals : list SocketAddr) (ws : list nat)
  : option (list Listener * UdpBufferPool) :=
  match locals with
  | [] => Some ([], p)
  | local :: locals =>
      let! r := spawn_udp_listener p local ws in
      let! r' := spawn_listeners r.2 locals ws in
      Some (r.1 :: r'.1, r'.2)
  end.

Definition start (num_workers : nat) (locals : list SocketAddr) : option System :=
  let chans := replicate num_workers (mkChannel [] true) in
  let! r := spawn_listeners pool_new locals (seq 0 num_workers) in
  Some (mkSystem (mk r.2 chans []) r.1 []).

Lemma pool_new_ok : pool_ok pool_new.
Proof.
  unfold pool_new. assert (∀ ns l, length l ≤ MAX_POOL_SIZE → Forall (λ b, length b = MAX_DHT_UDP_PACKET) l →
    let l' := fold_left (λ l (_ : nat), push_free l (alloc_buffer MAX_DHT_UDP_PACKET)) ns l in
    length l' ≤ MAX_POOL_SIZE ∧ Forall (λ b, length b = MAX_DHT_UDP_PACKET) l') as Hgen.
  { induction ns as [|n ns IH]; intros l Hl Hf; [done|]. cbn [fold_left]. apply IH; unfold push_free; case_bool_decide; try done.
    - rewrite length_app. simpl. lia.
    - apply Forall_app. split; [done|]. constructor; [|done]. apply length_replicate. }
  destruct (Hgen (seq 0 INITIAL_POOL_SIZE) []) as [H1 H2]; [apply Nat.le_0_l|constructor|]. by split_and!.
Qed.

Lemma spawn_listeners_ok chans p locals ws :
  pool_ok p → ws ≠ [] → handles_ok chans ws →
  ∃ ls p', spawn_listeners p locals ws = Some (ls, p') ∧ pool_ok p'
    ∧ Forall (λ x, handles_ok chans (workers x) ∧ ∀ b, buffer x = Some b → length b = MAX_DHT_UDP_PACKET) ls.
Proof.
  intros Hp Hne Hws. revert p Hp; induction locals as [|a locals IH]; intros p Hp; cbn [spawn_listeners].
  { exists [], p. split_and!; try done. }
  unfold spawn_udp_listener. rewrite bool_decide_false by done. pose proof (pool_acquire_ok p Hp) as [Hp' Hb].
  destruct (acquire p) as [b p1]. cbn [fst snd] in *. destruct (IH p1 Hp') as (ls & p' & -> & ? & ?).
  eexists _, _. split; [done|]. split; [done|]. constructor; [|done]. split; [done|]. by intros b' [= <-].
Qed.

Lemma start_ok n locals : 0 < n → ∃ s, start n locals = Some s ∧ system_ok s.
Proof.
  intros Hn. unfold start. set (chans := replicate n (mkChannel [] true)).
  destruct (spawn_listeners_ok chans pool_new locals (seq 0 n)) as (ls & p & -> & Hp & Hls).
  - apply pool_new_ok.
  - intros E. apply (f_equal length) in E. rewrite length_seq in E. simpl in E. lia.
  - apply Forall_forall. intros w Hw%elem_of_seq. unfold chans. rewrite length_replicate. lia.
  - eexists. split; [done|]. split; [done|]. split; [|split; [done|constructor]]. apply Forall_replicate.
    split; simpl; [apply Nat.le_0_l|constructor].
Qed.

(** C27: datagrams are received safely whatever the network sends.  From a
    start with at least one worker, over every interleaving of datagrams of
    any length, receive errors, worker turns, worker exits and shutdowns on
    any number of sockets, no task panics and no round over the workers runs
    forever; the pool never holds more than its limit and only buffers of the
    packet size; queues stay within their capacity; and whatever a worker
    handles is at most a packet long and starts like a bencoded dictionary. *)
Theorem ingress_history_safe (origin_hash : SocketAddr → Z) (num_workers : nat) (locals : list SocketAddr)
    (evs : list event) :
  0 < num_workers →
  ∃ s0 s, start num_workers locals = Some s0 ∧ run origin_hash s0 evs = Some s ∧ system_ok s.
Proof.
  intros Hn. destruct (start_ok num_workers locals Hn) as (s0 & H0 & Hok0).
  destruct (ingress_run_ok origin_hash s0 evs Hok0) as (s & Hs & Hok). by exists s0, s.
Qed.

Lemma ingress_history_safe_witness :
  ∃ s0 s, start 2 [SocketAddrV4 0 0 0 0 6881] = Some s0
    ∧ run port s0 [Datagram 0 [100; 101]%Z (SocketAddrV4 8 8 8 8 1); Work 0; WorkerExit 1;
                   Datagram 0 [] (SocketAddrV4 8 8 8 8 2); RecvError 0; Shutdown 0] = Some s
    ∧ system_ok s.
Proof.
  apply (ingress_history_safe port 2 [SocketAddrV4 0 0 0 0 6881]). lia.
Defined.

(** C30: where a datagram goes.  An empty datagram or one that is no
    dictionary is dropped and its buffer returned.  Any other is appended to
    the queue of exactly one live worker with room, and its buffer goes with
    it; only when every remaining worker's queue is full, or no worker is
    left, is it dropped and its buffer returned.  Handles are given up only
    for workers that are gone, and as long as the preferred worker of a source
    is alive with room, it gets the source's packets, in the order they
    arrived. *)
Theorem process_packet_correct (origin_hash : SocketAddr → Z) (i : Ingress) (b : list Z) (size : nat)
    (origin local : SocketAddr) (ws : list nat) :
  pool_ok (pool i) → Forall channel_ok (channels i) → handles_ok (channels i) ws →
  length b = MAX_DHT_UDP_PACKET → size ≤ MAX_DHT_UDP_PACKET →
  ∃ result ws' i', process_udp_packet origin_hash i b size origin local ws = Some (result, ws', i')
    ∧ (if decide (0 < size ∧ b !! 0 = Some 100%Z)
       then handed_over (mkPacket b size) origin local ws i result ws' i'
       else result = Some InvalidPacket ∧ ws' = ws ∧ channels i' = channels i ∧ pool i' = release (pool i) b)
    ∧ ∀ w c, 0 < size → b !! 0 = Some 100%Z →
        ws !! Z.to_nat (origin_hash origin `mod` Z.of_nat (length ws)) = Some w →
        channels i !! w = Some c → open c = true → length (queue c) < QUEUE_SIZE →
        result = None ∧ ws' = ws
        ∧ channels i' = <[w := mkChannel (queue c ++ [(mkPacket b size, origin, local)]) true]> (channels i).
Proof.
  intros Hp Hc Hh Hb Hs.
  destruct (process_ok origin_hash i b size origin local ws Hp Hc Hh Hb Hs) as (result & ws' & i' & Heq & _ & _ & _ & _ & Hres).
  exists result, ws', i'. split; [done|]. split; [done|]. intros w c Hpos Hd Hw Hcw Ho Hq.
  assert (0 < length ws) as Hlen by (apply lookup_lt_Some in Hw; lia).
  unfold process_udp_packet in Heq. rewrite bool_decide_false, (bool_decide_false (size = 0)), Hd in Heq by lia.
  cbn [negb Z.eqb Pos.eqb] in Heq. cbn [select_worker] in Heq.
  rewrite (bool_decide_false (ws = [])) in Heq by (intros ->; simpl in Hlen; lia).
  destruct (length ws) as [|n] eqn:Hn; [lia|]. cbn [seq offer] in Heq. rewrite Hn in Heq.
  rewrite Nat.add_0_r, Nat.mod_small, Hw in Heq by (by apply lookup_lt_Some in Hw; rewrite Hn in Hw).
  unfold try_send in Heq. cbn [channels note] in Heq. rewrite Hcw, Ho in Heq. cbn [negb] in Heq.
  rewrite bool_decide_true in Heq by done. cbn [fst snd] in Heq. by simplify_eq.
Qed.

Definition ex_ingress : Ingress := mk (mkPool [] MAX_DHT_UDP_PACKET) (replicate 2 (mkChannel [] true)) [].
Definition ex_buffer : list Z := (100 :: replicate (Nat.pred MAX_DHT_UDP_PACKET) 0)%Z.
Definition ex_origin : SocketAddr := SocketAddrV4 8 8 8 8 3.
Definition ex_local : SocketAddr := SocketAddrV4 0 0 0 0 6881.

Lemma process_packet_correct_witness :
  ∃ i', process_udp_packet port ex_ingress ex_buffer 2 ex_origin ex_local [0; 1] = Some (None, [0; 1], i')
    ∧ channels i' = [mkChannel [] true; mkChannel [(mkPacket ex_buffer 2, ex_origin, ex_local)] true].
Proof.
  destruct (process_packet_correct port ex_ingress ex_buffer 2 ex_origin ex_local [0; 1])
    as (result & ws' & i' & Heq & _ & Haff).
  - split; [reflexivity|]. split; [apply Nat.le_0_l|constructor].
  - repeat constructor; apply Nat.le_0_l.
  - repeat constructor.
  - vm_compute. reflexivity.
  - apply Nat.leb_le. vm_compute. reflexivity.
  - destruct (Haff 1 (mkChannel [] true)) as (-> & -> & Hch).
    + lia.
    + reflexivity.
    + reflexivity.
    + reflexivity.
    + reflexivity.
    + apply Nat.ltb_lt. vm_compute. reflexivity.
    + exists i'. split; [exact Heq|]. rewrite Hch. reflexivity.
Defined.

End Ingress.
