(* ===== verification/Server.v ===== *)
(** * The DHT server ([src/server.rs])

    The message handlers of [DHTServer] over the actors they feed: a worker
    decodes a datagram, routes responses by the tag of their transaction
    identifier, answers queries through its response limiter and turns valid
    announcements into hash events.  The server owns the state its tasks
    share: the crawl engine with the published snapshot, the lookup and the
    discovery actor, whose [hash_rx] is the hash channel and whose
    [filter_cb] is the registered filter.  Decoding ([serde_bencode]), the
    token hash ([ahash]) and [hex::encode] are parameters; clock readings,
    random bytes and the result of a send are inputs of a message. *)

From S2P Require Import Prelude Net Float64 Budget Limiter Types Routing NodeId Krpc Crawl Discovery PeerLookup Publish.

Local Open Scope Z_scope.

(** ** Transaction tags of the discovery

    Every query the discovery waits for carries its tag. *)

Module Tags.
Import DiscoveryActor.

Definition tagged (s : DiscoveryActor) : Prop :=
  map_Forall (λ _ p, is_sample_tid (ps_tid p) = true ∧ length (ps_tid p) = 8%nat) (pending s).

Lemma pending_admit s n now : pending (admit_node s n now) = pending s.
Proof.
  assert (∀ s a t, pending (schedule s a t) = pending s) as Hs by (intros; unfold schedule; by case_match).
  unfold admit_node. repeat (case_match; try done); by rewrite Hs.
Qed.

Lemma pending_admits ns s now : pending (fold_left (λ s n, admit_node s n now) ns s) = pending s.
Proof. revert s; induction ns as [|n ns IH]; intros s; [done|]. simpl. by rewrite IH, pending_admit. Qed.

Lemma pending_rest s a u s' : enter_cooldown s a u = Some s' → pending s' = pending s.
Proof. unfold enter_cooldown. intros. repeat case_match; by simplify_eq/=. Qed.

Lemma pending_emit hex s h n src now : pending (emit_hash hex s h n src now).2 = pending s.
Proof. unfold emit_hash. by repeat case_match. Qed.

Lemma pending_samples hex l s n now k : pending (sample_loop hex l s n now k).2 = pending s.
Proof.
  revert s k; induction l as [|h l IH]; intros s k; [done|]. cbn [sample_loop].
  destruct (HashDedup.contains _ _ _ _ _) as [known d]. pose proof (pending_emit hex (set_dedup s d) h n Sample now) as He.
  destruct (emit_hash _ _ _ _ _ _) as [x s1]. simpl in He. by rewrite IH, He.
Qed.

Lemma pending_cooldowns n s now : pending (cooldown_loop n s now) = pending s.
Proof.
  revert s; induction n as [|n IH]; intros s; [done|]. cbn [cooldown_loop].
  repeat (case_match; try done); rewrite IH, ?pending_admit; done.
Qed.

Lemma tagged_same s s' : tagged s → pending s' = pending s → tagged s'.
Proof. unfold tagged. by intros H ->. Qed.

Lemma tagged_response hex s ev now s' : tagged s → handle_response hex s ev now = Some s' → tagged s'.
Proof.
  intros H E. unfold handle_response in E. destruct (negb _) in E; [by simplify_eq; eapply tagged_same|].
  set (s0 := set_pending s (delete (sr_addr ev) (pending s)) (next_tid s)) in E.
  assert (tagged s0) as H0 by by apply map_Forall_delete. clearbody s0.
  assert (∀ l u, enter_cooldown (note s0 l) (sr_addr ev) u = Some s' → tagged s') as Hrest.
  { intros l u Hu%pending_rest. by eapply tagged_same. }
  destruct (sr_response ev) as [r|]; [|by eapply Hrest].
  destruct (r_samples r) as [samples|]; [|by eapply Hrest].
  destruct (r_interval r) as [interval|]; [|by eapply Hrest]. destruct (r_num r); [|by eapply Hrest].
  destruct (match r_id r with Some i => if bool_decide (length i = 20%nat) then Some i else None | None => None end) as [i|];
    [|by eapply Hrest].
  case_match; [by eapply Hrest|]. destruct (nodes (note s0 _) !! _) as [entry|]; [|done].
  set (s1 := set_nodes _ _ _ _) in E. assert (tagged s1) as Ht1 by exact H0. clearbody s1.
  set (l := take _ _) in E.
  pose proof (pending_samples hex l s1 (mkNode i (sr_addr ev)) now 0) as Hp. destruct (sample_loop _ _ _ _ _ _) as [novel s2].
  cbn [snd] in Hp. set (g := if _ && _ then _ else _) in E. assert (pending g.2 = pending s2) as Hg by (unfold g; by destruct (_ && _)).
  clearbody g. destruct g as [wait s3]. cbn [snd] in Hg. bind_inv E. injection E as <-. apply pending_rest in E0.
  eapply tagged_same; [exact Ht1|]. by rewrite pending_admits, E0, Hg.
Qed.

Lemma tagged_timeouts l s now s' : tagged s → timeout_loop l s now = Some s' → tagged s'.
Proof.
  revert s; induction l as [|a l IH]; intros s H E; cbn [timeout_loop] in E; [by simplify_eq|]. bind_inv E.
  apply pending_rest in E0. eapply IH; [|done]. eapply tagged_same; [|exact E0]. by apply map_Forall_delete.
Qed.

Lemma tagged_dispatch n s net now s' : tagged s → dispatch_loop n s net now = Some s' → tagged s'.
Proof.
  revert s; induction n as [|n IH]; intros s H E; cbn [dispatch_loop] in E; [by simplify_eq|].
  case_match; [by simplify_eq|]. destruct (set_first (due s)) as [key|]; [|by simplify_eq].
  case_match; [by simplify_eq|]. case_match; [by simplify_eq|]. destruct (RateBucket.try_take_one _ _) as [granted b].
  case_match; [by simplify_eq|]. destruct (nodes (set_budgets s b _ _) !! key.2) as [entry|]; [|done].
  destruct (_ && nt_sent net _).
  - eapply IH; [|done]. apply (map_Forall_insert_2 (λ _ p, is_sample_tid (ps_tid p) = true ∧ length (ps_tid p) = 8%nat)); [|exact H].
    split; [by apply bool_decide_eq_true_2|]. cbn [ps_tid]. etrans; [apply length_insert|apply be8_length].
  - bind_inv E. apply pending_rest in E0. eapply IH; [|done]. by eapply tagged_same.
Qed.

Lemma tagged_event `{Sampler} hex s ev now s' : tagged s → handle_event hex s ev now = Some s' → tagged s'.
Proof.
  intros H0 E. unfold handle_event in E. destruct (spawned s ev); cbn [negb] in E; [|by simplify_eq].
  destruct ev as [snap net| | |hash n|a tid r| |f].
  - unfold on_tick in E. bind_inv E. injection E as <-. apply tagged_timeouts in E0;
      [|eapply tagged_same; [done|apply pending_cooldowns]].
    assert (tagged d0) as Ht1.
    { unfold refresh_seeds in E1. case_match; [|by simplify_eq]. bind_inv E1. injection E1 as <-.
      eapply tagged_same; [exact E0|]. by rewrite pending_admits. }
    apply tagged_dispatch in E2; [|done]. by eapply tagged_same; [exact E2|].
  - destruct (response_rx s); [by simplify_eq|]. apply tagged_response in E; [done|]. by eapply tagged_same.
  - destruct (input_rx s); injection E as <-; [done|]. eapply tagged_same; [done|]. by rewrite pending_emit.
  - injection E as <-. unfold observe_get_peers. repeat case_match; by eapply tagged_same.
  - injection E as <-. unfold route_response. repeat case_match; by eapply tagged_same.
  - injection E as <-. by eapply tagged_same.
  - injection E as <-. by eapply tagged_same.
Qed.
End Tags.

Module Server.

(** The decoder and the fields it guarantees by their types. *)
Definition args_ok (a : DhtArgs) : Prop :=
  bytes_opt (a_id a) ∧ bytes_opt (a_target a) ∧ bytes_opt (a_info_hash a) ∧ bytes_opt (a_token a)
  ∧ (∀ p, a_port a = Some p → 0 ≤ p < 65536).
Definition message_ok (data : list Z) (m : DhtMessage) : Prop :=
  (length (m_t m) ≤ length data)%nat ∧ Forall is_byte (m_t m)
  ∧ (∀ a, m_a m = Some a → args_ok a) ∧ (∀ r, m_r m = Some r → response_ok r).

(** [serde_bencode::from_bytes::<DhtMessage>]: fields have the widths of
    their types, and a byte string is no longer than its message. *)
Class Decoder := {
  from_bytes : list Z → option DhtMessage;
  from_bytes_ok data m : Forall is_byte data → from_bytes data = Some m → message_ok data m;
}.

(** [AHasher] over the octets of an address and the secret, and [hex::encode]. *)
Class Hashing := {
  token_hash : list Z → list Z → Z;
  hex_encode : list Z → string;
}.

Record DHTServer := mk {
  netmode : NetMode;
  node_id : list Z;
  sockets : list SocketAddr;
  token_secret : list Z;
  crawl_engine : Publish.Engine;
  peer_lookup : PeerLookup.PeerLookupActor;
  discovery : DiscoveryActor.DiscoveryActor;
  sent : list (SocketAddr * SocketAddr * list Z);
  runtime_stats : list (string * Z);
}.

Definition set_crawl (s : DHTServer) a : DHTServer :=
  mk (netmode s) (node_id s) (sockets s) (token_secret s)
     (Publish.mkEngine a (Publish.published (crawl_engine s))) (peer_lookup s) (discovery s) (sent s) (runtime_stats s).
Definition set_lookup (s : DHTServer) a : DHTServer :=
  mk (netmode s) (node_id s) (sockets s) (token_secret s) (crawl_engine s) a (discovery s) (sent s) (runtime_stats s).
Definition set_discovery (s : DHTServer) a : DHTServer :=
  mk (netmode s) (node_id s) (sockets s) (token_secret s) (crawl_engine s) (peer_lookup s) a (sent s) (runtime_stats s).
Definition note (s : DHTServer) l : DHTServer :=
  mk (netmode s) (node_id s) (sockets s) (token_secret s) (crawl_engine s) (peer_lookup s) (discovery s) (sent s)
     (runtime_stats s ++ l).
Definition push_sent (s : DHTServer) d : DHTServer :=
  mk (netmode s) (node_id s) (sockets s) (token_secret s) (crawl_engine s) (peer_lookup s) (discovery s)
     (sent s ++ [d]) (runtime_stats s).

(** What a worker keeps between messages. *)
Record Worker := mkWorker { response_limiter : Limiter.WorkerResponseLimiter f64; response_buffer : list Z }.

(** The clock readings, random bytes and send result one message meets. *)
Record Input := mkInput { discovered_at : Instant; response_at : Instant; tail : nat → Z; send_ok : bool }.

Record QueryResponse := mkQuery {
  transaction_id : list Z;
  remote_addr : SocketAddr;
  local_addr : SocketAddr;
  query_type : string;
  sender_id : option (list Z);
  target_id : option (list Z);
}.

Section server.
Context {DEC : Decoder} {HSH : Hashing} {SMP : Sampler}.

(** ** Announce tokens *)

Definition octets (a : SocketAddr) : list Z :=
  match a with SocketAddrV4 x y z w _ => [x; y; z; w] | SocketAddrV6 o _ _ _ => o end.

(** [u64::to_le_bytes] *)
Definition le8 (n : Z) : list Z := rev (be8 n).

Definition generate_token (s : DHTServer) (a : SocketAddr) : list Z := le8 (token_hash (octets a) (token_secret s)).

Definition validate_token (s : DHTServer) (token : list Z) (a : SocketAddr) : bool :=
  if negb (bool_decide (length token = 8%nat)) then false else bool_decide (token = generate_token s a).

(** [<[u8; 20]>::try_from(..).ok()] *)
Definition array20 (l : list Z) : option (list Z) := if bool_decide (length l = 20%nat) then Some l else None.

(** [DhtRuntimeStats::inbound_query] *)
Definition inbound_query (q : string) : string * Z :=
  (if bool_decide (q = "ping") then "inbound_ping"
   else if bool_decide (q = "find_node") then "inbound_find_node"
   else if bool_decide (q = "get_peers") then "inbound_get_peers"
   else if bool_decide (q = "announce_peer") then "inbound_announce_peer"
   else "inbound_other", 1).

(** The port an announcement stands for. *)
Definition announced_port (args : DhtArgs) (a : SocketAddr) : Z :=
  match a_implied_port args with
  | Some implied => if negb (implied =? 0) then port a else default 0 (a_port args)
  | None => default (port a) (a_port args)
  end.

Definition handle_announce_peer (s : DHTServer) (args : DhtArgs) (a : SocketAddr) (now : Instant) : DHTServer :=
  match a_token args with
  | None => note s [("announce_invalid_token", 1)]
  | Some token =>
      if negb (validate_token s token a) then note s [("announce_invalid_token", 1)]
      else
        match a_info_hash args with
        | None => s
        | Some info_hash =>
            match array20 info_hash with
            | None => note s [("announce_invalid_token", 1)]
            | Some info_hash =>
                let hash_hex := hex_encode info_hash in
                if match DiscoveryActor.filter_cb (discovery s) with Some f => negb (f hash_hex) | None => false end
                then note s [("announce_filtered", 1)]
                else
                  let p := announced_port args a in
                  if 0 <? p then
                    let s := note s [("announce_accepted", 1); ("hash_received", 1)] in
                    let node := let! i := a_id args in let! i := array20 i in Some (mkNode i a) in
                    let ev := mkDiscovered hash_hex (Some (with_ip_port a p)) node Announce now in
                    let d := discovery s in
                    let room := Z.of_nat (length (DiscoveryActor.hash_rx d)) <? DiscoveryActor.hash_capacity d in
                    let s := if room
                             then set_discovery s (DiscoveryActor.set_channels d (DiscoveryActor.input_rx d)
                                    (DiscoveryActor.response_rx d) (DiscoveryActor.hash_rx d ++ [ev]))
                             else s in
                    let s := note s [("set_hash_ingress_queue_depth",
                                      Z.of_nat (length (DiscoveryActor.hash_rx (discovery s))))] in
                    if room then s else note s [("hash_ingress_dropped", 1)]
                  else s
            end
        end
  end.

(** ** Responses *)

Definition include_nodes (q : string) : bool := bool_decide (q = "get_peers") || bool_decide (q = "find_node").

Definition filter_ipv6 (s : DHTServer) (a : SocketAddr) : bool :=
  match netmode s with Ipv4Only => false | Ipv6Only => true | DualStack => is_ipv6 a end.

Definition send_response (s : DHTServer) (w : Worker) (r : QueryResponse) (i : Input) : option (DHTServer * Worker) :=
  if negb (bool_decide (local_addr r ∈ sockets s)) then Some (s, w)
  else
    let reference_id := match sender_id r with Some x => Some x | None => target_id r end in
    let! my_id :=
      match reference_id with
      | Some target => array20 (NodeId.neighbor_node_id target (node_id s) (tail i))
      | None => Some (node_id s)
      end in
    let token := generate_token s (remote_addr r) in
    let requestor_is_ipv6 := is_ipv6 (remote_addr r) in
    let! nodes :=
      (if include_nodes (query_type r)
       then random_nodes (Publish.published (crawl_engine s)) 8 (Some (filter_ipv6 s (remote_addr r)))
       else Some []) in
    let! buffer := encode_response (response_buffer w) (transaction_id r) my_id token nodes requestor_is_ipv6 in
    let is_priority := bool_decide (query_type r = "ping") || bool_decide (query_type r = "get_peers") in
    let '(permit, limiter) :=
      Limiter.acquire (response_limiter w) (remote_addr r) (Z.of_nat (length buffer)) is_priority (response_at i) in
    let w := mkWorker limiter buffer in
    let respond s :=
      if send_ok i
      then note (push_sent s (local_addr r, remote_addr r, buffer)) [("udp_sent", Z.of_nat (length buffer))]
      else note s [("response_send_failed", 1)] in
    Some (match permit with
          | Limiter.Regular => respond (note s [("response_normal", 1)])
          | Limiter.PriorityReserve => respond (note s [("udp_response_priority_reserved", 1)])
          | Limiter.Rejected => note s [("udp_response_rate_limited", 1)]
          end, w).

(** ** Messages *)

(** The sender of a query becomes a crawl candidate. *)
Definition discover_sender (s : DHTServer) (args : DhtArgs) (a : SocketAddr) : DHTServer :=
  match a_id args with
  | Some i =>
      if bool_decide (length i = 20%nat) && is_valid_node_addr a
      then set_crawl s (CrawlActor.route_discovered (Publish.actor (crawl_engine s)) (mkNode i a)) else s
  | None => s
  end.

Definition observe_query (s : DHTServer) (q : string) (args : DhtArgs) (a : SocketAddr) (now : Instant) : DHTServer :=
  if bool_decide (q = "announce_peer") then handle_announce_peer s args a now
  else if bool_decide (q = "get_peers") && is_valid_node_addr a then
    match (let! h := a_info_hash args in array20 h), (let! i := a_id args in array20 i) with
    | Some hash, Some i => set_discovery s (DiscoveryActor.observe_get_peers (discovery s) hash (mkNode i a))
    | _, _ => s
    end
  else s.

Definition handle_query (s : DHTServer) (w : Worker) (msg : DhtMessage) (q : string) (remote local : SocketAddr)
    (i : Input) : option (DHTServer * Worker) :=
  match m_a msg with
  | None => Some (s, w)
  | Some args =>
      let s := note s [inbound_query q] in
      let s := discover_sender s args remote in
      let s := observe_query s q args remote (discovered_at i) in
      send_response s w
        (mkQuery (m_t msg) remote local q (a_id args)
           (match a_target args with Some x => Some x | None => a_info_hash args end)) i
  end.

Definition route_reply (s : DHTServer) (remote : SocketAddr) (tid : list Z) (r : DhtResponse) : DHTServer :=
  if is_sample_tid tid then set_discovery s (DiscoveryActor.route_response (discovery s) remote tid (Some r))
  else if PeerLookup.is_peer_lookup_tid tid then set_lookup s (PeerLookup.route_response (peer_lookup s) remote tid r)
  else set_crawl s (CrawlActor.route_response (Publish.actor (crawl_engine s)) remote tid r).

Definition handle_message (s : DHTServer) (w : Worker) (data : list Z) (remote local : SocketAddr) (i : Input)
  : option (DHTServer * Worker) :=
  if negb (bool_decide (local ∈ sockets s)) then Some (s, w)
  else
    match from_bytes data with
    | None => Some (s, w)
    | Some msg =>
        if bool_decide (m_y msg = "q") then
          match m_q msg with
          | Some q => handle_query s w msg q remote local i
          | None => Some (s, w)
          end
        else if bool_decide (m_y msg = "r") then
          match m_r msg, NodeId.transaction_id_from_bytes (m_t msg) with
          | Some r, Some tid => Some (route_reply s remote tid r, w)
          | _, _ => Some (s, w)
          end
        else if bool_decide (m_y msg = "e") then
          match NodeId.transaction_id_from_bytes (m_t msg) with
          | Some tid =>
              Some (if is_sample_tid tid
                    then set_discovery s (DiscoveryActor.route_response (discovery s) remote tid None) else s, w)
          | None => Some (s, w)
          end
        else Some (s, w)
    end.

(** ** The running system *)

Record System := mkSystem { server : DHTServer; workers : list Worker }.

Definition bind_addrs (nm : NetMode) (p : Z) : list SocketAddr :=
  let addr_v4 := SocketAddrV4 0 0 0 0 p in
  let addr_v6 := SocketAddrV6 (replicate 16 0) p 0 0 in
  match nm with Ipv4Only => [addr_v4] | Ipv6Only => [addr_v6] | DualStack => [addr_v4; addr_v6] end.

(** [DHTServer::new]; [mpsc::channel] panics on capacity zero. *)
Definition new (o : DHTOptions) (nid secret : list Z) (now : Instant) : option DHTServer :=
  let nm := dh_netmode o in
  let socks := bind_addrs nm (dh_port o) in
  let v4 := existsb is_ipv4 socks in
  let v6 := existsb is_ipv6 socks in
  if dh_hash_queue_capacity o <=? 0 then None
  else Some (mk nm nid socks secret
    (Publish.engine_new (from_options (dh_crawl o)) nm nid v4 v6 (mo_max_queue_size (dh_metadata o)) now)
    (PeerLookup.new nm nid v4 v6 (dh_peer_lookup o) now)
    (DiscoveryActor.new nm nid v4 v6 (dh_discovery o) (dh_hash_queue_capacity o) now) [] []).

Definition spawn_workers (c : ResolvedCrawlConfig) (num_workers : nat) (now : Instant) : list Worker :=
  (λ worker_id : nat, mkWorker (Limiter.new (F:=f64)
     (Limiter.split_u32_quota (cf_max_response_rate_per_sec c) (Z.of_nat num_workers) (Z.of_nat worker_id))
     (Limiter.split_u64_quota (cf_max_response_bytes_per_sec c) (Z.of_nat num_workers) (Z.of_nat worker_id))
     (cf_max_response_rate_per_source c) now) []) <$> seq 0 num_workers.

Definition start (o : DHTOptions) (nid secret : list Z) (num_workers : nat) (now : Instant) : option System :=
  let! s := new o nid secret now in Some (mkSystem s (spawn_workers (from_options (dh_crawl o)) num_workers now)).

(** What the tasks of the server do, in any order. *)
Inductive event :=
  | Message (w : nat) (data : list Z) (remote local : SocketAddr) (i : Input)
  | CrawlTurn (x : Publish.turn)
  | DiscoveryTurn (ev : DiscoveryActor.event) (now : Instant)
  | LookupTurn (x : PeerLookup.step).

Definition set_engine (s : DHTServer) e : DHTServer :=
  mk (netmode s) (node_id s) (sockets s) (token_secret s) e (peer_lookup s) (discovery s) (sent s) (runtime_stats s).

(** The actors read the snapshot the crawl published last. *)
Definition discovery_event (s : DHTServer) (ev : DiscoveryActor.event) : DiscoveryActor.event :=
  match ev with
  | DiscoveryActor.Tick _ net => DiscoveryActor.Tick (Publish.published (crawl_engine s)) net
  | ev => ev
  end.
Definition lookup_event (s : DHTServer) (ev : PeerLookup.event) : PeerLookup.event :=
  match ev with
  | PeerLookup.RecvRequest closed _ => PeerLookup.RecvRequest closed (Publish.published (crawl_engine s))
  | ev => ev
  end.

Definition handle_event (x : System) (ev : event) : option System :=
  let s := server x in
  match ev with
  | Message w data remote local i =>
      match workers x !! w with
      | Some worker =>
          let! r := handle_message s worker data remote local i in Some (mkSystem r.1 (<[w := r.2]> (workers x)))
      | None => Some x
      end
  | CrawlTurn t => let! e := Publish.take_turn (crawl_engine s) t in Some (mkSystem (set_engine s e) (workers x))
  | DiscoveryTurn ev now =>
      let! d := DiscoveryActor.handle_event hex_encode (discovery s) (discovery_event s ev) now in
      Some (mkSystem (set_discovery s d) (workers x))
  | LookupTurn t =>
      let! l := PeerLookup.handle_event (peer_lookup s) (lookup_event s (PeerLookup.sp_event t)) (PeerLookup.sp_env t)
                  (PeerLookup.sp_now t) in
      Some (mkSystem (set_lookup s l) (workers x))
  end.

Fixpoint run (x : System) (evs : list event) : option System :=
  match evs with [] => Some x | ev :: evs => let! x := handle_event x ev in run x evs end.

(** ** Invariant *)

(** A datagram sent: a bencoded response with the receiver's token, through a
    bound socket, with at most eight nodes. *)
Definition reply_ok (s : DHTServer) (x : SocketAddr * SocketAddr * list Z) : Prop :=
  x.1.1 ∈ sockets s
  ∧ ∃ tid my_id nodes, x.2 = benc (response_value tid my_id (generate_token s x.1.2) nodes (is_ipv6 x.1.2))
      ∧ NodeId.id20 my_id ∧ (length nodes ≤ 8)%nat ∧ Forall node_wf nodes ∧ len_ok tid.

Record server_ok (t : Instant) (s : DHTServer) : Prop := {
  so_id : NodeId.id20 (node_id s);
  so_engine : Publish.engine_ok t (crawl_engine s);
  so_discovery : DiscoveryActor.actor_ok t (discovery s);
  so_tagged : Tags.tagged (discovery s);
  so_lookup : PeerLookup.actor_ok t (peer_lookup s);
  so_live : PeerLookup.live (peer_lookup s);
  so_sent : Forall (reply_ok s) (sent s);
}.

(** What no message changes: the identity of the server and the counters of
    the actors. *)
Definition fixed (s : DHTServer) := (netmode s, node_id s, sockets s, token_secret s).
Definition counters (s : DHTServer) :=
  (CrawlActor.config (Publish.actor (crawl_engine s)), CrawlActor.next_tid (Publish.actor (crawl_engine s)),
   PeerLookup.core (peer_lookup s)).

Definition message_step (t : Instant) (s s' : DHTServer) : Prop :=
  server_ok t s' ∧ fixed s' = fixed s ∧ counters s' = counters s
  ∧ Publish.published (crawl_engine s') = Publish.published (crawl_engine s).

Lemma message_step_trans t s1 s2 s3 : message_step t s1 s2 → message_step t s2 s3 → message_step t s1 s3.
Proof. intros (_ & ? & ? & ?) (? & ? & ? & ?). split_and!; [done|congruence..]. Qed.

Lemma message_step_refl t s : server_ok t s → message_step t s s.
Proof. done. Qed.

Lemma server_ok_mono t t' s : server_ok t s → t ≤ t' → server_ok t' s.
Proof.
  intros [? (? & ? & ?) ? ? ? ? ?] Hle. constructor; try done.
  - split; [by eapply CrawlActor.actor_ok_mono|done].
  - by eapply DiscoveryActor.disc_ok_mono.
  - by eapply PeerLookup.lookup_ok_mono.
Qed.

Lemma note_step t s l : server_ok t s → message_step t s (note s l).
Proof. intros H'. split; [|done]. by destruct H'. Qed.

Lemma crawl_step t s a :
  server_ok t s → CrawlActor.quiet t (Publish.actor (crawl_engine s)) a → Publish.typed a →
  message_step t s (set_crawl s a).
Proof.
  intros [? (? & ? & ?) ? ? ? ? ?] (? & Hc & Ht) Hty. split.
  - constructor; try done. 
  - split; [done|]. unfold counters. simpl. by rewrite Hc, Ht.
Qed.

Lemma discovery_step t s d :
  server_ok t s → DiscoveryActor.actor_ok t d → Tags.tagged d → message_step t s (set_discovery s d).
Proof. intros [] Hd Ht. split; [by constructor|done]. Qed.

Lemma lookup_step t s l :
  server_ok t s → PeerLookup.actor_ok t l → PeerLookup.core l = PeerLookup.core (peer_lookup s) →
  message_step t s (set_lookup s l).
Proof.
  intros [] Hl Hc. split.
  - constructor; try done. intros i st Hi. injection Hc as Ha _ _ _ _ _ _ _ _ _ _ _. apply (so_live0 i). by rewrite <-Ha.
  - split; [done|]. unfold counters. simpl. by rewrite Hc.
Qed.

(** *** Queries *)

Lemma array20_ok l l' : array20 l = Some l' → l' = l ∧ length l = 20%nat.
Proof. unfold array20. intros E. case_bool_decide; by simplify_eq. Qed.

Lemma discover_step t s args a : server_ok t s → args_ok args → addr_wf a → message_step t s (discover_sender s args a).
Proof.
  intros Hok (Hid & _) Ha. unfold discover_sender. destruct (a_id args) as [i|]; [|done].
  destruct (_ && _) eqn:Hc; [|done]. apply andb_true_iff in Hc as [Hl%bool_decide_eq_true_1 _].
  destruct (so_engine _ _ Hok) as (Hact & Hty & _).
  apply crawl_step; [done|by apply CrawlActor.route_discovered_ok|]. apply Publish.typed_route_discovered; [done|].
  by split; [|split].
Qed.

Lemma disc_turn t s ev d :
  server_ok t s → DiscoveryActor.handle_event hex_encode (discovery s) ev t = Some d → message_step t s (set_discovery s d).
Proof.
  intros Hok Hd. destruct (DiscoveryActor.disc_event_ok hex_encode t (discovery s) ev t (so_discovery _ _ Hok)) as (d' & Hd' & Hst);
    [lia|]. rewrite Hd in Hd'. simplify_eq. apply discovery_step; [done|apply Hst|].
  eapply Tags.tagged_event; [|done]. by eapply so_tagged.
Qed.

(** A hash event goes to the end of the hash channel when there is room. *)
Lemma enqueue_step t s ev :
  let d := discovery s in
  server_ok t s → Z.of_nat (length (DiscoveryActor.hash_rx d)) < DiscoveryActor.hash_capacity d →
  message_step t s (set_discovery s (DiscoveryActor.set_channels d (DiscoveryActor.input_rx d)
    (DiscoveryActor.response_rx d) (DiscoveryActor.hash_rx d ++ [ev]))).
Proof.
  intros d Hok Hroom. apply discovery_step; [done| |by eapply so_tagged].
  destruct (so_discovery _ _ Hok) as (Hp & Hw & H1 & H2 & _). split; [exact Hp|]. split; [exact Hw|].
  split; [done|]. split; [done|]. simpl. rewrite length_app. simpl. fold d. lia.
Qed.

Lemma announce_step t s args a now : server_ok t s → message_step t s (handle_announce_peer s args a now).
Proof.
  intros Hok. unfold handle_announce_peer.
  destruct (a_token args); [|by apply note_step]. destruct (negb _); [by apply note_step|].
  destruct (a_info_hash args) as [h|]; [|done]. destruct (array20 h); [|by apply note_step].
  destruct (match DiscoveryActor.filter_cb _ with Some _ => _ | None => _ end); [by apply note_step|].
  destruct (_ <? _); [|done]. cbn zeta. pose proof (note_step t s [("announce_accepted", 1); ("hash_received", 1)] Hok) as Hs1.
  set (s1 := note s _) in *. eapply message_step_trans; [exact Hs1|]. destruct Hs1 as [Hok1 _]. clearbody s1. clear s Hok.
  destruct (Z.ltb_spec (Z.of_nat (length (DiscoveryActor.hash_rx (discovery s1)))) (DiscoveryActor.hash_capacity (discovery s1))).
  - eapply message_step_trans; [by apply enqueue_step|]. apply note_step. by apply enqueue_step.
  - eapply message_step_trans; [by apply note_step|]. apply note_step. by apply note_step.
Qed.

Lemma observe_step t s q args a now : server_ok t s → message_step t s (observe_query s q args a now).
Proof.
  intros Hok. unfold observe_query. case_bool_decide; [by apply announce_step|]. destruct (_ && _); [|done].
  destruct (match a_info_hash args with Some h => array20 h | None => None end) as [h|]; [|done].
  destruct (match a_id args with Some h => array20 h | None => None end) as [i|]; [|done].
  by apply (disc_turn t s (DiscoveryActor.ObserveGetPeers h (mkNode i a))).
Qed.

Lemma reply_step t s remote tid r : server_ok t s → response_ok r → message_step t s (route_reply s remote tid r).
Proof.
  intros Hok Hr. unfold route_reply. case_match; [by apply (disc_turn t s (DiscoveryActor.RouteResponse remote tid (Some r)))|].
  case_match.
  - pose proof (so_lookup _ _ Hok) as Hl. unfold PeerLookup.route_response.
    case_match; apply lookup_step; try done; [|by apply PeerLookup.lookup_note_ok].
    eapply PeerLookup.actor_ok_core; [exact Hl|done|apply Hl..|]. simpl. rewrite length_app. simpl. lia.
  - destruct (so_engine _ _ Hok) as (Hact & Hty & _). apply crawl_step; [done|by apply CrawlActor.route_response_ok|].
    by apply Publish.typed_route_response.
Qed.

(** *** Responses *)

Lemma le8_length n : length (le8 n) = 8%nat.
Proof. unfold le8. by rewrite length_rev, be8_length. Qed.

Lemma sampled_nodes_ok t s ipv6 k :
  server_ok t s →
  ∃ nodes, random_nodes (Publish.published (crawl_engine s)) k (Some ipv6) = Some nodes
    ∧ (length nodes ≤ k)%nat ∧ Forall node_wf nodes.
Proof.
  intros Hok. destruct (so_engine _ _ Hok) as (_ & _ & _ & Hwf). unfold Publish.snapshot_nodes in Hwf.
  apply Forall_app in Hwf as [H4 H6]. unfold random_nodes.
  assert (∀ l : list NodeTuple, Forall node_wf l → ∃ ns, mapM (λ i, l !! i) (sample_indices (length l) k) = Some ns
    ∧ (length ns ≤ k)%nat ∧ Forall node_wf ns) as Hgen.
  { intros l Hl. destruct (mapM_lookup_total l (λ i, l !! i) (sample_indices (length l) k)) as (ns & -> & Hsub & Hlen);
      [done|apply sample_indices_bound|apply sample_indices_nodup|].
    exists ns. split; [done|]. split; [rewrite Hlen, sample_indices_length; lia|].
    apply Forall_forall. intros n Hn. rewrite Forall_forall in Hl. apply Hl. eapply elem_of_submseteq; [done|done]. }
  destruct ipv6; by apply Hgen.
Qed.

Lemma eight_nodes_fit ipv6 nodes : (length nodes ≤ 8)%nat → Forall node_wf nodes → len_ok (compact ipv6 nodes).
Proof.
  intros Hn Hwf. destruct (compact_chunks ipv6 nodes Hwf) as [_ Hlen]. unfold len_ok. rewrite Hlen.
  pose proof (length_filter (family ipv6) nodes). unfold usize_max, u64_max. destruct ipv6; simpl; lia.
Qed.

Lemma encoded_ok buffer tid my_id token nodes ipv6 :
  len_ok tid → NodeId.id20 my_id → length token = 8%nat → (length nodes ≤ 8)%nat → Forall node_wf nodes →
  encode_response buffer tid my_id token nodes ipv6 = Some (benc (response_value tid my_id token nodes ipv6)).
Proof. intros Ht [Hid _] Htok Hn Hwf. apply encode_response_value; try done. by apply eight_nodes_fit. Qed.

Lemma send_step t s w r i :
  server_ok t s → len_ok (transaction_id r) → bytes_opt (sender_id r) → bytes_opt (target_id r) →
  (∀ j, is_byte (tail i j)) →
  ∃ s' w', send_response s w r i = Some (s', w') ∧ message_step t s s' ∧ discovery s' = discovery s.
Proof.
  intros Hok Ht Hs Htg Htl. unfold send_response. case_bool_decide as Hsock; [|by exists s, w]. cbn [negb].
  set (o := match match sender_id r with Some x => _ | None => _ end with Some target => _ | None => _ end).
  assert (∃ my_id, o = Some my_id ∧ NodeId.id20 my_id) as (my_id & -> & Hmy).
  { unfold o. destruct (match sender_id r with Some x => Some x | None => target_id r end) as [x|] eqn:Hx;
      [|eexists; split; [done|]; by eapply so_id].
    assert (NodeId.id20 (NodeId.neighbor_node_id x (node_id s) (tail i))) as Hid.
    { apply Publish.neighbor_ok; [|apply (so_id _ _ Hok)|done]. destruct (sender_id r); simplify_eq/=; [done|].
      by rewrite Hx in Htg. }
    eexists. split; [|exact Hid]. unfold array20. rewrite bool_decide_true by apply Hid. done. }
  cbn zeta. set (o' := if include_nodes (query_type r) then _ else _).
  assert (∃ nodes, o' = Some nodes ∧ (length nodes ≤ 8)%nat ∧ Forall node_wf nodes) as (nodes & -> & Hn & Hwf).
  { unfold o'. destruct (include_nodes _); [by eapply sampled_nodes_ok|]. exists []. split_and!; simpl; [done|lia|constructor]. }
  rewrite encoded_ok by (done || apply le8_length). set (buf := benc _).
  destruct (Limiter.acquire _ _ _ _ _) as [permit lim]. eexists _, _. split; [done|].
  assert (∀ l, message_step t s (note (push_sent (note s l) (local_addr r, remote_addr r, buf)) [("udp_sent", Z.of_nat (length buf))])) as Hpush.
  { intros l. split; [|done]. destruct Hok. constructor; try done. simpl. apply Forall_app. split; [done|].
    apply Forall_singleton. split; [done|]. by exists (transaction_id r), my_id, nodes. }
  assert (∀ l l', message_step t s (note (note s l) l')) as Hfail.
  { intros l l'. eapply message_step_trans; [by apply note_step|]. apply note_step. by apply note_step. }
  split; [|destruct permit, (send_ok i); done].
  destruct permit, (send_ok i); auto using note_step.
Qed.

(** *** One message *)

Lemma message_ok_step t s w data remote local i :
  server_ok t s → Forall is_byte data → len_ok data → addr_wf remote → (∀ j, is_byte (tail i j)) →
  ∃ s' w', handle_message s w data remote local i = Some (s', w') ∧ message_step t s s'.
Proof.
  intros Hok Hd Hlen Ha Htl. unfold handle_message. case_bool_decide; [|by exists s, w]. cbn [negb].
  destruct (from_bytes data) as [m|] eqn:Hm; [|by exists s, w].
  destruct (from_bytes_ok data m Hd Hm) as (Htid & _ & Hargs & Hresp).
  case_bool_decide.
  { destruct (m_q m) as [q|]; [|by exists s, w]. unfold handle_query. destruct (m_a m) as [args|]; [|by exists s, w].
    specialize (Hargs _ eq_refl). cbn zeta.
    pose proof (note_step t s [inbound_query q] Hok) as Hs1. set (s1 := note s _) in *.
    pose proof (discover_step t s1 args remote (proj1 Hs1) Hargs Ha) as Hs2. set (s2 := discover_sender _ _ _) in *.
    pose proof (observe_step t s2 q args remote (discovered_at i) (proj1 Hs2)) as Hs3. set (s3 := observe_query _ _ _ _ _) in *.
    destruct Hargs as (Hi & Ht & Hh & _).
    destruct (send_step t s3 w (mkQuery (m_t m) remote local q (a_id args)
      (match a_target args with Some x => Some x | None => a_info_hash args end)) i (proj1 Hs3)) as (s' & w' & Hs & Hs4 & _).
    - unfold len_ok in *. simpl. lia.
    - done.
    - simpl. by destruct (a_target args).
    - done.
    - exists s', w'. split; [exact Hs|]. eauto using message_step_trans. }
  case_bool_decide.
  { destruct (m_r m) as [r|]; [|by exists s, w]. destruct (NodeId.transaction_id_from_bytes _) as [tid|]; [|by exists s, w].
    eexists _, _. split; [done|]. by apply reply_step; auto. }
  case_bool_decide; [|by exists s, w]. destruct (NodeId.transaction_id_from_bytes _) as [tid|]; [|by exists s, w].
  eexists _, _. split; [done|]. case_match; [|done]. by apply (disc_turn t s (DiscoveryActor.RouteResponse remote tid None)).
Qed.

(** *** Histories *)

Definition event_end (ev : event) : Instant :=
  match ev with
  | Message _ _ _ _ i => response_at i
  | CrawlTurn x => Publish.turn_end x
  | DiscoveryTurn _ now => now
  | LookupTurn x => PeerLookup.sp_fin x
  end.

(** The clock never goes back, and inputs have the types the code gives them. *)
Definition event_ok (t : Instant) (ev : event) : Prop :=
  match ev with
  | Message _ data remote _ i =>
      t ≤ discovered_at i ≤ response_at i ∧ Forall is_byte data ∧ len_ok data ∧ addr_wf remote
      ∧ ∀ j, is_byte (tail i j)
  | CrawlTurn x => Publish.turn_ok t x
  | DiscoveryTurn _ now => t ≤ now
  | LookupTurn x =>
      t ≤ PeerLookup.sp_now x ∧ PeerLookup.env_ok (PeerLookup.sp_env x) (PeerLookup.sp_now x) (PeerLookup.sp_fin x)
      ∧ ∀ r, PeerLookup.sp_event x = PeerLookup.Submit r → length (PeerLookup.rq_info_hash r) = 20%nat
  end.

Fixpoint events_ok (t : Instant) (evs : list event) : Prop :=
  match evs with [] => True | ev :: evs => event_ok t ev ∧ events_ok (event_end ev) evs end.

Definition end_time (t : Instant) (evs : list event) : Instant := default t (event_end <$> last evs).

Definition crawl_turns (evs : list event) : Z :=
  Z.of_nat (length (filter (λ ev, match ev with CrawlTurn _ => true | _ => false end = true) evs)).
Definition lookup_turns (evs : list event) : Z :=
  Z.of_nat (length (filter (λ ev, match ev with LookupTurn _ => true | _ => false end = true) evs)).

(** Below this value of its counter an identifier of the crawl carries no tag. *)
Definition CRAWL_TIDS : Z := 165 * 2 ^ 56.

Definition crawl_actor (s : DHTServer) : CrawlActor.CrawlActor := Publish.actor (crawl_engine s).

(** The counters leave room for [nc] crawl turns and [nl] lookup turns. *)
Record room (nc nl : Z) (s : DHTServer) : Prop := {
  ro_burst : 0 ≤ cf_burst (CrawlActor.config (crawl_actor s));
  ro_crawl : CrawlActor.next_tid (crawl_actor s) + nc * cf_burst (CrawlActor.config (crawl_actor s)) ≤ CRAWL_TIDS;
  ro_queries : 0 ≤ PeerLookup.max_queries (peer_lookup s);
  ro_active : 0 ≤ PeerLookup.max_active_lookups (peer_lookup s);
  ro_tid : PeerLookup.next_tid (peer_lookup s) + nl * (73 * (PeerLookup.max_active_lookups (peer_lookup s) + 1)) ≤ 2 ^ 56;
  ro_id : PeerLookup.next_lookup_id (peer_lookup s) + nl ≤ u64_max;
}.

Lemma room_message t nc nl s s' : message_step t s s' → room nc nl s → room nc nl s'.
Proof.
  intros (_ & _ & [= Hc Ht _ _ _ Hi Htl _ _ H1 H2 _ _ _] & _) []. unfold crawl_actor in *.
  constructor; unfold crawl_actor; rewrite ?Hc, ?Ht, ?Hi, ?Htl, ?H1, ?H2; done.
Qed.

Lemma crawl_turn_ok t x e nc nl :
  server_ok t (server x) → room (nc + 1) nl (server x) → 0 ≤ nc → Publish.turn_ok t e →
  ∃ x', handle_event x (CrawlTurn e) = Some x' ∧ server_ok (Publish.turn_end e) (server x') ∧ room nc nl (server x')
    ∧ fixed (server x') = fixed (server x) ∧ length (workers x') = length (workers x).
Proof.
  intros Hok Hro Hnc He. pose proof (Publish.turn_ok_le _ _ He) as Hle. cbn [handle_event].
  destruct (Publish.turn_step t (crawl_engine (server x)) e (so_engine _ _ Hok) He) as (e' & -> & Hok' & Hc & Ht).
  - apply Hro.
  - destruct Hro as [? Hb _ _ _ _]. unfold crawl_actor, CRAWL_TIDS, u64_max in *.
    change (2 ^ 56) with 72057594037927936 in *. nia.
  - eexists. split; [done|]. cbn [server workers]. pose proof (server_ok_mono _ _ _ Hok Hle) as [].
    split; [by constructor|]. split; [|done]. destruct Hro. unfold crawl_actor in *.
    constructor; unfold crawl_actor; cbn [crawl_engine set_engine peer_lookup]; try done; rewrite ?Hc; [done|nia].
Qed.

Lemma lookup_turn_ok t x l nc nl :
  server_ok t (server x) → room nc (nl + 1) (server x) → 0 ≤ nl → event_ok t (LookupTurn l) →
  ∃ x', handle_event x (LookupTurn l) = Some x' ∧ server_ok (PeerLookup.sp_fin l) (server x') ∧ room nc nl (server x')
    ∧ fixed (server x') = fixed (server x) ∧ length (workers x') = length (workers x).
Proof.
  intros Hok Hro Hnl (Hle & Henv & Hsub). cbn [handle_event]. pose proof (PeerLookup.eo_order_ok _ _ _ Henv) as Hfin.
  destruct (PeerLookup.lookup_event_ok t (peer_lookup (server x)) (lookup_event (server x) (PeerLookup.sp_event l))
    (PeerLookup.sp_env l) (PeerLookup.sp_now l) (PeerLookup.sp_fin l) (so_lookup _ _ Hok) (so_live _ _ Hok) Hle Henv)
    as (l' & -> & Hst).
  - destruct (PeerLookup.sp_event l) as [| |closed snap|r|]; simpl; try done; [|by apply Hsub].
    destruct (so_engine _ _ Hok) as (_ & _ & Hsn & _). exact Hsn.
  - apply Hro.
  - destruct Hro. nia.
  - destruct Hro. lia.
  - destruct Hst as [Hl Hlim Hid Htid Hlive]. eexists. split; [done|]. cbn [server workers].
    assert (t ≤ PeerLookup.sp_fin l) as Htf by lia. pose proof (server_ok_mono _ _ _ Hok Htf) as [].
    split; [by constructor|]. split; [|done]. injection Hlim as H1 H2 _ _ _. destruct Hro.
    constructor; cbn [peer_lookup set_lookup]; try done; rewrite ?H1, ?H2; try done; [nia|lia].
Qed.

Lemma server_event_ok t x ev evs :
  server_ok t (server x) → room (crawl_turns (ev :: evs)) (lookup_turns (ev :: evs)) (server x) → event_ok t ev →
  ∃ x', handle_event x ev = Some x' ∧ server_ok (event_end ev) (server x')
    ∧ room (crawl_turns evs) (lookup_turns evs) (server x') ∧ fixed (server x') = fixed (server x)
    ∧ length (workers x') = length (workers x).
Proof.
  intros Hok Hro Hev. destruct ev as [w data remote local i|e|ev now|l].
  - destruct Hev as (Hi & Hd & Hlen & Ha & Htl). cbn [handle_event event_end].
    assert (t ≤ response_at i) as Hle by lia. pose proof (server_ok_mono _ _ _ Hok Hle) as Hok1.
    destruct (workers x !! w) as [wk|]; [|by exists x].
    destruct (message_ok_step (response_at i) (server x) wk data remote local i Hok1 Hd Hlen Ha Htl) as (s' & w' & -> & Hst).
    eexists. split; [done|]. cbn [server workers fst snd]. split; [apply Hst|]. split; [by eapply room_message|].
    split; [apply Hst|by rewrite length_insert].
  - apply (crawl_turn_ok t x e); try done; [|unfold crawl_turns; lia].
    replace (crawl_turns evs + 1) with (crawl_turns (CrawlTurn e :: evs)); [done|]. unfold crawl_turns.
    rewrite filter_cons_True by done. simpl. lia.
  - cbn [handle_event event_end]. pose proof (server_ok_mono _ _ _ Hok Hev) as Hok1.
    destruct (DiscoveryActor.disc_event_ok hex_encode now (discovery (server x)) (discovery_event (server x) ev) now (so_discovery _ _ Hok1))
      as (d & Hd & _); [lia|]. rewrite Hd. pose proof (disc_turn now (server x) _ d Hok1 Hd) as Hst.
    eexists. split; [done|]. cbn [server workers]. split; [apply Hst|]. split; [by eapply room_message|]. split; [apply Hst|done].
  - apply (lookup_turn_ok t x l); try done; [|unfold lookup_turns; lia].
    replace (lookup_turns evs + 1) with (lookup_turns (LookupTurn l :: evs)); [done|]. unfold lookup_turns.
    rewrite filter_cons_True by done. simpl. lia.
Qed.

Lemma server_run_ok evs t x :
  server_ok t (server x) → room (crawl_turns evs) (lookup_turns evs) (server x) → events_ok t evs →
  ∃ x', run x evs = Some x' ∧ server_ok (end_time t evs) (server x') ∧ room 0 0 (server x')
    ∧ fixed (server x') = fixed (server x) ∧ length (workers x') = length (workers x).
Proof.
  revert t x; induction evs as [|ev evs IH]; intros t x Hok Hro Hev; cbn [run]; [by exists x|].
  destruct Hev as [Hev Hevs]. destruct (server_event_ok t x ev evs Hok Hro Hev) as (x1 & -> & Hok1 & Hro1 & Hf1 & Hl1).
  destruct (IH _ x1 Hok1 Hro1 Hevs) as (x' & -> & Hok' & Hro' & Hf' & Hl').
  exists x'. split; [done|]. replace (end_time t (ev :: evs)) with (end_time (event_end ev) evs); [split_and!; try done; congruence|].
  unfold end_time. by destruct evs as [|e evs] using rev_ind; [|rewrite app_comm_cons, !last_snoc].
Qed.

Definition options_ok (o : DHTOptions) : Prop :=
  crawl_options_ok (dh_crawl o) ∧ PeerLookup.options_ok (dh_peer_lookup o) ∧ DiscoveryActor.options_ok (dh_discovery o)
  ∧ 0 < dh_hash_queue_capacity o.

(** The transaction counters last for the history. *)
Definition tids_last (o : DHTOptions) (evs : list event) : Prop :=
  1 + crawl_turns evs * cf_burst (from_options (dh_crawl o)) ≤ CRAWL_TIDS
  ∧ PeerLookup.tid_budget (dh_peer_lookup o) (Z.to_nat (lookup_turns evs)) ≤ 2 ^ 56.

Lemma server_start_ok o nid secret n t :
  options_ok o → NodeId.id20 nid →
  ∃ x, start o nid secret n t = Some x ∧ server_ok t (server x)
    ∧ (∀ evs, tids_last o evs → room (crawl_turns evs) (lookup_turns evs) (server x)).
Proof.
  intros (Hc & Hp & Hd & Hq) Hid. unfold start, new. destruct (Z.leb_spec (dh_hash_queue_capacity o) 0); [lia|].
  eexists. split; [done|]. cbn [server]. apply CrawlActor.limits_of_options in Hc as Hlim. 
  destruct (PeerLookup.lookup_new_ok (dh_netmode o) nid (existsb is_ipv4 (bind_addrs (dh_netmode o) (dh_port o)))
    (existsb is_ipv6 (bind_addrs (dh_netmode o) (dh_port o))) (dh_peer_lookup o) t Hp) as [Hl Hlive].
  split.
  - constructor; first [done|by apply Publish.engine_new_ok|apply DiscoveryActor.disc_new_ok; [done|lia]].
  - intros evs [Hb Ht]. destruct Hp as [Ha Hm]. unfold PeerLookup.tid_budget in Ht.
    assert (0 ≤ lookup_turns evs) by (unfold lookup_turns; lia). rewrite Z2Nat.id in Ht by done.
    change (2 ^ 56) with 72057594037927936 in *.
    constructor; simpl; try done; [apply Hlim|unfold u64_max; nia].
Qed.

(** C1: the whole server runs safely.  Whatever bytes arrive from whatever
    addresses on however many workers, interleaved in any order with the
    turns of the crawl, the discovery and the lookups, as long as the clock
    does not go back and the transaction counters last: no task panics, the
    invariants of all three actors hold together over the snapshot and the
    channels they share, and every datagram the server has sent went out
    through one of its sockets and is a complete bencoded response with a
    twenty-byte identifier, the receiver's own token and at most eight
    well-formed nodes. *)
Theorem server_history_safe (o : DHTOptions) (nid secret : list Z) (num_workers : nat) (t : Instant)
    (evs : list event) :
  options_ok o → NodeId.id20 nid → events_ok t evs → tids_last o evs →
  ∃ x0 x, start o nid secret num_workers t = Some x0 ∧ run x0 evs = Some x
    ∧ server_ok (end_time t evs) (server x) ∧ length (workers x) = length (workers x0).
Proof.
  intros Ho Hid Hev Ht. destruct (server_start_ok o nid secret num_workers t Ho Hid) as (x0 & H0 & Hok & Hro).
  destruct (server_run_ok evs t x0 Hok (Hro evs Ht) Hev) as (x & Hr & Hok' & _ & _ & Hl). by exists x0, x.
Qed.

(** *** Routing of replies *)

Lemma crawl_tid_untagged n : 0 ≤ n < CRAWL_TIDS → is_sample_tid (be8 n) = false ∧ PeerLookup.is_peer_lookup_tid (be8 n) = false.
Proof.
  intros Hn. assert (∃ x, head (be8 n) = Some x ∧ x < 165) as (x & Hx & Hlt).
  { eexists. split; [rewrite head_lookup; apply be8_byte; lia|]. unfold CRAWL_TIDS in Hn. simpl.
    change (256 ^ (7 - Z.of_nat 0)) with 72057594037927936. change (2 ^ 56) with 72057594037927936 in Hn.
    assert (n `div` 72057594037927936 < 165) by (apply Z.div_lt_upper_bound; lia).
    assert (0 ≤ n `div` 72057594037927936) by (apply Z.div_pos; lia). rewrite Z.mod_small; lia. }
  unfold is_sample_tid, PeerLookup.is_peer_lookup_tid, SAMPLE_TID_TAG, PeerLookup.LOOKUP_TID_TAG. rewrite Hx.
  split; apply bool_decide_eq_false_2; intros [=]; lia.
Qed.

(** What [handle_message] does with a well-formed reply. *)
Lemma handle_reply s w data remote local i msg r :
  local ∈ sockets s → from_bytes data = Some msg → m_y msg = "r" → m_r msg = Some r → length (m_t msg) = 8%nat →
  handle_message s w data remote local i = Some (route_reply s remote (m_t msg) r, w).
Proof.
  intros Hl Hm Hy Hr Ht. unfold handle_message. rewrite bool_decide_true by done. cbn [negb]. rewrite Hm, Hy, Hr.
  rewrite bool_decide_false, bool_decide_true by done. unfold NodeId.transaction_id_from_bytes.
  by rewrite bool_decide_true.
Qed.

(** C19: a reply reaches the task that waits for it.  After any history of the
    server, a response to a query in flight, received from the queried
    address with the query's transaction identifier, is put on the channel of
    the one actor that sent the query: the crawl's identifiers carry neither
    tag, the lookups' and the discovery's carry their own, so that no task
    can take or lose another's reply. *)
Theorem reply_routing (o : DHTOptions) (nid secret : list Z) (num_workers : nat) (t : Instant) (evs : list event)
    (x0 x : System) (w : Worker) (data : list Z) (msg : DhtMessage) (remote local : SocketAddr) (i : Input)
    (r : DhtResponse) :
  options_ok o → NodeId.id20 nid → events_ok t evs → tids_last o evs →
  start o nid secret num_workers t = Some x0 → run x0 evs = Some x →
  local ∈ sockets (server x) → from_bytes data = Some msg → m_y msg = "r" → m_r msg = Some r →
  let s := server x in
  (is_Some (CrawlActor.pending (crawl_actor s) !! CrawlActor.mkKey remote (m_t msg)) →
     handle_message s w data remote local i
     = Some (set_crawl s (CrawlActor.route_response (crawl_actor s) remote (m_t msg) r), w))
  ∧ (is_Some (PeerLookup.pending (peer_lookup s) !! PeerLookup.mkKey remote (m_t msg)) →
     handle_message s w data remote local i
     = Some (set_lookup s (PeerLookup.route_response (peer_lookup s) remote (m_t msg) r), w))
  ∧ (∀ p, DiscoveryActor.pending (discovery s) !! remote = Some p → DiscoveryActor.ps_tid p = m_t msg →
     handle_message s w data remote local i
     = Some (set_discovery s (DiscoveryActor.route_response (discovery s) remote (m_t msg) (Some r)), w)).
Proof.
  intros Ho Hid Hev Ht H0 Hrun Hl Hm Hy Hr s. destruct (server_start_ok o nid secret num_workers t Ho Hid) as (y & Hy0 & Hok0 & Hro0).
  rewrite H0 in Hy0. simplify_eq. destruct (server_run_ok evs t y Hok0 (Hro0 evs Ht) Hev) as (x1 & Hx1 & Hok & Hro & _).
  rewrite Hrun in Hx1. simplify_eq. fold s in Hok, Hro, Hl. split_and!.
  - intros [p Hp]. destruct (so_engine _ _ Hok) as ((_ & _ & (_ & _ & _ & He & _) & _) & _).
    destruct (He _ _ Hp) as (_ & _ & _ & _ & n & Hn & Htid). simpl in Htid.
    rewrite (handle_reply _ _ _ _ _ _ _ _ Hl Hm Hy Hr) by (rewrite Htid; apply be8_length). unfold route_reply.
    pose proof (ro_crawl _ _ _ Hro) as Hb. destruct (crawl_tid_untagged n) as [E1 E2]; [unfold crawl_actor in *; lia|].
    by rewrite Htid, E1, E2.
  - intros [p Hp]. destruct (PeerLookup.ao_pending _ _ (so_lookup _ _ Hok) _ _ Hp) as (_ & _ & n & _ & Htid). simpl in Htid.
    rewrite (handle_reply _ _ _ _ _ _ _ _ Hl Hm Hy Hr) by (rewrite Htid; unfold PeerLookup.tid_of; by rewrite length_insert, be8_length).
    unfold route_reply. by rewrite Htid.
  - intros p Hp Htid. destruct (so_tagged _ _ Hok _ _ Hp) as [Htag Hlen]. rewrite Htid in Htag, Hlen.
    rewrite (handle_reply _ _ _ _ _ _ _ _ Hl Hm Hy Hr) by done. unfold route_reply. by rewrite Htag.
Qed.

(** *** Announcements *)

(** The filter lets a hash through. *)
Definition admitted_hash (s : DHTServer) (h : list Z) : Prop :=
  match DiscoveryActor.filter_cb (discovery s) with Some f => f (hex_encode h) = true | None => True end.

Definition hash_queue (s : DHTServer) : list HashDiscovered := DiscoveryActor.hash_rx (discovery s).

(** The event an announcement of hash [h] from [a] stands for. *)
Definition announcement (args : DhtArgs) (h : list Z) (a : SocketAddr) (now : Instant) : HashDiscovered :=
  mkDiscovered (hex_encode h) (Some (with_ip_port a (announced_port args a)))
    (let! i := a_id args in let! i := array20 i in Some (mkNode i a)) Announce now.

Lemma validate_token_spec s token a : validate_token s token a = true ↔ token = generate_token s a.
Proof.
  unfold validate_token. split.
  - intros E. destruct (negb _); [done|]. by apply bool_decide_eq_true_1 in E.
  - intros ->. rewrite (bool_decide_true (length _ = 8%nat)) by apply le8_length. by apply bool_decide_eq_true_2.
Qed.

Lemma announce_cases s args a now :
  let s' := handle_announce_peer s args a now in
  hash_queue s' = hash_queue s
  ∨ ∃ h, a_token args = Some (generate_token s a) ∧ a_info_hash args = Some h ∧ length h = 20%nat ∧ admitted_hash s h
      ∧ 0 < announced_port args a ∧ Z.of_nat (length (hash_queue s)) < DiscoveryActor.hash_capacity (discovery s)
      ∧ hash_queue s' = hash_queue s ++ [announcement args h a now].
Proof.
  cbn zeta. unfold handle_announce_peer. destruct (a_token args) as [token|]; [|by left].
  destruct (validate_token s token a) eqn:Hv; [|by left]. cbn [negb]. apply validate_token_spec in Hv as ->.
  destruct (a_info_hash args) as [h|]; [|by left]. destruct (array20 h) as [h'|] eqn:Hh; [|by left].
  apply array20_ok in Hh as [-> Hlen].
  destruct (match DiscoveryActor.filter_cb _ with Some _ => _ | None => _ end) eqn:Hf; [by left|].
  destruct (Z.ltb_spec 0 (announced_port args a)); [|by left]. cbn zeta.
  destruct (Z.ltb_spec (Z.of_nat (length (DiscoveryActor.hash_rx (discovery (note s [("announce_accepted", 1); ("hash_received", 1)])))))
    (DiscoveryActor.hash_capacity (discovery (note s [("announce_accepted", 1); ("hash_received", 1)])))); [|by left].
  right. exists h. split_and!; try done. unfold admitted_hash.
  destruct (DiscoveryActor.filter_cb _) as [f|]; [|done]. by apply negb_false_iff in Hf.
Qed.

Lemma announce_enqueues s args a now h :
  a_token args = Some (generate_token s a) → a_info_hash args = Some h → length h = 20%nat → admitted_hash s h →
  0 < announced_port args a → Z.of_nat (length (hash_queue s)) < DiscoveryActor.hash_capacity (discovery s) →
  hash_queue (handle_announce_peer s args a now) = hash_queue s ++ [announcement args h a now].
Proof.
  intros Ht Hh Hl Hf Hp Hq. unfold handle_announce_peer. rewrite Ht, Hh.
  rewrite (proj2 (validate_token_spec s _ a) eq_refl). cbn [negb]. unfold array20. rewrite bool_decide_true by done.
  unfold admitted_hash in Hf. destruct (DiscoveryActor.filter_cb _) as [f|] eqn:E.
  - rewrite Hf. cbn [negb]. rewrite (proj2 (Z.ltb_lt _ _) Hp). cbn zeta. cbn [discovery note]. unfold hash_queue in Hq.
    by rewrite (proj2 (Z.ltb_lt _ _) Hq).
  - rewrite (proj2 (Z.ltb_lt _ _) Hp). cbn zeta. cbn [discovery note]. unfold hash_queue in Hq.
    by rewrite (proj2 (Z.ltb_lt _ _) Hq).
Qed.

Lemma send_discovery s w r i s' w' : send_response s w r i = Some (s', w') → discovery s' = discovery s.
Proof.
  unfold send_response. intros E. destruct (negb _); [by simplify_eq|]. bind_inv E.
  destruct (Limiter.acquire _ _ _ _ _) as [permit lim]. injection E as <- <-. by destruct permit, (send_ok i).
Qed.

(** C16: only authenticated announcements become metadata jobs.  One message
    adds at most one event to the hash channel.  It does so only when it is an
    [announce_peer] query that carries the token issued to the sender's
    address, a twenty-byte hash that the registered filter admits, a port
    other than zero, and the channel has room; and then the peer handed to the
    metadata scheduler is on the sender's own address, so that nobody can
    announce a peer for somebody else. *)
Theorem announce_authentic (s s' : DHTServer) (w w' : Worker) (data : list Z) (remote local : SocketAddr) (i : Input) :
  handle_message s w data remote local i = Some (s', w') →
  hash_queue s' = hash_queue s
  ∨ ∃ msg args h ev, from_bytes data = Some msg ∧ m_q msg = Some "announce_peer" ∧ m_a msg = Some args
      ∧ a_token args = Some (generate_token s remote) ∧ a_info_hash args = Some h ∧ length h = 20%nat
      ∧ admitted_hash s h ∧ Z.of_nat (length (hash_queue s)) < DiscoveryActor.hash_capacity (discovery s)
      ∧ hash_queue s' = hash_queue s ++ [ev] ∧ hd_info_hash ev = hex_encode h ∧ hd_source ev = Announce
      ∧ ∃ p, hd_peer_addr ev = Some (with_ip_port remote p) ∧ 0 < p.
Proof.
  intros E. unfold handle_message in E. destruct (negb _); [simplify_eq; by left|].
  destruct (from_bytes data) as [m|]; [|simplify_eq; by left]. case_bool_decide.
  - destruct (m_q m) as [q|] eqn:Hq; [|simplify_eq; by left]. unfold handle_query in E.
    destruct (m_a m) as [args|] eqn:Ha; [|simplify_eq; by left]. cbn zeta in E. apply send_discovery in E.
    set (s1 := discover_sender _ _ _) in E. assert (discovery s1 = discovery s) as Hd1.
    { unfold s1, discover_sender. destruct (a_id args); [|done]. by destruct (_ && _). }
    assert (token_secret s1 = token_secret s) as Hk1.
    { unfold s1, discover_sender. destruct (a_id args); [|done]. by destruct (_ && _). }
    clearbody s1. unfold hash_queue. rewrite E. unfold observe_query. case_bool_decide as Hann.
    + subst q. destruct (announce_cases s1 args remote (discovered_at i)) as [Hs|(h & H1 & H2 & H3 & H4 & H5 & H6 & H7)];
        unfold hash_queue, admitted_hash, generate_token in *; rewrite ?Hd1, ?Hk1 in *; [by left|]. right.
      exists m, args, h, (announcement args h remote (discovered_at i)).
      split_and!; try done. by exists (announced_port args remote).
    + left. destruct (_ && _); [|by rewrite Hd1].
      destruct (match a_info_hash args with Some h => array20 h | None => None end); [|by rewrite Hd1].
      destruct (match a_id args with Some h => array20 h | None => None end); [|by rewrite Hd1].
      cbn [discovery set_discovery]. unfold DiscoveryActor.observe_get_peers. repeat case_match; cbn; by rewrite Hd1.
  - left. assert (∀ tid o, DiscoveryActor.hash_rx (DiscoveryActor.route_response (discovery s) remote tid o)
      = DiscoveryActor.hash_rx (discovery s)) as Hrr by (intros; unfold DiscoveryActor.route_response; by repeat case_match).
    unfold hash_queue. case_bool_decide.
    + destruct (m_r m), (NodeId.transaction_id_from_bytes (m_t m)); simplify_eq; try done. unfold route_reply.
      destruct (is_sample_tid _); [by apply Hrr|]. by destruct (PeerLookup.is_peer_lookup_tid _).
    + case_bool_decide; [|by simplify_eq]. destruct (NodeId.transaction_id_from_bytes (m_t m)); simplify_eq; [|done].
      destruct (is_sample_tid _); [by apply Hrr|done].
Qed.

(** The token field of a decoded response. *)
Definition token_of (v : bval) : option (list Z) := bstring (let! r := bfield "r" v in bfield "token" r).

(** C20: the token handed out with any response works.  Whoever decodes a
    datagram the server has sent finds a token in it, and an announcement
    with that token from the same address, on any port, for a hash the filter
    admits, is put on the hash channel as long as it has room, with the
    announcing address as its peer. *)
Theorem token_roundtrip (t : Instant) (s : DHTServer) (local remote remote' : SocketAddr) (d h : list Z)
    (args : DhtArgs) (now : Instant) :
  server_ok t s → (local, remote, d) ∈ sent s → octets remote' = octets remote →
  ∃ v token, bdec 20 d = Some (v, []) ∧ token_of v = Some token
    ∧ (a_token args = Some token → a_info_hash args = Some h → length h = 20%nat → admitted_hash s h →
       0 < announced_port args remote' → Z.of_nat (length (hash_queue s)) < DiscoveryActor.hash_capacity (discovery s) →
       hash_queue (handle_announce_peer s args remote' now) = hash_queue s ++ [announcement args h remote' now]).
Proof.
  intros Hok Hin Hoct. pose proof (so_sent _ _ Hok) as Hf. rewrite Forall_forall in Hf. apply Hf in Hin.
  destruct Hin as (_ & tid & my_id & nodes & Hd & Hid & Hn & Hwf & Htid). cbn [fst snd] in *. subst d.
  eexists _, (generate_token s remote). split; [apply bdec_response; [apply Hid|apply le8_length|done|by apply eight_nodes_fit]|].
  split.
  - unfold token_of, response_value. cbn zeta. by case_bool_decide; destruct (is_ipv6 remote).
  - intros Htok. apply announce_enqueues. rewrite Htok. unfold generate_token. by rewrite Hoct.
Qed.

End server.

(** ** A run of the server

    A stranger asks for peers, is answered and taken up by the crawl, which
    queries it; the stranger then announces a torrent with the token it got
    and replies to the query. *)

Definition ex_remote : SocketAddr := SocketAddrV4 8 8 8 8 6881.
Definition ex_local : SocketAddr := SocketAddrV4 0 0 0 0 6881.
Definition ex_id : list Z := replicate 20 1.
Definition ex_hash : list Z := replicate 20 9.
Definition ex_token : list Z := [54; 0; 0; 0; 0; 0; 0; 0].
Definition ex_reply : DhtResponse := mkResponse (Some ex_id) None None None None None None.

Definition ex_get_peers : DhtMessage :=
  mkMessage [7] "q" (Some "get_peers") (Some (mkArgs (Some ex_id) None (Some ex_hash) None None None)) None.
Definition ex_announce_args : DhtArgs := mkArgs (Some ex_id) None (Some ex_hash) (Some ex_token) (Some 6882) None.
Definition ex_announce : DhtMessage := mkMessage [7] "q" (Some "announce_peer") (Some ex_announce_args) None.
Definition ex_response : DhtMessage := mkMessage (be8 1) "r" None None (Some ex_reply).

Definition ex_from_bytes (data : list Z) : option DhtMessage :=
  if bool_decide (data = [100; 1]) then Some ex_get_peers
  else if bool_decide (data = [100; 2]) then Some ex_announce
  else if bool_decide (data = [100; 3; 0; 0; 0; 0; 0; 0]) then Some ex_response
  else None.

Lemma ex_from_bytes_ok data m : ex_from_bytes data = Some m → message_ok data m.
Proof.
  unfold ex_from_bytes. repeat case_bool_decide; intros [= <-]; subst data; unfold message_ok; simpl; split_and!.
  all: try lia; try done; try (by repeat constructor).
  - intros a [= <-]. unfold args_ok. simpl. split_and!; try done; repeat constructor; done.
  - intros a [= <-]. unfold args_ok. simpl. split_and!; [repeat constructor; done..|]. intros p [= <-]. lia.
  - intros r [= <-]. unfold response_ok. simpl. split_and!; try done. repeat constructor; done.
Qed.

#[export] Instance ex_decoder : Decoder :=
  {| from_bytes := ex_from_bytes; from_bytes_ok := λ data m _ E, ex_from_bytes_ok data m E |}.

#[export] Instance ex_hashing : Hashing :=
  {| token_hash := λ o k, foldr Z.add 0 (o ++ k); hex_encode := λ h, if bool_decide (h = ex_hash) then "09" else "" |}.

Definition ex_options : DHTOptions :=
  mkDHTOptions 6881 Ipv4Only 4 MetadataOptions_default PeerLookup.ex_options DiscoveryActor.ex_options CrawlActor.ex_options.
Definition ex_nid : list Z := replicate 20 4.
Definition ex_secret : list Z := [2; 2; 2; 2; 2; 2; 2; 2; 2; 4].
Definition ex_input (now : Instant) : Input := mkInput now now (λ _, 3) true.

Definition ex_events : list event :=
  [Message 0 [100; 1] ex_remote ex_local (ex_input 1000);
   CrawlTurn (Publish.ActorTurn (CrawlActor.ex_step CrawlActor.RecvDiscovery 2000));
   CrawlTurn (Publish.ActorTurn (CrawlActor.ex_step (CrawlActor.ScheduleTick 0) 1000000000));
   DiscoveryTurn DiscoveryActor.RecvInput 1000000001;
   CrawlTurn (Publish.SnapshotTick 1000000002)].

Lemma ex_server_options_ok : options_ok ex_options.
Proof.
  split; [apply CrawlActor.ex_options_ok|]. split; [split; simpl; lia|]. split; [vm_compute; discriminate|simpl; lia].
Qed.

Lemma ex_nid_ok : NodeId.id20 ex_nid.
Proof. split; [done|]. by repeat constructor. Qed.

Lemma ex_events_ok : events_ok 0 ex_events.
Proof.
  assert (Publish.rand_ok (λ _, CrawlActor.ex_rand)) as Hr.
  { intros n. split; [split; [done|]|intros i; done]. simpl. repeat constructor; done. }
  simpl. split_and!; try done; try lia; try (intros; lia); try (by repeat constructor); by vm_compute.
Qed.

Lemma ex_tids_last : tids_last ex_options ex_events.
Proof. split; vm_compute; discriminate. Qed.

Definition ex_start : option System := start ex_options ex_nid ex_secret 2 0.
Definition ex_final : option System := let! x := ex_start in run x ex_events.

Lemma server_history_safe_witness :
  ∃ x0 x, ex_start = Some x0 ∧ run x0 ex_events = Some x
    ∧ server_ok (end_time 0 ex_events) (server x) ∧ length (workers x) = length (workers x0).
Proof.
  apply (server_history_safe ex_options ex_nid ex_secret 2 0 ex_events).
  - apply ex_server_options_ok.
  - apply ex_nid_ok.
  - apply ex_events_ok.
  - apply ex_tids_last.
Defined.

(** The stranger's query is answered once, the crawl waits for its reply, and
    its announcement arrives behind the hash observed from its query. *)
Example ex_exchange :
  (let! x := ex_final in
   let! w := workers x !! 0%nat in
   let! r := handle_message (server x) w [100; 2] ex_remote ex_local (ex_input 2000000000) in
   Some (length (sent (server x)), (λ ev, (hd_source ev, hd_peer_addr ev)) <$> hash_queue r.1))
  = Some (1%nat, [(GetPeers, None); (Announce, Some (SocketAddrV4 8 8 8 8 6882))]).
Proof. by vm_compute. Qed.

Lemma ex_final_ok : ∃ x, ex_final = Some x ∧ server_ok (end_time 0 ex_events) (server x).
Proof.
  destruct (server_start_ok ex_options ex_nid ex_secret 2 0 ex_server_options_ok ex_nid_ok) as (x0 & H0 & Hok & Hro).
  destruct (server_run_ok ex_events 0 x0 Hok (Hro _ ex_tids_last) ex_events_ok) as (x & Hr & Hok' & _).
  exists x. unfold ex_final, ex_start. by rewrite H0.
Qed.

Lemma reply_routing_witness :
  ∃ x0 x, ex_start = Some x0 ∧ run x0 ex_events = Some x
    ∧ handle_message (server x) (mkWorker (Limiter.new 1 1 1 0) []) [100; 3; 0; 0; 0; 0; 0; 0] ex_remote ex_local (ex_input 2000000000)
      = Some (set_crawl (server x) (CrawlActor.route_response (crawl_actor (server x)) ex_remote (be8 1) ex_reply),
              mkWorker (Limiter.new 1 1 1 0) []).
Proof.
  destruct ex_final as [x|] eqn:Ex; [|exfalso; revert Ex; vm_compute; discriminate].
  unfold ex_final in Ex. destruct ex_start as [x0|] eqn:E0; [|discriminate]. exists x0, x.
  split; [reflexivity|]. split; [exact Ex|].
  destruct (reply_routing ex_options ex_nid ex_secret 2 0 ex_events x0 x (mkWorker (Limiter.new 1 1 1 0) [])
    [100; 3; 0; 0; 0; 0; 0; 0] ex_response ex_remote ex_local (ex_input 2000000000) ex_reply) as [Hcrawl _].
  - apply ex_server_options_ok.
  - apply ex_nid_ok.
  - apply ex_events_ok.
  - apply ex_tids_last.
  - exact E0.
  - exact Ex.
  - assert ((sockets ∘ server) <$> ex_final = Some [ex_local]) as Hs by (vm_compute; reflexivity).
    unfold ex_final in Hs. rewrite E0, Ex in Hs. simpl in Hs. injection Hs as Hs. rewrite Hs. constructor.
  - reflexivity.
  - reflexivity.
  - reflexivity.
  - apply Hcrawl.
    assert ((λ x, bool_decide (is_Some (CrawlActor.pending (crawl_actor (server x)) !! CrawlActor.mkKey ex_remote (be8 1)))) <$> ex_final
      = Some true) as Hs by (vm_compute; reflexivity).
    unfold ex_final in Hs. rewrite E0, Ex in Hs. simpl in Hs. injection Hs as Hs. by apply bool_decide_eq_true_1 in Hs.
Defined.

Lemma announce_authentic_witness :
  ∃ x w s' w', ex_final = Some x ∧ handle_message (server x) w [100; 2] ex_remote ex_local (ex_input 2000000000) = Some (s', w')
    ∧ ∃ msg args h ev, from_bytes [100; 2] = Some msg ∧ m_q msg = Some "announce_peer" ∧ m_a msg = Some args
      ∧ a_token args = Some (generate_token (server x) ex_remote) ∧ a_info_hash args = Some h ∧ length h = 20%nat
      ∧ admitted_hash (server x) h
      ∧ Z.of_nat (length (hash_queue (server x))) < DiscoveryActor.hash_capacity (discovery (server x))
      ∧ hash_queue s' = hash_queue (server x) ++ [ev] ∧ hd_info_hash ev = hex_encode h ∧ hd_source ev = Announce
      ∧ ∃ p, hd_peer_addr ev = Some (with_ip_port ex_remote p) ∧ 0 < p.
Proof.
  destruct ex_final as [x|] eqn:Ex; [|exfalso; revert Ex; vm_compute; discriminate].
  set (w := mkWorker (Limiter.new 1 1 1 0) []).
  assert ((λ x, (λ r, length (hash_queue r.1)) <$> handle_message (server x) w [100; 2] ex_remote ex_local (ex_input 2000000000)) <$> ex_final
    = Some (Some 2%nat)) as Hn by (vm_compute; reflexivity).
  assert ((λ x, length (hash_queue (server x))) <$> ex_final = Some 1%nat) as Hm by (vm_compute; reflexivity).
  rewrite Ex in Hn, Hm. simpl in Hn, Hm. injection Hn as Hn. injection Hm as Hm.
  destruct (handle_message (server x) w [100; 2] ex_remote ex_local (ex_input 2000000000)) as [[s' w']|] eqn:Es; [|discriminate].
  injection Hn as Hn. exists x, w, s', w'. split; [reflexivity|]. split; [exact Es|].
  destruct (announce_authentic (server x) s' w w' [100; 2] ex_remote ex_local (ex_input 2000000000) Es) as [Hq|Hq]; [|exact Hq].
  exfalso. simpl in Hn. rewrite Hq, Hm in Hn. discriminate.
Defined.

Lemma token_roundtrip_witness :
  ∃ x d v token, ex_final = Some x ∧ (ex_local, ex_remote, d) ∈ sent (server x)
    ∧ bdec 20 d = Some (v, []) ∧ token_of v = Some token
    ∧ (Some ex_token = Some token → hash_queue (handle_announce_peer (server x) ex_announce_args ex_remote 2000000000)
       = hash_queue (server x) ++ [announcement ex_announce_args ex_hash ex_remote 2000000000]).
Proof.
  destruct ex_final_ok as (x & Ex & Hok).
  assert ((λ x, (bool_decide (fst <$> sent (server x) = [(ex_local, ex_remote)]),
    (Z.of_nat (length (hash_queue (server x))) <? DiscoveryActor.hash_capacity (discovery (server x)),
     DiscoveryActor.filter_cb (discovery (server x))))) <$> ex_final = Some (true, (true, None))) as Hs by (vm_compute; reflexivity).
  rewrite Ex in Hs. simpl in Hs. injection Hs as Hs Hq Hf. apply bool_decide_eq_true_1 in Hs. apply Z.ltb_lt in Hq.
  destruct (sent (server x)) as [|[[l r] d] [|]] eqn:Hsent; [discriminate Hs| |discriminate Hs]. injection Hs as -> ->.
  destruct (token_roundtrip (end_time 0 ex_events) (server x) ex_local ex_remote ex_remote d ex_hash ex_announce_args 2000000000 Hok)
    as (v & token & Hv & Ht & Hann).
  - rewrite Hsent. constructor.
  - reflexivity.
  - exists x, d, v, token. split; [exact Ex|]. split; [rewrite Hsent; constructor|]. split; [exact Hv|]. split; [exact Ht|].
    intros Htok. apply Hann; [exact Htok|reflexivity|reflexivity| |reflexivity|exact Hq].
    unfold admitted_hash. rewrite Hf. exact I.
Defined.

End Server.
