(* ===== verification/Node.v ===== *)
(** * The composed node: the server and its metadata scheduler

    [DHTServer::new] of [src/server.rs] wires the scheduler to the rest: the
    hash channel that discovery and announcements fill is the scheduler's
    input, its published queue depth slows the crawl down, and its jobs ask
    the lookup actor for peers.  [Flow] follows a hash through the discovery
    actor into the channel, [Node] is the whole, in any interleaving of the
    tasks. *)

From S2P Require Import Prelude Net Float64 Budget Types HashQueue Retry Scheduler Routing NodeId Krpc Publish Discovery PeerLookup Crawl Server.

Local Open Scope Z_scope.

(** ** What the discovery actor puts into the hash channel *)

Module Flow.
Import DiscoveryActor.

Section flow.
Context (hex_encode : list Z → string).

(** An event names the hexadecimal form of a twenty-byte hash. *)
Definition named (ev : HashDiscovered) : Prop := ∃ h, NodeId.id20 h ∧ hd_info_hash ev = hex_encode h.

Definition sampled_bytes (r : SampleResponse) : Prop :=
  ∀ resp, sr_response r = Some resp → bytes_opt (r_samples resp).

Record carries (s : DiscoveryActor) : Prop := {
  ca_input : Forall (λ c, NodeId.id20 (hi_hash c)) (input_rx s);
  ca_response : Forall sampled_bytes (response_rx s);
  ca_hash : Forall named (hash_rx s);
}.

Definition chans (s : DiscoveryActor) := (input_rx s, response_rx s, hash_rx s).

(** A step that only appends to the hash channel. *)
Definition appends (s s' : DiscoveryActor) : Prop := carries s' ∧ hash_rx s `prefix_of` hash_rx s'.

Lemma appends_same s s' : carries s → chans s' = chans s → appends s s'.
Proof. intros [H1 H2 H3] [= Hi Hr Hh]. split; [constructor; congruence|by rewrite Hh]. Qed.

Lemma appends_trans s1 s2 s3 : appends s1 s2 → appends s2 s3 → appends s1 s3.
Proof. intros [_ ?] [? ?]. split; [done|by etrans]. Qed.

Lemma appends_hash s ev :
  carries s → named ev → appends s (set_channels s (input_rx s) (response_rx s) (hash_rx s ++ [ev])).
Proof. intros [] Hev. split; [constructor; try done; by apply Forall_app_2; [|constructor]|by apply prefix_app_r]. Qed.

Lemma chans_admit s n now : chans (admit_node s n now) = chans s.
Proof.
  assert (∀ s a t, chans (schedule s a t) = chans s) as Hs by (intros; unfold schedule; by case_match).
  unfold admit_node. repeat (case_match; try done); by rewrite Hs.
Qed.

Lemma chans_admits ns s now : chans (fold_left (λ s n, admit_node s n now) ns s) = chans s.
Proof. revert s; induction ns as [|n ns IH]; intros s; [done|]. simpl. by rewrite IH, chans_admit. Qed.

Lemma chans_rest s a u s' : enter_cooldown s a u = Some s' → chans s' = chans s.
Proof. unfold enter_cooldown. intros. repeat case_match; by simplify_eq/=. Qed.

Lemma emit_appends s h n src now :
  carries s → NodeId.id20 h → appends s (emit_hash hex_encode s h n src now).2.
Proof.
  intros Hc Hh. unfold emit_hash. destruct (HashDedup.contains _ _ _ _ _) as [dup d].
  destruct dup; [by apply appends_same|]. cbn zeta. destruct (RateBucket.try_take_one _ _) as [granted b].
  set (s1 := if bool_decide (src = GetPeers) then _ else _).
  assert (chans s1 = chans s) as Hs1 by (unfold s1; by case_bool_decide).
  assert (appends s s1) as Ha by by apply appends_same. clearbody s1.
  destruct granted; cbn [negb snd]; [|by apply appends_same].
  destruct (match filter_cb s1 with Some f => _ | None => false end); [done|].
  destruct (_ <? _); [|by apply appends_same]. eapply appends_trans; [exact Ha|].
  eapply appends_trans; [apply (appends_hash s1 (mkDiscovered (hex_encode h) None (Some n) src now))|].
  - apply Ha.
  - by exists h.
  - apply appends_same; [|done]. apply appends_hash; [apply Ha|]. by exists h.
Qed.

Lemma samples_append l s n now k :
  carries s → Forall NodeId.id20 l → appends s (sample_loop hex_encode l s n now k).2.
Proof.
  intros Hc Hl. revert s k Hc; induction Hl as [|h l Hh _ IH]; intros s k Hc; [by apply appends_same|].
  cbn [sample_loop]. destruct (HashDedup.contains _ _ _ _ _) as [known d]. cbn zeta.
  destruct (emit_appends (set_dedup s d) h n Sample now) as [Hc1 Hp1]; [by destruct Hc|done|].
  destruct (emit_hash _ _ _ _ _ _) as [x s1]. cbn [snd] in *.
  eapply appends_trans; [split; [exact Hc1|exact Hp1]|by apply IH].
Qed.

Lemma chunk_ids samples : Forall is_byte samples → Forall NodeId.id20 (take MAX_SAMPLES_PER_RESPONSE (chunks_exact 20 samples)).
Proof. intros H. apply Forall_take. apply (chunks_bytes 20); [lia|done]. Qed.

Lemma response_appends s ev now s' :
  carries s → sampled_bytes ev → handle_response hex_encode s ev now = Some s' → appends s s'.
Proof.
  intros Hc Hb E. unfold handle_response in E. destruct (negb _) in E; [by simplify_eq; apply appends_same|].
  set (s0 := set_pending s (delete (sr_addr ev) (pending s)) (next_tid s)) in E.
  assert (chans s0 = chans s) as H0 by done. clearbody s0.
  assert (∀ l u, enter_cooldown (note s0 l) (sr_addr ev) u = Some s' → appends s s') as Hrest.
  { intros l u Hu%chans_rest. apply appends_same; [done|]. by rewrite Hu. }
  destruct (sr_response ev) as [r|] eqn:Hr; [|by eapply Hrest]. specialize (Hb _ Hr).
  destruct (r_samples r) as [samples|]; [|by eapply Hrest].
  destruct (r_interval r) as [interval|]; [|by eapply Hrest]. destruct (r_num r); [|by eapply Hrest].
  destruct (match r_id r with Some i => if bool_decide (length i = 20%nat) then Some i else None | None => None end) as [i|];
    [|by eapply Hrest].
  case_match; [by eapply Hrest|]. destruct (nodes (note s0 _) !! _) as [entry|]; [|done].
  set (s1 := set_nodes _ _ _ _) in E. assert (appends s s1) as H1 by (apply appends_same; [done|exact H0]). clearbody s1.
  pose proof (samples_append (take MAX_SAMPLES_PER_RESPONSE (chunks_exact 20 samples)) s1 (mkNode i (sr_addr ev)) now 0
    (proj1 H1) (chunk_ids _ Hb)) as Hp.
  destruct (sample_loop _ _ _ _ _ _) as [novel s2]. cbn [snd] in Hp. apply (appends_trans s) in Hp; [|done].
  set (g := if _ && _ then _ else _) in E. assert (chans g.2 = chans s2) as Hg by (unfold g; by destruct (_ && _)).
  clearbody g. destruct g as [wait s3]. cbn [snd] in Hg. bind_inv E. injection E as <-. apply chans_rest in E0.
  eapply appends_trans; [exact Hp|]. apply appends_same; [apply Hp|]. by rewrite chans_admits, E0.
Qed.

(** The arms of the actor's own loop, and the filter the application sets. *)
Definition own (ev : event) : bool :=
  match ev with Tick _ _ | RecvResponse | RecvInput | SetFilter _ => true | _ => false end.

Lemma tick_chans `{Sampler} t s snap net now s' :
  actor_ok t s → t ≤ now → on_tick s snap net now = Some s' → chans s' = chans s.
Proof.
  intros (Hpl & _) _ E. destruct (on_tick_ok s snap net now Hpl) as (s1 & E1 & _ & Hio & _). rewrite E in E1. simplify_eq.
  unfold chans. congruence.
Qed.

Lemma own_appends `{Sampler} t s ev now s' :
  actor_ok t s → t ≤ now → carries s → own ev = true → handle_event hex_encode s ev now = Some s' → appends s s'.
Proof.
  intros Hok Hle Hc Hown E. unfold handle_event in E.
  destruct (spawned s ev); cbn [negb] in E; [|by simplify_eq; apply appends_same].
  destruct ev as [snap net| | | | | |f]; try done.
  - apply appends_same; [done|]. by eapply tick_chans.
  - destruct (response_rx s) as [|r q] eqn:Hr; [by simplify_eq; apply appends_same|].
    destruct Hc as [Hi Hb Hh]. rewrite Hr in Hb. apply Forall_cons in Hb as [Hb Hq].
    apply response_appends in E; [|by constructor|done]. exact E.
  - destruct (input_rx s) as [|c q] eqn:Hi; [by simplify_eq; apply appends_same|]. injection E as <-.
    destruct Hc as [Hin Hb Hh]. rewrite Hi in Hin. apply Forall_cons in Hin as [Hin Hq].
    exact (emit_appends (set_channels s q (response_rx s) (hash_rx s)) (hi_hash c) (hi_node c) GetPeers now
      ltac:(by constructor) Hin).
  - injection E as <-. by apply appends_same.
Qed.
End flow.
End Flow.

(** ** Which hashes and tasks the scheduler has *)

Module Trace.
Import PendingHashQueue (entries).
Import MetadataScheduler.

Section trace.
Context `{US : UnstableSort}.
Local Open Scope nat_scope.

Definition known (s : MetadataScheduler) (h : string) : Prop :=
  is_Some (entries (queue s) !! h) ∨ is_Some (in_flight s !! h).

(** Nothing new is known but the hashes of [new]. *)
Definition learns (new : list string) (s s' : MetadataScheduler) : Prop := ∀ h, known s' h → known s h ∨ h ∈ new.

Lemma learns_nothing s s' :
  (∀ h, entries (queue s) !! h = None → entries (queue s') !! h = None) → in_flight s' = in_flight s → learns [] s s'.
Proof.
  intros Hq Hf h [[e He]|Hh]; left; [left|right; by rewrite <-Hf].
  destruct (entries (queue s) !! h) eqn:Hs; [done|]. by rewrite Hq in He.
Qed.

Lemma learns_trans new s1 s2 s3 : learns [] s1 s2 → learns new s2 s3 → learns new s1 s3.
Proof. intros H1 H2 h [Hh|?]%H2; [|by right]. destruct (H1 h Hh) as [?|[]%not_elem_of_nil]. by left. Qed.

Lemma good_later q t t' : PendingHashQueue.good q t → (t ≤ t')%Z → PendingHashQueue.good q t'.
Proof. intros [] ?. split; try done. by eapply PendingHashQueue.queue_timely_mono. Qed.

(** Task ids are handed out in order. *)
Definition ids_below (s : MetadataScheduler) : Prop := ∀ i, is_Some (task_hashes s !! i) → i < next_task s.

Lemma spawn_tasks s e :
  ids_below s → task_hashes s ⊆ task_hashes (spawn_job s e) ∧ ids_below (spawn_job s e).
Proof.
  intros Hb. split.
  - apply insert_subseteq. destruct (task_hashes s !! next_task s) eqn:E; [|done].
    assert (next_task s < next_task s); [|lia]. apply Hb. by rewrite E.
  - intros i [x Hi]. cbn in *. apply lookup_insert_Some in Hi as [[<- _]|[_ Hi]]; [lia|].
    assert (i < next_task s); [|lia]. apply Hb. by rewrite Hi.
Qed.

Lemma popped_was_queued q now e q' :
  PendingHashQueue.popped_as q now (Some e) q' → is_Some (entries q !! info_hash e).
Proof.
  intros (He & _). unfold PendingHashQueue.selectable in He. rewrite lookup_fmap in He.
  apply fmap_Some in He as (e0 & He0 & _). apply map_lookup_filter_Some in He0 as [He0 _]. by rewrite He0.
Qed.

Lemma dispatch_loop_trace fuel k s t clk s' :
  PendingHashQueue.good (queue s) t → (t ≤ clk (3 * k)%nat)%Z → (∀ i j, i ≤ j → (clk i ≤ clk j)%Z) → ids_below s →
  dispatch_loop fuel k s clk = Some s' → learns [] s s' ∧ task_hashes s ⊆ task_hashes s'.
Proof.
  revert k s t. induction fuel as [|fuel IH]; intros k s t Hg Hk Hmono Hb E; [done|]. cbn [dispatch_loop] in E.
  case_bool_decide; [|simplify_eq; split; [by left|done]].
  set (t1 := clk (3 * k + 1)) in E. assert (t ≤ t1)%Z as Ht1 by (specialize (Hmono (3 * k) (3 * k + 1)); lia).
  assert (t1 ≤ clk (3 * S k)%nat)%Z as Hnext by (apply Hmono; lia).
  destruct (PendingHashQueue.pop_good (queue s) t1 (good_later _ _ _ Hg Ht1)) as (o & q' & Hp & Hg' & _ & _ & Has).
  rewrite Hp in E. cbn [fst snd] in E.
  assert (learns [] s (set_queue s q')) as Hpop by (apply learns_nothing; [intros h; by eapply popped_absent|done]).
  destruct o as [e|]; [|by simplify_eq; split]. apply popped_was_queued in Has as Hq.
  set (s1 := log_stat (set_queue s q') _) in E. set (ps := take _ _) in E.
  set (e1 := mkHash _ ps _ _ _ _ _ _ _ _ _) in E. case_match.
  - destruct (IH _ (count s1 0 1 0 0 [] [QueueStale 1]) t1 Hg' Hnext Hmono Hb E) as [Hl Ht]. split; [|exact Ht].
    by eapply learns_trans; [exact Hpop|].
  - set (s2 := if is_retry e1 then _ else _) in E.
    assert (queue s2 = q' ∧ in_flight s2 = in_flight s ∧ task_hashes s2 = task_hashes s ∧ next_task s2 = next_task s)
      as (Hq2 & Hf2 & Ht2 & Hn2) by (unfold s2; by case_match).
    clearbody s2. set (s3 := set_flight s2 _) in E. destruct (spawn_tasks s3 e1) as [Hsub Hb3].
    { intros i. cbn. rewrite Ht2, Hn2. apply Hb. }
    destruct (IH (S k) (spawn_job s3 e1) t1) as [Hl Ht]; try done; [cbn; by rewrite Hq2|]. split.
    + intros h Hh. destruct (Hl h Hh) as [[Hh'|[st Hh']]|?]; [| |by right].
      * cbn in Hh'. rewrite Hq2 in Hh'. apply Hpop. by left.
      * cbn in Hh'. rewrite Hf2 in Hh'. apply lookup_insert_Some in Hh' as [[<- _]|[_ Hh']]; left; [by left|right].
        by rewrite Hh'.
    + etrans; [|exact Ht]. etrans; [|exact Hsub]. cbn. by rewrite Ht2.
Qed.

Lemma dispatch_trace s t clk now s' :
  inv s t → clock_ok t clk now → dispatch_ready s clk = Some s' → learns [] s s' ∧ task_hashes s ⊆ task_hashes s'.
Proof.
  intros Hinv (C1 & C2 & C3) E. unfold dispatch_ready in E. pose proof (inv_later _ _ _ Hinv C1) as Hinv0.
  destruct (inv_queue _ _ Hinv0) as [Hw Ht Hfd].
  destruct (PendingHashQueue.promote_ready_spec (queue s) (clk 0) Hw) as (q & Hpr & Hwq & Heq & (F1 & F2 & F3 & F4)).
  rewrite Hpr in E. destruct (dispatch_loop_trace (S (size (entries q))) 0 (set_queue s q) (clk 0) clk s') as [Hl Hs]; try done.
  - split; [done| |cbn; by rewrite F4]. intros h e. cbn. rewrite Heq, lookup_fmap. intros (e0 & He0 & ->)%fmap_Some.
    unfold PendingHashQueue.promoted. simpl. destruct (ready e0) eqn:Hr; simpl; [|by intros ?%bool_decide_unpack].
    intros _. apply (Ht h e0 He0). by rewrite Hr.
  - exact (inv_ids s t Hinv).
  - split; [|done]. eapply learns_trans; [|exact Hl]. apply learns_nothing; [|done].
    intros h Hn. cbn. by rewrite Heq, lookup_fmap, Hn.
Qed.

Lemma enqueue_trace s hash taken closed now s' :
  inv s now → (PendingHashQueue.sequence (queue s) + 2 ≤ u64_max)%Z → enqueue s hash taken closed now = Some s' →
  learns [hd_info_hash hash] s s' ∧ task_hashes s' = task_hashes s.
Proof.
  intros Hinv Hseq E. unfold enqueue in E. cbn [in_flight count] in E.
  destruct (in_flight s !! hd_info_hash hash) as [st|] eqn:Hfl.
  - case_bool_decide; injection E as <-; [split; [by left|done]|]. split; [|done].
    intros h [Hh|[st' Hh]]; [by left; left|]. cbn in Hh.
    apply lookup_insert_Some in Hh as [[<- _]|[_ Hh]]; left; right; [by rewrite Hfl|by rewrite Hh].
  - destruct (RetryHistory.observe_event_cases (metadata_options s) (retry_history s) hash now (inv_history s now Hinv))
      as (o & h' & Hobs & _). cbn [retry_history metadata_options count] in E. rewrite Hobs in E.
    set (ex := match o with Some record => _ | None => false end) in E.
    destruct ex; [injection E as <-; split; [by left|done]|].
    set (s1 := match entries _ !! _ with Some e => _ | None => _ end) in E.
    assert (queue s1 = queue s ∧ in_flight s1 = in_flight s ∧ task_hashes s1 = task_hashes s) as (Hq1 & Hf1 & Ht1).
    { unfold s1. by repeat case_match. }
    clearbody s1. rewrite Hq1 in E. destruct (inv_queue s now Hinv) as [Hw Ht Hfd].
    destruct (PendingHashQueue.push_cases (queue s) hash now Hw Ht ltac:(lia))
      as (kind & q & Hpush & Hwq & Htq & _ & _ & _ & Hsq & Has).
    rewrite Hpush in E. set (q2 := match o with Some record => _ | None => q end) in E.
    assert (∀ h, h ≠ hd_info_hash hash → entries q !! h = None → entries q2 !! h = None) as Hq2.
    { unfold q2. destruct o as [rec|]; [|done].
      destruct (PendingHashQueue.queue_remove_spec q (hd_info_hash hash)) as (R1 & R2 & _ & _ & R5 & _).
      pose proof (PendingHashQueue.remove_wf q (hd_info_hash hash) Hwq) as X1.
      pose proof (PendingHashQueue.remove_timely q (hd_info_hash hash) now Htq) as X2.
      destruct (PendingHashQueue.remove q (hd_info_hash hash)) as [oe q1]. cbn [fst snd] in *.
      assert (∀ h, entries q !! h = None → entries q1 !! h = None) as Hq1n.
      { intros h Hh. rewrite R2. by apply PendingHashQueue.delete_remove_insert. }
      destruct oe as [e|]; [|by auto].
      destruct (PendingHashQueue.wf_entry q Hwq (hd_info_hash hash) e) as (Hih & _ & _ & Hok); [done|].
      destruct (PendingHashQueue.defer_cases q1 e rec now X1 X2 Hok ltac:(lia)) as (_ & _ & _ & _ & _ & _ & D7 & _).
      intros h Hne Hh. rewrite Hih in D7. by rewrite (entries_delete_eq _ _ _ h D7), Hq1n. }
    clearbody q2. injection E as <-. destruct (record_push_fields (set_queue s1 q2) kind) as (F1 & F2 & _).
    split; [|destruct kind; exact Ht1]. intros h [[e Hh]|Hh].
    + rewrite F1 in Hh. destruct (decide (h = hd_info_hash hash)) as [->|Hne]; [right; by apply list_elem_of_singleton|].
      left. left. destruct (entries (queue s) !! h) eqn:Hs; [done|]. cbn in Hh.
      rewrite Hq2 in Hh; [done|done|]. by eapply push_adds.
    + rewrite F2 in Hh. left. right. cbn in Hh. by rewrite <-Hf1.
Qed.

Lemma retry_trace s e failed delay now s' :
  inv s now → PendingHashQueue.entry_ok e → (PendingHashQueue.sequence (queue s) + 1 ≤ u64_max)%Z →
  schedule_retry s e failed delay now = Some s' →
  (∀ h, h ≠ info_hash e → entries (queue s') !! h = entries (queue s) !! h)
  ∧ in_flight s' = in_flight s ∧ task_hashes s' = task_hashes s.
Proof.
  intros Hinv Hok Hseq E. unfold schedule_retry in E. case_bool_decide; [by simplify_eq|].
  destruct (_ && _); [by simplify_eq|]. bind_inv E. destruct p as [o h].
  destruct o as [rec|]; [|by simplify_eq]. destruct (_ || _); [by simplify_eq|].
  destruct (inv_queue _ _ Hinv) as [Hw Ht Hfd].
  destruct (PendingHashQueue.defer_cases (queue s) e rec now Hw Ht Hok ltac:(lia)) as (_ & _ & _ & _ & _ & _ & D7 & _).
  cbn [queue set_history] in E. destruct (PendingHashQueue.defer (queue s) e rec) as [ok q]. injection E as <-.
  split; [|done]. intros h' Hne. by apply (entries_delete_eq _ _ _ h' D7).
Qed.

Lemma result_trace s id h attempts o cb now s' :
  inv s now → task_hashes s !! id = Some h → (PendingHashQueue.sequence (queue s) + 1 ≤ u64_max)%Z →
  handle_job_result (set_tasks s (delete id (task_hashes s)) (next_task s)) (mkResult h attempts o) cb now = Some s' →
  learns [] s s' ∧ task_hashes s' = delete id (task_hashes s).
Proof.
  intros Hinv Hid Hseq E. pose proof (leave_flight _ _ _ _ Hinv Hid) as Hinv1.
  assert (is_Some (in_flight s !! h)) as [st Hst] by (apply (inv_tasks _ _ Hinv); eauto).
  destruct (inv_flight _ _ Hinv h st Hst) as (Hih & Hok & _).
  destruct (PendingHashQueue.queue_remove_spec (queue s) h) as (_ & R2 & _ & _ & R5 & _).
  unfold handle_job_result in E. cbn [in_flight set_tasks jr_info_hash jr_outcome jr_attempts] in E. rewrite Hst in E.
  set (s1 := set_queue (set_flight _ _) _) in *.
  assert (learns [] s s1 ∧ task_hashes s1 = delete id (task_hashes s)
    ∧ PendingHashQueue.sequence (queue s1) = PendingHashQueue.sequence (queue s)) as (Hl1 & Ht1 & Hs1).
  { split_and!; [|done|exact R5]. intros h' [[e Hh]|[st' Hh]]; left.
    - left. cbn in Hh. rewrite R2 in Hh. apply lookup_delete_Some in Hh as [_ Hh]. by rewrite Hh.
    - right. cbn in Hh. apply lookup_delete_Some in Hh as [_ Hh]. by rewrite Hh. }
  clearbody s1.
  assert (∀ s2 failed delay, inv s2 now → queue s2 = queue s1 → in_flight s2 = in_flight s1 → task_hashes s2 = task_hashes s1 →
    schedule_retry s2 (entry st) failed delay now = Some s' → learns [] s s' ∧ task_hashes s' = delete id (task_hashes s)) as Hretry.
  { intros s2 failed delay Hi2 Hq2 Hf2 Ht2 E2. rewrite <-Hs1, <-Hq2 in Hseq.
    destruct (retry_trace _ _ _ _ _ _ Hi2 Hok Hseq E2) as (Q & F & T). split; [|congruence].
    intros h' [Hh|Hh].
    - destruct (decide (h' = h)) as [->|Hne]; [left; right; by rewrite Hst|].
      rewrite Q, Hq2 in Hh by congruence. apply Hl1. by left.
    - rewrite F, Hf2 in Hh. apply Hl1. by right. }
  destruct o as [|delay|status].
  - injection E as <-. split; [exact Hl1|exact Ht1].
  - apply (Hretry _ _ _ (inv_count _ _ _ _ _ _ _ _ Hinv1) eq_refl eq_refl eq_refl E).
  - case_bool_decide; [injection E as <-; split; [exact Hl1|exact Ht1]|].
    apply (Hretry _ _ _ (inv_count _ _ _ _ _ _ _ _ Hinv1) eq_refl eq_refl eq_refl E).
Qed.

(** The hash an arm brings in. *)
Definition arrivals (ev : event) : list HashDiscovered := match ev with HashReceived d _ _ => [d] | _ => [] end.

Lemma event_trace s ev now s' :
  inv s now → (PendingHashQueue.sequence (queue s) + 2 ≤ u64_max)%Z → handle_event s ev now = Some s' →
  learns (hd_info_hash <$> arrivals ev) s s' ∧ task_hashes s' ⊆ task_hashes s.
Proof.
  intros Hinv Hseq E. destruct ev as [hash tk cl| |id n o cb|id cb| | |]; cbn [handle_event] in E.
  - destruct (input_closed s); [simplify_eq; split; [by left|done]|].
    destruct (enqueue_trace _ _ _ _ _ _ Hinv Hseq E) as [Hl Ht]. split; [exact Hl|by rewrite Ht].
  - simplify_eq. split; [by left|done].
  - destruct (task_hashes s !! id) as [h|] eqn:Hid; [|simplify_eq; split; [by left|done]].
    destruct (result_trace _ _ _ _ _ _ _ _ Hinv Hid ltac:(lia) E) as [Hl Ht]. split; [exact Hl|]. rewrite Ht. apply delete_subseteq.
  - destruct (task_hashes s !! id) as [h|] eqn:Hid; [|simplify_eq; split; [by left|done]].
    destruct (result_trace _ _ _ _ _ _ _ _ Hinv Hid ltac:(lia) E) as [Hl Ht]. split; [exact Hl|]. rewrite Ht. apply delete_subseteq.
  - simplify_eq. split; [by left|done].
  - destruct (inv_queue _ _ Hinv) as [Hw _ _].
    destruct (PendingHashQueue.queue_expire_spec (queue s) now Hw) as (r & q & Hx & _ & Heq & _). rewrite Hx in E. injection E as <-.
    cbn [fst snd]. assert (learns [] s (set_queue s q)) as Hl.
    { apply learns_nothing; [|done]. intros h Hn. cbn. rewrite Heq. unfold PendingHashQueue.live. by rewrite map_lookup_filter, Hn. }
    by case_bool_decide.
  - injection E as <-. split; [|apply map_empty_subseteq]. intros h [[? Hh]|[? Hh]]; cbn in Hh; by rewrite lookup_empty in Hh.
Qed.

(** The loop is left only by a shutdown, or at its end once the input ended. *)
Lemma retry_mode s e failed delay now s' : schedule_retry s e failed delay now = Some s' → mode s' = mode s.
Proof.
  unfold schedule_retry. intros E. repeat case_match; by simplify_eq.
Qed.

Lemma result_mode s r cb now s' : handle_job_result s r cb now = Some s' → mode s' = mode s.
Proof.
  unfold handle_job_result. intros E. repeat case_match; try (by simplify_eq); apply retry_mode in E; by rewrite E.
Qed.

Lemma push_mode s k : mode (record_queue_push s k) = mode s.
Proof. by destruct k. Qed.

Lemma enqueue_mode s hash tk cl now s' : enqueue s hash tk cl now = Some s' → mode s' = mode s.
Proof.
  unfold enqueue. intros E. destruct (in_flight _ !! _) as [st|].
  { by case_bool_decide; injection E as <-. }
  bind_inv E. destruct p as [record h]. set (ex := match record with Some _ => _ | None => _ end) in E.
  destruct ex; [by simplify_eq|]. set (s1 := match entries _ !! _ with Some e => _ | None => _ end) in E.
  assert (mode s1 = mode s) as H1 by (unfold s1; by repeat case_match). clearbody s1.
  bind_inv E. destruct p as [kind q]. injection E as <-. by rewrite push_mode.
Qed.

Lemma event_mode s ev now s' :
  handle_event s ev now = Some s' → ev ≠ InputClosed → ev ≠ Shutdown → mode s' = mode s.
Proof.
  intros E Hi Hs. destruct ev as [hash tk cl| |id n o cb|id cb| | |]; try done; cbn [handle_event] in E.
  - destruct (input_closed s); [by simplify_eq|by apply enqueue_mode in E].
  - case_match; [|by simplify_eq]. by apply result_mode in E.
  - case_match; [|by simplify_eq]. by apply result_mode in E.
  - by simplify_eq.
  - bind_inv E. injection E as <-. by case_bool_decide.
Qed.

Lemma dispatch_mode s clk s' : dispatch_ready s clk = Some s' → mode s' = mode s.
Proof.
  unfold dispatch_ready. intros E. bind_inv E. change (mode s) with (mode (set_queue s p)).
  generalize dependent (set_queue s p). generalize 0 at 1. generalize (S (size (entries p))).
  intros fuel. induction fuel as [|fuel IH]; intros k s1 E; [done|]. cbn [dispatch_loop] in E.
  case_bool_decide; [|by simplify_eq]. bind_inv E. destruct p0 as [[e|] q]; cbn [fst snd] in E; [|by simplify_eq].
  case_match; apply IH in E; [exact E|]. rewrite E. by case_match.
Qed.
End trace.
End Trace.

(** ** The depth that slows the crawl down *)

Module Depth.
Import PendingHashQueue.

(** A retry that still waits: it takes storage but is not work to do. *)
Definition cooling (p : string * QueuedHash) : Prop := is_retry p.2 = true ∧ ready p.2 = false.

#[global] Instance cooling_dec p : Decision (cooling p).
Proof. apply _. Defined.

Lemma filter_sizes {A} (P : string * A → Prop) `{∀ x, Decision (P x)} (m : gmap string A) :
  (size m = size (filter P m) + size (filter (λ x, ¬ P x) m))%nat.
Proof.
  rewrite <-(map_filter_union_complement P m) at 1. apply map_size_disj_union, map_disjoint_filter_complement.
Qed.

(** [pressure_len] counts exactly the entries that are not cooling. *)
Lemma pressure_len_exact q : wf q → pressure_len q = size (filter (λ p, ¬ cooling p) (entries q)).
Proof.
  intros Hwf. unfold pressure_len. rewrite (index_size _ _ _ (wf_retry _ Hwf)), (index_size _ _ _ (wf_ready_retry _ Hwf)).
  set (R := filter _ (entries q)). set (RR := filter (λ p, is_Some (k_ready_retry _)) (entries q)).
  pose proof (filter_sizes cooling (entries q)) as H1. pose proof (filter_sizes cooling R) as H2.
  assert (filter cooling R = filter cooling (entries q)) as E1.
  { unfold R. rewrite map_filter_filter. apply map_filter_ext. intros h e _. unfold cooling, k_retry. simpl.
    destruct (is_retry e); naive_solver. }
  assert (filter (λ x, ¬ cooling x) R = RR) as E2.
  { unfold R, RR. rewrite map_filter_filter. apply map_filter_ext. intros h e _. unfold cooling, k_retry, k_ready_retry. simpl.
    destruct (is_retry e), (ready e); naive_solver. }
  rewrite E1, E2 in H2. assert (size R ≤ size (entries q))%nat by (apply map_subseteq_size, map_filter_subseteq). lia.
Qed.
End Depth.

(** ** The node *)

Module Node.
Import Server.

(** Where the loop of [MetadataScheduler::run] stands: at its head, between
    the two stores of the queue depth, or in [select!]. *)
Inductive Phase := Dispatching | Syncing | Waiting.

(** The part of [MetadataJob] its lookup needs, and whether it was submitted. *)
Record MetadataJob := mkJob { job_info_hash : string; job_source_nodes : list NodeTuple; job_submitted : bool }.

(** The state of the process.  [received] and [requested] are bookkeeping of
    the model: the hashes the scheduler took from the channel and the lookups
    its jobs asked for. *)
Record Node := mk {
  system : System;
  scheduler : MetadataScheduler.MetadataScheduler;
  phase : Phase;
  metadata_queue_len : Z;
  jobs : gmap nat MetadataJob;
  received : list HashDiscovered;
  requested : list PeerLookup.PeerLookupRequest;
}.

(** The arms of the scheduler's [select!], while the process runs: the server
    holds the sending end of the channel, so that the input does not end, and
    no shutdown comes. *)
Inductive arm :=
  | RecvHash (taken : nat) (closed : bool)
  | Joined (id attempts : nat) (outcome : JobOutcome) (cb : bool)
  | Panicked (id : nat) (cb : bool)
  | DispatchTick
  | Maintenance
  | StatsTick.

Inductive event :=
  | ServerTurn (ev : Server.event)
  | Dispatch (clk : nat → Instant) (now : Instant)
  | Publish
  | Select (a : arm) (now : Instant)
  | SubmitLookup (id : nat).

Section node.
Context {DEC : Decoder} {HSH : Hashing} {SMP : Sampler} {US : UnstableSort}.

(** The crate's [hex::decode]. *)
Context (hex_decode : string → option (list Z)).

(** The scheduler [DHTServer::new] builds. *)
Definition new_scheduler (o : DHTOptions) : MetadataScheduler.MetadataScheduler :=
  MetadataScheduler.new (Z.to_nat (mo_max_queue_size (dh_metadata o))) (Z.to_nat (mo_max_worker_count (dh_metadata o)))
    (dh_metadata o) true.

Definition start (o : DHTOptions) (nid secret : list Z) (num_workers : nat) (now : Instant)
  : option Node :=
  let! x := Server.start o nid secret num_workers now in
  Some (mk x (new_scheduler o) Dispatching 0 ∅ [] []).

(** The crawl reads the depth the scheduler stored last. *)
Definition with_depth (depth : Z) (ev : Server.event) : Server.event :=
  match ev with
  | CrawlTurn (Publish.ActorTurn x) =>
      match CrawlActor.st_event x with
      | CrawlActor.ScheduleTick _ =>
          CrawlTurn (Publish.ActorTurn (CrawlActor.mkStep (CrawlActor.ScheduleTick depth) (CrawlActor.st_rnd x)
            (CrawlActor.st_el x) (CrawlActor.st_now x) (CrawlActor.st_clk x) (CrawlActor.st_fin x)))
      | _ => ev
      end
  | _ => ev
  end.

(** The jobs of the tasks in the set; one that was just spawned got the source
    nodes its entry had. *)
Definition sync_jobs (js : gmap nat MetadataJob) (s : MetadataScheduler.MetadataScheduler) : gmap nat MetadataJob :=
  map_imap (λ id h,
    match js !! id with
    | Some j => Some j
    | None => (λ st, mkJob h (source_nodes (MetadataScheduler.entry st)) false) <$> MetadataScheduler.in_flight s !! h
    end) (MetadataScheduler.task_hashes s).

Definition channel (n : Node) : list HashDiscovered := hash_queue (server (system n)).

(** The event an arm stands for; receiving needs something in the channel. *)
Definition arm_event (n : Node) (a : arm) : option MetadataScheduler.event :=
  match a with
  | RecvHash taken closed => (λ h, MetadataScheduler.HashReceived h taken closed) <$> head (channel n)
  | Joined id attempts o cb => Some (MetadataScheduler.TaskJoined id attempts o cb)
  | Panicked id cb => Some (MetadataScheduler.TaskPanicked id cb)
  | DispatchTick | StatsTick => Some MetadataScheduler.DispatchTick
  | Maintenance => Some MetadataScheduler.Maintenance
  end.

(** [hash_rx.recv()] takes the head and reports what is left. *)
Definition take_hash (x : System) : System :=
  let s := server x in
  let d := discovery s in
  let rest := drop 1 (DiscoveryActor.hash_rx d) in
  let s := set_discovery s (DiscoveryActor.set_channels d (DiscoveryActor.input_rx d) (DiscoveryActor.response_rx d) rest) in
  mkSystem (note s [("set_hash_ingress_queue_depth", Z.of_nat (length rest))]) (workers x).

(** A job hands its request to the lookup actor, once. *)
Definition submit_lookup (n : Node) (id : nat) : Node :=
  match jobs n !! id with
  | Some j =>
      if job_submitted j then n
      else
        match hex_decode (job_info_hash j) with
        | Some bytes =>
            if bool_decide (length bytes = 20%nat) then
              let s := server (system n) in
              let r := PeerLookup.mkRequest bytes (job_source_nodes j) in
              let s :=
                if Z.of_nat (length (PeerLookup.request_rx (peer_lookup s))) <? PeerLookup.REQUEST_CHANNEL_CAPACITY
                then set_lookup s (PeerLookup.submit (peer_lookup s) r)
                else note s [("lookup_request_queue_full", 1)] in
              mk (mkSystem s (workers (system n))) (scheduler n) (phase n) (metadata_queue_len n)
                 (<[id := mkJob (job_info_hash j) (job_source_nodes j) true]> (jobs n)) (received n) (requested n ++ [r])
            else n
        | None => n
        end
  | None => n
  end.

(** One step of one task; a step the scheduler is not at is none. *)
Definition handle_event (n : Node) (ev : event) : option Node :=
  match ev, phase n with
  | ServerTurn ev, _ =>
      let! x := Server.handle_event (system n) (with_depth (metadata_queue_len n) ev) in
      Some (mk x (scheduler n) (phase n) (metadata_queue_len n) (jobs n) (received n) (requested n))
  | Dispatch clk _, Dispatching =>
      let! s := MetadataScheduler.dispatch_ready (scheduler n) clk in
      Some (mk (system n) s Syncing
        (Z.of_nat (size (PendingHashQueue.entries (MetadataScheduler.queue s)) + size (MetadataScheduler.in_flight s)))
        (sync_jobs (jobs n) s) (received n) (requested n))
  | Publish, Syncing =>
      Some (mk (system n) (scheduler n) Waiting (Z.of_nat (MetadataScheduler.published_depth (scheduler n)))
        (jobs n) (received n) (requested n))
  | Select a now, Waiting =>
      match arm_event n a with
      | Some e =>
          let! s := MetadataScheduler.handle_event (scheduler n) e now in
          Some (mk (match a with RecvHash _ _ => take_hash (system n) | _ => system n end) s Dispatching
            (metadata_queue_len n) (sync_jobs (jobs n) s) (received n ++ Trace.arrivals e) (requested n))
      | None => Some n
      end
  | SubmitLookup id, _ => Some (submit_lookup n id)
  | _, _ => Some n
  end.

Fixpoint run (n : Node) (evs : list event) : option Node :=
  match evs with [] => Some n | ev :: evs => let! n := handle_event n ev in run n evs end.

(** *** Messages and the hash channel *)

Local Notation appends := (Flow.appends hex_encode).
Local Notation carries := (Flow.carries hex_encode).

Lemma info_hash20 args h h' : args_ok args → a_info_hash args = Some h → array20 h = Some h' → NodeId.id20 h'.
Proof. intros (_ & _ & Hb & _) Ha [-> Hl]%array20_ok. rewrite Ha in Hb. by split. Qed.

Lemma announce_appends s args a now :
  carries (discovery s) → args_ok args → appends (discovery s) (discovery (handle_announce_peer s args a now)).
Proof.
  intros Hc Hargs. unfold handle_announce_peer. destruct (a_token args); [|by apply Flow.appends_same].
  destruct (negb _); [by apply Flow.appends_same|]. destruct (a_info_hash args) as [h|] eqn:Ha; [|by apply Flow.appends_same].
  destruct (array20 h) as [h'|] eqn:Hh; [|by apply Flow.appends_same].
  destruct (match DiscoveryActor.filter_cb _ with Some _ => _ | None => _ end); [by apply Flow.appends_same|].
  destruct (_ <? _); [|by apply Flow.appends_same]. cbn zeta. destruct (_ <? _); [|by apply Flow.appends_same].
  apply Flow.appends_hash; [done|]. exists h'. split; [by eapply info_hash20|done].
Qed.

Lemma input_appends d h nd : carries d → NodeId.id20 h → appends d (DiscoveryActor.observe_get_peers d h nd).
Proof.
  intros [Hi Hr Hh] Hid. unfold DiscoveryActor.observe_get_peers. cbn zeta.
  destruct (do_enabled _); [|by apply Flow.appends_same]. destruct (_ <? _); [|by apply Flow.appends_same].
  split; [|done]. constructor; try done. by apply Forall_app_2; [|constructor].
Qed.

Lemma routed_appends d a tid r :
  carries d → (∀ resp, r = Some resp → bytes_opt (r_samples resp)) → appends d (DiscoveryActor.route_response d a tid r).
Proof.
  intros [Hi Hr Hh] Hb. unfold DiscoveryActor.route_response.
  destruct (do_enabled _); [|by apply Flow.appends_same]. destruct (_ <? _); [|by apply Flow.appends_same].
  split; [|done]. constructor; try done. by apply Forall_app_2; [|constructor].
Qed.

Lemma observe_appends s q args a now :
  carries (discovery s) → args_ok args → appends (discovery s) (discovery (observe_query s q args a now)).
Proof.
  intros Hc Hargs. unfold observe_query. case_bool_decide; [by apply announce_appends|].
  destruct (_ && _); [|by apply Flow.appends_same].
  destruct (a_info_hash args) as [h|] eqn:Ha; [|by apply Flow.appends_same].
  destruct (array20 h) as [h'|] eqn:Hh; [|by apply Flow.appends_same].
  destruct (match a_id args with Some i => array20 i | None => None end); [|by apply Flow.appends_same].
  apply input_appends; [done|]. by eapply info_hash20.
Qed.

Lemma message_appends s w data remote local i s' w' :
  Forall is_byte data → carries (discovery s) → handle_message s w data remote local i = Some (s', w') →
  appends (discovery s) (discovery s').
Proof.
  intros Hd Hc E. unfold handle_message in E. destruct (negb _); [by simplify_eq; apply Flow.appends_same|].
  destruct (from_bytes data) as [m|] eqn:Hm; [|by simplify_eq; apply Flow.appends_same].
  destruct (from_bytes_ok data m Hd Hm) as (_ & _ & Hargs & Hresp).
  case_bool_decide.
  { destruct (m_q m) as [q|]; [|by simplify_eq; apply Flow.appends_same]. unfold handle_query in E.
    destruct (m_a m) as [args|]; [|by simplify_eq; apply Flow.appends_same]. apply send_discovery in E. rewrite E.
    assert (discovery (discover_sender (note s [inbound_query q]) args remote) = discovery s) as Hs.
    { unfold discover_sender. by repeat case_match. }
    rewrite <-Hs. apply observe_appends; [by rewrite Hs|by apply Hargs]. }
  case_bool_decide.
  { destruct (m_r m) as [r|]; [|by simplify_eq; apply Flow.appends_same].
    destruct (NodeId.transaction_id_from_bytes _); [|by simplify_eq; apply Flow.appends_same].
    injection E as <- <-. unfold route_reply. repeat case_match; try by apply Flow.appends_same.
    apply routed_appends; [done|]. intros ? [= <-]. by apply Hresp. }
  case_bool_decide; [|by simplify_eq; apply Flow.appends_same].
  destruct (NodeId.transaction_id_from_bytes _); [|by simplify_eq; apply Flow.appends_same].
  injection E as <- <-. case_match; [|by apply Flow.appends_same]. by apply routed_appends.
Qed.

(** A task acts through the arms of its own loop. *)
Definition own_event (ev : Server.event) : bool :=
  match ev with
  | Message _ _ _ _ _ => true
  | CrawlTurn (Publish.SnapshotTick _) => true
  | CrawlTurn (Publish.ActorTurn x) =>
      match CrawlActor.st_event x with CrawlActor.RouteDiscovered _ | CrawlActor.RouteResponse _ _ _ => false | _ => true end
  | DiscoveryTurn ev _ => Flow.own ev
  | LookupTurn x =>
      match PeerLookup.sp_event x with PeerLookup.Submit _ | PeerLookup.RouteResponse _ _ _ => false | _ => true end
  end.

Lemma server_appends t x ev x' :
  server_ok t (server x) → event_ok t ev → own_event ev = true → carries (discovery (server x)) →
  Server.handle_event x ev = Some x' → appends (discovery (server x)) (discovery (server x')).
Proof.
  intros Hok Hev Hown Hc E. destruct ev as [w data remote local i|e|ev now|l]; cbn [Server.handle_event] in E.
  - destruct (workers x !! w); [|by simplify_eq; apply Flow.appends_same]. bind_inv E. injection E as <-.
    destruct p as [s' w']. eapply message_appends; [|done|exact E0]. apply Hev.
  - bind_inv E. injection E as <-. by apply Flow.appends_same.
  - bind_inv E. injection E as <-. eapply Flow.own_appends; [by eapply so_discovery|exact Hev|done| |exact E0].
    by destruct ev.
  - bind_inv E. injection E as <-. by apply Flow.appends_same.
Qed.

(** *** Histories *)

Definition event_end (t : Instant) (ev : event) : Instant :=
  match ev with
  | ServerTurn ev => Server.event_end ev
  | Dispatch _ now | Select _ now => now
  | Publish | SubmitLookup _ => t
  end.

Definition event_ok (t : Instant) (ev : event) : Prop :=
  match ev with
  | ServerTurn ev => Server.event_ok t ev ∧ own_event ev = true
  | Dispatch clk now => MetadataScheduler.clock_ok t clk now
  | Select _ now => t ≤ now
  | Publish | SubmitLookup _ => True
  end.

Fixpoint events_ok (t : Instant) (evs : list event) : Prop :=
  match evs with [] => True | ev :: evs => event_ok t ev ∧ events_ok (event_end t ev) evs end.

Definition end_time (t : Instant) (evs : list event) : Instant := foldl event_end t evs.

Definition server_events (evs : list event) : list Server.event :=
  omap (λ ev, match ev with ServerTurn ev => Some ev | _ => None end) evs.

(** All hashes that entered the channel, in order. *)
Definition stream (n : Node) : list HashDiscovered := received n ++ channel n.

(** The counters last for the events to come. *)
Definition lasts (evs : list event) (n : Node) : Prop :=
  room (crawl_turns (server_events evs)) (lookup_turns (server_events evs)) (server (system n))
  ∧ PendingHashQueue.sequence (MetadataScheduler.queue (scheduler n)) + 2 * Z.of_nat (length evs) ≤ u64_max.

(** A lookup is for a hash the scheduler received. *)
Definition sought (n : Node) (r : PeerLookup.PeerLookupRequest) : Prop :=
  NodeId.id20 (PeerLookup.rq_info_hash r) ∧ hex_encode (PeerLookup.rq_info_hash r) ∈ hd_info_hash <$> received n.

Record node_ok (t : Instant) (n : Node) : Prop := {
  no_server : server_ok t (server (system n));
  no_scheduler : MetadataScheduler.inv (scheduler n) t;
  no_carries : carries (discovery (server (system n)));
  no_received : Forall (Flow.named hex_encode) (received n);
  no_known : ∀ h, Trace.known (scheduler n) h → h ∈ hd_info_hash <$> received n;
  no_jobs : ∀ id, job_info_hash <$> jobs n !! id = MetadataScheduler.task_hashes (scheduler n) !! id;
  no_requested : Forall (sought n) (requested n);
  no_depth : phase n = Waiting → metadata_queue_len n = Z.of_nat (MetadataScheduler.published_depth (scheduler n));
  no_bound : 0 ≤ metadata_queue_len n
    ≤ Z.of_nat (PendingHashQueue.capacity (MetadataScheduler.queue (scheduler n)) + MetadataScheduler.max_concurrent (scheduler n));
}.

(** What every step keeps. *)
Definition advances (n n' : Node) : Prop :=
  MetadataScheduler.same_limits (scheduler n) (scheduler n') ∧ received n `prefix_of` received n' ∧ stream n `prefix_of` stream n'.

Lemma advances_refl n : advances n n.
Proof. by split; [split_and!|]. Qed.

Lemma advances_trans n1 n2 n3 : advances n1 n2 → advances n2 n3 → advances n1 n3.
Proof. intros (? & ? & ?) (? & ? & ?). split; [by eapply MetadataScheduler.same_limits_trans|]. split; by etrans. Qed.

Lemma with_depth_same d ev t :
  (Server.event_ok t ev → Server.event_ok t (with_depth d ev)) ∧ Server.event_end (with_depth d ev) = Server.event_end ev
  ∧ own_event (with_depth d ev) = own_event ev
  ∧ (∀ evs, crawl_turns (with_depth d ev :: evs) = crawl_turns (ev :: evs)
      ∧ lookup_turns (with_depth d ev :: evs) = lookup_turns (ev :: evs)).
Proof.
  destruct ev as [| [x|]| |]; try done. cbn [with_depth]. destruct (CrawlActor.st_event x) eqn:E; try done.
  split_and!; [|done| |done].
  - intros [Hc [Hr _]]. split; [exact Hc|]. by split.
  - cbn [own_event CrawlActor.st_event]. by rewrite E.
Qed.

Lemma event_le t ev : event_ok t ev → t ≤ event_end t ev.
Proof.
  destruct ev as [ev|clk now| |a now|id]; cbn; try done.
  - intros [Hev _]. destruct ev as [|x| |l]; cbn in *; [lia|by apply Publish.turn_ok_le|done|].
    destruct Hev as (? & Henv & _). pose proof (PeerLookup.eo_order_ok _ _ _ Henv). lia.
  - intros (? & _ & Hn). specialize (Hn 0%nat). lia.
Qed.

Lemma server_turn_ok t n ev evs :
  node_ok t n → lasts (ServerTurn ev :: evs) n → event_ok t (ServerTurn ev) →
  ∃ n', handle_event n (ServerTurn ev) = Some n' ∧ node_ok (Server.event_end ev) n' ∧ lasts evs n' ∧ advances n n'.
Proof.
  intros [] [Hro Hseq] Hsev. pose proof (event_le _ _ Hsev) as Hle. destruct Hsev as [Hev Hown]. cbn [handle_event]. set (d := metadata_queue_len n) in *.
  destruct (with_depth_same d ev t) as (Hev' & Hend & Hown' & Hturns). destruct (Hturns (server_events evs)) as [Hct Hlt].
  destruct (server_event_ok t (system n) (with_depth d ev) (server_events evs)) as (x' & Hx & Hok & Hro' & _).
  { done. } { by rewrite Hct, Hlt. } { by apply Hev'. }
  destruct (server_appends t (system n) (with_depth d ev) x' no_server0 (Hev' Hev) ltac:(by rewrite Hown') no_carries0 Hx) as [Hc Hp].
  rewrite Hx. eexists. split; [done|]. rewrite Hend in Hok.
  split; [|split].
  - constructor; try done. by eapply MetadataScheduler.inv_later.
  - split; [done|]. cbn in *. lia.
  - split; [by split_and!|]. split; [done|]. by apply prefix_app.
Qed.

(** *** The scheduler's loop *)

Lemma flight_size s t : MetadataScheduler.inv s t → (size (MetadataScheduler.in_flight s) ≤ MetadataScheduler.max_concurrent s)%nat.
Proof.
  intros Hi. etrans; [|apply (MetadataScheduler.inv_limit _ _ Hi)].
  rewrite <-(size_dom (MetadataScheduler.in_flight s)), <-length_map_to_list, <-(length_fmap snd).
  apply submseteq_length, NoDup_submseteq; [apply NoDup_elements|]. intros h Hh%elem_of_elements%elem_of_dom.
  apply (MetadataScheduler.inv_tasks _ _ Hi) in Hh as [id Hid]. apply list_elem_of_fmap.
  exists (id, h). split; [done|]. by apply elem_of_map_to_list.
Qed.

Lemma depth_bound s t :
  MetadataScheduler.inv s t →
  (MetadataScheduler.published_depth s
   ≤ size (PendingHashQueue.entries (MetadataScheduler.queue s)) + size (MetadataScheduler.in_flight s)
   ≤ PendingHashQueue.capacity (MetadataScheduler.queue s) + MetadataScheduler.max_concurrent s)%nat.
Proof.
  intros Hi. pose proof (flight_size _ _ Hi). destruct (MetadataScheduler.inv_queue _ _ Hi) as [Hw _ _].
  pose proof (PendingHashQueue.wf_size _ Hw). unfold MetadataScheduler.published_depth.
  rewrite Depth.pressure_len_exact by done.
  pose proof (map_subseteq_size _ _ (map_filter_subseteq (λ p, ¬ Depth.cooling p) (PendingHashQueue.entries (MetadataScheduler.queue s)))).
  lia.
Qed.

(** Every task in the set has its job. *)
Lemma sync_jobs_ok js s s' t :
  (∀ id, job_info_hash <$> js !! id = MetadataScheduler.task_hashes s !! id) → MetadataScheduler.inv s' t →
  (∀ id h h', MetadataScheduler.task_hashes s !! id = Some h → MetadataScheduler.task_hashes s' !! id = Some h' → h = h') →
  ∀ id, job_info_hash <$> sync_jobs js s' !! id = MetadataScheduler.task_hashes s' !! id.
Proof.
  intros Hj Hi Hsame id. unfold sync_jobs. rewrite map_lookup_imap.
  destruct (MetadataScheduler.task_hashes s' !! id) as [h|] eqn:Hid; [|done]. simpl. specialize (Hj id).
  destruct (js !! id) as [j|]; simpl in *.
  - symmetry in Hj. by rewrite (Hsame _ _ _ Hj Hid).
  - assert (is_Some (MetadataScheduler.in_flight s' !! h)) as [st ->] by (apply (MetadataScheduler.inv_tasks _ _ Hi); eauto). done.
Qed.

Lemma subset_agree {A} (m m' : gmap nat A) :
  m ⊆ m' → ∀ id h h', m !! id = Some h → m' !! id = Some h' → h = h'.
Proof. intros Hs id h h' H1 H2. eapply lookup_weaken in H1; [|done]. congruence. Qed.

Lemma names_grow l l' h : h ∈ hd_info_hash <$> l → h ∈ hd_info_hash <$> (l ++ l').
Proof. rewrite fmap_app. intros ?. apply elem_of_app. by left. Qed.

Lemma dispatch_turn_ok t n clk now evs :
  node_ok t n → lasts (Dispatch clk now :: evs) n → event_ok t (Dispatch clk now) →
  ∃ n', handle_event n (Dispatch clk now) = Some n' ∧ node_ok now n' ∧ lasts evs n' ∧ advances n n'.
Proof.
  intros Hok [Hro Hseq] Hclk. pose proof (event_le _ _ Hclk) as Hle. cbn [event_end] in Hle.
  destruct Hok. pose proof (server_ok_mono _ _ _ no_server0 Hle) as Hsv. cbn [handle_event]. destruct (phase n) eqn:Hph.
  - destruct (MetadataScheduler.dispatch_ready_ok (scheduler n) t clk now no_scheduler0 Hclk) as (s' & Hs & Hi & Hl & _ & Hq).
    destruct (Trace.dispatch_trace (scheduler n) t clk now s' no_scheduler0 Hclk Hs) as [Hkn Hsub].
    rewrite Hs. eexists. split; [done|]. pose proof (depth_bound _ _ Hi) as Hdb. split; [|split].
    + constructor; try done.
      * intros h [Hh|[]%not_elem_of_nil]%Hkn. by apply no_known0.
      * cbn. eapply sync_jobs_ok; [done|done|]. by apply subset_agree.
      * cbn. lia.
    + split; [done|]. cbn in *. rewrite Hq. lia.
    + split; [done|]. done.
  - exists n. split; [done|]. split; [|split; [split; [done|cbn in *; lia]|apply advances_refl]]. 
    constructor; try done; [by eapply MetadataScheduler.inv_later|by rewrite Hph].
  - exists n. split; [done|]. split; [|split; [split; [done|cbn in *; lia]|apply advances_refl]]. 
    constructor; try done; [by eapply MetadataScheduler.inv_later|by rewrite Hph].
Qed.

Lemma publish_turn_ok t n evs :
  node_ok t n → lasts (Publish :: evs) n →
  ∃ n', handle_event n Publish = Some n' ∧ node_ok t n' ∧ lasts evs n' ∧ advances n n'.
Proof.
  intros Hok [Hro Hseq]. cbn in Hseq. cbn [handle_event]. destruct (phase n) eqn:Hph.
  1, 3: exists n; split; [done|]; split; [done|]; split; [split; [done|lia]|apply advances_refl].
  eexists. split; [done|]. destruct Hok. pose proof (depth_bound _ _ no_scheduler0). split; [|split].
  - constructor; try done. cbn. lia.
  - split; [done|]. cbn. lia.
  - by split; [split_and!|].
Qed.

Lemma take_hash_ok t x :
  server_ok t (server x) → carries (discovery (server x)) →
  message_step t (server x) (server (take_hash x)) ∧ carries (discovery (server (take_hash x)))
  ∧ hash_queue (server (take_hash x)) = drop 1 (hash_queue (server x)).
Proof.
  intros Hok Hc. unfold take_hash. cbn zeta. cbn [server].
  pose proof (disc_turn t (server x) DiscoveryActor.ConsumeHash _ Hok eq_refl) as Hst. split_and!; [|by destruct Hc; constructor; [..|apply Forall_drop]|done].
  eapply message_step_trans; [exact Hst|]. apply note_step, Hst.
Qed.

(** The state after an arm, and what it took from the channel. *)
Lemma arm_taken t n a e :
  server_ok t (server (system n)) → carries (discovery (server (system n))) → arm_event n a = Some e →
  let x' := match a with RecvHash _ _ => take_hash (system n) | _ => system n end in
  message_step t (server (system n)) (server x') ∧ carries (discovery (server x'))
  ∧ channel n = Trace.arrivals e ++ hash_queue (server x').
Proof.
  intros Hok Hc Ha. destruct a; cbn [arm_event] in Ha; simplify_eq; try (split_and!; [by apply message_step_refl|done..]).
  destruct (take_hash_ok t (system n) Hok Hc) as (Hst & Hc' & Hq). split; [done|]. split; [done|]. rewrite Hq.
  unfold channel in *. destruct (hash_queue (server (system n))) as [|ev q]; simplify_eq/=. by rewrite drop_0.
Qed.

Lemma sought_grows n n' l r : received n' = received n ++ l → sought n r → sought n' r.
Proof. intros Hr [? ?]. split; [done|]. rewrite Hr. by apply names_grow. Qed.

Lemma arm_open n a e :
  arm_event n a = Some e → e ≠ MetadataScheduler.InputClosed ∧ e ≠ MetadataScheduler.Shutdown.
Proof. destruct a; cbn; [destruct (head (channel n))|..]; intros; simplify_eq/=; done. Qed.

Lemma arm_limits n a e s s' :
  arm_event n a = Some e → MetadataScheduler.kept s e s' → MetadataScheduler.same_limits s s'.
Proof. intros [Hi Hs]%arm_open (? & ? & Hm & ?). split_and!; try done. by destruct e. Qed.

Lemma select_turn_ok t n a now evs :
  node_ok t n → lasts (Select a now :: evs) n → t ≤ now →
  ∃ n', handle_event n (Select a now) = Some n' ∧ node_ok now n' ∧ lasts evs n' ∧ advances n n'.
Proof.
  intros [] [Hro Hseq] Hle. cbn in Hseq. pose proof (server_ok_mono _ _ _ no_server0 Hle) as Hsv.
  pose proof (MetadataScheduler.inv_later _ _ _ no_scheduler0 Hle) as Hi.
  assert (node_ok now n) as Hsame by by constructor.
  assert (lasts evs n) as Hlast by (split; [done|lia]). cbn [handle_event]. destruct (phase n) eqn:Hph.
  1, 2: exists n; split; [done|]; split; [done|]; split; [done|apply advances_refl].
  destruct (arm_event n a) as [e|] eqn:Ha; [|exists n; split; [done|]; split; [done|]; split; [done|apply advances_refl]].
  destruct (arm_taken now n a e Hsv no_carries0 Ha) as (Hst & Hc & Hq). set (x' := match a with RecvHash _ _ => _ | _ => _ end) in *.
  destruct (MetadataScheduler.handle_event_ok (scheduler n) e now Hi ltac:(lia)) as (s' & Hs & Hi' & Hk & _ & Hsq).
  assert (MetadataScheduler.same_limits (scheduler n) s') as Hl by by apply (arm_limits n a e).
  destruct (Trace.event_trace (scheduler n) e now s' Hi ltac:(lia) Hs) as [Hkn Hsub]. rewrite Hs.
  eexists. split; [done|]. assert (Forall (Flow.named hex_encode) (Trace.arrivals e)) as Hnew.
  { apply Flow.ca_hash in no_carries0. change (DiscoveryActor.hash_rx _) with (channel n) in no_carries0.
    rewrite Hq in no_carries0. by apply Forall_app in no_carries0 as [? _]. }
  split; [|split].
  - constructor; cbn [system scheduler phase metadata_queue_len jobs received requested]; try done.
    + apply Hst.
    + by apply Forall_app_2.
    + intros h [Hh|Hh]%Hkn; [by apply names_grow, no_known0|]. rewrite fmap_app. apply elem_of_app. by right.
    + eapply sync_jobs_ok; [done|done|]. intros id h h' H1 H2. symmetry. by eapply subset_agree.
    + eapply Forall_impl; [exact no_requested0|]. intros r. by apply (sought_grows _ _ (Trace.arrivals e)).
    + destruct Hl as (-> & _ & _ & ->). done.
  - split; [by eapply room_message|]. cbn. lia.
  - split; [done|]. split; [by apply prefix_app_r|]. unfold stream, channel. cbn [received system]. fold (channel n).
    by rewrite Hq, <-app_assoc.
Qed.

(** *** Lookups of jobs *)

(** What [hex] documents: decoding what was encoded gives it back. *)
Hypothesis hex_roundtrip : ∀ h, Forall is_byte h → hex_decode (hex_encode h) = Some h.

Lemma job_hash t n id j :
  node_ok t n → jobs n !! id = Some j →
  ∃ h, NodeId.id20 h ∧ job_info_hash j = hex_encode h ∧ hex_decode (job_info_hash j) = Some h
    ∧ job_info_hash j ∈ hd_info_hash <$> received n.
Proof.
  intros [] Hj. specialize (no_jobs0 id). rewrite Hj in no_jobs0. simpl in no_jobs0.
  assert (job_info_hash j ∈ hd_info_hash <$> received n) as Hin.
  { apply no_known0. right. apply (MetadataScheduler.inv_tasks _ _ no_scheduler0). eauto. }
  pose proof Hin as (ev & Heq & Hev)%list_elem_of_fmap. rewrite Forall_forall in no_received0.
  destruct (no_received0 _ Hev) as (h & Hh & Hn). exists h. rewrite Heq, Hn. split_and!; try done.
  - apply hex_roundtrip, Hh.
  - by rewrite <-Hn, <-Heq.
Qed.

Lemma submit_step t s r :
  server_ok t s → length (PeerLookup.rq_info_hash r) = 20%nat →
  message_step t s (set_lookup s (PeerLookup.submit (peer_lookup s) r)).
Proof.
  intros Hok Hlen. pose proof (so_lookup _ _ Hok) as Hl. unfold PeerLookup.submit.
  destruct (Z.ltb_spec (Z.of_nat (length (PeerLookup.request_rx (peer_lookup s)))) PeerLookup.REQUEST_CHANNEL_CAPACITY);
    apply lookup_step; try done.
  eapply PeerLookup.actor_ok_core; [exact Hl|done| | |apply Hl]; simpl.
  - rewrite length_app. simpl. lia.
  - apply Forall_app_2; [apply Hl|by constructor].
Qed.

Lemma submit_turn_ok t n id evs :
  node_ok t n → lasts (SubmitLookup id :: evs) n →
  ∃ n', handle_event n (SubmitLookup id) = Some n' ∧ node_ok t n' ∧ lasts evs n' ∧ advances n n'.
Proof.
  intros Hok [Hro Hseq]. cbn in Hseq. assert (lasts evs n) as Hlast by (split; [done|lia]).
  exists (submit_lookup n id). split; [done|]. unfold submit_lookup.
  destruct (jobs n !! id) as [j|] eqn:Hj; [|by split; [|split; [|apply advances_refl]]].
  destruct (job_submitted j); [by split; [|split; [|apply advances_refl]]|].
  destruct (job_hash t n id j Hok Hj) as (h & Hh & Heq & Hdec & Hin). rewrite Hdec.
  rewrite bool_decide_true by apply Hh. destruct Hok. set (s' := if _ <? _ then _ else _).
  assert (message_step t (server (system n)) s' ∧ discovery s' = discovery (server (system n))) as [Hst Hd].
  { unfold s'. destruct (_ <? _); split; try done; [apply submit_step; [done|apply Hh]|by apply note_step]. }
  clearbody s'. split; [|split].
  - constructor; cbn [system server scheduler phase metadata_queue_len jobs received requested]; try done.
    + apply Hst.
    + by rewrite Hd.
    + intros i. destruct (decide (i = id)) as [->|Hne]; [|by rewrite lookup_insert_ne].
      rewrite lookup_insert_eq. specialize (no_jobs0 id). by rewrite Hj in no_jobs0.
    + apply Forall_app_2; [exact no_requested0|]. constructor; [|constructor]. split; [done|]. cbn. by rewrite <-Heq.
  - split; [by eapply room_message|]. cbn. lia.
  - split; [by split_and!|]. split; [done|]. unfold stream, channel, hash_queue. cbn. by rewrite Hd.
Qed.

(** One step of any task. *)
Lemma node_event_ok t n ev evs :
  node_ok t n → lasts (ev :: evs) n → event_ok t ev →
  ∃ n', handle_event n ev = Some n' ∧ node_ok (event_end t ev) n' ∧ lasts evs n' ∧ advances n n'.
Proof.
  intros Hok Hl Hev. destruct ev.
  - by apply (server_turn_ok t).
  - by apply (dispatch_turn_ok t).
  - by apply publish_turn_ok.
  - by apply (select_turn_ok t).
  - by apply submit_turn_ok.
Qed.

Lemma node_run_ok evs evs' t n :
  node_ok t n → lasts (evs ++ evs') n → events_ok t evs →
  ∃ n', run n evs = Some n' ∧ node_ok (end_time t evs) n' ∧ lasts evs' n' ∧ advances n n'.
Proof.
  revert t n. induction evs as [|ev evs IH]; intros t n Hok Hl Hev.
  { exists n. split; [done|]. split; [done|]. split; [done|apply advances_refl]. }
  destruct Hev as [Hev Hevs]. destruct (node_event_ok t n ev (evs ++ evs') Hok Hl Hev) as (n1 & H1 & Hok1 & Hl1 & Ha1).
  destruct (IH _ _ Hok1 Hl1 Hevs) as (n' & Hr & Hok' & Hl' & Ha'). exists n'. cbn [run]. rewrite H1.
  split; [done|]. split; [done|]. split; [done|]. by eapply advances_trans.
Qed.

Definition options_ok (o : DHTOptions) : Prop :=
  Server.options_ok o ∧ 0 ≤ mo_retry_history_capacity (dh_metadata o).

(** The counters of a new node last for the history. *)
Definition history_fits (o : DHTOptions) (evs : list event) : Prop :=
  tids_last o (server_events evs) ∧ 2 * Z.of_nat (length evs) ≤ u64_max.

Lemma node_start_ok o nid secret w t evs :
  options_ok o → NodeId.id20 nid → history_fits o evs →
  ∃ n, start o nid secret w t = Some n ∧ node_ok t n ∧ lasts evs n.
Proof.
  intros [Ho Hcap] Hid [Ht Hlen]. unfold start. destruct (server_start_ok o nid secret w t Ho Hid) as (x & Hx & Hok & Hro).
  rewrite Hx. eexists. split; [done|]. split.
  - constructor; cbn [system scheduler phase metadata_queue_len jobs received requested]; try done.
    + by apply MetadataScheduler.scheduler_new_inv.
    + unfold Server.start, new in Hx. destruct (_ <=? _); [done|]. injection Hx as <-. by constructor.
    + intros h [[? ?]|[? ?]]; done.
    + cbn. lia.
  - split; [by apply Hro|]. cbn. lia.
Qed.

(** *** The scheduler of the node is the scheduler of [MetadataScheduler.run] *)

Definition hashes (rs : list MetadataScheduler.round) : list HashDiscovered := rs ≫= λ r, Trace.arrivals r.1.2.

(** The scheduler went through rounds of its own loop from [s0] at time [t0],
    in which it received exactly the hashes taken from the channel. *)
Definition replays (t0 t : Instant) (s0 : MetadataScheduler.MetadataScheduler) (n : Node) : Prop :=
  ∃ rs, MetadataScheduler.clocked t0 rs ∧ MetadataScheduler.end_time t0 rs ≤ t ∧ hashes rs = received n
    ∧ match phase n with
      | Dispatching => MetadataScheduler.run s0 rs = Some (scheduler n)
      | _ => ∃ s clk now, MetadataScheduler.run s0 rs = Some s
          ∧ MetadataScheduler.clock_ok (MetadataScheduler.end_time t0 rs) clk now ∧ now ≤ t
          ∧ MetadataScheduler.dispatch_ready s clk = Some (scheduler n)
      end.

Lemma rounds_snoc rs t clk e now :
  MetadataScheduler.clocked t rs → MetadataScheduler.clock_ok (MetadataScheduler.end_time t rs) clk now →
  MetadataScheduler.clocked t (rs ++ [(clk, e, now)]).
Proof.
  unfold MetadataScheduler.end_time. revert t. induction rs as [|[[c x] y] rs IH]; intros t H1 H2; [done|].
  destruct H1 as [? H1]. split; [done|]. by apply IH.
Qed.

Lemma scheduler_run_snoc rs s clk e now :
  MetadataScheduler.run s (rs ++ [(clk, e, now)])
  = let! s := MetadataScheduler.run s rs in MetadataScheduler.iteration s clk e now.
Proof.
  revert s. induction rs as [|[[c x] y] rs IH]; intros s; cbn; [by destruct (MetadataScheduler.iteration _ _ _ _)|].
  destruct (MetadataScheduler.iteration s c x y); [apply IH|done].
Qed.

Lemma clock_ok_later t clk now now' :
  MetadataScheduler.clock_ok t clk now → now ≤ now' → MetadataScheduler.clock_ok t clk now'.
Proof. intros (? & ? & Hc) ?. split_and!; try done. intros i. specialize (Hc i). lia. Qed.

Lemma clock_ok_earlier t t' clk now :
  MetadataScheduler.clock_ok t' clk now → t ≤ t' → MetadataScheduler.clock_ok t clk now.
Proof. intros (? & ? & ?) ?. split_and!; try done. lia. Qed.

Lemma replays_mono t0 t t' s0 n : replays t0 t s0 n → t ≤ t' → replays t0 t' s0 n.
Proof.
  intros (rs & H1 & H2 & H3 & H4) Hle. exists rs. split_and!; try done; [lia|].
  destruct (phase n); [done|..]; destruct H4 as (s & clk & now & ? & ? & ? & ?); exists s, clk, now; split_and!; done || lia.
Qed.

(** The scheduler is in its loop, its input open. *)
Definition looping (n : Node) : Prop := MetadataScheduler.mode (scheduler n) = (false, true).

Lemma looping_event n ev n' : looping n → handle_event n ev = Some n' → looping n'.
Proof.
  unfold looping. intros Hl E. destruct ev as [ev|clk now| |a now|id]; cbn [handle_event] in E.
  - bind_inv E. by injection E as <-.
  - destruct (phase n); [|by simplify_eq..]. bind_inv E. injection E as <-. cbn [scheduler]. by rewrite (Trace.dispatch_mode _ _ _ E0).
  - destruct (phase n); [by simplify_eq| |by simplify_eq]. by injection E as <-.
  - destruct (phase n); [by simplify_eq..|]. destruct (arm_event n a) as [e|] eqn:Ha; [|by simplify_eq].
    bind_inv E. injection E as <-. destruct (arm_open _ _ _ Ha). cbn [scheduler]. by rewrite (Trace.event_mode _ _ _ _ E0).
  - injection E as <-. unfold submit_lookup. by repeat (case_match; try done).
Qed.

(** A round of the node is an iteration of [run]. *)
Lemma looping_iteration s clk e now n :
  looping n → MetadataScheduler.dispatch_ready s clk = Some (scheduler n) →
  MetadataScheduler.iteration s clk e now = MetadataScheduler.handle_event (scheduler n) e now.
Proof.
  intros [= Hi Hr] Hd. pose proof (Trace.dispatch_mode _ _ _ Hd) as [= Hi' Hr'].
  unfold MetadataScheduler.iteration, MetadataScheduler.finished. by rewrite <-Hr', Hr, Hd, Hi.
Qed.

Lemma replay_event t0 t s0 n ev n' :
  replays t0 t s0 n → looping n → event_ok t ev → handle_event n ev = Some n' → replays t0 (event_end t ev) s0 n'.
Proof.
  intros Hr Hloop Hev E. pose proof (event_le _ _ Hev) as Hle. pose proof (replays_mono _ _ _ _ _ Hr Hle) as Hr'.
  destruct ev as [ev|clk now| |a now|id]; cbn [handle_event event_end] in *.
  - bind_inv E. by injection E as <-.
  - destruct (phase n) eqn:Hph; [|by simplify_eq..]. bind_inv E. injection E as <-.
    destruct Hr as (rs & H1 & H2 & H3 & H4). rewrite Hph in H4. exists rs. split_and!; try done; [lia|].
    exists (scheduler n), clk, now. split_and!; try done. by eapply clock_ok_earlier.
  - destruct (phase n) eqn:Hph; [by simplify_eq| |by simplify_eq]. injection E as <-.
    destruct Hr as (rs & H1 & H2 & H3 & H4). rewrite Hph in H4. by exists rs.
  - destruct (phase n) eqn:Hph; [by simplify_eq..|]. destruct (arm_event n a) as [e|]; [|by simplify_eq].
    bind_inv E. injection E as <-. destruct Hr as (rs & H1 & H2 & H3 & H4). rewrite Hph in H4.
    destruct H4 as (s & clk & now1 & Hrun & Hclk & Hnow & Hdis). exists (rs ++ [(clk, e, now)]). split_and!.
    + apply rounds_snoc; [done|]. eapply clock_ok_later; [done|lia].
    + unfold MetadataScheduler.end_time. rewrite foldl_app. done.
    + unfold hashes in *. rewrite bind_app, H3. cbn. by rewrite app_nil_r.
    + cbn [phase scheduler]. rewrite scheduler_run_snoc, Hrun. by rewrite (looping_iteration _ _ _ _ n).
  - injection E as <-. revert Hr. unfold submit_lookup. by repeat (case_match; try done).
Qed.

Lemma replay_run evs t0 t s0 n n' :
  replays t0 t s0 n → looping n → events_ok t evs → run n evs = Some n' → replays t0 (end_time t evs) s0 n'.
Proof.
  revert t n. induction evs as [|ev evs IH]; intros t n Hr Hl Hev E; cbn in *; [by simplify_eq|].
  destruct Hev as [Hev Hevs]. bind_inv E. eapply IH; [by eapply replay_event|by eapply looping_event|done|exact E].
Qed.

Lemma run_app evs evs' n : run n (evs ++ evs') = let! n := run n evs in run n evs'.
Proof. revert n. induction evs as [|ev evs IH]; intros n; cbn; [done|]. destruct (handle_event n ev); [apply IH|done]. Qed.

Lemma events_ok_app evs evs' t : events_ok t (evs ++ evs') → events_ok t evs ∧ events_ok (end_time t evs) evs'.
Proof. revert t. induction evs as [|ev evs IH]; intros t; cbn; [done|]. intros [? H]. by apply IH in H as [? ?]. Qed.

Lemma start_scheduler o nid secret w t n :
  start o nid secret w t = Some n → scheduler n = new_scheduler o ∧ phase n = Dispatching ∧ received n = [].
Proof. unfold start. intros E. bind_inv E. by injection E as <-. Qed.

(** C2: the whole process runs safely.  However the workers, the crawl, the
    discovery, the lookups, the scheduler's loop (between its two stores of
    the queue depth too) and the jobs interleave, nothing panics and all
    invariants hold together.  Every job works on a twenty-byte hash that the
    scheduler received and that decodes, so no job fails for its hash, and
    every lookup asked for is for a received hash.  The depth the crawl slows
    down for never exceeds the queue and the jobs allowed, and while the
    scheduler waits it counts exactly the jobs and the queued hashes that are
    not cooling retries. *)
Theorem node_history_safe (o : DHTOptions) (nid secret : list Z) (num_workers : nat) (t : Instant)
    (evs : list event) :
  options_ok o → NodeId.id20 nid → events_ok t evs → history_fits o evs →
  ∃ n0 n, start o nid secret num_workers t = Some n0 ∧ run n0 evs = Some n ∧ node_ok (end_time t evs) n
    ∧ (∀ id j, jobs n !! id = Some j →
        ∃ h, NodeId.id20 h ∧ hex_decode (job_info_hash j) = Some h ∧ job_info_hash j ∈ hd_info_hash <$> received n)
    ∧ 0 ≤ metadata_queue_len n ≤ Z.max (mo_max_queue_size (dh_metadata o)) 1 + Z.max (mo_max_worker_count (dh_metadata o)) 1
    ∧ (phase n = Waiting → metadata_queue_len n = Z.of_nat
        (size (filter (λ p, ¬ Depth.cooling p) (PendingHashQueue.entries (MetadataScheduler.queue (scheduler n))))
         + size (MetadataScheduler.in_flight (scheduler n)))).
Proof.
  intros Ho Hid Hev Hfit. destruct (node_start_ok o nid secret num_workers t evs Ho Hid Hfit) as (n0 & H0 & Hok0 & Hl).
  rewrite <-(app_nil_r evs) in Hl. destruct (node_run_ok evs [] t n0 Hok0 Hl Hev) as (n & Hr & Hok & _ & (L1 & _ & _ & L4) & _).
  destruct (start_scheduler _ _ _ _ _ _ H0) as (Hs & _). exists n0, n. split; [done|]. split; [done|]. split; [done|]. split_and!.
  - intros id j Hj. destruct (job_hash _ n id j Hok Hj) as (h & ? & _ & ? & ?). by exists h.
  - apply (no_bound _ _ Hok).
  - pose proof (no_bound _ _ Hok) as [_ Hb]. rewrite L1, L4, Hs in Hb. cbn in Hb. lia.
  - intros Hw. rewrite (no_depth _ _ Hok Hw). unfold MetadataScheduler.published_depth.
    rewrite Depth.pressure_len_exact; [done|]. apply (PendingHashQueue.good_wf _ _ (MetadataScheduler.inv_queue _ _ (no_scheduler _ _ Hok))).
Qed.

(** C6: hashes reach the scheduler in order, none lost and none twice.  At any
    two points of a history, what the scheduler has received followed by what
    is in the channel at the first is a prefix of the same at the second: once
    the channel took a hash, only the scheduler takes it out, in the order of
    arrival.  And the scheduler of the process is a run of the scheduler on its
    own, over rounds with a forward clock whose received hashes are exactly
    those taken from the channel, so that what holds of every such run holds
    here. *)
Theorem hash_delivery (o : DHTOptions) (nid secret : list Z) (num_workers : nat) (t : Instant)
    (evs evs' : list event) :
  options_ok o → NodeId.id20 nid → events_ok t (evs ++ evs') → history_fits o (evs ++ evs') →
  ∃ n0 n n', start o nid secret num_workers t = Some n0 ∧ run n0 evs = Some n ∧ run n evs' = Some n'
    ∧ received n `prefix_of` received n' ∧ stream n `prefix_of` stream n'
    ∧ replays t (end_time t (evs ++ evs')) (new_scheduler o) n'.
Proof.
  intros Ho Hid Hev Hfit. destruct (node_start_ok o nid secret num_workers t _ Ho Hid Hfit) as (n0 & H0 & Hok0 & Hl).
  destruct (events_ok_app _ _ _ Hev) as [Hev1 Hev2]. destruct (node_run_ok evs evs' t n0 Hok0 Hl Hev1) as (n & Hr & Hok & Hl1 & _).
  rewrite <-(app_nil_r evs') in Hl1. destruct (node_run_ok evs' [] _ n Hok Hl1 Hev2) as (n' & Hr' & _ & _ & _ & Hp & Hst).
  destruct (start_scheduler _ _ _ _ _ _ H0) as (Hs & Hph & Hrc). exists n0, n, n'. split_and!; try done.
  apply (replay_run _ t t _ n0); [| |done|].
  - exists []. by rewrite Hrc, Hph, Hs.
  - unfold looping. by rewrite Hs.
  - by rewrite run_app, Hr.
Qed.

End node.

(** ** An example

    A reference of what [hex] does, and a history: a stranger asks for peers
    of a torrent, its hash goes through the channel, a job starts on it and
    asks for a lookup, and the crawl ticks under the published depth. *)

Definition hex_digit (d : Z) : Ascii.ascii := Ascii.ascii_of_nat (Z.to_nat (if d <? 10 then 48 + d else 87 + d)).
Definition digit_of (c : Ascii.ascii) : option Z :=
  let d := Z.of_nat (Ascii.nat_of_ascii c) in
  if (48 <=? d) && (d <=? 57) then Some (d - 48) else if (97 <=? d) && (d <=? 102) then Some (d - 87) else None.

Definition ref_encode (h : list Z) : string :=
  foldr (λ b s, String (hex_digit (b / 16)) (String (hex_digit (b `mod` 16)) s)) EmptyString h.
Fixpoint ref_decode (s : string) : option (list Z) :=
  match s with
  | EmptyString => Some []
  | String _ EmptyString => None
  | String a (String b s) =>
      let! x := digit_of a in let! y := digit_of b in let! l := ref_decode s in Some (16 * x + y :: l)
  end.

Lemma digit_roundtrip d : 0 ≤ d < 16 → digit_of (hex_digit d) = Some d.
Proof.
  intros Hd. assert (d ∈ seqZ 0 16) as Hin by (apply elem_of_seqZ; lia). clear Hd. revert d Hin.
  apply Forall_forall. vm_compute. repeat constructor.
Qed.

Lemma ref_roundtrip h : Forall is_byte h → ref_decode (ref_encode h) = Some h.
Proof.
  induction 1 as [|b h Hb _ IH]; [done|]. cbn [ref_encode foldr ref_decode]. fold (ref_encode h). unfold is_byte in Hb.
  rewrite !digit_roundtrip, IH by (split; [apply Z.div_pos || apply Z.mod_pos_bound|apply Z.div_lt_upper_bound || apply Z.mod_pos_bound]; lia).
  by rewrite <-Z.div_mod by done.
Qed.

#[local] Instance ref_hashing : Hashing := {| token_hash := λ o k, foldr Z.add 0 (o ++ k); hex_encode := ref_encode |}.

Definition ex_node_events : list event :=
  [ServerTurn (Message 0 [100; 1] ex_remote ex_local (ex_input 1000));
   ServerTurn (DiscoveryTurn DiscoveryActor.RecvInput 2000);
   Dispatch (λ _, 3000) 3000; Publish; Select (RecvHash 0%nat false) 4000;
   Dispatch (λ _, 900000000) 900000000;
   SubmitLookup 0%nat; Publish; SubmitLookup 0%nat;
   ServerTurn (CrawlTurn (Publish.ActorTurn (CrawlActor.ex_step CrawlActor.RecvDiscovery 900000001)));
   ServerTurn (CrawlTurn (Publish.ActorTurn (CrawlActor.ex_step (CrawlActor.ScheduleTick 0) 1000000000)));
   Select (Joined 0%nat 0%nat (Completed FetchFailed) true) 1000000001; Dispatch (λ _, 1000000002) 1000000002].

Lemma ex_node_options_ok : options_ok ex_options.
Proof. split; [apply ex_server_options_ok|cbn; lia]. Qed.

Lemma ex_node_events_ok : events_ok 0 ex_node_events.
Proof.
  assert (Publish.rand_ok (λ _, CrawlActor.ex_rand)) as Hr.
  { intros n. split; [split; [done|]|intros i; done]. simpl. repeat constructor; done. }
  simpl. unfold MetadataScheduler.clock_ok.
  split_and!; try done; try lia; try (intros; lia); try (by repeat constructor); by vm_compute.
Qed.

Lemma ex_history_fits : history_fits ex_options ex_node_events.
Proof. split; [split|]; vm_compute; discriminate. Qed.

Definition ex_node (k : nat) : option Node :=
  let! n := start ex_options ex_nid ex_secret 2 0 in run ref_decode n (take k ex_node_events).

Lemma node_history_safe_witness :
  ∃ n0 n, start ex_options ex_nid ex_secret 2 0 = Some n0 ∧ run ref_decode n0 ex_node_events = Some n
    ∧ node_ok (end_time 0 ex_node_events) n ∧ length (requested n) = 1%nat.
Proof.
  destruct (node_history_safe (HSH:=ref_hashing) ref_decode ref_roundtrip ex_options ex_nid ex_secret 2 0 ex_node_events)
    as (n0 & n & H0 & Hr & Hok & _).
  - apply ex_node_options_ok.
  - apply ex_nid_ok.
  - apply ex_node_events_ok.
  - apply ex_history_fits.
  - exists n0, n. split; [exact H0|]. split; [exact Hr|]. split; [exact Hok|].
    assert ((λ n, length (requested n)) <$> ex_node 13 = Some 1%nat) as Hn by (vm_compute; reflexivity).
    unfold ex_node in Hn. rewrite H0 in Hn. change (take 13 ex_node_events) with ex_node_events in Hn. rewrite Hr in Hn.
    by injection Hn.
Defined.

Lemma hash_delivery_witness :
  ∃ n0 n n', start ex_options ex_nid ex_secret 2 0 = Some n0 ∧ run ref_decode n0 (take 4 ex_node_events) = Some n
    ∧ run ref_decode n (drop 4 ex_node_events) = Some n'
    ∧ received n `prefix_of` received n' ∧ stream n `prefix_of` stream n'
    ∧ replays 0 (end_time 0 ex_node_events) (new_scheduler ex_options) n'.
Proof.
  apply (hash_delivery (HSH:=ref_hashing) ref_decode ref_roundtrip ex_options ex_nid ex_secret 2 0 (take 4 ex_node_events) (drop 4 ex_node_events)).
  - apply ex_node_options_ok.
  - apply ex_nid_ok.
  - apply ex_node_events_ok.
  - apply ex_history_fits.
Defined.

(** The hash is in the channel, then with the scheduler, whose job submits its
    lookup once.  When the job has failed, its retry cools down: the depth
    stored first still counts it, the one stored second does not. *)
Example ex_node_run :
  (λ k, (λ n, (length (channel n), length (received n), length (requested n), metadata_queue_len n)) <$> ex_node k) <$> [4; 5; 9; 13]%nat
  = [Some (1%nat, 0%nat, 0%nat, 0); Some (0%nat, 1%nat, 0%nat, 0); Some (0%nat, 1%nat, 1%nat, 1); Some (0%nat, 1%nat, 1%nat, 1)]
  ∧ metadata_queue_len <$> (let! n := ex_node 13 in handle_event ref_decode n Publish) = Some 0.
Proof. split; by vm_compute. Qed.

End Node.
