(* ===== verification/Jni.v ===== *)
(** * The Java bindings ([src/jni])

    [Module Options]: the conversion of the Java options object
    ([types.rs]).  [Module Objects]: the construction of the Java objects that
    report a torrent, with the local references it keeps alive ([types.rs]).
    [Module Exports]: the native methods over server handles ([exports.rs],
    [server.rs]).  What the virtual machine answers is an input. *)

From stdpp Require Import gmap strings.
From S2P Require Import Prelude Net Types.

Local Open Scope Z_scope.

Definition i32_min : Z := - 2 ^ 31.
Definition i32_max : Z := 2 ^ 31 - 1.
Definition i64_max : Z := 2 ^ 63 - 1.

Module Options.

Section options.
(** [jni::errors::Error] *)
Context {JniError : Type}.

Inductive DhtOptionsConversionError :=
  | Jni (e : JniError)
  | InvalidValue (field expected : string) (value : Z).

(** [DhtOptionsResult], or a panic. *)
Inductive DhtOptionsResult (A : Type) :=
  | Ok (a : A)
  | Err (e : DhtOptionsConversionError)
  | Panic.
Arguments Ok {A} _.
Arguments Err {A} _.
Arguments Panic {A}.

(** The [?] operator. *)
Definition and_then {A B} (r : DhtOptionsResult A) (k : A → DhtOptionsResult B) : DhtOptionsResult B :=
  match r with Ok a => k a | Err e => Err e | Panic => Panic end.

Local Notation "'try' x := r 'in' k" := (and_then r (λ x, k)) (at level 10, x name, r at level 100, k at level 200).

Definition invalid_value {A} (field expected : string) (value : Z) : DhtOptionsResult A :=
  Err (InvalidValue field expected value).

Definition checked_port (value : Z) : DhtOptionsResult Z :=
  if (0 <=? value) && (value <=? 65535) then Ok value
  else invalid_value "port" "an integer in 0..=65535" value.

Definition checked_non_negative_u32 (field : string) (value : Z) : DhtOptionsResult Z :=
  if (0 <=? value) && (value <=? u32_max) then Ok value else invalid_value field "a non-negative integer" value.

Definition checked_non_negative_u64 (field : string) (value : Z) : DhtOptionsResult Z :=
  if (0 <=? value) && (value <=? u64_max) then Ok value else invalid_value field "a non-negative integer" value.

Definition checked_non_negative_usize (field : string) (value : Z) : DhtOptionsResult Z :=
  if (0 <=? value) && (value <=? u64_max) then Ok value else invalid_value field "a non-negative integer" value.

Definition checked_positive_usize (field : string) (value : Z) : DhtOptionsResult Z :=
  try value := checked_non_negative_usize field value in
  if value =? 0 then invalid_value field "an integer greater than or equal to 1" 0 else Ok value.

Definition checked_percentage (field : string) (value : Z) : DhtOptionsResult Z :=
  if negb ((0 <=? value) && (value <=? 100)) then invalid_value field "an integer in 0..=100" value
  else if (0 <=? value) && (value <=? 255) then Ok value else Panic.

Definition checked_netmode (value : Z) : DhtOptionsResult NetMode :=
  if value =? 0 then Ok Ipv4Only
  else if value =? 1 then Ok Ipv6Only
  else if value =? 2 then Ok DualStack
  else invalid_value "netMode" "one of 0, 1, or 2" value.

(** [env.get_field(obj, name, "I")?.i()?] and the same with ["J"] and [j]. *)
Context (get_int get_long : string → JniError + Z).

Definition field_i (name : string) : DhtOptionsResult Z :=
  match get_int name with inl e => Err (Jni e) | inr v => Ok v end.
Definition field_j (name : string) : DhtOptionsResult Z :=
  match get_long name with inl e => Err (Jni e) | inr v => Ok v end.

Definition java_to_dht_options : DhtOptionsResult DHTOptions :=
  try port := (try v := field_i "port" in checked_port v) in
  try metadata_timeout_secs :=
    (try v := field_j "metadataTimeout" in checked_non_negative_u64 "metadataTimeout" v) in
  try metadata_max_queue_size :=
    (try v := field_i "maxMetadataQueueSize" in checked_positive_usize "maxMetadataQueueSize" v) in
  try metadata_max_worker_count :=
    (try v := field_i "maxMetadataWorkerCount" in checked_positive_usize "maxMetadataWorkerCount" v) in
  try pool_capacity := (try v := field_i "poolCapacity" in checked_positive_usize "poolCapacity" v) in
  try find_node_rate :=
    (try v := field_i "findNodeRatePerSecond" in checked_non_negative_u32 "findNodeRatePerSecond" v) in
  try find_node_burst := (try v := field_i "findNodeBurst" in checked_non_negative_u32 "findNodeBurst" v) in
  try max_find_node_in_flight :=
    (try v := field_i "maxFindNodeInFlight" in checked_positive_usize "maxFindNodeInFlight" v) in
  try max_new_destinations :=
    (try v := field_i "maxNewDestinationsPerMinute" in
     checked_non_negative_u32 "maxNewDestinationsPerMinute" v) in
  try max_replacements :=
    (try v := field_i "maxReplacementsPerMinute" in checked_non_negative_u32 "maxReplacementsPerMinute" v) in
  try request_timeout_secs :=
    (try v := field_j "requestTimeoutSeconds" in checked_non_negative_u64 "requestTimeoutSeconds" v) in
  try max_response_rate :=
    (try v := field_i "maxResponseRatePerSecond" in checked_non_negative_u32 "maxResponseRatePerSecond" v) in
  try max_response_bytes :=
    (try v := field_j "maxResponseBytesPerSecond" in checked_non_negative_u64 "maxResponseBytesPerSecond" v) in
  try max_response_per_source :=
    (try v := field_i "maxResponseRatePerSource" in checked_non_negative_u32 "maxResponseRatePerSource" v) in
  try pressure_floor :=
    (try v := field_i "metadataPressureFloorPercent" in checked_percentage "metadataPressureFloorPercent" v) in
  try recent_probe_ttl :=
    (try v := field_j "recentProbeTtlSeconds" in checked_non_negative_u64 "recentProbeTtlSeconds" v) in
  try responsive_capacity :=
    (try v := field_i "responsiveCapacity" in checked_positive_usize "responsiveCapacity" v) in
  try responsive_ttl :=
    (try v := field_j "responsiveTtlSeconds" in checked_non_negative_u64 "responsiveTtlSeconds" v) in
  try low_watermark :=
    (try v := field_i "poolLowWatermark" in checked_non_negative_usize "poolLowWatermark" v) in
  if pool_capacity <? low_watermark then
    if low_watermark <=? i64_max
    then invalid_value "poolLowWatermark" "an integer no greater than poolCapacity" low_watermark
    else Panic
  else
  try subnet_in_flight :=
    (try v := field_i "maxInFlightPerSubnet" in checked_positive_usize "maxInFlightPerSubnet" v) in
  try hash_queue_capacity :=
    (try v := field_i "hashQueueCapacity" in checked_positive_usize "hashQueueCapacity" v) in
  try netmode := (try v := field_i "netMode" in checked_netmode v) in
  let metadata := MetadataOptions_default in
  let crawl := CrawlOptions_default in
  let pool := co_pool crawl in
  Ok (mkDHTOptions port netmode hash_queue_capacity
        (mkMetadataOptions metadata_timeout_secs metadata_max_queue_size metadata_max_worker_count
           (mo_peer_failure_cache_capacity metadata) (mo_peer_failure_ttl_secs metadata)
           (mo_retry_initial_delay_secs metadata) (mo_retry_max_delay_secs metadata)
           (mo_retry_max_attempts metadata) (mo_retry_history_ttl_secs metadata)
           (mo_retry_history_capacity metadata))
        (dh_peer_lookup DHTOptions_default) (dh_discovery DHTOptions_default)
        (mkCrawlOptions
           (mkPoolOptions pool_capacity recent_probe_ttl responsive_capacity responsive_ttl
              (pl_revisit_interval_secs pool) low_watermark)
           (mkRateLimitOptions find_node_rate find_node_burst max_find_node_in_flight request_timeout_secs
              max_new_destinations max_response_rate max_response_bytes max_response_per_source pressure_floor
              max_replacements subnet_in_flight)
           (co_bootstrap crawl) (co_target crawl) (co_scheduler crawl))).

(** [null]: the object is a null reference. *)
Definition java_to_dht_options_or_default (null : bool) : DhtOptionsResult DHTOptions :=
  if null then Ok DHTOptions_default else java_to_dht_options.

(** ** What the conversion promises *)

(** The value of a field, and why a value is refused. *)
Definition read (x : string * bool) : JniError + Z := if x.2 then get_long x.1 else get_int x.1.
Definition value (name : string) (long : bool) : Z :=
  match read (name, long) with inl _ => 0 | inr v => v end.

Definition c_port (v : Z) : option string :=
  if decide (0 ≤ v ≤ 65535) then None else Some "an integer in 0..=65535".
Definition c_non_negative (v : Z) : option string :=
  if decide (0 ≤ v) then None else Some "a non-negative integer".
Definition c_positive (v : Z) : option string :=
  if decide (v = 0) then Some "an integer greater than or equal to 1" else c_non_negative v.
Definition c_percent (v : Z) : option string :=
  if decide (0 ≤ v ≤ 100) then None else Some "an integer in 0..=100".
Definition c_watermark (v : Z) : option string :=
  if decide (0 ≤ v ∧ value "poolCapacity" false < v) then Some "an integer no greater than poolCapacity"
  else c_non_negative v.
Definition c_netmode (v : Z) : option string :=
  if decide (0 ≤ v ≤ 2) then None else Some "one of 0, 1, or 2".

(** The fields of the Java object in the order they are read, [true] for a
    [long]. *)
Definition schema : list (string * bool * (Z → option string)) :=
  [("port", false, c_port); ("metadataTimeout", true, c_non_negative);
   ("maxMetadataQueueSize", false, c_positive); ("maxMetadataWorkerCount", false, c_positive);
   ("poolCapacity", false, c_positive); ("findNodeRatePerSecond", false, c_non_negative);
   ("findNodeBurst", false, c_non_negative); ("maxFindNodeInFlight", false, c_positive);
   ("maxNewDestinationsPerMinute", false, c_non_negative); ("maxReplacementsPerMinute", false, c_non_negative);
   ("requestTimeoutSeconds", true, c_non_negative); ("maxResponseRatePerSecond", false, c_non_negative);
   ("maxResponseBytesPerSecond", true, c_non_negative); ("maxResponseRatePerSource", false, c_non_negative);
   ("metadataPressureFloorPercent", false, c_percent); ("recentProbeTtlSeconds", true, c_non_negative);
   ("responsiveCapacity", false, c_positive); ("responsiveTtlSeconds", true, c_non_negative);
   ("poolLowWatermark", false, c_watermark); ("maxInFlightPerSubnet", false, c_positive);
   ("hashQueueCapacity", false, c_positive); ("netMode", false, c_netmode)].

Definition field_error (x : string * bool * (Z → option string)) : option DhtOptionsConversionError :=
  match read x.1 with
  | inl e => Some (Jni e)
  | inr v => (λ expected, InvalidValue x.1.1 expected v) <$> x.2 v
  end.

Fixpoint first_error (l : list (string * bool * (Z → option string))) : option DhtOptionsConversionError :=
  match l with
  | [] => None
  | x :: l => match field_error x with Some e => Some e | None => first_error l end
  end.

(** The Java object that describes options. *)
Definition netmode_code (m : NetMode) : Z := match m with Ipv4Only => 0 | Ipv6Only => 1 | DualStack => 2 end.
Definition dto (o : DHTOptions) : list Z :=
  let rl := co_rate_limit (dh_crawl o) in
  let pl := co_pool (dh_crawl o) in
  [dh_port o; mo_timeout_secs (dh_metadata o); mo_max_queue_size (dh_metadata o);
   mo_max_worker_count (dh_metadata o); pl_capacity pl; rl_max_find_node_rate_per_sec rl; rl_burst rl;
   rl_max_in_flight rl; rl_max_new_destinations_per_minute rl; rl_max_replacements_per_minute rl;
   rl_request_timeout_secs rl; rl_max_response_rate_per_sec rl; rl_max_response_bytes_per_sec rl;
   rl_max_response_rate_per_source rl; rl_metadata_pressure_floor_percent rl; pl_recent_probe_ttl_secs pl;
   pl_responsive_capacity pl; pl_responsive_ttl_secs pl; pl_low_watermark pl; rl_max_in_flight_per_subnet rl;
   dh_hash_queue_capacity o; netmode_code (dh_netmode o)].

(** The parts of the options that Java cannot set. *)
Definition fixed_parts (o : DHTOptions) : Prop :=
  dh_peer_lookup o = PeerLookupOptions_default ∧ dh_discovery o = DiscoveryOptions_default
  ∧ co_bootstrap (dh_crawl o) = BootstrapOptions_default ∧ co_target (dh_crawl o) = TargetOptions_default
  ∧ co_scheduler (dh_crawl o) = SchedulerOptions_default
  ∧ pl_revisit_interval_secs (co_pool (dh_crawl o)) = pl_revisit_interval_secs PoolOptions_default
  ∧ dh_metadata o
    = mkMetadataOptions (mo_timeout_secs (dh_metadata o)) (mo_max_queue_size (dh_metadata o))
        (mo_max_worker_count (dh_metadata o)) 200000 60 60 3600 5 21600 100000.

(** What Java guarantees of an [int] and of a [long]. *)
Definition in_java_range : Prop :=
  (∀ n v, get_int n = inr v → i32_min ≤ v ≤ i32_max) ∧ (∀ n v, get_long n = inr v → - 2 ^ 63 ≤ v ≤ i64_max).

Section ranges.
Hypothesis ranges : in_java_range.

(** The rest of the conversion after one field, against the rest of the
    schema. *)
Definition conforms (l : list (string * bool * (Z → option string))) (r : DhtOptionsResult DHTOptions)
    (o : DHTOptions) : Prop :=
  r = match first_error l with Some e => Err e | None => Ok o end.

Lemma conforms_step {A} (n : string) (long : bool) (c : Z → option string) l (chk : Z → DhtOptionsResult A)
    (g : Z → A) (k : A → DhtOptionsResult DHTOptions) o :
  (∀ v, read (n, long) = inr v →
    chk v = match c v with Some expected => Err (InvalidValue n expected v) | None => Ok (g v) end) →
  (c (value n long) = None → conforms l (k (g (value n long))) o) →
  conforms ((n, long, c) :: l) (and_then (and_then (if long then field_j n else field_i n) chk) k) o.
Proof.
  unfold conforms. cbn [first_error]. unfold field_error, value, field_i, field_j, read. cbn [fst snd]. intros Hc Hk.
  destruct long; [destruct (get_long n) as [e|v]|destruct (get_int n) as [e|v]]; cbn [and_then] in *; try done;
    rewrite (Hc v eq_refl); destruct (c v); cbn [and_then fmap option_fmap option_map]; try done; by apply Hk.
Qed.

Lemma read_range n long v : read (n, long) = inr v → (long = false → i32_min ≤ v ≤ i32_max) ∧ - 2 ^ 63 ≤ v ≤ i64_max.
Proof.
  destruct ranges as [Hi Hj]. unfold read. destruct long; cbn; intros H.
  - split; [done|]. by eapply Hj.
  - apply Hi in H. split; [done|]. unfold i32_min, i32_max, i64_max in *. lia.
Qed.

(** *** The checks agree with the schema *)

Ltac check_agrees :=
  unfold i32_min, i32_max, i64_max, u32_max, u64_max in *; cbn [and_then];
  repeat (match goal with
  | |- context [?a <=? ?b] => destruct (Z.leb_spec a b)
  | |- context [?a =? ?b] => destruct (Z.eqb_spec a b)
  end; cbn [andb negb and_then]); repeat case_decide; subst; solve [lia|done].

Lemma port_agrees v :
  checked_port v = match c_port v with Some expected => Err (InvalidValue "port" expected v) | None => Ok v end.
Proof. unfold checked_port, c_port. check_agrees. Qed.

Lemma u32_agrees n f v : read (n, false) = inr v →
  checked_non_negative_u32 f v
  = match c_non_negative v with Some expected => Err (InvalidValue f expected v) | None => Ok v end.
Proof. intros [Hi _]%read_range. specialize (Hi eq_refl). unfold checked_non_negative_u32, c_non_negative. check_agrees. Qed.

Lemma u64_agrees n long f v : read (n, long) = inr v →
  checked_non_negative_u64 f v
  = match c_non_negative v with Some expected => Err (InvalidValue f expected v) | None => Ok v end.
Proof. intros [_ Hj]%read_range. unfold checked_non_negative_u64, c_non_negative. check_agrees. Qed.

Lemma positive_agrees n long f v : read (n, long) = inr v →
  checked_positive_usize f v
  = match c_positive v with Some expected => Err (InvalidValue f expected v) | None => Ok v end.
Proof.
  intros [_ Hj]%read_range.
  unfold checked_positive_usize, checked_non_negative_usize, c_positive, c_non_negative. check_agrees.
Qed.

Lemma percentage_agrees f v :
  checked_percentage f v = match c_percent v with Some expected => Err (InvalidValue f expected v) | None => Ok v end.
Proof. unfold checked_percentage, c_percent. check_agrees. Qed.

Definition netmode_of (v : Z) : NetMode := if v =? 0 then Ipv4Only else if v =? 1 then Ipv6Only else DualStack.

Lemma netmode_agrees v :
  checked_netmode v
  = match c_netmode v with Some expected => Err (InvalidValue "netMode" expected v) | None => Ok (netmode_of v) end.
Proof. unfold checked_netmode, c_netmode, netmode_of. check_agrees. Qed.

(** The options a readable and valid object describes. *)
Definition described : DHTOptions :=
  let i n := value n false in
  let j n := value n true in
  mkDHTOptions (i "port") (netmode_of (i "netMode")) (i "hashQueueCapacity")
    (mkMetadataOptions (j "metadataTimeout") (i "maxMetadataQueueSize") (i "maxMetadataWorkerCount")
       200000 60 60 3600 5 21600 100000)
    PeerLookupOptions_default DiscoveryOptions_default
    (mkCrawlOptions
       (mkPoolOptions (i "poolCapacity") (j "recentProbeTtlSeconds") (i "responsiveCapacity")
          (j "responsiveTtlSeconds") 0 (i "poolLowWatermark"))
       (mkRateLimitOptions (i "findNodeRatePerSecond") (i "findNodeBurst") (i "maxFindNodeInFlight")
          (j "requestTimeoutSeconds") (i "maxNewDestinationsPerMinute") (i "maxResponseRatePerSecond")
          (j "maxResponseBytesPerSecond") (i "maxResponseRatePerSource") (i "metadataPressureFloorPercent")
          (i "maxReplacementsPerMinute") (i "maxInFlightPerSubnet"))
       BootstrapOptions_default TargetOptions_default SchedulerOptions_default).

(** The watermark is checked in two places. *)
Lemma conforms_watermark l (k : Z → DhtOptionsResult DHTOptions) o :
  (c_watermark (value "poolLowWatermark" false) = None → conforms l (k (value "poolLowWatermark" false)) o) →
  conforms (("poolLowWatermark", false, c_watermark) :: l)
    (and_then (and_then (field_i "poolLowWatermark") (checked_non_negative_usize "poolLowWatermark"))
       (λ low, if value "poolCapacity" false <? low then
                 if low <=? i64_max
                 then invalid_value "poolLowWatermark" "an integer no greater than poolCapacity" low else Panic
               else k low)) o.
Proof.
  unfold conforms. cbn [first_error]. unfold field_error, field_i, read. cbn [fst snd]. intros Hk.
  destruct (get_int "poolLowWatermark") as [e|v] eqn:Hv; [done|]. cbn [and_then].
  assert (value "poolLowWatermark" false = v) as Hval by (unfold value, read; cbn; by rewrite Hv).
  rewrite Hval in Hk. pose proof (read_range "poolLowWatermark" false v Hv) as [_ Hj].
  unfold checked_non_negative_usize, c_watermark, c_non_negative, invalid_value, i64_max, u64_max in *.
  destruct (Z.leb_spec 0 v), (Z.leb_spec v 18446744073709551615); try lia; cbn [andb and_then].
  - destruct (Z.ltb_spec (value "poolCapacity" false) v), (Z.leb_spec v (2 ^ 63 - 1)); try lia.
    + rewrite decide_True by lia. done.
    + rewrite decide_False in Hk |- * by lia. rewrite decide_True in Hk |- * by lia. by apply Hk.
  - rewrite decide_False by lia. by rewrite decide_False by lia.
Qed.

(** One field of the conversion with the lemma for its check. *)
Ltac field long g chk :=
  apply (conforms_step _ long _ _ _ g);
  [intros v Hr; first [exact (chk v)|exact (chk _ v Hr)|exact (chk _ _ _ v Hr)|exact (chk _ _ v Hr)]|intros _].

Lemma conversion_conforms : conforms schema java_to_dht_options described.
Proof.
  unfold schema, java_to_dht_options.
  field false (λ v : Z, v) port_agrees. field true (λ v : Z, v) u64_agrees.
  do 3 field false (λ v : Z, v) positive_agrees. do 2 field false (λ v : Z, v) u32_agrees.
  field false (λ v : Z, v) positive_agrees. do 2 field false (λ v : Z, v) u32_agrees.
  field true (λ v : Z, v) u64_agrees. field false (λ v : Z, v) u32_agrees. field true (λ v : Z, v) u64_agrees.
  field false (λ v : Z, v) u32_agrees. field false (λ v : Z, v) (percentage_agrees "metadataPressureFloorPercent").
  field true (λ v : Z, v) u64_agrees. field false (λ v : Z, v) positive_agrees. field true (λ v : Z, v) u64_agrees.
  apply conforms_watermark. intros _. do 2 field false (λ v : Z, v) positive_agrees.
  field false netmode_of netmode_agrees. reflexivity.
Qed.

Lemma first_error_none l : first_error l = None → Forall (λ x, x.2 (value x.1.1 x.1.2) = None) l.
Proof.
  induction l as [|[[n long] c] l IH]; cbn [first_error]; [by constructor|].
  unfold field_error. cbn [fst snd]. intros H. constructor; cbn [fst snd]; unfold value, read in *; cbn [fst snd] in *;
    destruct long; [destruct (get_long n)|destruct (get_int n)|destruct (get_long n)|destruct (get_int n)]; try done;
    (destruct (c z); [done|]); auto.
Qed.

Lemma c_positive_none v : c_positive v = None → 1 ≤ v.
Proof. unfold c_positive, c_non_negative. repeat case_decide; try done. lia. Qed.
Lemma c_non_negative_none v : c_non_negative v = None → 0 ≤ v.
Proof. unfold c_non_negative. by case_decide. Qed.

Lemma netmode_code_of v : c_netmode v = None → netmode_code (netmode_of v) = v.
Proof.
  unfold c_netmode, netmode_of. case_decide; [|done]. intros _.
  destruct (Z.eqb_spec v 0); [done|]. destruct (Z.eqb_spec v 1); [done|]. cbn. lia.
Qed.

Lemma value_bound n : value n false ≤ i32_max.
Proof.
  unfold value. destruct (read (n, false)) as [e|v] eqn:E; [unfold i32_max; lia|].
  apply read_range in E as [Hi _]. by apply Hi.
Qed.

End ranges.

(** Zero counts as one. *)
Definition or_one (v : Z) : Z := if v =? 0 then 1 else v.

(** The configuration that takes every option as it is, except that a zero
    time or burst counts as one, and that without a rate there is no burst. *)
Definition as_asked (o : CrawlOptions) : ResolvedCrawlConfig :=
  let rl := co_rate_limit o in
  let pl := co_pool o in
  let bo := co_bootstrap o in
  let tg := co_target o in
  let so := co_scheduler o in
  {| cf_max_find_node_rate_per_sec := rl_max_find_node_rate_per_sec rl;
     cf_burst := if rl_max_find_node_rate_per_sec rl =? 0 then 0 else or_one (rl_burst rl);
     cf_max_in_flight := rl_max_in_flight rl;
     cf_request_timeout := from_secs (or_one (rl_request_timeout_secs rl));
     cf_max_new_destinations_per_minute := rl_max_new_destinations_per_minute rl;
     cf_max_response_rate_per_sec := rl_max_response_rate_per_sec rl;
     cf_max_response_bytes_per_sec := rl_max_response_bytes_per_sec rl;
     cf_max_response_rate_per_source := rl_max_response_rate_per_source rl;
     cf_metadata_pressure_floor_percent := rl_metadata_pressure_floor_percent rl;
     cf_pool_capacity := pl_capacity pl;
     cf_max_replacements_per_minute := rl_max_replacements_per_minute rl;
     cf_recent_probe_ttl := from_secs (or_one (pl_recent_probe_ttl_secs pl));
     cf_responsive_capacity := pl_responsive_capacity pl;
     cf_responsive_ttl := from_secs (or_one (pl_responsive_ttl_secs pl));
     cf_revisit_interval := from_secs (pl_revisit_interval_secs pl);
     cf_low_watermark := pl_low_watermark pl;
     cf_max_in_flight_per_subnet := rl_max_in_flight_per_subnet rl;
     cf_bootstrap_nodes := bo_nodes bo;
     cf_bootstrap_interval := from_secs (bo_interval_secs bo);
     cf_bootstrap_max_nodes_per_round := bo_max_nodes_per_round bo;
     cf_bootstrap_backoff_base := from_secs (bo_source_backoff_base_secs bo);
     cf_bootstrap_backoff_max := from_secs (bo_source_backoff_max_secs bo);
     cf_random_walk_percent := tg_random_walk_percent tg;
     cf_sparse_bucket_percent := tg_sparse_bucket_percent tg;
     cf_neighbor_sender_id := tg_neighbor_sender_id tg;
     cf_priority_event_channel_capacity := so_priority_event_channel_capacity so;
     cf_discovery_event_channel_capacity := so_discovery_event_channel_capacity so;
     cf_event_batch_limit := so_event_batch_limit so;
     cf_node_batch_limit := so_node_batch_limit so;
     cf_routing_snapshot_size := so_routing_snapshot_size so;
     cf_snapshot_refresh := from_millis (so_snapshot_refresh_millis so) |}.

(** Options that resolve as asked, to limits the crawl can work with, and whose
    channels have room. *)
Definition usable (o : DHTOptions) : Prop :=
  from_options (dh_crawl o) = as_asked (dh_crawl o) ∧ config_ok (from_options (dh_crawl o))
  ∧ 1 ≤ dh_hash_queue_capacity o ∧ 1 ≤ mo_max_queue_size (dh_metadata o) ∧ 1 ≤ mo_max_worker_count (dh_metadata o)
  ∧ 0 ≤ dh_port o ≤ 65535 ∧ pl_capacity (co_pool (dh_crawl o)) ≤ i32_max.

Lemma or_one_max v : 0 ≤ v → Z.max v 1 = or_one v.
Proof. unfold or_one. destruct (Z.eqb_spec v 0); lia. Qed.

Lemma described_usable :
  in_java_range → Forall (λ x, x.2 (value x.1.1 x.1.2) = None) schema → usable described.
Proof.
  intros Hr E. unfold schema in E. rewrite !Forall_cons in E. cbn [fst snd] in E. destruct_and! E.
  repeat match goal with
  | H : c_positive _ = None |- _ => apply c_positive_none in H
  | H : c_non_negative _ = None |- _ => apply c_non_negative_none in H
  end.
  pose proof (value_bound Hr "poolCapacity").
  unfold c_port, c_percent, c_watermark, c_non_negative in *. repeat case_decide; simplify_eq.
  unfold usable. split; [|split; [apply from_options_ok; unfold crawl_options_ok; cbn; lia|cbn; lia]].
  unfold from_options, as_asked. cbn. rewrite <-!or_one_max by lia. f_equal; lia.
Qed.

Lemma dto_inj o o' : dto o = dto o' → fixed_parts o → fixed_parts o' → o = o'.
Proof.
  unfold fixed_parts. destruct o as [p m q [] l d [[] [] b t s]], o' as [p' m' q' [] l' d' [[] [] b' t' s']]. cbn.
  intros Hd (-> & -> & -> & -> & -> & -> & Hm) (-> & -> & -> & -> & -> & -> & Hm').
  injection Hm. injection Hm'. intros. subst. injection Hd. intros Hn. intros. subst.
  assert (m = m') as -> by (by destruct m, m'). done.
Qed.

(** C32: the options object of Java is converted exactly or refused with the
    right error.  Reading the fields in order, the first one that cannot be
    read or that is out of its documented range decides the error, which
    names that field, what was expected and the value found; nothing panics.
    If there is none, the options hold exactly the values of the object and
    the defaults elsewhere, and no other options do.  Every one of them then
    resolves to itself in the crawl's configuration, except that a zero burst,
    request timeout or time to live counts as one and that a zero rate has no
    burst; the capacities are positive, the watermark is within the pool, and
    the pool size fits a Java int. *)
Theorem options_conversion :
  in_java_range →
  match first_error schema with
  | Some e => java_to_dht_options = Err e
  | None =>
      ∃ o, java_to_dht_options = Ok o
        ∧ dto o = (λ x, value x.1.1 x.1.2) <$> schema
        ∧ fixed_parts o ∧ usable o
        ∧ ∀ o', dto o' = dto o → fixed_parts o' → o' = o
  end.
Proof.
  intros Hr. pose proof (conversion_conforms Hr) as Hc. unfold conforms in Hc.
  destruct (first_error schema) as [e|] eqn:E; [done|]. apply first_error_none in E.
  exists described. split; [done|].
  assert (dto described = (λ x, value x.1.1 x.1.2) <$> schema) as Hd.
  { unfold schema, dto, described. csimpl. do 21 f_equal. f_equal. apply netmode_code_of.
    rewrite Forall_forall in E. apply (E ("netMode", false, c_netmode)). rewrite list_elem_of_In. unfold schema. simpl. tauto. }
  split; [done|]. assert (fixed_parts described) as Hf by done. split; [done|]. split; [by apply described_usable|].
  intros o' Hd' Hf'. by apply dto_inj.
Qed.

End options.

Arguments Ok {JniError A} _.
Arguments Err {JniError A} _.
Arguments Panic {JniError A}.

(** An object whose fields are all 2, and one with a negative pool size. *)
Definition toy_int (n : string) : unit + Z := inr 2.
Definition toy_long (n : string) : unit + Z := inr 7.

Lemma options_conversion_witness :
  ∃ o, java_to_dht_options toy_int toy_long = Ok o ∧ dh_netmode o = DualStack ∧ usable o.
Proof.
  assert (in_java_range toy_int toy_long) as Hr.
  { split; intros n v [= <-]; unfold i32_min, i32_max, i64_max; lia. }
  pose proof (options_conversion toy_int toy_long Hr) as H.
  change (first_error toy_int toy_long (schema toy_int toy_long)) with (@None (@DhtOptionsConversionError unit)) in H.
  destruct H as (o & Ho & Hd & _ & Hu & _). exists o. split; [exact Ho|]. split; [|exact Hu].
  vm_compute in Ho. injection Ho as <-. reflexivity.
Defined.

Example negative_pool_refused :
  java_to_dht_options (λ n, if bool_decide (n = "poolCapacity") then inr (-3) else inr 2) toy_long
  = Err (InvalidValue "poolCapacity" "a non-negative integer" (-3)).
Proof. vm_compute. reflexivity. Qed.

End Options.

(** ** Objects for Java

    A local reference stays alive until it is deleted or its frame is left;
    a native method may keep at most sixteen of them unless it asks for more.
    Every call into the virtual machine may fail. *)

Module Objects.

Record TorrentInfo := mkTorrent {
  ti_info_hash : string;
  ti_magnet_link : string;
  ti_name : string;
  ti_total_size : Z;
  ti_files : list FileInfo;
  ti_piece_length : Z;
  ti_peers : list string;
  ti_timestamp : Z;
}.

(** The Java objects that are built. *)
Inductive jobject :=
  | JClass (name : string)
  | JString (s : string)
  | JFileInfo (path : jobject) (size : Z)
  | JTorrentInfo (info_hash magnet name : jobject) (total_size : Z) (files : jobject) (piece_length : Z)
      (peers : jobject) (timestamp : Z)
  | JArrayList (elements : list jobject).

(** [u64 as jlong] *)
Definition as_jlong (v : Z) : Z := if v <=? i64_max then v else v - 2 ^ 64.

Definition CLASS_TORRENT_INFO : string := "cn/lmcw/dht/model/TorrentInfo".
Definition CLASS_FILE_INFO : string := "cn/lmcw/dht/model/FileInfo".
Definition CLASS_ARRAY_LIST : string := "java/util/ArrayList".

(** [JNIEnv]: the calls made so far, the local references alive, and the most
    that ever were. *)
Record JNIEnv := mkEnv { calls : nat; live : Z; peak : Z }.

Section env.
Context {JniError : Type}.
(** The outcome of each call. *)
Context (fails : nat → option JniError).

Definition M (A : Type) : Type := JNIEnv → (JniError + A) * JNIEnv.

Definition ret {A} (a : A) : M A := λ env, (inr a, env).
Definition bind {A B} (m : M A) (k : A → M B) : M B :=
  λ env, match m env with (inl e, env) => (inl e, env) | (inr a, env) => k a env end.

Local Notation "'do' x := m 'in' k" := (bind m (λ x, k)) (at level 10, x name, m at level 100, k at level 200).

(** A call that returns no reference. *)
Definition call {A} (a : A) : M A :=
  λ env, let env' := mkEnv (S (calls env)) (live env) (peak env) in
         match fails (calls env) with Some e => (inl e, env') | None => (inr a, env') end.

Definition add_refs (n : Z) : M unit :=
  λ env, (inr tt, mkEnv (calls env) (live env + n) (Z.max (peak env) (live env + n))).

(** A call that returns a new local reference. *)
Definition new_ref (o : jobject) : M jobject := do o := call o in do u := add_refs 1 in ret o.

Definition find_class (name : string) : M jobject := new_ref (JClass name).
Definition new_string (s : string) : M jobject := new_ref (JString s).
Definition new_object (o : jobject) : M jobject := new_ref o.
Definition delete_local_ref (o : jobject) : M unit := do u := call tt in add_refs (-1).

(** [with_local_frame_returning_local]: the frame is popped on both paths;
    only the result is kept. *)
Definition with_local_frame_returning_local (f : M jobject) : M jobject :=
  do u := call tt in
  λ env, match f env with
         | (inl e, env') => (inl e, mkEnv (calls env') (live env) (peak env'))
         | (inr o, env') =>
             (inr o, mkEnv (calls env') (live env + 1) (Z.max (peak env') (live env + 1)))
         end.

Definition rust_str_to_jstring (s : string) : M jobject := new_string s.

Definition file_info_to_java (fi : FileInfo) : M jobject :=
  with_local_frame_returning_local
    (do cls := find_class CLASS_FILE_INFO in
     do path := rust_str_to_jstring (fi_path fi) in
     new_object (JFileInfo path (as_jlong (fi_size fi)))).

(** The loops call [list.add]; [elements] is what the list holds. *)
Fixpoint add_files (files : list FileInfo) (elements : list jobject) : M (list jobject) :=
  match files with
  | [] => ret elements
  | fi :: files =>
      do jfi := file_info_to_java fi in
      do u := call tt in
      do u := delete_local_ref jfi in
      add_files files (elements ++ [jfi])
  end.

Definition build_file_list (files : list FileInfo) : M jobject :=
  do list_cls := find_class CLASS_ARRAY_LIST in
  do list := new_object (JArrayList []) in
  do elements := add_files files [] in
  ret (JArrayList elements).

Fixpoint add_strings (strs : list string) (elements : list jobject) : M (list jobject) :=
  match strs with
  | [] => ret elements
  | s :: strs =>
      do js := rust_str_to_jstring s in
      do u := call tt in
      do u := delete_local_ref js in
      add_strings strs (elements ++ [js])
  end.

Definition build_string_list (strs : list string) : M jobject :=
  do list_cls := find_class CLASS_ARRAY_LIST in
  do list := new_object (JArrayList []) in
  do elements := add_strings strs [] in
  ret (JArrayList elements).

Definition torrent_info_to_java (ti : TorrentInfo) : M jobject :=
  do cls := find_class CLASS_TORRENT_INFO in
  do list := build_file_list (ti_files ti) in
  do peers_list := build_string_list (ti_peers ti) in
  do info_hash := rust_str_to_jstring (ti_info_hash ti) in
  do magnet := rust_str_to_jstring (ti_magnet_link ti) in
  do name := rust_str_to_jstring (ti_name ti) in
  new_object (JTorrentInfo info_hash magnet name (as_jlong (ti_total_size ti)) list
    (as_jlong (ti_piece_length ti)) peers_list (as_jlong (ti_timestamp ti))).

(** *** References *)

(** [m] keeps [keeps] more references when it succeeds with a value of [P],
    never has more than [most] more alive, and succeeds if no call fails. *)
Record uses {A} (m : M A) (keeps most : Z) (P : A → Prop) : Prop := {
  us_peak env : peak (m env).2 ≤ Z.max (peak env) (live env + most);
  us_result env : match (m env).1 with
                  | inr a => P a ∧ live (m env).2 = live env + keeps
                  | inl _ => True
                  end;
  us_total env : (∀ n, fails n = None) → ∃ a, (m env).1 = inr a;
}.

Lemma uses_ret {A} (a : A) (P : A → Prop) : P a → uses (ret a) 0 0 P.
Proof. intros Ha. split; intros env; cbn; [lia|split; [done|lia]|by eexists]. Qed.

Lemma uses_call {A} (a : A) : uses (call a) 0 0 (λ b, b = a).
Proof.
  split; intros env; unfold call; destruct (fails (calls env)) eqn:E; cbn; try lia; try (split; [done|lia]).
  - intros H. congruence.
  - by eexists.
Qed.

Lemma uses_bind {A B} (m : M A) (k : A → M B) n1 h1 n2 h2 P Q :
  uses m n1 h1 P → (∀ a, P a → uses (k a) n2 h2 Q) → uses (bind m k) (n1 + n2) (Z.max h1 (n1 + h2)) Q.
Proof.
  intros [Hp Hr Ht] Hk.
  split; intros env; unfold bind; specialize (Hp env); specialize (Hr env); specialize (Ht env);
    destruct (m env) as [[e|a] env']; cbn [fst snd] in *; try done; try lia.
  - destruct Hr as [Ha Hl]. destruct (Hk a Ha) as [Hp' _ _]. specialize (Hp' env'). lia.
  - destruct Hr as [Ha Hl]. destruct (Hk a Ha) as [_ Hr' _]. specialize (Hr' env'). destruct (k a env') as [[|]]; cbn in *; [done|].
    destruct Hr' as [? ->]. split; [done|lia].
  - intros H. by destruct (Ht H).
  - intros H. destruct Hr as [Ha Hl]. destruct (Hk a Ha) as [_ _ Ht']. by apply Ht'.
Qed.

Lemma uses_weaken {A} (m : M A) n h n' h' (P Q : A → Prop) :
  uses m n h P → n = n' → h ≤ h' → (∀ a, P a → Q a) → uses m n' h' Q.
Proof.
  intros [Hp Hr Ht] <- Hh HPQ. split; intros env; [specialize (Hp env); lia| |by apply Ht].
  specialize (Hr env). destruct (m env) as [[e|a] env']; [done|]. cbn in *. destruct Hr. auto.
Qed.

Lemma uses_add n : uses (add_refs n) n n (λ _, True).
Proof. split; intros env; cbn; [lia|split; [done|lia]|by eexists]. Qed.

Lemma uses_frame (f : M jobject) n h P : uses f n h P → uses (with_local_frame_returning_local f) 1 (Z.max h 1) P.
Proof.
  intros [Hp Hr Ht]. unfold with_local_frame_returning_local.
  eapply (uses_weaken _ (0 + 1) (Z.max 0 (0 + Z.max h 1))); [|lia..|done]. eapply uses_bind; [apply uses_call|]. intros _ _.
  split; intros env; specialize (Hp env); specialize (Hr env); specialize (Ht env);
    destruct (f env) as [[e|a] env']; cbn [fst snd peak live] in *; try done; try lia.
  by destruct Hr.
Qed.

(** Chains the rules along a sequence of calls. *)
Ltac refs := repeat (eapply uses_bind; [solve [eauto using uses_call, uses_add]|intros ? ?; subst]).

Lemma uses_new_ref o : uses (new_ref o) 1 1 (λ r, r = o).
Proof.
  unfold new_ref. eapply (uses_weaken _ (0 + (1 + 0)) (Z.max 0 (0 + Z.max 1 (1 + 0)))); [|lia|lia|intros a H; exact H].
  refs. by apply uses_ret.
Qed.

Lemma uses_delete o : uses (delete_local_ref o) (-1) 0 (λ _, True).
Proof.
  unfold delete_local_ref. eapply (uses_weaken _ (0 + -1) (Z.max 0 (0 + -1))); [|lia|lia|done].
  refs. apply uses_add.
Qed.

(** The Java objects of files, strings and torrents. *)
Definition java_file (fi : FileInfo) : jobject := JFileInfo (JString (fi_path fi)) (as_jlong (fi_size fi)).
Definition java_torrent (ti : TorrentInfo) : jobject :=
  JTorrentInfo (JString (ti_info_hash ti)) (JString (ti_magnet_link ti)) (JString (ti_name ti))
    (as_jlong (ti_total_size ti)) (JArrayList (java_file <$> ti_files ti)) (as_jlong (ti_piece_length ti))
    (JArrayList (JString <$> ti_peers ti)) (as_jlong (ti_timestamp ti)).

Lemma uses_file fi : uses (file_info_to_java fi) 1 3 (λ o, o = java_file fi).
Proof.
  unfold file_info_to_java. eapply (uses_weaken _ 1 (Z.max 3 1)); [|lia|lia|intros o H; exact H].
  apply (uses_frame _ 3). eapply (uses_weaken _ (1 + (1 + 1)) (Z.max 1 (1 + Z.max 1 (1 + 1)))); [|lia|lia|intros o H; exact H].
  do 2 (eapply uses_bind; [apply uses_new_ref|intros ? ->]). apply uses_new_ref.
Qed.

Lemma uses_add_files files acc : uses (add_files files acc) 0 3 (λ l, l = acc ++ (java_file <$> files)).
Proof.
  revert acc; induction files as [|fi files IH]; intros acc.
  { eapply uses_weaken; [apply (uses_ret acc (λ l, l = acc)); done|lia|lia|]. intros a ->. by rewrite app_nil_r. }
  cbn [add_files].
  eapply (uses_weaken _ (1 + (0 + (-1 + 0))) (Z.max 3 (1 + Z.max 0 (0 + Z.max 0 (-1 + 3))))); [|lia|lia|intros l H; exact H].
  eapply uses_bind; [apply uses_file|intros ? ->]. eapply uses_bind; [apply uses_call|intros ? _].
  eapply uses_bind; [apply uses_delete|intros ? _]. eapply uses_weaken; [apply IH|done|done|].
  intros l ->. by rewrite <-(assoc_L (++)).
Qed.

Lemma uses_add_strings strs acc : uses (add_strings strs acc) 0 1 (λ l, l = acc ++ (JString <$> strs)).
Proof.
  revert acc; induction strs as [|x strs IH]; intros acc.
  { eapply uses_weaken; [apply (uses_ret acc (λ l, l = acc)); done|lia|lia|]. intros a ->. by rewrite app_nil_r. }
  cbn [add_strings].
  eapply (uses_weaken _ (1 + (0 + (-1 + 0))) (Z.max 1 (1 + Z.max 0 (0 + Z.max 0 (-1 + 1))))); [|lia|lia|intros l H; exact H].
  eapply uses_bind; [apply uses_new_ref|intros ? ->]. eapply uses_bind; [apply uses_call|intros ? _].
  eapply uses_bind; [apply uses_delete|intros ? _]. eapply uses_weaken; [apply IH|done|done|].
  intros l ->. by rewrite <-(assoc_L (++)).
Qed.

Lemma uses_list (m : M (list jobject)) h P :
  uses m 0 h P → 0 ≤ h →
  uses (bind (find_class CLASS_ARRAY_LIST) (λ _, bind (new_object (JArrayList [])) (λ _, bind m (λ l, ret (JArrayList l)))))
    2 (2 + h) (λ o, ∃ l, o = JArrayList l ∧ P l).
Proof.
  intros Hm Hh. eapply (uses_weaken _ (1 + (1 + (0 + 0))) (Z.max 1 (1 + Z.max 1 (1 + Z.max h (0 + 0)))));
    [|lia|lia|intros o H; exact H].
  do 2 (eapply uses_bind; [apply uses_new_ref|intros ? _]). eapply uses_bind; [apply Hm|]. intros l Hl.
  apply uses_ret. by exists l.
Qed.

Lemma uses_torrent ti : uses (torrent_info_to_java ti) 9 9 (λ o, o = java_torrent ti).
Proof.
  unfold torrent_info_to_java.
  eapply (uses_weaken _ (1 + (2 + (2 + (1 + (1 + (1 + 1))))))
    (Z.max 1 (1 + Z.max 5 (2 + Z.max 3 (2 + Z.max 1 (1 + Z.max 1 (1 + Z.max 1 (1 + 1))))))));
    [|lia|lia|intros o H; exact H].
  eapply uses_bind; [apply uses_new_ref|intros ? _].
  eapply uses_bind; [apply (uses_list _ 3); [apply uses_add_files|lia]|]. intros ? (l & -> & ->).
  eapply uses_bind; [apply (uses_list _ 1); [apply uses_add_strings|lia]|]. intros ? (l' & -> & ->).
  do 3 (eapply uses_bind; [apply uses_new_ref|intros ? ->]). apply uses_new_ref.
Qed.

(** C35: a torrent is reported faithfully and with few local references.
    However many files and peers it has, and whichever call into the virtual
    machine fails, at most nine local references are alive at once, within the
    sixteen that Java guarantees.  When a call fails the error is returned;
    when none does, the Java object has exactly the strings, the files and
    the peers in order, and every number is unchanged when it fits a Java
    long and is reported as its value modulo 2^64 otherwise. *)
Theorem torrent_to_java_correct (ti : TorrentInfo) (env : JNIEnv) :
  let '(r, env') := torrent_info_to_java ti env in
  peak env' ≤ Z.max (peak env) (live env + 9)
  ∧ (∀ o, r = inr o → o = java_torrent ti ∧ live env' = live env + 9)
  ∧ ((∀ n, fails n = None) → r = inr (java_torrent ti))
  ∧ (∀ v, 0 ≤ v ≤ u64_max → - 2 ^ 63 ≤ as_jlong v ≤ i64_max ∧ as_jlong v `mod` 2 ^ 64 = v
      ∧ (v ≤ i64_max → as_jlong v = v)).
Proof.
  destruct (uses_torrent ti) as [Hp Hr Ht]. specialize (Hp env). specialize (Hr env). specialize (Ht env).
  destruct (torrent_info_to_java ti env) as [r env']. cbn [fst snd] in *. split; [done|]. split_and!.
  - by intros o ->.
  - intros H. destruct (Ht H) as [o ->]. by destruct Hr as [-> _].
  - intros v Hv. unfold as_jlong, i64_max, u64_max in *. destruct (Z.leb_spec v (2 ^ 63 - 1)).
    + split_and!; [lia|lia|apply Z.mod_small; lia|done].
    + split_and!; [lia|lia| |lia]. symmetry. apply (Z.mod_unique_pos _ _ (-1)); lia.
Qed.

End env.

End Objects.

(** ** The native methods

    A server handle is a raw pointer that Java keeps as a [long]; using one
    that was released is undefined behaviour, which the model makes a result
    of its own. *)

Module Exports.

Import Options.

Inductive exception := IllegalArgumentException | RuntimeException.

(** What the model keeps of a [ServerHandle]: its options, whether shutdown
    was requested and how often [start] was spawned. *)
Record ServerHandle := mkHandle { options : DHTOptions; cancelled : bool; starts : nat }.

(** The boxes that are alive, by address, and the handles dropped. *)
Record heap := mkHeap { boxes : gmap Z ServerHandle; dropped : list ServerHandle }.

(** The return value, or undefined behaviour, and the exception thrown. *)
Inductive outcome (A : Type) := Returned (a : A) (thrown : option exception) | Undefined.
Arguments Returned {A} _ _.
Arguments Undefined {A}.

(** A Rust body: its value and exception, or a panic. *)
Inductive body (A : Type) := Done (a : A) (thrown : option exception) | Panicked | Invalid.
Arguments Done {A} _ _.
Arguments Panicked {A}.
Arguments Invalid {A}.

Definition jni_catch {A} (default : A) (b : body A) : outcome A :=
  match b with
  | Done a thrown => Returned a thrown
  | Panicked => Returned default (Some RuntimeException)
  | Invalid => Undefined
  end.

(** [ServerHandle::new]: the runtime and the server may fail to start. *)
Inductive created := Started (h : ServerHandle) | Refused | CreationPanicked.
Definition handle_new (runtime_ok : bool) (server_new : DHTOptions → option bool) (o : DHTOptions) : created :=
  if runtime_ok then
    match server_new o with
    | Some true => Started (mkHandle o false 0)
    | Some false => Refused
    | None => CreationPanicked
    end
  else Refused.

(** [Box::into_raw] at the address the allocator chose. *)
Definition into_handle_ptr (m : heap) (h : ServerHandle) (address : Z) : Z * heap := 
  (address, mkHeap (<[address := h]> (boxes m)) (dropped m)).

(** [handle_ref] and [take_handle]: [None] for a null pointer, [Some None]
    for a dangling one. *)
Definition handle_ref (m : heap) (ptr : Z) : option (option ServerHandle) :=
  if ptr =? 0 then None else Some (boxes m !! ptr).
Definition take_handle (m : heap) (ptr : Z) : option (option (ServerHandle * heap)) :=
  if ptr =? 0 then None
  else Some (match boxes m !! ptr with
             | Some h => Some (h, mkHeap (delete ptr (boxes m)) (dropped m))
             | None => None
             end).

(** [shutdown_and_destroy_in_background]: the handle is dropped on the
    background thread, or with its closure when the thread cannot be
    created. *)
Definition shutdown_and_destroy_in_background (m : heap) (h : ServerHandle) : heap :=
  mkHeap (boxes m) (mkHandle (options h) true (starts h) :: dropped m).

(** A [ServerHandle] that goes out of scope: nothing tells the server to shut
    down. *)
Definition drop_handle (m : heap) (h : ServerHandle) : heap := mkHeap (boxes m) (h :: dropped m).

Definition start (h : ServerHandle) : ServerHandle := mkHandle (options h) (cancelled h) (S (starts h)).

Section natives.
Context {JniError : Type}.

(** The inputs of one creation: the converted options, whether the runtime and
    the server could be created, whether a listener was passed, whether it
    could be registered ([None] is a panic), and the address of the box. *)
Record creation := mkCreation {
  opts : @DhtOptionsResult JniError DHTOptions;
  runtime_ok : bool;
  server_new : DHTOptions → option bool;
  listener : bool;
  callback_new : option bool;
  address : Z;
}.

Definition createServer (m : heap) (c : creation) : outcome Z * heap :=
  let '(b, m) :=
    match opts c with
    | Panic => (Panicked, m)
    | Err _ => (Done 0 (Some IllegalArgumentException), m)
    | Ok o =>
        match handle_new (runtime_ok c) (server_new c) o with
        | CreationPanicked => (Panicked, m)
        | Refused => (Done 0 (Some RuntimeException), m)
        | Started h =>
            match (if listener c then callback_new c else Some true) with
            | Some true => let '(ptr, m) := into_handle_ptr m h (address c) in (Done ptr None, m)
            | Some false => (Done 0 (Some RuntimeException), drop_handle m h)
            | None => (Panicked, drop_handle m h)
            end
        end
    end in
  (jni_catch 0 b, m).

Definition startServer (m : heap) (handle : Z) : outcome unit * heap :=
  match handle_ref m handle with
  | None => (jni_catch tt (Done tt (Some IllegalArgumentException)), m)
  | Some None => (jni_catch tt Invalid, m)
  | Some (Some h) => (jni_catch tt (Done tt None), mkHeap (<[handle := start h]> (boxes m)) (dropped m))
  end.

(** [jni_shutdown_and_release] *)
Definition stopServer (m : heap) (handle : Z) : outcome unit * heap :=
  if handle =? 0 then (jni_catch tt (Done tt None), m)
  else
    match take_handle m handle with
    | None => (jni_catch tt (Done tt (Some IllegalArgumentException)), m)
    | Some None => (jni_catch tt Invalid, m)
    | Some (Some (h, m)) => (jni_catch tt (Done tt None), shutdown_and_destroy_in_background m h)
    end.

(** [usize as jint] *)
Definition as_jint (v : Z) : Z := let w := v `mod` 2 ^ 32 in if w <=? i32_max then w else w - 2 ^ 32.

(** [size] is the counter of the crawl engine. *)
Definition getNodePoolSize (m : heap) (handle size : Z) : outcome Z * heap :=
  match handle_ref m handle with
  | None => (jni_catch 0 (Done 0 None), m)
  | Some None => (jni_catch 0 Invalid, m)
  | Some (Some h) => (jni_catch 0 (Done (as_jint size) None), m)
  end.

(** *** Sequences of calls *)

Inductive native :=
  | Create (c : creation)
  | Start (handle : Z)
  | Stop (handle : Z)
  | PoolSize (handle size : Z).

(** The value returned, [0] for [void], with the exception. *)
Definition void (r : outcome unit * heap) : outcome Z * heap :=
  (match r.1 with Returned _ e => Returned 0 e | Undefined => Undefined end, r.2).

Definition execute (m : heap) (n : native) : outcome Z * heap :=
  match n with
  | Create c => createServer m c
  | Start h => void (startServer m h)
  | Stop h => void (stopServer m h)
  | PoolSize h size => getNodePoolSize m h size
  end.

(** What Java promises: a handle is null or one that was returned and not
    stopped since ([known]).  What the platform and the crate promise: a fresh
    box has an address of its own, the options come from the conversion, and
    the counter is within the pool. *)
Definition permitted (known : gset Z) (m : heap) (n : native) : Prop :=
  match n with
  | Create c =>
      address c ≠ 0 ∧ boxes m !! address c = None
      ∧ ∃ null get_int get_long, in_java_range get_int get_long
          ∧ opts c = java_to_dht_options_or_default get_int get_long null
  | Start h | Stop h => h = 0 ∨ h ∈ known
  | PoolSize h size =>
      h = 0 ∨ h ∈ known ∧ ∀ s, boxes m !! h = Some s → 0 ≤ size ≤ pl_capacity (co_pool (dh_crawl (options s)))
  end.

(** The handles Java knows after a call. *)
Definition learn (known : gset Z) (n : native) (r : outcome Z) : gset Z :=
  match n, r with
  | Create _, Returned ptr None => {[ptr]} ∪ known
  | Stop h, _ => known ∖ {[h]}
  | _, _ => known
  end.

Inductive history : gset Z → heap → Prop :=
  | hist_start : history ∅ (mkHeap ∅ [])
  | hist_call known m n :
      history known m → permitted known m n →
      history (learn known n (execute m n).1) (execute m n).2.

Record heap_ok (known : gset Z) (m : heap) : Prop := {
  ho_known : dom (boxes m) = known;
  ho_null : boxes m !! 0 = None;
  ho_boxes : map_Forall (λ _ h, cancelled h = false ∧ pl_capacity (co_pool (dh_crawl (options h))) ≤ i32_max) (boxes m);
  ho_dropped : Forall (λ h, cancelled h = false → starts h = 0%nat) (dropped m);
}.

Lemma converted_capacity get_int get_long null o :
  in_java_range get_int get_long → java_to_dht_options_or_default (JniError := JniError) get_int get_long null = Ok o →
  pl_capacity (co_pool (dh_crawl o)) ≤ i32_max.
Proof.
  unfold java_to_dht_options_or_default. intros Hr. destruct null.
  - intros [= <-]. unfold i32_max. cbn. lia.
  - intros Ho. pose proof (conversion_conforms get_int get_long Hr) as Hc. unfold conforms in Hc. rewrite Ho in Hc.
    destruct (first_error _ _ _); [done|]. injection Hc as ->. cbn. by apply value_bound.
Qed.

Lemma as_jint_small v : 0 ≤ v ≤ i32_max → as_jint v = v.
Proof.
  unfold as_jint, i32_max. intros Hv. rewrite Z.mod_small by lia. destruct (Z.leb_spec v (2 ^ 31 - 1)); lia.
Qed.

(** What a permitted call does. *)
Definition call_correct (m : heap) (n : native) (r : outcome Z) (m' : heap) : Prop :=
  match n with
  | Create c =>
      match opts c with
      | Ok o =>
          if decide (runtime_ok c = true ∧ server_new c o = Some true) then
            if decide (listener c = true → callback_new c = Some true) then
              r = Returned (address c) None
              ∧ m' = mkHeap (<[address c := mkHandle o false 0]> (boxes m)) (dropped m)
            else r = Returned 0 (Some RuntimeException) ∧ m' = mkHeap (boxes m) (mkHandle o false 0 :: dropped m)
          else r = Returned 0 (Some RuntimeException) ∧ m' = m
      | Err _ => r = Returned 0 (Some IllegalArgumentException) ∧ m' = m
      | Panic => r = Returned 0 (Some RuntimeException) ∧ m' = m
      end
  | Start h =>
      if decide (h = 0) then r = Returned 0 (Some IllegalArgumentException) ∧ m' = m
      else ∃ s, boxes m !! h = Some s ∧ r = Returned 0 None
             ∧ m' = mkHeap (<[h := mkHandle (options s) false (S (starts s))]> (boxes m)) (dropped m)
  | Stop h =>
      if decide (h = 0) then r = Returned 0 None ∧ m' = m
      else ∃ s, boxes m !! h = Some s ∧ r = Returned 0 None
             ∧ m' = mkHeap (delete h (boxes m)) (mkHandle (options s) true (starts s) :: dropped m)
  | PoolSize h size => r = Returned (if decide (h = 0) then 0 else size) None ∧ m' = m
  end.

Lemma known_box known m h : heap_ok known m → h ∈ known → h ≠ 0 ∧ ∃ s, boxes m !! h = Some s ∧ cancelled s = false
  ∧ pl_capacity (co_pool (dh_crawl (options s))) ≤ i32_max.
Proof.
  intros [<- H0 Hb _] [s Hs]%elem_of_dom. split; [congruence|]. exists s. split; [done|]. by apply (Hb h).
Qed.

Lemma execute_correct known m n :
  heap_ok known m → permitted known m n → call_correct m n (execute m n).1 (execute m n).2.
Proof.
  intros Hok. destruct n as [c|h|h|h size]; cbn [permitted execute call_correct].
  - intros (Ha & Hm & null & gi & gj & Hr & Ho). unfold createServer, handle_new, into_handle_ptr.
    destruct (opts c) as [o|e|]; cbn; [|done..]. destruct (runtime_ok c); [|by rewrite decide_False by naive_solver].
    destruct (server_new c o) as [[]|]; [|by rewrite decide_False by naive_solver..]. rewrite decide_True by done.
    destruct (listener c); [|by rewrite decide_True].
    destruct (callback_new c) as [[]|]; [by rewrite decide_True|by rewrite decide_False by naive_solver..].
  - unfold startServer, handle_ref. intros [->|Hk]; [done|]. destruct (known_box _ _ _ Hok Hk) as (Hne & s & Hs & Hc & _).
    rewrite decide_False by done. destruct (Z.eqb_spec h 0); [done|]. rewrite Hs. exists s. split_and!; try done.
    unfold start. by rewrite Hc.
  - unfold stopServer, take_handle. intros [->|Hk]; [done|]. destruct (known_box _ _ _ Hok Hk) as (Hne & s & Hs & _ & _).
    rewrite decide_False by done. destruct (Z.eqb_spec h 0); [done|]. rewrite Hs. by exists s.
  - unfold getNodePoolSize, handle_ref. intros [->|[Hk Hsz]]; [done|].
    destruct (known_box _ _ _ Hok Hk) as (Hne & s & Hs & _ & Hcap). rewrite decide_False by done.
    destruct (Z.eqb_spec h 0); [done|]. rewrite Hs. cbn. specialize (Hsz s Hs). by rewrite as_jint_small by lia.
Qed.

Lemma execute_ok known m n :
  heap_ok known m → permitted known m n → heap_ok (learn known n (execute m n).1) (execute m n).2.
Proof.
  intros Hok Hp. pose proof (execute_correct _ _ _ Hok Hp) as Hc. destruct Hok as [Hk H0 Hb Hd].
  destruct n as [c|h|h|h size]; cbn [permitted call_correct learn] in *.
  - destruct Hp as (Ha & Hm & null & gi & gj & Hr & Ho). destruct (opts c) as [o|e|]; [|by destruct Hc as [-> ->]; split..].
    case_decide; [|by destruct Hc as [-> ->]; split].
    case_decide; destruct Hc as [-> ->]; [|split; try done; by constructor].
    split; cbn; [by rewrite dom_insert_L, Hk|by rewrite lookup_insert_ne| |done].
    apply map_Forall_insert_2; [|done]. split; [done|]. cbn. by eapply converted_capacity.
  - case_decide; [by destruct Hc as [_ ->]; split|]. destruct Hc as (s & Hs & _ & ->). pose proof (Hb h s Hs) as [_ ?].
    split; cbn; [|by rewrite lookup_insert_ne| |done].
    + rewrite dom_insert_L, Hk. apply elem_of_dom_2 in Hs. set_solver.
    + by apply map_Forall_insert_2.
  - case_decide; [destruct Hc as [_ ->]; split; try done|].
    + subst h. rewrite Hk. assert (0 ∉ known) by (rewrite <-Hk; by apply not_elem_of_dom). set_solver.
    + destruct Hc as (s & Hs & _ & ->). split; cbn; [by rewrite dom_delete_L, Hk| | |by constructor].
      * by rewrite lookup_delete_ne.
      * by apply map_Forall_delete.
  - destruct Hc as [_ ->]. by split.
Qed.


End natives.

(** One server that is created, started, asked and stopped. *)
Definition toy_creation : @creation unit := mkCreation (Ok DHTOptions_default) true (λ _, Some true) true (Some true) 4096.
Definition toy_heap : heap :=
  (execute (execute (mkHeap ∅ []) (Create toy_creation)).2 (@Start unit 4096)).2.


End Exports.
